(* ===== verification/_CoqProject ===== *)
-Q . S2P
Prelude.v
JsMap.v
JsVal.v
AtomicFile.v
Reservation.v
Ledger.v
LedgerProps.v
LedgerQueue.v
Text.v
Http.v
IdAllocator.v
IdAllocatorProps.v
IdAllocatorSystem.v
DoltMutex.v
DoltMutexProps.v
History.v
Store.v
Process.v
Spawner.v
SpawnerProps.v
Reconcile.v
ReconcileProps.v
SprintArgs.v
Scope.v
ScopeProps.v
RunState.v
Watchdog.v
WatchdogProps.v
LaunchRequest.v
LaunchRequestProps.v
Api.v
ApiProps.v
RunnerArgs.v
RunnerArgsProps.v
Backlog.v
BacklogProps.v
SprintIdentity.v
BeadsIdentity.v
BeadsIdentityProps.v
Closure.v
SprintLock.v
SprintLockProps.v
UsageLimit.v
UsageLimitProps.v
BeadGraph.v
BeadGraphProps.v
SetAside.v
SetAsideProps.v
Worklists.v
WorklistsProps.v
PackProps.v
Dispatch.v
DispatchProps.v
PauseGate.v
PauseGateProps.v
Journal.v
JournalProps.v
Replay.v
ReplayProps.v
ReplayKeys.v
ReplayResume.v
Extract.v
ExtractProps.v
Agent.v
AgentProps.v
