(* ===== verification/Prelude.v ===== *)
(** * fleet-sprint and its workflow engine: a verification library

    The always-on supervisor of [packages/apra-fleet-se] launches sprints,
    each a detached child process that drives a set of fleet members over a
    subtree of issues, and keeps the books: who holds which member, which ids
    and which push right have been given out, which sprints ended and how.
    The library models that supervisor, the validation of a launch on its way
    to the sprint runner, the planning decisions the runner makes without
    talking to anyone, and the core of the workflow engine
    ([packages/apra-fleet-workflow]) that a sprint's script runs on.

    ** The parts

    Each file names the source it models at its top; [Foo] has the data and
    the operations, [FooProps] the theorems.

    - Foundations.  [Prelude] (errors, the error monad, generic lemmas, the
      [js] hint database), [JsMap] (a JS [Map] as an insertion-ordered
      association list), [JsVal] (untyped JSON values), [Text], [Http],
      [AtomicFile] ([rename-with-retry.mjs] and the write-then-rename all
      stores use).
    - Stores.  [Reservation], [Ledger], [LedgerProps], [LedgerQueue]
      ([ledger.mjs]); [History] ([history.mjs]); [Store] states what the
      clients below use of the two as type classes.  [IdAllocator],
      [IdAllocatorProps], [IdAllocatorSystem] ([id-allocator.mjs]);
      [DoltMutex], [DoltMutexProps] ([dolt-mutex.mjs]).
    - Children.  [Process], [Spawner], [SpawnerProps] ([spawner.mjs]);
      [Reconcile], [ReconcileProps] ([reconcile.mjs], [readopt.mjs],
      [child-port.mjs]); [RunState] ([run-state-paths.mjs]); [Watchdog],
      [WatchdogProps] ([watchdog.mjs]).
    - Launching.  [LaunchRequest], [Api] and their properties ([api.mjs],
      [bin/serve.mjs]); [Scope], [ScopeProps] ([scope-overlap.mjs], the tree
      functions of [backlog.mjs]); [Backlog], [BacklogProps] (the rest of
      [backlog.mjs]); [SprintIdentity] ([sprint-identity.mjs]).
    - The argument contract.  [SprintArgs], [RunnerArgs], [RunnerArgsProps]
      ([sprint-args.mjs], [backlog-role.mjs], [bin/cli.mjs], parts of
      [contracts.mjs]); [BeadsIdentity], [BeadsIdentityProps]
      ([beads-identity.mjs]).
    - The runner's planning ([fleet-sprint/]).  [BeadGraph], [BeadGraphProps]
      (the functions of [beads-scope.mjs] over one listing of beads);
      [SetAside], [SetAsideProps] ([set-aside.mjs]); [Worklists],
      [WorklistsProps], [PackProps] ([worklists.mjs]); [Dispatch],
      [DispatchProps] (which ready beads a develop round dispatches,
      [runner.js], and the record of a doer's BLOCKED report,
      [phases/develop.mjs]); [SprintLock], [SprintLockProps]
      ([sprint-lock.mjs]); [UsageLimit], [UsageLimitProps]
      ([usage-limit-controller.mjs]).  [Closure] is the breadth-first search
      the graph walks share.
    - The workflow engine ([workflow/index.mjs], [workflow/journal.mjs]).
      [PauseGate], [PauseGateProps] (the gate every call passes, pause, resume
      and stop); [Journal], [JournalProps] (the journal file and its loader);
      [Replay] (the numbering, replay and journaling of a script's calls and
      the [parallel()] barrier), [ReplayProps] (schedules), [ReplayKeys] (keys),
      [ReplayResume] (resuming); [Extract], [ExtractProps] (the JSON value of a
      reply); [Agent], [AgentProps] (the attempts of an [agent()] call, with
      [fleetToolFailureOf] of [apra-fleet-client]).

    [Api.launch] composes them the way [POST /api/sprints] does: validation,
    role map, member guard, scope guard, relaunch gate ([launch_admit]), then
    [Spawner.spawnSprint], then [Ledger.claim].  [RunnerArgs.cli_start] and
    [validateArgs] read the same launch on the child's side.  The runner's [Dispatch.dispatchableReadyLeafBeads]
    composes the goal partition of [BeadGraph], the waiting beads of [SetAside]
    and the lane order of [Worklists]; what it leaves undispatched is what the
    stall check of [SetAside] reads.  [Reconcile] and
    [Watchdog] release what dead children leave in the ledger, and write the
    history that the relaunch gate of [launch_admit] reads.  In the engine a
    call waits at [PauseGate], is looked up in the journal by [Replay], and is
    dispatched and repaired by [Agent], which reads replies with [Extract]; the
    records it emits are what [Journal] writes and a later [Replay] loads.

    ** What is shown

    - Stores: the ledger is a finite map, all or nothing, kept on disk across
      restarts and mirrored by the fleet server when calls do not overlap; the
      history is append-only; a confirmed child id is never minted again and a
      returned grant survives a crash; two grants of the push mutex never
      overlap, are given in arrival order, and none is lost.
    - Life cycle: reconciliation and the watchdog release exactly what dead
      sprints hold and never what a live one holds; re-adoption reports every
      retained sprint; force-release does what it reports.
    - Launching: sequential launches keep members and ports disjoint; the
      scope guard is exact for the live subtrees; each outcome of a launch
      changes exactly what it says; the three readers of a launch agree.
      What concurrency breaks is shown on concrete runs.
    - Views: the backlog is exactly the complement of the sprints' subtrees.
    - Planning: a develop round that has nothing to dispatch while beads at
      goal priority are open is a stall that names each of them; a BLOCKED
      report settles every bead it names; the goal partition, the verify set,
      the lane order and the stuck beads are characterised exactly; packing
      keeps every streak, within slots, budget, tiers and dependencies.
    - Guards of a run: the sprint lock excludes other launches once it is
      held, and the system calls of a launch on its own compute the function
      [acquireSprintLock]; interleaved launches can both succeed, shown on two
      runs.  A usage-limit wait ends, within its budget.
    - The engine: a pause in effect has nothing counted in flight, and a call
      blocked at the gate is released or torn down; a journal reloads exactly
      up to a failed append or a torn line; a script's calls, keys and result
      do not depend on the interleaving of its branches, no two calls share a
      key, and a complete journal replays a run without dispatching anything;
      what a journal cut short loses is shown on a concrete run.  Extraction is
      exact for the grammar of bracketed spans; an agent call ends within its
      dispatch bound, with one start and one end per attempt, and repairs in
      the session that failed.

    ** How the code is read

    - A [Map] or plain object is an association list in insertion order
      without repeated keys; integer-like keys and [__proto__] are not
      modelled.  Integers are exact ([Z]): JS integers below 2^53.  Strings
      are ASCII code units.
    - A script of the engine is the tree of what it does next; a run is a list
      of choices of which branch moves, so a theorem over runs is one over all
      interleavings.
    - Clocks, process probes, file-system outcomes, random ids and digests,
      [JSON.parse]/[JSON.stringify] of texts the code does not produce itself,
      URL parsing, [Date.parse] and [localeCompare] are arguments.  A document
      a store wrote is read back as written.
    - An [async] function is modelled at the granularity at which others can
      run in between: [LedgerQueue] and [IdAllocatorSystem] have the queued
      write as a step of its own, [Api.launch] is three stages, the mutex's
      pending promises are numbers settled by log events.  History records
      that are fired and not awaited are executed at once; [classifyAll] is
      one entry after the other.
    - Messages that embed paths or engine texts are abbreviated; log lines are
      left out.  A loader answers [None] on a document whose unvalidated
      fields no store ever writes: the model says nothing there.
    - A theorem about an interface ([Store], [MemberGuard]) is proved once
      against its laws; the instances discharge them.

    ** Bounds and fuel

    Fuel stands for recursion the source leaves to the engine, and each use is
    proved sufficient: the rename loop runs its fixed number of attempts; the
    scope expansion takes one step per root or index entry plus one
    ([scope_fuel]); a forest is at most as deep as the tracker is long; port
    search ends at [MAX_PORT]; base-36 digits are bounded by the logarithm.
    A graph walk visits each known id once ([Closure.bfs_total]); a parent
    chain is no longer than the listing; the stuck and the lane-hold loops
    grow or shrink a set of beads on each pass; ordering removes a streak per
    step; a usage-limit wait has one turn per counted reprobe and one more.
    The scans of a reply have its length as fuel ([candidates_exact]); an agent
    call has [maxRepairs + 1] turns and never needs another
    ([repair_loop_bounded]); a script's steps are bounded by its meaning
    ([schedules_agree]).

    ** Not modelled

    HTML pages ([dashboard], [launch-form], [log-view], [history-view]), the
    HTTP server's sockets and the child proxy, the caches over [bd] and the
    fleet server ([beads-view], [backlog-member], [fleet-members], the
    snapshot cache of [createBeadsScope]), the prompts and dispatches of the
    sprint runner ([runner.js], [dispatch-role], the rest of [phases/]), the
    git, dolt and VCS command ladders, of the workflow engine its script
    loading, [sequential]/[pipeline]/[transform], pricing and the viewer, and
    the MCP server of the repository ([src/src]): they are I/O, text, or code
    this library has not reached.

    ** Next

    The snapshot cache of [beads-scope.mjs]; the pure parts of the runner that
    remain ([beads-transitions], [dispatch-failure], [role-policies],
    [dolt-settle], [conflict-ladder], [coordination]); the script vetting and
    pricing of [apra-fleet-workflow]; [bin/serve.mjs]'s wiring. *)

From Stdlib Require Import QArith.
From stdpp Require Export base tactics list gmap strings pretty sorting.

(** ** Strings

    [+:+] is stdpp's string concatenation; a template literal of the source is
    a chain of it.  JS falsiness of a string is emptiness. *)

Definition nonempty (s : string) : bool := negb (bool_decide (s = ""%string)).

Lemma nonempty_spec s : nonempty s = true <-> s <> ""%string.
Proof. unfold nonempty. case_bool_decide; naive_solver. Qed.

Lemma nonempty_false s : nonempty s = false <-> s = ""%string.
Proof. unfold nonempty. case_bool_decide; naive_solver. Qed.

(** ** Errors and the error monad

    A JS function that may throw returns a [result].  The constructors are the
    error classes the supervisor raises: a [TypeError], a plain [Error], an
    error carrying a [code] (a Node system error), the [ApiError] of
    [api.mjs], and the [SprintNotFoundError] of [reconcile.mjs]. *)

Inductive js_error :=
| TypeErr (msg : string)
| PlainErr (msg : string)
| CodedErr (code msg : string)
| ApiErr (status : Z) (msg : string) (field : option string)
| SprintNotFound (sprintId : string).

#[export] Instance js_error_eq_dec : EqDecision js_error.
Proof. solve_decision. Defined.

Inductive result (A : Type) :=
| Ok (a : A)
| Throw (e : js_error).
Arguments Ok {A} _.
Arguments Throw {A} _.

#[export] Instance result_eq_dec `{EqDecision A} : EqDecision (result A).
Proof. solve_decision. Defined.

#[export] Instance result_ret : MRet result := fun A a => Ok a.
#[export] Instance result_bind : MBind result := fun A B f r =>
  match r with Ok a => f a | Throw e => Throw e end.
#[export] Instance result_fmap : FMap result := fun A B f r =>
  match r with Ok a => Ok (f a) | Throw e => Throw e end.

Definition is_ok {A} (r : result A) : bool :=
  match r with Ok _ => true | Throw _ => false end.

Lemma bind_Ok {A B} (f : A -> result B) (r : result A) b :
  (r ≫= f) = Ok b <-> exists a, r = Ok a /\ f a = Ok b.
Proof. destruct r; simpl; naive_solver. Qed.

Lemma fmap_Ok {A B} (f : A -> B) (r : result A) b :
  f <$> r = Ok b <-> exists a, r = Ok a /\ b = f a.
Proof. destruct r; simpl; naive_solver. Qed.

(** [mapM]-style traversal that stops at the first throw. *)
Fixpoint all_ok {A B} (f : A -> result B) (l : list A) : result (list B) :=
  match l with
  | [] => Ok []
  | x :: l' => y ← f x; ys ← all_ok f l'; Ok (y :: ys)
  end.

Lemma all_ok_Ok {A B} (f : A -> result B) l ys :
  all_ok f l = Ok ys <-> Forall2 (fun x y => f x = Ok y) l ys.
Proof.
  revert ys. induction l as [|x l IH]; intros ys; simpl.
  - split; [intros [= <-]; constructor | by intros ->%Forall2_nil_inv_l].
  - rewrite bind_Ok. setoid_rewrite bind_Ok. setoid_rewrite IH.
    split.
    + intros (y & Hy & ys' & Hys & [= <-]). by constructor.
    + intros (y & ys' & ? & ? & ->)%Forall2_cons_inv_l. eauto 6.
Qed.

(** [mapM] over a list each of whose elements has a good image. *)
Lemma mapM_all {A B} (f : A -> option B) (P : A -> B -> Prop) (l : list A) :
  (forall x, x ∈ l -> exists y, f x = Some y /\ P x y) -> exists k, mapM f l = Some k /\ Forall2 P l k.
Proof.
  induction l as [|x l IH]; intros Hl; [by exists []|].
  destruct (Hl x) as (y & Hy & HP); [set_solver|].
  destruct IH as (k & Hk & HF); [intros z Hz; apply Hl; set_solver|].
  exists (y :: k). cbn. rewrite Hy. simpl. rewrite Hk. split; [done|by constructor].
Qed.

(** A sublist of a sorted list. *)
Lemma StronglySorted_filter {A} (R : relation A) (P : A -> Prop) `{!forall x, Decision (P x)} (l : list A) :
  StronglySorted R l -> StronglySorted R (filter P l).
Proof.
  induction 1 as [|x l _ IH Hx]; [constructor|]. rewrite filter_cons. case_decide; [|done].
  constructor; [done|]. rewrite Forall_forall in *. intros y [_ Hy]%list_elem_of_filter. by apply Hx.
Qed.

Lemma StronglySorted_weaken {A} (R R' : relation A) (l : list A) :
  (forall x y, x ∈ l -> y ∈ l -> R x y -> R' x y) -> StronglySorted R l -> StronglySorted R' l.
Proof.
  intros Himp. induction 1 as [|x l _ IH Hx]; [constructor|]. constructor.
  - apply IH. intros y z Hy Hz. apply Himp; set_solver.
  - rewrite Forall_forall in *. intros y Hy. apply Himp; [set_solver..|by apply Hx].
Qed.

Lemma list_filter_iff_elem {A} (P Q : A -> Prop)
    `{!forall x, Decision (P x), !forall x, Decision (Q x)} (l : list A) :
  (forall x, x ∈ l -> P x <-> Q x) -> filter P l = filter Q l.
Proof.
  induction l as [|x l IH]; intros Hl; [done|]. rewrite !filter_cons, IH by set_solver.
  assert (P x <-> Q x) by (apply Hl; set_solver). by do 2 case_decide; tauto.
Qed.

Lemma list_filter_nil {A} (P : A -> Prop) `{!forall x, Decision (P x)} (l : list A) :
  filter P l = [] <-> forall x, x ∈ l -> ~ P x.
Proof.
  split.
  - intros Hf x Hx HP. apply (not_elem_of_nil x). rewrite <-Hf. by apply list_elem_of_filter.
  - intros Hn. destruct (filter P l) as [|x k] eqn:Hf; [done|]. exfalso.
    assert (x ∈ filter P l) as [HP Hx]%list_elem_of_filter by (rewrite Hf; set_solver). by eapply Hn.
Qed.

(** Filtering the images is filtering by the image. *)
Lemma filter_fmap {A B} (f : A -> B) (P : B -> Prop) `{!forall x, Decision (P x)} (l : list A) :
  filter P (f <$> l) = f <$> filter (fun x => P (f x)) l.
Proof.
  induction l as [|x l IH]; [done|]. rewrite fmap_cons, !filter_cons, IH. by case_decide.
Qed.

(** ** Hint databases

    [js] collects the inversion lemmas of the error monad and of the map
    operations; components add theirs. *)
Create HintDb js.

(** [inv_ok H] opens a successful monadic computation. *)
Ltac inv_ok H :=
  repeat (first
    [ apply bind_Ok in H; destruct H as (? & ? & H)
    | apply fmap_Ok in H; destruct H as (? & ? & H) ]);
  simplify_eq/=.

(** [split_if] / [split_if in H]: case on a boolean guard of the source. *)
Ltac split_if :=
  match goal with
  | |- context [if ?b then _ else _] =>
      match type of b with
      | bool => let E := fresh "E" in destruct b eqn:E
      | _ => let E := fresh "E" in destruct b as [E|E]
      end
  end.

(** ** Stable sorting

    [l.sort(compare)] with [le a b] for [compare(a, b) <= 0]. *)

Section stable_sort.
Context {A : Type} (le : A -> A -> bool).

Fixpoint insert_le (x : A) (l : list A) : list A :=
  match l with
  | [] => [x]
  | y :: l' => if le x y then x :: l else y :: insert_le x l'
  end.

Definition stable_sort (l : list A) : list A := foldr insert_le [] l.

Lemma insert_le_perm x l : insert_le x l ≡ₚ x :: l.
Proof. induction l as [|y l IH]; simpl; [done|]. destruct (le x y); [done|]. by rewrite IH, Permutation_swap. Qed.

Lemma stable_sort_perm l : stable_sort l ≡ₚ l.
Proof. induction l as [|x l IH]; simpl; [done|]. by rewrite insert_le_perm, IH. Qed.

Hypothesis le_total : forall x y, le x y = true \/ le y x = true.
Hypothesis le_trans : forall x y z, le x y = true -> le y z = true -> le x z = true.

Lemma insert_le_sorted x l :
  StronglySorted (fun a b => le a b = true) l ->
  StronglySorted (fun a b => le a b = true) (insert_le x l).
Proof.
  induction 1 as [|y l Hs IH Hall]; simpl; [by repeat constructor|].
  destruct (le x y) eqn:E.
  - constructor; [by constructor|]. constructor; [done|].
    eapply Forall_impl; [exact Hall|]. intros z Hz. by eapply le_trans.
  - constructor; [done|]. rewrite insert_le_perm. constructor; [|done].
    destruct (le_total x y); congruence.
Qed.

Lemma stable_sort_sorted l : StronglySorted (fun a b => le a b = true) (stable_sort l).
Proof. induction l as [|x l IH]; simpl; [constructor|]. by apply insert_le_sorted. Qed.
End stable_sort.
