(* ===== verification/JsMap.v ===== *)
(** * JavaScript [Map]: an insertion-ordered finite map

    The supervisor's modules keep their state in [Map] objects and iterate
    them in insertion order, which is observable (the order of [list()], of a
    conflict report, of reclaimed ids).  A [Map] is modelled as an association
    list without repeated keys; [jmap_gmap] relates it to an unordered finite
    map, and [jeq] identifies two maps that differ in iteration order only. *)

From S2P Require Import Prelude.

Section jmap.
Context {K V : Type} `{Countable K}.
Implicit Types (m : list (K * V)) (k : K) (v : V).

(** [map.get(k)] *)
Fixpoint jget (k : K) (m : list (K * V)) : option V :=
  match m with
  | [] => None
  | (k', v) :: m' => if decide (k' = k) then Some v else jget k m'
  end.

(** [map.has(k)] *)
Definition jhas (k : K) (m : list (K * V)) : bool :=
  match jget k m with Some _ => true | None => false end.

(** [map.set(k, v)]: an existing key keeps its place, a new one goes last. *)
Fixpoint jset (k : K) (v : V) (m : list (K * V)) : list (K * V) :=
  match m with
  | [] => [(k, v)]
  | (k', v') :: m' =>
      if decide (k' = k) then (k', v) :: m' else (k', v') :: jset k v m'
  end.

(** [map.delete(k)] without its boolean, which is [jhas k m]. *)
Definition jdel (k : K) (m : list (K * V)) : list (K * V) :=
  filter (fun kv => kv.1 ≠ k) m.

(** A well-formed map has no repeated key. *)
Definition jwf (m : list (K * V)) : Prop := NoDup m.*1.

(** The unordered map a [Map] denotes. *)
Definition jmap_gmap (m : list (K * V)) : gmap K V := list_to_map m.

Lemma jget_gmap k m : jget k m = jmap_gmap m !! k.
Proof.
  induction m as [|[k' v] m IH]; simpl; [done|].
  unfold jmap_gmap in *; simpl. rewrite lookup_insert.
  by repeat case_decide; simplify_eq.
Qed.

Lemma jhas_spec k m : jhas k m = true <-> is_Some (jget k m).
Proof. unfold jhas. destruct (jget k m); naive_solver. Qed.

Lemma jhas_false k m : jhas k m = false <-> jget k m = None.
Proof. unfold jhas. destruct (jget k m); naive_solver. Qed.

Lemma jget_elem k v m : jwf m -> jget k m = Some v <-> (k, v) ∈ m.
Proof.
  intros Hwf. rewrite jget_gmap. unfold jmap_gmap.
  symmetry. by apply elem_of_list_to_map.
Qed.

Lemma jget_Some_elem k v m : jget k m = Some v -> (k, v) ∈ m.
Proof. rewrite jget_gmap. apply elem_of_list_to_map_2. Qed.

Lemma jget_None k m : jget k m = None <-> k ∉ m.*1.
Proof. rewrite jget_gmap. symmetry. apply not_elem_of_list_to_map. Qed.

Lemma jset_gmap k v m : jmap_gmap (jset k v m) = <[k := v]> (jmap_gmap m).
Proof.
  induction m as [|[k' v'] m IH]; simpl; [done|].
  case_decide; subst; unfold jmap_gmap in *; simpl.
  - by rewrite insert_insert_eq.
  - rewrite IH. by rewrite insert_insert_ne.
Qed.

Lemma jdel_gmap k m : jmap_gmap (jdel k m) = delete k (jmap_gmap m).
Proof.
  unfold jdel, jmap_gmap. induction m as [|[k' v'] m IH]; simpl.
  - by rewrite delete_empty.
  - rewrite filter_cons; simpl. case_decide; simpl.
    + by rewrite IH, delete_insert_ne.
    + destruct (decide (k' = k)) as [->|]; [|done]. by rewrite IH, delete_insert_eq.
Qed.

Lemma jget_jset k k' v m :
  jget k' (jset k v m) = if decide (k = k') then Some v else jget k' m.
Proof. rewrite !jget_gmap, jset_gmap. apply lookup_insert. Qed.

Lemma jget_jset_eq k v m : jget k (jset k v m) = Some v.
Proof. rewrite jget_jset. by case_decide. Qed.

Lemma jget_jset_ne k k' v m : k ≠ k' -> jget k' (jset k v m) = jget k' m.
Proof. intros. rewrite jget_jset. by case_decide. Qed.

Lemma jget_jdel k k' m :
  jget k' (jdel k m) = if decide (k = k') then None else jget k' m.
Proof. rewrite !jget_gmap, jdel_gmap. apply lookup_delete. Qed.

Lemma jget_jdel_eq k m : jget k (jdel k m) = None.
Proof. rewrite jget_jdel. by case_decide. Qed.

Lemma jget_jdel_ne k k' m : k ≠ k' -> jget k' (jdel k m) = jget k' m.
Proof. intros. rewrite jget_jdel. by case_decide. Qed.

Lemma jset_keys_new k v m : jget k m = None -> jset k v m = m ++ [(k, v)].
Proof.
  induction m as [|[k' v'] m IH]; simpl; [done|].
  case_decide; [done|]. intros. by rewrite IH.
Qed.

Lemma jset_keys_old k v m : is_Some (jget k m) -> (jset k v m).*1 = m.*1.
Proof.
  induction m as [|[k' v'] m IH]; simpl; [by intros []|].
  case_decide; csimpl; [done|]. intros. f_equal. by apply IH.
Qed.

Lemma jset_wf k v m : jwf m -> jwf (jset k v m).
Proof.
  unfold jwf. intros Hwf. destruct (jget k m) eqn:E.
  - by rewrite jset_keys_old by eauto.
  - rewrite jset_keys_new, fmap_app by done. simpl. apply NoDup_app. split_and!; [done| |apply NoDup_singleton].
    intros x Hx. apply jget_None in E. set_solver.
Qed.

Lemma jset_new_length k v m : jhas k m = false -> length (jset k v m) = S (length m).
Proof. intros Hk%jhas_false. rewrite jset_keys_new by done. rewrite length_app. simpl. lia. Qed.

Lemma jhas_jset k k' v m : jhas k' (jset k v m) = true <-> k' = k \/ jhas k' m = true.
Proof.
  rewrite !jhas_spec, jget_jset. case_decide as Hk; [subst|].
  - split; [by left|]. intros _. by eexists.
  - split; [by right|]. naive_solver.
Qed.

Lemma jdel_keys_sub k m x : x ∈ (jdel k m).*1 -> x ∈ m.*1.
Proof.
  unfold jdel. rewrite !list_elem_of_fmap. intros ([k' v] & -> & Hx).
  apply list_elem_of_filter in Hx as [_ Hx]. by exists (k', v).
Qed.

Lemma jdel_wf k m : jwf m -> jwf (jdel k m).
Proof.
  unfold jwf, jdel. induction m as [|[k' v] m IH]; simpl; [done|].
  intros [Hn Hwf]%NoDup_cons. rewrite filter_cons; simpl. case_decide; [|by auto].
  simpl. apply NoDup_cons. split; [|by auto].
  intros Hin. by apply (jdel_keys_sub k) in Hin.
Qed.

Lemma jdel_absent k m : jget k m = None -> jdel k m = m.
Proof.
  intros Hn%jget_None. unfold jdel. induction m as [|[k' v] m IH]; simpl in *; [done|].
  rewrite filter_cons; simpl. case_decide; [|set_solver]. f_equal. apply IH. set_solver.
Qed.

Lemma jdel_elem k k' v m : (k', v) ∈ jdel k m <-> k' ≠ k /\ (k', v) ∈ m.
Proof. unfold jdel. rewrite list_elem_of_filter. done. Qed.

Lemma jset_elem k v k' v' m :
  (k', v') ∈ jset k v m -> (k' = k /\ v' = v) \/ (k', v') ∈ m.
Proof.
  induction m as [|[k'' v''] m IH]; simpl; [set_solver|].
  case_decide; subst; set_solver.
Qed.

(** Deleting several keys. *)
Definition jdel_all (ks : list K) (m : list (K * V)) : list (K * V) :=
  filter (fun kv => kv.1 ∉ ks) m.

Lemma jdel_all_nil m : jdel_all [] m = m.
Proof.
  unfold jdel_all. induction m as [|kv m IH]; [done|].
  rewrite filter_cons, decide_True by set_solver. by rewrite IH.
Qed.

Lemma jdel_all_cons k ks m : jdel_all (k :: ks) m = jdel_all ks (jdel k m).
Proof.
  unfold jdel_all, jdel. rewrite list_filter_filter. apply list_filter_iff.
  intros [k' v]. simpl. set_solver.
Qed.

Lemma jget_jdel_all k ks m : k ∉ ks -> jget k (jdel_all ks m) = jget k m.
Proof.
  revert m. induction ks as [|k' ks IH]; intros m Hk; [by rewrite jdel_all_nil|].
  rewrite jdel_all_cons, IH by set_solver. apply jget_jdel_ne. set_solver.
Qed.

Lemma jget_jdel_all_in k ks m : k ∈ ks -> jget k (jdel_all ks m) = None.
Proof.
  intros Hk. apply jget_None. unfold jdel_all.
  intros ([k' v] & -> & [Hn _]%list_elem_of_filter)%list_elem_of_fmap. done.
Qed.

(** Deleting the keys of the entries that satisfy [P] keeps the others. *)
Lemma jdel_all_filter (P : K * V -> Prop) `{!forall kv, Decision (P kv)} m :
  jwf m -> jdel_all (filter P m).*1 m = filter (fun kv => ~ P kv) m.
Proof.
  intros Hwf. unfold jdel_all.
  assert (Hiff : forall kv, kv ∈ m -> (kv.1 ∉ (filter P m).*1 <-> ~ P kv)).
  { intros [k v] Hin. simpl. split.
    - intros Hn HP. apply Hn. apply list_elem_of_fmap. exists (k, v). split; [done|].
      by apply list_elem_of_filter.
    - intros HP ([k' v'] & Heq & [HP' Hin']%list_elem_of_filter)%list_elem_of_fmap.
      simpl in Heq. subst k'. apply HP.
      apply jget_elem in Hin, Hin'; [|done..]. by simplify_eq. }
  clear Hwf. revert Hiff. generalize ((filter P m).*1). intros ks.
  induction m as [|kv m IH]; intros Hiff; [done|]. rewrite !filter_cons.
  rewrite IH by (intros; apply Hiff; set_solver).
  assert (kv.1 ∉ ks <-> ~ P kv) as He by (apply Hiff; set_solver).
  destruct (decide (kv.1 ∉ ks)), (decide (~ P kv)); tauto || done.
Qed.

Lemma jwf_nil : jwf [].
Proof. apply NoDup_nil_2. Qed.

(** [new Map(entries)], and the [for (e of entries) map.set(...)] loops. *)
Definition jmap_of (l : list (K * V)) : list (K * V) :=
  foldl (fun m kv => jset kv.1 kv.2 m) [] l.

Lemma jset_foldl_NoDup m l :
  jwf (m ++ l) -> foldl (fun m kv => jset kv.1 kv.2 m) m l = m ++ l.
Proof.
  revert m. induction l as [|[k v] l IH]; intros m Hwf; simpl; [by rewrite app_nil_r|].
  assert (jget k m = None) as Hn.
  { apply jget_None. unfold jwf in Hwf. rewrite fmap_app in Hwf.
    apply NoDup_app in Hwf. set_solver. }
  rewrite jset_keys_new by done. rewrite IH; by rewrite <-app_assoc.
Qed.

Lemma jmap_of_id l : jwf l -> jmap_of l = l.
Proof. intros. by apply (jset_foldl_NoDup []). Qed.

Lemma jmap_of_wf l : jwf (jmap_of l).
Proof.
  unfold jmap_of. assert (jwf (@nil (K * V))) as Hwf by apply jwf_nil.
  revert Hwf. generalize (@nil (K * V)). induction l as [|kv l IH]; intros m Hm; simpl; [done|].
  apply IH. by apply jset_wf.
Qed.

(** Entries of [jdel] and [jset] on a well-formed map, as permutations. *)
Lemma jdel_perm k v m : jwf m -> jget k m = Some v -> m ≡ₚ (k, v) :: jdel k m.
Proof.
  induction m as [|[k' v'] m IH]; simpl; [done|].
  intros [Hn Hwf]%NoDup_cons Hk. unfold jdel. rewrite filter_cons. simpl in *. case_decide.
  - simplify_eq. rewrite decide_False by tauto. f_equiv.
    fold (jdel k m). rewrite jdel_absent; [done|]. by apply jget_None.
  - rewrite decide_True by done. fold (jdel k m). rewrite (IH Hwf Hk) at 1. constructor.
Qed.

Lemma jset_perm k v m : jwf m -> jset k v m ≡ₚ (k, v) :: jdel k m.
Proof.
  induction m as [|[k' v'] m IH]; simpl; [done|].
  intros [Hn Hwf]%NoDup_cons. unfold jdel. rewrite filter_cons. simpl in *. case_decide.
  - subst. rewrite decide_False by tauto. fold (jdel k m).
    rewrite jdel_absent; [done|]. by apply jget_None.
  - rewrite decide_True by done. fold (jdel k m). rewrite (IH Hwf). constructor.
Qed.

(** Equality up to iteration order. *)
Definition jeq (m1 m2 : list (K * V)) : Prop :=
  forall k, jget k m1 = jget k m2.

#[global] Instance jeq_equivalence : Equivalence jeq.
Proof. split; unfold jeq; repeat intros ?; congruence. Qed.

Lemma jeq_gmap m1 m2 : jeq m1 m2 <-> jmap_gmap m1 = jmap_gmap m2.
Proof.
  unfold jeq. split.
  - intros Heq. apply map_eq. intros k. by rewrite <-!jget_gmap.
  - intros Heq k. by rewrite !jget_gmap, Heq.
Qed.

#[global] Instance jget_proper k : Proper (jeq ==> (=)) (jget k).
Proof. intros m1 m2 Heq. apply Heq. Qed.

#[global] Instance jhas_proper k : Proper (jeq ==> (=)) (jhas k).
Proof. intros m1 m2 Heq. unfold jhas. by rewrite Heq. Qed.

#[global] Instance jset_proper k v : Proper (jeq ==> jeq) (jset k v).
Proof. intros m1 m2 Heq k'. rewrite !jget_jset. by rewrite Heq. Qed.

#[global] Instance jdel_proper k : Proper (jeq ==> jeq) (jdel k).
Proof. intros m1 m2 Heq k'. rewrite !jget_jdel. by rewrite Heq. Qed.
End jmap.

(** [map] over the values. *)
Lemma jget_fmap `{Countable K} {V W} (f : V -> W) (k : K) (m : list (K * V)) :
  jget k ((fun kv => (kv.1, f kv.2)) <$> m) = f <$> jget k m.
Proof. induction m as [|[k' v] m IH]; simpl; [done|]. by case_decide. Qed.

Lemma jmap_keys_fmap {K V W} (f : V -> W) (m : list (K * V)) :
  ((fun kv => (kv.1, f kv.2)) <$> m).*1 = m.*1.
Proof. rewrite <-list_fmap_compose. done. Qed.

Lemma jwf_fmap `{Countable K} {V W} (f : V -> W) (m : list (K * V)) :
  jwf m -> jwf ((fun kv => (kv.1, f kv.2)) <$> m).
Proof. unfold jwf. by rewrite jmap_keys_fmap. Qed.

#[export] Hint Resolve jwf_nil jset_wf jdel_wf jmap_of_wf : js.

(** A [Set] of strings built by insertion keeps first occurrences in order:
    the [seen]/[out] loops of the source. *)
Section dedup.
Context {A : Type} `{EqDecision A}.

(** [for (x of l) if (!seen.has(x)) { seen.add(x); out.push(x); }] *)
Fixpoint dedup_from (out : list A) (l : list A) : list A :=
  match l with
  | [] => out
  | x :: l' => dedup_from (if decide (x ∈ out) then out else out ++ [x]) l'
  end.

Definition dedup (l : list A) : list A := dedup_from [] l.

Lemma elem_of_dedup_from out l x : x ∈ dedup_from out l <-> x ∈ out \/ x ∈ l.
Proof.
  revert out. induction l as [|y l IH]; intros out; simpl; [set_solver|].
  rewrite IH. case_decide; set_solver.
Qed.

Lemma NoDup_dedup_from out l : NoDup out -> NoDup (dedup_from out l).
Proof.
  revert out. induction l as [|y l IH]; intros out Hnd; simpl; [done|].
  apply IH. case_decide; [done|]. apply NoDup_app.
  split_and!; [done|set_solver|apply NoDup_singleton].
Qed.

Lemma elem_of_dedup l x : x ∈ dedup l <-> x ∈ l.
Proof. unfold dedup. rewrite elem_of_dedup_from. set_solver. Qed.

Lemma NoDup_dedup l : NoDup (dedup l).
Proof. apply NoDup_dedup_from, NoDup_nil_2. Qed.

Lemma dedup_from_NoDup out l :
  NoDup (out ++ l) -> dedup_from out l = out ++ l.
Proof.
  revert out. induction l as [|y l IH]; intros out Hnd; simpl; [by rewrite app_nil_r|].
  assert (y ∉ out) by (apply NoDup_app in Hnd; set_solver).
  rewrite decide_False by done. rewrite IH; by rewrite <-app_assoc.
Qed.

Lemma dedup_id l : NoDup l -> dedup l = l.
Proof. intros. by apply (dedup_from_NoDup []). Qed.

Lemma dedup_Forall (P : A -> Prop) l : Forall P l -> Forall P (dedup l).
Proof. rewrite !Forall_forall. intros Hl x. rewrite elem_of_dedup. auto. Qed.
End dedup.

#[export] Hint Resolve NoDup_dedup dedup_Forall : js.

(** Grouping a list by an optional key, in order: the
    [if (!m.has(k)) m.set(k, []); m.get(k).push(x)] loops. *)
Section group_by.
Context {K A : Type} `{Countable K} (key : A -> option K).

Definition group_push (m : list (K * list A)) (x : A) : list (K * list A) :=
  match key x with
  | Some k => jset k (default [] (jget k m) ++ [x]) m
  | None => m
  end.

Definition group_by (l : list A) : list (K * list A) := foldl group_push [] l.

Lemma jget_group_by k l :
  default [] (jget k (group_by l)) = filter (fun x => key x = Some k) l.
Proof.
  unfold group_by. cut (forall m, default [] (jget k (foldl group_push m l))
    = default [] (jget k m) ++ filter (fun x => key x = Some k) l); [by intros ->|].
  induction l as [|x l IH]; intros m; simpl; [by rewrite app_nil_r|].
  rewrite IH, filter_cons. unfold group_push. destruct (key x) as [k'|].
  - rewrite jget_jset. do 2 case_decide; simplify_eq/=; try done. by rewrite <-app_assoc.
  - by rewrite decide_False.
Qed.

Lemma group_by_wf l : jwf (group_by l).
Proof.
  unfold group_by. cut (forall m, jwf m -> jwf (foldl group_push m l)); [intros Hc; apply Hc, jwf_nil|].
  induction l as [|x l IH]; intros m Hm; simpl; [done|]. apply IH. unfold group_push.
  destruct (key x); [by apply jset_wf|done].
Qed.

Lemma group_by_elem k g l : (k, g) ∈ group_by l -> g = filter (fun x => key x = Some k) l.
Proof.
  intros Hg. rewrite <-jget_group_by. apply jget_elem in Hg; [|apply group_by_wf]. by rewrite Hg.
Qed.
End group_by.
