(* ===== verification/JsVal.v ===== *)
(** * Untyped JavaScript values

    The launch requests, the persisted documents and the [bd list --json] rows
    reach the code untyped; the functions that check them ([typeof],
    [Array.isArray], [Number.isInteger], [??]) are modelled on this type.  An
    object is the list of its own enumerable string-keyed properties in
    insertion order.  Numbers distinguish what [Number.isInteger] and
    [Number.isFinite] distinguish; integers are exact ([Z]), as JS integers
    are below 2^53. *)

From Stdlib Require Import QArith.
From S2P Require Import Prelude JsMap.

Inductive jnum :=
| NInt (z : Z)
| NFrac (q : Q)       (** finite, not an integer *)
| NNaN
| NInf (pos : bool).

Inductive jsval :=
| JUndef
| JNull
| JBool (b : bool)
| JNum (n : jnum)
| JStr (s : string)
| JArr (l : list jsval)
| JObj (fields : list (string * jsval)).

(** [v == null] *)
Definition nullish (v : jsval) : bool :=
  match v with JUndef | JNull => true | _ => false end.

(** [v ?? d] *)
Definition coalesce (v d : jsval) : jsval := if nullish v then d else v.

(** [v.k] on a value that is not null or undefined; an absent property, and
    any of the properties read here on a primitive or an array, is
    [undefined]. *)
Definition prop (k : string) (v : jsval) : jsval :=
  match v with
  | JObj fs => match jget k fs with Some x => x | None => JUndef end
  | _ => JUndef
  end.

(** [typeof v === 'object'] (true of null and of arrays). *)
Definition typeof_object (v : jsval) : bool :=
  match v with JNull | JArr _ | JObj _ => true | _ => false end.

(** JS truthiness. *)
Definition truthy (v : jsval) : bool :=
  match v with
  | JUndef | JNull => false
  | JBool b => b
  | JNum (NInt z) => negb (Z.eqb z 0)
  | JNum (NFrac _) | JNum (NInf _) => true
  | JNum NNaN => false
  | JStr s => nonempty s
  | JArr _ | JObj _ => true
  end.

(** [Number.isInteger(v)], with the integer. *)
Definition as_int (v : jsval) : option Z :=
  match v with JNum (NInt z) => Some z | _ => None end.

(** [typeof v === 'string'], with the string. *)
Definition as_str (v : jsval) : option string :=
  match v with JStr s => Some s | _ => None end.

(** [typeof v === 'string' && v.length > 0], with the string. *)
Definition as_nonempty_str (v : jsval) : option string :=
  match v with JStr s => if nonempty s then Some s else None | _ => None end.

Definition as_arr (v : jsval) : option (list jsval) :=
  match v with JArr l => Some l | _ => None end.

(** Writing an optional value back: [null] for an absent one. *)
Definition of_opt {A} (f : A -> jsval) (o : option A) : jsval :=
  match o with Some a => f a | None => JNull end.

Definition jint (z : Z) : jsval := JNum (NInt z).
Definition jstrs (l : list string) : jsval := JArr (JStr <$> l).

Lemma as_nonempty_str_Some v s :
  as_nonempty_str v = Some s <-> v = JStr s /\ s <> ""%string.
Proof.
  destruct v; simpl; try naive_solver. destruct (nonempty s0) eqn:E.
  - apply nonempty_spec in E. naive_solver.
  - apply nonempty_false in E. naive_solver.
Qed.

(** [typeof v === 'number' && Number.isFinite(v)], with the number. *)
Definition as_Q (v : jsval) : option Q :=
  match v with JNum (NInt z) => Some (inject_Z z) | JNum (NFrac q) => Some q | _ => None end.

(** [x < y] *)
Definition Qltb (x y : Q) : bool := negb (Qle_bool y x).

(** [v === s] for a string [s]. *)
Definition is_str (s : string) (v : jsval) : bool :=
  match v with JStr t => bool_decide (t = s) | _ => false end.

Lemma Qltb_spec x y : Qltb x y = true <-> (x < y)%Q.
Proof.
  unfold Qltb. rewrite negb_true_iff, <-not_true_iff_false, Qle_bool_iff.
  split; [apply Qnot_le_lt|apply Qlt_not_le].
Qed.

Lemma is_str_spec s v : is_str s v = true <-> v = JStr s.
Proof. destruct v; simpl; try done. rewrite bool_decide_eq_true. split; congruence. Qed.
