(* ===== verification/AtomicFile.v ===== *)
(** * Atomic replacement of a JSON file

    [ledger.mjs], [history.mjs] and [id-allocator.mjs] persist their state the
    same way: serialise the document, write it to [<file>.tmp], rename the
    temporary file over the real one through the bounded retry loop of
    [rename-with-retry.mjs].  Failures of the three file operations are
    decided by an environment [io_env], so that every outcome the operating
    system can produce is covered. *)

From S2P Require Import Prelude JsMap JsVal.

(** ** rename-with-retry.mjs *)
Module RenameRetry.
Definition RENAME_RETRY_DEFAULT_MAX_ATTEMPTS : Z := 5.
Definition RENAME_RETRY_DEFAULT_BASE_DELAY_MS : Z := 10.

(** [opts]: any values; only suitable integers override the defaults. *)
Record opts := { maxAttempts_opt : jsval; baseDelayMs_opt : jsval }.

Definition no_opts : opts := {| maxAttempts_opt := JUndef; baseDelayMs_opt := JUndef |}.

Definition maxAttempts (o : opts) : Z :=
  match as_int (maxAttempts_opt o) with
  | Some z => if (0 <? z)%Z then z else RENAME_RETRY_DEFAULT_MAX_ATTEMPTS
  | None => RENAME_RETRY_DEFAULT_MAX_ATTEMPTS
  end.

Definition baseDelayMs (o : opts) : Z :=
  match as_int (baseDelayMs_opt o) with
  | Some z => if (0 <=? z)%Z then z else RENAME_RETRY_DEFAULT_BASE_DELAY_MS
  | None => RENAME_RETRY_DEFAULT_BASE_DELAY_MS
  end.

(** [Boolean(err) && (err.code === 'EPERM' || err.code === 'EBUSY')] *)
Definition retryable (err : js_error) : bool :=
  match err with
  | CodedErr code _ => bool_decide (code = "EPERM"%string) || bool_decide (code = "EBUSY"%string)
  | _ => false
  end.

(** What the loop did: its outcome, the number of [fs.rename] calls, and the
    delays it slept, in order. *)
Record outcome := { rr_result : result unit; rr_calls : Z; rr_sleeps : list Z }.

(** [rename n] is the outcome of the [n]-th [fs.rename] call ([None]:
    success).  [fuel] bounds the iterations; [renameWithRetry] gives it one
    unit per permitted attempt, which is always enough. *)
Fixpoint rename_loop (fuel : nat) (max base attempt : Z)
    (rename : Z -> option js_error) (sleeps : list Z) : option outcome :=
  match fuel with
  | O => None
  | S fuel' =>
      let attempt := (attempt + 1)%Z in
      match rename attempt with
      | None => Some {| rr_result := Ok tt; rr_calls := attempt; rr_sleeps := sleeps |}
      | Some err =>
          if negb (retryable err) || (max <=? attempt)%Z
          then Some {| rr_result := Throw err; rr_calls := attempt; rr_sleeps := sleeps |}
          else rename_loop fuel' max base attempt rename (sleeps ++ [(base * attempt)%Z])
      end
  end.

Definition renameWithRetry (o : opts) (rename : Z -> option js_error) : option outcome :=
  rename_loop (Z.to_nat (maxAttempts o)) (maxAttempts o) (baseDelayMs o) 0 rename [].

(** What a caller relies on. *)
Record retry_spec (max base : Z) (rename : Z -> option js_error) (out : outcome) : Prop := {
  rs_calls : (1 <= rr_calls out <= max)%Z;
  rs_retried : forall j, (1 <= j < rr_calls out)%Z ->
    exists e, rename j = Some e /\ retryable e = true;
  rs_slept : rr_sleeps out = (fun j => (base * j)%Z) <$> seqZ 1 (rr_calls out - 1);
  rs_result : match rr_result out with
              | Ok _ => rename (rr_calls out) = None
              | Throw e => rename (rr_calls out) = Some e /\
                           (retryable e = false \/ rr_calls out = max)
              end
}.

Lemma maxAttempts_pos o : (0 < maxAttempts o)%Z.
Proof.
  unfold maxAttempts, RENAME_RETRY_DEFAULT_MAX_ATTEMPTS.
  destruct (as_int _); [|lia]. split_if; lia.
Qed.

Lemma baseDelayMs_nonneg o : (0 <= baseDelayMs o)%Z.
Proof.
  unfold baseDelayMs, RENAME_RETRY_DEFAULT_BASE_DELAY_MS.
  destruct (as_int _); [|lia]. split_if; lia.
Qed.

Lemma rename_loop_spec fuel max base attempt rename :
  (0 <= attempt)%Z -> (max = attempt + Z.of_nat fuel)%Z -> fuel <> 0 ->
  (forall j, (1 <= j <= attempt)%Z -> exists e, rename j = Some e /\ retryable e = true) ->
  exists out, rename_loop fuel max base attempt rename
                ((fun j => (base * j)%Z) <$> seqZ 1 attempt) = Some out
              /\ retry_spec max base rename out.
Proof.
  revert attempt. induction fuel as [|fuel IH]; intros attempt Hpos Hmax Hf Hprev; [done|].
  simpl. destruct (rename (attempt + 1)%Z) as [err|] eqn:Hr.
  - destruct (negb (retryable err) || (max <=? attempt + 1)%Z) eqn:Hstop.
    + eexists; split; [done|]. apply orb_true_iff in Hstop as [Hs|Hs].
      * apply negb_true_iff in Hs.
        split; simpl; [lia|intros j ?; apply Hprev; lia| by rewrite Z.add_simpl_r|by auto].
      * apply Z.leb_le in Hs.
        split; simpl; [lia|intros j ?; apply Hprev; lia|by rewrite Z.add_simpl_r|].
        split; [done|right; lia].
    + apply orb_false_iff in Hstop as [Hs1 Hs2].
      apply negb_false_iff in Hs1. apply Z.leb_gt in Hs2.
      replace ((_ <$> seqZ 1 attempt) ++ _)
        with ((fun j => (base * j)%Z) <$> seqZ 1 (attempt + 1)).
      * apply IH; [lia|lia|lia|]. intros j Hj.
        destruct (decide (j = attempt + 1)%Z) as [->|]; [by eauto|apply Hprev; lia].
      * rewrite seqZ_app by lia. rewrite fmap_app. f_equal.
        rewrite seqZ_cons by lia. simpl. by rewrite Z.add_comm.
  - eexists; split; [done|].
    split; simpl; [lia|intros j ?; apply Hprev; lia|by rewrite Z.add_simpl_r|done].
Qed.

Lemma renameWithRetry_total o rename :
  exists out, renameWithRetry o rename = Some out
              /\ retry_spec (maxAttempts o) (baseDelayMs o) rename out.
Proof.
  pose proof (maxAttempts_pos o). apply rename_loop_spec; [lia|lia|lia|lia].
Qed.
End RenameRetry.

(** ** Files and the write-then-rename replacement *)

(** The content of a file: text that parses as the JSON value [v], or text
    that does not parse (a torn or foreign file).  [JSON.parse] inverts
    [JSON.stringify] on the documents written here. *)
Inductive filetext := FJson (v : jsval) | FGarbage (s : string).

Record files := { f_main : option filetext; f_tmp : option filetext }.

Definition no_files : files := {| f_main := None; f_tmp := None |}.

(** Outcomes of the operating-system calls of one write. *)
Record io_env := {
  io_mkdir : option js_error;            (** [fs.mkdir] *)
  io_write : option (js_error * filetext); (** [fs.writeFile]: the error and what it left in the file *)
  io_rename : Z -> option js_error       (** the [n]-th [fs.rename] *)
}.

Definition io_ok : io_env :=
  {| io_mkdir := None; io_write := None; io_rename := fun _ => None |}.

Section write_atomic.
Context (ropts : RenameRetry.opts) (env : io_env).

(** The body every [persist] shares: [mkdir], [writeFile(tmp)], rename. *)
Definition write_atomic (doc : jsval) (fs : files) : files * result unit :=
  match io_mkdir env with
  | Some e => (fs, Throw e)
  | None =>
      match io_write env with
      | Some (e, leftover) => ({| f_main := f_main fs; f_tmp := Some leftover |}, Throw e)
      | None =>
          let fs1 := {| f_main := f_main fs; f_tmp := Some (FJson doc) |} in
          match RenameRetry.renameWithRetry ropts (io_rename env) with
          | Some out =>
              match RenameRetry.rr_result out with
              | Ok _ => ({| f_main := f_tmp fs1; f_tmp := None |}, Ok tt)
              | Throw e => (fs1, Throw e)
              end
          | None => (fs1, Throw (PlainErr "renameWithRetry did not return"))
          end
      end
  end.

(** The file is replaced whole or not at all, and the caller is told which. *)
Lemma write_atomic_main doc fs fs' r :
  write_atomic doc fs = (fs', r) ->
  match r with
  | Ok _ => f_main fs' = Some (FJson doc)
  | Throw _ => f_main fs' = f_main fs
  end.
Proof.
  unfold write_atomic. intros Hw.
  destruct (io_mkdir env); [by simplify_eq|].
  destruct (io_write env) as [[]|]; [by simplify_eq|].
  destruct (RenameRetry.renameWithRetry_total ropts (io_rename env)) as (out & Ho & _).
  rewrite Ho in Hw. destruct (RenameRetry.rr_result out); by simplify_eq.
Qed.
End write_atomic.

Lemma write_atomic_io_ok ropts doc fs :
  write_atomic ropts io_ok doc fs = ({| f_main := Some (FJson doc); f_tmp := None |}, Ok tt).
Proof.
  unfold write_atomic; simpl.
  destruct (RenameRetry.renameWithRetry_total ropts (fun _ => None)) as (out & -> & Hout).
  destruct Hout as [_ _ _ Hres]. destruct (RenameRetry.rr_result out) as [[]|]; naive_solver.
Qed.
