(* ===== verification/Reservation.v ===== *)
(** * Reservations: the record the ledger stores

    [normalizeReservation], [normalizeBeadsSummary] and [cloneReservation] of
    [src/supervisor/ledger.mjs], and the JSON form a reservation has on disk. *)

From S2P Require Import Prelude JsMap JsVal.
Local Open Scope string_scope.
Local Open Scope list_scope.

Record beads_summary := {
  b_dir : string; b_prefix : string; b_syncRemote : string; b_repoRemote : string
}.

Record reservation := {
  members : list string;
  issueRoots : list string;
  childPid : option Z;
  reservedAt : string;
  branch : option string;
  base : option string;
  goal : option string;
  exitCode : option Z;
  signal : option string;
  exitedAt : option string;
  logPath : option string;
  beads : option beads_summary
}.

#[export] Instance beads_summary_eq_dec : EqDecision beads_summary.
Proof. solve_decision. Defined.
#[export] Instance reservation_eq_dec : EqDecision reservation.
Proof. solve_decision. Defined.

(** ** Checking a claim's fields *)

(** One element of [members] / [issueRoots]. *)
Definition check_item (label : string) (item : jsval) : result string :=
  match as_nonempty_str item with
  | Some s => Ok s
  | None => Throw (TypeErr (label +:+ " must contain only non-empty strings"))
  end.

Definition toStringArray (v : jsval) (label : string) : result (list string) :=
  if nullish v then Ok []
  else match as_arr v with
       | None => Throw (TypeErr (label +:+ " must be an array of strings"))
       | Some l => out ← all_ok (check_item label) l; Ok (dedup out)
       end.

(** [undefined] and [null] become [null]; anything else must be an integer. *)
Definition toNullableInt (v : jsval) (label : string) : result (option Z) :=
  if nullish v then Ok None
  else match as_int v with
       | Some z => Ok (Some z)
       | None => Throw (TypeErr (label +:+ " must be an integer or null"))
       end.

Definition toNullableString (v : jsval) (label : string) : result (option string) :=
  if nullish v then Ok None
  else match as_str v with
       | Some s => Ok (Some s)
       | None => Throw (TypeErr (label +:+ " must be a string or null"))
       end.

(** One field of the beads summary: absent becomes the empty string. *)
Definition beads_field (v : jsval) (k : string) : result string :=
  let f := prop k v in
  if nullish f then Ok ""
  else match as_str f with
       | Some s => Ok s
       | None => Throw (TypeErr ("beads." +:+ k +:+ " must be a string"))
       end.

Definition normalizeBeadsSummary (v : jsval) : result (option beads_summary) :=
  match v with
  | JUndef | JNull => Ok None
  | JObj _ =>
      d ← beads_field v "dir";
      p ← beads_field v "prefix";
      s ← beads_field v "syncRemote";
      r ← beads_field v "repoRemote";
      Ok (Some {| b_dir := d; b_prefix := p; b_syncRemote := s; b_repoRemote := r |})
  | _ => Throw (TypeErr "beads must be an object or null")
  end.

(** [now] is the injected clock's value, used when [reservedAt] is not a
    string. Reading a property of [null] or [undefined] throws. *)
Definition normalizeReservation (input : jsval) (now : string) : result reservation :=
  if nullish input then Throw (TypeErr "Cannot read properties of null (reading 'members')")
  else
  m ← toStringArray (prop "members" input) "members";
  i ← toStringArray (prop "issueRoots" input) "issueRoots";
  pid ← toNullableInt (prop "childPid" input) "childPid";
  let at_ := match as_str (prop "reservedAt" input) with Some s => s | None => now end in
  br ← toNullableString (prop "branch" input) "branch";
  ba ← toNullableString (prop "base" input) "base";
  go ← toNullableString (prop "goal" input) "goal";
  ec ← toNullableInt (prop "exitCode" input) "exitCode";
  sg ← toNullableString (prop "signal" input) "signal";
  ea ← toNullableString (prop "exitedAt" input) "exitedAt";
  lp ← toNullableString (prop "logPath" input) "logPath";
  bd ← normalizeBeadsSummary (prop "beads" input);
  Ok {| members := m; issueRoots := i; childPid := pid; reservedAt := at_;
        branch := br; base := ba; goal := go; exitCode := ec; signal := sg;
        exitedAt := ea; logPath := lp; beads := bd |}.

(** A copy of every field; the lists and the beads object are fresh. *)
Definition cloneReservation (r : reservation) : reservation :=
  {| members := members r; issueRoots := issueRoots r; childPid := childPid r;
     reservedAt := reservedAt r; branch := branch r; base := base r; goal := goal r;
     exitCode := exitCode r; signal := signal r; logPath := logPath r;
     exitedAt := exitedAt r; beads := beads r |}.

Lemma cloneReservation_id r : cloneReservation r = r.
Proof. by destruct r. Qed.

(** ** The JSON form *)

Definition beads_json (b : beads_summary) : jsval :=
  JObj [("dir", JStr (b_dir b)); ("prefix", JStr (b_prefix b));
        ("syncRemote", JStr (b_syncRemote b)); ("repoRemote", JStr (b_repoRemote b))].

(** The object literal [cloneReservation] builds, in its key order. *)
Definition reservation_json (r : reservation) : jsval :=
  JObj [("members", jstrs (members r));
        ("issueRoots", jstrs (issueRoots r));
        ("childPid", of_opt jint (childPid r));
        ("reservedAt", JStr (reservedAt r));
        ("branch", of_opt JStr (branch r));
        ("base", of_opt JStr (base r));
        ("goal", of_opt JStr (goal r));
        ("exitCode", of_opt jint (exitCode r));
        ("signal", of_opt JStr (signal r));
        ("logPath", of_opt JStr (logPath r));
        ("exitedAt", of_opt JStr (exitedAt r));
        ("beads", of_opt beads_json (beads r))].

(** The property names [LEDGER_SCHEMA] allows a reservation
    ([additionalProperties: false]). *)
Definition schema_reservation_properties : list string :=
  ["members"; "issueRoots"; "childPid"; "reservedAt"; "branch"; "base"; "goal";
   "exitCode"; "signal"; "exitedAt"; "logPath"].

Definition json_keys (v : jsval) : list string :=
  match v with JObj fs => fs.*1 | _ => [] end.

(** ** Well-formed reservations *)

(** What the type comment promises of the two axes: no empty string, no
    repetition. *)
Record reservation_ok (r : reservation) : Prop := {
  ok_members : NoDup (members r) /\ Forall (fun s => s <> "") (members r);
  ok_roots : NoDup (issueRoots r) /\ Forall (fun s => s <> "") (issueRoots r)
}.

Lemma check_item_Ok label v s : check_item label v = Ok s <-> v = JStr s /\ s <> "".
Proof.
  rewrite <-as_nonempty_str_Some. unfold check_item.
  destruct (as_nonempty_str v); naive_solver.
Qed.

Lemma check_items_Ok label l out :
  all_ok (check_item label) l = Ok out ->
  l = JStr <$> out /\ Forall (fun s => s <> "") out.
Proof.
  rewrite all_ok_Ok. induction 1 as [|v s l out Hv _ [-> IH]]; [done|].
  apply check_item_Ok in Hv as [-> Hs]. split; [done|by constructor].
Qed.

Lemma check_items_jstrs label l :
  Forall (fun s => s <> "") l -> all_ok (check_item label) (JStr <$> l) = Ok l.
Proof.
  intros Hl. apply all_ok_Ok. induction Hl; constructor; [|done].
  by apply check_item_Ok.
Qed.

Lemma toStringArray_ok v label out :
  toStringArray v label = Ok out -> NoDup out /\ Forall (fun s => s <> "") out.
Proof.
  unfold toStringArray. split_if; [intros [= <-]; split; [apply NoDup_nil_2|constructor]|].
  destruct (as_arr v); [|done]. intros H. inv_ok H.
  apply check_items_Ok in H0 as [_ Hf]. auto with js.
Qed.

Lemma toStringArray_jstrs l label :
  NoDup l -> Forall (fun s => s <> "") l -> toStringArray (jstrs l) label = Ok l.
Proof.
  intros Hnd Hf. unfold toStringArray, jstrs; simpl.
  rewrite check_items_jstrs by done. simpl. by rewrite dedup_id.
Qed.

Lemma toNullableInt_of_opt o label : toNullableInt (of_opt jint o) label = Ok o.
Proof. by destruct o. Qed.

Lemma toNullableString_of_opt o label : toNullableString (of_opt JStr o) label = Ok o.
Proof. by destruct o. Qed.

Lemma normalizeBeadsSummary_json o :
  normalizeBeadsSummary (of_opt beads_json o) = Ok o.
Proof. by destruct o as [[]|]. Qed.

#[export] Hint Resolve toNullableInt_of_opt toNullableString_of_opt
  normalizeBeadsSummary_json : js.

Lemma normalizeReservation_ok input now r :
  normalizeReservation input now = Ok r -> reservation_ok r.
Proof.
  unfold normalizeReservation. split_if; [done|]. intros H. inv_ok H.
  split; simpl; eauto using toStringArray_ok.
Qed.

(** Reading back what was written gives the same reservation. *)
Lemma normalizeReservation_json r now :
  reservation_ok r -> normalizeReservation (reservation_json r) now = Ok r.
Proof.
  intros [[Hm Hm'] [Hi Hi']]. destruct r as [m i ? ? ? ? ? ? ? ? ? ?]; simpl in *.
  unfold normalizeReservation. cbn [nullish reservation_json prop jget decide].
  unfold prop, reservation_json; simpl.
  rewrite !toStringArray_jstrs by done. simpl.
  rewrite !toNullableInt_of_opt, !toNullableString_of_opt, normalizeBeadsSummary_json.
  reflexivity.
Qed.
