(* ===== verification/Ledger.v ===== *)
(** * The reservation ledger ([src/supervisor/ledger.mjs])

    State: the committed in-memory map, the scope-freshness timestamp, the
    file pair on disk and the log of the calls made on the fleet server's
    per-member reservation authority.  Every operation is the source's: checks,
    then [transact] (draft, atomic write, commit), then the server overlay.
    The operations here run to completion one after the other; [LedgerQueue]
    interleaves them the way [txChain] does. *)

From S2P Require Import Prelude JsMap JsVal AtomicFile Reservation.
Local Open Scope string_scope.
Local Open Scope list_scope.

Definition LEDGER_VERSION : Z := 1.

Inductive server_op := SReserve | SRelease.

Record server_call := { sc_op : server_op; sc_member : string; sc_sprint : string }.

#[export] Instance server_op_eq_dec : EqDecision server_op.
Proof. solve_decision. Defined.
#[export] Instance server_call_eq_dec : EqDecision server_call.
Proof. solve_decision. Defined.

(** The injected collaborators that do not fail: the rename options, and
    whether the reservation client has each operation. *)
Record ledger_cfg := {
  renameRetryOpts : RenameRetry.opts;
  reservationClient : server_op -> bool
}.

Record ledger := {
  reservations : list (string * reservation);
  lastSyncedAt : jsval;
  loaded : bool;
  lfiles : files;
  server_calls : list server_call
}.

(** [createLedger()] before [load()]. *)
Definition createLedger (fs : files) : ledger :=
  {| reservations := []; lastSyncedAt := JNull; loaded := false; lfiles := fs;
     server_calls := [] |}.

(** ** The persisted document *)

Definition ledger_document (entries : list (string * jsval)) (synced : jsval) : jsval :=
  JObj [("version", jint LEDGER_VERSION); ("reservations", JObj entries);
        ("scopeFreshness", JObj [("lastSyncedAt", synced)])].

Definition emptyLedgerDocument : jsval := ledger_document [] JNull.

Definition currentDocument (m : list (string * reservation)) (synced : jsval) : jsval :=
  ledger_document ((fun kv => (kv.1, reservation_json (cloneReservation kv.2))) <$> m) synced.

(** ** Server overlay *)

(** Failures of a per-member call are caught and logged, so only the calls
    made are observable. *)
Definition driveServerReservation (cfg : ledger_cfg) (op : server_op)
    (sprintId : string) (ms : list string) : list server_call :=
  if reservationClient cfg op
  then (fun m => {| sc_op := op; sc_member := m; sc_sprint := sprintId |}) <$> ms
  else [].

Definition with_calls (st : ledger) (cs : list server_call) : ledger :=
  {| reservations := reservations st; lastSyncedAt := lastSyncedAt st;
     loaded := loaded st; lfiles := lfiles st;
     server_calls := server_calls st ++ cs |}.

(** ** Transactions *)

(** [mutate] receives the draft map and the current [lastSyncedAt] (a closure
    variable, which it may assign at once), and returns the callback's value
    with the mutated draft and variable. *)
Definition transact {T} (cfg : ledger_cfg) (env : io_env)
    (mutate : list (string * reservation) -> jsval ->
              result (T * list (string * reservation) * jsval))
    (st : ledger) : ledger * result T :=
  let draft := (fun kv => (kv.1, cloneReservation kv.2)) <$> reservations st in
  match mutate draft (lastSyncedAt st) with
  | Throw e => (st, Throw e)
  | Ok (x, draft', synced) =>
      let '(fs, r) := write_atomic (renameRetryOpts cfg) env
                        (currentDocument draft' synced) (lfiles st) in
      match r with
      | Throw e =>
          ({| reservations := reservations st; lastSyncedAt := synced;
              loaded := loaded st; lfiles := fs; server_calls := server_calls st |},
           Throw e)
      | Ok _ =>
          ({| reservations := draft'; lastSyncedAt := synced;
              loaded := loaded st; lfiles := fs; server_calls := server_calls st |},
           Ok x)
      end
  end.

(** ** Loading *)

(** [Object.entries(v)]. *)
Definition object_entries (v : jsval) : result (list (string * jsval)) :=
  match v with
  | JUndef | JNull => Throw (TypeErr "Cannot convert undefined or null to object")
  | JObj fs => Ok fs
  | JArr l => Ok (imap (fun i x => (pretty i, x)) l)
  | _ => Ok []
  end.

Fixpoint load_entries (now : string) (next : list (string * reservation))
    (es : list (string * jsval)) : result (list (string * reservation)) :=
  match es with
  | [] => Ok next
  | (sprintId, r) :: es' =>
      x ← normalizeReservation r now;
      load_entries now (jset sprintId x next) es'
  end.

(** [!doc || typeof doc !== 'object' || doc.version !== LEDGER_VERSION ||
    typeof doc.reservations !== 'object'], negated. *)
Definition document_shape_ok (doc : jsval) : bool :=
  truthy doc && typeof_object doc
  && bool_decide (as_int (prop "version" doc) = Some LEDGER_VERSION)
  && typeof_object (prop "reservations" doc).

(** [readFile] fails with [ENOENT] when there is no file, or with [read_err]. *)
Definition load (now : string) (read_err : option js_error) (st : ledger) : ledger * result unit :=
  match read_err, f_main (lfiles st) with
  | Some e, _ => (st, Throw e)
  | None, None =>
      ({| reservations := []; lastSyncedAt := JNull; loaded := true;
          lfiles := lfiles st; server_calls := server_calls st |}, Ok tt)
  | None, Some (FGarbage _) => (st, Throw (PlainErr "ledger file is not valid JSON"))
  | None, Some (FJson doc) =>
      if negb (document_shape_ok doc)
      then (st, Throw (PlainErr "ledger file has an unexpected shape or version"))
      else
        match es ← object_entries (prop "reservations" doc); load_entries now [] es with
        | Throw e => (st, Throw e)
        | Ok next =>
            let fresh := prop "scopeFreshness" doc in
            let synced := prop "lastSyncedAt" fresh in
            ({| reservations := next;
                lastSyncedAt := if truthy fresh && truthy synced then synced else JNull;
                loaded := true; lfiles := lfiles st; server_calls := server_calls st |},
             Ok tt)
        end
  end.

(** [start()] loads once. *)
Definition start (now : string) (read_err : option js_error) (st : ledger) : ledger * result unit :=
  if loaded st then (st, Ok tt) else load now read_err st.

(** ** Operations *)

Definition claim_tx (sprintId : string) (r : reservation)
    (draft : list (string * reservation)) (synced : jsval) :=
  if jhas sprintId draft
  then Throw (PlainErr ("sprint " +:+ sprintId +:+
                " already holds a reservation; release it before re-claiming"))
  else Ok (tt, jset sprintId r draft, synced).

(** The part of [claim] after its argument checks. *)
Definition claim_commit (cfg : ledger_cfg) (env : io_env) (sprintId : string)
    (r : reservation) (st : ledger) : ledger * result reservation :=
  match transact cfg env (claim_tx sprintId r) st with
  | (st', Throw e) => (st', Throw e)
  | (st', Ok _) =>
      (with_calls st' (driveServerReservation cfg SReserve sprintId (members r)),
       Ok (cloneReservation r))
  end.

Definition claim (cfg : ledger_cfg) (env : io_env) (now sprintId : string)
    (claimInput : jsval) (st : ledger) : ledger * result reservation :=
  if negb (nonempty sprintId)
  then (st, Throw (TypeErr "claim() requires a non-empty sprintId"))
  else match normalizeReservation claimInput now with
       | Throw e => (st, Throw e)
       | Ok r => claim_commit cfg env sprintId r st
       end.

(** [held ? [...held.members] : []], read when [release] is called. *)
Definition held_members (sprintId : string) (st : ledger) : list string :=
  match jget sprintId (reservations st) with Some r => members r | None => [] end.

Definition release_tx (sprintId : string)
    (draft : list (string * reservation)) (synced : jsval) :=
  @Ok (bool * list (string * reservation) * jsval)
      (jhas sprintId draft, jdel sprintId draft, synced).

(** The part of [release] after the capture of [ms]. *)
Definition release_commit (cfg : ledger_cfg) (env : io_env) (sprintId : string)
    (ms : list string) (st : ledger) : ledger * result bool :=
  match transact cfg env (release_tx sprintId) st with
  | (st', Throw e) => (st', Throw e)
  | (st', Ok removed) =>
      (if removed : bool then with_calls st' (driveServerReservation cfg SRelease sprintId ms)
       else st', Ok removed)
  end.

Definition release (cfg : ledger_cfg) (env : io_env) (sprintId : string)
    (st : ledger) : ledger * result bool :=
  if negb (nonempty sprintId)
  then (st, Throw (TypeErr "release() requires a non-empty sprintId"))
  else release_commit cfg env sprintId (held_members sprintId st) st.

(** [r.field = ...] on the draft's record of [sprintId]. *)
Definition update_tx (sprintId msg : string) (f : reservation -> reservation)
    (draft : list (string * reservation)) (synced : jsval) :=
  match jget sprintId draft with
  | None => Throw (PlainErr ("cannot " +:+ msg +:+ ": sprint " +:+ sprintId +:+
                             " holds no reservation"))
  | Some r => Ok (f r, jset sprintId (f r) draft, synced)
  end.

Definition with_childPid (pid : option Z) (r : reservation) : reservation :=
  {| members := members r; issueRoots := issueRoots r; childPid := pid;
     reservedAt := reservedAt r; branch := branch r; base := base r; goal := goal r;
     exitCode := exitCode r; signal := signal r; exitedAt := exitedAt r;
     logPath := logPath r; beads := beads r |}.

(** A [pid] that is neither [null] nor an integer is refused. *)
Definition setChildPid (cfg : ledger_cfg) (env : io_env) (sprintId : string)
    (pid : jsval) (st : ledger) : ledger * result reservation :=
  match (match pid with JNull => Ok None
         | _ => match as_int pid with
                | Some z => Ok (Some z)
                | None => Throw (TypeErr "childPid must be an integer or null")
                end
         end) with
  | Throw e => (st, Throw e)
  | Ok p => transact cfg env (update_tx sprintId "set childPid" (with_childPid p)) st
  end.

(** The exit information of a child; [undefined] fields are [None]. *)
Record exit_info := { xi_exitCode : option Z; xi_signal : option string; xi_at : option string }.

Definition with_exit (info : exit_info) (now : string) (r : reservation) : reservation :=
  {| members := members r; issueRoots := issueRoots r; childPid := childPid r;
     reservedAt := reservedAt r; branch := branch r; base := base r; goal := goal r;
     exitCode := xi_exitCode info; signal := xi_signal info;
     exitedAt := Some (default now (xi_at info));
     logPath := logPath r; beads := beads r |}.

Definition recordExit (cfg : ledger_cfg) (env : io_env) (now sprintId : string)
    (info : exit_info) (st : ledger) : ledger * result reservation :=
  if negb (nonempty sprintId)
  then (st, Throw (TypeErr "recordExit() requires a non-empty sprintId"))
  else transact cfg env (update_tx sprintId "record exit" (with_exit info now)) st.

Definition get (sprintId : string) (st : ledger) : option reservation :=
  cloneReservation <$> jget sprintId (reservations st).

Definition list_entries (st : ledger) : list (string * reservation) :=
  (fun kv => (kv.1, cloneReservation kv.2)) <$> reservations st.

Definition toDocument (st : ledger) : jsval :=
  currentDocument (reservations st) (lastSyncedAt st).

Definition ledger_size (st : ledger) : nat := length (reservations st).

(** [setScopeFreshness(timestamp)]: an empty or absent timestamp is the clock's. *)
Definition setScopeFreshness (cfg : ledger_cfg) (env : io_env) (now : string)
    (timestamp : option string) (st : ledger) : ledger * result (string * Z) :=
  let newTimestamp := match timestamp with
                      | Some t => if nonempty t then t else now
                      | None => now
                      end in
  transact cfg env (fun draft _ => Ok ((newTimestamp, 0%Z), draft, JStr newTimestamp)) st.

Inductive age := NeverSynced | AgeSeconds (z : Z) | AgeNaN.

(** [date_ms] is [new Date(v).getTime()] ([None]: NaN). *)
Definition getScopeFreshness (date_ms : jsval -> option Z) (getNow : option Z)
    (date_now : Z) (st : ledger) : jsval * age :=
  match lastSyncedAt st with
  | JNull => (JNull, NeverSynced)
  | v =>
      let currentTime := match getNow with
                         | Some t => if (t =? 0)%Z then date_now else t
                         | None => date_now
                         end in
      (v, match date_ms v with
          | Some lastTime => AgeSeconds (Z.max 0 ((currentTime - lastTime) / 1000))
          | None => AgeNaN
          end)
  end.
