(* ===== verification/LedgerProps.v ===== *)
(** * Properties of the ledger

    The invariant of the sequential operations (well-formed reservations, disk
    and memory in agreement, server overlay in agreement with the ledger), the
    all-or-nothing effect of each operation against an abstract map, and the
    exact reload across a restart. *)

From S2P Require Import Prelude JsMap JsVal AtomicFile Reservation Ledger.
Local Open Scope string_scope.
Local Open Scope list_scope.

(** ** Operations as data *)

Inductive ledger_op :=
| OpClaim (now sprintId : string) (input : jsval)
| OpRelease (sprintId : string)
| OpSetPid (sprintId : string) (pid : jsval)
| OpExit (now sprintId : string) (info : exit_info)
| OpFresh (now : string) (timestamp : option string)
| OpRestart (now : string).

(** A supervisor restart: memory is lost, the disk and the fleet server's
    record stay, and [start()] loads. *)
Definition restart (now : string) (st : ledger) : ledger * result unit :=
  start now None (with_calls (createLedger (lfiles st)) (server_calls st)).

Definition discard {A} (p : ledger * result A) : ledger * result unit :=
  (p.1, (fun _ => tt) <$> p.2).

Definition run_op (cfg : ledger_cfg) (env : io_env) (op : ledger_op) (st : ledger)
    : ledger * result unit :=
  match op with
  | OpClaim now s i => discard (claim cfg env now s i st)
  | OpRelease s => discard (release cfg env s st)
  | OpSetPid s p => discard (setChildPid cfg env s p st)
  | OpExit now s i => discard (recordExit cfg env now s i st)
  | OpFresh now t => discard (setScopeFreshness cfg env now t st)
  | OpRestart now => restart now st
  end.

Inductive ledger_step (cfg : ledger_cfg) : ledger -> ledger -> Prop :=
| ledger_step_intro env op st : ledger_step cfg st (run_op cfg env op st).1.

(** Histories of a ledger whose data directory starts without a file. *)
Definition ledger_reachable (cfg : ledger_cfg) (st : ledger) : Prop :=
  rtc (ledger_step cfg) (createLedger no_files) st.

(** ** The abstract ledger: an unordered map *)

Definition abs (st : ledger) : gmap string reservation := jmap_gmap (reservations st).

(** The effect each operation has when it succeeds; [None] when the abstract
    ledger refuses it. *)
Definition abs_step (op : ledger_op) (m : gmap string reservation)
    : option (gmap string reservation) :=
  match op with
  | OpClaim now s i =>
      match normalizeReservation i now with
      | Ok r => if nonempty s && negb (bool_decide (is_Some (m !! s)))
                then Some (<[s := r]> m) else None
      | Throw _ => None
      end
  | OpRelease s => if nonempty s then Some (delete s m) else None
  | OpSetPid s p =>
      match p, m !! s with
      | JNull, Some r => Some (<[s := with_childPid None r]> m)
      | JNum (NInt z), Some r => Some (<[s := with_childPid (Some z) r]> m)
      | _, _ => None
      end
  | OpExit now s i =>
      if nonempty s
      then match m !! s with
           | Some r => Some (<[s := with_exit i now r]> m)
           | None => None
           end
      else None
  | OpFresh _ _ => Some m
  | OpRestart _ => Some m
  end.

(** ** Invariant *)

(** The file holds exactly the committed map (or nothing was ever written). *)
Definition disk_agrees (st : ledger) : Prop :=
  (f_main (lfiles st) = None /\ reservations st = []) \/
  (exists synced, f_main (lfiles st) = Some (FJson (currentDocument (reservations st) synced))).

(** Who the fleet server believes holds which member, from the calls made. *)
Definition server_apply (held : list (string * string)) (c : server_call) :=
  match sc_op c with
  | SReserve => (sc_member c, sc_sprint c) :: held
  | SRelease => filter (fun p => p ≠ (sc_member c, sc_sprint c)) held
  end.
Definition server_held (calls : list server_call) : list (string * string) :=
  foldl server_apply [] calls.

(** The overlay mirrors the ledger: a member is reserved on the server for a
    sprint exactly when the ledger lists it for that sprint. *)
Definition overlay_agrees (st : ledger) : Prop :=
  forall m s, (m, s) ∈ server_held (server_calls st) <->
              exists r, jget s (reservations st) = Some r /\ m ∈ members r.

Record ledger_inv (st : ledger) : Prop := {
  li_wf : jwf (reservations st);
  li_ok : forall s r, jget s (reservations st) = Some r -> s <> "" /\ reservation_ok r;
  li_disk : disk_agrees st
}.

(** ** Helper lemmas *)

Lemma clone_entries (m : list (string * reservation)) :
  (fun kv => (kv.1, cloneReservation kv.2)) <$> m = m.
Proof.
  induction m as [|[k r] m IH]; csimpl; [done|]. by rewrite cloneReservation_id, IH.
Qed.

Lemma list_entries_eq st : list_entries st = reservations st.
Proof. apply clone_entries. Qed.

Lemma get_eq s st : get s st = jget s (reservations st).
Proof. unfold get. destruct (jget s (reservations st)); simpl; [by rewrite cloneReservation_id|done]. Qed.

Inductive transact_result {T} (st : ledger) (out : result (T * list (string * reservation) * jsval))
    : ledger -> result T -> Prop :=
| tr_mutate e : out = Throw e -> transact_result st out st (Throw e)
| tr_persist x d s e fs :
    out = Ok (x, d, s) -> f_main fs = f_main (lfiles st) ->
    transact_result st out
      {| reservations := reservations st; lastSyncedAt := s; loaded := loaded st;
         lfiles := fs; server_calls := server_calls st |} (Throw e)
| tr_commit x d s fs :
    out = Ok (x, d, s) -> f_main fs = Some (FJson (currentDocument d s)) ->
    transact_result st out
      {| reservations := d; lastSyncedAt := s; loaded := loaded st;
         lfiles := fs; server_calls := server_calls st |} (Ok x).

(** The three ways a transaction ends. *)
Lemma transact_inv {T} cfg env mutate st st' (r : result T) :
  transact cfg env mutate st = (st', r) ->
  transact_result st (mutate (reservations st) (lastSyncedAt st)) st' r.
Proof.
  unfold transact. rewrite clone_entries.
  destruct (mutate _ _) as [[[x d] s]|e] eqn:Hm; [|intros; simplify_eq; by econstructor].
  destruct (write_atomic _ _ _ _) as [fs o] eqn:Hw.
  apply write_atomic_main in Hw. destruct o; intros; simplify_eq; by econstructor.
Qed.

Lemma load_entries_json now next m :
  jwf (next ++ m) -> Forall (fun kv => reservation_ok kv.2) m ->
  load_entries now next ((fun kv => (kv.1, reservation_json (cloneReservation kv.2))) <$> m)
  = Ok (next ++ m).
Proof.
  revert next. induction m as [|[s r] m IH]; intros next Hwf Hok; csimpl; [by rewrite app_nil_r|].
  apply Forall_cons in Hok as [Hr Hok]; simpl in Hr.
  rewrite cloneReservation_id, normalizeReservation_json by done. simpl.
  assert (Hn : jget s next = None).
  { apply jget_None. unfold jwf in Hwf. rewrite fmap_app in Hwf. apply NoDup_app in Hwf. set_solver. }
  rewrite jset_keys_new by done. rewrite IH; [by rewrite <-app_assoc| |done].
  by rewrite <-app_assoc.
Qed.

Lemma entries_ok st :
  ledger_inv st -> Forall (fun kv => reservation_ok kv.2) (reservations st).
Proof.
  intros [Hwf Hok _]. apply Forall_forall. intros [s r] Hin.
  apply jget_elem in Hin; [|done]. by destruct (Hok _ _ Hin).
Qed.

Lemma load_document now m synced st :
  f_main (lfiles st) = Some (FJson (currentDocument m synced)) ->
  jwf m -> Forall (fun kv => reservation_ok kv.2) m ->
  exists synced', load now None st =
    ({| reservations := m; lastSyncedAt := synced'; loaded := true;
        lfiles := lfiles st; server_calls := server_calls st |}, Ok tt).
Proof.
  intros Hf Hwf Hok. unfold load. rewrite Hf.
  unfold document_shape_ok, currentDocument, ledger_document; simpl.
  pose proof (load_entries_json now [] m Hwf Hok) as Hl. simpl in Hl.
  rewrite Hl. by eexists.
Qed.

(** A restart reads back exactly the committed reservations. *)
Lemma restart_spec now st :
  ledger_inv st ->
  exists synced, restart now st =
    ({| reservations := reservations st; lastSyncedAt := synced; loaded := true;
        lfiles := lfiles st; server_calls := server_calls st |}, Ok tt).
Proof.
  intros Hinv. pose proof (entries_ok _ Hinv) as Hok. destruct Hinv as [Hwf _ Hdisk].
  change (restart now st) with (load now None (with_calls (createLedger (lfiles st)) (server_calls st))).
  destruct Hdisk as [[Hf Hr]|[synced Hf]].
  - unfold load; cbn [lfiles with_calls createLedger]. rewrite Hf, Hr. by eexists.
  - destruct (load_document now (reservations st) synced
      (with_calls (createLedger (lfiles st)) (server_calls st))) as [s Hl]; [done..|].
    rewrite Hl. by eexists.
Qed.

(** ** Each operation against the abstract ledger *)

(** A transaction whose callback maps the committed map to [d]. *)
Lemma transact_abs {T} cfg env mutate st st' (r : result T) x d s :
  transact cfg env mutate st = (st', r) ->
  mutate (reservations st) (lastSyncedAt st) = Ok (x, d, s) ->
  (reservations st' = d /\ f_main (lfiles st') = Some (FJson (currentDocument d s)) /\ r = Ok x
   \/ reservations st' = reservations st /\ f_main (lfiles st') = f_main (lfiles st)
      /\ exists e, r = Throw e)
  /\ server_calls st' = server_calls st.
Proof.
  intros Ht Hm. apply transact_inv in Ht.
  destruct Ht as [e He|x' d' s' e fs He Hf|x' d' s' fs He Hf];
    rewrite Hm in He; simplify_eq/=; split; [|done| |done].
  - right. split_and!; [done|done|by eexists].
  - by left.
Qed.

(** What one operation did: it took effect in memory and on disk alike, or it
    threw and left both as they were. *)
Definition op_effect (st st' : ledger) (r : result unit)
    (target : option (list (string * reservation))) : Prop :=
  match target with
  | Some d =>
      (reservations st' = d /\ r = Ok tt /\ disk_agrees st')
      \/ (reservations st' = reservations st /\ f_main (lfiles st') = f_main (lfiles st)
          /\ exists e, r = Throw e)
  | None => st' = st /\ exists e, r = Throw e
  end.

(** The committed map an operation aims for. *)
Definition op_target (op : ledger_op) (st : ledger) : option (list (string * reservation)) :=
  match op with
  | OpClaim now s i =>
      match normalizeReservation i now with
      | Ok r => if nonempty s && negb (jhas s (reservations st))
                then Some (jset s r (reservations st)) else None
      | Throw _ => None
      end
  | OpRelease s => if nonempty s then Some (jdel s (reservations st)) else None
  | OpSetPid s p =>
      match p, jget s (reservations st) with
      | JNull, Some r => Some (jset s (with_childPid None r) (reservations st))
      | JNum (NInt z), Some r => Some (jset s (with_childPid (Some z) r) (reservations st))
      | _, _ => None
      end
  | OpExit now s i =>
      if nonempty s
      then match jget s (reservations st) with
           | Some r => Some (jset s (with_exit i now r) (reservations st))
           | None => None
           end
      else None
  | OpFresh _ _ => Some (reservations st)
  | OpRestart _ => Some (reservations st)
  end.

Lemma transact_effect {T} cfg env mutate st st' (r : result T) x d s :
  transact cfg env mutate st = (st', r) ->
  mutate (reservations st) (lastSyncedAt st) = Ok (x, d, s) ->
  op_effect st st' ((fun _ => tt) <$> r) (Some d).
Proof.
  intros Ht Hm. destruct (transact_abs _ _ _ _ _ _ _ _ _ Ht Hm) as [[(Hr&?&->)|(?&?&e&->)] _];
    [left|right]; [|by eauto]. split_and!; [done|done|right; exists s; by rewrite Hr].
Qed.

Lemma transact_refused {T} cfg env mutate st st' (r : result T) e :
  transact cfg env mutate st = (st', r) ->
  mutate (reservations st) (lastSyncedAt st) = Throw e ->
  op_effect st st' ((fun _ => tt) <$> r) None.
Proof.
  intros Ht Hm. apply transact_inv in Ht.
  destruct Ht as [e' He|x' d' s' e' fs He Hf|x' d' s' fs He Hf];
    rewrite Hm in He; simplify_eq/=. split; [done|by eexists].
Qed.

Lemma op_effect_calls st st' r t cs :
  op_effect st st' r (Some t) -> op_effect st (with_calls st' cs) r (Some t).
Proof. done. Qed.

Lemma claim_effect cfg env now s i st st' r :
  claim cfg env now s i st = (st', r) ->
  op_effect st st' ((fun _ => tt) <$> r) (op_target (OpClaim now s i) st).
Proof.
  unfold claim, claim_commit, op_target. destruct (nonempty s) eqn:Hs; simpl.
  2:{ intros [= <- <-]. destruct (normalizeReservation i now); simpl; eauto. }
  destruct (normalizeReservation i now) as [x|e]; [|intros [= <- <-]; simpl; eauto].
  destruct (transact _ _ _ _) as [st1 o] eqn:Ht.
  destruct (jhas s (reservations st)) eqn:Hh; simpl.
  - eapply transact_refused in Ht; [|unfold claim_tx; by rewrite Hh].
    destruct Ht as [-> [e He]]. destruct o; simplify_eq/=. intros [= <- <-]; simpl; eauto.
  - eapply transact_effect in Ht; [|unfold claim_tx; by rewrite Hh].
    destruct o; intros [= <- <-]; [by apply op_effect_calls|done].
Qed.

Lemma release_effect cfg env s st st' r :
  release cfg env s st = (st', r) ->
  op_effect st st' ((fun _ => tt) <$> r) (op_target (OpRelease s) st).
Proof.
  unfold release, release_commit, op_target. destruct (nonempty s) eqn:Hs; simpl.
  2:{ intros [= <- <-]. simpl; eauto. }
  destruct (transact _ _ _ _) as [st1 o] eqn:Ht.
  eapply transact_effect in Ht; [|reflexivity].
  destruct o as [[]|]; intros [= <- <-]; [by apply op_effect_calls|done|done].
Qed.

Lemma update_effect cfg env s msg f st st' r :
  transact cfg env (update_tx s msg f) st = (st', r) ->
  op_effect st st' ((fun _ => tt) <$> r)
    (match jget s (reservations st) with
     | Some x => Some (jset s (f x) (reservations st)) | None => None end).
Proof.
  intros Ht. destruct (jget s (reservations st)) eqn:Hg.
  - eapply transact_effect in Ht; [done|]. unfold update_tx. by rewrite Hg.
  - eapply transact_refused in Ht; [done|]. unfold update_tx. by rewrite Hg.
Qed.

Lemma fresh_effect cfg env now t st st' r :
  setScopeFreshness cfg env now t st = (st', r) ->
  op_effect st st' ((fun _ => tt) <$> r) (Some (reservations st)).
Proof. intros Ht. unfold setScopeFreshness in Ht. by eapply transact_effect in Ht. Qed.

Lemma run_op_effect cfg env op st :
  ledger_inv st ->
  op_effect st (run_op cfg env op st).1 (run_op cfg env op st).2 (op_target op st).
Proof.
  intros Hinv. destruct op; unfold run_op, discard; simpl.
  - apply (claim_effect cfg env), surjective_pairing.
  - apply (release_effect cfg env), surjective_pairing.
  - unfold setChildPid. destruct pid as [| | |[]| | |]; simpl;
      try (split; [done|by eexists]); eapply update_effect, surjective_pairing.
  - unfold recordExit. destruct (nonempty sprintId); simpl; [|by eauto].
    eapply update_effect, surjective_pairing.
  - apply (fresh_effect cfg env now timestamp), surjective_pairing.
  - destruct (restart_spec now st Hinv) as [synced Hr]. rewrite Hr; simpl.
    left. split_and!; [done|done|]. by destruct Hinv as [_ _ Hd].
Qed.

(** ** The invariant is preserved *)

Lemma with_childPid_ok p r : reservation_ok r -> reservation_ok (with_childPid p r).
Proof. by intros [??]. Qed.

Lemma with_exit_ok i now r : reservation_ok r -> reservation_ok (with_exit i now r).
Proof. by intros [??]. Qed.

#[local] Hint Resolve with_childPid_ok with_exit_ok : js.

Lemma jset_ok s x m :
  (forall k r, jget k m = Some r -> k <> "" /\ reservation_ok r) ->
  s <> "" -> reservation_ok x ->
  forall k r, jget k (jset s x m) = Some r -> k <> "" /\ reservation_ok r.
Proof. intros Hm Hs Hx k r. rewrite jget_jset. case_decide; naive_solver. Qed.

Lemma op_target_ok op st d :
  ledger_inv st -> op_target op st = Some d ->
  jwf d /\ (forall k r, jget k d = Some r -> k <> "" /\ reservation_ok r).
Proof.
  intros [Hwf Hok _] Ht. destruct op; simpl in Ht.
  - destruct (normalizeReservation input now) as [r|] eqn:Hn; [|done].
    destruct (nonempty sprintId) eqn:Hs; [|done].
    destruct (jhas _ _); simplify_eq/=. apply nonempty_spec in Hs.
    split; [by apply jset_wf|].
    apply jset_ok; [done|done|by eapply normalizeReservation_ok].
  - destruct (nonempty sprintId); simplify_eq. split; [by apply jdel_wf|].
    intros k r. rewrite jget_jdel. case_decide; naive_solver.
  - destruct (jget sprintId (reservations st)) as [r|] eqn:Hg;
      destruct pid as [| | |[]| | |]; simplify_eq;
      (split; [by apply jset_wf|]); destruct (Hok _ _ Hg);
      (apply jset_ok; auto with js).
  - destruct (nonempty sprintId) eqn:Hs; [|done].
    destruct (jget sprintId (reservations st)) as [r|] eqn:Hg; simplify_eq.
    split; [by apply jset_wf|]. destruct (Hok _ _ Hg). apply jset_ok; auto with js.
  - by simplify_eq.
  - by simplify_eq.
Qed.

Lemma disk_agrees_same st st' :
  disk_agrees st -> reservations st' = reservations st ->
  f_main (lfiles st') = f_main (lfiles st) -> disk_agrees st'.
Proof.
  intros [[Hf Hr]|[s Hf]] Hr' Hf'; [left|right; exists s]; rewrite Hf', Hr'; auto.
Qed.

Lemma run_op_inv cfg env op st :
  ledger_inv st -> ledger_inv (run_op cfg env op st).1.
Proof.
  intros Hinv. pose proof (run_op_effect cfg env op st Hinv) as He.
  destruct (op_target op st) as [d|] eqn:Ht; simpl in He.
  - destruct (op_target_ok _ _ _ Hinv Ht) as [Hwf Hok].
    destruct He as [(Hr & _ & Hd)|(Hr & Hf & _)].
    + by split; rewrite ?Hr.
    + destruct Hinv as [? ? Hd]. split; rewrite ?Hr; eauto using disk_agrees_same.
  - by destruct He as [-> _].
Qed.

Lemma ledger_inv_init : ledger_inv (createLedger no_files).
Proof. split; [apply jwf_nil|done|by left]. Qed.

Lemma ledger_reachable_inv cfg st : ledger_reachable cfg st -> ledger_inv st.
Proof.
  unfold ledger_reachable. generalize ledger_inv_init. generalize (createLedger no_files).
  intros st0 H0 Hr. induction Hr as [|? ? ? [env op ?] _ IH]; [done|].
  by apply IH, run_op_inv.
Qed.

Lemma op_target_abs op st :
  abs_step op (abs st) = jmap_gmap <$> op_target op st.
Proof.
  unfold abs. destruct op; simpl; try done.
  - destruct (normalizeReservation input now); [|done]. unfold jhas.
    rewrite jget_gmap. destruct (nonempty sprintId); simpl; [|done].
    destruct (jmap_gmap (reservations st) !! sprintId); simpl; [done|].
    by rewrite jset_gmap.
  - destruct (nonempty sprintId); simpl; [|done]. by rewrite jdel_gmap.
  - rewrite jget_gmap. destruct pid as [| | |[]| | |]; try done;
      destruct (jmap_gmap (reservations st) !! sprintId); simpl; by rewrite ?jset_gmap.
  - rewrite jget_gmap. destruct (nonempty sprintId); simpl; [|done].
    destruct (jmap_gmap (reservations st) !! sprintId); simpl; by rewrite ?jset_gmap.
Qed.

(** ** The server overlay *)

Lemma server_held_app c1 c2 :
  server_held (c1 ++ c2) = foldl server_apply (server_held c1) c2.
Proof. apply foldl_app. Qed.

Lemma server_held_reserve s0 ms held m s :
  (m, s) ∈ foldl server_apply held
             ((fun m => {| sc_op := SReserve; sc_member := m; sc_sprint := s0 |}) <$> ms)
  <-> (m, s) ∈ held \/ (s = s0 /\ m ∈ ms).
Proof.
  revert held. induction ms as [|m0 ms IH]; intros held; csimpl; [set_solver|].
  rewrite IH. unfold server_apply at 1; simpl. set_solver.
Qed.

Lemma server_held_release s0 ms held m s :
  (m, s) ∈ foldl server_apply held
             ((fun m => {| sc_op := SRelease; sc_member := m; sc_sprint := s0 |}) <$> ms)
  <-> (m, s) ∈ held /\ ~ (s = s0 /\ m ∈ ms).
Proof.
  revert held. induction ms as [|m0 ms IH]; intros held; csimpl; [set_solver|].
  rewrite IH. unfold server_apply at 1; simpl. rewrite list_elem_of_filter. set_solver.
Qed.

(** The calls an operation adds. *)
Lemma claim_calls cfg env now s i st :
  let out := claim cfg env now s i st in
  server_calls out.1 = server_calls st ++
    match out.2 with
    | Ok r => driveServerReservation cfg SReserve s (members r)
    | Throw _ => []
    end.
Proof.
  unfold claim, claim_commit. destruct (nonempty s); simpl; [|by rewrite app_nil_r].
  destruct (normalizeReservation i now) as [r|]; simpl; [|by rewrite app_nil_r].
  destruct (transact _ _ _ _) as [st1 o] eqn:Ht. apply transact_inv in Ht.
  destruct Ht; simpl; by rewrite ?app_nil_r, ?cloneReservation_id.
Qed.

Lemma release_calls cfg env s st :
  let out := release cfg env s st in
  server_calls out.1 = server_calls st ++
    match out.2 with
    | Ok true => driveServerReservation cfg SRelease s (held_members s st)
    | _ => []
    end.
Proof.
  unfold release, release_commit. destruct (nonempty s); simpl; [|by rewrite app_nil_r].
  destruct (transact _ _ _ _) as [st1 o] eqn:Ht. apply transact_inv in Ht.
  destruct Ht as [| |[] d s' fs]; simpl; by rewrite ?app_nil_r.
Qed.

(** The returned boolean says whether the sprint held a reservation. *)
Lemma release_Ok cfg env s st b :
  (release cfg env s st).2 = Ok b -> b = jhas s (reservations st).
Proof.
  unfold release, release_commit. destruct (nonempty s); simpl; [|done].
  destruct (transact _ _ _ _) as [st1 o] eqn:Ht. apply transact_inv in Ht.
  destruct Ht as [e He|x d s' e fs He Hf|x d s' fs He Hf]; simpl; try done.
  unfold release_tx in He. intros [= <-]. by simplify_eq.
Qed.

Lemma transact_calls {T} cfg env mutate st :
  server_calls (@transact T cfg env mutate st).1 = server_calls st.
Proof.
  destruct (transact cfg env mutate st) as [st' r] eqn:Ht. apply transact_inv in Ht.
  by destruct Ht.
Qed.

Lemma fresh_calls cfg env now t st :
  server_calls (setScopeFreshness cfg env now t st).1 = server_calls st.
Proof. apply transact_calls. Qed.

Section overlay.
Context (cfg : ledger_cfg) (Hclient : forall o, reservationClient cfg o = true).

Lemma overlay_jset s x m calls :
  (forall m' s', (m', s') ∈ server_held calls <->
     exists r, jget s' m = Some r /\ m' ∈ members r) ->
  jget s m = None ->
  forall m' s',
    (m', s') ∈ server_held (calls ++ driveServerReservation cfg SReserve s (members x)) <->
    exists r, jget s' (jset s x m) = Some r /\ m' ∈ members r.
Proof using Hclient.
  intros Hov Hn m' s'. unfold driveServerReservation. rewrite Hclient, server_held_app.
  rewrite server_held_reserve, Hov, jget_jset. case_decide; naive_solver.
Qed.

Lemma overlay_jdel s x m calls :
  (forall m' s', (m', s') ∈ server_held calls <->
     exists r, jget s' m = Some r /\ m' ∈ members r) ->
  jget s m = Some x ->
  forall m' s',
    (m', s') ∈ server_held (calls ++ driveServerReservation cfg SRelease s (members x)) <->
    exists r, jget s' (jdel s m) = Some r /\ m' ∈ members r.
Proof using Hclient.
  intros Hov Hn m' s'. unfold driveServerReservation. rewrite Hclient, server_held_app.
  rewrite server_held_release, Hov, jget_jdel. case_decide; naive_solver.
Qed.

(** An update that keeps the members keeps the overlay. *)
Lemma overlay_update s f m calls x :
  (forall m' s', (m', s') ∈ server_held calls <->
     exists r, jget s' m = Some r /\ m' ∈ members r) ->
  jget s m = Some x -> members (f x) = members x ->
  forall m' s', (m', s') ∈ server_held calls <->
    exists r, jget s' (jset s (f x) m) = Some r /\ m' ∈ members r.
Proof.
  intros Hov Hg Hf m' s'. rewrite Hov, jget_jset. case_decide; subst; [|done].
  rewrite Hg. naive_solver congruence.
Qed.

Lemma claim_overlay env now s i st :
  overlay_agrees st -> overlay_agrees (claim cfg env now s i st).1.
Proof using Hclient.
  intros Hov. pose proof (claim_calls cfg env now s i st) as Hc.
  destruct (claim cfg env now s i st) as [st' r] eqn:Hcl; simpl in *.
  pose proof (claim_effect _ _ _ _ _ _ _ _ Hcl) as He. unfold overlay_agrees. rewrite Hc.
  destruct (op_target _ _) as [d|] eqn:Ht; simpl in He.
  - destruct He as [(-> & Hr & _)|(-> & _ & e & Hr)].
    + destruct r as [x|]; [|done]. simpl in Ht. unfold claim, claim_commit in Hcl.
      destruct (normalizeReservation i now) as [r'|] eqn:Hn; [|done].
      destruct (nonempty s); [|done]. destruct (jhas s (reservations st)) eqn:Hh; simplify_eq/=.
      destruct (transact _ _ _ _) as [? []]; simplify_eq. rewrite cloneReservation_id.
      apply overlay_jset; [done|by apply jhas_false].
    + destruct r; simplify_eq/=. by rewrite app_nil_r.
  - destruct He as [-> [e Hr]]. destruct r; simplify_eq/=. by rewrite app_nil_r.
Qed.

Lemma release_overlay env s st :
  overlay_agrees st -> overlay_agrees (release cfg env s st).1.
Proof using Hclient.
  intros Hov. pose proof (release_calls cfg env s st) as Hc.
  destruct (release cfg env s st) as [st' r] eqn:Hrl; simpl in *.
  pose proof (release_effect _ _ _ _ _ _ Hrl) as He. unfold overlay_agrees. rewrite Hc.
  pose proof (fun b => release_Ok cfg env s st b) as Hb. rewrite Hrl in Hb; simpl in Hb.
  destruct (op_target _ _) as [d|] eqn:Ht; simpl in He, Ht.
  - destruct (nonempty s); simplify_eq.
    destruct He as [(-> & Hr & _)|(-> & _ & e & Hr)].
    + destruct r as [[]|]; [|rewrite app_nil_r|done]; specialize (Hb _ eq_refl).
      * unfold held_members, jhas in *. destruct (jget s (reservations st)) eqn:Hg; [|done].
        by apply overlay_jdel.
      * symmetry in Hb. apply jhas_false in Hb. by rewrite jdel_absent.
    + destruct r; simplify_eq/=. by rewrite app_nil_r.
  - destruct He as [-> [e Hr]]. destruct r; simplify_eq/=. by rewrite app_nil_r.
Qed.

Lemma update_overlay env s msg f st :
  (forall r, members (f r) = members r) ->
  overlay_agrees st -> overlay_agrees (transact cfg env (update_tx s msg f) st).1.
Proof.
  intros Hf Hov. unfold overlay_agrees. rewrite transact_calls.
  destruct (transact _ _ _ _) as [st' r] eqn:Ht. pose proof Ht as Ht'.
  apply update_effect in Ht'. simpl. destruct (jget s (reservations st)) eqn:Hg; simpl in Ht'.
  - destruct Ht' as [(-> & _)|(-> & _)]; [|done]. by eapply overlay_update.
  - by destruct Ht' as [-> _].
Qed.

Lemma run_op_overlay env op st :
  ledger_inv st -> overlay_agrees st -> overlay_agrees (run_op cfg env op st).1.
Proof using Hclient.
  intros Hinv Hov. destruct op; simpl.
  - by apply claim_overlay.
  - by apply release_overlay.
  - unfold setChildPid. destruct pid as [| | |[]| | |]; try done; by apply update_overlay.
  - unfold recordExit. destruct (nonempty sprintId); [|done]. by apply update_overlay.
  - unfold overlay_agrees. rewrite fresh_calls.
    destruct (setScopeFreshness cfg env now timestamp st) as [st' r] eqn:Hf.
    destruct (fresh_effect _ _ _ _ _ _ _ Hf) as [(Hr & _)|(Hr & _)]; simpl; by rewrite Hr.
  - destruct (restart_spec now st Hinv) as [synced Hr]. by rewrite Hr.
Qed.
End overlay.

(** ** With a working disk, what the abstract ledger accepts succeeds *)

Lemma transact_io_ok {T} cfg mutate st x d s :
  mutate (reservations st) (lastSyncedAt st) = Ok (x, d, s) ->
  (@transact T cfg io_ok mutate st).2 = Ok x.
Proof.
  intros Hm. unfold transact. rewrite clone_entries, Hm, write_atomic_io_ok. done.
Qed.

Lemma run_op_io_ok cfg op st :
  ledger_inv st -> is_Some (op_target op st) -> (run_op cfg io_ok op st).2 = Ok tt.
Proof.
  intros Hinv [d Ht]. destruct op; simpl in *.
  - unfold claim, claim_commit. destruct (normalizeReservation input now) as [r|]; [|done].
    destruct (nonempty sprintId); [|done]. simpl.
    destruct (jhas sprintId (reservations st)) eqn:Hh; [done|].
    pose proof (transact_io_ok cfg (claim_tx sprintId r) st) as Hx.
    destruct (transact _ _ _ _) as [? o]; simpl in *.
    rewrite (Hx tt _ _ ltac:(unfold claim_tx; by rewrite Hh)). done.
  - unfold release, release_commit. destruct (nonempty sprintId); [|done]. simpl.
    pose proof (transact_io_ok cfg (release_tx sprintId) st _ _ _ eq_refl) as Hx.
    destruct (transact _ _ _ _) as [? o]; simpl in *. by rewrite Hx.
  - unfold setChildPid.
    destruct (jget sprintId (reservations st)) as [r|] eqn:Hg; destruct pid as [| | |[]| | |];
      simplify_eq/=; (erewrite transact_io_ok; [done|unfold update_tx; by rewrite Hg]).
  - unfold recordExit. destruct (nonempty sprintId); [|done]. simpl.
    destruct (jget sprintId (reservations st)) as [r|] eqn:Hg; simplify_eq.
    erewrite transact_io_ok; [done|unfold update_tx; by rewrite Hg].
  - unfold setScopeFreshness. by erewrite transact_io_ok.
  - by destruct (restart_spec now st Hinv) as [? ->].
Qed.

(** ** The properties *)

(** C1: Every ledger operation either takes its full effect (on both axes at
    once) or none: against the abstract map from sprint to reservation, an
    operation the abstract ledger refuses throws and changes nothing; one it
    accepts succeeds with exactly the abstract effect, unless a file operation
    failed, in which case it throws and the map is as before. Either way the
    file on disk holds exactly the committed map. *)
Theorem ledger_refines_map cfg env op st :
  ledger_reachable cfg st ->
  let out := run_op cfg env op st in
  match abs_step op (abs st) with
  | Some m' => (out.2 = Ok tt /\ abs out.1 = m') \/
               (out.2 <> Ok tt /\ env <> io_ok /\ abs out.1 = abs st)
  | None => out.2 <> Ok tt /\ out.1 = st
  end /\ disk_agrees out.1.
Proof.
  intros Hreach%ledger_reachable_inv out. subst out. split; [|by apply run_op_inv].
  pose proof (run_op_effect cfg env op st Hreach) as He. rewrite op_target_abs.
  destruct (op_target op st) as [d|] eqn:Ht; simpl in *.
  - destruct He as [(Hr & -> & _)|(Hr & _ & e & He)]; unfold abs; rewrite Hr; [by left|].
    right. split_and!; [congruence| |done]. intros ->.
    rewrite run_op_io_ok in He; [done|done|by rewrite Ht].
  - destruct He as [-> [e ->]]. done.
Qed.

(** C36: A restarted supervisor reloads exactly the reservations that were
    committed: from any history of operations (with any file failures), loading
    the file succeeds and yields the same map. *)
Theorem ledger_restart_exact cfg now st :
  ledger_reachable cfg st ->
  (restart now st).2 = Ok tt /\
  list_entries (restart now st).1 = list_entries st /\
  loaded (restart now st).1 = true.
Proof.
  intros Hreach%ledger_reachable_inv. destruct (restart_spec now st Hreach) as [s ->]. done.
Qed.


(** *** Witnesses *)

Definition demo_cfg : ledger_cfg :=
  {| renameRetryOpts := RenameRetry.no_opts; reservationClient := fun _ => true |}.

Definition demo_claim : jsval :=
  JObj [("members", jstrs ["alice"; "bob"; "alice"]); ("issueRoots", jstrs ["fleet-1"]);
        ("childPid", jint 4242); ("branch", JStr "feat/x")].

Definition demo_ledger : ledger :=
  (run_op demo_cfg io_ok (OpClaim "2026-08-01T00:00:00.000Z" "s1" demo_claim)
     (createLedger no_files)).1.

Lemma demo_ledger_reachable : ledger_reachable demo_cfg demo_ledger.
Proof. apply rtc_once, ledger_step_intro. Qed.

(** A rename that fails for good, so the operation must roll back. *)
Definition io_rename_fails : io_env :=
  {| io_mkdir := None; io_write := None;
     io_rename := fun _ => Some (CodedErr "EPERM" "locked") |}.

Lemma ledger_refines_map_witness :
  let out := run_op demo_cfg io_rename_fails (OpRelease "s1") demo_ledger in
  out.2 = Throw (CodedErr "EPERM" "locked") /\ disk_agrees out.1.
Proof.
  split; [vm_compute; reflexivity|].
  apply (ledger_refines_map demo_cfg io_rename_fails (OpRelease "s1") demo_ledger).
  apply demo_ledger_reachable.
Defined.

Lemma ledger_restart_exact_witness :
  (list_entries demo_ledger).*1 = ["s1"] /\
  list_entries (restart "later" demo_ledger).1 = list_entries demo_ledger.
Proof.
  split; [vm_compute; reflexivity|].
  apply (ledger_restart_exact demo_cfg "later" demo_ledger demo_ledger_reachable).
Defined.

