(* ===== verification/LedgerQueue.v ===== *)
(** * Interleaved ledger calls

    [claim], [release] and the other operations are [async]: each call does its
    argument checks (and [release] its capture of the member set) at once, then
    queues its transaction on [txChain]. Here the two halves are separate
    steps, so that calls made while earlier transactions are still writing are
    covered. *)

From S2P Require Import Prelude JsMap JsVal AtomicFile Reservation Ledger LedgerProps.
Local Open Scope string_scope.
Local Open Scope list_scope.

(** A queued transaction with what the call captured before queueing it. *)
Inductive pending :=
| PClaim (sprintId : string) (r : reservation)
| PRelease (sprintId : string) (ms : list string)
| PSetPid (sprintId : string) (pid : jsval)
| PExit (now sprintId : string) (info : exit_info)
| PFresh (now : string) (timestamp : option string).

Record txsys := { tx_ledger : ledger; txChain : list pending }.

(** The call: what it queues, or nothing when an argument check throws. *)
Definition submit (op : ledger_op) (st : ledger) : option pending :=
  match op with
  | OpClaim now s i =>
      if nonempty s
      then match normalizeReservation i now with
           | Ok r => Some (PClaim s r)
           | Throw _ => None
           end
      else None
  | OpRelease s => if nonempty s then Some (PRelease s (held_members s st)) else None
  | OpSetPid s p => Some (PSetPid s p)
  | OpExit now s i => if nonempty s then Some (PExit now s i) else None
  | OpFresh now t => Some (PFresh now t)
  | OpRestart _ => None
  end.

(** The queued transaction, with the server calls that follow it. *)
Definition exec (cfg : ledger_cfg) (env : io_env) (p : pending) (st : ledger)
    : ledger * result unit :=
  match p with
  | PClaim s r => discard (claim_commit cfg env s r st)
  | PRelease s ms => discard (release_commit cfg env s ms st)
  | PSetPid s pid => discard (setChildPid cfg env s pid st)
  | PExit now s i => discard (recordExit cfg env now s i st)
  | PFresh now t => discard (setScopeFreshness cfg env now t st)
  end.

Inductive txstep (cfg : ledger_cfg) : txsys -> txsys -> Prop :=
| tx_submit op p st q :
    submit op st = Some p ->
    txstep cfg {| tx_ledger := st; txChain := q |}
               {| tx_ledger := st; txChain := q ++ [p] |}
| tx_exec env p st q :
    txstep cfg {| tx_ledger := st; txChain := p :: q |}
               {| tx_ledger := (exec cfg env p st).1; txChain := q |}.

Definition txinit : txsys := {| tx_ledger := createLedger no_files; txChain := [] |}.

(** What holds of a queued transaction because its call checked it. *)
Definition pending_ok (p : pending) : Prop :=
  match p with
  | PClaim s r => s <> "" /\ reservation_ok r
  | PRelease s _ => s <> ""
  | _ => True
  end.

Lemma submit_ok op st p : submit op st = Some p -> pending_ok p.
Proof.
  destruct op; simpl; intros Hs; simplify_option_eq; repeat case_match; simplify_eq/=;
    rewrite ?nonempty_spec in *; eauto using normalizeReservation_ok.
Qed.

(** A transaction preserves the ledger invariant whatever was captured. *)
Lemma transact_inv_preserved {T} cfg env mutate st :
  ledger_inv st ->
  (forall x d s, mutate (reservations st) (lastSyncedAt st) = Ok (x, d, s) ->
     jwf d /\ forall k r, jget k d = Some r -> k <> "" /\ reservation_ok r) ->
  ledger_inv (@transact T cfg env mutate st).1.
Proof.
  intros Hinv Hd. destruct (transact cfg env mutate st) as [st' r] eqn:Ht.
  apply transact_inv in Ht. destruct Ht as [e He|x d s e fs He Hf|x d s fs He Hf]; simpl.
  - done.
  - destruct Hinv as [? ? Hdisk]. split; simpl; [done|done|]. by apply (disk_agrees_same st).
  - destruct (Hd _ _ _ He). split; simpl; [done|done|]. right. by exists s.
Qed.

Lemma with_calls_inv st cs : ledger_inv st -> ledger_inv (with_calls st cs).
Proof. by intros [???]. Qed.

Lemma exec_inv cfg env p st :
  ledger_inv st -> pending_ok p -> ledger_inv (exec cfg env p st).1.
Proof.
  intros Hinv Hp. destruct p as [s r|s ms|s pid|now s i|now t]; simpl.
  - destruct Hp as [Hs Hr]. unfold claim_commit.
    pose proof (transact_inv_preserved cfg env (claim_tx s r) st Hinv) as Hi.
    destruct (transact _ _ _ _) as [st' [[]|]]; simpl in *; [apply with_calls_inv|];
      apply Hi; unfold claim_tx; intros x d s' Hd; destruct (jhas s (reservations st)); simplify_eq;
      (split; [by apply jset_wf, Hinv|]); apply jset_ok; try done; apply Hinv.
  - unfold release_commit.
    pose proof (transact_inv_preserved cfg env (release_tx s) st Hinv) as Hi.
    assert (ledger_inv (transact cfg env (release_tx s) st).1) as Hi'.
    { apply Hi. intros x d s' [= <- <- <-]. split; [by apply jdel_wf, Hinv|].
      intros k r. rewrite jget_jdel. case_decide; [done|apply Hinv]. }
    destruct (transact _ _ _ _) as [st' [[]|]]; simpl in *; [by apply with_calls_inv|done|done].
  - apply (run_op_inv cfg env (OpSetPid s pid) st Hinv).
  - apply (run_op_inv cfg env (OpExit now s i) st Hinv).
  - apply (run_op_inv cfg env (OpFresh now t) st Hinv).
Qed.

(** Queueing a call and running it at once is the sequential operation. *)
Lemma submit_exec cfg env op st p :
  submit op st = Some p -> exec cfg env p st = run_op cfg env op st.
Proof.
  destruct op; simpl; intros Hs; simplify_eq; try done;
    unfold claim, release, recordExit;
    destruct (nonempty sprintId) eqn:Hn; simplify_eq/=; try done.
  - destruct (normalizeReservation input now); by simplify_eq.
  - unfold recordExit. by rewrite Hn.
Qed.

(** Transactions of concurrent calls never interfere: whatever calls are
    made while earlier ones are still queued, and whichever file operations
    fail, every reservation stays well formed (both axes present, deduplicated,
    keyed by a non-empty sprint id) and the file on disk holds exactly the
    committed map. *)
Theorem concurrent_calls_keep_invariant cfg sys :
  rtc (txstep cfg) txinit sys ->
  ledger_inv (tx_ledger sys) /\ Forall pending_ok (txChain sys).
Proof.
  intros Hr. assert (Hinit : ledger_inv (tx_ledger txinit) /\ Forall pending_ok (txChain txinit)).
  { split; [apply ledger_inv_init|constructor]. }
  revert Hinit. induction Hr as [|? ? ? Hs _ IH]; [done|].
  intros [Hi Hq]. apply IH. destruct Hs as [op p st q Hs|env p st q]; simpl in *.
  - split; [done|]. apply Forall_app_2; [done|]. constructor; [|done]. by eapply submit_ok.
  - apply Forall_cons in Hq as [Hp Hq]. split; [by apply exec_inv|done].
Qed.

(** ** The member set a queued release captured *)

Definition demo_reservation : reservation :=
  {| members := ["alice"; "bob"]; issueRoots := ["fleet-1"]; childPid := Some 4242%Z;
     reservedAt := "t0"; branch := Some "feat/x"; base := None; goal := None;
     exitCode := None; signal := None; exitedAt := None; logPath := None; beads := None |}.

Definition leaked : txsys :=
  {| tx_ledger :=
       (exec demo_cfg io_ok (PRelease "s1" [])
          (exec demo_cfg io_ok (PClaim "s1" demo_reservation) (createLedger no_files)).1).1;
     txChain := [] |}.

(** The server overlay is NOT maintained under interleaving: [release]
    reads the member set when it is called, so a release issued while the
    sprint's claim is still queued captures none, and once both transactions
    have committed the ledger is empty while the fleet server still has every
    member reserved for the sprint. *)
Theorem release_behind_pending_claim_leaks :
  rtc (txstep demo_cfg) txinit leaked /\ txChain leaked = [] /\
  list_entries (tx_ledger leaked) = [] /\
  server_held (server_calls (tx_ledger leaked)) = [("bob", "s1"); ("alice", "s1")].
Proof.
  split_and!; [|vm_compute; reflexivity..].
  eapply rtc_l. { apply (tx_submit _ (OpClaim "t0" "s1" (reservation_json demo_reservation))).
                  vm_compute; reflexivity. }
  eapply rtc_l. { apply (tx_submit _ (OpRelease "s1")). vm_compute; reflexivity. }
  eapply rtc_l. { apply (tx_exec _ io_ok). }
  eapply rtc_l. { apply (tx_exec _ io_ok). }
  apply rtc_refl.
Qed.

Lemma concurrent_calls_keep_invariant_witness :
  ledger_inv (tx_ledger leaked) /\ Forall pending_ok (txChain leaked).
Proof.
  apply (concurrent_calls_keep_invariant demo_cfg leaked).
  eapply rtc_l. { apply (tx_submit _ (OpClaim "t0" "s1" (reservation_json demo_reservation))).
                  vm_compute; reflexivity. }
  eapply rtc_l. { apply (tx_submit _ (OpRelease "s1")). vm_compute; reflexivity. }
  eapply rtc_l. { apply (tx_exec _ io_ok). }
  eapply rtc_l. { apply (tx_exec _ io_ok). }
  apply rtc_refl.
Defined.
