(* ===== verification/Text.v ===== *)
(** * Strings built from separators and numbers

    Child ids and reservation tokens are template literals such as
    [`${parentId}#${n}#${t.toString(36)}`].  This file has the number
    formatting they use and the facts that make them injective, and the splitting and trimming of
    comma-separated lists. *)

From Stdlib Require Import Ascii.
From S2P Require Import Prelude.
Local Open Scope string_scope.
Local Open Scope list_scope.

(** ** Characters of a string *)

Fixpoint has_char (c : ascii) (s : string) : bool :=
  match s with
  | EmptyString => false
  | String c' s' => bool_decide (c = c') || has_char c s'
  end.

Lemma has_char_app c s1 s2 : has_char c (s1 +:+ s2) = has_char c s1 || has_char c s2.
Proof. induction s1 as [|c' s1 IH]; simpl; [done|]. by rewrite IH, orb_assoc. Qed.

Lemma sep_shift a c b s : a +:+ String c (b +:+ s) = (a +:+ String c b) +:+ s.
Proof. induction a as [|x a IH]; [done|]. exact (f_equal (String x) IH). Qed.

(** A separator that the right part does not contain splits uniquely. *)
Lemma sep_inj c a a' b b' :
  has_char c b = false -> has_char c b' = false ->
  a +:+ String c b = a' +:+ String c b' -> a = a' /\ b = b'.
Proof.
  intros Hb Hb'. revert a'. induction a as [|x a IH]; intros [|x' a'] Heq; simpl in Heq.
  - by simplify_eq.
  - simplify_eq. rewrite has_char_app in Hb. simpl in Hb.
    by rewrite bool_decide_eq_true_2, orb_true_r in Hb.
  - simplify_eq. rewrite has_char_app in Hb'. simpl in Hb'.
    by rewrite bool_decide_eq_true_2, orb_true_r in Hb'.
  - injection Heq as -> Heq. destruct (IH _ Heq). by subst.
Qed.

(** ** Character classes *)

Definition in_range (lo hi : ascii) (c : ascii) : bool :=
  (N_of_ascii lo <=? N_of_ascii c)%N && (N_of_ascii c <=? N_of_ascii hi)%N.

(** [[A-Za-z0-9._-]] *)
Definition safe_char (c : ascii) : bool :=
  in_range "A" "Z" c || in_range "a" "z" c || in_range "0" "9" c
  || bool_decide (c = "."%char) || bool_decide (c = "_"%char) || bool_decide (c = "-"%char).

Fixpoint string_all (p : ascii -> bool) (s : string) : bool :=
  match s with EmptyString => true | String c s' => p c && string_all p s' end.

Lemma string_all_app p a b : string_all p (a +:+ b) = string_all p a && string_all p b.
Proof.
  induction a as [|c a IH]; [done|].
  change (p c && string_all p (a +:+ b) = p c && string_all p a && string_all p b).
  by rewrite IH, andb_assoc.
Qed.

Lemma string_length_app a b : String.length (a +:+ b) = String.length a + String.length b.
Proof.
  induction a as [|c a IH]; [done|].
  change (S (String.length (a +:+ b)) = S (String.length a) + String.length b). lia.
Qed.

Lemma string_app_nil_r s : s +:+ "" = s.
Proof. induction s as [|c s IH]; [done|]. exact (f_equal (String c) IH). Qed.

Lemma string_app_assoc a b c : (a +:+ b) +:+ c = a +:+ (b +:+ c).
Proof. induction a as [|x a IH]; [done|]. exact (f_equal (String x) IH). Qed.

(** [s.startsWith(pre)] *)
Fixpoint starts_with (pre s : string) : bool :=
  match pre, s with
  | EmptyString, _ => true
  | String c pre', String d s' => bool_decide (c = d) && starts_with pre' s'
  | _, EmptyString => false
  end.

(** [s.includes(sub)] *)
Fixpoint includes (sub s : string) : bool :=
  starts_with sub s || match s with EmptyString => false | String _ s' => includes sub s' end.

(** ** Decimal numbers *)

Definition decimal_digits : list ascii :=
  Stdlib.Strings.String.list_ascii_of_string "0123456789".

Lemma pretty_N_char_digit c x :
  pretty_N_char x = c -> c ∈ decimal_digits.
Proof.
  intros <-. destruct x as [|p]; [set_solver|].
  do 4 (destruct p as [p|p|]; try (vm_compute; set_solver)).
Qed.

Lemma pretty_N_go_no_char c x s :
  (forall n, pretty_N_char n ≠ c) -> has_char c s = false ->
  has_char c (pretty_N_go x s) = false.
Proof.
  intros Hc. revert s. induction (N.lt_wf_0 x) as [x _ IH]. intros s Hs.
  destruct (decide (x = 0)%N) as [->|Hx]; [by rewrite pretty_N_go_0|].
  rewrite pretty_N_go_step by lia. apply IH.
  { apply N.div_lt; lia. }
  simpl. rewrite bool_decide_eq_false_2; [done|]. intros E. by apply (Hc (x mod 10)%N).
Qed.

(** A decimal number has only digits and a sign. *)
Lemma pretty_Z_no_char c (z : Z) :
  (forall n, pretty_N_char n ≠ c) -> c ≠ "-"%char -> has_char c (pretty z) = false.
Proof.
  intros Hc Hm.
  assert (Hp : forall n : N, has_char c (pretty n) = false).
  { intros n. unfold pretty, pretty_N. case_decide; simpl.
    - rewrite bool_decide_eq_false_2; [done|]. intros E. by apply (Hc 0%N).
    - by apply pretty_N_go_no_char. }
  unfold pretty, pretty_Z. destruct z; simpl.
  - rewrite bool_decide_eq_false_2; [done|]. intros E. by apply (Hc 0%N).
  - apply Hp.
  - rewrite bool_decide_eq_false_2 by done. apply Hp.
Qed.

Lemma pretty_N_char_ne c :
  c ∉ decimal_digits ->
  forall n, pretty_N_char n ≠ c.
Proof. intros Hc n Hn. by apply Hc, (pretty_N_char_digit _ n). Qed.

Lemma decimal_no_char c (z : Z) :
  c ∉ decimal_digits -> c ≠ "-"%char -> has_char c (pretty z) = false.
Proof. intros. by apply pretty_Z_no_char; [apply pretty_N_char_ne|]. Qed.

(** The separators of ids and tokens. *)
Definition dot : ascii := "."%char.
Definition hash : ascii := "#"%char.

Lemma decimal_no_dot (z : Z) : has_char dot (pretty z) = false.
Proof. apply decimal_no_char; [vm_compute; set_solver|done]. Qed.

Lemma decimal_no_hash (z : Z) : has_char hash (pretty z) = false.
Proof. apply decimal_no_char; [vm_compute; set_solver|done]. Qed.

(** ** [n.toString(36)] *)

Definition base36_digits : string := "0123456789abcdefghijklmnopqrstuvwxyz".

Definition base36_char (n : N) : ascii :=
  default "0"%char (String.get (N.to_nat n) base36_digits).

(** One digit per iteration; [fuel] is the number of binary digits. *)
Fixpoint base36_go (fuel : nat) (n : N) (acc : string) : string :=
  match fuel with
  | O => acc
  | S fuel' =>
      let acc' := String (base36_char (n mod 36)) acc in
      if (n <? 36)%N then acc' else base36_go fuel' (n / 36)%N acc'
  end.

Definition to_base36 (n : N) : string := base36_go (S (N.to_nat (N.log2 n))) n "".

(** [parseInt(s, 36)] on what [toString(36)] prints. *)
Fixpoint index_of (c : ascii) (s : string) : N :=
  match s with
  | EmptyString => 0
  | String c' s' => if decide (c = c') then 0 else N.succ (index_of c s')
  end.

Fixpoint of_base36 (acc : N) (s : string) : N :=
  match s with
  | EmptyString => acc
  | String c s' => of_base36 (acc * 36 + index_of c base36_digits) s'
  end.

Lemma below_36 (P : N -> Prop) :
  Forall (fun n => P (N.of_nat n)) (seq 0 36) -> forall n, (n < 36)%N -> P n.
Proof.
  rewrite Forall_forall. intros HP n Hn. rewrite <-(N2Nat.id n). apply HP.
  apply elem_of_seq. lia.
Qed.

Lemma index_of_base36_char n : (n < 36)%N -> index_of (base36_char n) base36_digits = n.
Proof. revert n. apply below_36. repeat constructor. Qed.

Lemma base36_char_ne c n :
  has_char c base36_digits = false -> (n < 36)%N -> base36_char n ≠ c.
Proof.
  intros Hc Hn Heq. subst c. revert Hc. revert n Hn.
  apply (below_36 (fun n => has_char (base36_char n) base36_digits = false -> False)).
  repeat constructor; vm_compute; discriminate.
Qed.

(** A character that is not a base-36 digit is not in the result. *)
Lemma to_base36_no_char c n :
  has_char c base36_digits = false -> has_char c (to_base36 n) = false.
Proof.
  intros Hc. unfold to_base36.
  assert (Hgo : forall fuel m acc, has_char c acc = false ->
                  has_char c (base36_go fuel m acc) = false).
  { induction fuel as [|fuel IH]; intros m acc Hacc; simpl; [done|].
    assert (has_char c (String (base36_char (m mod 36)) acc) = false) as Hd.
    { simpl. rewrite bool_decide_eq_false_2; [done|].
      intros E. eapply base36_char_ne; [done| |done]. apply N.mod_lt. lia. }
    destruct (m <? 36)%N; [done|]. by apply IH. }
  by apply Hgo.
Qed.

Lemma of_base36_digit a d acc :
  (d < 36)%N -> of_base36 a (String (base36_char d) acc) = of_base36 (a * 36 + d) acc.
Proof. intros Hd. cbn [of_base36]. by rewrite index_of_base36_char. Qed.

(** Reading back a number gives the number: the fuel is always enough. *)
Lemma base36_go_value fuel n acc :
  (n < 2 ^ N.of_nat fuel)%N -> fuel <> 0 ->
  of_base36 0 (base36_go fuel n acc) = of_base36 n acc.
Proof.
  revert n acc. induction fuel as [|fuel IH]; intros n acc Hn Hf; [done|].
  cbn [base36_go].
  pose proof (N.mod_lt n 36 ltac:(lia)) as Hm.
  destruct (N.ltb_spec n 36) as [Hlt|Hge].
  - rewrite of_base36_digit by done. by rewrite N.mod_small.
  - assert (n / 36 < 2 ^ N.of_nat fuel)%N as Hd.
    { apply N.Div0.div_lt_upper_bound. rewrite Nat2N.inj_succ, N.pow_succ_r' in Hn. lia. }
    rewrite IH; [|done|].
    + rewrite of_base36_digit by done. f_equal.
      rewrite (N.div_mod n 36) at 3 by lia. lia.
    + intros ->. simpl in Hd. apply N.lt_1_r in Hd.
      apply N.div_small_iff in Hd; lia.
Qed.

Lemma to_base36_value n : of_base36 0 (to_base36 n) = n.
Proof.
  unfold to_base36. rewrite base36_go_value; [done| |lia].
  rewrite Nat2N.inj_succ, N2Nat.id.
  destruct (decide (n = 0)%N) as [->|]; [done|]. by apply N.log2_spec; lia.
Qed.

#[export] Instance to_base36_inj : Inj (=) (=) to_base36.
Proof. intros n1 n2 Heq. by rewrite <-(to_base36_value n1), Heq, to_base36_value. Qed.

(** ** Tokens: [`${s}#${n}#${Date.now().toString(36)}`] *)

Definition stamp (s : string) (n : Z) (date_now : N) : string :=
  s +:+ "#" +:+ pretty n +:+ "#" +:+ to_base36 date_now.

Lemma stamp_inj s n d s' n' d' :
  stamp s n d = stamp s' n' d' -> s = s' /\ n = n' /\ d = d'.
Proof.
  assert (Hsplit : forall s n d,
    stamp s n d = (s +:+ String hash (pretty n)) +:+ String hash (to_base36 d)).
  { intros s0 n0 d0. exact (sep_shift s0 hash (pretty n0) (String hash (to_base36 d0))). }
  rewrite !Hsplit. intros Heq.
  apply sep_inj in Heq as [Heq Hd]; [|by apply to_base36_no_char..].
  apply sep_inj in Heq as [-> Hn]; [|apply decimal_no_hash..].
  apply (inj pretty) in Hn. by apply (inj to_base36) in Hd.
Qed.

(** ** Splitting and trimming *)

(** The ASCII white space [String.prototype.trim] removes. *)
Definition ws_char (c : ascii) : bool :=
  bool_decide (N_of_ascii c ∈ [9; 10; 11; 12; 13; 32]%N).

Fixpoint trim_start (s : string) : string :=
  match s with
  | EmptyString => ""
  | String c s' => if ws_char c then trim_start s' else s
  end.

(** Drops the white space a string ends in. *)
Fixpoint trim_end (s : string) : string :=
  match s with
  | EmptyString => ""
  | String c s' =>
      match trim_end s' with
      | EmptyString => if ws_char c then "" else String c ""
      | t => String c t
      end
  end.

Definition trim (s : string) : string := trim_end (trim_start s).

(** [s.split(',')] *)
Fixpoint split_comma (s : string) : list string :=
  match s with
  | EmptyString => [""]
  | String c s' =>
      if decide (c = ","%char) then "" :: split_comma s'
      else match split_comma s' with
           | [] => [String c ""]
           | p :: ps => String c p :: ps
           end
  end.

(** [l.join(',')] *)
Definition join_comma (l : list string) : string := String.concat "," l.

(** ** Splitting what was joined *)

Definition comma : ascii := ","%char.
Definition no_comma (s : string) : Prop := has_char comma s = false.

Lemma no_comma_cons c s : no_comma (String c s) <-> c ≠ comma /\ no_comma s.
Proof.
  unfold no_comma. cbn [has_char]. rewrite orb_false_iff, bool_decide_eq_false. naive_solver.
Qed.

Lemma split_comma_one s : no_comma s -> split_comma s = [s].
Proof.
  induction s as [|c s IH]; [done|]. intros [Hc Hs]%no_comma_cons. cbn [split_comma].
  rewrite decide_False by done. by rewrite IH.
Qed.

Lemma split_comma_cons s t :
  no_comma s -> split_comma (s +:+ String "," t) = s :: split_comma t.
Proof.
  induction s as [|c s IH]; [done|]. intros [Hc Hs]%no_comma_cons.
  change (String c s +:+ String "," t) with (String c (s +:+ String "," t)). cbn [split_comma].
  rewrite decide_False by done. by rewrite IH.
Qed.

Lemma split_join_comma l : l ≠ [] -> Forall no_comma l -> split_comma (join_comma l) = l.
Proof.
  intros Hne Hall. induction l as [|x l IH]; [done|].
  apply Forall_cons in Hall as [Hx Hall]. destruct l as [|y l]; [by apply split_comma_one|].
  change (join_comma (x :: y :: l)) with (x +:+ String "," (join_comma (y :: l))).
  rewrite split_comma_cons by done. f_equal. by apply IH.
Qed.

Lemma split_comma_no_comma s : Forall no_comma (split_comma s).
Proof.
  induction s as [|c s IH]; cbn [split_comma]; [by constructor|]. case_decide as Hc.
  - by constructor.
  - destruct (split_comma s) as [|p ps]; [by repeat constructor; apply no_comma_cons|].
    apply Forall_cons in IH as [Hp Hps]. constructor; [by apply no_comma_cons|done].
Qed.

(** ** Trimming *)

Lemma trim_none p s :
  (forall c, p c = true -> ws_char c = false) -> string_all p s = true -> trim s = s.
Proof.
  intros Hp Hs.
  assert (He : forall t, string_all p t = true -> trim_end t = t).
  { induction t as [|c t IH]; [done|]. intros [Hc Ht]%andb_true_iff. simpl. rewrite (IH Ht).
    destruct t; [|done]. by rewrite Hp. }
  unfold trim. destruct s as [|c s]; [done|].
  assert (Hs' := Hs). apply andb_true_iff in Hs as [Hc _].
  simpl trim_start. rewrite Hp by done. by apply He.
Qed.


Lemma trim_end_first c s : ws_char c = false -> exists t, trim_end (String c s) = String c t.
Proof. intros Hc. cbn [trim_end]. destruct (trim_end s); [rewrite Hc|]; eauto. Qed.

Lemma trim_end_idem s : trim_end (trim_end s) = trim_end s.
Proof.
  induction s as [|c s IH]; [done|]. cbn [trim_end]. destruct (trim_end s) as [|d t] eqn:E.
  - destruct (ws_char c) eqn:Hc; [done|]. cbn [trim_end]. by rewrite Hc.
  - cbn [trim_end] in *. by rewrite IH.
Qed.

Lemma trim_start_shape s : trim_start s = "" \/ exists c t, trim_start s = String c t /\ ws_char c = false.
Proof.
  induction s as [|c s IH]; [by left|]. cbn [trim_start]. destruct (ws_char c) eqn:Hc; [done|eauto].
Qed.

Lemma trim_idem s : trim (trim s) = trim s.
Proof.
  unfold trim. destruct (trim_start_shape s) as [->|(c & t & -> & Hc)]; [done|].
  destruct (trim_end_first c t Hc) as [u Hu]. rewrite Hu. cbn [trim_start]. rewrite Hc, <-Hu.
  apply trim_end_idem.
Qed.

Lemma trim_end_no_comma s : no_comma s -> no_comma (trim_end s).
Proof.
  induction s as [|c s IH]; [done|]. intros [Hc Hs]%no_comma_cons. cbn [trim_end].
  specialize (IH Hs). destruct (trim_end s); [|by apply no_comma_cons].
  destruct (ws_char c); [done|by apply no_comma_cons].
Qed.

Lemma trim_start_no_comma s : no_comma s -> no_comma (trim_start s).
Proof.
  induction s as [|c s IH]; [done|]. intros Hcs. cbn [trim_start].
  destruct (ws_char c); [|done]. apply no_comma_cons in Hcs as [_ Hs]. by apply IH.
Qed.

Lemma trim_no_comma s : no_comma s -> no_comma (trim s).
Proof. intros. by apply trim_end_no_comma, trim_start_no_comma. Qed.

(** Ids have neither white space nor commas. *)
Lemma safe_not_ws c : safe_char c = true -> ws_char c = false.
Proof. destruct c as [[] [] [] [] [] [] [] []]; vm_compute; congruence. Qed.

Lemma trim_safe s : string_all safe_char s = true -> trim s = s.
Proof. apply trim_none, safe_not_ws. Qed.

Lemma safe_no_comma s : string_all safe_char s = true -> no_comma s.
Proof.
  induction s as [|c s IH]; [done|]. intros [Hc Hs]%andb_true_iff.
  apply no_comma_cons. split; [by intros ->|by apply IH].
Qed.

(** ** Prefixes and runs *)

Definition digit_char (c : ascii) : bool := in_range "0" "9" c.

(** The longest prefix of characters satisfying [p], and the rest. *)
Fixpoint span (p : ascii -> bool) (s : string) : string * string :=
  match s with
  | EmptyString => ("", "")
  | String c s' => if p c then let '(a, b) := span p s' in (String c a, b) else ("", s)
  end.

Fixpoint strip_prefix (pre s : string) : option string :=
  match pre, s with
  | EmptyString, _ => Some s
  | String c pre', String d s' => if decide (c = d) then strip_prefix pre' s' else None
  | _, EmptyString => None
  end.

Lemma strip_prefix_app pre s : strip_prefix pre (pre +:+ s) = Some s.
Proof.
  induction pre as [|c pre IH]; [by destruct s|].
  change (String c pre +:+ s) with (String c (pre +:+ s)). simpl. by rewrite decide_True.
Qed.

Lemma span_all p a b :
  string_all p a = true -> (forall c s, b = String c s -> p c = false) ->
  span p (a +:+ b) = (a, b).
Proof.
  intros Ha Hb. induction a as [|c a IH].
  - change ("" +:+ b) with b. destruct b as [|c b]; [done|]. simpl. by rewrite (Hb c b).
  - simpl in Ha. apply andb_true_iff in Ha as [Hc Ha].
    change (String c a +:+ b) with (String c (a +:+ b)). cbn [span]. rewrite Hc, IH by done. done.
Qed.

(** ** Decimal numbers *)

(** [Number(digits)] *)
Fixpoint digits_value (acc : N) (s : string) : N :=
  match s with
  | EmptyString => acc
  | String c s' => digits_value (acc * 10 + (N_of_ascii c - 48)) s'
  end.

Lemma pretty_N_char_value d : (d < 10)%N -> (N_of_ascii (pretty_N_char d) - 48 = d)%N.
Proof.
  intros Hd. destruct d as [|p]; [done|].
  do 4 (destruct p as [p|p|]; try done); simpl in Hd; lia.
Qed.

Lemma pretty_N_char_is_digit d : digit_char (pretty_N_char d) = true.
Proof. destruct d as [|p]; [done|]. do 4 (destruct p as [p|p|]; try done). Qed.

Lemma digits_value_pretty_go x s :
  string_all digit_char (pretty_N_go x s) = string_all digit_char s /\
  digits_value 0 (pretty_N_go x s) = digits_value x s.
Proof.
  revert s. induction (N.lt_wf_0 x) as [x _ IH]. intros s.
  destruct (decide (x = 0)%N) as [->|Hx]; [by rewrite pretty_N_go_0|].
  rewrite pretty_N_go_step by lia.
  destruct (IH (x / 10)%N) with (s := String (pretty_N_char (x mod 10)) s) as [Ha Hv].
  { apply N.div_lt; lia. }
  rewrite Ha, Hv. cbn [string_all digits_value]. rewrite pretty_N_char_is_digit.
  split; [done|]. rewrite pretty_N_char_value by (apply N.mod_lt; lia).
  f_equal. rewrite (N.div_mod x 10) at 3 by lia. lia.
Qed.

Lemma pretty_pos_digits (z : Z) :
  (0 < z)%Z -> string_all digit_char (pretty z) = true /\
               digits_value 0 (pretty z) = Z.to_N z /\ pretty z ≠ "".
Proof.
  intros Hz. destruct z as [|p|p]; [lia| |lia].
  change (pretty (Zpos p)) with (pretty (Npos p)). unfold pretty, pretty_N. simpl.
  destruct (digits_value_pretty_go (Npos p) "") as [Ha Hv]. rewrite Ha, Hv.
  split; [done|]. split; [done|]. intros He. rewrite He in Hv. done.
Qed.

(** ** Sorting and joining lists of strings *)

(** [l.sort()] on strings: by code unit. *)
Definition sortS (l : list string) : list string := merge_sort String.le l.

(** [l.join(sep)] *)
Definition joinS (sep : string) (l : list string) : string := String.concat sep l.

Lemma sortS_perm l : sortS l ≡ₚ l.
Proof. apply merge_sort_Permutation. Qed.

(** The order of the input does not matter. *)
Lemma sortS_canonical l l' : l ≡ₚ l' -> sortS l = sortS l'.
Proof.
  intros Hp. apply (StronglySorted_unique String.le).
  - apply StronglySorted_merge_sort; apply _.
  - apply StronglySorted_merge_sort; apply _.
  - by rewrite !sortS_perm.
Qed.

(** ** Integers in texts *)

(** [Number.parseInt(s, 10)]; [None] is [NaN]. *)
Definition parse_int (s : string) : option Z :=
  let t := trim_start s in
  let '(neg, t) := match t with
                   | String c t' => if decide (c = "-"%char) then (true, t')
                                    else if decide (c = "+"%char) then (false, t')
                                    else (false, t)
                   | EmptyString => (false, t)
                   end in
  let '(digits, _) := span digit_char t in
  if nonempty digits
  then Some (let n := Z.of_N (digits_value 0 digits) in if neg then (- n)%Z else n)
  else None.

Lemma digit_not_ws c : digit_char c = true -> ws_char c = false.
Proof. destruct c as [[] [] [] [] [] [] [] []]; vm_compute; congruence. Qed.

Lemma parse_int_pretty (p : Z) : (0 < p)%Z -> parse_int (pretty p) = Some p.
Proof.
  intros Hp. destruct (pretty_pos_digits p Hp) as (Hd & Hv & Hne). unfold parse_int.
  assert (span digit_char (pretty p) = (pretty p, "")) as Hspan.
  { rewrite <-(string_app_nil_r (pretty p)) at 1. by apply span_all. }
  destruct (pretty p) as [|c s] eqn:E; [done|].
  assert (digit_char c = true) as Hc by (cbn [string_all] in Hd; by apply andb_true_iff in Hd as [? _]).
  cbn [trim_start]. rewrite (digit_not_ws c Hc).
  rewrite decide_False by (by intros ->). rewrite decide_False by (by intros ->).
  rewrite Hspan. cbn [nonempty]. rewrite Hv. simpl. f_equal. lia.
Qed.

(** [s.split(c)] for a one-character separator. *)
Fixpoint split_on (sep : ascii) (s : string) : list string :=
  match s with
  | EmptyString => [""]
  | String c s' =>
      if decide (c = sep) then "" :: split_on sep s'
      else match split_on sep s' with
           | [] => [String c ""]
           | p :: ps => String c p :: ps
           end
  end.

(** ** Case *)

(** [toLowerCase] on the ASCII letters. *)
Definition lower_char (c : ascii) : ascii :=
  if in_range "A" "Z" c then ascii_of_N (N_of_ascii c + 32) else c.
Fixpoint toLowerCase (s : string) : string :=
  match s with EmptyString => "" | String c s' => String (lower_char c) (toLowerCase s') end.

Lemma toLowerCase_app a b : toLowerCase (a +:+ b) = toLowerCase a +:+ toLowerCase b.
Proof. induction a as [|c a IH]; [done|]. exact (f_equal (String (lower_char c)) IH). Qed.
