(* ===== verification/Http.v ===== *)
(** * HTTP responses of the supervisor's routes

    A route handler ends in [sendJson(res, status, body)]; it is modelled as a
    function from the parsed request to that status and body. *)

From S2P Require Import Prelude JsMap JsVal.
Local Open Scope string_scope.
Local Open Scope list_scope.

Record response := { rs_status : Z; rs_body : jsval }.

Definition sendJson (status : Z) (fields : list (string * jsval)) : response :=
  {| rs_status := status; rs_body := JObj fields |}.

Definition sendError (status : Z) (msg : string) : response :=
  sendJson status [("error", JStr msg)].

(** [err.message] *)
Definition err_message (e : js_error) : string :=
  match e with
  | TypeErr m | PlainErr m | CodedErr _ m | ApiErr _ m _ => m
  | SprintNotFound s => "no live reservation for sprint '" +:+ s +:+ "'"
  end.

(** [(await readJsonBody(req)) ?? {}] *)
Definition body_or_empty (body : jsval) : jsval := coalesce body (JObj []).

(** [if (!ctx.params.x)]: an absent or empty path parameter. *)
Definition path_param (p : option string) : option string :=
  match p with Some s => if nonempty s then Some s else None | None => None end.

(** [typeof body.token !== 'string' || body.token.length === 0] *)
Definition body_token (body : jsval) : option string :=
  as_nonempty_str (prop "token" (body_or_empty body)).
