(* ===== verification/IdAllocator.v ===== *)
(** * The child-id allocator ([src/supervisor/id-allocator.mjs])

    Per parent bead: a high-water mark, a pool of reclaimed sequence numbers
    and the outstanding reservations by token.  The in-memory change of an
    operation is synchronous; the snapshot it takes is queued on
    [persistChain] and written later, in order, and the call's promise settles
    when its own snapshot has been written.  [asys] is that system: memory, the
    queue of snapshots with what each acknowledges, and the file. *)

From S2P Require Import Prelude JsMap JsVal Text AtomicFile Http.
Local Open Scope string_scope.
Local Open Scope list_scope.

Definition ID_ALLOCATOR_VERSION : Z := 1.
Definition DEFAULT_LEASE_MS : Z := 60000.

(** [Number.isFinite(deps.leaseMs) && deps.leaseMs > 0 ? ... : default]; a
    lease is a whole number of milliseconds here. *)
Definition effective_lease (leaseMs : option Z) : Z :=
  match leaseMs with
  | Some z => if (0 <? z)%Z then z else DEFAULT_LEASE_MS
  | None => DEFAULT_LEASE_MS
  end.

(** ** State *)

Record id_res := {
  seq : Z; pid : option Z; sprintId : jsval; reservedAt : Z; expiresAt : Z
}.

Record pstate := {
  highWater : Z; free : list Z; reserved : list (string * id_res)
}.

Definition pstate_empty : pstate := {| highWater := 0; free := []; reserved := [] |}.

Definition parents := list (string * pstate).

(** [`${parentId}#${tokenSeq}#${Date.now().toString(36)}`] *)
Definition nextToken (parentId : string) (tokenSeq : Z) (date_now : N) : string :=
  parentId +:+ "#" +:+ pretty tokenSeq +:+ "#" +:+ to_base36 date_now.

(** [`${parentId}.${seq}`] *)
Definition childIdOf (parentId : string) (n : Z) : string :=
  parentId +:+ "." +:+ pretty n.

(** [parentState]: the state of a parent, created when absent. *)
Definition parentState (parentId : string) (ps : parents) : pstate * parents :=
  match jget parentId ps with
  | Some st => (st, ps)
  | None => (pstate_empty, jset parentId pstate_empty ps)
  end.

(** [l.sort((a, b) => a - b)] *)
Definition sortZ (l : list Z) : list Z := merge_sort Z.le l.

(** [if (!free.includes(n)) free.push(n); free.sort(...)] *)
Definition pool (n : Z) (fr : list Z) : list Z :=
  sortZ (if decide (n ∈ fr) then fr else fr ++ [n]).

(** ** The persisted document *)

Definition res_json (r : id_res) : jsval :=
  JObj [("seq", jint (seq r)); ("pid", of_opt jint (pid r)); ("sprintId", sprintId r);
        ("reservedAt", jint (reservedAt r)); ("expiresAt", jint (expiresAt r))].

Definition pstate_json (st : pstate) : jsval :=
  JObj [("highWater", jint (highWater st));
        ("free", JArr (jint <$> sortZ (free st)));
        ("reserved", JObj ((fun kv => (kv.1, res_json kv.2)) <$> reserved st))].

Definition currentDocument (ps : parents) : jsval :=
  JObj [("version", jint ID_ALLOCATOR_VERSION);
        ("parents", JObj ((fun kv => (kv.1, pstate_json kv.2)) <$> ps))].

(** A persisted reservation, read back.  [load] copies [seq], [pid] and the
    times unchecked; [None] is an entry whose fields are not the numbers
    [persist] writes, on which this model says nothing. *)
Definition res_of_json (r : jsval) : option id_res :=
  n ← as_int (prop "seq" r);
  p ← match coalesce (prop "pid" r) JNull with JNull => Some None | v => Some <$> as_int v end;
  ra ← as_int (coalesce (prop "reservedAt" r) (jint 0));
  ea ← as_int (coalesce (prop "expiresAt" r) (jint 0));
  Some {| seq := n; pid := p; sprintId := coalesce (prop "sprintId" r) JNull;
          reservedAt := ra; expiresAt := ea |}.

Definition entries_of (v : jsval) : list (string * jsval) :=
  match v with
  | JObj fs => fs
  | JArr l => imap (fun i x => (pretty i, x)) l
  | _ => []
  end.

(** A [null] parent entry throws in [load]; like a malformed reservation it is
    never written, and [None] here. *)
Definition pstate_of_json (st : jsval) : option pstate :=
  if nullish st then None else
  rs ← mapM (fun kv => r ← res_of_json kv.2; Some (kv.1, r))
            (entries_of (coalesce (prop "reserved" st) (JObj [])));
  Some {| highWater := default 0%Z (as_int (prop "highWater" st));
          free := match prop "free" st with JArr l => sortZ (omap as_int l) | _ => [] end;
          reserved := jmap_of rs |}.

Definition parents_of_json (v : jsval) : option parents :=
  pss ← mapM (fun kv => st ← pstate_of_json kv.2; Some (kv.1, st)) (entries_of v);
  Some (jmap_of pss).

(** The guard of [load] on the parsed document. *)
Definition document_shape_ok (doc : jsval) : bool :=
  truthy doc && typeof_object doc
  && bool_decide (as_int (prop "version" doc) = Some ID_ALLOCATOR_VERSION)
  && typeof_object (prop "parents" doc).

(** [load]: the parents read from the file, or the error thrown; [None] where
    [res_of_json] says nothing.  [parents: null] passes the guard and then
    throws in [Object.entries]. *)
Definition load (read_err : option js_error) (fs : files) : option (result parents) :=
  match read_err, f_main fs with
  | Some e, _ => Some (Throw e)
  | None, None => Some (Ok [])
  | None, Some (FGarbage _) => Some (Throw (PlainErr "id-allocator file is not valid JSON"))
  | None, Some (FJson doc) =>
      if negb (document_shape_ok doc)
      then Some (Throw (PlainErr "id-allocator file has an unexpected shape or version"))
      else match prop "parents" doc with
           | JNull => Some (Throw (TypeErr "Cannot convert undefined or null to object"))
           | v => Ok <$> parents_of_json v
           end
  end.

(** ** Reclaiming *)

(** [t >= r.expiresAt || (r.pid != null && !probe(r.pid))] *)
Definition abandoned (t : Z) (probe : Z -> bool) (r : id_res) : bool :=
  (expiresAt r <=? t)%Z
  || match pid r with Some p => negb (probe p) | None => false end.

(** The inner loop over the entries of [st.reserved], with the running pool,
    map and count. *)
Fixpoint reclaim_loop (t : Z) (probe : Z -> bool) (es : list (string * id_res))
    (st : pstate) (n : Z) : pstate * Z :=
  match es with
  | [] => (st, n)
  | (token, r) :: es' =>
      if abandoned t probe r
      then reclaim_loop t probe es'
             {| highWater := highWater st; free := pool (seq r) (free st);
                reserved := jdel token (reserved st) |} (n + 1)%Z
      else reclaim_loop t probe es' st n
  end.

Definition reclaim_parent (t : Z) (probe : Z -> bool) (st : pstate) : pstate * Z :=
  reclaim_loop t probe (reserved st) st 0.

Definition reclaimExpired (t : Z) (probe : Z -> bool) (ps : parents) : parents * Z :=
  ((fun kv => (kv.1, (reclaim_parent t probe kv.2).1)) <$> ps,
   foldr Z.add 0%Z ((fun kv => (reclaim_parent t probe kv.2).2) <$> ps)).

#[global] Arguments reclaimExpired : simpl never.

(** ** Allocation *)

Record grant := {
  g_childId : string; g_parentId : string; g_seq : Z; g_token : string; g_expiresAt : Z
}.

(** The clock and the pid probe as one call reads them: [now()] for the
    reclaim, [now()] for the reservation, [Date.now()] for the token. *)
Record clocks := { c_reclaim : Z; c_at : Z; c_date : N; c_probe : Z -> bool }.

Record alloc_opts := { o_pid : jsval; o_sprintId : jsval; o_floor : jsval }.

(** [if (Number.isInteger(opts.floor)) { ... }] *)
Definition apply_floor (floor : jsval) (st : pstate) : pstate :=
  match as_int floor with
  | Some f =>
      {| highWater := if (highWater st <? f)%Z then f else highWater st;
         free := filter (fun n => f < n)%Z (free st);
         reserved := reserved st |}
  | None => st
  end.

(** The smallest hole, or the next number. *)
Definition take_seq (st : pstate) : Z * pstate :=
  match free st with
  | n :: fr => (n, {| highWater := highWater st; free := fr; reserved := reserved st |})
  | [] => ((highWater st + 1)%Z,
           {| highWater := (highWater st + 1)%Z; free := []; reserved := reserved st |})
  end.

Definition check_pid (v : jsval) : result (option Z) :=
  if nullish v then Ok None
  else match as_int v with
       | Some p => Ok (Some p)
       | None => Throw (TypeErr "allocate() pid must be an integer or null")
       end.

(** [allocate] up to its [await persist()]: the new memory, the new
    [tokenSeq] and the grant that will be returned. *)
Definition allocate (lease : Z) (c : clocks) (parentId : jsval) (o : alloc_opts)
    (tokenSeq : Z) (ps : parents) : result (parents * Z * grant) :=
  match as_nonempty_str parentId with
  | None => Throw (TypeErr "allocate() requires a non-empty parentId")
  | Some p =>
      opid ← check_pid (o_pid o);
      let ps1 := (reclaimExpired (c_reclaim c) (c_probe c) ps).1 in
      let '(st, ps2) := parentState p ps1 in
      let '(n, st2) := take_seq (apply_floor (o_floor o) st) in
      let tokenSeq' := (tokenSeq + 1)%Z in
      let token := nextToken p tokenSeq' (c_date c) in
      let r := {| seq := n; pid := opid; sprintId := coalesce (o_sprintId o) JNull;
                  reservedAt := c_at c; expiresAt := (c_at c + lease)%Z |} in
      let st3 := {| highWater := highWater st2; free := free st2;
                    reserved := jset token r (reserved st2) |} in
      Ok (jset p st3 ps2, tokenSeq',
          {| g_childId := childIdOf p n; g_parentId := p; g_seq := n; g_token := token;
             g_expiresAt := (c_at c + lease)%Z |})
  end.

(** ** Confirming and releasing *)

(** The first parent holding the token, with the reservation. *)
Fixpoint find_token (token : string) (ps : parents) : option (string * pstate * id_res) :=
  match ps with
  | [] => None
  | (p, st) :: ps' =>
      match jget token (reserved st) with
      | Some r => Some (p, st, r)
      | None => find_token token ps'
      end
  end.

(** [confirm] up to its [await persist()]: the new memory and the confirmed
    reservation's parent and sequence number, or [None] (it returns [false]). *)
Definition confirm (token : string) (ps : parents) : option (parents * (string * Z)) :=
  '(p, st, r) ← find_token token ps;
  Some (jset p {| highWater := highWater st; free := free st;
                  reserved := jdel token (reserved st) |} ps, (p, seq r)).

Definition release (token : string) (ps : parents) : option (parents * (string * Z)) :=
  '(p, st, r) ← find_token token ps;
  Some (jset p {| highWater := highWater st; free := pool (seq r) (free st);
                  reserved := jdel token (reserved st) |} ps, (p, seq r)).

(** [status()]: a copy, with the pool sorted. *)
Definition status (ps : parents) : list (string * (Z * list Z * list (Z * option Z * jsval * Z))) :=
  (fun kv => (kv.1, (highWater kv.2, sortZ (free kv.2),
     (fun e => (seq e.2, pid e.2, sprintId e.2, expiresAt e.2)) <$> reserved kv.2))) <$> ps.

(** ** Routes

    [written] is how the call's own [persist()] ends. *)

(** [POST .../:parentId/allocate] *)
Definition route_allocate (lease : Z) (c : clocks) (parentId : option string) (body : jsval)
    (written : result unit) (tokenSeq : Z) (ps : parents) : parents * Z * response :=
  match path_param parentId with
  | None => (ps, tokenSeq, sendError 400 "missing parentId in path")
  | Some p =>
      let b := body_or_empty body in
      match allocate lease c (JStr p)
              {| o_pid := prop "pid" b; o_sprintId := prop "sprintId" b; o_floor := prop "floor" b |}
              tokenSeq ps with
      | Throw e => (ps, tokenSeq, sendError 503 ("allocate failed: " +:+ err_message e))
      | Ok (ps', n', g) =>
          (ps', n',
           match written with
           | Ok _ => sendJson 200 [("status", JStr "allocated"); ("childId", JStr (g_childId g));
                                   ("parentId", JStr (g_parentId g)); ("seq", jint (g_seq g));
                                   ("token", JStr (g_token g)); ("expiresAt", jint (g_expiresAt g))]
           | Throw e => sendError 503 ("allocate failed: " +:+ err_message e)
           end)
      end
  end.

(** [POST .../confirm] and [POST .../release]; a failed write leaves the
    handler as a rejection. *)
Definition route_token (op : string -> parents -> option (parents * (string * Z))) (name field : string)
    (body : jsval) (written : result unit) (ps : parents) : parents * result response :=
  match as_nonempty_str (prop "token" (body_or_empty body)) with
  | None => (ps, Ok (sendError 400 (name +:+ " requires a token")))
  | Some token =>
      match op token ps with
      | None => (ps, Ok (sendJson 200 [(field, JBool false)]))
      | Some (ps', _) => (ps', _ ← written; Ok (sendJson 200 [(field, JBool true)]))
      end
  end.

Definition route_confirm := route_token confirm "confirm" "confirmed".
Definition route_id_release := route_token release "release" "released".

(** The client of a sprint without a supervisor. *)
Definition null_allocate : option string * option string := (None, None).

(** ** The allocator as a system *)

(** What a queued snapshot acknowledges once it is on disk. *)
Inductive ack :=
| AckGrant (g : grant)
| AckConfirm (p : string) (n : Z)
| AckRelease (p : string) (n : Z)
| AckSweep.

Record asys := {
  a_parents : parents;
  a_tokenSeq : Z;
  a_chain : list (jsval * ack);  (** [persistChain] *)
  a_files : files;
  a_acked : list ack             (** promises resolved so far, oldest first *)
}.

Definition alloc_init : asys :=
  {| a_parents := []; a_tokenSeq := 0; a_chain := []; a_files := no_files; a_acked := [] |}.

(** [persist()]: the snapshot is taken now and written later. *)
Definition persist (k : ack) (ps : parents) (n : Z) (s : asys) : asys :=
  {| a_parents := ps; a_tokenSeq := n;
     a_chain := a_chain s ++ [(currentDocument ps, k)];
     a_files := a_files s; a_acked := a_acked s |}.

(** The head of the queue is written, or fails and only its caller knows. *)
Definition flush (ropts : RenameRetry.opts) (env : io_env) (s : asys) : asys :=
  match a_chain s with
  | [] => s
  | (doc, k) :: q =>
      let '(fs, r) := write_atomic ropts env doc (a_files s) in
      {| a_parents := a_parents s; a_tokenSeq := a_tokenSeq s; a_chain := q; a_files := fs;
         a_acked := if is_ok r then a_acked s ++ [k] else a_acked s |}
  end.

(** The background sweep: persisted only when it reclaimed something. *)
Definition sweep (t : Z) (probe : Z -> bool) (s : asys) : asys :=
  let '(ps, n) := reclaimExpired t probe (a_parents s) in
  if (0 <? n)%Z then persist AckSweep ps (a_tokenSeq s) s
  else {| a_parents := ps; a_tokenSeq := a_tokenSeq s; a_chain := a_chain s;
          a_files := a_files s; a_acked := a_acked s |}.

Inductive astep (lease : Z) (ropts : RenameRetry.opts) : asys -> asys -> Prop :=
| as_allocate c p o s ps n g :
    allocate lease c p o (a_tokenSeq s) (a_parents s) = Ok (ps, n, g) ->
    astep lease ropts s (persist (AckGrant g) ps n s)
| as_confirm token s ps p n :
    confirm token (a_parents s) = Some (ps, (p, n)) ->
    astep lease ropts s (persist (AckConfirm p n) ps (a_tokenSeq s) s)
| as_release token s ps p n :
    release token (a_parents s) = Some (ps, (p, n)) ->
    astep lease ropts s (persist (AckRelease p n) ps (a_tokenSeq s) s)
| as_sweep t probe s :
    astep lease ropts s (sweep t probe s)
| as_flush env s :
    astep lease ropts s (flush ropts env s)
(** The process dies and a new one loads the file; queued writes are lost and
    the token counter starts again. *)
| as_restart s ps :
    load None (a_files s) = Some (Ok ps) ->
    astep lease ropts s
      {| a_parents := ps; a_tokenSeq := 0; a_chain := []; a_files := a_files s;
         a_acked := a_acked s |}.
