(* ===== verification/IdAllocatorProps.v ===== *)
(** * What the child-id allocator guarantees *)

From S2P Require Import Prelude JsMap JsVal Text AtomicFile IdAllocator.
Local Open Scope string_scope.
Local Open Scope list_scope.

(** ** Sorted pools *)

Lemma sortZ_perm l : sortZ l ≡ₚ l.
Proof. apply merge_sort_Permutation. Qed.

Lemma sortZ_sorted l : Sorted Z.le (sortZ l).
Proof. apply Sorted_merge_sort; apply _. Qed.

Lemma sortZ_id l : Sorted Z.le l -> sortZ l = l.
Proof.
  intros Hl. apply (Sorted_unique Z.le); [apply sortZ_sorted|done|apply sortZ_perm].
Qed.

Lemma pool_perm n fr : n ∉ fr -> pool n fr ≡ₚ n :: fr.
Proof.
  intros Hn. unfold pool. rewrite decide_False by done.
  rewrite sortZ_perm. by rewrite Permutation_app_comm.
Qed.

Lemma elem_of_pool n fr x : x ∈ pool n fr <-> x = n \/ x ∈ fr.
Proof.
  unfold pool. rewrite sortZ_perm. case_decide; [naive_solver|]. set_solver.
Qed.

Lemma pool_sorted n fr : Sorted Z.le (pool n fr).
Proof. apply sortZ_sorted. Qed.

Lemma Sorted_le_filter (P : Z -> Prop) `{!forall n, Decision (P n)} l :
  Sorted Z.le l -> Sorted Z.le (filter P l).
Proof.
  intros Hl%Sorted_StronglySorted; [|apply _]. apply StronglySorted_Sorted.
  induction Hl as [|x l Hl IH Hx]; [constructor|]. rewrite filter_cons.
  case_decide; [|done]. constructor; [done|].
  apply Forall_forall. intros y [_ Hy]%list_elem_of_filter.
  rewrite Forall_forall in Hx. auto.
Qed.

(** ** Well-formed parents *)

Definition seqs (m : list (string * id_res)) : list Z := (fun kv => seq kv.2) <$> m.

(** Every number at most the high-water mark is in exactly one place: free,
    reserved (once) or used for good. *)
Record pwf (st : pstate) : Prop := {
  pw_high : (0 <= highWater st)%Z;
  pw_nodup : NoDup (free st ++ seqs (reserved st));
  pw_range : Forall (fun n => 1 <= n <= highWater st)%Z (free st ++ seqs (reserved st));
  pw_sorted : Sorted Z.le (free st);
  pw_keys : jwf (reserved st);
  pw_sprint : forall token r, (token, r) ∈ reserved st -> sprintId r ≠ JUndef
}.

Definition awf (ps : parents) : Prop :=
  jwf ps /\ forall p st, jget p ps = Some st -> pwf st.

(** Handed out for good: neither free nor reserved, and below the mark. *)
Definition used (n : Z) (st : pstate) : Prop :=
  (1 <= n <= highWater st)%Z /\ n ∉ free st /\ n ∉ seqs (reserved st).

(** A number an allocation may hand out next. *)
Definition mintable (n : Z) (st : pstate) : Prop :=
  n ∈ free st \/ (highWater st < n)%Z.

Definition used_in (p : string) (n : Z) (ps : parents) : Prop :=
  exists st, jget p ps = Some st /\ used n st.

(** [ps2] keeps every number used in [ps1] used. *)
Definition evolves (ps1 ps2 : parents) : Prop :=
  forall p n, used_in p n ps1 -> used_in p n ps2.

#[global] Instance evolves_preorder : PreOrder evolves.
Proof. split; unfold evolves; repeat intros ?; naive_solver. Qed.

Lemma pwf_empty : pwf pstate_empty.
Proof. split; simpl; try constructor; [lia|set_solver]. Qed.

Lemma seqs_jdel token r m :
  jwf m -> jget token m = Some r -> seqs m ≡ₚ seq r :: seqs (jdel token m).
Proof. intros Hwf Hr. unfold seqs. by rewrite (jdel_perm _ _ _ Hwf Hr) at 1. Qed.

Lemma seqs_jdel_sub token m n : n ∈ seqs (jdel token m) -> n ∈ seqs m.
Proof.
  unfold seqs. rewrite !list_elem_of_fmap. intros ([k r] & -> & Hin).
  apply jdel_elem in Hin as [_ Hin]. by exists (k, r).
Qed.

(** ** Transitions of one parent *)

Section one_parent.
Context (st : pstate) (Hst : pwf st).

Lemma drop_token_seq token r :
  jget token (reserved st) = Some r ->
  seq r ∉ free st /\ seq r ∉ seqs (jdel token (reserved st)) /\ (1 <= seq r <= highWater st)%Z.
Proof.
  intros Hr. destruct Hst as [_ Hnd Hrg _ Hk _].
  pose proof (seqs_jdel _ _ _ Hk Hr) as Hp. rewrite Hp in Hnd, Hrg.
  rewrite Forall_app, Forall_cons in Hrg. destruct Hrg as (_ & ? & _).
  apply NoDup_app in Hnd as (_ & Hd & Hnd2). apply NoDup_cons in Hnd2 as [??].
  split_and!; [|done|lia|lia]. intros Hin. apply (Hd _ Hin). set_solver.
Qed.

(** [confirm]: the reservation goes, its number does not come back. *)
Lemma confirm_pwf token r :
  jget token (reserved st) = Some r ->
  let st' := {| highWater := highWater st; free := free st;
                reserved := jdel token (reserved st) |} in
  pwf st' /\ used (seq r) st' /\ forall n, used n st -> used n st'.
Proof.
  intros Hr st'. pose proof (drop_token_seq _ _ Hr) as (? & ? & ?).
  destruct Hst as [Hh Hnd Hrg Hs Hk Hsp]. pose proof (seqs_jdel _ _ _ Hk Hr) as Hp.
  split_and!.
  - split; simpl; try done; [| |by apply jdel_wf|intros ? ? [_ ?]%jdel_elem; eauto].
    + rewrite Hp in Hnd. apply NoDup_app in Hnd as (? & Hd & [_ ?]%NoDup_cons).
      apply NoDup_app. split_and!; [done| |done]. intros x Hx Hx'. apply (Hd x Hx). set_solver.
    + rewrite Hp in Hrg. rewrite Forall_app, Forall_cons in Hrg. apply Forall_app. naive_solver.
  - unfold used; simpl. done.
  - intros n (? & ? & Hn). unfold used; simpl. split; [lia|split; [done|]]. intros Hin%seqs_jdel_sub. done.
Qed.

(** [release] and reclaiming: the number goes to the pool. *)
Lemma release_pwf token r :
  jget token (reserved st) = Some r ->
  let st' := {| highWater := highWater st; free := pool (seq r) (free st);
                reserved := jdel token (reserved st) |} in
  pwf st' /\ forall n, used n st -> used n st'.
Proof.
  intros Hr st'. pose proof (drop_token_seq _ _ Hr) as (Hf & ? & ?).
  destruct Hst as [Hh Hnd Hrg Hs Hk Hsp]. pose proof (seqs_jdel _ _ _ Hk Hr) as Hp.
  assert (free st' ++ seqs (reserved st') ≡ₚ free st ++ seqs (reserved st)) as Hperm.
  { simpl. rewrite pool_perm by done. rewrite Hp. simpl. by rewrite Permutation_middle. }
  split_and!.
  - split; [done|by rewrite Hperm|by rewrite Hperm|apply pool_sorted|by apply jdel_wf|
           intros ? ? [_ ?]%jdel_elem; eauto].
  - intros n (? & ? & Hn). unfold used; simpl. split; [lia|split].
    + rewrite elem_of_pool. intros [->|?]; [|done]. apply Hn. rewrite Hp. set_solver.
    + intros Hin%seqs_jdel_sub. done.
Qed.
End one_parent.

Lemma reclaim_loop_pwf t probe es st n :
  pwf st -> NoDup es.*1 ->
  (forall token r, (token, r) ∈ es -> jget token (reserved st) = Some r) ->
  let st' := (reclaim_loop t probe es st n).1 in
  pwf st' /\ highWater st' = highWater st /\ forall k, used k st -> used k st'.
Proof.
  revert st n. induction es as [|[token r] es IH]; intros st n Hst Hnd Hes; simpl; [done|].
  apply NoDup_cons in Hnd as [Hn Hnd].
  assert (jget token (reserved st) = Some r) as Hr by (apply Hes; set_solver).
  destruct (abandoned t probe r).
  - destruct (release_pwf st Hst _ _ Hr) as [Hst' Hu].
    destruct (IH _ (n + 1)%Z Hst' Hnd) as (? & ? & ?); [|by naive_solver].
    intros token' r' Hin. simpl. rewrite jget_jdel_ne.
    + apply Hes. set_solver.
    + intros ->. apply Hn. apply list_elem_of_fmap. by exists (token', r').
  - apply IH; [done..|]. intros. apply Hes. set_solver.
Qed.

Lemma reclaim_parent_pwf t probe st :
  pwf st ->
  let st' := (reclaim_parent t probe st).1 in
  pwf st' /\ highWater st' = highWater st /\ forall n, used n st -> used n st'.
Proof.
  intros Hst. apply reclaim_loop_pwf; [done|apply Hst|].
  intros token r Hin. apply jget_elem; [apply Hst|done].
Qed.

Lemma apply_floor_pwf floor st :
  pwf st -> pwf (apply_floor floor st) /\ forall n, used n st -> used n (apply_floor floor st).
Proof.
  intros Hst. unfold apply_floor. destruct (as_int floor) as [f|]; [|done].
  destruct Hst as [Hh Hnd Hrg Hs Hk Hsp].
  assert (highWater st <= if (highWater st <? f)%Z then f else highWater st)%Z.
  { destruct (Z.ltb_spec (highWater st) f); lia. }
  split.
  - split; simpl; [lia| | | |done|done].
    + apply NoDup_app in Hnd as (? & Hd & ?). apply NoDup_app.
      split_and!; [by apply NoDup_filter| |done]. intros x [_ Hx]%list_elem_of_filter. auto.
    + apply Forall_app in Hrg as [Hf Hr]. apply Forall_app. split.
      * apply Forall_forall. intros x [_ Hx]%list_elem_of_filter.
        rewrite Forall_forall in Hf. specialize (Hf x Hx). lia.
      * eapply Forall_impl; [done|]. simpl. lia.
    + by apply Sorted_le_filter.
  - intros n (? & Hf & ?). unfold used; simpl. split; [lia|split; [|done]].
    intros [_ Hn]%list_elem_of_filter. done.
Qed.

(** ** Taking a number *)

Lemma take_seq_spec st n st' :
  pwf st -> take_seq st = (n, st') ->
  (highWater st <= highWater st')%Z /\ reserved st' = reserved st /\
  (1 <= n <= highWater st')%Z /\ n ∉ free st' /\ n ∉ seqs (reserved st) /\
  pwf st' /\ mintable n st /\ (forall m, mintable m st -> n <= m)%Z /\
  ~ used n st /\ (forall m, used m st -> used m st').
Proof.
  intros [Hh Hnd Hrg Hs Hk Hsp] Ht. unfold take_seq in Ht.
  destruct (free st) as [|x fr] eqn:Hf; simplify_eq; simpl.
  - assert (highWater st + 1 ∉ seqs (reserved st))%Z.
    { intros Hin. rewrite Forall_forall in Hrg. specialize (Hrg _ Hin). simpl in Hrg. lia. }
    split_and!; try done; try lia.
    + set_solver.
    + split; simpl; [lia|done| |constructor|done|done].
      eapply Forall_impl; [exact Hrg|]. simpl. lia.
    + right. lia.
    + intros m [Hm|Hm]; [|lia]. rewrite Hf in Hm. set_solver.
    + unfold used. lia.
    + intros m (? & ? & ?). unfold used; simpl. split; [lia|split; [set_solver|done]].
  - apply Forall_cons in Hrg as [Hx Hrg]. apply NoDup_cons in Hnd as [Hn Hnd].
    apply Sorted_StronglySorted in Hs; [|apply _].
    apply StronglySorted_inv in Hs as [Hs Hle]. rewrite Forall_forall in Hle.
    split_and!; try done; try lia; try set_solver.
    + split; simpl; try done. by apply StronglySorted_Sorted.
    + left. rewrite Hf. set_solver.
    + intros m [Hm|Hm]; [|lia]. rewrite Hf in Hm. apply elem_of_cons in Hm as [->|Hm]; [lia|auto].
    + unfold used. rewrite Hf. set_solver.
    + intros m (? & Hm & ?). unfold used; simpl. rewrite Hf in Hm.
      split; [lia|split; [set_solver|done]].
Qed.

(** What the floor leaves: the available numbers above it. *)
Lemma mintable_floor floor st m :
  mintable m (apply_floor floor st) <->
  mintable m st /\ forall f, as_int floor = Some f -> (f < m)%Z.
Proof.
  unfold apply_floor, mintable. destruct (as_int floor) as [f|]; simpl; [|naive_solver].
  rewrite list_elem_of_filter.
  assert ((if highWater st <? f then f else highWater st) = Z.max (highWater st) f)%Z as ->.
  { destruct (Z.ltb_spec (highWater st) f); lia. }
  split.
  - intros [[? ?]|Hm]; (split; [|intros ? [= <-]]); [by left|done|right; lia|lia].
  - intros [[?|?] Hf]; specialize (Hf f eq_refl); [by left|right; lia].
Qed.

(** Recording the reservation of a fresh number. *)
Lemma reserve_pwf st token r :
  pwf st -> (1 <= seq r <= highWater st)%Z -> seq r ∉ free st ->
  seq r ∉ seqs (reserved st) -> sprintId r ≠ JUndef ->
  let st' := {| highWater := highWater st; free := free st;
                reserved := jset token r (reserved st) |} in
  pwf st' /\ forall n, used n st -> n ≠ seq r -> used n st'.
Proof.
  intros [Hh Hnd Hrg Hs Hk Hsp] Hr Hf Hq Hu st'.
  assert (Hsub : forall n, n ∈ seqs (reserved st') -> n = seq r \/ n ∈ seqs (reserved st)).
  { intros n. unfold seqs; simpl. rewrite !list_elem_of_fmap. intros ([k r'] & -> & Hin).
    apply jset_elem in Hin as [[-> ->]|Hin]; [by left|]. right. by exists (k, r'). }
  split.
  - split; simpl; try done; [| |by apply jset_wf|].
    + apply NoDup_app in Hnd as (Hnf & Hd & Hns). apply NoDup_app. split_and!; [done| |].
      * intros n Hn Hn'. apply Hsub in Hn' as [->|Hn']; [done|]. by apply (Hd n).
      * unfold seqs. rewrite (jset_perm token r _ Hk). simpl. apply NoDup_cons. split.
        -- intros Hin%seqs_jdel_sub. done.
        -- destruct (jget token (reserved st)) as [r0|] eqn:Hr0.
           ++ rewrite (seqs_jdel _ _ _ Hk Hr0) in Hns. apply NoDup_cons in Hns as [_ Hns]. exact Hns.
           ++ by rewrite jdel_absent.
    + rewrite Forall_app, !Forall_forall in Hrg. apply Forall_app. rewrite !Forall_forall.
      split; [apply Hrg|]. intros n [->|Hn]%Hsub; [lia|by apply Hrg].
    + intros k r' [[-> ->]|Hin]%jset_elem; [done|eauto].
  - intros n (? & ? & ?) Hn. unfold used; simpl. split; [lia|split; [done|]].
    intros [->|?]%Hsub; done.
Qed.

(** ** Transitions of the whole map *)

Lemma awf_jset p st ps : awf ps -> pwf st -> awf (jset p st ps).
Proof.
  intros [Hk Hps] Hst. split; [by apply jset_wf|].
  intros q st'. rewrite jget_jset. case_decide; [by intros [= <-]|apply Hps].
Qed.

Lemma evolves_jset p st ps :
  (forall st0, jget p ps = Some st0 -> forall n, used n st0 -> used n st) ->
  evolves ps (jset p st ps).
Proof.
  intros Hst q n (st0 & Hq & Hu). unfold used_in. rewrite jget_jset.
  case_decide; subst; eauto.
Qed.

Lemma used_in_jset p st ps n : used n st -> used_in p n (jset p st ps).
Proof. intros. exists st. by rewrite jget_jset_eq. Qed.

Lemma jget_reclaimExpired t probe ps p :
  jget p (reclaimExpired t probe ps).1 = (fun st => (reclaim_parent t probe st).1) <$> jget p ps.
Proof. unfold reclaimExpired; simpl. apply (jget_fmap (fun st => (reclaim_parent t probe st).1)). Qed.

Lemma reclaimExpired_wf t probe ps :
  awf ps -> awf (reclaimExpired t probe ps).1 /\ evolves ps (reclaimExpired t probe ps).1.
Proof.
  intros [Hk Hps]. split; [split|].
  - by apply (jwf_fmap (fun st => (reclaim_parent t probe st).1)).
  - intros p st. rewrite jget_reclaimExpired. intros (st0 & Hst0 & ->)%fmap_Some.
    by apply reclaim_parent_pwf, (Hps p).
  - intros p n (st & Hp & Hu). exists (reclaim_parent t probe st).1.
    rewrite jget_reclaimExpired, Hp. split; [done|].
    by apply reclaim_parent_pwf; [eapply Hps|].
Qed.

Lemma find_token_Some token ps p st r :
  jwf ps -> find_token token ps = Some (p, st, r) ->
  jget p ps = Some st /\ jget token (reserved st) = Some r.
Proof.
  induction ps as [|[q st0] ps IH]; simpl; [done|]. intros [Hn Hk]%NoDup_cons Hf.
  destruct (jget token (reserved st0)) as [r0|] eqn:Hr0.
  - simplify_eq. by rewrite decide_True.
  - destruct (IH Hk Hf) as [Hp ?]. rewrite decide_False; [done|].
    intros ->. apply jget_Some_elem in Hp. apply Hn, list_elem_of_fmap. by exists (p, st).
Qed.

Lemma confirm_spec token ps ps' p n :
  awf ps -> confirm token ps = Some (ps', (p, n)) ->
  awf ps' /\ evolves ps ps' /\ used_in p n ps'.
Proof.
  intros [Hk Hps] Hc. unfold confirm in Hc. simplify_option_eq.
  destruct H as [[p0 st] r]. simplify_eq/=.
  apply find_token_Some in Heqo as [Hp Hr]; [|done].
  destruct (confirm_pwf st (Hps _ _ Hp) _ _ Hr) as (? & ? & ?).
  split_and!; [by apply awf_jset| |by apply used_in_jset].
  apply evolves_jset. naive_solver.
Qed.

Lemma release_spec token ps ps' p n :
  awf ps -> release token ps = Some (ps', (p, n)) -> awf ps' /\ evolves ps ps'.
Proof.
  intros [Hk Hps] Hc. unfold release in Hc. simplify_option_eq.
  destruct H as [[p0 st] r]. simplify_eq/=.
  apply find_token_Some in Heqo as [Hp Hr]; [|done].
  destruct (release_pwf st (Hps _ _ Hp) _ _ Hr) as (? & ?).
  split; [by apply awf_jset|]. apply evolves_jset. naive_solver.
Qed.

(** A reservation that is not abandoned survives reclaiming. *)
Lemma reclaim_loop_keeps t probe es st n token r :
  (forall r', (token, r') ∈ es -> abandoned t probe r' = false) ->
  jget token (reserved st) = Some r ->
  jget token (reserved (reclaim_loop t probe es st n).1) = Some r.
Proof.
  revert st n. induction es as [|[token' r'] es IH]; intros st n Hes Hr; simpl; [done|].
  destruct (abandoned t probe r') eqn:Ha.
  - apply IH; [intros; apply Hes; set_solver|]. simpl. rewrite jget_jdel_ne; [done|].
    intros ->. rewrite Hes in Ha; [done|]. set_solver.
  - apply IH; [intros; apply Hes; set_solver|done].
Qed.

(** The number of an abandoned reservation ends up in the pool. *)
Lemma reclaim_loop_free_mono t probe es st n k :
  k ∈ free st -> k ∈ free (reclaim_loop t probe es st n).1.
Proof.
  revert st n. induction es as [|[token' r'] es IH]; intros st n Hk; simpl; [done|].
  case_match; apply IH; [|done]. simpl. rewrite elem_of_pool. by right.
Qed.

Lemma reclaim_loop_frees t probe es st n token r :
  (token, r) ∈ es -> abandoned t probe r = true ->
  seq r ∈ free (reclaim_loop t probe es st n).1.
Proof.
  revert st n. induction es as [|[token' r'] es IH]; intros st n Hin Ha; [set_solver|].
  cbn [reclaim_loop]. apply elem_of_cons in Hin as [Heq|Hin].
  - injection Heq as <- <-. rewrite Ha. apply reclaim_loop_free_mono. simpl.
    rewrite elem_of_pool. by left.
  - case_match; by apply IH.
Qed.

Lemma reclaim_keeps t probe ps p st token r :
  awf ps -> jget p ps = Some st -> jget token (reserved st) = Some r ->
  abandoned t probe r = false ->
  exists st', jget p (reclaimExpired t probe ps).1 = Some st' /\
              jget token (reserved st') = Some r.
Proof.
  intros [Hk Hps] Hp Hr Ha. exists (reclaim_parent t probe st).1.
  rewrite jget_reclaimExpired, Hp. split; [done|]. apply reclaim_loop_keeps; [|done].
  intros r' Hin. apply jget_elem in Hin; [|by apply (Hps p)]. by simplify_eq.
Qed.

Lemma elem_of_seqs token r m : jget token m = Some r -> seq r ∈ seqs m.
Proof.
  intros Hr%jget_Some_elem. unfold seqs. apply list_elem_of_fmap. by exists (token, r).
Qed.

(** The numbers an allocation under [p] may choose from. *)
Definition available (p : string) (floor : jsval) (ps : parents) (n : Z) : Prop :=
  mintable n (default pstate_empty (jget p ps)) /\
  forall f, as_int floor = Some f -> (f < n)%Z.

Lemma parentState_spec p ps st ps' :
  parentState p ps = (st, ps') -> awf ps ->
  st = default pstate_empty (jget p ps) /\ pwf st /\ awf ps' /\ evolves ps ps' /\
  jget p ps' = Some st.
Proof.
  intros Hp [Hk Hps]. unfold parentState in Hp. destruct (jget p ps) as [st0|] eqn:Hg; simplify_eq/=.
  - split_and!; [done|by apply (Hps p)|done|done|done].
  - split_and!; [done|apply pwf_empty|by apply awf_jset, pwf_empty| |apply jget_jset_eq].
    apply evolves_jset. by rewrite Hg.
Qed.

Record allocate_result (lease : Z) (c : clocks) (p : string) (o : alloc_opts) (ts : Z)
    (ps ps' : parents) (ts' : Z) (g : grant) : Prop := {
  ar_wf : awf ps';
  ar_evolves : evolves ps ps';
  ar_tokenSeq : ts' = (ts + 1)%Z;
  ar_available : available p (o_floor o)
      (reclaimExpired (c_reclaim c) (c_probe c) ps).1 (g_seq g);
  ar_least : forall n, available p (o_floor o)
      (reclaimExpired (c_reclaim c) (c_probe c) ps).1 n -> (g_seq g <= n)%Z;
  ar_fresh : ~ used_in p (g_seq g) ps;
  ar_pos : (1 <= g_seq g)%Z;
  ar_grant : g = {| g_childId := childIdOf p (g_seq g); g_parentId := p; g_seq := g_seq g;
                    g_token := nextToken p ts' (c_date c);
                    g_expiresAt := (c_at c + lease)%Z |};
  ar_reserved : exists st r, jget p ps' = Some st /\ jget (g_token g) (reserved st) = Some r /\
                  seq r = g_seq g /\ expiresAt r = g_expiresAt g
}.

Lemma allocate_spec lease c p o ts ps ps' ts' g :
  awf ps -> allocate lease c (JStr p) o ts ps = Ok (ps', ts', g) ->
  p ≠ "" /\ allocate_result lease c p o ts ps ps' ts' g.
Proof.
  intros Hwf Ha. unfold allocate in Ha. cbn [as_nonempty_str] in Ha.
  destruct (nonempty p) eqn:Hne; [|done]. apply nonempty_spec in Hne. split; [done|].
  destruct (check_pid (o_pid o)) as [opid|]; [|done]. cbn [mbind result_bind] in Ha.
  destruct (reclaimExpired_wf (c_reclaim c) (c_probe c) ps Hwf) as [Hwf1 He1].
  set (ps1 := (reclaimExpired (c_reclaim c) (c_probe c) ps).1) in *.
  destruct (parentState p ps1) as [st ps2] eqn:Hp.
  apply parentState_spec in Hp as (Hst & Hpwf & Hwf2 & He2 & Hg2); [|done].
  destruct (take_seq (apply_floor (o_floor o) st)) as [n st2] eqn:Ht.
  destruct (apply_floor_pwf (o_floor o) st Hpwf) as [Hpwf' Hu'].
  apply take_seq_spec in Ht as (? & Hres & ? & Hnf & Hns & Hpwf2 & Hm & Hleast & Hnu & Hu2); [|done].
  injection Ha as <- <- <-. simpl.
  destruct (reserve_pwf st2 (nextToken p (ts + 1) (c_date c))
    {| seq := n; pid := opid; sprintId := coalesce (o_sprintId o) JNull;
       reservedAt := c_at c; expiresAt := (c_at c + lease)%Z |}) as [Hpwf3 Hu3];
    [done|done|done|by rewrite Hres|simpl; by destruct (o_sprintId o)|].
  assert (He : forall m, used m st -> m ≠ n /\ used m st2).
  { intros m Hm'. split; [|by auto]. intros ->. by apply Hnu, Hu'. }
  assert (Hav : forall m, available p (o_floor o) ps1 m <-> mintable m (apply_floor (o_floor o) st)).
  { intros m. unfold available. rewrite mintable_floor, Hst. done. }
  assert (Hev : evolves ps1 (jset p {| highWater := highWater st2; free := free st2;
      reserved := jset (nextToken p (ts + 1) (c_date c)) {| seq := n; pid := opid;
        sprintId := coalesce (o_sprintId o) JNull; reservedAt := c_at c;
        expiresAt := (c_at c + lease)%Z |} (reserved st2) |} ps2)).
  { etransitivity; [exact He2|]. apply evolves_jset. rewrite Hg2. intros st0 [= <-] m Hm'.
    destruct (He m Hm'). by apply Hu3. }
  split; simpl; try done.
  - by apply awf_jset.
  - by etransitivity.
  - by apply Hav.
  - intros m Hm'%Hav. auto.
  - intros Hu. apply He1 in Hu as (st0 & Hst0 & Hu). rewrite Hst0 in Hst. simpl in Hst. subst st0.
    by destruct (He n Hu).
  - lia.
  - eexists _, _. split; [apply jget_jset_eq|]. split; [apply jget_jset_eq|done].
Qed.
