(* ===== verification/IdAllocatorSystem.v ===== *)
(** * The child-id allocator across writes, crashes and restarts *)

From S2P Require Import Prelude JsMap JsVal Text AtomicFile IdAllocator IdAllocatorProps.
Local Open Scope string_scope.
Local Open Scope list_scope.

(** ** Reading back what was written *)

Lemma res_of_json_json r : sprintId r ≠ JUndef -> res_of_json (res_json r) = Some r.
Proof. intros Hs. destruct r as [n [p|] s ra ea]; destruct s; done. Qed.

Lemma omap_as_int (l : list Z) : omap as_int (jint <$> l) = l.
Proof. induction l as [|z l IH]; [done|]. csimpl. by rewrite IH. Qed.

Lemma pstate_of_json_json st : pwf st -> pstate_of_json (pstate_json st) = Some st.
Proof.
  intros [Hh Hnd Hrg Hs Hk Hsp]. unfold pstate_of_json.
  change (nullish (pstate_json st)) with false.
  change (prop "highWater" (pstate_json st)) with (jint (highWater st)).
  change (prop "free" (pstate_json st)) with (JArr (jint <$> sortZ (free st))).
  change (prop "reserved" (pstate_json st))
    with (JObj ((fun kv : string * id_res => (kv.1, res_json kv.2)) <$> reserved st)).
  cbn [coalesce nullish entries_of].
  rewrite omap_as_int, !sortZ_id by (rewrite ?sortZ_id; done).
  rewrite (mapM_fmap_Forall_Some _ (fun kv : string * id_res => (kv.1, res_json kv.2))).
  - cbn -[jmap_of]. rewrite jmap_of_id by done. by destruct st.
  - apply Forall_forall. intros [k r] Hin. cbn -[res_of_json res_json].
    by rewrite res_of_json_json by eauto.
Qed.

Lemma parents_of_json_json ps :
  awf ps -> parents_of_json (prop "parents" (currentDocument ps)) = Some ps.
Proof.
  intros [Hk Hps]. unfold parents_of_json.
  change (prop "parents" (currentDocument ps))
    with (JObj ((fun kv : string * pstate => (kv.1, pstate_json kv.2)) <$> ps)).
  cbn [entries_of].
  rewrite (mapM_fmap_Forall_Some _ (fun kv : string * pstate => (kv.1, pstate_json kv.2))).
  - cbn -[jmap_of]. by rewrite jmap_of_id.
  - apply Forall_forall. intros [p st] Hin. cbn -[pstate_of_json pstate_json].
    rewrite pstate_of_json_json; [done|]. apply (Hps p). by apply jget_elem.
Qed.

Definition disk_is (fs : files) (ps : parents) : Prop :=
  match f_main fs with
  | None => ps = []
  | Some t => t = FJson (currentDocument ps)
  end.

Lemma load_disk fs ps : awf ps -> disk_is fs ps -> load None fs = Some (Ok ps).
Proof.
  unfold disk_is, load. intros Hwf Hd. destruct (f_main fs) as [t|]; subst; [|done].
  change (document_shape_ok (currentDocument ps)) with true. cbn [negb].
  pose proof (parents_of_json_json ps Hwf) as Hp.
  destruct (prop "parents" (currentDocument ps)) eqn:E; try done; by rewrite Hp.
Qed.

(** Goals [Forall P [x; ..; y]] whose members are assumptions. *)
Ltac forall_list :=
  repeat first [apply Forall_nil_2 | apply Forall_cons_2; [done|]].

(** ** The invariant of the system *)

(** What an acknowledgement promises of the snapshot it waits for. *)
Definition ack_holds (k : ack) (ps : parents) : Prop :=
  match k with
  | AckGrant g => exists st r, jget (g_parentId g) ps = Some st /\
      jget (g_token g) (reserved st) = Some r /\ seq r = g_seq g /\ expiresAt r = g_expiresAt g
  | AckConfirm p n => used_in p n ps
  | _ => True
  end.

(** The states the file, the queued snapshots and the memory hold, oldest
    first; each evolves from the one before. *)
Record sys_inv (s : asys) (d : parents) (q : list (parents * ack)) : Prop := {
  si_disk : disk_is (a_files s) d;
  si_chain : a_chain s = (fun e => (currentDocument e.1, e.2)) <$> q;
  si_wf : Forall awf (d :: (q.*1 ++ [a_parents s]));
  si_order : StronglySorted evolves (d :: (q.*1 ++ [a_parents s]));
  si_acks : Forall (fun e => ack_holds e.2 e.1) q;
  si_confirmed : forall p n, AckConfirm p n ∈ a_acked s -> used_in p n d
}.

Lemma sys_inv_init : sys_inv alloc_init [] [].
Proof.
  assert (awf []) by (split; [apply jwf_nil|done]).
  split; simpl; try done; [by repeat constructor| |set_solver].
  by repeat constructor.
Qed.

Lemma StronglySorted_snoc {A} (R : A -> A -> Prop) l x :
  StronglySorted R l -> Forall (fun y => R y x) l -> StronglySorted R (l ++ [x]).
Proof.
  induction 1 as [|y l Hl IH Hy]; intros Hx; simpl; [by repeat constructor|].
  apply Forall_cons in Hx as [Hyx Hx]. constructor; [by apply IH|].
  apply Forall_app. auto.
Qed.

Lemma sys_inv_mem s d q : sys_inv s d q -> awf (a_parents s).
Proof. intros [_ _ Hwf _ _ _]. apply (Forall_app awf (d :: q.*1)) in Hwf as [_ Hwf]. by inversion Hwf. Qed.

(** Everything older than the memory evolves into any successor of it. *)
Lemma sys_inv_to_mem s d q ps :
  sys_inv s d q -> evolves (a_parents s) ps ->
  Forall (fun x => evolves x ps) (d :: (q.*1 ++ [a_parents s])).
Proof.
  intros [_ _ _ Ho _ _] He.
  assert (Forall (fun x => evolves x (a_parents s)) (d :: (q.*1 ++ [a_parents s]))) as Hf.
  { revert Ho. rewrite app_comm_cons. generalize (d :: q.*1). intros l.
    induction l as [|x l IH]; simpl; intros Ho.
    - by repeat constructor.
    - apply StronglySorted_inv in Ho as [Ho Hx]. constructor; [|by apply IH].
      apply Forall_app in Hx as [_ Hx]. by inversion Hx. }
  eapply Forall_impl; [exact Hf|]. intros x Hx. simpl in *. by etransitivity.
Qed.

Lemma persist_inv k ps n s d q :
  sys_inv s d q -> awf ps -> evolves (a_parents s) ps -> ack_holds k ps ->
  sys_inv (persist k ps n s) d (q ++ [(ps, k)]).
Proof.
  intros Hinv Hwf He Hk. pose proof (sys_inv_to_mem _ _ _ _ Hinv He) as Hall.
  assert (Forall (fun x => evolves x ps) (d :: q.*1)) as Hall'.
  { by apply (Forall_app _ (d :: q.*1)) in Hall as [? _]. }
  destruct Hinv as [Hd Hc Hf Ho Ha Hcf].
  assert (Forall awf (d :: q.*1)) as Hf'.
  { by apply (Forall_app _ (d :: q.*1)) in Hf as [? _]. }
  assert (StronglySorted evolves (d :: q.*1)) as Ho'.
  { revert Ho. rewrite app_comm_cons. by apply StronglySorted_app_1_l. }
  split; simpl; try done.
  - by rewrite Hc, fmap_app.
  - rewrite fmap_app. simpl. rewrite <-app_assoc. simpl.
    apply (Forall_app _ (d :: q.*1)). split; [done|]. forall_list.
  - rewrite fmap_app. simpl. rewrite app_comm_cons.
    apply StronglySorted_snoc; [by apply (StronglySorted_snoc _ (d :: q.*1))|].
    apply (Forall_app _ (d :: q.*1)). split; [done|]. forall_list.
  - apply Forall_app. split; [done|]. forall_list.
Qed.

Lemma flush_inv ropts env s d q :
  sys_inv s d q ->
  exists d' q', sys_inv (flush ropts env s) d' q'.
Proof.
  intros [Hd Hc Hf Ho Ha Hcf]. unfold flush. destruct q as [|[ps k] q]; simpl in Hc.
  { exists d, []. rewrite Hc. split; try done. }
  rewrite Hc. destruct (write_atomic ropts env (currentDocument ps) (a_files s)) as [fs r] eqn:Hw.
  pose proof (write_atomic_main _ _ _ _ _ _ Hw) as Hm.
  simpl in Hf, Ho. apply Forall_cons in Hf as [Hfd Hf]. apply Forall_cons in Ha as [Hk Ha].
  destruct r as [u|e]; simpl.
  - exists ps, q. apply StronglySorted_inv in Ho as [Ho Hde].
    split; simpl; try done; [by unfold disk_is; rewrite Hm|].
    intros p n [Hin|Hin]%elem_of_app.
    + apply Forall_cons in Hde as [Hde _]. by apply Hde, Hcf.
    + apply list_elem_of_singleton in Hin. by subst k.
  - exists d, q. split; simpl; try done.
    + unfold disk_is in *. by rewrite Hm.
    + constructor; [done|]. by apply Forall_cons in Hf as [_ ?].
    + apply StronglySorted_inv in Ho as [Ho Hde]. apply StronglySorted_inv in Ho as [Ho _].
      constructor; [done|]. by apply Forall_cons in Hde as [_ ?].
Qed.

Lemma sweep_inv t probe s d q :
  sys_inv s d q -> exists q', sys_inv (sweep t probe s) d q'.
Proof.
  intros Hinv. pose proof (sys_inv_mem _ _ _ Hinv) as Hwf. unfold sweep.
  destruct (reclaimExpired_wf t probe _ Hwf) as [Hwf' He].
  destruct (reclaimExpired t probe (a_parents s)) as [ps n]; simpl in *.
  destruct (0 <? n)%Z.
  - exists (q ++ [(ps, AckSweep)]). by apply persist_inv.
  - exists q. pose proof (sys_inv_to_mem _ _ _ _ Hinv He) as Hall.
    apply (Forall_app _ (d :: q.*1)) in Hall as [Hall _].
    destruct Hinv as [Hd Hc Hf Ho Ha Hcf]. split; simpl; try done.
    + apply (Forall_app _ (d :: q.*1)) in Hf as [Hf _].
      apply (Forall_app _ (d :: q.*1)). split; [done|]. forall_list.
    + rewrite app_comm_cons in *. apply StronglySorted_snoc; [|done].
      by eapply StronglySorted_app_1_l.
Qed.

Lemma astep_inv lease ropts s s' d q :
  sys_inv s d q -> astep lease ropts s s' -> exists d' q', sys_inv s' d' q'.
Proof.
  intros Hinv Hs. pose proof (sys_inv_mem _ _ _ Hinv) as Hwf.
  destruct Hs as [c p o s ps n g Ha|token s ps p n Hc|token s ps p n Hr|t probe s|env s|s ps Hl].
  - destruct p as [| | | |p| |]; try done.
    apply allocate_spec in Ha as [_ [? ? ? ? ? ? ? Hg Hres]]; [|done].
    exists d, (q ++ [(ps, AckGrant g)]). apply persist_inv; try done.
    rewrite Hg in Hres |- *. exact Hres.
  - apply confirm_spec in Hc as (? & ? & ?); [|done].
    exists d, (q ++ [(ps, AckConfirm p n)]). by apply persist_inv.
  - apply release_spec in Hr as (? & ?); [|done].
    exists d, (q ++ [(ps, AckRelease p n)]). by apply persist_inv.
  - destruct (sweep_inv t probe s d q Hinv). eauto.
  - by eapply flush_inv.
  - exists d, []. destruct Hinv as [Hd Hc Hf Ho Ha Hcf].
    assert (awf d) as Hwd by (by inversion Hf).
    rewrite (load_disk _ d) in Hl by done. injection Hl as <-.
    split; simpl; try done; [by forall_list|]. constructor; [by repeat constructor|by forall_list].
Qed.

Lemma asys_reachable_inv lease ropts s :
  rtc (astep lease ropts) alloc_init s -> exists d q, sys_inv s d q.
Proof.
  intros Hr. assert (exists d q, sys_inv alloc_init d q) as Hinv.
  { exists [], []. apply sys_inv_init. }
  revert Hinv. induction Hr as [|s1 s2 s3 Hs _ IH]; [done|].
  intros (d & q & Hinv). apply IH. by eapply astep_inv.
Qed.

(** ** Child ids *)

Lemma childIdOf_inj p n p' n' : childIdOf p n = childIdOf p' n' -> p = p' /\ n = n'.
Proof.
  unfold childIdOf. simpl. intros [-> Heq]%sep_inj; [|apply decimal_no_dot..].
  split; [done|]. by apply (inj pretty) in Heq.
Qed.

(** A reservation token determines the parent, the counter value and the
    millisecond it was made in, so tokens of one process (whose counter never
    repeats) are pairwise distinct. *)
Theorem nextToken_injective p n d p' n' d' :
  nextToken p n d = nextToken p' n' d' -> p = p' /\ n = n' /\ d = d'.
Proof. apply stamp_inj. Qed.

(** ** The guarantees *)

Section guarantees.
Context (lease : Z) (ropts : RenameRetry.opts) (s : asys).
Context (Hreach : rtc (astep lease ropts) alloc_init s).

Lemma reachable_awf : awf (a_parents s).
Proof. destruct (asys_reachable_inv _ _ _ Hreach) as (d & q & Hinv). by eapply sys_inv_mem. Qed.

(** C4: Once [confirm] has returned [true] for a child id, that id is never
    handed out again, by any allocation under any parent, whatever happens in
    between: other sprints' allocations, sweeps, failed writes, crashes and
    restarts of the supervisor. *)
Theorem confirmed_id_never_reminted p n c parentId o ps ts g :
  AckConfirm p n ∈ a_acked s ->
  allocate lease c parentId o (a_tokenSeq s) (a_parents s) = Ok (ps, ts, g) ->
  g_childId g ≠ childIdOf p n.
Proof.
  intros Hack Ha. destruct (asys_reachable_inv _ _ _ Hreach) as (d & q & Hinv).
  assert (used_in p n (a_parents s)) as Hu.
  { destruct Hinv as [_ _ _ Ho _ Hc]. apply StronglySorted_inv in Ho as [_ Ho].
    apply Forall_app in Ho as [_ Ho]. apply Forall_cons in Ho as [Ho _]. by apply Ho, Hc. }
  destruct parentId as [| | | |p'| |]; try done.
  apply allocate_spec in Ha as [_ [? ? ? ? ? Hfr ? Hg _]]; [|apply reachable_awf].
  rewrite Hg. simpl. intros [<- <-]%childIdOf_inj. done.
Qed.

(** Two reservations outstanding at the same time never name the same
    child id: a child id determines the parent, the token and the reservation
    holding it. *)
Theorem outstanding_ids_distinct p1 p2 st1 st2 t1 t2 r1 r2 :
  jget p1 (a_parents s) = Some st1 -> jget t1 (reserved st1) = Some r1 ->
  jget p2 (a_parents s) = Some st2 -> jget t2 (reserved st2) = Some r2 ->
  childIdOf p1 (seq r1) = childIdOf p2 (seq r2) ->
  p1 = p2 /\ t1 = t2 /\ r1 = r2.
Proof.
  intros Hp1 Ht1 Hp2 Ht2 [<- Hseq]%childIdOf_inj. simplify_eq.
  destruct reachable_awf as [_ Hps]. destruct (Hps _ _ Hp1) as [_ Hnd _ _ Hk _].
  apply NoDup_app in Hnd as (_ & _ & Hnd). destruct (decide (t1 = t2)) as [->|Hne].
  { by simplify_eq. }
  exfalso. rewrite (seqs_jdel _ _ _ Hk Ht1) in Hnd. apply NoDup_cons in Hnd as [Hn _].
  apply Hn. rewrite Hseq. apply (elem_of_seqs t2). by rewrite jget_jdel_ne.
Qed.

(** An allocation hands out the least number available under its parent:
    the smallest reclaimed hole above the caller's floor, or the next number
    above both the floor and everything handed out before.  So an abandoned
    reservation leaves no permanent gap, and no number at or below the floor
    (which may belong to an existing bead) is handed out. *)
Theorem allocate_takes_least_available c p o ps ts g :
  allocate lease c (JStr p) o (a_tokenSeq s) (a_parents s) = Ok (ps, ts, g) ->
  let ps1 := (reclaimExpired (c_reclaim c) (c_probe c) (a_parents s)).1 in
  available p (o_floor o) ps1 (g_seq g) /\
  (forall n, available p (o_floor o) ps1 n -> (g_seq g <= n)%Z).
Proof. intros Ha. apply allocate_spec in Ha as [_ []]; [done|apply reachable_awf]. Qed.

(** A reservation whose lease has run out, or whose creator is dead, never
    blocks its number: the next allocation under that parent with no floor
    hands out a number no larger. *)
Theorem abandoned_number_is_reused c p o ps ts g st token r :
  jget p (a_parents s) = Some st -> jget token (reserved st) = Some r ->
  abandoned (c_reclaim c) (c_probe c) r = true -> as_int (o_floor o) = None ->
  allocate lease c (JStr p) o (a_tokenSeq s) (a_parents s) = Ok (ps, ts, g) ->
  (g_seq g <= seq r)%Z.
Proof.
  intros Hp Hr Hab Hfl Ha. apply allocate_spec in Ha as [_ [? ? ? ? Hleast ? ? ? ?]];
    [|apply reachable_awf].
  apply Hleast. split; [|by rewrite Hfl]. left. rewrite jget_reclaimExpired, Hp. simpl.
  destruct reachable_awf as [_ Hps]. apply (reclaim_loop_frees _ _ _ _ _ token); [|done].
  apply jget_elem; [apply (Hps _ _ Hp)|done].
Qed.

(** While a reservation is outstanding and not abandoned, no allocation
    hands out its child id again. *)
Theorem outstanding_id_not_reminted c parentId o ps ts g p st token r :
  jget p (a_parents s) = Some st -> jget token (reserved st) = Some r ->
  abandoned (c_reclaim c) (c_probe c) r = false ->
  allocate lease c parentId o (a_tokenSeq s) (a_parents s) = Ok (ps, ts, g) ->
  g_childId g ≠ childIdOf p (seq r).
Proof.
  intros Hp Hr Hab Ha. destruct parentId as [| | | |p'| |]; try done.
  apply allocate_spec in Ha as [_ [? ? ? [Hm _] ? ? ? Hg ?]]; [|apply reachable_awf].
  rewrite Hg. simpl. intros [<- Hseq]%childIdOf_inj.
  destruct (reclaimExpired_wf (c_reclaim c) (c_probe c) _ reachable_awf) as [[_ Hps] _].
  destruct (reclaim_keeps _ _ _ _ _ _ _ reachable_awf Hp Hr Hab) as (st' & Hp' & Hr').
  destruct (Hps _ _ Hp') as [_ Hnd Hrg _ _ _]. rewrite Hp' in Hm. simpl in Hm.
  apply elem_of_seqs in Hr'. rewrite <-Hseq in Hr'. destruct Hm as [Hm|Hm].
  - apply NoDup_app in Hnd as (_ & Hd & _). by apply (Hd _ Hm).
  - rewrite Forall_app, !Forall_forall in Hrg. destruct Hrg as [_ Hrg].
    specialize (Hrg _ Hr'). simpl in Hrg. lia.
Qed.

(** A grant is durable before it is returned: when the write that
    acknowledges it has succeeded, a supervisor that starts from the file has
    the same reservation (token, number and lease) outstanding. *)
Theorem returned_grant_survives_crash env doc g q :
  a_chain s = (doc, AckGrant g) :: q ->
  a_acked (flush ropts env s) = a_acked s ++ [AckGrant g] ->
  exists ps st r, load None (a_files (flush ropts env s)) = Some (Ok ps) /\
    jget (g_parentId g) ps = Some st /\ jget (g_token g) (reserved st) = Some r /\
    seq r = g_seq g /\ expiresAt r = g_expiresAt g.
Proof.
  intros Hc Hok. destruct (asys_reachable_inv _ _ _ Hreach) as (d & qs & Hinv).
  destruct Hinv as [Hd Hch Hf Ho Ha Hcf]. destruct qs as [|[ps k] qs]; simpl in *; [congruence|].
  rewrite Hc in Hch. injection Hch as -> <- ->. simpl in *.
  apply Forall_cons in Ha as [(st & r & ? & ? & ? & ?) _].
  apply Forall_cons in Hf as [_ Hf]. apply Forall_cons in Hf as [Hwf _].
  exists ps, st, r. split_and!; try done. apply load_disk; [done|].
  unfold flush in *. rewrite Hc in *.
  destruct (write_atomic ropts env (currentDocument ps) (a_files s)) as [fs res] eqn:Hw.
  apply write_atomic_main in Hw. destruct res; simpl in *.
  - unfold disk_is. by rewrite Hw.
  - apply (f_equal length) in Hok. rewrite length_app in Hok. simpl in Hok. lia.
Qed.

(** A restart always succeeds: the file of a reachable system, whatever
    writes failed, loads without error and satisfies the invariant. *)
Theorem restart_always_loads :
  exists ps, load None (a_files s) = Some (Ok ps) /\ awf ps.
Proof.
  destruct (asys_reachable_inv _ _ _ Hreach) as (d & q & Hinv).
  destruct Hinv as [Hd _ Hf _ _ _]. apply Forall_cons in Hf as [Hf _].
  exists d. split; [by apply load_disk|done].
Qed.
End guarantees.

(** ** Concrete runs *)

(** A call on the system; a refused call leaves it as it is. *)
Definition do_allocate (lease : Z) (c : clocks) (p : jsval) (o : alloc_opts) (s : asys) : asys :=
  match allocate lease c p o (a_tokenSeq s) (a_parents s) with
  | Ok (ps, n, g) => persist (AckGrant g) ps n s
  | Throw _ => s
  end.

Definition do_confirm (token : string) (s : asys) : asys :=
  match confirm token (a_parents s) with
  | Some (ps, (p, n)) => persist (AckConfirm p n) ps (a_tokenSeq s) s
  | None => s
  end.

Definition do_release (token : string) (s : asys) : asys :=
  match release token (a_parents s) with
  | Some (ps, (p, n)) => persist (AckRelease p n) ps (a_tokenSeq s) s
  | None => s
  end.

Section runs.
Context (lease : Z) (ropts : RenameRetry.opts).

Lemma do_allocate_reach s0 c p o s :
  rtc (astep lease ropts) s0 s -> rtc (astep lease ropts) s0 (do_allocate lease c p o s).
Proof.
  intros Hs. unfold do_allocate. destruct (allocate _ _ _ _ _ _) as [[[ps n] g]|] eqn:Ha; [|done].
  eapply rtc_r; [done|]. by econstructor.
Qed.

Lemma do_confirm_reach s0 token s :
  rtc (astep lease ropts) s0 s -> rtc (astep lease ropts) s0 (do_confirm token s).
Proof.
  intros Hs. unfold do_confirm. destruct (confirm _ _) as [[ps [p n]]|] eqn:Hc; [|done].
  eapply rtc_r; [done|]. by econstructor.
Qed.

Lemma do_release_reach s0 token s :
  rtc (astep lease ropts) s0 s -> rtc (astep lease ropts) s0 (do_release token s).
Proof.
  intros Hs. unfold do_release. destruct (release _ _) as [[ps [p n]]|] eqn:Hc; [|done].
  eapply rtc_r; [done|]. by eapply as_release.
Qed.

Lemma flush_reach s0 env s :
  rtc (astep lease ropts) s0 s -> rtc (astep lease ropts) s0 (flush ropts env s).
Proof. intros Hs. eapply rtc_r; [done|]. constructor. Qed.
End runs.

Definition demo_clocks (t : Z) : clocks :=
  {| c_reclaim := t; c_at := t; c_date := Z.to_N t; c_probe := fun _ => true |}.
Definition demo_opts (floor : jsval) : alloc_opts :=
  {| o_pid := jint 77; o_sprintId := JStr "s1"; o_floor := floor |}.

(** Two ids under one parent; the first is confirmed and written. *)
Definition demo1 : asys :=
  flush RenameRetry.no_opts io_ok (do_allocate 60000 (demo_clocks 1000) (JStr "epic") (demo_opts (jint 2)) alloc_init).
Definition demo2 : asys :=
  flush RenameRetry.no_opts io_ok (do_confirm "epic#1#rs"
    (flush RenameRetry.no_opts io_ok (do_allocate 60000 (demo_clocks 2000) (JStr "epic") (demo_opts JUndef) demo1))).

Lemma demo1_reach : rtc (astep 60000 RenameRetry.no_opts) alloc_init demo1.
Proof. apply flush_reach, do_allocate_reach, rtc_refl. Qed.

Lemma demo2_reach : rtc (astep 60000 RenameRetry.no_opts) alloc_init demo2.
Proof. apply flush_reach, do_confirm_reach, flush_reach, do_allocate_reach, demo1_reach. Qed.

Definition demo_call (s : asys) (t : Z) : parents * Z * grant :=
  match allocate 60000 (demo_clocks t) (JStr "epic") (demo_opts JUndef)
          (a_tokenSeq s) (a_parents s) with
  | Ok x => x
  | Throw _ => ([], 0%Z, {| g_childId := ""; g_parentId := ""; g_seq := 0; g_token := "";
                             g_expiresAt := 0 |})
  end.

Lemma nextToken_injective_witness :
  "epic#3#rs" = nextToken "epic" 3 1000 /\ "epic" = "epic".
Proof.
  split; [reflexivity|]. exact (proj1 (nextToken_injective "epic" 3 1000 "epic" 3 1000 eq_refl)).
Defined.

Lemma confirmed_id_never_reminted_witness :
  g_childId (demo_call demo2 90000).2 = "epic.4" /\
  g_childId (demo_call demo2 90000).2 ≠ childIdOf "epic" 3.
Proof.
  split; [vm_compute; reflexivity|].
  apply (confirmed_id_never_reminted 60000 RenameRetry.no_opts demo2 demo2_reach "epic" 3
    (demo_clocks 90000) (JStr "epic") (demo_opts JUndef)
    (demo_call demo2 90000).1.1 (demo_call demo2 90000).1.2).
  - vm_compute. set_solver.
  - vm_compute. reflexivity.
Defined.

Definition demo_res (n t : Z) : id_res :=
  {| seq := n; pid := Some 77%Z; sprintId := JStr "s1"; reservedAt := t;
     expiresAt := (t + 60000)%Z |}.
Definition demo_pst : pstate :=
  {| highWater := 4; free := []; reserved := [("epic#2#1jk", demo_res 4 2000)] |}.

Lemma outstanding_ids_distinct_witness :
  "epic" = "epic" /\ "epic#2#1jk" = "epic#2#1jk" /\ demo_res 4 2000 = demo_res 4 2000.
Proof.
  apply (outstanding_ids_distinct 60000 RenameRetry.no_opts demo2 demo2_reach
    "epic" "epic" demo_pst demo_pst "epic#2#1jk" "epic#2#1jk"); vm_compute; reflexivity.
Defined.

Lemma outstanding_id_not_reminted_witness :
  g_childId (demo_call demo2 3000).2 = "epic.5" /\
  g_childId (demo_call demo2 3000).2 ≠ childIdOf "epic" 4.
Proof.
  split; [vm_compute; reflexivity|].
  apply (outstanding_id_not_reminted 60000 RenameRetry.no_opts demo2 demo2_reach
    (demo_clocks 3000) (JStr "epic") (demo_opts JUndef)
    (demo_call demo2 3000).1.1 (demo_call demo2 3000).1.2 (demo_call demo2 3000).2 "epic" demo_pst
    "epic#2#1jk" (demo_res 4 2000)); vm_compute; reflexivity.
Defined.

Lemma allocate_takes_least_available_witness :
  available "epic" JUndef (reclaimExpired 3000 (fun _ => true) (a_parents demo2)).1 5 /\
  (forall n, available "epic" JUndef
     (reclaimExpired 3000 (fun _ => true) (a_parents demo2)).1 n -> (5 <= n)%Z).
Proof.
  apply (allocate_takes_least_available 60000 RenameRetry.no_opts demo2 demo2_reach
    (demo_clocks 3000) "epic" (demo_opts JUndef)
    (demo_call demo2 3000).1.1 (demo_call demo2 3000).1.2 (demo_call demo2 3000).2).
  vm_compute. reflexivity.
Defined.

Lemma abandoned_number_is_reused_witness :
  g_childId (demo_call demo2 90000).2 = "epic.4" /\ (g_seq (demo_call demo2 90000).2 <= 4)%Z.
Proof.
  split; [vm_compute; reflexivity|].
  apply (abandoned_number_is_reused 60000 RenameRetry.no_opts demo2 demo2_reach
    (demo_clocks 90000) "epic" (demo_opts JUndef)
    (demo_call demo2 90000).1.1 (demo_call demo2 90000).1.2 (demo_call demo2 90000).2
    demo_pst "epic#2#1jk" (demo_res 4 2000)); vm_compute; reflexivity.
Defined.

(** A grant whose write is still queued. *)
Definition demo3 : asys :=
  do_allocate 60000 (demo_clocks 3000) (JStr "epic") (demo_opts JUndef) demo2.

Lemma demo3_reach : rtc (astep 60000 RenameRetry.no_opts) alloc_init demo3.
Proof. apply do_allocate_reach, demo2_reach. Qed.

Lemma returned_grant_survives_crash_witness :
  exists ps st r, load None (a_files (flush RenameRetry.no_opts io_ok demo3)) = Some (Ok ps) /\
    jget "epic" ps = Some st /\ jget "epic#3#2bc" (reserved st) = Some r /\
    seq r = 5%Z /\ expiresAt r = 63000%Z.
Proof.
  apply (returned_grant_survives_crash 60000 RenameRetry.no_opts demo3 demo3_reach io_ok
    (currentDocument (a_parents demo3)) (demo_call demo2 3000).2 []); vm_compute; reflexivity.
Defined.

Lemma restart_always_loads_witness :
  exists ps, load None (a_files demo2) = Some (Ok ps) /\ awf ps.
Proof. apply (restart_always_loads 60000 RenameRetry.no_opts demo2 demo2_reach). Defined.
