(* ===== verification/DoltMutex.v ===== *)
(** * The dolt push mutex ([src/supervisor/dolt-mutex.mjs])

    One holder with a lease, and a FIFO queue of waiting [acquire] calls.  A
    pending promise is identified by the number of the call that made it;
    settling it is an event of the log, as are the ends of a hold. *)

From S2P Require Import Prelude JsMap JsVal Text Http.
Local Open Scope string_scope.
Local Open Scope list_scope.

Definition DEFAULT_LEASE_MS : Z := 60000.

(** [`${sprintId}#${tokenSeq}#${Date.now().toString(36)}`] *)
Definition nextToken (sprintId : string) (tokenSeq : Z) (date_now : N) : string :=
  sprintId +:+ "#" +:+ pretty tokenSeq +:+ "#" +:+ to_base36 date_now.

Record hold := {
  h_sprintId : string; h_token : string; h_pid : option Z;
  h_acquiredAt : Z; h_expiresAt : Z
}.

Record waiter := {
  w_id : nat;  (** which [acquire] call's promise this entry settles *)
  w_sprintId : string; w_pid : option Z; w_enqueuedAt : Z
}.

Inductive event :=
| Granted (id : nat) (h : hold)
| Rejected (id : nat) (e : js_error)
| Released (token : string)
| Reclaimed (h : hold) (at_ : Z) (pidDead : bool).

Record mutex := {
  holder : option hold;
  waiters : list waiter;
  tokenSeq : Z;
  calls : nat;        (** [acquire] promises created so far *)
  log : list event    (** oldest first *)
}.

Definition createDoltMutex : mutex :=
  {| holder := None; waiters := []; tokenSeq := 0; calls := 0; log := [] |}.

(** The clock readings of one call. *)
Record mclock := { k_reclaim : Z; k_enqueue : Z; k_grant : Z; k_date : N }.

Section mutex_ops.
Context (leaseMs : Z) (probe : Z -> bool).

Definition grant (c : mclock) (w : waiter) (m : mutex) : mutex :=
  let h := {| h_sprintId := w_sprintId w;
              h_token := nextToken (w_sprintId w) (tokenSeq m + 1) (k_date c);
              h_pid := w_pid w; h_acquiredAt := k_grant c;
              h_expiresAt := (k_grant c + leaseMs)%Z |} in
  {| holder := Some h; waiters := waiters m; tokenSeq := (tokenSeq m + 1)%Z;
     calls := calls m; log := log m ++ [Granted (w_id w) h] |}.

Definition with_waiters (ws : list waiter) (m : mutex) : mutex :=
  {| holder := holder m; waiters := ws; tokenSeq := tokenSeq m; calls := calls m;
     log := log m |}.

(** Dropping the holder, with the event that records why. *)
Definition free_holder (e : event) (m : mutex) : mutex :=
  {| holder := None; waiters := waiters m; tokenSeq := tokenSeq m; calls := calls m;
     log := log m ++ [e] |}.

Definition pump (c : mclock) (m : mutex) : mutex :=
  match holder m with
  | Some _ => m
  | None =>
      match waiters m with
      | w :: ws => grant c w (with_waiters ws m)
      | [] => m
      end
  end.

(** [r.pid != null && !probe(r.pid)] *)
Definition pid_dead (h : hold) : bool :=
  match h_pid h with Some p => negb (probe p) | None => false end.

Definition reclaimExpired (c : mclock) (m : mutex) : mutex * bool :=
  match holder m with
  | None => (m, false)
  | Some h =>
      let leaseExpired := (h_expiresAt h <=? k_reclaim c)%Z in
      if negb leaseExpired && negb (pid_dead h) then (m, false)
      else (pump c (free_holder (Reclaimed h (k_reclaim c) (pid_dead h)) m), true)
  end.

Definition check_pid (v : jsval) : result (option Z) :=
  if nullish v then Ok None
  else match as_int v with
       | Some p => Ok (Some p)
       | None => Throw (TypeErr "acquire() pid must be an integer or null")
       end.

(** [acquire]: the number of the promise it returns, or the rejection. *)
Definition acquire (c : mclock) (sprintId : jsval) (opid : jsval) (m : mutex)
    : mutex * result nat :=
  match as_nonempty_str sprintId with
  | None => (m, Throw (TypeErr "acquire() requires a non-empty sprintId"))
  | Some s =>
      match check_pid opid with
      | Throw e => (m, Throw e)
      | Ok p =>
          let m1 := (reclaimExpired c m).1 in
          let w := {| w_id := calls m1; w_sprintId := s; w_pid := p;
                      w_enqueuedAt := k_enqueue c |} in
          let m2 := {| holder := holder m1; waiters := waiters m1 ++ [w];
                       tokenSeq := tokenSeq m1; calls := S (calls m1); log := log m1 |} in
          (pump c m2, Ok (calls m1))
      end
  end.

Definition holds_token (token : string) (m : mutex) : bool :=
  match holder m with Some h => bool_decide (h_token h = token) | None => false end.

Definition release (c : mclock) (token : string) (m : mutex) : mutex * bool :=
  if holds_token token m
  then (pump c (free_holder (Released token) m), true)
  else (m, false).

(** [renew] at time [now]: the new expiry, or [None] ([false]). *)
Definition renew (now : Z) (token : string) (m : mutex) : mutex * option Z :=
  match holder m with
  | Some h =>
      if decide (h_token h = token)
      then ({| holder := Some {| h_sprintId := h_sprintId h; h_token := h_token h;
                                 h_pid := h_pid h; h_acquiredAt := h_acquiredAt h;
                                 h_expiresAt := (now + leaseMs)%Z |};
               waiters := waiters m; tokenSeq := tokenSeq m; calls := calls m; log := log m |},
            Some (now + leaseMs)%Z)
      else (m, None)
  | None => (m, None)
  end.

(** [cancelWaiter]: the loop runs from the back of the queue, rejecting every
    waiter of the sprint. *)
Definition cancelWaiter (sprintId : string) (reason : option js_error) (m : mutex) : mutex * nat :=
  let mine := filter (fun w => w_sprintId w = sprintId) (waiters m) in
  let e := default (PlainErr ("acquire cancelled for sprint '" +:+ sprintId +:+ "'")) reason in
  ({| holder := holder m; waiters := filter (fun w => w_sprintId w ≠ sprintId) (waiters m);
      tokenSeq := tokenSeq m; calls := calls m;
      log := log m ++ ((fun w => Rejected (w_id w) e) <$> reverse mine) |},
   length mine).

(** [stop]: every queued promise is rejected, front first. *)
Definition stop (m : mutex) : mutex :=
  {| holder := holder m; waiters := []; tokenSeq := tokenSeq m; calls := calls m;
     log := log m ++ ((fun w => Rejected (w_id w) (PlainErr "dolt mutex is shutting down"))
                        <$> waiters m) |}.
End mutex_ops.

Record hold_view := { v_sprintId : string; v_pid : option Z; v_acquiredAt : Z; v_expiresAt : Z }.
Record mutex_status := {
  st_held : bool; st_holder : option hold_view;
  st_waiting : list (string * option Z * Z); st_queueDepth : nat
}.

Definition status (m : mutex) : mutex_status :=
  {| st_held := bool_decide (is_Some (holder m));
     st_holder := (fun h => {| v_sprintId := h_sprintId h; v_pid := h_pid h;
                               v_acquiredAt := h_acquiredAt h;
                               v_expiresAt := h_expiresAt h |}) <$> holder m;
     st_waiting := (fun w => (w_sprintId w, w_pid w, w_enqueuedAt w)) <$> waiters m;
     st_queueDepth := length (waiters m) |}.

(** ** Routes *)

Section mutex_routes.
Context (leaseMs : Z) (probe : Z -> bool).

(** [POST .../acquire]: 400, or the long poll starts and [acquire] is called. *)
Definition route_acquire (c : mclock) (sprintId : option string) (body : jsval) (m : mutex)
    : mutex * (response + result nat) :=
  match path_param sprintId with
  | None => (m, inl (sendError 400 "missing sprintId in path"))
  | Some s =>
      let '(m', r) := acquire leaseMs probe c (JStr s) (prop "pid" (body_or_empty body)) m in
      (m', inr r)
  end.

(** The response of the long poll closes: unless it had already ended, the
    sprint's queued waiters are dropped. *)
Definition route_acquire_close (sprintId : string) (writableEnded : bool) (m : mutex) : mutex :=
  if writableEnded then m
  else (cancelWaiter sprintId (Some (PlainErr "acquire request aborted by client")) m).1.

(** The wait ended with a grant: the client gets it, or is already gone. *)
Definition route_acquire_granted (c : mclock) (h : hold) (destroyed : bool) (m : mutex)
    : mutex * option jsval :=
  if destroyed then ((release leaseMs c (h_token h) m).1, None)
  else (m, Some (JObj [("status", JStr "acquired"); ("token", JStr (h_token h));
                       ("sprintId", JStr (h_sprintId h)); ("expiresAt", jint (h_expiresAt h))])).

Definition route_release (c : mclock) (sprintId : option string) (body : jsval) (m : mutex)
    : mutex * response :=
  match path_param sprintId with
  | None => (m, sendError 400 "missing sprintId in path")
  | Some _ =>
      match body_token body with
      | None => (m, sendError 400 "release requires a token")
      | Some token =>
          let '(m', released) := release leaseMs c token m in
          (m', sendJson 200 [("released", JBool released)])
      end
  end.

Definition route_renew (now : Z) (sprintId : option string) (body : jsval) (m : mutex)
    : mutex * response :=
  match path_param sprintId with
  | None => (m, sendError 400 "missing sprintId in path")
  | Some _ =>
      match body_token body with
      | None => (m, sendError 400 "renew requires a token")
      | Some token =>
          match renew leaseMs now token m with
          | (m', Some e) => (m', sendJson 200 [("renewed", JBool true); ("expiresAt", jint e)])
          | (m', None) => (m', sendJson 200 [("renewed", JBool false)])
          end
      end
  end.
End mutex_routes.

(** ** The mutex as a system *)

Inductive mstep (leaseMs : Z) : mutex -> mutex -> Prop :=
| ms_acquire probe c sprintId pid m :
    mstep leaseMs m (acquire leaseMs probe c sprintId pid m).1
| ms_release c token m :
    mstep leaseMs m (release leaseMs c token m).1
| ms_renew now token m :
    mstep leaseMs m (renew leaseMs now token m).1
| ms_sweep probe c m :
    mstep leaseMs m (reclaimExpired leaseMs probe c m).1
| ms_cancel sprintId reason m :
    mstep leaseMs m (cancelWaiter sprintId reason m).1
| ms_stop m :
    mstep leaseMs m (stop m).
