(* ===== verification/DoltMutexProps.v ===== *)
(** * What the dolt push mutex guarantees *)

From S2P Require Import Prelude JsMap JsVal Text Http DoltMutex.
Local Open Scope string_scope.
Local Open Scope list_scope.

(** ** Reading the log *)

Definition granted_ids (l : list event) : list nat :=
  omap (fun e => match e with Granted i _ => Some i | _ => None end) l.
Definition rejected_ids (l : list event) : list nat :=
  omap (fun e => match e with Rejected i _ => Some i | _ => None end) l.
Definition granted_tokens (l : list event) : list string :=
  omap (fun e => match e with Granted _ h => Some (h_token h) | _ => None end) l.

(** The event ends the hold with this token. *)
Definition ends (token : string) (e : event) : Prop :=
  match e with
  | Released t => t = token
  | Reclaimed h _ _ => h_token h = token
  | _ => False
  end.

(** Who holds the mutex after the log, starting from [cur]; [None] when the
    log grants a held mutex or ends a hold that is not the current one. *)
Fixpoint replay (cur : option string) (l : list event) : option (option string) :=
  match l with
  | [] => Some cur
  | Granted _ h :: l' =>
      match cur with None => replay (Some (h_token h)) l' | Some _ => None end
  | Rejected _ _ :: l' => replay cur l'
  | Released t :: l' => if decide (cur = Some t) then replay None l' else None
  | Reclaimed h _ _ :: l' => if decide (cur = Some (h_token h)) then replay None l' else None
  end.

Lemma replay_app cur l1 l2 :
  replay cur (l1 ++ l2) = replay cur l1 ≫= fun c => replay c l2.
Proof.
  revert cur. induction l1 as [|[] l1 IH]; intros cur; simpl; [done|..].
  - destruct cur; [done|apply IH].
  - apply IH.
  - case_decide; [apply IH|done].
  - case_decide; [apply IH|done].
Qed.

(** A hold stays until an event ends it. *)
Lemma replay_keeps t l c :
  replay (Some t) l = Some c -> c = Some t \/ Exists (ends t) l.
Proof.
  revert c. induction l as [|[] l IH]; simpl; intros c Hr; simplify_eq; [by left|..].
  - destruct (IH _ Hr); [by left|by right; right].
  - case_decide; simplify_eq. right. by left.
  - case_decide; simplify_eq. right. by left.
Qed.

(** ** The invariant *)

(** Everything but "a free mutex has no waiters", which [pump] restores. *)
Record minv0 (m : mutex) : Prop := {
  mi_replay : replay None (log m) = Some (h_token <$> holder m);
  mi_fifo : StronglySorted lt (granted_ids (log m) ++ (w_id <$> waiters m));
  mi_settle : granted_ids (log m) ++ rejected_ids (log m) ++ (w_id <$> waiters m)
                ≡ₚ seq 0 (calls m);
  mi_tokens : NoDup (granted_tokens (log m));
  mi_stamped : forall t, t ∈ granted_tokens (log m) ->
                 exists s n d, t = nextToken s n d /\ (n <= tokenSeq m)%Z;
  mi_holder : forall h, holder m = Some h -> h_token h ∈ granted_tokens (log m);
  mi_ended : forall t, Exists (ends t) (log m) ->
               t ∈ granted_tokens (log m) /\ h_token <$> holder m ≠ Some t;
  mi_reclaimed : forall h at_ dead, Reclaimed h at_ dead ∈ log m ->
                   (h_expiresAt h <= at_)%Z \/ dead = true
}.

Definition minv (m : mutex) : Prop :=
  minv0 m /\ (holder m = None -> waiters m = []).

Lemma minv_init : minv createDoltMutex.
Proof.
  split; [|done]. split; simpl;
    [done|constructor|done|constructor|set_solver|done| |set_solver].
  intros t Ht. by apply Exists_nil in Ht.
Qed.

Section steps.
Context (leaseMs : Z).

Lemma grant_inv c w ws m :
  minv0 m -> holder m = None -> waiters m = w :: ws ->
  minv0 (grant leaseMs c w (with_waiters ws m)).
Proof.
  intros [Hr Hf Hs Ht Hst Hh He Hrc] Hn Hw. unfold grant, with_waiters.
  assert (Hfresh : nextToken (w_sprintId w) (tokenSeq m + 1) (k_date c) ∉ granted_tokens (log m)).
  { intros (s & n & d & Heq & Hle)%Hst. apply stamp_inj in Heq as (_ & <- & _). lia. }
  rewrite Hw in Hf, Hs. split; simpl; unfold granted_ids, rejected_ids, granted_tokens in *;
    rewrite ?omap_app; simpl; rewrite ?app_nil_r.
  - rewrite replay_app, Hr, Hn. done.
  - by rewrite <-app_assoc.
  - rewrite <-Hs. simpl. rewrite <-app_assoc. simpl. apply Permutation_app_head.
    apply Permutation_middle.
  - apply NoDup_app. split_and!; [done|set_solver|apply NoDup_singleton].
  - intros t [Hin|Hin]%elem_of_app.
    + destruct (Hst t Hin) as (s & n & d & -> & ?). exists s, n, d. split; [done|lia].
    + apply list_elem_of_singleton in Hin as ->. eexists _, _, _. split; [done|lia].
  - intros h [= <-]. simpl. set_solver.
  - intros t [Hex|Hex]%Exists_app; [|by apply Exists_cons in Hex as [[]|Hex]; inversion Hex].
    destruct (He t Hex) as [Hin _]. split; [set_solver|]. intros [= <-]. done.
  - intros h at_ dead [Hin|Hin]%elem_of_app; [by eapply Hrc|set_solver].
Qed.

Lemma pump_inv c m : minv0 m -> minv (pump leaseMs c m).
Proof.
  intros Hm. unfold pump, minv. destruct (holder m) as [h|] eqn:Hh.
  { by rewrite Hh. }
  destruct (waiters m) as [|w ws] eqn:Hw; [done|].
  split; [by apply grant_inv|done].
Qed.

(** Ending the current hold. *)
Lemma free_inv e h m :
  minv0 m -> holder m = Some h -> ends (h_token h) e ->
  (forall h' at_ dead, e = Reclaimed h' at_ dead -> (h_expiresAt h' <= at_)%Z \/ dead = true) ->
  minv0 (free_holder e m).
Proof.
  intros [Hr Hf Hs Ht Hst Hh He Hrc] Hhold Hend Hwhy. unfold free_holder.
  assert (Hom : forall A (f : event -> option A), (forall e', ends (h_token h) e' -> f e' = None) ->
            omap f (log m ++ [e]) = omap f (log m)).
  { intros A f Hfe. rewrite omap_app. simpl. rewrite (Hfe e Hend). apply app_nil_r. }
  split; simpl; unfold granted_ids, rejected_ids, granted_tokens in *;
    rewrite ?Hom by (by intros []); try done.
  - rewrite replay_app, Hr, Hhold. destruct e; simpl in *; try done; case_decide; congruence.
  - intros t [Hex|Hex]%Exists_app; (split; [|done]).
    + by apply He.
    + apply Exists_cons in Hex as [Hex|Hex]; [|by inversion Hex].
      assert (t = h_token h) as ->; [|by apply Hh].
      destruct e; simpl in *; congruence || done.
  - intros h' at_ dead [Hin|Hin]%elem_of_app; [by eapply Hrc|].
    apply list_elem_of_singleton in Hin. by eapply Hwhy.
Qed.

Lemma mutex_sweep_inv probe c m : minv m -> minv (reclaimExpired leaseMs probe c m).1.
Proof.
  intros Hmi. pose proof Hmi as [Hm _]. unfold reclaimExpired.
  destruct (holder m) as [h|] eqn:Hh; [|done].
  destruct (negb _ && negb _) eqn:Hc; [done|]. apply pump_inv.
  eapply free_inv; [done..| ]. intros h' at_ dead [= <- <- <-].
  apply andb_false_iff in Hc as [Hc|Hc]; apply negb_false_iff in Hc; [|by right].
  left. by apply Z.leb_le.
Qed.

Lemma seq_snoc n : seq 0 (S n) = seq 0 n ++ [n].
Proof. by rewrite seq_S. Qed.

Lemma enqueue_inv c s p m :
  minv0 m ->
  minv0 {| holder := holder m;
           waiters := waiters m ++ [{| w_id := calls m; w_sprintId := s; w_pid := p;
                                       w_enqueuedAt := k_enqueue c |}];
           tokenSeq := tokenSeq m; calls := S (calls m); log := log m |}.
Proof.
  intros [Hr Hf Hs Ht Hst Hh He Hrc]. split; simpl; try done.
  - rewrite fmap_app. simpl. rewrite app_assoc. apply StronglySorted_app_2; [|done|by repeat constructor].
    intros i j Hi Hj%list_elem_of_singleton. subst j.
    assert (i ∈ seq 0 (calls m)) as Hin; [|apply elem_of_seq in Hin; lia].
    rewrite <-Hs. set_solver.
  - rewrite fmap_app. simpl.
    change (0 :: seq 1 (calls m)) with (seq 0 (S (calls m))). rewrite seq_snoc, <-Hs. by rewrite !(assoc_L (++)).
Qed.

Lemma acquire_inv probe c sprintId opid m : minv m -> minv (acquire leaseMs probe c sprintId opid m).1.
Proof.
  intros Hm. unfold acquire. destruct (as_nonempty_str sprintId) as [s|]; [|done].
  destruct (check_pid opid) as [p|]; [|done]. simpl.
  apply pump_inv. apply enqueue_inv. by apply mutex_sweep_inv.
Qed.

Lemma release_inv c token m : minv m -> minv (release leaseMs c token m).1.
Proof.
  intros Hmi. pose proof Hmi as [Hm _]. unfold release, holds_token.
  destruct (holder m) as [h|] eqn:Hh; [|done].
  case_bool_decide; [|done]. apply pump_inv. by eapply free_inv.
Qed.

Lemma renew_inv now token m : minv m -> minv (renew leaseMs now token m).1.
Proof.
  intros Hmi. pose proof Hmi as [Hm _]. unfold renew.
  destruct (holder m) as [h|] eqn:Hh; [|done].
  case_decide; [|done]. split; [|done].
  destruct Hm as [Hr Hf Hs Ht Hst Hhd He Hrc]. rewrite Hh in *.
  split; simpl; try done. intros h' [= <-]. by apply (Hhd h).
Qed.

Lemma omap_rejected_none {A} (f : event -> option A) (e : js_error) (ws : list waiter) :
  (forall i e, f (Rejected i e) = None) ->
  omap f ((fun w => Rejected (w_id w) e) <$> ws) = [].
Proof. intros Hf. induction ws as [|w ws IH]; csimpl; [done|]. by rewrite Hf. Qed.

Lemma rejected_ids_rejects (e : js_error) (ws : list waiter) :
  rejected_ids ((fun w => Rejected (w_id w) e) <$> ws) = w_id <$> ws.
Proof. unfold rejected_ids. induction ws as [|w ws IH]; csimpl; [done|]. by rewrite IH. Qed.

(** Rejecting some of the waiters, keeping the others in order. *)
Lemma reject_inv e gone kept m :
  minv0 m -> gone ++ kept ≡ₚ waiters m -> kept `sublist_of` waiters m ->
  minv0 {| holder := holder m; waiters := kept; tokenSeq := tokenSeq m; calls := calls m;
           log := log m ++ ((fun w => Rejected (w_id w) e) <$> gone) |}.
Proof.
  intros [Hr Hf Hs Ht Hst Hh He Hrc] Hp Hsub. split; simpl.
  - rewrite replay_app, Hr. simpl. clear. generalize (h_token <$> holder m).
    induction gone as [|w gone IH]; intros cur; csimpl; [done|apply IH].
  - unfold granted_ids in *. rewrite omap_app, omap_rejected_none, app_nil_r by done.
    rewrite StronglySorted_app in Hf |- *. destruct Hf as (Hx & Hg & Hf).
    assert ((w_id <$> kept) `sublist_of` (w_id <$> waiters m)) as Hsub'.
    { by apply fmap_sublist. }
    split_and!; [|done|].
    + intros i j Hi Hj. apply Hx; [done|]. by eapply elem_of_sublist.
    + clear -Hf Hsub'. revert Hf. induction Hsub' as [|x l k Hs IH|x l k Hs IH]; intros Hf; [done|..];
        apply StronglySorted_inv in Hf as [Hf Hx]; [|by apply IH].
      constructor; [by apply IH|]. rewrite Forall_forall in Hx |- *.
      intros y Hy. apply Hx. by eapply elem_of_sublist.
  - unfold granted_ids, rejected_ids in *. rewrite !omap_app, omap_rejected_none, app_nil_r by done.
    fold (rejected_ids ((fun w => Rejected (w_id w) e) <$> gone)).
    rewrite rejected_ids_rejects, <-Hs, <-Hp, fmap_app. by rewrite !(assoc_L (++)).
  - unfold granted_tokens. by rewrite omap_app, omap_rejected_none, app_nil_r.
  - unfold granted_tokens. by rewrite omap_app, omap_rejected_none, app_nil_r.
  - unfold granted_tokens. by rewrite omap_app, omap_rejected_none, app_nil_r.
  - intros t [Hex|Hex]%Exists_app.
    + unfold granted_tokens. rewrite omap_app, omap_rejected_none, app_nil_r by done. by apply He.
    + exfalso. apply Exists_fmap, Exists_exists in Hex as (? & _ & []).
  - intros h at_ dead [Hin|Hin]%elem_of_app; [by eapply Hrc|].
    apply list_elem_of_fmap in Hin as (? & ? & ?). done.
Qed.

Lemma cancel_inv sprintId reason m : minv m -> minv (cancelWaiter sprintId reason m).1.
Proof.
  intros [Hm Hw]. split; simpl.
  - apply reject_inv; [done| |apply sublist_filter].
    rewrite reverse_Permutation. by rewrite filter_app_complement.
  - intros Hn. by rewrite (Hw Hn).
Qed.

Lemma stop_inv m : minv m -> minv (stop m).
Proof.
  intros [Hm Hw]. split; [|done].
  apply (reject_inv _ (waiters m) []); [done|by rewrite app_nil_r|apply sublist_nil_l].
Qed.
End steps.

Lemma mstep_inv leaseMs m m' : mstep leaseMs m m' -> minv m -> minv m'.
Proof.
  intros []; [apply acquire_inv|apply release_inv|apply renew_inv|apply mutex_sweep_inv|
              apply cancel_inv|apply stop_inv].
Qed.

Lemma reachable_minv leaseMs m : rtc (mstep leaseMs) createDoltMutex m -> minv m.
Proof.
  intros Hr. assert (minv createDoltMutex) as Hi by apply minv_init. revert Hi.
  induction Hr as [|m1 m2 m3 Hs _ IH]; [done|]. intros Hi. apply IH. by eapply mstep_inv.
Qed.

(** ** The guarantees *)

Section guarantees.
Context (leaseMs : Z) (m : mutex).

(** The states a mutex gets into. *)
Definition reachable : Prop := rtc (mstep leaseMs) createDoltMutex m.

(** C3: Mutual exclusion.  Between two grants of the mutex the earlier hold
    was ended: its own token was released, or it was reclaimed, and then only
    because its lease had run out at that moment or its process was dead. *)
Theorem grants_never_overlap (Hreach : reachable) l1 i h l2 j h' l3 :
  log m = l1 ++ Granted i h :: l2 ++ Granted j h' :: l3 ->
  Released (h_token h) ∈ l2 \/
  exists hr at_ dead, Reclaimed hr at_ dead ∈ l2 /\ h_token hr = h_token h /\
    ((h_expiresAt hr <= at_)%Z \/ dead = true).
Proof.
  intros Hlog. destruct (reachable_minv _ _ Hreach) as [[Hr _ _ _ _ _ _ Hwhy] _].
  rewrite Hlog in Hr. rewrite replay_app in Hr.
  destruct (replay None l1) as [c1|]; [|done]. cbn in Hr.
  destruct c1 as [|]; [done|]. rewrite replay_app in Hr.
  destruct (replay (Some (h_token h)) l2) as [c2|] eqn:Hc2; [|done]. cbn in Hr.
  destruct c2 as [|]; [done|]. apply replay_keeps in Hc2 as [|Hex]; [done|].
  apply Exists_exists in Hex as (e & Hin & He). destruct e; simpl in He; try done; subst.
  - by left.
  - right. exists h0, at_, pidDead. split_and!; [done|done|]. apply (Hwhy h0 at_ pidDead).
    rewrite Hlog. set_solver.
Qed.

(** First come, first served.  The acquire calls granted so far, followed
    by the calls still queued in queue order, are in the order the calls were
    made: no waiter is overtaken. *)
Theorem grants_in_arrival_order (Hreach : reachable) :
  StronglySorted lt (granted_ids (log m) ++ (w_id <$> waiters m)).
Proof. by destruct (reachable_minv _ _ Hreach) as [[] _]. Qed.

(** Every acquire call is settled at most once and never lost: each of the
    calls made is granted once, rejected once, or still queued. *)
Theorem acquire_settles_once (Hreach : reachable) :
  granted_ids (log m) ++ rejected_ids (log m) ++ (w_id <$> waiters m) ≡ₚ seq 0 (calls m).
Proof. by destruct (reachable_minv _ _ Hreach) as [[] _]. Qed.

(** A free mutex has no waiters: whichever operation frees it grants the
    front waiter in the same step, so no wake-up is lost. *)
Theorem no_lost_wakeup (Hreach : reachable) : holder m = None -> waiters m = [].
Proof. by destruct (reachable_minv _ _ Hreach) as [_ Hw]. Qed.

(** A late release or renewal is harmless: once a hold has ended, by
    release or by reclaim, its token changes nothing, whoever holds the mutex
    now. *)
Theorem ended_token_is_void (Hreach : reachable) token c now :
  Exists (ends token) (log m) ->
  release leaseMs c token m = (m, false) /\ renew leaseMs now token m = (m, None).
Proof.
  intros Hex. destruct (reachable_minv _ _ Hreach) as [[_ _ _ _ _ _ He _] _].
  destruct (He _ Hex) as [_ Hne]. unfold release, renew, holds_token.
  destruct (holder m) as [h|]; [|done]. simpl in Hne.
  rewrite bool_decide_eq_false_2, decide_False by congruence. done.
Qed.
End guarantees.

(** *** Liveness: a queue behind crashed holders drains *)

Section drain.
Context (leaseMs : Z) (probe : Z -> bool).

Fixpoint sweeps (m : mutex) (cs : list mclock) : mutex :=
  match cs with [] => m | c :: cs' => sweeps (reclaimExpired leaseMs probe c m).1 cs' end.

(** Each sweep comes when the lease of the holder of that moment is over. *)
Fixpoint due (m : mutex) (cs : list mclock) : Prop :=
  match cs with
  | [] => True
  | c :: cs' => (forall h, holder m = Some h -> (h_expiresAt h <= k_reclaim c)%Z) /\
                due (reclaimExpired leaseMs probe c m).1 cs'
  end.

Lemma due_sweep c w ws h m :
  holder m = Some h -> (h_expiresAt h <= k_reclaim c)%Z -> waiters m = w :: ws ->
  exists h', log (reclaimExpired leaseMs probe c m).1
               = (log m ++ [Reclaimed h (k_reclaim c) (pid_dead probe h)]) ++ [Granted (w_id w) h'] /\
             holder (reclaimExpired leaseMs probe c m).1 = Some h' /\
             waiters (reclaimExpired leaseMs probe c m).1 = ws.
Proof.
  intros Hh Hle%Z.leb_le Hw. unfold reclaimExpired. rewrite Hh, Hle. simpl.
  unfold pump, free_holder, grant, with_waiters. simpl. rewrite Hw. simpl. eauto.
Qed.

(** C38: Crashed holders never wedge the mutex: the waiter at position [k]
    holds a grant after [k + 1] sweeps that each come after the lease of the
    holder of that moment, even if no holder ever releases. *)
Theorem queue_drains m k w cs :
  rtc (mstep leaseMs) createDoltMutex m ->
  waiters m !! k = Some w -> length cs = S k -> due m cs ->
  exists h, Granted (w_id w) h ∈ log (sweeps m cs).
Proof.
  revert m cs. induction k as [|k IH]; intros m [|c cs] Hreach Hw Hlen Hdue; try done;
    destruct (holder m) as [h|] eqn:Hh;
    try (by destruct (reachable_minv _ _ Hreach) as [_ Hnw]; rewrite (Hnw Hh) in Hw).
  all: destruct (waiters m) as [|w0 ws] eqn:Hws; [done|]; destruct Hdue as [Hd Hdue];
    destruct (due_sweep c w0 ws h m Hh (Hd h Hh) Hws) as (h' & Hl & Hh' & Hw').
  - destruct cs; [|done]. simpl in Hw. simplify_eq. exists h'. simpl. rewrite Hl. set_solver.
  - simpl. apply IH; [eapply rtc_r; [done|constructor]|by rewrite Hw'|simpl in Hlen; lia|done].
Qed.
End drain.

(** ** Concrete runs *)

Definition demo_clock (t : Z) : mclock :=
  {| k_reclaim := t; k_enqueue := t; k_grant := t; k_date := Z.to_N t |}.
Definition alive (p : Z) : bool := true.

(** [s1] holds the mutex; two requests of [s2] and one of [s3] wait. *)
Definition demo_ask (s : string) (t : Z) (m : mutex) : mutex :=
  (acquire 60000 alive (demo_clock t) (JStr s) (jint 7) m).1.
Definition demo_m : mutex :=
  demo_ask "s3" 1003 (demo_ask "s2" 1002 (demo_ask "s2" 1001 (demo_ask "s1" 1000 createDoltMutex))).

Lemma demo_m_reach : rtc (mstep 60000) createDoltMutex demo_m.
Proof. do 4 (eapply rtc_r; [|apply ms_acquire]). apply rtc_refl. Qed.

(** After [s1] releases, [s2]'s first request holds the mutex. *)
Definition demo_m2 : mutex := (release 60000 (demo_clock 2000) "s1#1#rs" demo_m).1.

Lemma demo_m2_reach : rtc (mstep 60000) createDoltMutex demo_m2.
Proof. eapply rtc_r; [apply demo_m_reach|apply ms_release]. Qed.

Definition hold_of (s : string) (t : Z) (token : string) : hold :=
  {| h_sprintId := s; h_token := token; h_pid := Some 7%Z; h_acquiredAt := t;
     h_expiresAt := (t + 60000)%Z |}.

Lemma grants_never_overlap_witness :
  Released "s1#1#rs" ∈ [Released "s1#1#rs"] \/
  exists hr at_ dead, Reclaimed hr at_ dead ∈ [Released "s1#1#rs"] /\ h_token hr = "s1#1#rs" /\
    ((h_expiresAt hr <= at_)%Z \/ dead = true).
Proof.
  apply (grants_never_overlap 60000 demo_m2 demo_m2_reach []
    0 (hold_of "s1" 1000 "s1#1#rs") [Released "s1#1#rs"] 1 (hold_of "s2" 2000 "s2#2#1jk") []).
  vm_compute. reflexivity.
Defined.

Lemma grants_in_arrival_order_witness :
  StronglySorted lt (granted_ids (log demo_m2) ++ (w_id <$> waiters demo_m2)).
Proof. apply (grants_in_arrival_order 60000 demo_m2 demo_m2_reach). Defined.

Lemma acquire_settles_once_witness :
  granted_ids (log demo_m2) ++ rejected_ids (log demo_m2) ++ (w_id <$> waiters demo_m2)
    ≡ₚ seq 0 (calls demo_m2).
Proof. apply (acquire_settles_once 60000 demo_m2 demo_m2_reach). Defined.

Definition demo_free : mutex := (release 60000 (demo_clock 2000) "s1#1#rs"
  (demo_ask "s1" 1000 createDoltMutex)).1.

Lemma demo_free_reach : rtc (mstep 60000) createDoltMutex demo_free.
Proof.
  eapply rtc_r; [|apply ms_release]. eapply rtc_r; [|apply ms_acquire]. apply rtc_refl.
Qed.

Lemma no_lost_wakeup_witness : waiters demo_free = [].
Proof. apply (no_lost_wakeup 60000 demo_free demo_free_reach). vm_compute. reflexivity. Defined.

Lemma ended_token_is_void_witness :
  release 60000 (demo_clock 3000) "s1#1#rs" demo_m2 = (demo_m2, false) /\
  renew 60000 3000 "s1#1#rs" demo_m2 = (demo_m2, None).
Proof.
  apply (ended_token_is_void 60000 demo_m2 demo_m2_reach "s1#1#rs" (demo_clock 3000) 3000).
  vm_compute. right. left. reflexivity.
Defined.

Lemma queue_drains_witness :
  exists h, Granted 2 h ∈
    log (sweeps 60000 alive demo_m [demo_clock 61000; demo_clock 121000]).
Proof.
  apply (queue_drains 60000 alive demo_m 1
    {| w_id := 2; w_sprintId := "s2"; w_pid := Some 7%Z; w_enqueuedAt := 1002 |}).
  - apply demo_m_reach.
  - vm_compute. reflexivity.
  - reflexivity.
  - vm_compute. split_and!; try done; intros h [= <-]; done.
Defined.

(** A client abort drops too much: when the long poll of one request of a
    sprint is aborted, the route rejects every queued request of that sprint,
    so a second request still being waited for is failed as well (and the
    queued request of another sprint is kept). *)
Theorem client_abort_drops_every_request :
  rtc (mstep 60000) createDoltMutex (route_acquire_close "s2" false demo_m) /\
  (w_id <$> waiters demo_m) = [1; 2; 3] /\
  (w_id <$> waiters (route_acquire_close "s2" false demo_m)) = [3] /\
  rejected_ids (log (route_acquire_close "s2" false demo_m)) = [2; 1].
Proof.
  split_and!; [|vm_compute; reflexivity..].
  eapply rtc_r; [apply demo_m_reach|apply ms_cancel].
Qed.
