(* ===== verification/History.v ===== *)
(** * The sprint history log ([src/supervisor/history.mjs])

    An append-only list of terminal events, persisted like the ledger: the
    in-memory list is replaced only after the file was.  [record] computes the
    stored event when it is called and appends it when its turn on [txChain]
    comes; nothing else is captured, so running one call after the other is
    the code's behaviour. *)

From S2P Require Import Prelude JsMap JsVal AtomicFile.
Local Open Scope string_scope.
Local Open Scope list_scope.

Definition HISTORY_VERSION : Z := 1.

(** ** Event kinds *)

Definition ABORTED_BY_RESTART : string := "aborted-by-restart".
Definition FORCE_RELEASED : string := "force-released".
Definition CHILD_EXITED : string := "child-exited".
Definition FINISHED : string := "finished".
Definition AUTO_RELEASED : string := "auto-released".
Definition LAUNCH_FAILED : string := "launch-failed".

Definition HISTORY_EVENTS : list string :=
  [ABORTED_BY_RESTART; FORCE_RELEASED; CHILD_EXITED; FINISHED; AUTO_RELEASED; LAUNCH_FAILED].

Definition TERMINAL_DETAIL_EVENTS : list string := [FINISHED; LAUNCH_FAILED].
Definition DETERMINISTIC_TERMINAL_REASONS : list string := ["BEADS_SYNC_CONFLICT"].

(** A stored event.  The free-form fields come from callers and from HTTP
    bodies and keep whatever JSON value they had. *)
Record hevent := {
  e_sprintId : string; e_event : string; e_reason : jsval; e_by : jsval;
  e_members : list string; e_issueRoots : list string; e_at : string;
  e_exitCode : jsval; e_signal : jsval; e_logPath : jsval;
  e_terminalReason : jsval; e_verdict : jsval
}.

(** What a caller passes to [record]; an absent field is [JUndef] or [None]. *)
Record hentry := {
  i_sprintId : jsval; i_event : jsval; i_reason : jsval; i_by : jsval;
  i_members : option (list string); i_issueRoots : option (list string); i_at : jsval;
  i_exitCode : jsval; i_signal : jsval; i_logPath : jsval;
  i_terminalReason : jsval; i_verdict : jsval
}.

Definition no_entry : hentry :=
  {| i_sprintId := JUndef; i_event := JUndef; i_reason := JUndef; i_by := JUndef;
     i_members := None; i_issueRoots := None; i_at := JUndef; i_exitCode := JUndef;
     i_signal := JUndef; i_logPath := JUndef; i_terminalReason := JUndef; i_verdict := JUndef |}.

(** [v === undefined ? null : v] *)
Definition undef_null (v : jsval) : jsval := match v with JUndef => JNull | _ => v end.

(** [cloneEvent] of a stored event. *)
Definition cloneEvent (e : hevent) : hevent :=
  {| e_sprintId := e_sprintId e; e_event := e_event e; e_reason := e_reason e;
     e_by := coalesce (e_by e) JNull; e_members := e_members e;
     e_issueRoots := e_issueRoots e; e_at := e_at e;
     e_exitCode := undef_null (e_exitCode e); e_signal := undef_null (e_signal e);
     e_logPath := undef_null (e_logPath e);
     e_terminalReason := undef_null (e_terminalReason e); e_verdict := undef_null (e_verdict e) |}.

(** The event [record] stores for an entry: the two checks, then [cloneEvent]
    of the object it builds. *)
Definition stored_event (now : string) (i : hentry) : result hevent :=
  match as_nonempty_str (i_sprintId i) with
  | None => Throw (TypeErr "history.record() requires a non-empty sprintId")
  | Some s =>
      match as_nonempty_str (i_event i) with
      | None => Throw (TypeErr "history.record() requires a non-empty event name")
      | Some ev =>
          Ok (cloneEvent
            {| e_sprintId := s; e_event := ev; e_reason := coalesce (i_reason i) JNull;
               e_by := coalesce (i_by i) JNull; e_members := default [] (i_members i);
               e_issueRoots := default [] (i_issueRoots i);
               e_at := match as_str (i_at i) with Some t => t | None => now end;
               e_exitCode := i_exitCode i; e_signal := i_signal i; e_logPath := i_logPath i;
               e_terminalReason := i_terminalReason i; e_verdict := i_verdict i |})
      end
  end.

(** ** State and persistence *)

Record history := { events : list hevent; h_loaded : bool; h_files : files }.

Definition createHistory (fs : files) : history :=
  {| events := []; h_loaded := false; h_files := fs |}.

Definition event_json (e : hevent) : jsval :=
  JObj [("sprintId", JStr (e_sprintId e)); ("event", JStr (e_event e));
        ("reason", e_reason e); ("by", e_by e); ("members", jstrs (e_members e));
        ("issueRoots", jstrs (e_issueRoots e)); ("at", JStr (e_at e));
        ("exitCode", e_exitCode e); ("signal", e_signal e); ("logPath", e_logPath e);
        ("terminalReason", e_terminalReason e); ("verdict", e_verdict e)].

Definition history_document (l : list hevent) : jsval :=
  JObj [("version", jint HISTORY_VERSION); ("events", JArr (event_json <$> l))].

Definition emptyHistoryDocument : jsval := history_document [].

Definition persist (ropts : RenameRetry.opts) (env : io_env) (l : list hevent) (fs : files)
    : files * result unit :=
  write_atomic ropts env (history_document l) fs.

(** [cloneEvent] of a parsed event.  The loader copies [sprintId], [event] and
    [at] unchecked; [None] is an event whose fields are not the strings and
    string lists [persist] writes, on which this model says nothing. *)
Definition strings_of (v : jsval) : option (list string) :=
  match coalesce v (JArr []) with JArr l => mapM as_str l | _ => None end.

Definition event_of_json (v : jsval) : option hevent :=
  s ← as_str (prop "sprintId" v);
  ev ← as_str (prop "event" v);
  ms ← strings_of (prop "members" v);
  rs ← strings_of (prop "issueRoots" v);
  at_ ← as_str (prop "at" v);
  Some (cloneEvent
    {| e_sprintId := s; e_event := ev; e_reason := prop "reason" v; e_by := prop "by" v;
       e_members := ms; e_issueRoots := rs; e_at := at_;
       e_exitCode := prop "exitCode" v; e_signal := prop "signal" v;
       e_logPath := prop "logPath" v; e_terminalReason := prop "terminalReason" v;
       e_verdict := prop "verdict" v |}).

Definition history_shape_ok (doc : jsval) : bool :=
  truthy doc && typeof_object doc
  && bool_decide (as_int (prop "version" doc) = Some HISTORY_VERSION)
  && match prop "events" doc with JArr _ => true | _ => false end.

Definition load_history (read_err : option js_error) (st : history)
    : option (history * result unit) :=
  match read_err, f_main (h_files st) with
  | Some e, _ => Some (st, Throw e)
  | None, None => Some ({| events := []; h_loaded := true; h_files := h_files st |}, Ok tt)
  | None, Some (FGarbage _) => Some (st, Throw (PlainErr "history file is not valid JSON"))
  | None, Some (FJson doc) =>
      if negb (history_shape_ok doc)
      then Some (st, Throw (PlainErr "history file has an unexpected shape or version"))
      else match prop "events" doc with
           | JArr l =>
               es ← mapM event_of_json l;
               Some ({| events := es; h_loaded := true; h_files := h_files st |}, Ok tt)
           | _ => Some (st, Ok tt)
           end
  end.

(** [record] *)
Definition record (ropts : RenameRetry.opts) (env : io_env) (now : string) (i : hentry)
    (st : history) : history * result hevent :=
  match stored_event now i with
  | Throw e => (st, Throw e)
  | Ok stored =>
      let next := events st ++ [stored] in
      let '(fs, r) := persist ropts env next (h_files st) in
      match r with
      | Throw e => ({| events := events st; h_loaded := h_loaded st; h_files := fs |}, Throw e)
      | Ok _ => ({| events := next; h_loaded := h_loaded st; h_files := fs |},
                 Ok (cloneEvent stored))
      end
  end.

(** ** Queries *)

Definition history_list (st : history) : list hevent := cloneEvent <$> events st.

Definition forSprint (sprintId : string) (st : history) : list hevent :=
  cloneEvent <$> filter (fun e => e_sprintId e = sprintId) (events st).

(** [for (let i = l.length - 1; i >= 0; i--) if (p(l[i])) ...]: the last match. *)
Fixpoint find_last {A} (p : A -> bool) (l : list A) : option A :=
  match l with
  | [] => None
  | x :: l' => match find_last p l' with
               | Some y => Some y
               | None => if p x then Some x else None
               end
  end.

Definition latestFor (sprintId : string) (st : history) : option hevent :=
  cloneEvent <$> find_last (fun e => bool_decide (e_sprintId e = sprintId)) (events st).

Record terminal_record := {
  t_sprintId : string; t_event : string; t_reason : jsval;
  t_terminalReason : jsval; t_verdict : jsval; t_at : string
}.

(** The inner loop over [TERMINAL_DETAIL_EVENTS]. *)
Fixpoint find_detail (l : list hevent) (sprintId : string) (kinds : list string)
    : option hevent :=
  match kinds with
  | [] => None
  | k :: kinds' =>
      match find_last (fun e => bool_decide (e_sprintId e = sprintId)
                                && bool_decide (e_event e = k)) l with
      | Some e => Some e
      | None => find_detail l sprintId kinds'
      end
  end.

Definition latestForIssueRoot (issue : string) (st : history) : option terminal_record :=
  if negb (nonempty issue) then None else
  anchor ← find_last (fun e => bool_decide (issue ∈ e_issueRoots e)) (events st);
  let detail := default anchor (find_detail (events st) (e_sprintId anchor) TERMINAL_DETAIL_EVENTS) in
  Some {| t_sprintId := e_sprintId anchor; t_event := e_event detail;
          t_reason := coalesce (e_reason detail) JNull;
          t_terminalReason := coalesce (e_terminalReason detail) JNull;
          t_verdict := coalesce (e_verdict detail) JNull; t_at := e_at anchor |}.

Definition isDeterministicTerminalReason (r : option terminal_record) : bool :=
  match r with
  | None => false
  | Some t =>
      if decide (t_event t = LAUNCH_FAILED) then true
      else match as_str (t_terminalReason t) with
           | Some s => bool_decide (s ∈ DETERMINISTIC_TERMINAL_REASONS)
           | None => false
           end
  end.

(** ** The log is exact and append-only *)

(** Events as [record] stores them: nothing undefined. *)
Definition event_ok (e : hevent) : Prop := cloneEvent e = e /\ e_reason e ≠ JUndef.

(** The file holds the log (or there is no file and no event). *)
Definition history_disk (st : history) : Prop :=
  match f_main (h_files st) with
  | None => events st = []
  | Some t => t = FJson (history_document (events st))
  end.

Definition history_inv (st : history) : Prop := Forall event_ok (events st) /\ history_disk st.

Lemma cloneEvent_idem e : cloneEvent (cloneEvent e) = cloneEvent e.
Proof.
  destruct e as [s ev r by_ ms rs at_ ec sg lp tr vd]. unfold cloneEvent; simpl.
  f_equal; try (by destruct by_); match goal with |- undef_null (undef_null ?v) = _ => by destruct v end.
Qed.

Lemma stored_event_ok now i e : stored_event now i = Ok e -> event_ok e.
Proof.
  unfold stored_event. destruct (as_nonempty_str _); [|done]. destruct (as_nonempty_str _); [|done].
  intros [= <-]. split; [apply cloneEvent_idem|]. simpl. by destruct (i_reason i).
Qed.

Lemma mapM_as_str l : mapM as_str (JStr <$> l) = Some l.
Proof. by apply mapM_fmap_Some. Qed.

Lemma event_of_json_json e : event_ok e -> event_of_json (event_json e) = Some e.
Proof.
  intros [Hc Hr]. unfold event_of_json.
  change (prop "members" (event_json e)) with (jstrs (e_members e)).
  change (prop "issueRoots" (event_json e)) with (jstrs (e_issueRoots e)).
  unfold strings_of, jstrs. cbn [coalesce nullish]. rewrite !mapM_as_str.
  transitivity (Some (cloneEvent e)); [by destruct e|by rewrite Hc].
Qed.

Lemma mapM_event_json l : Forall event_ok l -> mapM event_of_json (event_json <$> l) = Some l.
Proof.
  intros Hl. apply mapM_fmap_Forall_Some. eapply Forall_impl; [exact Hl|].
  intros e. apply event_of_json_json.
Qed.

Lemma record_spec ropts env now i st st' r :
  record ropts env now i st = (st', r) ->
  match r with
  | Ok e => stored_event now i = Ok e /\ events st' = events st ++ [e] /\
            f_main (h_files st') = Some (FJson (history_document (events st')))
  | Throw _ => events st' = events st /\ f_main (h_files st') = f_main (h_files st)
  end /\ h_loaded st' = h_loaded st.
Proof.
  unfold record. intros Hr. destruct (stored_event now i) as [e|e] eqn:He; [|by simplify_eq].
  unfold persist in Hr.
  destruct (write_atomic ropts env _ (h_files st)) as [fs res] eqn:Hw.
  apply write_atomic_main in Hw. destruct res; simplify_eq/=; [|done].
  destruct (stored_event_ok _ _ _ He) as [-> _]. done.
Qed.

Lemma record_inv ropts env now i st st' r :
  history_inv st -> record ropts env now i st = (st', r) -> history_inv st'.
Proof.
  intros [Hok Hd] Hr. destruct (record_spec _ _ _ _ _ _ _ Hr) as [Hs _].
  destruct r as [e|e].
  - destruct Hs as (He & Hev & Hm). split.
    + rewrite Hev. apply Forall_app. split; [done|]. constructor; [by eapply stored_event_ok|done].
    + unfold history_disk. by rewrite Hm.
  - destruct Hs as [Hev Hm]. split; [by rewrite Hev|]. unfold history_disk in *. by rewrite Hm, Hev.
Qed.

(** [record] of one call after another, each with its own file-system outcome. *)
Fixpoint record_all (ropts : RenameRetry.opts) (calls : list (io_env * string * hentry))
    (st : history) : history :=
  match calls with
  | [] => st
  | (env, now, i) :: calls' => record_all ropts calls' (record ropts env now i st).1
  end.

Lemma record_all_inv ropts calls st : history_inv st -> history_inv (record_all ropts calls st).
Proof.
  revert st. induction calls as [|[[env now] i] calls IH]; intros st Hi; simpl; [done|].
  apply IH. destruct (record ropts env now i st) as [st' r] eqn:Hr. by eapply record_inv.
Qed.

(** C39: The history is append-only and survives a restart exactly.  After any
    sequence of [record] calls, with any of their file operations failing, the
    old events are a prefix of the new log, and a supervisor that starts from
    the file has the same log. *)
Theorem history_append_only_durable ropts calls st :
  history_inv st ->
  let st' := record_all ropts calls st in
  events st `prefix_of` events st' /\
  load_history None (createHistory (h_files st'))
    = Some ({| events := events st'; h_loaded := true; h_files := h_files st' |}, Ok tt).
Proof.
  intros Hi st'. split.
  - subst st'. revert st Hi. induction calls as [|[[env now] i] calls IH]; intros st Hi; simpl; [done|].
    destruct (record ropts env now i st) as [st1 r] eqn:Hr.
    destruct (record_spec _ _ _ _ _ _ _ Hr) as [Hs _].
    trans (events st1).
    + destruct r; [destruct Hs as (_ & -> & _); by apply prefix_app_r|by destruct Hs as [-> _]].
    + apply IH. by eapply record_inv.
  - destruct (record_all_inv ropts calls st Hi) as [Hok Hd]. fold st' in Hok, Hd.
    unfold load_history, history_disk in *. simpl. destruct (f_main (h_files st')) as [t|].
    + rewrite Hd. change (history_shape_ok (history_document (events st'))) with true.
      change (prop "events" (history_document (events st')))
        with (JArr (event_json <$> events st')).
      cbn [negb]. by rewrite mapM_event_json.
    + by rewrite Hd.
Qed.

(** ** The latest terminal record of an issue root *)

Lemma find_last_None {A} (p : A -> bool) l :
  find_last p l = None <-> Forall (fun y => p y = false) l.
Proof.
  induction l as [|y l IH]; simpl; [by split|]. rewrite Forall_cons, <-IH.
  destruct (find_last p l); destruct (p y); naive_solver.
Qed.

Lemma find_last_Some {A} (p : A -> bool) l x :
  find_last p l = Some x ->
  exists l1 l2, l = l1 ++ x :: l2 /\ p x = true /\ Forall (fun y => p y = false) l2.
Proof.
  induction l as [|y l IH]; simpl; [done|]. destruct (find_last p l) as [z|] eqn:Hf.
  - intros [= ->]. destruct (IH eq_refl) as (l1 & l2 & -> & ? & ?). by exists (y :: l1), l2.
  - destruct (p y) eqn:Hy; [|done]. intros [= ->]. exists [], l.
    split_and!; [done|done|]. by apply find_last_None.
Qed.

(** What the relaunch gate needs to know about an issue root: the last event
    that names the root picks the incarnation; among the events of that
    incarnation the last [finished] one, else the last [launch-failed] one,
    else the naming event itself, gives the outcome. *)
Inductive root_outcome (issue : string) (l : list hevent) : hevent -> hevent -> Prop :=
| ro_finished anchor e :
    find_last (fun e => bool_decide (e_sprintId e = e_sprintId anchor)
                        && bool_decide (e_event e = FINISHED)) l = Some e ->
    root_outcome issue l anchor e
| ro_launch_failed anchor e :
    Forall (fun e => ~ (e_sprintId e = e_sprintId anchor /\ e_event e = FINISHED)) l ->
    find_last (fun e => bool_decide (e_sprintId e = e_sprintId anchor)
                        && bool_decide (e_event e = LAUNCH_FAILED)) l = Some e ->
    root_outcome issue l anchor e
| ro_anchor anchor :
    Forall (fun e => ~ (e_sprintId e = e_sprintId anchor /\
                        (e_event e = FINISHED \/ e_event e = LAUNCH_FAILED))) l ->
    root_outcome issue l anchor anchor.

(** The relaunch gate sees the right incarnation.  A root with a terminal
    record gets the last event naming it as the anchor (no later event names
    it) and the outcome of that anchor's own incarnation, a [finished] event
    taking precedence over a [launch-failed] one; and the gate fires exactly on
    a failed launch or a terminal reason marked as deterministic. *)
Theorem latestForIssueRoot_spec issue st t :
  latestForIssueRoot issue st = Some t ->
  exists l1 anchor l2 detail,
    events st = l1 ++ anchor :: l2 /\ issue ∈ e_issueRoots anchor /\
    Forall (fun e => issue ∉ e_issueRoots e) l2 /\
    root_outcome issue (events st) anchor detail /\
    t_sprintId t = e_sprintId anchor /\ t_event t = e_event detail /\ t_at t = e_at anchor /\
    (isDeterministicTerminalReason (Some t) = true <->
       e_event detail = LAUNCH_FAILED \/ e_terminalReason detail = JStr "BEADS_SYNC_CONFLICT").
Proof.
  unfold latestForIssueRoot. destruct (nonempty issue); [|done]. simpl.
  destruct (find_last _ (events st)) as [anchor|] eqn:Ha; [|done]. simpl.
  set (detail := default anchor _). intros [= <-].
  apply find_last_Some in Ha as (l1 & l2 & Hl & Hin%bool_decide_eq_true & Hno).
  exists l1, anchor, l2, detail. split_and!; try done.
  - eapply Forall_impl; [exact Hno|]. simpl. intros e. apply bool_decide_eq_false.
  - subst detail. simpl. destruct (find_last _ (events st)) as [e|] eqn:Hf.
    { by apply ro_finished. }
    apply find_last_None in Hf. destruct (find_last (fun e => _ && bool_decide (_ = LAUNCH_FAILED)) _)
      as [e|] eqn:Hlf; simpl.
    + apply ro_launch_failed; [|done]. eapply Forall_impl; [exact Hf|]. simpl.
      intros e'. rewrite andb_false_iff, !bool_decide_eq_false. tauto.
    + apply find_last_None in Hlf. apply ro_anchor.
      rewrite Forall_forall in Hf, Hlf |- *. intros e' He'.
      specialize (Hf e' He'). specialize (Hlf e' He'). simpl in *.
      rewrite andb_false_iff, !bool_decide_eq_false in Hf, Hlf. tauto.
  - simpl. case_decide as Hd; [tauto|].
    destruct (e_terminalReason detail) as [| | | |s| |] eqn:Ht; simpl; try (split; [done|naive_solver]).
    rewrite bool_decide_eq_true. unfold DETERMINISTIC_TERMINAL_REASONS.
    rewrite list_elem_of_singleton. naive_solver.
Qed.

(** ** Concrete runs *)

Definition demo_entry (s ev : string) (roots : list string) (tr : jsval) : hentry :=
  {| i_sprintId := JStr s; i_event := JStr ev; i_reason := JStr "r"; i_by := JUndef;
     i_members := Some ["m1"]; i_issueRoots := Some roots; i_at := JUndef; i_exitCode := JUndef;
     i_signal := JUndef; i_logPath := JUndef; i_terminalReason := tr; i_verdict := JUndef |}.

Definition rename_denied : io_env :=
  {| io_mkdir := None; io_write := None; io_rename := fun _ => Some (CodedErr "EACCES" "denied") |}.

(** The second write fails; the others succeed. *)
Definition demo_calls : list (io_env * string * hentry) :=
  [(io_ok, "t1", demo_entry "s1" AUTO_RELEASED ["r1"] JUndef);
   (rename_denied, "t2", demo_entry "s9" AUTO_RELEASED ["r1"] JUndef);
   (io_ok, "t3", demo_entry "s1" FINISHED [] (JStr "BEADS_SYNC_CONFLICT"))].

Definition demo_history : history :=
  record_all RenameRetry.no_opts demo_calls (createHistory no_files).

Lemma history_inv_init : history_inv (createHistory no_files).
Proof. by split. Qed.

Lemma history_append_only_durable_witness :
  length (events demo_history) = 2 /\
  ([] `prefix_of` events demo_history /\
   load_history None (createHistory (h_files demo_history))
    = Some ({| events := events demo_history; h_loaded := true;
               h_files := h_files demo_history |}, Ok tt)).
Proof.
  split; [vm_compute; reflexivity|].
  apply (history_append_only_durable RenameRetry.no_opts demo_calls (createHistory no_files)).
  apply history_inv_init.
Defined.

Definition demo_terminal : terminal_record :=
  {| t_sprintId := "s1"; t_event := FINISHED; t_reason := JStr "r";
     t_terminalReason := JStr "BEADS_SYNC_CONFLICT"; t_verdict := JNull; t_at := "t1" |}.

Lemma latestForIssueRoot_spec_witness :
  isDeterministicTerminalReason (Some demo_terminal) = true /\
  exists l1 anchor l2 detail,
    events demo_history = l1 ++ anchor :: l2 /\ "r1" ∈ e_issueRoots anchor /\
    Forall (fun e => "r1" ∉ e_issueRoots e) l2 /\
    root_outcome "r1" (events demo_history) anchor detail /\
    "s1" = e_sprintId anchor /\ FINISHED = e_event detail /\ "t1" = e_at anchor /\
    (isDeterministicTerminalReason (Some demo_terminal) = true <->
       e_event detail = LAUNCH_FAILED \/ e_terminalReason detail = JStr "BEADS_SYNC_CONFLICT").
Proof.
  split; [vm_compute; reflexivity|].
  apply (latestForIssueRoot_spec "r1" demo_history demo_terminal). vm_compute. reflexivity.
Defined.
