(* ===== verification/Store.v ===== *)
(** * Interfaces of the two stores

    The reconciler, the re-adopter, the watchdog and the HTTP API receive the
    ledger and the history as collaborators and use a few methods of each.
    The classes below are those interfaces with the laws the clients rely on;
    the ledger and the history of this development are their instances. *)

From S2P Require Import Prelude JsMap JsVal AtomicFile Reservation Ledger LedgerProps History.
Local Open Scope string_scope.
Local Open Scope list_scope.

(** ** The reservation store *)

Class ReservationStore (L : Type) := {
  st_list : L -> list (string * reservation);
  st_get : string -> L -> option reservation;
  st_release : io_env -> string -> L -> L * result bool
}.

Class ReservationStoreLaws (L : Type) `{ReservationStore L} (inv : L -> Prop) := {
  st_list_wf l : inv l -> jwf (st_list l);
  st_keys l s r : inv l -> jget s (st_list l) = Some r -> s ≠ "";
  st_get_list l s : inv l -> st_get s l = jget s (st_list l);
  st_release_Ok env s l l' b : inv l -> st_release env s l = (l', Ok b) ->
    inv l' /\ st_list l' = jdel s (st_list l) /\ b = jhas s (st_list l);
  st_release_Throw env s l l' e : inv l -> st_release env s l = (l', Throw e) ->
    inv l' /\ st_list l' = st_list l;
  st_release_io_ok s l : s ≠ "" -> exists l' b, st_release io_ok s l = (l', Ok b)
}.

Section ledger_store.
Context (cfg : ledger_cfg).

#[export] Instance ledger_store : ReservationStore ledger := {
  st_list := list_entries;
  st_get := get;
  st_release := release cfg
}.

#[export] Instance ledger_store_laws : ReservationStoreLaws ledger ledger_inv.
Proof.
  split; simpl.
  - intros l Hi. rewrite list_entries_eq. apply Hi.
  - intros l s r Hi Hr. rewrite list_entries_eq in Hr. by eapply Hi.
  - intros l s Hi. by rewrite get_eq, list_entries_eq.
  - intros env s l l' b Hi Hr. pose proof (run_op_inv cfg env (OpRelease s) l Hi) as Hi'.
    pose proof (release_Ok cfg env s l b) as Hb. pose proof (release_effect _ _ _ _ _ _ Hr) as He.
    simpl in Hi', He. rewrite Hr in *. simpl in *. rewrite !list_entries_eq.
    split; [done|]. split; [|by apply Hb].
    destruct (nonempty s); simpl in He; [|by destruct He as [_ [? ?]]].
    by destruct He as [(? & _)|(_ & _ & ? & ?)].
  - intros env s l l' e Hi Hr. pose proof (run_op_inv cfg env (OpRelease s) l Hi) as Hi'.
    pose proof (release_effect _ _ _ _ _ _ Hr) as He.
    simpl in Hi', He. rewrite Hr in *. simpl in *. rewrite !list_entries_eq.
    split; [done|]. destruct (nonempty s); simpl in He; [|by destruct He as [-> _]].
    by destruct He as [(_ & ? & _)|(? & _)].
  - intros s l Hs. unfold release, release_commit. apply nonempty_spec in Hs. rewrite Hs. simpl.
    pose proof (transact_io_ok cfg (release_tx s) l _ _ _ eq_refl) as Hx.
    destruct (transact _ _ _ _) as [l1 o]; simpl in *. rewrite Hx. eauto.
Qed.
End ledger_store.

(** ** The history store *)

Class HistoryStore (H : Type) := {
  hs_events : H -> list hevent;
  hs_record : io_env -> string -> hentry -> H -> H * result hevent;
  hs_latestForIssueRoot : string -> H -> option terminal_record
}.

Class HistoryStoreLaws (H : Type) `{HistoryStore H} := {
  hs_record_Ok env now i h h' e : hs_record env now i h = (h', Ok e) ->
    stored_event now i = Ok e /\ hs_events h' = hs_events h ++ [e];
  hs_record_Throw env now i h h' e : hs_record env now i h = (h', Throw e) ->
    hs_events h' = hs_events h;
  hs_record_io_ok now i h e : stored_event now i = Ok e ->
    exists h', hs_record io_ok now i h = (h', Ok e)
}.

Section history_store.
Context (ropts : RenameRetry.opts).

#[export] Instance history_store : HistoryStore history := {
  hs_events := events;
  hs_record := record ropts;
  hs_latestForIssueRoot := latestForIssueRoot
}.

#[export] Instance history_store_laws : HistoryStoreLaws history.
Proof.
  split; simpl.
  - intros env now i h h' e Hr. apply record_spec in Hr. naive_solver.
  - intros env now i h h' e Hr. apply record_spec in Hr. naive_solver.
  - intros now i h e He. unfold record, persist. rewrite He, write_atomic_io_ok.
    destruct (stored_event_ok _ _ _ He) as [-> _]. eauto.
Qed.
End history_store.
