(* ===== verification/Process.v ===== *)
(** * Probing and signalling processes

    [isPidAlive] and [killPid] of [src/supervisor/reconcile.mjs].  The outcome
    of [process.kill(pid, sig)] is the operating system's. *)

From S2P Require Import Prelude JsMap JsVal.
Local Open Scope string_scope.
Local Open Scope list_scope.

(** [err.code === code] *)
Definition has_code (code : string) (e : js_error) : bool :=
  match e with CodedErr c _ => bool_decide (c = code) | _ => false end.

(** [Number.isInteger(pid) && pid > 0] *)
Definition positive_pid (pid : jsval) : option Z :=
  match as_int pid with
  | Some p => if (0 <? p)%Z then Some p else None
  | None => None
  end.

(** [kill0 p] is the outcome of [process.kill(p, 0)] ([None]: success). *)
Definition isPidAlive (kill0 : Z -> option js_error) (pid : jsval) : bool :=
  match positive_pid pid with
  | None => false
  | Some p =>
      match kill0 p with
      | None => true
      | Some e => has_code "EPERM" e
      end
  end.

(** [kill p] is the outcome of [process.kill(p, signal)]. *)
Definition killPid (kill : Z -> option js_error) (pid : jsval) : bool :=
  match positive_pid pid with
  | None => false
  | Some p =>
      match kill p with
      | None => true
      | Some e => has_code "ESRCH" e
      end
  end.
