(* ===== verification/Spawner.v ===== *)
(** * The detached child spawner ([src/supervisor/spawner.mjs])

    Port allocation, the child's argument vector, the per-sprint log file and
    the bookkeeping of live children ([live], open log descriptors, and the
    exit listeners of the children this process started).  The operating
    system decides which ports are free, which process id a spawn returns and
    which calls fail ([os_env]); the digest of the log-file name is the
    [sha12] parameter ([node:crypto]), [JSON.stringify] of a role map is
    [stringify]. *)

From Stdlib Require Import Ascii.
From S2P Require Import Prelude JsMap JsVal Text.
Local Open Scope string_scope.
Local Open Scope list_scope.

Definition DEFAULT_SPAWNER_BASE_PORT : Z := 8081.
Definition MAX_PORT : Z := 65535.

(** ** The per-sprint log file *)

Definition MAX_LOG_STEM_LENGTH : nat := 80.
Definition LOG_STEM_HASH_LENGTH : nat := 12.

(** [s.replace(/[^A-Za-z0-9._-]/g, '_')] *)
Fixpoint sanitize (s : string) : string :=
  match s with
  | EmptyString => ""
  | String c s' => String (if safe_char c then c else "_"%char) (sanitize s')
  end.

(** [path.basename(s)] of a name that does not end in a separator: what
    follows the last ['/']. *)
Fixpoint basename_from (acc : string) (s : string) : string :=
  match s with
  | EmptyString => acc
  | String c s' => if decide (c = "/"%char) then basename_from "" s'
                   else basename_from (acc +:+ String c "") s'
  end.
Definition basename (s : string) : string := basename_from "" s.

(** The file name inside [<dataDir>/logs]; [resolveSprintLogPath] joins it to
    that directory. *)
Definition resolveSprintLogName (sha12 : string -> string) (stem : string) : result string :=
  let safe := sanitize stem in
  let safe := if (MAX_LOG_STEM_LENGTH <? String.length safe)%nat
              then String.substring 0 (MAX_LOG_STEM_LENGTH - LOG_STEM_HASH_LENGTH - 1) safe
                     +:+ "-" +:+ sha12 stem
              else safe in
  let fileName := (if nonempty safe then safe else "sprint") +:+ ".log" in
  if negb (bool_decide (fileName = basename fileName)) || bool_decide (fileName = ".log")
  then Throw (PlainErr "refusing to build an unsafe sprint log file name")
  else Ok fileName.

(** ** Port allocation *)

Record alloc_port_opts := {
  p_startPort : option Z; p_maxAttempts : option Z; p_excluded : list Z;
  p_isAvailable : Z -> bool
}.

Definition no_port_error : js_error := PlainErr "[spawner] no free --viewer-port found".

(** The loop: [fuel] iterations remain, [candidate] is the next port. *)
Fixpoint port_loop (fuel : nat) (candidate : Z) (excluded : list Z) (avail : Z -> bool)
    : result Z :=
  match fuel with
  | O => Throw no_port_error
  | S fuel' =>
      if (MAX_PORT <? candidate)%Z then Throw no_port_error
      else if bool_decide (candidate ∈ excluded) then port_loop fuel' (candidate + 1) excluded avail
      else if avail candidate then Ok candidate
      else port_loop fuel' (candidate + 1) excluded avail
  end.

Definition allocateFreePort (o : alloc_port_opts) : result Z :=
  port_loop (Z.to_nat (default 1000%Z (p_maxAttempts o)))
            (default DEFAULT_SPAWNER_BASE_PORT (p_startPort o)) (p_excluded o) (p_isAvailable o).

(** ** The child's arguments *)

Inductive num_or_str := ArgNum (z : Z) | ArgStr (s : string).

(** [String(v)] *)
Definition to_String (v : num_or_str) : string :=
  match v with ArgNum z => pretty z | ArgStr s => s end.

Record sprint_opts := {
  o_issue : string; o_members : string; o_branch : string; o_base : string;
  o_goal : option string; o_maxCycles : option num_or_str; o_allowMissingMembers : bool;
  o_requirementsFile : option string; o_roleMap : option (string + jsval);
  o_budget : option num_or_str; o_skipRegression : bool;
  o_serviceUrl : option string; o_runId : option string; o_expectBeads : option string;
  o_extraArgs : list string
}.

Definition opt_flag (flag : string) (v : option string) : list string :=
  match v with Some s => [flag; s] | None => [] end.

(** [viewerPort] is passed separately: [spawnSprint] adds it. *)
Definition buildSprintArgv (stringify : jsval -> string) (o : sprint_opts) (viewerPort : Z)
    : result (list string) :=
  if negb (nonempty (o_issue o) && nonempty (o_members o)
           && nonempty (o_branch o) && nonempty (o_base o))
  then Throw (PlainErr "buildSprintArgv requires issue, members, branch, and base")
  else if (viewerPort <=? 0)%Z || (MAX_PORT <? viewerPort)%Z
  then Throw (PlainErr "buildSprintArgv requires an integer viewerPort in [1, 65535]")
  else Ok (["--issue"; o_issue o; "--members"; o_members o; "--branch"; o_branch o;
            "--base"; o_base o; "--viewer-port"; pretty viewerPort]
           ++ opt_flag "--goal" (o_goal o)
           ++ opt_flag "--max-cycles" (to_String <$> o_maxCycles o)
           ++ (if o_allowMissingMembers o then ["--allow-missing-members"] else [])
           ++ opt_flag "--requirements-file" (o_requirementsFile o)
           ++ opt_flag "--role-map"
                ((fun r => match r with inl s => s | inr v => stringify v end) <$> o_roleMap o)
           ++ opt_flag "--budget" (to_String <$> o_budget o)
           ++ (if o_skipRegression o then ["--skip-regression"] else [])
           ++ opt_flag "--service-url" (o_serviceUrl o)
           ++ opt_flag "--run-id" (o_runId o)
           ++ opt_flag "--expect-beads" (o_expectBeads o)
           ++ o_extraArgs o).

(** ** Live children *)

Record live_entry := { le_port : Z; le_child : option nat; le_logPath : option string }.

(** A child this process started whose exit listener has not fired: its pid,
    the log descriptor this process holds, and what the listener reports. *)
Record child := { c_id : nat; c_pid : Z; c_runId : option string; c_logPath : string }.

Record exit_report := {
  x_pid : Z; x_runId : option string; x_exitCode : option Z; x_signal : option string;
  x_at : string; x_logPath : string
}.

Record spawner := {
  live : list (Z * live_entry);
  children : list child;      (** exit listeners registered and not fired *)
  open_fds : list nat;        (** log descriptors this process has open *)
  next_fd : nat;
  reports : list exit_report  (** [onChildExit] calls, oldest first *)
}.

Definition createSpawner : spawner :=
  {| live := []; children := []; open_fds := []; next_fd := 0; reports := [] |}.

Definition livePortSet (st : spawner) : list Z := dedup (le_port <$> (live st).*2).

(** What the operating system does for one launch. *)
Record os_env := {
  os_mkdir : option js_error; os_open : option js_error;
  os_spawn : result (option Z)  (** [spawn]: throws, or a child with or without a pid *)
}.

Record spawned := { sp_pid : Z; sp_port : Z; sp_args : list string; sp_logPath : string }.

Definition with_fds (fds : list nat) (n : nat) (st : spawner) : spawner :=
  {| live := live st; children := children st; open_fds := fds; next_fd := n;
     reports := reports st |}.

Section spawn.
Context (stringify : jsval -> string) (sha12 : string -> string).
Context (cliPath : string) (serviceUrl expectBeads : option string).

(** [spawnSprint] after its port was allocated.  [uuid] is [randomUUID()]. *)
Definition launch_child (env : os_env) (uuid : string) (o : sprint_opts) (port : Z)
    (st : spawner) : spawner * result spawned :=
  let o' := {| o_issue := o_issue o; o_members := o_members o; o_branch := o_branch o;
     o_base := o_base o; o_goal := o_goal o; o_maxCycles := o_maxCycles o;
     o_allowMissingMembers := o_allowMissingMembers o;
     o_requirementsFile := o_requirementsFile o; o_roleMap := o_roleMap o;
     o_budget := o_budget o; o_skipRegression := o_skipRegression o;
     o_serviceUrl := match o_serviceUrl o with Some u => Some u | None => serviceUrl end;
     o_runId := o_runId o;
     o_expectBeads := match o_expectBeads o with Some b => Some b | None => expectBeads end;
     o_extraArgs := o_extraArgs o |} in
  match buildSprintArgv stringify o' port with
  | Throw e => (st, Throw e)
  | Ok argv =>
      let stem := match o_runId o with
                  | Some r => if nonempty r then r else "direct-" +:+ uuid
                  | None => "direct-" +:+ uuid
                  end in
      match resolveSprintLogName sha12 stem with
      | Throw e => (st, Throw e)
      | Ok logPath =>
          match os_mkdir env, os_open env with
          | Some e, _ | None, Some e => (st, Throw e)
          | None, None =>
              let fd := next_fd st in
              let opened := with_fds (open_fds st ++ [fd]) (S fd) st in
              let closed := with_fds (filter (fun f => f ≠ fd) (open_fds opened)) (S fd) opened in
              match os_spawn env with
              | Throw e => (closed, Throw e)
              | Ok None => (closed, Throw (PlainErr "[spawner] spawn did not return a pid"))
              | Ok (Some pid) =>
                  ({| live := jset pid {| le_port := port; le_child := Some fd;
                                          le_logPath := Some logPath |} (live opened);
                      children := children opened ++
                        [{| c_id := fd; c_pid := pid; c_runId := o_runId o;
                            c_logPath := logPath |}];
                      open_fds := open_fds opened; next_fd := next_fd opened;
                      reports := reports opened |},
                   Ok {| sp_pid := pid; sp_port := port; sp_args := cliPath :: argv;
                         sp_logPath := logPath |})
              end
          end
      end
  end.

(** The synchronous part of [spawnSprint] before its first [await]: the live
    ports are read once, here. *)
Definition choose_port (basePort : option Z) (avail : Z -> bool) (st : spawner) : result Z :=
  allocateFreePort {| p_startPort := Some (default DEFAULT_SPAWNER_BASE_PORT basePort);
                      p_maxAttempts := None;
                      p_excluded := livePortSet st; p_isAvailable := avail |}.

(** One call with nothing in between. *)
Definition spawnSprint (basePort : option Z) (avail : Z -> bool) (env : os_env) (uuid : string)
    (o : sprint_opts) (st : spawner) : spawner * result spawned :=
  match choose_port basePort avail st with
  | Throw e => (st, Throw e)
  | Ok port => launch_child env uuid o port st
  end.
End spawn.

(** The child's ['exit'] event. *)
Definition on_exit (c : child) (code : option Z) (sig : option string) (at_ : string)
    (st : spawner) : spawner :=
  {| live := jdel (c_pid c) (live st);
     children := filter (fun d => c_id d ≠ c_id c) (children st);
     open_fds := filter (fun f => f ≠ c_id c) (open_fds st);
     next_fd := next_fd st;
     reports := reports st ++ [{| x_pid := c_pid c; x_runId := c_runId c; x_exitCode := code;
                                  x_signal := sig; x_at := at_; x_logPath := c_logPath c |}] |}.

(** The child's ['error'] event: the exit listener stays. *)
Definition on_error (c : child) (st : spawner) : spawner :=
  {| live := jdel (c_pid c) (live st); children := children st;
     open_fds := filter (fun f => f ≠ c_id c) (open_fds st);
     next_fd := next_fd st; reports := reports st |}.

Definition adopt (pid port : Z) (st : spawner) : spawner * result unit :=
  if (pid <=? 0)%Z then (st, Throw (TypeErr "adopt() requires a positive integer pid"))
  else if (port <=? 0)%Z || (MAX_PORT <? port)%Z
  then (st, Throw (TypeErr "adopt() requires an integer port in [1, 65535]"))
  else ({| live := jset pid {| le_port := port; le_child := None; le_logPath := None |} (live st);
           children := children st; open_fds := open_fds st; next_fd := next_fd st;
           reports := reports st |}, Ok tt).

(** [stop]: only the bookkeeping is dropped; no child is touched. *)
Definition stop (st : spawner) : spawner :=
  {| live := []; children := children st; open_fds := open_fds st; next_fd := next_fd st;
     reports := reports st |}.

Definition getLiveEntry (pid : Z) (st : spawner) : option live_entry := jget pid (live st).
Definition liveCount (st : spawner) : nat := length (live st).
