(* ===== verification/SpawnerProps.v ===== *)
(** * What the spawner guarantees *)

From Stdlib Require Import Ascii.
From S2P Require Import Prelude JsMap JsVal Text Spawner.
Local Open Scope string_scope.
Local Open Scope list_scope.

(** ** Ports *)

Lemma port_loop_spec fuel start excluded avail :
  match port_loop fuel start excluded avail with
  | Ok p => (start <= p < start + Z.of_nat fuel)%Z /\ (p <= MAX_PORT)%Z /\
            p ∉ excluded /\ avail p = true /\
            forall q, (start <= q < p)%Z -> q ∈ excluded \/ avail q = false
  | Throw e => e = no_port_error /\
      forall q, (start <= q < start + Z.of_nat fuel)%Z -> (q <= MAX_PORT)%Z ->
        q ∈ excluded \/ avail q = false
  end.
Proof.
  revert start. induction fuel as [|fuel IH]; intros start; simpl; [split; [done|lia]|].
  destruct (Z.ltb_spec MAX_PORT start); [split; [done|lia]|].
  specialize (IH (start + 1)%Z).
  destruct (bool_decide (start ∈ excluded)) eqn:Hx;
    [apply bool_decide_eq_true in Hx|apply bool_decide_eq_false in Hx; destruct (avail start) eqn:Ha].
  - destruct (port_loop fuel _ _ _).
    + destruct IH as (? & ? & ? & ? & Hq). split_and!; try done; try lia.
      intros q ?. destruct (decide (q = start)) as [->|]; [by left|apply Hq; lia].
    + destruct IH as [-> Hq]. split; [done|]. intros q ? ?.
      destruct (decide (q = start)) as [->|]; [by left|apply Hq; lia].
  - split_and!; try done; lia.
  - destruct (port_loop fuel _ _ _).
    + destruct IH as (? & ? & ? & ? & Hq). split_and!; try done; try lia.
      intros q ?. destruct (decide (q = start)) as [->|]; [by right|apply Hq; lia].
    + destruct IH as [-> Hq]. split; [done|]. intros q ? ?.
      destruct (decide (q = start)) as [->|]; [by right|apply Hq; lia].
Qed.

(** Port allocation returns the lowest port of its range that no live
    sprint holds and the operating system reports free; it throws exactly when
    the range [start, start + maxAttempts) has none up to 65535. *)
Theorem allocateFreePort_lowest o :
  let start := default DEFAULT_SPAWNER_BASE_PORT (p_startPort o) in
  let max := Z.of_nat (Z.to_nat (default 1000%Z (p_maxAttempts o))) in
  let usable p := (start <= p < start + max)%Z /\ (p <= MAX_PORT)%Z /\
                  p ∉ p_excluded o /\ p_isAvailable o p = true in
  match allocateFreePort o with
  | Ok p => usable p /\ forall q, usable q -> (p <= q)%Z
  | Throw e => e = no_port_error /\ forall q, ~ usable q
  end.
Proof.
  intros start max usable. unfold allocateFreePort. fold start.
  pose proof (port_loop_spec (Z.to_nat (default 1000%Z (p_maxAttempts o))) start
                (p_excluded o) (p_isAvailable o)) as Hs.
  destruct (port_loop _ _ _ _) as [p|e].
  - destruct Hs as (? & ? & ? & ? & Hlow). split; [done|].
    intros q (? & ? & Hq & Ha). destruct (Z.le_gt_cases p q); [done|].
    destruct (Hlow q) as [?|?]; [lia|done|congruence].
  - destruct Hs as [-> Hno]. split; [done|]. intros q (? & ? & Hq & Ha).
    destruct (Hno q) as [?|?]; [done|done|done|congruence].
Qed.

(** ** Sequential launches *)

(** Live sprints hold pairwise different ports, and the open descriptors are
    those of children whose listeners may still close them. *)
Record spawner_inv (st : spawner) : Prop := {
  sv_wf : jwf (live st);
  sv_ports : NoDup (le_port <$> (live st).*2);
  sv_fds : open_fds st ⊆ c_id <$> children st;
  sv_fresh : Forall (fun f => f < next_fd st) (c_id <$> children st)
}.

Lemma spawner_inv_init : spawner_inv createSpawner.
Proof. split; simpl; [apply jwf_nil|constructor|done|constructor]. Qed.

Lemma elem_of_livePortSet p st : p ∈ livePortSet st <-> p ∈ le_port <$> (live st).*2.
Proof. apply elem_of_dedup. Qed.

(** Ports of the other pids. *)
Lemma ports_jdel_sub pid (m : list (Z * live_entry)) :
  (le_port <$> (jdel pid m).*2) `sublist_of` (le_port <$> m.*2).
Proof. apply fmap_sublist, fmap_sublist, sublist_filter. Qed.

Lemma ports_jset pid x (m : list (Z * live_entry)) :
  jwf m -> NoDup (le_port <$> m.*2) -> le_port x ∉ le_port <$> m.*2 ->
  NoDup (le_port <$> (jset pid x m).*2).
Proof.
  intros Hwf Hnd Hx. rewrite (jset_perm pid x m Hwf). simpl. apply NoDup_cons. split.
  - intros Hin. apply Hx. by apply (elem_of_sublist _ _ _ Hin), (ports_jdel_sub pid).
  - eapply sublist_NoDup; [|apply (ports_jdel_sub pid)]. done.
Qed.

Lemma choose_port_fresh basePort avail st p :
  choose_port basePort avail st = Ok p -> p ∉ livePortSet st.
Proof.
  unfold choose_port, allocateFreePort. cbn [p_maxAttempts p_startPort p_excluded p_isAvailable].
  intros Hp. pose proof (port_loop_spec (Z.to_nat (default 1000%Z None))
    (default DEFAULT_SPAWNER_BASE_PORT (Some (default DEFAULT_SPAWNER_BASE_PORT basePort)))
    (livePortSet st) avail) as Hs. rewrite Hp in Hs. by destruct Hs as (_ & _ & ? & _).
Qed.

Section launches.
Context (stringify : jsval -> string) (sha12 : string -> string).
Context (cliPath : string) (serviceUrl expectBeads : option string).

(** What a launch does, on success and on failure. *)
Lemma launch_child_spec env uuid o port st st' r :
  launch_child stringify sha12 cliPath serviceUrl expectBeads env uuid o port st = (st', r) ->
  next_fd st <= next_fd st' /\ reports st' = reports st /\
  match r with
  | Ok s => sp_port s = port /\
      exists e, live st' = jset (sp_pid s) e (live st) /\ le_port e = port /\
        open_fds st' = open_fds st ++ [next_fd st] /\
        (exists c, children st' = children st ++ [c] /\ c_id c = next_fd st /\
                   c_pid c = sp_pid s /\ c_runId c = o_runId o) /\
        next_fd st' = S (next_fd st)
  | Throw _ => live st' = live st /\ children st' = children st /\
               open_fds st' ⊆ open_fds st
  end.
Proof.
  unfold launch_child. intros Hl.
  destruct (buildSprintArgv _ _ _); simplify_eq/=; [|done].
  destruct (resolveSprintLogName _ _); simplify_eq/=; [|done].
  destruct (os_mkdir env), (os_open env); simplify_eq/=; try done.
  assert (filter (fun f => f ≠ next_fd st) (open_fds st ++ [next_fd st]) ⊆ open_fds st) as Hsub.
  { intros f [Hf Hin]%list_elem_of_filter. set_solver. }
  destruct (os_spawn env) as [[pid|]|]; simplify_eq/=; split_and!; try done; try lia.
  eexists. split_and!; try done. by eexists.
Qed.

(** A failed launch leaves nothing behind: when [spawnSprint] throws, no
    sprint was added to the live set, no exit listener is registered and no
    log descriptor stays open; when it succeeds, the new child has the one
    port returned, one descriptor and one listener. *)
Theorem spawn_leaks_nothing basePort avail env uuid o st st' r :
  spawnSprint stringify sha12 cliPath serviceUrl expectBeads basePort avail env uuid o st = (st', r) ->
  match r with
  | Throw _ => live st' = live st /\ children st' = children st /\ open_fds st' ⊆ open_fds st
  | Ok s => getLiveEntry (sp_pid s) st' ≠ None /\ sp_port s ∉ livePortSet st /\
            length (children st') = S (length (children st)) /\
            length (open_fds st') = S (length (open_fds st))
  end.
Proof.
  unfold spawnSprint. intros Hs. destruct (choose_port basePort avail st) as [port|e] eqn:Hp.
  2:{ injection Hs as <- <-. split_and!; reflexivity. }
  apply launch_child_spec in Hs as (_ & _ & Hs). destruct r as [s|e]; [|done].
  destruct Hs as (Hport & e & Hl & He & Hf & (c & Hc & _) & _).
  unfold getLiveEntry. rewrite Hl, jget_jset_eq, Hc, Hf, !length_app. simpl.
  split_and!; [done| |lia|lia]. rewrite Hport. by eapply choose_port_fresh.
Qed.

(** The steps of a supervisor that launches one sprint at a time. *)
Inductive seqstep : spawner -> spawner -> Prop :=
| sq_spawn basePort avail env uuid o st :
    seqstep st (spawnSprint stringify sha12 cliPath serviceUrl expectBeads basePort avail env uuid o st).1
| sq_exit c code sig at_ st :
    c ∈ children st -> seqstep st (on_exit c code sig at_ st)
| sq_error c st :
    c ∈ children st -> seqstep st (on_error c st)
| sq_stop st : seqstep st (stop st).

Lemma jdel_inv_live pid st :
  spawner_inv st -> jwf (jdel pid (live st)) /\ NoDup (le_port <$> (jdel pid (live st)).*2).
Proof.
  intros [Hwf Hp _ _]. split; [by apply jdel_wf|]. by eapply sublist_NoDup; [|apply ports_jdel_sub].
Qed.

Lemma seqstep_inv st st' : seqstep st st' -> spawner_inv st -> spawner_inv st'.
Proof.
  intros Hs Hinv. pose proof Hinv as [Hwf Hp Hf Hfr]. destruct Hs.
  - unfold spawnSprint. destruct (choose_port basePort avail st) as [port|e] eqn:Hport; [|done].
    destruct (launch_child _ _ _ _ _ _ _ _ _ _) as [st' r] eqn:Hl. simpl.
    apply launch_child_spec in Hl as (Hn & _ & Hl).
    assert (Forall (fun f => f < next_fd st') (c_id <$> children st)) as Hfr'.
    { eapply Forall_impl; [exact Hfr|]. simpl. lia. }
    destruct r as [s|e].
    + destruct Hl as (Hsp & e & Hlive & He & Hfds & (c & Hc & Hcid & _) & Hn').
      assert (port ∉ livePortSet st) as Hnew.
      { by eapply choose_port_fresh. }
      rewrite elem_of_livePortSet in Hnew. split.
      * rewrite Hlive. by apply jset_wf.
      * rewrite Hlive. apply ports_jset; [done..|]. by rewrite He.
      * rewrite Hfds, Hc, fmap_app. simpl. rewrite Hcid. set_solver.
      * rewrite Hc, fmap_app. apply Forall_app. split; [done|]. simpl. rewrite Hcid.
        constructor; [lia|constructor].
    + destruct Hl as (Hlive & Hc & Hfds). split; rewrite ?Hlive, ?Hc; try done. set_solver.
  - destruct (jdel_inv_live (c_pid c) st Hinv). split; simpl; try done.
    + intros f [Hne Hin]%list_elem_of_filter. apply Hf in Hin.
      apply list_elem_of_fmap in Hin as (d & -> & Hd). apply list_elem_of_fmap. exists d.
      split; [done|]. by apply list_elem_of_filter.
    + rewrite Forall_forall in Hfr |- *. intros f (d & -> & [_ Hd]%list_elem_of_filter)%list_elem_of_fmap.
      apply Hfr. apply list_elem_of_fmap. eauto.
  - destruct (jdel_inv_live (c_pid c) st Hinv). split; simpl; try done.
    intros f [_ Hin]%list_elem_of_filter. by apply Hf.
  - split; simpl; [apply jwf_nil|constructor|done|done].
Qed.

(** While launches run one after the other, no two live sprints ever hold
    the same port, and every open log descriptor belongs to a child whose exit
    listener is still registered (so descriptors are not leaked across
    launches). *)
Theorem sequential_launches_distinct_ports st :
  rtc seqstep createSpawner st ->
  NoDup (le_port <$> (live st).*2) /\ open_fds st ⊆ c_id <$> children st.
Proof.
  intros Hr. assert (spawner_inv createSpawner) as Hi by apply spawner_inv_init.
  revert Hi. induction Hr as [st|st1 st2 st3 Hs _ IH]; intros Hi.
  - destruct Hi. done.
  - apply IH. by eapply seqstep_inv.
Qed.
End launches.

(** ** Concurrent launches *)

(** [spawnSprint] awaits its port probe, so the choice of the port and the
    registration of the child are two steps of the event loop. *)
Inductive constep (stringify : jsval -> string) (sha12 : string -> string) (cliPath : string)
    : spawner * list (Z * sprint_opts) -> spawner * list (Z * sprint_opts) -> Prop :=
| cs_choose avail o st q port :
    choose_port None avail st = Ok port ->
    constep stringify sha12 cliPath (st, q) (st, q ++ [(port, o)])
| cs_launch env uuid port o st q1 q2 :
    constep stringify sha12 cliPath (st, q1 ++ (port, o) :: q2)
      ((launch_child stringify sha12 cliPath None None env uuid o port st).1, q1 ++ q2).

Definition demo_opts (issue : string) : sprint_opts :=
  {| o_issue := issue; o_members := "m1"; o_branch := "b"; o_base := "main"; o_goal := None;
     o_maxCycles := None; o_allowMissingMembers := false; o_requirementsFile := None;
     o_roleMap := None; o_budget := Some (ArgNum 5); o_skipRegression := false;
     o_serviceUrl := None; o_runId := Some ("run-" +:+ issue); o_expectBeads := None;
     o_extraArgs := [] |}.

Definition demo_os (pid : Z) : os_env :=
  {| os_mkdir := None; os_open := None; os_spawn := Ok (Some pid) |}.
Definition demo_stringify (v : jsval) : string := "{}".
Definition demo_sha (s : string) : string := "0123456789ab".
Definition all_free (p : Z) : bool := true.

Definition racing : spawner :=
  (launch_child demo_stringify demo_sha "cli.mjs" None None (demo_os 102) "u2" (demo_opts "b") 8081
    (launch_child demo_stringify demo_sha "cli.mjs" None None (demo_os 101) "u1" (demo_opts "a") 8081
      createSpawner).1).1.

(** Two concurrent launches can be given the same port: both read the
    live ports before either child is registered, both probe the port as free,
    and both children are then live on it. *)
Theorem concurrent_launches_share_port :
  rtc (constep demo_stringify demo_sha "cli.mjs") (createSpawner, []) (racing, []) /\
  getLiveEntry 101 racing = Some {| le_port := 8081; le_child := Some 0; le_logPath := Some "run-a.log" |} /\
  getLiveEntry 102 racing = Some {| le_port := 8081; le_child := Some 1; le_logPath := Some "run-b.log" |}.
Proof.
  split_and!; [|vm_compute; reflexivity..].
  eapply rtc_l. { apply (cs_choose _ _ _ all_free (demo_opts "a")). vm_compute; reflexivity. }
  eapply rtc_l. { apply (cs_choose _ _ _ all_free (demo_opts "b")). vm_compute; reflexivity. }
  eapply rtc_l. { apply (cs_launch _ _ _ (demo_os 101) "u1" 8081 (demo_opts "a") _ [] [(8081%Z, demo_opts "b")]). }
  eapply rtc_l. { apply (cs_launch _ _ _ (demo_os 102) "u2" 8081 (demo_opts "b") _ [] []). }
  apply rtc_refl.
Qed.

(** ** Log file names *)

Lemma sanitize_safe s : string_all safe_char (sanitize s) = true.
Proof.
  induction s as [|c s IH]; [done|]. simpl. rewrite IH, andb_true_r.
  destruct (safe_char c) eqn:Hc; [done|reflexivity].
Qed.

Lemma substring_safe p n m s :
  string_all p s = true -> string_all p (String.substring n m s) = true.
Proof.
  revert n m. induction s as [|c s IH]; intros [|n] [|m]; simpl; try done.
  - intros [Hc Hs]%andb_true_iff. rewrite Hc. simpl. by apply IH.
  - intros [Hc Hs]%andb_true_iff. by apply IH.
  - intros [Hc Hs]%andb_true_iff. by apply IH.
Qed.

Lemma substring_length n m s : String.length (String.substring n m s) <= m.
Proof.
  revert n m. induction s as [|c s IH]; intros [|n] [|m]; simpl; try lia.
  - specialize (IH 0 m). lia.
  - apply (IH n 0).
  - apply (IH n (S m)).
Qed.

Lemma safe_not_slash c : safe_char c = true -> c ≠ "/"%char.
Proof. intros Hc ->. by vm_compute in Hc. Qed.

Lemma basename_from_safe acc s : string_all safe_char s = true -> basename_from acc s = acc +:+ s.
Proof.
  revert acc. induction s as [|c s IH]; intros acc; simpl; [by rewrite string_app_nil_r|].
  intros [Hc Hs]%andb_true_iff. rewrite decide_False by by apply safe_not_slash.
  rewrite IH by done. by rewrite string_app_assoc.
Qed.

Lemma app_log_ne s : s ≠ "" -> s +:+ ".log" ≠ ".log".
Proof.
  intros Hs Heq. apply (f_equal String.length) in Heq. rewrite string_length_app in Heq.
  destruct s; simpl in *; [done|lia].
Qed.

(** Whatever the run id, the log file name is a plain file name of the
    logs directory: it is built without throwing, contains only letters,
    digits, dots, underscores and hyphens (no separator to escape with), and
    is at most 84 characters long, provided the digest is 12 such
    characters. *)
Theorem resolveSprintLogName_safe sha12 stem :
  (forall s, String.length (sha12 s) = LOG_STEM_HASH_LENGTH /\
             string_all safe_char (sha12 s) = true) ->
  exists name, resolveSprintLogName sha12 stem = Ok name /\
    string_all safe_char name = true /\ basename name = name /\
    String.length name <= MAX_LOG_STEM_LENGTH + 4.
Proof.
  intros Hsha. unfold resolveSprintLogName.
  set (safe := if (MAX_LOG_STEM_LENGTH <? String.length (sanitize stem))%nat then _ else _).
  assert (string_all safe_char safe = true /\ String.length safe <= MAX_LOG_STEM_LENGTH) as [Hs Hl].
  { subst safe. destruct (Nat.ltb_spec MAX_LOG_STEM_LENGTH (String.length (sanitize stem))).
    - destruct (Hsha stem) as [Hlen Hok]. rewrite !string_all_app, !string_length_app, Hlen, Hok.
      rewrite substring_safe by apply sanitize_safe. split; [done|].
      pose proof (substring_length 0 (MAX_LOG_STEM_LENGTH - LOG_STEM_HASH_LENGTH - 1) (sanitize stem)).
      unfold MAX_LOG_STEM_LENGTH, LOG_STEM_HASH_LENGTH in *. simpl in *. lia.
    - split; [apply sanitize_safe|done]. }
  set (base := if nonempty safe then safe else "sprint").
  assert (string_all safe_char base = true /\ base ≠ "" /\
          String.length base <= MAX_LOG_STEM_LENGTH) as (Hb & Hne & Hbl).
  { subst base. destruct (nonempty safe) eqn:Hn; [by apply nonempty_spec in Hn|].
    split; [done|]. split; [done|]. unfold MAX_LOG_STEM_LENGTH. simpl. lia. }
  assert (string_all safe_char (base +:+ ".log") = true) as Hall.
  { rewrite string_all_app, Hb. reflexivity. }
  assert (basename (base +:+ ".log") = base +:+ ".log") as Hbase.
  { by apply (basename_from_safe ""). }
  exists (base +:+ ".log"). rewrite bool_decide_eq_true_2 by done.
  rewrite bool_decide_eq_false_2 by by apply app_log_ne.
  split_and!; [done|done|done|]. rewrite string_length_app.
  change (String.length ".log") with 4. lia.
Qed.

(** ** Concrete runs *)

Lemma resolveSprintLogName_safe_witness :
  exists name, resolveSprintLogName demo_sha "../../etc/passwd" = Ok name /\
    string_all safe_char name = true /\ basename name = name /\
    String.length name <= MAX_LOG_STEM_LENGTH + 4.
Proof.
  apply (resolveSprintLogName_safe demo_sha "../../etc/passwd"). intros s. vm_compute. done.
Defined.

Definition demo_spawned : spawner :=
  (spawnSprint demo_stringify demo_sha "cli.mjs" None None None all_free (demo_os 101) "u1"
     (demo_opts "a") createSpawner).1.

Definition demo_result : spawned :=
  {| sp_pid := 101; sp_port := 8081;
     sp_args := ["cli.mjs"; "--issue"; "a"; "--members"; "m1"; "--branch"; "b"; "--base"; "main";
                 "--viewer-port"; "8081"; "--budget"; "5"; "--run-id"; "run-a"];
     sp_logPath := "run-a.log" |}.

Lemma spawn_leaks_nothing_witness :
  getLiveEntry 101 demo_spawned ≠ None /\ 8081%Z ∉ livePortSet createSpawner /\
  length (children demo_spawned) = 1 /\ length (open_fds demo_spawned) = 1.
Proof.
  apply (spawn_leaks_nothing demo_stringify demo_sha "cli.mjs" None None None all_free
    (demo_os 101) "u1" (demo_opts "a") createSpawner demo_spawned (Ok demo_result)).
  vm_compute. reflexivity.
Defined.

Lemma sequential_launches_distinct_ports_witness :
  NoDup (le_port <$> (live demo_spawned).*2) /\
  open_fds demo_spawned ⊆ c_id <$> children demo_spawned.
Proof.
  apply (sequential_launches_distinct_ports demo_stringify demo_sha "cli.mjs" None None demo_spawned).
  eapply rtc_l; [apply sq_spawn|apply rtc_refl].
Defined.
