(* ===== verification/Reconcile.v ===== *)
(** * Restart reconciliation, force-release and re-adoption

    [createReconciler] and its route ([src/supervisor/reconcile.mjs]),
    [createReadopter] ([readopt.mjs]) and [resolveChildPort]
    ([child-port.mjs]).  The ledger and the history are used through the
    interfaces of [Store]; the spawner is [Spawner]'s. *)

From Stdlib Require Import Ascii.
From S2P Require Import Prelude JsMap JsVal Text AtomicFile Reservation History Store Http.
From S2P Require Import Spawner.
Local Open Scope string_scope.
Local Open Scope list_scope.

(** ** The reconciler *)

Section reconciler.
Context {L H : Type} `{ReservationStore L} `{HistoryStore H}.

(** [probe] is [isPidAlive], [kill] is [killPid] (or the no-op default). *)
Context (probe kill : Z -> bool).

(** How the file operations of one sprint's release and record end. *)
Record sprint_io := { io_release : io_env; io_record : io_env }.

(** [entry.childPid != null && probe(entry.childPid)] *)
Definition entry_alive (r : reservation) : bool :=
  match childPid r with Some p => probe p | None => false end.

Definition restart_reason (r : reservation) : string :=
  match childPid r with
  | None => "no recorded child pid at supervisor restart"
  | Some p => "child pid " +:+ pretty p +:+ " not alive at supervisor restart"
  end.

Definition aborted_entry (now sprintId : string) (r : reservation) : hentry :=
  {| i_sprintId := JStr sprintId; i_event := JStr ABORTED_BY_RESTART;
     i_reason := JStr (restart_reason r); i_by := JUndef;
     i_members := Some (members r); i_issueRoots := Some (issueRoots r); i_at := JStr now;
     i_exitCode := JUndef; i_signal := JUndef; i_logPath := JUndef;
     i_terminalReason := JUndef; i_verdict := JUndef |}.

Record reconciled := { released : list string; retained : list string }.

Fixpoint reconcile_loop (io : string -> sprint_io) (now : string -> string)
    (entries : list (string * reservation)) (out : reconciled) (l : L) (h : H)
    : L * H * result reconciled :=
  match entries with
  | [] => (l, h, Ok out)
  | (s, r) :: entries' =>
      if entry_alive r
      then reconcile_loop io now entries'
             {| released := released out; retained := retained out ++ [s] |} l h
      else match st_release (io_release (io s)) s l with
           | (l', Throw e) => (l', h, Throw e)
           | (l', Ok _) =>
               match hs_record (io_record (io s)) (now s) (aborted_entry (now s) s r) h with
               | (h', Throw e) => (l', h', Throw e)
               | (h', Ok _) =>
                   reconcile_loop io now entries'
                     {| released := released out ++ [s]; retained := retained out |} l' h'
               end
           end
  end.

Definition reconcile (io : string -> sprint_io) (now : string -> string) (l : L) (h : H)
    : L * H * result reconciled :=
  reconcile_loop io now (st_list l) {| released := []; retained := [] |} l h.

(** What [forceRelease] returns besides the recorded event. *)
Record force_audit := {
  fa_event : hevent; fa_childPid : option Z; fa_killed : option bool;
  fa_branch : option string; fa_base : option string; fa_goal : option string
}.

Record audit_input := { au_by : jsval; au_reason : jsval }.

Definition force_entry (now sprintId : string) (a : audit_input) (r : reservation) : hentry :=
  {| i_sprintId := JStr sprintId; i_event := JStr FORCE_RELEASED;
     i_reason := coalesce (au_reason a) (JStr "force-released by operator");
     i_by := coalesce (au_by a) JNull;
     i_members := Some (members r); i_issueRoots := Some (issueRoots r); i_at := JStr now;
     i_exitCode := JUndef; i_signal := JUndef; i_logPath := JUndef;
     i_terminalReason := JUndef; i_verdict := JUndef |}.

(** The signals sent, the stores and the outcome. *)
Definition forceRelease (io : sprint_io) (now : string) (sprintId : jsval) (a : audit_input)
    (l : L) (h : H) : list Z * L * H * result force_audit :=
  match as_nonempty_str sprintId with
  | None => ([], l, h, Throw (TypeErr "forceRelease requires a non-empty sprintId"))
  | Some s =>
      match st_get s l with
      | None => ([], l, h, Throw (SprintNotFound s))
      | Some r =>
          let signals := match childPid r with Some p => [p] | None => [] end in
          let killed := kill <$> childPid r in
          match st_release (io_release io) s l with
          | (l', Throw e) => (signals, l', h, Throw e)
          | (l', Ok _) =>
              match hs_record (io_record io) now (force_entry now s a r) h with
              | (h', Throw e) => (signals, l', h', Throw e)
              | (h', Ok ev) =>
                  (signals, l', h',
                   Ok {| fa_event := ev; fa_childPid := childPid r; fa_killed := killed;
                         fa_branch := branch r; fa_base := base r; fa_goal := goal r |})
              end
          end
      end
  end.

Definition audit_json (f : force_audit) : jsval :=
  JObj ((match event_json (fa_event f) with JObj fs => fs | _ => [] end)
        ++ [("childPid", of_opt jint (fa_childPid f)); ("killed", of_opt JBool (fa_killed f));
            ("branch", of_opt JStr (fa_branch f)); ("base", of_opt JStr (fa_base f));
            ("goal", of_opt JStr (fa_goal f))]).

(** [POST /api/reservations/:sprintId/force-release]; errors other than the
    missing sprint reach the server. *)
Definition route_force_release (io : sprint_io) (now : string) (sprintId : option string)
    (body : jsval) (l : L) (h : H) : L * H * result response :=
  match path_param sprintId with
  | None => (l, h, Ok (sendError 400 "missing sprintId in path"))
  | Some s =>
      let b := body_or_empty body in
      match forceRelease io now (JStr s) {| au_by := prop "by" b; au_reason := prop "reason" b |} l h with
      | (_, l', h', Ok audit) =>
          (l', h', Ok (sendJson 200 [("status", JStr "force-released"); ("sprintId", JStr s);
                                     ("audit", audit_json audit)]))
      | (_, l', h', Throw (SprintNotFound s')) =>
          (l', h', Ok (sendError 404 (err_message (SprintNotFound s'))))
      | (_, l', h', Throw e) => (l', h', Throw e)
      end
  end.

(** ** Re-adoption *)

(** [\s] and ['=']. *)
Definition sep_char (c : ascii) : bool :=
  bool_decide (N_of_ascii c ∈ [9; 10; 11; 12; 13; 32]%N) || bool_decide (c = "="%char).

(** [/--viewer-port[\s=]+(\d+)/] anchored at the start of [s]: the digits.
    Both repetitions are greedy over disjoint classes, so no backtracking can
    change the match. *)
Definition viewer_port_here (s : string) : option string :=
  rest ← strip_prefix "--viewer-port" s;
  let '(sep, rest) := span sep_char rest in
  if nonempty sep
  then let '(ds, _) := span digit_char rest in if nonempty ds then Some ds else None
  else None.

(** The leftmost match. *)
Fixpoint viewer_port_match (s : string) : option string :=
  match viewer_port_here s with
  | Some ds => Some ds
  | None => match s with EmptyString => None | String _ s' => viewer_port_match s' end
  end.

Definition parseViewerPortFromCmdline (cmdline : option string) : option Z :=
  match cmdline with
  | None => None
  | Some s =>
      match viewer_port_match s with
      | None => None
      | Some ds =>
          let port := Z.of_N (digits_value 0 ds) in
          if (0 <? port)%Z && (port <=? MAX_PORT)%Z then Some port else None
      end
  end.

Record adopted := { ad_sprintId : string; ad_childPid : Z; ad_port : Z }.

Record readoption := {
  ra_released : list string; ra_retained : list string;
  ra_adopted : list adopted; ra_unresolved : list string
}.

Fixpoint readopt_loop (readCmdline : Z -> option string) (l : L) (sprints : list string)
    (ads : list adopted) (unres : list string) (sp : spawner)
    : spawner * result (list adopted * list string) :=
  match sprints with
  | [] => (sp, Ok (ads, unres))
  | s :: sprints' =>
      match st_get s l ≫= childPid with
      | None => readopt_loop readCmdline l sprints' ads (unres ++ [s]) sp
      | Some pid =>
          match parseViewerPortFromCmdline (readCmdline pid) with
          | None => readopt_loop readCmdline l sprints' ads (unres ++ [s]) sp
          | Some port =>
              match adopt pid port sp with
              | (sp', Throw e) => (sp', Throw e)
              | (sp', Ok _) =>
                  readopt_loop readCmdline l sprints'
                    (ads ++ [{| ad_sprintId := s; ad_childPid := pid; ad_port := port |}]) unres sp'
              end
          end
      end
  end.

Definition readopt (io : string -> sprint_io) (now : string -> string)
    (readCmdline : Z -> option string) (l : L) (h : H) (sp : spawner)
    : L * H * spawner * result readoption :=
  match reconcile io now l h with
  | (l', h', Throw e) => (l', h', sp, Throw e)
  | (l', h', Ok out) =>
      match readopt_loop readCmdline l' (retained out) [] [] sp with
      | (sp', Throw e) => (l', h', sp', Throw e)
      | (sp', Ok (ads, unres)) =>
          (l', h', sp', Ok {| ra_released := released out; ra_retained := retained out;
                              ra_adopted := ads; ra_unresolved := unres |})
      end
  end.

(** ** The child's viewer port *)

Definition resolveChildPort (l : L) (sp : spawner) (sprintId : string) : option Z :=
  pid ← st_get sprintId l ≫= childPid;
  e ← getLiveEntry pid sp;
  Some (le_port e).
End reconciler.
