(* ===== verification/ReconcileProps.v ===== *)
(** * What reconciliation, force-release and re-adoption guarantee

    The theorems are proved against the store interfaces and instantiated at
    the ledger and the history in the witnesses. *)

From Stdlib Require Import Ascii.
From S2P Require Import Prelude JsMap JsVal Text AtomicFile Reservation Ledger LedgerProps.
From S2P Require Import History Store Http Process Spawner SpawnerProps Reconcile.
Local Open Scope string_scope.
Local Open Scope list_scope.

Section reconcile_props.
Context {L H : Type} `{HL : ReservationStore L} `{HH : HistoryStore H} (inv : L -> Prop).
Context `{!ReservationStoreLaws L inv, !HistoryStoreLaws H}.
Context (probe : Z -> bool).

Definition is_dead (e : string * reservation) : Prop := entry_alive probe e.2 = false.
Definition is_alive (e : string * reservation) : Prop := ~ is_dead e.

#[global] Instance is_dead_dec e : Decision (is_dead e) := bool_eq_dec _ _.
#[global] Instance is_alive_dec e : Decision (is_alive e) := not_dec _.

(** The event recorded for a dead entry. *)
Definition aborted_event (now : string -> string) (e : string * reservation) (ev : hevent) : Prop :=
  stored_event (now e.1) (aborted_entry (now e.1) e.1 e.2) = Ok ev.

Lemma filter_dead_cons s r es :
  filter is_dead ((s, r) :: es)
    = if entry_alive probe r then filter is_dead es else (s, r) :: filter is_dead es.
Proof.
  rewrite filter_cons. case_decide as Hd; unfold is_dead in Hd; simpl in Hd.
  - by rewrite Hd.
  - by destruct (entry_alive probe r).
Qed.

Lemma filter_alive_cons s r es :
  filter is_alive ((s, r) :: es)
    = if entry_alive probe r then (s, r) :: filter is_alive es else filter is_alive es.
Proof.
  rewrite filter_cons. case_decide as Hd; unfold is_alive, is_dead in Hd; simpl in Hd;
    destruct (entry_alive probe r); naive_solver.
Qed.

(** The loop: it releases the dead entries from the front, one event each, and
    stops at the first failure. *)
Lemma reconcile_loop_spec io now es out l h l' h' r :
  inv l -> reconcile_loop probe io now es out l h = (l', h', r) ->
  inv l' /\
  exists ks evs, st_list l' = jdel_all ks (st_list l) /\ hs_events h' = hs_events h ++ evs /\
    match r with
    | Ok out' => ks = (filter is_dead es).*1 /\ Forall2 (aborted_event now) (filter is_dead es) evs /\
        released out' = released out ++ ks /\
        retained out' = retained out ++ (filter is_alive es).*1
    | Throw _ => ks `prefix_of` (filter is_dead es).*1 /\
        length evs <= length ks <= S (length evs)
    end.
Proof.
  revert out l h. induction es as [|[s r0] es IH]; intros out l h Hinv Hr; cbn [reconcile_loop] in Hr.
  - injection Hr as <- <- <-. split; [done|]. exists [], [].
    rewrite jdel_all_nil, !app_nil_r. split_and!; done || constructor.
  - rewrite filter_dead_cons, filter_alive_cons. destruct (entry_alive probe r0) eqn:Ha.
    + destruct (IH _ _ _ Hinv Hr) as (Hi & ks & evs & Hl & Hh & Hres).
      split; [done|]. exists ks, evs. split; [done|]. split; [done|].
      destruct r as [out'|]; [|done]. destruct Hres as (-> & ? & Hrel & Hret).
      split_and!; [done|done|done|]. rewrite Hret. simpl. by rewrite <-app_assoc.
    + destruct (st_release (io_release (io s)) s l) as [l1 [b|e]] eqn:Hrel.
      * destruct (st_release_Ok _ _ _ _ _ Hinv Hrel) as (Hi1 & Hl1 & _).
        destruct (hs_record _ _ _ _) as [h1 [ev|e]] eqn:Hrec.
        -- destruct (hs_record_Ok _ _ _ _ _ _ Hrec) as [Hst Hev].
           destruct (IH _ _ _ Hi1 Hr) as (Hi & ks & evs & Hl & Hh & Hres).
           split; [done|]. exists (s :: ks), (ev :: evs).
           rewrite jdel_all_cons, <-Hl1. split; [done|]. rewrite Hh, Hev, <-app_assoc.
           split; [done|]. destruct r as [out'|e].
           ++ destruct Hres as (-> & ? & Hrl & Hret). split_and!; [done|by constructor| |done].
              rewrite Hrl. simpl. by rewrite <-app_assoc.
           ++ destruct Hres as [Hp ?]. split; [by apply prefix_cons|simpl; lia].
        -- injection Hr as <- <- <-. split; [done|]. exists [s], [].
           rewrite jdel_all_cons, jdel_all_nil, app_nil_r.
           split; [done|]. split; [by eapply hs_record_Throw|].
           split; [|simpl; lia]. simpl. apply prefix_cons, prefix_nil.
      * injection Hr as <- <- <-. destruct (st_release_Throw _ _ _ _ _ Hinv Hrel) as [Hi1 Hl1].
        split; [done|]. exists [], []. rewrite jdel_all_nil, app_nil_r.
        split_and!; [done|done|apply prefix_nil|simpl; lia..].
Qed.

(** C19: Restart reconciliation releases exactly the reservations whose child
    is dead (or has no recorded pid), both axes at once, keeps every live one,
    and appends one aborted-by-restart event per released sprint, in ledger
    order, carrying the released members and issue roots. *)
Theorem reconcile_releases_exactly_dead io now l h l' h' out :
  inv l -> reconcile probe io now l h = (l', h', Ok out) ->
  inv l' /\ st_list l' = filter is_alive (st_list l) /\
  released out = (filter is_dead (st_list l)).*1 /\
  retained out = (st_list l').*1 /\
  exists evs, hs_events h' = hs_events h ++ evs /\
    Forall2 (aborted_event now) (filter is_dead (st_list l)) evs.
Proof.
  intros Hinv Hr. destruct (reconcile_loop_spec _ _ _ _ _ _ _ _ _ Hinv Hr)
    as (Hi & ks & evs & Hl & Hh & -> & Hf & Hrel & Hret).
  rewrite jdel_all_filter in Hl by by apply st_list_wf. rewrite Hl.
  split_and!; try done. by exists evs.
Qed.

(** Whatever fails during reconciliation, a sprint whose child is alive
    keeps its reservation. *)
Theorem reconcile_never_releases_live io now l h l' h' r s x :
  inv l -> reconcile probe io now l h = (l', h', r) ->
  jget s (st_list l) = Some x -> entry_alive probe x = true ->
  jget s (st_list l') = Some x.
Proof.
  intros Hinv Hr Hs Ha. destruct (reconcile_loop_spec _ _ _ _ _ _ _ _ _ Hinv Hr)
    as (_ & ks & evs & Hl & _ & Hks).
  rewrite Hl, jget_jdel_all; [done|]. intros Hin.
  assert (s ∈ (filter is_dead (st_list l)).*1) as Hd.
  { destruct r as [out|e]; [by destruct Hks as [<- _]|].
    destruct Hks as [[ks' Hpre] _]. rewrite Hpre. set_solver. }
  apply list_elem_of_fmap in Hd as ([s' x'] & -> & [Hd Hin']%list_elem_of_filter).
  apply jget_elem in Hin'; [|by apply st_list_wf]. simpl in *. simplify_eq.
  unfold is_dead in Hd. simpl in Hd. congruence.
Qed.

Lemma aborted_stored now s r : s ≠ "" -> is_Some (match stored_event now (aborted_entry now s r) with
                                                  | Ok e => Some e | Throw _ => None end).
Proof. intros Hs%nonempty_spec. unfold stored_event. simpl. rewrite Hs. simpl. eauto. Qed.

Lemma reconcile_loop_io_ok io now es out l h :
  inv l -> Forall (fun e => e.1 ≠ "") es ->
  (forall s, io s = {| io_release := io_ok; io_record := io_ok |}) ->
  exists l' h' out', reconcile_loop probe io now es out l h = (l', h', Ok out').
Proof.
  intros Hinv Hne Hio. revert out l h Hinv. induction Hne as [|[s r] es Hs _ IH];
    intros out l h Hinv; cbn [reconcile_loop]; [eauto|].
  destruct (entry_alive probe r); [by apply IH|]. rewrite Hio. simpl in *.
  destruct (st_release_io_ok s l Hs) as (l1 & b & Hrel). rewrite Hrel.
  destruct (st_release_Ok _ _ _ _ _ Hinv Hrel) as (Hi1 & _).
  destruct (aborted_stored (now s) s r Hs) as [e He].
  destruct (stored_event _ _) as [e'|] eqn:Hst; [|done].
  destruct (hs_record_io_ok _ _ h _ Hst) as [h1 Hrec]. rewrite Hrec. by apply IH.
Qed.

(** When the file system works, reconciliation finishes, and running it
    again with the same processes alive releases nothing more. *)
Theorem reconcile_converges now l h :
  inv l ->
  let io := fun _ : string => {| io_release := io_ok; io_record := io_ok |} in
  exists l1 h1 out1, reconcile probe io now l h = (l1, h1, Ok out1) /\
  exists out2, reconcile probe io now l1 h1 = (l1, h1, Ok out2) /\
    released out2 = [] /\ retained out2 = retained out1.
Proof.
  intros Hinv io.
  assert (Forall (fun e => e.1 ≠ "") (st_list l)) as Hne.
  { apply Forall_forall. intros [s r] Hin. apply jget_elem in Hin; [|by apply st_list_wf].
    by eapply st_keys. }
  destruct (reconcile_loop_io_ok io now (st_list l) {| released := []; retained := [] |} l h Hinv Hne)
    as (l1 & h1 & out1 & Hr); [done|].
  exists l1, h1, out1. split; [done|].
  destruct (reconcile_loop_spec _ _ _ _ _ _ _ _ _ Hinv Hr)
    as (Hi & ks & evs & Hl & _ & -> & _ & _ & Hret).
  rewrite jdel_all_filter in Hl by by apply st_list_wf.
  unfold reconcile. rewrite Hl, Hret.
  assert (Hskip : forall es out (l0 : L) (h0 : H), Forall is_alive es ->
    reconcile_loop probe io now es out l0 h0
      = (l0, h0, Ok {| released := released out; retained := retained out ++ es.*1 |})).
  { induction es as [|[s r] es IH]; intros out l0 h0 Hal; simpl.
    - rewrite app_nil_r. by destruct out.
    - apply Forall_cons in Hal as [Ha Hal]. unfold is_alive, is_dead in Ha. simpl in Ha.
      destruct (entry_alive probe r); [|done]. rewrite IH by done. simpl. by rewrite <-app_assoc. }
  eexists. split; [apply Hskip|done]. apply Forall_forall. by intros e [? _]%list_elem_of_filter.
Qed.

(** ** Force-release *)

(** Force-release of a reserved sprint removes that reservation and no
    other, signals exactly its recorded child, appends exactly one
    force-released event with both axes, and returns the branch, base and goal
    a relaunch needs; for a sprint without a reservation it throws the
    not-found error, sends no signal and changes nothing. *)
Theorem forceRelease_spec (kill : Z -> bool) io now s a l h signals l' h' r :
  inv l -> forceRelease kill io now (JStr s) a l h = (signals, l', h', r) ->
  match jget s (st_list l), r with
  | None, Throw e => l' = l /\ h' = h /\ signals = [] /\
                     (e = SprintNotFound s \/ s = "" /\ e = TypeErr "forceRelease requires a non-empty sprintId")
  | None, Ok _ => False
  | Some x, Ok f =>
      signals = (match childPid x with Some p => [p] | None => [] end) /\
      st_list l' = jdel s (st_list l) /\
      hs_events h' = hs_events h ++ [fa_event f] /\
      stored_event now (force_entry now s a x) = Ok (fa_event f) /\
      fa_childPid f = childPid x /\ fa_killed f = kill <$> childPid x /\
      fa_branch f = branch x /\ fa_base f = base x /\ fa_goal f = goal x
  | Some x, Throw _ =>
      signals = (match childPid x with Some p => [p] | None => [] end) /\
      hs_events h' = hs_events h /\
      (st_list l' = st_list l \/ st_list l' = jdel s (st_list l))
  end.
Proof.
  intros Hinv. unfold forceRelease. simpl. destruct (nonempty s) eqn:Hn.
  2:{ intros [= <- <- <- <-]. apply nonempty_false in Hn. subst s.
      destruct (jget "" (st_list l)) as [x|] eqn:Hg; [|by split_and!; auto].
      by destruct (st_keys l "" x Hinv Hg). }
  rewrite (st_get_list (inv := inv)) by done.
  destruct (jget s (st_list l)) as [x|] eqn:Hg; [|intros [= <- <- <- <-]; by split_and!; auto].
  destruct (st_release (io_release io) s l) as [l1 [b|e]] eqn:Hrel.
  - destruct (st_release_Ok _ _ _ _ _ Hinv Hrel) as (_ & Hl1 & _).
    destruct (hs_record _ _ _ _) as [h1 [ev|e]] eqn:Hrec; intros [= <- <- <- <-]; simpl.
    + destruct (hs_record_Ok _ _ _ _ _ _ Hrec) as [Hst Hev]. done.
    + split; [done|]. split; [by eapply hs_record_Throw|]. by right.
  - intros [= <- <- <- <-]. destruct (st_release_Throw _ _ _ _ _ Hinv Hrel) as [_ Hl1].
    auto.
Qed.

(** ** Re-adoption *)

Lemma parseViewerPort_range cmd p :
  parseViewerPortFromCmdline cmd = Some p -> (0 < p <= MAX_PORT)%Z.
Proof.
  unfold parseViewerPortFromCmdline. destruct cmd as [s|]; [|done].
  destruct (viewer_port_match s) as [ds|]; [|done].
  destruct (0 <? Z.of_N (digits_value 0 ds))%Z eqn:H1; [|done].
  destruct (Z.of_N (digits_value 0 ds) <=? MAX_PORT)%Z eqn:H2; [|done].
  intros [= <-]. apply Z.ltb_lt in H1. apply Z.leb_le in H2. done.
Qed.

Lemma readopt_loop_spec readCmdline (l : L) sprints ads unres sp :
  (forall s r, st_get s l = Some r -> forall p, childPid r = Some p -> s ∈ sprints -> (0 < p)%Z) ->
  exists sp' ads' unres', readopt_loop readCmdline l sprints ads unres sp = (sp', Ok (ads', unres')) /\
    (ad_sprintId <$> ads') ++ unres' ≡ₚ (ad_sprintId <$> ads) ++ unres ++ sprints /\
    (forall pid e, getLiveEntry pid sp = Some e -> is_Some (getLiveEntry pid sp')) /\
    Forall (fun a => is_Some (getLiveEntry (ad_childPid a) sp') \/ a ∈ ads) ads'.
Proof.
  revert ads unres sp. induction sprints as [|s sprints IH]; intros ads unres sp Hpos; simpl.
  { exists sp, ads, unres. rewrite app_nil_r. split_and!; [done|done|by eauto|].
    apply Forall_forall. auto. }
  assert (Hpos' : forall s' r, st_get s' l = Some r -> forall p, childPid r = Some p ->
            s' ∈ sprints -> (0 < p)%Z) by (intros; eapply Hpos; [done|done|set_solver]).
  destruct (st_get s l ≫= childPid) as [pid|] eqn:Hg;
    [destruct (parseViewerPortFromCmdline (readCmdline pid)) as [port|] eqn:Hp|].
  - apply bind_Some in Hg as (r & Hr & Hpid). pose proof (parseViewerPort_range _ _ Hp) as Hrange.
    assert (0 < pid)%Z by (eapply Hpos; [done|done|set_solver]).
    unfold adopt. rewrite (proj2 (Z.leb_gt pid 0)) by lia.
    rewrite (proj2 (Z.leb_gt port 0)), (proj2 (Z.ltb_ge MAX_PORT port)) by lia. simpl.
    set (sp1 := {| live := _; children := _; open_fds := _; next_fd := _; reports := _ |}).
    set (a0 := {| ad_sprintId := s; ad_childPid := pid; ad_port := port |}).
    destruct (IH (ads ++ [a0]) unres sp1 Hpos') as (sp' & ads' & unres' & -> & Hperm & Hlive & Hall).
    exists sp', ads', unres'. split; [done|]. split; [|split].
    + rewrite Hperm, fmap_app. simpl. by solve_Permutation.
    + intros pid' e He. unfold getLiveEntry in *. destruct (decide (pid = pid')) as [->|Hne].
      * eapply Hlive. subst sp1. simpl. apply jget_jset_eq.
      * eapply Hlive. subst sp1. simpl. rewrite jget_jset_ne; done.
    + eapply Forall_impl; [exact Hall|]. simpl. intros a [?|Hin]; [by left|].
      apply elem_of_app in Hin as [?|Hin]; [by right|]. apply list_elem_of_singleton in Hin as ->.
      left. simpl. eapply Hlive. subst sp1. unfold getLiveEntry. simpl. apply jget_jset_eq.
  - destruct (IH ads (unres ++ [s]) sp Hpos') as (sp' & ads' & unres' & -> & Hperm & ? & ?).
    exists sp', ads', unres'. split; [done|]. split; [|done].
    rewrite Hperm. by rewrite <-(assoc_L (++) unres).
  - destruct (IH ads (unres ++ [s]) sp Hpos') as (sp' & ads' & unres' & -> & Hperm & ? & ?).
    exists sp', ads', unres'. split; [done|]. split; [|done].
    rewrite Hperm. by rewrite <-(assoc_L (++) unres).
Qed.

(** Re-adoption never fails after reconciliation succeeded, whatever the
    processes' command lines say: every retained sprint is reported either as
    adopted, and then its pid is live in the spawner (so its port resolves), or
    as unresolved. The probe accepts positive pids only, as [isPidAlive] does. *)
Theorem readopt_total io now readCmdline l h sp l' h' out :
  (forall p, probe p = true -> (0 < p)%Z) -> inv l ->
  reconcile probe io now l h = (l', h', Ok out) ->
  exists sp' res, readopt probe io now readCmdline l h sp = (l', h', sp', Ok res) /\
    ra_released res = released out /\ ra_retained res = retained out /\
    (ad_sprintId <$> ra_adopted res) ++ ra_unresolved res ≡ₚ retained out /\
    Forall (fun a => is_Some (getLiveEntry (ad_childPid a) sp')) (ra_adopted res).
Proof.
  intros Hprobe Hinv Hr. unfold readopt. rewrite Hr.
  destruct (reconcile_loop_spec _ _ _ _ _ _ _ _ _ Hinv Hr)
    as (Hi & ks & evs & Hl & _ & -> & _ & _ & Hret).
  destruct (readopt_loop_spec readCmdline l' (retained out) [] [] sp)
    as (sp' & ads & unres & -> & Hperm & _ & Hall).
  - intros s r Hs p Hp Hin. apply Hprobe. rewrite Hret in Hin. simpl in Hin.
    apply list_elem_of_fmap in Hin as ([s' r'] & -> & [Ha Hin']%list_elem_of_filter).
    rewrite (st_get_list (inv := inv)), Hl, jdel_all_filter in Hs by (done || by apply st_list_wf).
    apply jget_Some_elem, list_elem_of_filter in Hs as [_ Hs].
    apply jget_elem in Hin', Hs; [|by apply st_list_wf..]. simpl in *. simplify_eq.
    unfold is_alive, is_dead, entry_alive in Ha. simpl in Ha. rewrite Hp in Ha.
    by destruct (probe p).
  - eexists sp', _. split; [done|]. simpl. split_and!; [done|done|done|].
    eapply Forall_impl; [exact Hall|]. simpl. intros a [?|Hin]; [done|set_solver].
Qed.
End reconcile_props.

(** ** Reading the viewer port back *)

(** The flag does not occur at any position of [pre] in front of [tail]. *)
Fixpoint no_flag_before (pre tail : string) : bool :=
  match pre with
  | EmptyString => true
  | String _ pre' =>
      bool_decide (viewer_port_here (pre +:+ tail) = None) && no_flag_before pre' tail
  end.

Lemma viewer_port_skip pre tail :
  no_flag_before pre tail = true -> viewer_port_match (pre +:+ tail) = viewer_port_match tail.
Proof.
  induction pre as [|c pre IH]; [done|]. cbn [no_flag_before].
  intros [Hn%bool_decide_eq_true Hp]%andb_true_iff.
  change (String c pre +:+ tail) with (String c (pre +:+ tail)) in *.
  cbn [viewer_port_match]. rewrite Hn. by apply IH.
Qed.

Lemma viewer_port_here_flag port rest :
  (0 < port)%Z -> (forall c s, rest = String c s -> digit_char c = false) ->
  viewer_port_here ("--viewer-port " +:+ pretty port +:+ rest) = Some (pretty port).
Proof.
  intros Hp Hrest. destruct (pretty_pos_digits port Hp) as (Hd & _ & Hne).
  unfold viewer_port_here.
  change ("--viewer-port " +:+ pretty port +:+ rest)
    with ("--viewer-port" +:+ (String " "%char "" +:+ pretty port +:+ rest)).
  rewrite strip_prefix_app. cbn [mbind option_bind].
  rewrite (span_all sep_char (String " "%char "")); [|done|].
  - change (nonempty (String " "%char "")) with true. cbn [mbind].
    rewrite span_all by done. by rewrite (proj2 (nonempty_spec _) Hne).
  - intros c s Hs. destruct (pretty port) as [|d ds]; [done|]. injection Hs as <- _.
    simpl in Hd. apply andb_true_iff in Hd as [Hd _]. destruct (sep_char d) eqn:Hsep; [|done].
    unfold sep_char in Hsep. apply orb_true_iff in Hsep as [Hc%bool_decide_eq_true|Hc%bool_decide_eq_true].
    + unfold digit_char, in_range in Hd. apply andb_true_iff in Hd as [Hlo _]. apply N.leb_le in Hlo.
      change (N_of_ascii "0") with 48%N in Hlo. exfalso.
      repeat (apply elem_of_cons in Hc as [Hc|Hc]; [lia|]). by apply elem_of_nil in Hc.
    + by subst d.
Qed.

(** The port a child was started with is recovered from its command line:
    whatever precedes the flag (without matching it) and whatever follows the
    number (as long as it is not a digit), parsing gives back the port. *)
Theorem viewer_port_roundtrip pre port rest :
  (0 < port <= MAX_PORT)%Z -> (forall c s, rest = String c s -> digit_char c = false) ->
  no_flag_before pre ("--viewer-port " +:+ pretty port +:+ rest) = true ->
  parseViewerPortFromCmdline (Some (pre +:+ "--viewer-port " +:+ pretty port +:+ rest)) = Some port.
Proof.
  intros Hp Hrest Hpre. unfold parseViewerPortFromCmdline.
  rewrite viewer_port_skip by done.
  assert (viewer_port_match ("--viewer-port " +:+ pretty port +:+ rest) = Some (pretty port)) as ->.
  { pose proof (viewer_port_here_flag port rest ltac:(lia) Hrest) as Hh.
    change ("--viewer-port " +:+ pretty port +:+ rest)
      with (String "-"%char ("-viewer-port " +:+ pretty port +:+ rest)) in *.
    cbn [viewer_port_match]. by rewrite Hh. }
  destruct (pretty_pos_digits port ltac:(lia)) as (_ & -> & _).
  rewrite Z2N.id by lia. rewrite (proj2 (Z.ltb_lt 0 port)), (proj2 (Z.leb_le port MAX_PORT)) by lia.
  done.
Qed.

(** A pid the operating system answers for, with success or with "not
    permitted", is alive; anything else (no such process, another error, a
    non-positive or non-integer pid) is dead; and a kill counts as done when
    it was delivered or the process was already gone. *)
Theorem pid_probe_and_kill kill0 kill pid :
  (isPidAlive kill0 pid = true <->
     exists p, pid = jint p /\ (0 < p)%Z /\
               (kill0 p = None \/ exists msg, kill0 p = Some (CodedErr "EPERM" msg))) /\
  (killPid kill pid = true <->
     exists p, pid = jint p /\ (0 < p)%Z /\
               (kill p = None \/ exists msg, kill p = Some (CodedErr "ESRCH" msg))).
Proof.
  assert (Hpp : forall f code,
    match positive_pid pid with
    | None => false
    | Some p => match f p with None => true | Some e => has_code code e end
    end = true <-> exists p, pid = jint p /\ (0 < p)%Z /\
               (f p = None \/ exists msg, f p = Some (CodedErr code msg))).
  { intros f code. unfold positive_pid. destruct pid as [| | |[p|?| |]| | |]; simpl;
      try (split; [done|intros (p0 & ? & _); done]).
    destruct (Z.ltb_spec 0 p) as [Hp|Hp].
    - destruct (f p) as [e|] eqn:Hf.
      + split.
        * destruct e; try done. simpl. intros ->%bool_decide_eq_true. exists p. eauto 6.
        * intros (p0 & [= <-] & _ & [?|[msg Hm]]); [congruence|]. rewrite Hf in Hm.
          injection Hm as ->. simpl. by rewrite bool_decide_eq_true.
      + split; [|done]. intros _. exists p. auto.
    - split; [done|]. intros (p0 & [= <-] & ? & _). lia. }
  split; apply Hpp.
Qed.

(** ** Concrete runs, on the ledger and the history *)

Definition claim_of (m root : string) (p : Z) : jsval :=
  JObj [("members", jstrs [m]); ("issueRoots", jstrs [root]); ("childPid", jint p);
        ("branch", JStr "feat/x")].

(** [s1]'s child 4242 is alive, [s2]'s child 7 is dead. *)
Definition two_sprints : ledger :=
  (run_op demo_cfg io_ok (OpClaim "t1" "s2" (claim_of "bob" "r2" 7))
    (run_op demo_cfg io_ok (OpClaim "t0" "s1" (claim_of "alice" "r1" 4242))
      (createLedger no_files)).1).1.

Lemma two_sprints_inv : ledger_inv two_sprints.
Proof. apply run_op_inv, run_op_inv, ledger_inv_init. Qed.

Definition only_4242 (p : Z) : bool := bool_decide (p = 4242%Z).
Definition io_all_ok (s : string) : sprint_io := {| io_release := io_ok; io_record := io_ok |}.
Definition noon (s : string) : string := "noon".
Definition empty_history : history := createHistory no_files.

#[local] Instance demo_store : ReservationStore ledger := ledger_store demo_cfg.
#[local] Instance demo_laws : ReservationStoreLaws ledger ledger_inv := ledger_store_laws demo_cfg.
#[local] Instance demo_hist : HistoryStore history := history_store RenameRetry.no_opts.
#[local] Instance demo_hist_laws : HistoryStoreLaws history := history_store_laws RenameRetry.no_opts.

Definition demo_reconciled := reconcile only_4242 io_all_ok noon two_sprints empty_history.

Lemma reconcile_releases_exactly_dead_witness :
  (st_list demo_reconciled.1.1).*1 = ["s1"] /\
  st_list demo_reconciled.1.1 = filter (is_alive only_4242) (st_list two_sprints).
Proof.
  split; [vm_compute; reflexivity|].
  apply (reconcile_releases_exactly_dead ledger_inv only_4242 io_all_ok noon two_sprints
    empty_history demo_reconciled.1.1 demo_reconciled.1.2
    {| released := ["s2"]; retained := ["s1"] |}).
  - apply two_sprints_inv.
  - vm_compute. reflexivity.
Defined.

(** The release of [s2] fails on its rename. *)
Definition io_fails (s : string) : sprint_io :=
  {| io_release := io_rename_fails; io_record := io_ok |}.
Definition alice_reservation : reservation :=
  {| members := ["alice"]; issueRoots := ["r1"]; childPid := Some 4242%Z; reservedAt := "t0";
     branch := Some "feat/x"; base := None; goal := None; exitCode := None; signal := None;
     exitedAt := None; logPath := None; beads := None |}.

Lemma reconcile_never_releases_live_witness :
  jget "s1" (st_list (reconcile only_4242 io_fails noon two_sprints empty_history).1.1)
    = Some alice_reservation.
Proof.
  apply (reconcile_never_releases_live ledger_inv only_4242 io_fails noon two_sprints
    empty_history (reconcile only_4242 io_fails noon two_sprints empty_history).1.1
    (reconcile only_4242 io_fails noon two_sprints empty_history).1.2
    (Throw (CodedErr "EPERM" "locked"))).
  - apply two_sprints_inv.
  - vm_compute. reflexivity.
  - vm_compute. reflexivity.
  - vm_compute. reflexivity.
Defined.

Lemma reconcile_converges_witness :
  exists l1 h1 out1, reconcile only_4242 io_all_ok noon two_sprints empty_history = (l1, h1, Ok out1) /\
  exists out2, reconcile only_4242 io_all_ok noon l1 h1 = (l1, h1, Ok out2) /\
    released out2 = [] /\ retained out2 = retained out1.
Proof.
  apply (reconcile_converges ledger_inv only_4242 noon two_sprints empty_history two_sprints_inv).
Defined.

Definition demo_force :=
  forceRelease (fun _ => true) (io_all_ok "s2") "noon" (JStr "s2")
    {| au_by := JStr "ops"; au_reason := JUndef |} two_sprints empty_history.

Definition bob_reservation : reservation :=
  {| members := ["bob"]; issueRoots := ["r2"]; childPid := Some 7%Z; reservedAt := "t1";
     branch := Some "feat/x"; base := None; goal := None; exitCode := None; signal := None;
     exitedAt := None; logPath := None; beads := None |}.
Definition demo_force_audit : force_audit :=
  {| fa_event :=
       {| e_sprintId := "s2"; e_event := "force-released";
          e_reason := JStr "force-released by operator"; e_by := JStr "ops"; e_members := ["bob"];
          e_issueRoots := ["r2"]; e_at := "noon"; e_exitCode := JNull; e_signal := JNull;
          e_logPath := JNull; e_terminalReason := JNull; e_verdict := JNull |};
     fa_childPid := Some 7%Z; fa_killed := Some true; fa_branch := Some "feat/x";
     fa_base := None; fa_goal := None |}.

Lemma forceRelease_spec_witness :
  [7%Z] = (match childPid bob_reservation with Some p => [p] | None => [] end) /\
  st_list demo_force.1.1.2 = jdel "s2" (st_list two_sprints) /\
  hs_events demo_force.1.2 = hs_events empty_history ++ [fa_event demo_force_audit] /\
  stored_event "noon" (force_entry "noon" "s2" {| au_by := JStr "ops"; au_reason := JUndef |}
    bob_reservation) = Ok (fa_event demo_force_audit) /\
  Some 7%Z = Some 7%Z /\ Some true = Some true /\ Some "feat/x" = Some "feat/x" /\
  @None string = None /\ @None string = None.
Proof.
  assert (jget "s2" (st_list two_sprints) = Some bob_reservation) as Hj by (vm_compute; reflexivity).
  pose proof (forceRelease_spec ledger_inv (fun _ => true) (io_all_ok "s2") "noon" "s2"
    {| au_by := JStr "ops"; au_reason := JUndef |} two_sprints empty_history
    [7%Z] demo_force.1.1.2 demo_force.1.2 (Ok demo_force_audit) two_sprints_inv) as Hf.
  rewrite Hj in Hf. apply Hf. vm_compute. reflexivity.
Defined.

Definition cmdline_of (p : Z) : option string :=
  Some "node cli.mjs --issue r1 --viewer-port 8085 --base main".

Lemma readopt_total_witness :
  exists sp' res, readopt only_4242 io_all_ok noon cmdline_of two_sprints empty_history createSpawner
      = (demo_reconciled.1.1, demo_reconciled.1.2, sp', Ok res) /\
    ra_released res = ["s2"] /\ ra_retained res = ["s1"] /\
    (ad_sprintId <$> ra_adopted res) ++ ra_unresolved res ≡ₚ ["s1"] /\
    Forall (fun a => is_Some (getLiveEntry (ad_childPid a) sp')) (ra_adopted res).
Proof.
  apply (readopt_total ledger_inv only_4242 io_all_ok noon cmdline_of two_sprints empty_history
    createSpawner demo_reconciled.1.1 demo_reconciled.1.2
    {| released := ["s2"]; retained := ["s1"] |}).
  - intros p Hp. unfold only_4242 in Hp. apply bool_decide_eq_true in Hp. lia.
  - apply two_sprints_inv.
  - vm_compute. reflexivity.
Defined.

Lemma viewer_port_roundtrip_witness :
  parseViewerPortFromCmdline (Some "cli.mjs --issue a --viewer-port 8085 --goal g") = Some 8085%Z.
Proof.
  apply (viewer_port_roundtrip "cli.mjs --issue a " 8085 " --goal g").
  - unfold MAX_PORT. lia.
  - intros c s [= <- _]. vm_compute. reflexivity.
  - vm_compute. reflexivity.
Defined.
