(* ===== verification/SprintArgs.v ===== *)
(** * Validators of the argument contract ([fleet-sprint/sprint-args.mjs])

    The issue-id and branch patterns every entry point checks before an id or
    a branch can reach a command line, and the rule that a sprint's branch is
    not its base branch. *)

From Stdlib Require Import Ascii.
From S2P Require Import Prelude JsMap JsVal Text.
Local Open Scope string_scope.
Local Open Scope list_scope.

(** [/^[A-Za-z0-9._-]+$/]; the pattern has no [m] flag, so [$] is the end. *)
Definition ISSUE_ID_PATTERN (s : string) : bool := nonempty s && string_all safe_char s.

(** [/^[A-Za-z0-9._/-]+$/] *)
Definition branch_char (c : ascii) : bool := safe_char c || bool_decide (c = "/"%char).
Definition BRANCH_NAME_PATTERN (s : string) : bool := nonempty s && string_all branch_char s.

Definition validateIssueId (id : jsval) : result string :=
  match as_nonempty_str id with
  | Some s => if ISSUE_ID_PATTERN s then Ok s else Throw (PlainErr "[Arg Contract] Invalid issue id")
  | None => Throw (PlainErr "[Arg Contract] Invalid issue id")
  end.

Definition validateBranchName (name : jsval) (label : string) : result string :=
  match as_nonempty_str name with
  | Some s => if BRANCH_NAME_PATTERN s then Ok s
              else Throw (PlainErr ("[Arg Contract] Invalid " +:+ label))
  | None => Throw (PlainErr ("[Arg Contract] Invalid " +:+ label))
  end.

(** [s.startsWith(pre) ? s.slice(pre.length) : undefined] *)
(** The first prefix that applies is removed, and only that one. *)
Fixpoint strip_first (prefixes : list string) (n : string) : string :=
  match prefixes with
  | [] => n
  | p :: ps => match strip_prefix p n with Some n' => n' | None => strip_first ps n end
  end.

Definition ref_prefixes : list string := ["refs/remotes/origin/"; "refs/heads/"; "origin/"].

Definition normalizeBranchForCompare (name : string) : string :=
  strip_first ref_prefixes (toLowerCase name).

(** Anything but two strings is accepted here (the name checks reject it). *)
Definition validateBranchPair (branch base : jsval) : result unit :=
  match branch, base with
  | JStr b, JStr a =>
      if decide (normalizeBranchForCompare b = normalizeBranchForCompare a)
      then Throw (PlainErr "[Arg Contract] Invalid branch: must differ from base_branch")
      else Ok tt
  | _, _ => Ok tt
  end.

(** ** What the validators accept *)

Lemma validateIssueId_Ok v s :
  validateIssueId v = Ok s <-> v = JStr s /\ s ≠ "" /\ string_all safe_char s = true.
Proof.
  unfold validateIssueId, ISSUE_ID_PATTERN. split.
  - destruct (as_nonempty_str v) as [x|] eqn:Hx; [|discriminate].
    apply as_nonempty_str_Some in Hx as [-> Hx]. rewrite (proj2 (nonempty_spec x) Hx). cbn [andb].
    destruct (string_all safe_char x) eqn:Hs; [|discriminate]. intros [= <-]. auto.
  - intros (-> & Hs & Ha). apply nonempty_spec in Hs. cbn [as_nonempty_str].
    rewrite Hs. cbn [andb]. rewrite Hs, Ha. reflexivity.
Qed.

Lemma validateBranchName_Ok v l s :
  validateBranchName v l = Ok s <-> v = JStr s /\ s ≠ "" /\ string_all branch_char s = true.
Proof.
  unfold validateBranchName, BRANCH_NAME_PATTERN. split.
  - destruct (as_nonempty_str v) as [x|] eqn:Hx; [|discriminate].
    apply as_nonempty_str_Some in Hx as [-> Hx]. rewrite (proj2 (nonempty_spec x) Hx). cbn [andb].
    destruct (string_all branch_char x) eqn:Hs; [|discriminate]. intros [= <-]. auto.
  - intros (-> & Hs & Ha). apply nonempty_spec in Hs. cbn [as_nonempty_str].
    rewrite Hs. cbn [andb]. rewrite Hs, Ha. reflexivity.
Qed.

(** ** The branch is not the base branch *)


(** The name of a branch that carries no ref prefix itself. *)
Definition bare (b : string) : Prop := forall p, p ∈ ref_prefixes -> strip_prefix p b = None.

Lemma strip_first_bare b : bare b -> strip_first ref_prefixes b = b.
Proof.
  intros Hb. unfold ref_prefixes in *. cbn [strip_first].
  rewrite !Hb by set_solver. done.
Qed.

Lemma normalize_spelling pre b :
  pre ∈ "" :: ref_prefixes -> bare (toLowerCase b) ->
  normalizeBranchForCompare (pre +:+ b) = toLowerCase b.
Proof.
  intros Hpre Hb. unfold normalizeBranchForCompare. rewrite toLowerCase_app.
  unfold ref_prefixes in Hpre.
  repeat (apply elem_of_cons in Hpre as [->|Hpre]); [| | | |by apply elem_of_nil in Hpre].
  - change (toLowerCase "" +:+ toLowerCase b) with (toLowerCase b). by apply strip_first_bare.
  - change (toLowerCase "refs/remotes/origin/") with "refs/remotes/origin/".
    unfold ref_prefixes. cbn [strip_first]. by rewrite strip_prefix_app.
  - change (toLowerCase "refs/heads/") with "refs/heads/".
    unfold ref_prefixes. cbn [strip_first]. rewrite (strip_prefix_app "refs/heads/").
    reflexivity.
  - change (toLowerCase "origin/") with "origin/".
    unfold ref_prefixes. cbn [strip_first]. rewrite (strip_prefix_app "origin/"). reflexivity.
Qed.

(** A sprint cannot work on its own base branch under another spelling:
    a pair that names one branch, each side with or without [refs/heads/],
    [origin/] or [refs/remotes/origin/] and in any letter case, is refused;
    and a pair of branches without such prefixes that differ beyond case is
    accepted. *)
Theorem branch_pair_spelling p1 p2 b1 b2 :
  p1 ∈ "" :: ref_prefixes -> p2 ∈ "" :: ref_prefixes ->
  bare (toLowerCase b1) -> bare (toLowerCase b2) ->
  validateBranchPair (JStr (p1 +:+ b1)) (JStr (p2 +:+ b2)) = Ok tt
  <-> toLowerCase b1 ≠ toLowerCase b2.
Proof.
  intros. unfold validateBranchPair. rewrite !normalize_spelling by done.
  case_decide; split; done.
Qed.

Lemma bare_compute b :
  forallb (fun p => bool_decide (strip_prefix p b = None)) ref_prefixes = true -> bare b.
Proof.
  intros Hb p Hp. apply (forallb_forall _ ref_prefixes) with (x := p) in Hb.
  - by apply bool_decide_eq_true in Hb.
  - by apply list_elem_of_In.
Qed.

Lemma branch_pair_spelling_witness :
  validateBranchPair (JStr "origin/Main") (JStr "refs/heads/main") = Ok tt
  <-> toLowerCase "Main" ≠ toLowerCase "main".
Proof.
  apply (branch_pair_spelling "origin/" "refs/heads/" "Main" "main").
  - set_solver.
  - set_solver.
  - apply bare_compute. reflexivity.
  - apply bare_compute. reflexivity.
Defined.
