(* ===== verification/Scope.v ===== *)
(** * Issue scopes and the overlap guard

    The bead rows and the in-memory subtree expansion of
    [src/supervisor/backlog.mjs], the per-node expansion and the launch guard
    of [src/supervisor/scope-overlap.mjs].  The [bd] subprocess is a
    parameter: the rows it lists, or the children it lists per node. *)

From Stdlib Require Import QArith.
From S2P Require Import Prelude JsMap JsVal Text Reservation SprintArgs.
Local Open Scope string_scope.
Local Open Scope list_scope.

(** ** Beads *)

Record bead := {
  bd_id : string; bd_title : string; bd_issueType : jsval; bd_status : jsval;
  bd_parentId : option string; bd_priority : option jnum; bd_placement : option string
}.

(** [===] on parsed JSON values (two parsed objects are never identical). *)
Definition strict_eq (v w : jsval) : bool :=
  match v, w with
  | JUndef, JUndef | JNull, JNull => true
  | JBool a, JBool b => Bool.eqb a b
  | JNum (NInt a), JNum (NInt b) => Z.eqb a b
  | JNum (NFrac a), JNum (NFrac b) => QArith_base.Qeq_bool a b
  | JNum (NInf a), JNum (NInf b) => Bool.eqb a b
  | JStr a, JStr b => bool_decide (a = b)
  | _, _ => false
  end.

(** The loop over [raw.dependencies]. *)
Fixpoint parent_edge (raw : jsval) (deps : list jsval) : option string :=
  match deps with
  | [] => None
  | d :: deps' =>
      if truthy d && strict_eq (prop "type" d) (JStr "parent-child")
         && strict_eq (prop "issue_id" d) (prop "id" raw)
      then match as_str (prop "depends_on_id" d) with
           | Some p => Some p
           | None => parent_edge raw deps'
           end
      else parent_edge raw deps'
  end.

Definition parentIdOf (raw : jsval) : option string :=
  if negb (truthy raw && typeof_object raw) then None
  else match as_nonempty_str (prop "parentId" raw) with
       | Some p => Some p
       | None =>
           match as_nonempty_str (prop "parent" raw) with
           | Some p => Some p
           | None => parent_edge raw (default [] (as_arr (prop "dependencies" raw)))
           end
       end.

(** [typeof v === 'number' && Number.isFinite(v)] *)
Definition as_finite (v : jsval) : option jnum :=
  match v with
  | JNum (NInt z) => Some (NInt z)
  | JNum (NFrac q) => Some (NFrac q)
  | _ => None
  end.

Definition normalizeBead (raw : jsval) : bead :=
  let b := if truthy raw then raw else JObj [] in
  {| bd_id := default "" (as_str (prop "id" b));
     bd_title := default "" (as_str (prop "title" b));
     bd_issueType := coalesce (coalesce (prop "issueType" b) (prop "issue_type" b)) (JStr "task");
     bd_status := coalesce (prop "status" b) (JStr "open");
     bd_parentId := parentIdOf b;
     bd_priority := as_finite (prop "priority" b);
     bd_placement := as_str (prop "placement" b) |}.

(** [rows.map(normalizeBead).filter(b => b.id.length > 0)], on any value. *)
Definition beads_of_rows (rows : jsval) : list bead :=
  filter (fun b => nonempty (bd_id b)) (normalizeBead <$> default [] (as_arr rows)).

(** ** The parent-to-children index *)

Definition index_bead (idx : list (string * list string)) (b : bead) : list (string * list string) :=
  match bd_parentId b with
  | Some pid =>
      if nonempty pid
      then jset pid (default [] (jget pid idx) ++ [bd_id b]) idx
      else idx
  | None => idx
  end.

Definition buildChildIndex (beads : list bead) : list (string * list string) :=
  foldl index_bead [] beads.

(** ** Breadth-first expansion *)

(** [for (const c of l) if (typeof c === 'string' && c.length > 0 &&
    !scope.has(c)) { scope.add(c); frontier.push(c); }] *)
Fixpoint visit (scope frontier : list string) (l : list jsval) : list string * list string :=
  match l with
  | [] => (scope, frontier)
  | v :: l' =>
      match as_nonempty_str v with
      | Some c => if decide (c ∈ scope) then visit scope frontier l'
                  else visit (scope ++ [c]) (frontier ++ [c]) l'
      | None => visit scope frontier l'
      end
  end.

(** [expandScope]: one [listChildren] call per discovered node, which may
    fail. [None]: the fuel ran out. *)
Fixpoint expand_loop (fuel : nat) (listChildren : string -> result (list jsval))
    (scope frontier : list string) : option (result (list string)) :=
  match fuel with
  | O => None
  | S fuel' =>
      match frontier with
      | [] => Some (Ok scope)
      | id :: frontier' =>
          match listChildren id with
          | Throw e => Some (Throw e)
          | Ok children =>
              let '(scope', frontier'') := visit scope frontier' children in
              expand_loop fuel' listChildren scope' frontier''
          end
      end
  end.

Definition expandScope (fuel : nat) (roots : list jsval)
    (listChildren : string -> result (list jsval)) : option (result (list string)) :=
  let '(scope, frontier) := visit [] [] roots in
  expand_loop fuel listChildren scope frontier.

Fixpoint expand_memory_loop (fuel : nat) (idx : list (string * list string))
    (scope frontier : list string) : option (list string) :=
  match fuel with
  | O => None
  | S fuel' =>
      match frontier with
      | [] => Some scope
      | id :: frontier' =>
          let '(scope', frontier'') := visit scope frontier' (JStr <$> default [] (jget id idx)) in
          expand_memory_loop fuel' idx scope' frontier''
      end
  end.

(** Every id of the scope is a root or an entry of the index, and each is
    taken from the frontier once. *)
Definition scope_fuel (roots : list jsval) (idx : list (string * list string)) : nat :=
  S (length roots + length (concat idx.*2)).

Definition expandScopeInMemory (roots : list jsval) (idx : list (string * list string))
    : option (list string) :=
  let '(scope, frontier) := visit [] [] roots in
  expand_memory_loop (scope_fuel roots idx) idx scope frontier.

(** ** The guard *)

Record scope_conflict := { sc_sprintId : string; sc_overlappingIds : list string }.
Record scope_check := {
  ck_ok : bool; ck_requestScope : list string; ck_conflicts : list scope_conflict
}.

Definition formatScopeConflict (cs : list scope_conflict) : string :=
  "issue-scope overlap rejects launch: " +:+
  joinS "; " ((fun c => "sprint '" +:+ sc_sprintId c +:+ "' already claims [" +:+
                        joinS ", " (sc_overlappingIds c) +:+ "]") <$> cs).

(** Where children come from: the injected per-node lister, or one bulk
    listing of the rows (whose call may fail). *)
Inductive child_source :=
| ListChildren (fuel : nat) (listChildren : string -> result (list jsval))
| ListAllBeads (rows : result jsval).

(** The expansion [checkLaunch] uses, prepared once per call. *)
Definition expander (src : child_source)
    : result (list jsval -> option (result (list string))) :=
  match src with
  | ListChildren fuel f => Ok (fun rs => expandScope fuel rs f)
  | ListAllBeads rows =>
      raw ← rows;
      let idx := buildChildIndex (beads_of_rows raw) in
      Ok (fun rs => Ok <$> expandScopeInMemory rs idx)
  end.

Definition overlap (requestScope activeScope : list string) : list string :=
  filter (fun id => id ∈ activeScope) requestScope.

(** The loop over the ledger's entries. *)
Fixpoint conflict_loop (expand : list jsval -> option (result (list string)))
    (exclude : option string) (requestScope : list string)
    (entries : list (string * reservation)) (conflicts : list scope_conflict)
    : option (result (list scope_conflict)) :=
  match entries with
  | [] => Some (Ok conflicts)
  | (s, r) :: entries' =>
      if bool_decide (exclude = Some s) then conflict_loop expand exclude requestScope entries' conflicts
      else match issueRoots r with
      | [] => conflict_loop expand exclude requestScope entries' conflicts
      | roots =>
          match expand (JStr <$> roots) with
          | None => None
          | Some (Throw e) => Some (Throw e)
          | Some (Ok activeScope) =>
              match overlap requestScope activeScope with
              | [] => conflict_loop expand exclude requestScope entries' conflicts
              | ids => conflict_loop expand exclude requestScope entries'
                         (conflicts ++ [{| sc_sprintId := s; sc_overlappingIds := sortS ids |}])
              end
          end
      end
  end.

Definition is_bulk (src : child_source) : bool :=
  match src with ListAllBeads _ => true | ListChildren _ _ => false end.

Definition checkLaunch (src : child_source) (requestRoots : list jsval) (exclude : option string)
    (entries : list (string * reservation)) : option (result scope_check) :=
  match requestRoots with
  | [] => Some (Throw (TypeErr "checkLaunch requires a non-empty array of request root issue ids"))
  | _ =>
      match (if is_bulk src then all_ok validateIssueId requestRoots else Ok []) with
      | Throw e => Some (Throw e)
      | Ok _ =>
          match expander src with
          | Throw e => Some (Throw e)
          | Ok expand =>
              match expand requestRoots with
              | None => None
              | Some (Throw e) => Some (Throw e)
              | Some (Ok requestScope) =>
                  match conflict_loop expand exclude requestScope entries [] with
                  | None => None
                  | Some (Throw e) => Some (Throw e)
                  | Some (Ok cs) =>
                      Some (Ok {| ck_ok := match cs with [] => true | _ => false end;
                                  ck_requestScope := sortS requestScope; ck_conflicts := cs |})
                  end
              end
          end
      end
  end.
