(* ===== verification/ScopeProps.v ===== *)
(** * What the scope expansion and the overlap guard guarantee *)

From S2P Require Import Prelude JsMap JsVal Text Reservation SprintArgs Scope.
Local Open Scope string_scope.
Local Open Scope list_scope.

(** ** Visiting a list *)

(** The new ids [visit] appends, in order. *)
Lemma visit_spec scope frontier l :
  exists new, visit scope frontier l = (scope ++ new, frontier ++ new) /\
    (NoDup scope -> NoDup (scope ++ new)) /\
    (forall c, c ∈ new -> c ≠ "" /\ JStr c ∈ l) /\
    (forall c, JStr c ∈ l -> c ≠ "" -> c ∈ scope ++ new).
Proof.
  revert scope frontier. induction l as [|v l IH]; intros scope frontier; simpl.
  { exists []. rewrite !app_nil_r. split_and!; [done|done|set_solver|set_solver]. }
  destruct (as_nonempty_str v) as [c|] eqn:Hv.
  - apply as_nonempty_str_Some in Hv as [-> Hc]. case_decide as Hin.
    + destruct (IH scope frontier) as (new & -> & Hnd & Hs & Hall).
      exists new. split_and!; [done|done|set_solver|].
      intros c' [[= ->]|?]%elem_of_cons Hc'; [set_solver|by apply Hall].
    + destruct (IH (scope ++ [c]) (frontier ++ [c])) as (new & -> & Hnd & Hs & Hall).
      exists (c :: new). rewrite <-!(assoc_L (++)) in *. simpl in *. split_and!; [done| | |].
      * intros Hsc. rewrite cons_middle, (assoc_L (++)). rewrite <-(assoc_L (++)).
        apply Hnd. apply NoDup_app. split_and!; [done|set_solver|apply NoDup_singleton].
      * intros c' [->|Hc']%elem_of_cons; [set_solver|]. destruct (Hs c' Hc'). set_solver.
      * intros c' [[= ->]|?]%elem_of_cons Hc'; [set_solver|by apply Hall].
  - destruct (IH scope frontier) as (new & -> & Hnd & Hs & Hall).
    exists new. split_and!; [done|done|set_solver|].
    intros c' [<-|?]%elem_of_cons Hc'; [|by apply Hall].
    exfalso. unfold as_nonempty_str in Hv. by rewrite (proj2 (nonempty_spec c') Hc') in Hv.
Qed.

(** ** Reachability *)

Section expand.
Context (kids : string -> list jsval).

Definition kid (p c : string) : Prop := JStr c ∈ kids p /\ c ≠ "".

Definition root_of (roots : list jsval) (r : string) : Prop := JStr r ∈ roots /\ r ≠ "".

(** In the subtree of one of the roots, the roots included. *)
Definition in_scope (roots : list jsval) (x : string) : Prop :=
  exists r, root_of roots r /\ rtc kid r x.

(** The loop with a lister that never fails. *)
Lemma expand_loop_spec fuel roots (U popped frontier : list string) :
  length U + 1 <= fuel + length popped ->
  NoDup (popped ++ frontier) -> popped ++ frontier ⊆ U ->
  (forall p c, p ∈ U -> kid p c -> c ∈ U) ->
  (forall x, x ∈ popped ++ frontier -> in_scope roots x) ->
  (forall r, root_of roots r -> r ∈ popped ++ frontier) ->
  (forall p c, p ∈ popped -> kid p c -> c ∈ popped ++ frontier) ->
  exists scope, expand_loop fuel (fun id => Ok (kids id)) (popped ++ frontier) frontier
                  = Some (Ok scope) /\
    NoDup scope /\ (forall x, x ∈ scope <-> in_scope roots x).
Proof.
  revert popped frontier. induction fuel as [|fuel IH]; intros popped frontier Hf Hnd HU Hcl Hin Hr Hk.
  { assert (length popped <= length U); [|lia].
    apply submseteq_length. apply NoDup_submseteq; [by apply NoDup_app in Hnd as [? _]|set_solver]. }
  simpl. destruct frontier as [|id frontier].
  { exists (popped ++ []). split; [done|]. split; [done|]. intros x. split; [apply Hin|].
    intros (r & Hroot & Hrt). apply Hr in Hroot. rewrite app_nil_r in *.
    induction Hrt as [|a b c Hab _ IHr]; [done|]. apply IHr. by eapply Hk. }
  destruct (visit_spec (popped ++ id :: frontier) frontier (kids id)) as (new & -> & Hndn & Hs & Hall).
  assert (Hassoc : (popped ++ id :: frontier) ++ new = (popped ++ [id]) ++ (frontier ++ new)).
  { by rewrite <-!(assoc_L (++)). }
  rewrite Hassoc in *. apply IH.
  - rewrite length_app. simpl. lia.
  - by apply Hndn.
  - rewrite <-Hassoc. intros x [Hx|Hx]%elem_of_app; [by apply HU|].
    destruct (Hs x Hx). apply (Hcl id); [apply HU; set_solver|by split].
  - done.
  - rewrite <-Hassoc. intros x [Hx|Hx]%elem_of_app; [by apply Hin|].
    destruct (Hs x Hx) as [Hne Hkid]. destruct (Hin id) as (r & Hroot & Hrt); [set_solver|].
    exists r. split; [done|]. eapply rtc_r; [done|]. by split.
  - intros r Hroot. rewrite <-Hassoc. apply Hr in Hroot. set_solver.
  - intros p c [Hp|Hp]%elem_of_app Hkid.
    + rewrite <-Hassoc. apply elem_of_app. left. by eapply Hk.
    + apply list_elem_of_singleton in Hp. subst p. destruct Hkid as [Hc Hne].
      by apply Hall.
Qed.

Lemma expandScope_gen fuel roots (U : list string) :
  length U + 1 <= fuel -> (forall r, root_of roots r -> r ∈ U) ->
  (forall p c, p ∈ U -> kid p c -> c ∈ U) ->
  exists scope, expandScope fuel roots (fun id => Ok (kids id)) = Some (Ok scope) /\
    NoDup scope /\ (forall x, x ∈ scope <-> in_scope roots x).
Proof.
  intros Hf HU Hcl. unfold expandScope.
  destruct (visit_spec [] [] roots) as (new & -> & Hnd & Hs & Hall). simpl in *.
  apply (expand_loop_spec fuel roots U [] new); simpl.
  - lia.
  - by apply Hnd, NoDup_nil_2.
  - intros x Hx. destruct (Hs x Hx). by apply HU.
  - done.
  - intros x Hx. destruct (Hs x Hx). exists x. by split.
  - intros r [Hr Hne]. by apply Hall.
  - set_solver.
Qed.
End expand.

(** ** The in-memory expansion is the per-node expansion *)

Definition index_kids (idx : list (string * list string)) (id : string) : list jsval :=
  JStr <$> default [] (jget id idx).

Lemma expand_memory_loop_eq fuel idx scope frontier :
  Ok <$> expand_memory_loop fuel idx scope frontier
    = expand_loop fuel (fun id => Ok (index_kids idx id)) scope frontier.
Proof.
  revert scope frontier. induction fuel as [|fuel IH]; intros scope frontier; [done|].
  cbn [expand_memory_loop expand_loop]. destruct frontier as [|id frontier]; [done|].
  unfold index_kids at 1. destruct (visit scope frontier _) as [scope' frontier']. apply IH.
Qed.

Lemma index_kid_concat idx p c : kid (index_kids idx) p c -> c ∈ concat idx.*2.
Proof.
  intros [Hc _]. unfold index_kids in Hc. apply list_elem_of_fmap in Hc as (c' & [= <-] & Hc).
  destruct (jget p idx) as [l|] eqn:Hl; [|by apply elem_of_nil in Hc].
  apply list_elem_of_In, in_concat. exists l. split; [|by apply list_elem_of_In].
  apply list_elem_of_In, list_elem_of_fmap. exists (p, l). split; [done|].
  by apply jget_Some_elem.
Qed.

(** Roots that are strings. *)
Definition root_strings (roots : list jsval) : list string := omap as_str roots.

Lemma root_strings_length roots : length (root_strings roots) <= length roots.
Proof. unfold root_strings. induction roots as [|v roots IH]; csimpl; [lia|]. destruct (as_str v); simpl; lia. Qed.

Lemma root_strings_elem roots r : root_of roots r -> r ∈ root_strings roots.
Proof.
  intros [Hr _]. unfold root_strings. apply list_elem_of_omap. exists (JStr r). done.
Qed.

Lemma expandScopeInMemory_spec roots idx :
  exists scope, expandScopeInMemory roots idx = Some scope /\ NoDup scope /\
    forall x, x ∈ scope <-> in_scope (index_kids idx) roots x.
Proof.
  destruct (expandScope_gen (index_kids idx) (scope_fuel roots idx) roots
              (root_strings roots ++ concat idx.*2)) as (scope & Hs & Hnd & Hx).
  - unfold scope_fuel. rewrite length_app. pose proof (root_strings_length roots). lia.
  - intros r Hr. apply elem_of_app. left. by apply root_strings_elem.
  - intros p c _ Hk. apply elem_of_app. right. by eapply index_kid_concat.
  - exists scope. split; [|done]. unfold expandScope in Hs. unfold expandScopeInMemory.
    destruct (visit [] [] roots) as [s f]. rewrite <-expand_memory_loop_eq in Hs.
    destruct (expand_memory_loop _ _ _ _); simpl in Hs; by simplify_eq.
Qed.

Lemma expandScopeInMemory_total roots idx : exists scope, expandScopeInMemory roots idx = Some scope.
Proof. destruct (expandScopeInMemory_spec roots idx) as (scope & ? & _). eauto. Qed.

(** C22: The in-memory expansion always terminates within its fuel, lists every
    bead once, and computes exactly the live subtree: the beads reachable from
    a root by parent-child edges, the roots included. *)
Theorem expandScopeInMemory_reach roots idx :
  exists scope, expandScopeInMemory roots idx = Some scope /\ NoDup scope /\
    forall x, x ∈ scope <-> in_scope (index_kids idx) roots x.
Proof. apply expandScopeInMemory_spec. Qed.

(** ** The index of a bead list *)

Definition children_of (p : string) (beads : list bead) : list string :=
  bd_id <$> filter (fun b => bd_parentId b = Some p) beads.

Lemma jget_buildChildIndex p beads :
  p ≠ "" -> default [] (jget p (buildChildIndex beads)) = children_of p beads.
Proof.
  intros Hp. unfold buildChildIndex.
  assert (Hgen : forall idx, default [] (jget p (foldl index_bead idx beads))
                             = default [] (jget p idx) ++ children_of p beads).
  { induction beads as [|b beads IH]; intros idx; simpl; [by rewrite app_nil_r|].
    rewrite IH. unfold children_of. rewrite filter_cons. unfold index_bead.
    destruct (bd_parentId b) as [pid|] eqn:Hb.
    - destruct (nonempty pid) eqn:Hn.
      + rewrite jget_jset. case_decide as Heq; case_decide as Heq'; simplify_eq/=; try done.
        by rewrite <-(assoc_L (++)).
      + apply nonempty_false in Hn. subst. rewrite decide_False; [done|]. congruence.
    - by rewrite decide_False. }
  rewrite Hgen. done.
Qed.

(** More fuel does not change a result. *)
Lemma expand_loop_mono fuel fuel' kids scope frontier r :
  fuel <= fuel' -> expand_loop fuel kids scope frontier = Some r ->
  expand_loop fuel' kids scope frontier = Some r.
Proof.
  revert fuel' scope frontier. induction fuel as [|fuel IH]; intros [|fuel'] scope frontier Hle Hr;
    try done; [lia|]. cbn [expand_loop] in *. destruct frontier as [|id frontier]; [done|].
  destruct (kids id) as [l|]; [|done]. destruct (visit _ _ _) as [s f]. apply IH; [lia|done].
Qed.

Lemma expand_loop_agree fuel kids1 kids2 scope frontier :
  (forall p, p ≠ "" -> kids1 p = kids2 p) -> Forall (fun p => p ≠ "") frontier ->
  expand_loop fuel kids1 scope frontier = expand_loop fuel kids2 scope frontier.
Proof.
  intros Hk. revert scope frontier. induction fuel as [|fuel IH]; intros scope frontier Hf; [done|].
  cbn [expand_loop]. destruct frontier as [|id frontier]; [done|].
  apply Forall_cons in Hf as [Hid Hf]. rewrite (Hk id Hid).
  destruct (kids2 id) as [l|]; [|done].
  destruct (visit_spec scope frontier l) as (new & -> & _ & Hs & _).
  apply IH. apply Forall_app. split; [done|]. apply Forall_forall. intros c Hc. by apply Hs.
Qed.

(** The two expansions agree: when the per-node lister answers, for each
    node, the direct children the bulk listing shows (in its order), and the
    walk is given enough steps, [expandScope] returns the very set
    [expandScopeInMemory] computes from the bulk listing. *)
Theorem expansions_agree beads roots listChildren fuel :
  (forall p, p ≠ "" -> listChildren p = Ok (JStr <$> children_of p beads)) ->
  scope_fuel roots (buildChildIndex beads) <= fuel ->
  expandScope fuel roots listChildren
    = Ok <$> expandScopeInMemory roots (buildChildIndex beads).
Proof.
  intros Hlist Hfuel. destruct (expandScopeInMemory_total roots (buildChildIndex beads)) as [scope Hs].
  rewrite Hs. unfold expandScopeInMemory, expandScope in *.
  destruct (visit_spec [] [] roots) as (new & Hv & _ & Hn & _). rewrite Hv in *.
  rewrite (expand_loop_agree _ _ (fun id => Ok (index_kids (buildChildIndex beads) id))).
  - apply (expand_loop_mono _ _ _ _ _ _ Hfuel). rewrite <-expand_memory_loop_eq, Hs. done.
  - intros p Hp. rewrite (Hlist p Hp). unfold index_kids. by rewrite jget_buildChildIndex.
  - simpl. apply Forall_forall. intros c Hc. by apply Hn.
Qed.

(** ** Subtrees of a bead list *)

(** [c] is a direct child of [p]. *)
Definition child_of (beads : list bead) (p c : string) : Prop :=
  exists b, b ∈ beads /\ bd_parentId b = Some p /\ bd_id b = c /\ p ≠ "" /\ c ≠ "".

Definition subtree (beads : list bead) (roots : list string) (x : string) : Prop :=
  exists r, r ∈ roots /\ r ≠ "" /\ rtc (child_of beads) r x.

Lemma elem_of_children_of p c beads :
  c ∈ children_of p beads <-> exists b, b ∈ beads /\ bd_parentId b = Some p /\ bd_id b = c.
Proof.
  unfold children_of. rewrite list_elem_of_fmap. setoid_rewrite list_elem_of_filter. naive_solver.
Qed.

Lemma kid_child_of beads p c :
  p ≠ "" -> kid (index_kids (buildChildIndex beads)) p c <-> child_of beads p c.
Proof.
  intros Hp. unfold kid, index_kids, child_of. rewrite jget_buildChildIndex by done.
  rewrite list_elem_of_fmap. split.
  - intros [(c' & [= <-] & Hc) Hne]. apply elem_of_children_of in Hc. naive_solver.
  - intros (b & Hb & Hpar & Hid & _ & Hne). split; [|done]. exists c. split; [done|].
    apply elem_of_children_of. eauto.
Qed.

(** On roots that are strings, the expansion's scope is the subtree. *)
Lemma in_scope_subtree beads roots x :
  in_scope (index_kids (buildChildIndex beads)) (JStr <$> roots) x <-> subtree beads roots x.
Proof.
  unfold in_scope, root_of, subtree. split.
  - intros (r & [(r' & [= <-] & Hr)%list_elem_of_fmap Hne] & Hrt). exists r. split_and!; [done..|].
    clear Hr. revert Hne. induction Hrt as [|a b c Hab _ IH]; intros Hne; [done|].
    eapply rtc_l; [by apply kid_child_of|]. apply IH. apply Hab.
  - intros (r & Hr & Hne & Hrt). exists r. split; [split; [|done]|].
    { apply list_elem_of_fmap. eauto. }
    clear Hr. revert Hne. induction Hrt as [|a b c Hab _ IH]; intros Hne; [done|].
    eapply rtc_l; [by apply kid_child_of|]. apply IH. by destruct Hab as (? & ? & ? & ? & ? & ?).
Qed.

Lemma expand_roots beads roots :
  exists scope, expandScopeInMemory (JStr <$> roots) (buildChildIndex beads) = Some scope /\
    forall x, x ∈ scope <-> subtree beads roots x.
Proof.
  destruct (expandScopeInMemory_spec (JStr <$> roots) (buildChildIndex beads))
    as (scope & Hs & _ & Hx).
  exists scope. split; [done|]. intros x. by rewrite Hx, in_scope_subtree.
Qed.

(** ** The launch guard *)

(** The sprint [s] with reservation [r] overlaps the request. *)
Definition overlaps (beads : list bead) (exclude : option string) (roots : list string)
    (s : string) (r : reservation) : Prop :=
  exclude ≠ Some s /\ exists x, subtree beads roots x /\ subtree beads (issueRoots r) x.

Lemma overlap_nil a b : overlap a b = [] <-> forall x, x ∈ a -> x ∈ b -> False.
Proof.
  unfold overlap. split.
  - intros Hf x Ha Hb. assert (x ∈ filter (fun id => id ∈ b) a) as Hx by by apply list_elem_of_filter.
    rewrite Hf in Hx. by apply elem_of_nil in Hx.
  - intros Hn. destruct (filter (fun id => id ∈ b) a) as [|x l] eqn:Hf; [done|]. exfalso.
    assert (x ∈ filter (fun id => id ∈ b) a) as Hx by (rewrite Hf; set_solver).
    apply list_elem_of_filter in Hx as [? ?]. by eapply Hn.
Qed.


(** One entry of the report: the sprint and the shared beads. *)
Definition conflict_of (beads : list bead) (roots : list string)
    (entries : list (string * reservation)) (c : scope_conflict) : Prop :=
  exists r, (sc_sprintId c, r) ∈ entries /\
    forall x, x ∈ sc_overlappingIds c <-> subtree beads roots x /\ subtree beads (issueRoots r) x.

Section bulk.
Context (beads : list bead) (roots : list string) (exclude : option string).
Context (requestScope : list string).
Context (Hreq : forall x, x ∈ requestScope <-> subtree beads roots x).

Let expand : list jsval -> option (result (list string)) :=
  fun rs => Ok <$> expandScopeInMemory rs (buildChildIndex beads).

(** The conflicts [cs] are those of [entries]: each is one, and none is lost. *)
Definition exact_conflicts (entries : list (string * reservation)) (cs : list scope_conflict) : Prop :=
  Forall (conflict_of beads roots entries) cs /\
  (cs = [] <-> forall s r, (s, r) ∈ entries -> ~ overlaps beads exclude roots s r) /\
  (forall s r, (s, r) ∈ entries -> overlaps beads exclude roots s r -> s ∈ sc_sprintId <$> cs).

Lemma exact_conflicts_skip s r entries cs :
  ~ overlaps beads exclude roots s r -> exact_conflicts entries cs -> exact_conflicts ((s, r) :: entries) cs.
Proof.
  intros Hno (Hf & Hiff & Hall). split_and!.
  - eapply Forall_impl; [exact Hf|]. intros c (r' & Hin & ?). exists r'. set_solver.
  - rewrite Hiff. split.
    + intros Hn s' r' [[= -> ->]|Hin]%elem_of_cons; [done|by apply Hn].
    + intros Hn s' r' Hin. apply Hn. set_solver.
  - intros s' r' [[= -> ->]|Hin]%elem_of_cons Ho; [done|by eapply Hall].
Qed.

Lemma conflict_loop_spec entries cs0 :
  exists cs, conflict_loop expand exclude requestScope entries cs0 = Some (Ok (cs0 ++ cs)) /\
    exact_conflicts entries cs.
Proof.
  revert cs0. induction entries as [|[s r] entries IH]; intros cs0.
  { exists []. simpl. rewrite app_nil_r. split; [done|]. repeat split; [constructor|set_solver..]. }
  cbn [conflict_loop]. destruct (bool_decide (exclude = Some s)) eqn:Hex.
  { apply bool_decide_eq_true in Hex. destruct (IH cs0) as (cs & Hc & He). exists cs. split; [done|].
    apply exact_conflicts_skip; [|done]. by intros [? _]. }
  apply bool_decide_eq_false in Hex.
  destruct (issueRoots r) as [|r0 rs] eqn:Hroots.
  { destruct (IH cs0) as (cs & Hc & He). exists cs. split; [done|].
    apply exact_conflicts_skip; [|done]. intros [_ (x & _ & (r' & Hr' & _))].
    rewrite Hroots in Hr'. by apply elem_of_nil in Hr'. }
  rewrite <-Hroots in *. unfold expand at 1.
  destruct (expand_roots beads (issueRoots r)) as (scope & -> & Hscope).
  simpl. destruct (overlap requestScope scope) as [|x ids] eqn:Hov.
  { destruct (IH cs0) as (cs & Hc & He). exists cs. split; [done|].
    apply exact_conflicts_skip; [|done]. intros [_ (x & Hx1 & Hx2)].
    apply overlap_nil with (x := x) in Hov; [done|by apply Hreq|by apply Hscope]. }
  rewrite <-Hov.
  destruct (IH (cs0 ++ [{| sc_sprintId := s; sc_overlappingIds := sortS (overlap requestScope scope) |}]))
    as (cs & Hc & Hf & _ & Hall).
  eexists (_ :: cs). rewrite Hc, <-(assoc_L (++)). split; [done|].
  assert (Hmem : forall y, y ∈ sortS (overlap requestScope scope) <->
                 subtree beads roots y /\ subtree beads (issueRoots r) y).
  { intros y. rewrite sortS_perm. unfold overlap. rewrite list_elem_of_filter, Hscope, Hreq. tauto. }
  assert (overlaps beads exclude roots s r) as Ho.
  { split; [done|]. exists x. apply Hmem. rewrite sortS_perm, Hov. set_solver. }
  split; [|split].
  - constructor; [exists r; simpl; split; [set_solver|done]|].
    eapply Forall_impl; [exact Hf|]. intros c (r' & Hin & ?). exists r'. set_solver.
  - split; [done|]. intros Hn. by destruct (Hn s r ltac:(set_solver)).
  - intros s' r' [[= -> ->]|Hin]%elem_of_cons Ho'; simpl; [set_solver|].
    apply elem_of_cons. right. by eapply Hall.
Qed.
End bulk.

(** C21: The overlap guard is exact.  On well-formed request roots, with the
    tracker's rows at hand, the check always completes; it accepts the launch
    exactly when no other active sprint's live subtree shares a bead with the
    request's, and a rejection names every overlapping sprint, each with
    exactly the beads shared. *)
Theorem checkLaunch_exact rows roots exclude entries :
  roots ≠ [] -> Forall (fun r => ISSUE_ID_PATTERN r = true) roots ->
  let beads := beads_of_rows rows in
  exists ck, checkLaunch (ListAllBeads (Ok rows)) (JStr <$> roots) exclude entries = Some (Ok ck) /\
    (ck_ok ck = true <-> forall s r, (s, r) ∈ entries -> ~ overlaps beads exclude roots s r) /\
    (forall s r, (s, r) ∈ entries -> overlaps beads exclude roots s r ->
       s ∈ sc_sprintId <$> ck_conflicts ck) /\
    Forall (conflict_of beads roots entries) (ck_conflicts ck) /\
    (forall x, x ∈ ck_requestScope ck <-> subtree beads roots x).
Proof.
  intros Hne Hok beads. unfold checkLaunch.
  destruct (JStr <$> roots) as [|v vs] eqn:Hv; [by destruct roots|]. rewrite <-Hv. clear v vs Hv.
  assert (all_ok validateIssueId (JStr <$> roots) = Ok roots) as ->.
  { apply all_ok_Ok. clear Hne. induction Hok as [|r roots Hr _ IH]; [constructor|].
    constructor; [|done]. unfold ISSUE_ID_PATTERN in Hr. apply andb_true_iff in Hr as [Hn Hs].
    apply validateIssueId_Ok. by apply nonempty_spec in Hn. }
  simpl. fold beads. destruct (expand_roots beads roots) as (scope & Hs & Hscope).
  rewrite Hs. simpl.
  destruct (conflict_loop_spec beads roots exclude scope Hscope entries []) as (cs & -> & Hf & Hiff & Hall).
  simpl. eexists. split; [done|]. simpl. split_and!; [|done|done|].
  - rewrite <-Hiff. by destruct cs.
  - intros x. by rewrite sortS_perm.
Qed.

(** ** Scopes that grow *)

(** A bead created after the launches: no bead or root refers to it yet. *)
Definition fresh_bead (beads : list bead) (roots : list string) (b : bead) : Prop :=
  bd_id b ∉ bd_id <$> beads /\ bd_id b ∉ roots /\
  Forall (fun b' => bd_parentId b' ≠ Some (bd_id b)) (beads ++ [b]).

Lemma child_of_app beads b p c :
  child_of (beads ++ [b]) p c <->
  child_of beads p c \/ (bd_parentId b = Some p /\ bd_id b = c /\ p ≠ "" /\ c ≠ "").
Proof.
  unfold child_of. split.
  - intros (b' & [Hin|Hin]%elem_of_app & Hb).
    + left. eauto.
    + apply list_elem_of_singleton in Hin. subst. by right.
  - intros [(b' & Hin & Hb)|Hb]; [exists b'|exists b]; set_solver.
Qed.

Lemma rtc_fresh beads roots b r x :
  fresh_bead beads roots b -> r ∈ roots -> rtc (child_of (beads ++ [b])) r x ->
  (x ≠ bd_id b /\ rtc (child_of beads) r x) \/
  (x = bd_id b /\ exists p, bd_parentId b = Some p /\ rtc (child_of beads) r p).
Proof.
  intros (Hid & Hroot & Hpar) Hr Hx. rewrite Forall_app, Forall_singleton in Hpar.
  destruct Hpar as [Hpar Hself]. rewrite Forall_forall in Hpar.
  revert x Hx. refine (rtc_ind_r _ r _ _).
  { left. split; [|done]. intros ->. done. }
  intros x y Hx Hxy IH.
  apply child_of_app in Hxy as [Hxy|(Hb & <- & _)].
  - left. destruct Hxy as (b' & Hin & Hp & Hc & Hrest). split.
    + intros ->. apply Hid. rewrite <-Hc. apply list_elem_of_fmap. eauto.
    + destruct IH as [[_ IH]|[-> _]]; [|by destruct (Hpar b' Hin)].
      eapply rtc_r; [done|]. by exists b'.
  - right. split; [done|]. destruct IH as [[_ IH]|[-> _]]; [eauto|done].
Qed.

(** Disjoint sprints stay disjoint while their subtrees grow: a bead
    created after the launches (nothing refers to it yet), under any parent,
    does not put a bead in two sprints' live scopes. *)
Theorem growth_keeps_scopes_disjoint beads b roots1 roots2 :
  fresh_bead beads (roots1 ++ roots2) b ->
  (forall x, subtree beads roots1 x -> subtree beads roots2 x -> False) ->
  forall x, subtree (beads ++ [b]) roots1 x -> subtree (beads ++ [b]) roots2 x -> False.
Proof.
  intros Hfr Hdis x (r1 & Hr1 & Hn1 & Hx1) (r2 & Hr2 & Hn2 & Hx2).
  apply (rtc_fresh _ _ _ _ _ Hfr) in Hx1; [|set_solver].
  apply (rtc_fresh _ _ _ _ _ Hfr) in Hx2; [|set_solver].
  destruct Hx1 as [[Hne1 Hx1]|[He1 (p1 & Hp1 & Hx1)]], Hx2 as [[Hne2 Hx2]|[He2 (p2 & Hp2 & Hx2)]];
    try contradiction.
  - apply (Hdis x); [by exists r1|by exists r2].
  - rewrite Hp1 in Hp2. injection Hp2 as <-. apply (Hdis p1); [by exists r1|by exists r2].
Qed.

(** ** Concrete runs *)

Definition row (id : string) (deps : list jsval) : jsval :=
  JObj [("id", JStr id); ("title", JStr id); ("dependencies", JArr deps)].
Definition edge (c p : string) : jsval :=
  JObj [("type", JStr "parent-child"); ("issue_id", JStr c); ("depends_on_id", JStr p)].

(** [epic] has children [epic.1] and [epic.2]; [epic.1.1] is below [epic.1]. *)
Definition demo_rows : jsval :=
  JArr [row "epic" []; row "epic.1" [edge "epic.1" "epic"]; row "epic.2" [edge "epic.2" "epic"];
        row "epic.1.1" [edge "epic.1.1" "epic.1"]; JNull; row "" []].

Definition reservation_on (roots : list string) : reservation :=
  {| members := ["m"]; issueRoots := roots; childPid := None; reservedAt := "t"; branch := None;
     base := None; goal := None; exitCode := None; signal := None; exitedAt := None;
     logPath := None; beads := None |}.

Lemma expandScopeInMemory_reach_witness :
  exists scope, expandScopeInMemory [JStr "epic.1"] (buildChildIndex (beads_of_rows demo_rows)) = Some scope /\
    NoDup scope /\
    forall x, x ∈ scope <->
      in_scope (index_kids (buildChildIndex (beads_of_rows demo_rows))) [JStr "epic.1"] x.
Proof. apply expandScopeInMemory_reach. Defined.

Lemma expansions_agree_witness :
  expandScope 20 [JStr "epic"] (fun p => Ok (JStr <$> children_of p (beads_of_rows demo_rows)))
    = Some (Ok ["epic"; "epic.1"; "epic.2"; "epic.1.1"]) /\
  expandScope 20 [JStr "epic"] (fun p => Ok (JStr <$> children_of p (beads_of_rows demo_rows)))
    = Ok <$> expandScopeInMemory [JStr "epic"] (buildChildIndex (beads_of_rows demo_rows)).
Proof.
  split; [vm_compute; reflexivity|].
  apply (expansions_agree (beads_of_rows demo_rows) [JStr "epic"]
    (fun p => Ok (JStr <$> children_of p (beads_of_rows demo_rows))) 20).
  - reflexivity.
  - vm_compute. lia.
Defined.

(** A sprint rooted at a grandchild conflicts with one rooted at the epic. *)
Lemma checkLaunch_exact_witness :
  exists ck, checkLaunch (ListAllBeads (Ok demo_rows)) (JStr <$> ["epic.1.1"]) None
      [("s1", reservation_on ["epic"])] = Some (Ok ck) /\
    (ck_ok ck = true <-> forall s r, (s, r) ∈ [("s1", reservation_on ["epic"])] ->
       ~ overlaps (beads_of_rows demo_rows) None ["epic.1.1"] s r) /\
    (forall s r, (s, r) ∈ [("s1", reservation_on ["epic"])] ->
       overlaps (beads_of_rows demo_rows) None ["epic.1.1"] s r ->
       s ∈ sc_sprintId <$> ck_conflicts ck) /\
    Forall (conflict_of (beads_of_rows demo_rows) ["epic.1.1"] [("s1", reservation_on ["epic"])])
      (ck_conflicts ck) /\
    (forall x, x ∈ ck_requestScope ck <-> subtree (beads_of_rows demo_rows) ["epic.1.1"] x).
Proof.
  apply (checkLaunch_exact demo_rows ["epic.1.1"] None [("s1", reservation_on ["epic"])]).
  - discriminate.
  - repeat constructor.
Defined.

Example checkLaunch_demo :
  checkLaunch (ListAllBeads (Ok demo_rows)) [JStr "epic.1.1"] None [("s1", reservation_on ["epic"])]
  = Some (Ok {| ck_ok := false; ck_requestScope := ["epic.1.1"];
                ck_conflicts := [{| sc_sprintId := "s1"; sc_overlappingIds := ["epic.1.1"] |}] |}).
Proof. vm_compute. reflexivity. Qed.

Definition new_bead : bead := normalizeBead (row "epic.2.1" [edge "epic.2.1" "epic.2"]).

Lemma disjoint_compute beads roots1 roots2 :
  match expandScopeInMemory (JStr <$> roots1) (buildChildIndex beads),
        expandScopeInMemory (JStr <$> roots2) (buildChildIndex beads) with
  | Some s1, Some s2 => bool_decide (overlap s1 s2 = [])
  | _, _ => false
  end = true ->
  forall x, subtree beads roots1 x -> subtree beads roots2 x -> False.
Proof.
  destruct (expand_roots beads roots1) as (s1 & -> & H1).
  destruct (expand_roots beads roots2) as (s2 & -> & H2).
  intros Ho%bool_decide_eq_true x Hx1 Hx2. rewrite overlap_nil in Ho.
  apply (Ho x); [by apply H1|by apply H2].
Qed.

Lemma growth_keeps_scopes_disjoint_witness :
  subtree (beads_of_rows demo_rows ++ [new_bead]) ["epic.1"] "epic.1" /\
  (subtree (beads_of_rows demo_rows ++ [new_bead]) ["epic.1"] "epic.2.1" ->
   subtree (beads_of_rows demo_rows ++ [new_bead]) ["epic.2"] "epic.2.1" -> False).
Proof.
  split; [exists "epic.1"; split_and!; [set_solver|done|apply rtc_refl]|].
  apply (growth_keeps_scopes_disjoint (beads_of_rows demo_rows) new_bead ["epic.1"] ["epic.2"]).
  - split_and!; vm_compute; [set_solver|set_solver|]. repeat constructor; discriminate.
  - apply disjoint_compute. vm_compute. reflexivity.
Defined.
