(* ===== verification/RunState.v ===== *)
(** * Terminal run-state files

    Path resolution of [apra-fleet-workflow/src/viewer/run-state-paths.mjs]
    and the watchdog's terminal-state lookup
    ([src/supervisor/watchdog.mjs]).  Paths are relative to the data
    directory; [fs_view] says what is there. *)

From Stdlib Require Import Ascii.
From S2P Require Import Prelude JsMap JsVal Text.
Local Open Scope string_scope.
Local Open Scope list_scope.

Definition is_sep (c : ascii) : bool :=
  bool_decide (c = "/"%char) || bool_decide (N_of_ascii c = 92%N).

(** [String(runId).replace(/[\\/]+/g, '_')]: each maximal run of separators
    becomes one underscore.  [in_run] says the previous character was one. *)
Fixpoint replace_seps (in_run : bool) (s : string) : string :=
  match s with
  | EmptyString => ""
  | String c s' =>
      if is_sep c then (if in_run then replace_seps true s' else String "_"%char (replace_seps true s'))
      else String c (replace_seps false s')
  end.

Definition sanitizeRunIdForFilename (runId : string) : string := replace_seps false runId.

(** Files below the data directory: existence, and content when readable. *)
Record fs_view := {
  fv_exists : string -> bool;          (** [fs.existsSync] *)
  fv_read : string -> option jsval     (** [JSON.parse(fs.readFileSync(p))]; [None]: it throws *)
}.

Definition run_file (dir name : string) : string := dir +:+ "/" +:+ name +:+ ".json".

Definition getRunningRunStatePath (runId : string) : result string :=
  if negb (nonempty runId) then Throw (TypeErr "getRunningRunStatePath requires a runId")
  else Ok (run_file "running" (sanitizeRunIdForFilename runId)).

Definition getTerminalRunStatePath (v : fs_view) (runId : string) : result string :=
  if negb (nonempty runId) then Throw (TypeErr "getTerminalRunStatePath requires a runId")
  else
    let safe := sanitizeRunIdForFilename runId in
    let oldRunsPath := run_file "old_runs" safe in
    if fv_exists v oldRunsPath then Ok oldRunsPath
    else
      let legacyTerminalPath := run_file "old_sprints" safe in
      if fv_exists v legacyTerminalPath then Ok legacyTerminalPath
      else if negb (bool_decide (safe = runId)) && fv_exists v (run_file "old_runs" runId)
           then Ok (run_file "old_runs" runId)
           else Ok oldRunsPath.

(** ** The watchdog's lookup *)

(** [readTerminalRunState]: [null] when it cannot be read or parsed. *)
Definition readTerminalRunState (v : fs_view) (path : string) : jsval :=
  default JNull (fv_read v path).

(** One [try] block: a state to return, or fall through. *)
Definition terminal_lookup (v : fs_view) (key : string) : option jsval :=
  match getTerminalRunStatePath v key with
  | Throw _ => None
  | Ok p => if fv_exists v p then Some (readTerminalRunState v p) else None
  end.

Definition defaultHasTerminalState (v : fs_view) (sprintId : string) (branch : option string) : jsval :=
  match terminal_lookup v sprintId with
  | Some st => st
  | None =>
      match branch with
      | Some b =>
          if nonempty b && negb (bool_decide (b = sprintId))
          then default JNull (terminal_lookup v b)
          else JNull
      | None => JNull
      end
  end.

(** ** What the lookup finds *)

Lemma replace_seps_safe in_run s : string_all (fun c => negb (is_sep c)) (replace_seps in_run s) = true.
Proof.
  revert in_run. induction s as [|c s IH]; intros in_run; simpl; [done|].
  destruct (is_sep c) eqn:Hc.
  - destruct in_run; [apply IH|]. cbn [string_all]. by rewrite IH.
  - cbn [string_all]. by rewrite Hc, IH.
Qed.

Lemma replace_seps_id s : string_all (fun c => negb (is_sep c)) s = true -> replace_seps false s = s.
Proof.
  induction s as [|c s IH]; simpl; [done|]. intros [Hc Hs]%andb_true_iff.
  apply negb_true_iff in Hc. rewrite Hc. by rewrite IH.
Qed.

Lemma sanitize_idem runId :
  sanitizeRunIdForFilename (sanitizeRunIdForFilename runId) = sanitizeRunIdForFilename runId.
Proof. apply replace_seps_id, replace_seps_safe. Qed.

(** A finished run is always found.  When the run's terminal state was
    written where the writer puts it (the flat [old_runs] file of its
    sanitized id), or is present only under the legacy directory or under the
    legacy nested name, the lookup by run id returns that file's state; and
    the path handed to a writer of a fresh run is the flat one, whose name
    contains no separator. *)
Theorem terminal_state_found v runId branch st :
  runId ≠ "" ->
  let flat := run_file "old_runs" (sanitizeRunIdForFilename runId) in
  let legacy := run_file "old_sprints" (sanitizeRunIdForFilename runId) in
  let nested := run_file "old_runs" runId in
  (fv_exists v flat = true /\ fv_read v flat = Some st \/
   fv_exists v flat = false /\ fv_exists v legacy = true /\ fv_read v legacy = Some st \/
   fv_exists v flat = false /\ fv_exists v legacy = false /\
     fv_exists v nested = true /\ fv_read v nested = Some st ->
   defaultHasTerminalState v runId branch = st) /\
  (fv_exists v flat = false -> fv_exists v legacy = false -> fv_exists v nested = false ->
   getTerminalRunStatePath v runId = Ok flat) /\
  string_all (fun c => negb (is_sep c)) (sanitizeRunIdForFilename runId) = true.
Proof.
  intros Hne%nonempty_spec flat legacy nested.
  split; [|split; [|apply replace_seps_safe]].
  - intros Hcase. unfold defaultHasTerminalState, terminal_lookup, getTerminalRunStatePath.
    rewrite Hne. cbn [negb]. fold flat legacy nested.
    destruct Hcase as [[He Hr]|[(He & Hl & Hr)|(He & Hl & Hn & Hr)]].
    + rewrite He, He. unfold readTerminalRunState. by rewrite Hr.
    + rewrite He, Hl, Hl. unfold readTerminalRunState. by rewrite Hr.
    + rewrite He, Hl, Hn. destruct (bool_decide_reflect (sanitizeRunIdForFilename runId = runId)) as [Heq|Hd].
      * exfalso. unfold flat in He. rewrite Heq in He. unfold nested in Hn. congruence.
      * cbn [negb andb]. rewrite Hn. unfold readTerminalRunState. by rewrite Hr.
  - intros He Hl Hn. unfold getTerminalRunStatePath. rewrite Hne. cbn [negb].
    fold flat legacy nested. rewrite He, Hl, Hn. by rewrite andb_false_r.
Qed.

Definition demo_view : fs_view :=
  {| fv_exists := fun p => bool_decide (p = "old_runs/fix_x.json");
     fv_read := fun p => if decide (p = "old_runs/fix_x.json")
                         then Some (JObj [("status", JStr "done")]) else None |}.

Lemma terminal_state_found_witness :
  defaultHasTerminalState demo_view "fix/x" None = JObj [("status", JStr "done")].
Proof.
  apply (terminal_state_found demo_view "fix/x" None (JObj [("status", JStr "done")])).
  - discriminate.
  - left. split; vm_compute; reflexivity.
Defined.
