(* ===== verification/Watchdog.v ===== *)
(** * The liveness watchdog ([src/supervisor/watchdog.mjs])

    One classification of a ledger entry, with everything it does: the probes,
    the one-shot recorders, the automatic release of a dead sprint's
    reservation.  [classifyAll] classifies the entries of one snapshot
    concurrently; each works on its own sprint and the two stores serialise
    their writes, so it is modelled entry by entry.  [history.record] is
    called without waiting and its failure is only logged. *)

From S2P Require Import Prelude JsMap JsVal Text AtomicFile Reservation History Store RunState.
Local Open Scope string_scope.
Local Open Scope list_scope.

Inductive WATCHDOG_STATUS :=
| RUNNING_HEALTHY | PAUSED | RUNNING_UNRESPONSIVE | CRASHED | FINISHED_ST | LAUNCH_FAILED_ST.

#[export] Instance watchdog_status_eq_dec : EqDecision WATCHDOG_STATUS.
Proof. solve_decision. Defined.

Definition status_name (s : WATCHDOG_STATUS) : string :=
  match s with
  | RUNNING_HEALTHY => "running-healthy"
  | PAUSED => "paused"
  | RUNNING_UNRESPONSIVE => "running-unresponsive"
  | CRASHED => "crashed"
  | FINISHED_ST => "finished"
  | LAUNCH_FAILED_ST => "launch-failed"
  end.

Definition WATCHDOG_DEFAULT_LAUNCH_FAILED_WINDOW_MS : Z := 60000.

(** ** Probes *)

(** [makeChildPidProbe]: existence, and the marker on the command line when
    both a marker and the command line are available. *)
Definition makeChildPidProbe (isAlive : Z -> bool) (readCmdline : Z -> option string)
    (pid : Z) (marker : option string) : bool :=
  if negb (isAlive pid) then false
  else match marker with
       | None => true
       | Some m =>
           if negb (nonempty m) then true
           else match readCmdline pid with
                | None => true
                | Some cmd => includes m cmd
                end
       end.

(** [formatExitDetail] of a ledger entry. *)
Definition formatExitDetail (r : reservation) : string :=
  let signal_ := match signal r with Some s => if nonempty s then Some s else None | None => None end in
  let at_ := match exitedAt r with
             | Some t => if nonempty t then " at " +:+ t else ""
             | None => ""
             end in
  match exitCode r, signal_ with
  | None, None => "pid gone"
  | Some c, Some s => "exited " +:+ pretty c +:+ " (signal " +:+ s +:+ ")" +:+ at_
  | Some c, None => "exited " +:+ pretty c +:+ at_
  | None, Some s => "killed by signal " +:+ s +:+ at_
  end.

(** [formatFinishedDetail]; [show] is [String] on the state's values. *)
Definition formatFinishedDetail (show : jsval -> string) (state : jsval) : string :=
  if negb (truthy state && typeof_object state) then "finished"
  else
    let terminalReason := coalesce (prop "terminalReason" state) JNull in
    let verdict := coalesce (prop "verdict" (prop "terminal" (prop "extensions" state))) JNull in
    let parts := (if truthy terminalReason then ["terminalReason=" +:+ show terminalReason] else [])
                 ++ (if truthy verdict then ["verdict=" +:+ show verdict] else []) in
    match parts with [] => "finished" | _ => String.concat " " parts end.

(** [(state && typeof state === 'object' && x) || null] *)
Definition object_field (state x : jsval) : jsval :=
  if truthy state && typeof_object state && truthy x then x else JNull.

(** The event [defaultRecordFinished] records. *)
Definition finished_entry (sprintId : string) (state : jsval) : hentry :=
  {| i_sprintId := JStr sprintId; i_event := JStr FINISHED; i_reason := JUndef; i_by := JUndef;
     i_members := None; i_issueRoots := None; i_at := JUndef; i_exitCode := JUndef;
     i_signal := JUndef; i_logPath := JUndef;
     i_terminalReason := object_field state (prop "terminalReason" state);
     i_verdict := object_field state (prop "verdict" (prop "terminal" (prop "extensions" state))) |}.

Definition launch_failed_entry (sprintId detail : string) : hentry :=
  {| i_sprintId := JStr sprintId; i_event := JStr LAUNCH_FAILED;
     i_reason := JStr ("watchdog: child exited within launch window (" +:+ detail +:+ ")");
     i_by := JUndef; i_members := None; i_issueRoots := None; i_at := JUndef;
     i_exitCode := JUndef; i_signal := JUndef; i_logPath := JUndef;
     i_terminalReason := JUndef; i_verdict := JUndef |}.

Definition auto_released_entry (sprintId : string) (st : WATCHDOG_STATUS) (detail : string)
    (ms roots : list string) : hentry :=
  {| i_sprintId := JStr sprintId; i_event := JStr AUTO_RELEASED;
     i_reason := JStr ("watchdog: classified " +:+ status_name st +:+ " (" +:+ detail +:+ ")");
     i_by := JUndef; i_members := Some ms; i_issueRoots := Some roots; i_at := JUndef;
     i_exitCode := JUndef; i_signal := JUndef; i_logPath := JUndef;
     i_terminalReason := JUndef; i_verdict := JUndef |}.

(** ** What the probes answer during one pass *)

Record probes := {
  pr_port : string -> option Z;                   (** [resolvePort] *)
  pr_alive : Z -> option string -> bool;          (** [isChildAlive] *)
  pr_http : Z -> result bool;                     (** [probeHttp] *)
  pr_pause : Z -> result (option string);         (** [probePauseState] *)
  pr_terminal : string -> option string -> jsval; (** [hasTerminalState] *)
  pr_date : string -> option Z;                   (** [new Date(s).getTime()]; [None]: NaN *)
  pr_now : string;                                (** the history's clock *)
  pr_release_io : string -> io_env;
  pr_record_io : string -> io_env
}.

(** [isLaunchFailed] *)
Definition isLaunchFailed (window : Z) (p : probes) (r : reservation) : bool :=
  match exitedAt r with
  | None => false
  | Some ex =>
      if negb (nonempty ex) then false
      else if negb (nonempty (reservedAt r)) then false
      else match pr_date p ex, pr_date p (reservedAt r) with
           | Some exitedMs, Some reservedMs =>
               let runTimeMs := Z.max 0 (exitedMs - reservedMs) in
               (0 <? runTimeMs)%Z && (runTimeMs <? window)%Z
           | _, _ => false
           end
  end.

(** ** State *)

(** A call of [recordTerminalError]. *)
Record terminal_error := { te_sprintId : string; te_childPid : option Z; te_detail : string }.

Record watchdog (L H : Type) := {
  w_ledger : L; w_history : H;
  recordedCrashes : list string;
  recordedFinishes : list string;
  recordedLaunchFailures : list string;
  w_errors : list terminal_error
}.
Arguments w_ledger {L H} _.
Arguments w_history {L H} _.
Arguments recordedCrashes {L H} _.
Arguments recordedFinishes {L H} _.
Arguments recordedLaunchFailures {L H} _.
Arguments w_errors {L H} _.

Record classification := {
  cl_sprintId : string; cl_status : WATCHDOG_STATUS; cl_pidAlive : bool; cl_httpOk : bool;
  cl_childPid : option Z; cl_port : option Z; cl_pauseStatus : option string;
  cl_detail : option string; cl_terminalState : option jsval
}.

Section classify.
Context {L H : Type} `{ReservationStore L} `{HistoryStore H}.
Context (window : Z).

Notation wd := (watchdog L H).

(** [history.record(...)], not awaited. *)
Definition fire_record (p : probes) (sprintId : string) (e : hentry) (h : H) : H :=
  (hs_record (pr_record_io p sprintId) (pr_now p) e h).1.

(** [releaseTerminalReservation] *)
Definition releaseTerminalReservation (p : probes) (sprintId : string) (st : WATCHDOG_STATUS)
    (detail : string) (w : wd) : wd :=
  let entry := st_get sprintId (w_ledger w) in
  let ms := default [] (members <$> entry) in
  let roots := default [] (issueRoots <$> entry) in
  match st_release (pr_release_io p sprintId) sprintId (w_ledger w) with
  | (l', Ok true) =>
      {| w_ledger := l';
         w_history := fire_record p sprintId (auto_released_entry sprintId st detail ms roots) (w_history w);
         recordedCrashes := recordedCrashes w; recordedFinishes := recordedFinishes w;
         recordedLaunchFailures := recordedLaunchFailures w; w_errors := w_errors w |}
  | (l', _) =>
      {| w_ledger := l'; w_history := w_history w;
         recordedCrashes := recordedCrashes w; recordedFinishes := recordedFinishes w;
         recordedLaunchFailures := recordedLaunchFailures w; w_errors := w_errors w |}
  end.

(** The one-shot recorder of the status just decided. *)
Definition record_terminal (p : probes) (sprintId : string) (r : reservation)
    (st : WATCHDOG_STATUS) (terminalState : jsval) (w : wd) : wd :=
  match st with
  | FINISHED_ST =>
      if bool_decide (sprintId ∈ recordedFinishes w) then w else
      {| w_ledger := w_ledger w;
         w_history := fire_record p sprintId (finished_entry sprintId terminalState) (w_history w);
         recordedCrashes := recordedCrashes w;
         recordedFinishes := recordedFinishes w ++ [sprintId];
         recordedLaunchFailures := recordedLaunchFailures w; w_errors := w_errors w |}
  | LAUNCH_FAILED_ST =>
      if bool_decide (sprintId ∈ recordedLaunchFailures w) then w else
      {| w_ledger := w_ledger w;
         w_history := fire_record p sprintId (launch_failed_entry sprintId (formatExitDetail r)) (w_history w);
         recordedCrashes := recordedCrashes w; recordedFinishes := recordedFinishes w;
         recordedLaunchFailures := recordedLaunchFailures w ++ [sprintId]; w_errors := w_errors w |}
  | CRASHED =>
      if bool_decide (sprintId ∈ recordedCrashes w) then w else
      {| w_ledger := w_ledger w; w_history := w_history w;
         recordedCrashes := recordedCrashes w ++ [sprintId];
         recordedFinishes := recordedFinishes w;
         recordedLaunchFailures := recordedLaunchFailures w;
         w_errors := w_errors w ++ [{| te_sprintId := sprintId; te_childPid := childPid r;
                                       te_detail := formatExitDetail r |}] |}
  | _ => w
  end.

Definition port_marker (port : option Z) : option string :=
  match port with Some n => Some ("--viewer-port " +:+ pretty n) | None => None end.

Definition pid_alive (p : probes) (sprintId : string) (r : reservation) : bool :=
  match childPid r with
  | Some pid => pr_alive p pid (port_marker (pr_port p sprintId))
  | None => false
  end.

Definition http_ok (p : probes) (port : option Z) : bool :=
  match port with
  | Some n => match pr_http p n with Ok b => b | Throw _ => false end
  | None => false
  end.

Definition pause_status (p : probes) (port : option Z) : option string :=
  match port with
  | Some n => if http_ok p port
              then match pr_pause p n with Ok s => s | Throw _ => None end
              else None
  | None => None
  end.

(** The status of a sprint whose process is gone. *)
Definition gone_status (p : probes) (r : reservation) (terminalState : jsval) : WATCHDOG_STATUS :=
  if truthy terminalState then FINISHED_ST
  else if isLaunchFailed window p r then LAUNCH_FAILED_ST
  else CRASHED.

Definition classifySprint (p : probes) (entry : string * reservation) (w : wd)
    : wd * classification :=
  let '(sprintId, r) := entry in
  let port := pr_port p sprintId in
  if pid_alive p sprintId r
  then
    let httpOk := http_ok p port in
    let pauseStatus := pause_status p port in
    let st := if bool_decide (pauseStatus = Some "paused") then PAUSED
              else if httpOk then RUNNING_HEALTHY else RUNNING_UNRESPONSIVE in
    (w, {| cl_sprintId := sprintId; cl_status := st; cl_pidAlive := true; cl_httpOk := httpOk;
           cl_childPid := childPid r; cl_port := port;
           cl_pauseStatus := (match pauseStatus with
                              | Some s => if nonempty s then Some s else None
                              | None => None
                              end);
           cl_detail := None; cl_terminalState := None |})
  else
    let detail := formatExitDetail r in
    let terminalState := pr_terminal p sprintId (branch r) in
    let st := gone_status p r terminalState in
    let w1 := record_terminal p sprintId r st terminalState w in
    let w2 := releaseTerminalReservation p sprintId st detail w1 in
    (w2, {| cl_sprintId := sprintId; cl_status := st; cl_pidAlive := false; cl_httpOk := false;
            cl_childPid := childPid r; cl_port := port; cl_pauseStatus := None;
            cl_detail := Some detail;
            cl_terminalState := if truthy terminalState then Some terminalState else None |}).

Fixpoint classify_entries (p : probes) (entries : list (string * reservation)) (w : wd)
    : wd * list classification :=
  match entries with
  | [] => (w, [])
  | e :: entries' =>
      let '(w1, c) := classifySprint p e w in
      let '(w2, cs) := classify_entries p entries' w1 in
      (w2, c :: cs)
  end.

Definition classifyAll (p : probes) (w : wd) : wd * list classification :=
  classify_entries p (st_list (w_ledger w)) w.

(** Passes of the watchdog one after the other, each with its own probes. *)
Fixpoint ticks (ps : list probes) (w : wd) : wd :=
  match ps with
  | [] => w
  | p :: ps' => ticks ps' (classifyAll p w).1
  end.
End classify.

(** [createWatchdog] at start. *)
Definition createWatchdog {L H : Type} (l : L) (h : H) : watchdog L H :=
  {| w_ledger := l; w_history := h; recordedCrashes := []; recordedFinishes := [];
     recordedLaunchFailures := []; w_errors := [] |}.

(** ** The interval timer *)

(** Interval-triggered passes in flight, and ticks skipped. *)
Record timer := { t_inflight_flag : bool; t_running : nat; t_skipped : nat }.

Definition on_tick (t : timer) : timer :=
  if t_inflight_flag t
  then {| t_inflight_flag := true; t_running := t_running t; t_skipped := S (t_skipped t) |}
  else {| t_inflight_flag := true; t_running := S (t_running t); t_skipped := t_skipped t |}.

(** A pass settles, with or without an error. *)
Definition on_settled (t : timer) : timer :=
  {| t_inflight_flag := false; t_running := pred (t_running t); t_skipped := t_skipped t |}.
