(* ===== verification/WatchdogProps.v ===== *)
(** * What the watchdog guarantees

    Proved against the two store interfaces; the witnesses run the watchdog on
    the ledger and the history of this development. *)

From S2P Require Import Prelude JsMap JsVal AtomicFile Reservation Ledger LedgerProps History.
From S2P Require Import Store Process Spawner Reconcile ReconcileProps Watchdog.
Local Open Scope string_scope.
Local Open Scope list_scope.

(** [record] stores the sprint and the event name it is given. *)
Lemma stored_event_name now i e :
  stored_event now i = Ok e ->
  i_sprintId i = JStr (e_sprintId e) /\ i_event i = JStr (e_event e).
Proof.
  unfold stored_event. destruct (as_nonempty_str (i_sprintId i)) as [s|] eqn:Hs; [|done].
  destruct (as_nonempty_str (i_event i)) as [ev|] eqn:He; [|done].
  apply as_nonempty_str_Some in Hs as [-> _], He as [-> _]. by intros [= <-].
Qed.

(** The events named [ev] of sprint [s] in a log. *)
Definition named (ev s : string) (e : hevent) : Prop := e_event e = ev /\ e_sprintId e = s.
#[global] Instance named_dec ev s e : Decision (named ev s e) := and_dec _ _.
Definition occurrences (ev s : string) (es : list hevent) : nat := length (filter (named ev s) es).

Lemma occurrences_app ev s es es' :
  occurrences ev s (es ++ es') = occurrences ev s es + occurrences ev s es'.
Proof. unfold occurrences. by rewrite filter_app, length_app. Qed.

Section watchdog_props.
Context {L H : Type} `{HL : ReservationStore L} `{HH : HistoryStore H} (inv : L -> Prop).
Context `{!ReservationStoreLaws L inv, !HistoryStoreLaws H}.
Context (window : Z).

Notation wd := (watchdog L H).

(** ** One classification *)

(** [es] are events recorded for an entry [i], at most one. *)
Definition at_most_recorded (i : hentry) (es : list hevent) : Prop :=
  es = [] \/ exists e, es = [e] /\ i_sprintId i = JStr (e_sprintId e) /\ i_event i = JStr (e_event e).

Lemma fire_record_spec (p : probes) s i (h : H) :
  exists es, hs_events (fire_record p s i h) = hs_events h ++ es /\ at_most_recorded i es.
Proof.
  unfold fire_record. destruct (hs_record _ _ i h) as [h' [e|x]] eqn:Hr; simpl.
  - apply hs_record_Ok in Hr as [Hst ->]. exists [e]. split; [done|]. right.
    exists e. split; [done|]. by eapply stored_event_name.
  - apply hs_record_Throw in Hr as ->. exists []. rewrite app_nil_r. split; [done|]. by left.
Qed.

Lemma occurrences_at_most ev s i es ev' s' :
  at_most_recorded i es -> i_sprintId i = JStr s -> i_event i = JStr ev ->
  occurrences ev' s' es <= (if decide (ev = ev' /\ s = s') then 1 else 0).
Proof.
  intros [->|(e & -> & Hs & He)] Hs' He'; [unfold occurrences; simpl; lia|].
  rewrite Hs in Hs'. rewrite He in He'. simplify_eq. unfold occurrences.
  rewrite filter_cons, filter_nil. unfold named. repeat case_decide; simpl; naive_solver lia.
Qed.

(** What a release by the watchdog does to the ledger and to the log. *)
Lemma releaseTerminal_spec (p : probes) s st detail (w : wd) :
  inv (w_ledger w) ->
  let w' := releaseTerminalReservation p s st detail w in
  inv (w_ledger w') /\
  (recordedCrashes w', recordedFinishes w', recordedLaunchFailures w', w_errors w')
    = (recordedCrashes w, recordedFinishes w, recordedLaunchFailures w, w_errors w) /\
  exists es, hs_events (w_history w') = hs_events (w_history w) ++ es /\
    ((st_list (w_ledger w') = st_list (w_ledger w) /\ es = []) \/
     (st_list (w_ledger w') = jdel s (st_list (w_ledger w)) /\
      (es = [] \/ jhas s (st_list (w_ledger w)) = true) /\
      exists ms roots, at_most_recorded (auto_released_entry s st detail ms roots) es)).
Proof.
  intros Hinv. unfold releaseTerminalReservation.
  destruct (st_release _ s (w_ledger w)) as [l' [b|x]] eqn:Hr.
  - destruct (st_release_Ok _ _ _ _ _ Hinv Hr) as (Hi & Hl & Hb). destruct b; cbn -[fire_record].
    + edestruct fire_record_spec as (es & Hes & Hm). split; [done|]. split; [done|].
      exists es. split; [exact Hes|]. right. split; [done|]. split; [by right|]. eauto.
    + split; [done|]. split; [done|]. exists []. rewrite app_nil_r. split; [done|]. right.
      split; [done|]. split; [by left|]. exists [], []. by left.
  - destruct (st_release_Throw _ _ _ _ _ Hinv Hr) as (Hi & Hl). cbn.
    split; [done|]. split; [done|]. exists []. rewrite app_nil_r. split; [done|]. by left.
Qed.

(** The log entry a terminal status is recorded with, and its recorder. *)
Definition recorder_event (st : WATCHDOG_STATUS) : option string :=
  match st with FINISHED_ST => Some FINISHED | LAUNCH_FAILED_ST => Some LAUNCH_FAILED | _ => None end.

(** The one-shot state: what was recorded is what the sets remember. *)
Definition one_shot (h0 : list hevent) (w : wd) : Prop :=
  te_sprintId <$> w_errors w = recordedCrashes w /\ NoDup (recordedCrashes w) /\
  exists es, hs_events (w_history w) = h0 ++ es /\
    forall s, occurrences FINISHED s es <= (if decide (s ∈ recordedFinishes w) then 1 else 0) /\
              occurrences LAUNCH_FAILED s es
                <= (if decide (s ∈ recordedLaunchFailures w) then 1 else 0).

Lemma one_shot_create h0 (l : L) (h : H) : h0 = hs_events h -> one_shot h0 (createWatchdog l h).
Proof.
  intros ->. split; [done|]. split; [apply NoDup_nil_2|]. exists []. rewrite app_nil_r.
  split; [done|]. intros s. unfold occurrences. simpl. split; apply Nat.le_0_l.
Qed.

Lemma record_terminal_ledger (p : probes) s r st ts (w : wd) :
  w_ledger (record_terminal p s r st ts w) = w_ledger w.
Proof. destruct st; simpl; try done; by case_bool_decide. Qed.

Lemma one_shot_record_terminal h0 (p : probes) s r st ts (w : wd) :
  one_shot h0 w -> one_shot h0 (record_terminal p s r st ts w).
Proof.
  intros (He & Hnd & es & Hes & Hocc). destruct st; simpl; try (split_and!; eauto; fail);
    case_bool_decide as Hin; try (split; [done|]; split; [done|]; by exists es);
    unfold one_shot;
    cbn [w_errors w_history recordedCrashes recordedFinishes recordedLaunchFailures].
  - split; [by rewrite fmap_app, He|]. split; [|by exists es].
    apply NoDup_app. split; [done|]. split; [set_solver|apply NoDup_singleton].
  - split; [done|]. split; [done|].
    destruct (fire_record_spec p s (finished_entry s ts) (w_history w)) as (es' & Hes' & Hm).
    exists (es ++ es'). simpl. rewrite Hes', Hes, (assoc_L (++)). split; [done|]. intros s'.
    rewrite !occurrences_app. destruct (Hocc s') as [H1 H2].
    pose proof (occurrences_at_most FINISHED s _ _ FINISHED s' Hm eq_refl eq_refl) as H3.
    pose proof (occurrences_at_most FINISHED s _ _ LAUNCH_FAILED s' Hm eq_refl eq_refl) as H4.
    rewrite (decide_False (P := FINISHED = LAUNCH_FAILED /\ s = s')) in H4 by (intros [? _]; done).
    repeat case_decide; split; try lia; set_solver.
  - split; [done|]. split; [done|].
    destruct (fire_record_spec p s (launch_failed_entry s (formatExitDetail r)) (w_history w))
      as (es' & Hes' & Hm).
    exists (es ++ es'). simpl. rewrite Hes', Hes, (assoc_L (++)). split; [done|]. intros s'.
    rewrite !occurrences_app. destruct (Hocc s') as [H1 H2].
    pose proof (occurrences_at_most LAUNCH_FAILED s _ _ FINISHED s' Hm eq_refl eq_refl) as H3.
    pose proof (occurrences_at_most LAUNCH_FAILED s _ _ LAUNCH_FAILED s' Hm eq_refl eq_refl) as H4.
    rewrite (decide_False (P := LAUNCH_FAILED = FINISHED /\ s = s')) in H3 by (intros [? _]; done).
    repeat case_decide; split; try lia; set_solver.
Qed.

Lemma one_shot_release h0 (p : probes) s st detail (w : wd) :
  inv (w_ledger w) -> one_shot h0 w -> one_shot h0 (releaseTerminalReservation p s st detail w).
Proof.
  intros Hinv (He & Hnd & es & Hes & Hocc).
  destruct (releaseTerminal_spec p s st detail w Hinv) as (_ & Hsame & es' & Hes' & Hcase).
  injection Hsame as Hc Hf Hl Hw. unfold one_shot. rewrite Hc, Hf, Hl, Hw.
  split; [done|]. split; [done|].
  exists (es ++ es'). rewrite Hes', Hes, (assoc_L (++)). split; [done|]. intros s'.
  rewrite !occurrences_app. destruct (Hocc s') as [H1 H2].
  destruct Hcase as [[_ ->]|(_ & _ & ms & roots & Hm)].
  { unfold occurrences in *. simpl. split; lia. }
  pose proof (occurrences_at_most AUTO_RELEASED s _ _ FINISHED s' Hm eq_refl eq_refl) as H3.
  pose proof (occurrences_at_most AUTO_RELEASED s _ _ LAUNCH_FAILED s' Hm eq_refl eq_refl) as H4.
  rewrite decide_False in H3 by (intros [? _]; done).
  rewrite decide_False in H4 by (intros [? _]; done). split; lia.
Qed.

(** ** A pass over the ledger *)

Definition gone (p : probes) (e : string * reservation) : Prop := pid_alive p e.1 e.2 = false.
#[global] Instance gone_dec p e : Decision (gone p e) := bool_eq_dec _ _.

Lemma filter_gone_cons p s r es :
  filter (gone p) ((s, r) :: es)
    = if pid_alive p s r then filter (gone p) es else (s, r) :: filter (gone p) es.
Proof.
  rewrite filter_cons. case_decide as Hd; unfold gone in Hd; cbn [fst snd] in Hd.
  - by rewrite Hd.
  - by destruct (pid_alive p s r).
Qed.

Lemma classifySprint_spec (p : probes) s r (w : wd) :
  inv (w_ledger w) ->
  let '(w', c) := classifySprint window p (s, r) w in
  inv (w_ledger w') /\ cl_sprintId c = s /\ cl_pidAlive c = pid_alive p s r /\
  if pid_alive p s r then w' = w
  else (st_list (w_ledger w') = st_list (w_ledger w) \/
        st_list (w_ledger w') = jdel s (st_list (w_ledger w))) /\
       (pr_release_io p s = io_ok -> s ≠ "" ->
        st_list (w_ledger w') = jdel s (st_list (w_ledger w))).
Proof.
  intros Hinv. unfold classifySprint. destruct (pid_alive p s r) eqn:Ha; [done|].
  cbn zeta. set (st := gone_status window p r _). set (ts := pr_terminal p s (branch r)).
  set (w1 := record_terminal p s r st ts w).
  assert (w_ledger w1 = w_ledger w) as Hw1 by apply record_terminal_ledger.
  assert (inv (w_ledger w1)) as Hi1 by by rewrite Hw1.
  destruct (releaseTerminal_spec p s st (formatExitDetail r) w1 Hi1)
    as (Hi2 & _ & es & _ & Hcase). rewrite Hw1 in Hcase.
  split; [done|]. split; [done|]. split; [done|].
  split; [destruct Hcase as [[? _]|[? _]]; auto|].
  intros Hio Hs. unfold releaseTerminalReservation. rewrite Hio, Hw1.
  destruct (st_release_io_ok s (w_ledger w) Hs) as (l' & b & Hr). rewrite Hr.
  destruct (st_release_Ok _ _ _ _ _ Hinv Hr) as (_ & Hl & _). by destruct b.
Qed.

Lemma classify_entries_spec (p : probes) es (w : wd) :
  inv (w_ledger w) ->
  let '(w', cs) := classify_entries window p es w in
  inv (w_ledger w') /\ cl_sprintId <$> cs = es.*1 /\
  cl_pidAlive <$> cs = (fun e => pid_alive p e.1 e.2) <$> es /\
  exists ks, st_list (w_ledger w') = jdel_all ks (st_list (w_ledger w)) /\
    ks `sublist_of` (filter (gone p) es).*1 /\
    ((forall s, pr_release_io p s = io_ok) -> Forall (fun e => e.1 ≠ "") es ->
     ks = (filter (gone p) es).*1).
Proof.
  revert w. induction es as [|[s r] es IH]; intros w Hinv; cbn [classify_entries].
  { split_and!; try done. exists []. by rewrite jdel_all_nil. }
  pose proof (classifySprint_spec p s r w Hinv) as Hc.
  destruct (classifySprint window p (s, r) w) as [w1 c].
  destruct Hc as (Hi1 & Hid & Hal & Hw1). specialize (IH w1 Hi1).
  destruct (classify_entries window p es w1) as [w2 cs].
  destruct IH as (Hi2 & Hids & Hals & ks & Hl & Hsub & Hall).
  split; [done|]. rewrite !fmap_cons, Hids, Hals, Hid, Hal. split; [done|]. split; [done|].
  rewrite filter_gone_cons. destruct (pid_alive p s r).
  { subst w1. exists ks. split; [done|]. split; [done|].
    intros Hio [_ Hne]%Forall_cons. by apply Hall. }
  destruct Hw1 as [Hkeep Hrel]. cbn [fmap list_fmap fst].
  assert (st_list (w_ledger w1) = jdel s (st_list (w_ledger w)) \/
          (st_list (w_ledger w1) = st_list (w_ledger w) /\
           ~ (pr_release_io p s = io_ok /\ s ≠ ""))) as [Hdel|[Hsame Hno]].
  { destruct Hkeep as [Hsame|?]; [|by left].
    destruct (jget s (st_list (w_ledger w))) as [r'|] eqn:Hg.
    - right. split; [done|]. intros [Hio Hs]. specialize (Hrel Hio Hs).
      rewrite Hsame in Hrel. by rewrite Hrel, jget_jdel_eq in Hg.
    - left. by rewrite Hsame, jdel_absent. }
  - exists (s :: ks). rewrite jdel_all_cons, <-Hdel. split; [done|].
    split; [by constructor|]. intros Hio' [_ Hne]%Forall_cons. f_equal. by apply Hall.
  - exists ks. rewrite Hl, Hsame. split; [done|]. split; [by apply sublist_cons|].
    intros Hio' [Hs _]%Forall_cons. by destruct Hno.
Qed.

Lemma ledger_keys_nonempty (l : L) : inv l -> Forall (fun e => e.1 ≠ "") (st_list l).
Proof.
  intros Hinv. apply Forall_forall. intros [s r] Hin. apply jget_elem in Hin; [|by apply st_list_wf].
  by eapply st_keys.
Qed.

Lemma classifyAll_keeps_live (p : probes) (w : wd) s r :
  inv (w_ledger w) -> jget s (st_list (w_ledger w)) = Some r -> pid_alive p s r = true ->
  inv (w_ledger (classifyAll window p w).1) /\
  jget s (st_list (w_ledger (classifyAll window p w).1)) = Some r.
Proof.
  intros Hinv Hs Ha. unfold classifyAll.
  pose proof (classify_entries_spec p (st_list (w_ledger w)) w Hinv) as Hc.
  destruct (classify_entries window p _ w) as [w' cs]. cbn [fst].
  destruct Hc as (Hi & _ & _ & ks & Hl & Hsub & _). split; [done|].
  rewrite Hl, jget_jdel_all; [done|]. intros Hin. eapply elem_of_sublist in Hin; [|exact Hsub].
  apply list_elem_of_fmap in Hin as ([s' r'] & -> & [Hg Hin]%list_elem_of_filter).
  apply jget_elem in Hin; [|by apply st_list_wf]. cbn [fst] in Hs. rewrite Hin in Hs.
  injection Hs as <-. unfold gone in Hg. cbn [fst snd] in *. congruence.
Qed.

(** C20: However many passes run and whatever the HTTP, pause and terminal-state
    probes answer or the file system does, a sprint whose child is alive keeps
    its reservation untouched: an unresponsive or paused child is never
    released. *)
Theorem watchdog_never_releases_live ps (w : wd) s r :
  inv (w_ledger w) -> jget s (st_list (w_ledger w)) = Some r ->
  Forall (fun p => pid_alive p s r = true) ps ->
  jget s (st_list (w_ledger (ticks window ps w))) = Some r.
Proof.
  intros Hinv Hs Hall. revert w Hinv Hs. induction Hall as [|p ps Hp _ IH]; intros w Hinv Hs; [done|].
  cbn [ticks]. destruct (classifyAll_keeps_live p w s r Hinv Hs Hp). by apply IH.
Qed.

(** When the ledger's file can be written, one pass releases exactly the
    reservations whose child is gone, and it reports every reserved sprint
    once, with its liveness. *)
Theorem watchdog_pass_clears_dead (p : probes) (w w' : wd) cs :
  inv (w_ledger w) -> (forall s, pr_release_io p s = io_ok) ->
  classifyAll window p w = (w', cs) ->
  st_list (w_ledger w') = filter (fun e => ~ gone p e) (st_list (w_ledger w)) /\
  cl_sprintId <$> cs = (st_list (w_ledger w)).*1 /\
  cl_pidAlive <$> cs = (fun e => pid_alive p e.1 e.2) <$> st_list (w_ledger w).
Proof.
  intros Hinv Hio Hr. unfold classifyAll in Hr.
  pose proof (classify_entries_spec p (st_list (w_ledger w)) w Hinv) as Hc. rewrite Hr in Hc.
  destruct Hc as (_ & Hids & Hals & ks & Hl & _ & Hall).
  rewrite Hl, Hall by (done || by apply ledger_keys_nonempty).
  by rewrite jdel_all_filter by by apply st_list_wf.
Qed.

(** ** Any number of passes, other writers of the ledger in between *)

Inductive wstep : wd -> wd -> Prop :=
| ws_pass p w : wstep w (classifyAll window p w).1
| ws_other l w : inv l ->
    wstep w {| w_ledger := l; w_history := w_history w; recordedCrashes := recordedCrashes w;
               recordedFinishes := recordedFinishes w;
               recordedLaunchFailures := recordedLaunchFailures w; w_errors := w_errors w |}.

Lemma one_shot_entries h0 (p : probes) es (w : wd) :
  inv (w_ledger w) -> one_shot h0 w ->
  inv (w_ledger (classify_entries window p es w).1) /\
  one_shot h0 (classify_entries window p es w).1.
Proof.
  revert w. induction es as [|[s r] es IH]; intros w Hinv Hos; cbn [classify_entries]; [done|].
  pose proof (classifySprint_spec p s r w Hinv) as Hc.
  assert (one_shot h0 (classifySprint window p (s, r) w).1) as Hos1.
  { unfold classifySprint. destruct (pid_alive p s r); [done|]. cbn [fst].
    apply one_shot_release; [by rewrite record_terminal_ledger|]. by apply one_shot_record_terminal. }
  destruct (classifySprint window p (s, r) w) as [w1 c]. destruct Hc as (Hi1 & _).
  specialize (IH w1 Hi1 Hos1). by destruct (classify_entries window p es w1).
Qed.

(** From the start of the watchdog on, over any number of passes, and
    whatever the rest of the supervisor does to the ledger in between, each
    sprint is recorded as finished at most once, as launch-failed at most once,
    and reported as crashed at most once. *)
Theorem watchdog_records_once (l : L) (h : H) (w : wd) :
  inv l -> rtc wstep (createWatchdog l h) w ->
  exists es, hs_events (w_history w) = hs_events h ++ es /\
    forall s, occurrences FINISHED s es <= 1 /\ occurrences LAUNCH_FAILED s es <= 1 /\
              length (filter (fun e => te_sprintId e = s) (w_errors w)) <= 1.
Proof.
  intros Hinv Hr.
  assert (inv (w_ledger w) /\ one_shot (hs_events h) w) as [_ (He & Hnd & es & Hes & Hocc)].
  { revert w Hr. refine (rtc_ind_r _ (createWatchdog l h) _ _).
    - split; [done|]. by apply one_shot_create.
    - intros w w' _ Hs [Hi Ho]. destruct Hs as [p w|l' w Hl]; [by apply one_shot_entries|].
      split; [done|]. exact Ho. }
  exists es. split; [done|]. intros s. destruct (Hocc s) as [H1 H2].
  split; [repeat case_decide; lia|]. split; [repeat case_decide; lia|].
  rewrite <-He in Hnd. clear -Hnd. induction (w_errors w) as [|e l IH]; [simpl; lia|].
  rewrite fmap_cons in Hnd. apply NoDup_cons in Hnd as [Hn Hnd]. rewrite filter_cons.
  case_decide as Hd; [|by apply IH].
  destruct (filter _ l) as [|e' l'] eqn:Hf; [simpl; lia|]. exfalso. apply Hn.
  assert (e' ∈ filter (fun x => te_sprintId x = s) l) as [Hd' Hin]%list_elem_of_filter
    by (rewrite Hf; constructor).
  rewrite Hd, <-Hd'. apply list_elem_of_fmap. eauto.
Qed.
End watchdog_props.

(** ** The interval timer *)

Inductive timer_step : timer -> timer -> Prop :=
| ts_tick t : timer_step t (on_tick t)
| ts_settled t : 0 < t_running t -> timer_step t (on_settled t).

(** At most one interval pass is in flight, and the flag is set exactly while
    one is. *)
Lemma timer_no_overlap t :
  rtc timer_step {| t_inflight_flag := false; t_running := 0; t_skipped := 0 |} t ->
  t_running t = (if t_inflight_flag t then 1 else 0).
Proof.
  revert t. refine (rtc_ind_r _ _ _ _); [done|]. intros t t' _ Hs IH.
  destruct Hs as [t|t Hpos]; simpl.
  - unfold on_tick. destruct (t_inflight_flag t); simpl; by rewrite IH.
  - destruct (t_inflight_flag t); lia.
Qed.

(** ** Concrete runs *)

#[local] Instance wd_store : ReservationStore ledger := ledger_store demo_cfg.
#[local] Instance wd_laws : ReservationStoreLaws ledger ledger_inv := ledger_store_laws demo_cfg.
#[local] Instance wd_hist : HistoryStore history := history_store RenameRetry.no_opts.
#[local] Instance wd_hist_laws : HistoryStoreLaws history := history_store_laws RenameRetry.no_opts.

(** Only process 4242 lives, and its child does not answer. *)
Definition demo_probes : probes :=
  {| pr_port := fun s => if bool_decide (s = "s1") then Some 8085%Z else None;
     pr_alive := makeChildPidProbe only_4242
                   (fun _ => Some "node cli.mjs --issue r1 --viewer-port 8085 --base main");
     pr_http := fun _ => Throw (PlainErr "timeout");
     pr_pause := fun _ => Ok None; pr_terminal := fun _ _ => JNull; pr_date := fun _ => None;
     pr_now := "noon"; pr_release_io := fun _ => io_ok; pr_record_io := fun _ => io_ok |}.
Definition failing_probes : probes :=
  {| pr_port := fun _ => None; pr_alive := fun p _ => only_4242 p;
     pr_http := fun _ => Ok false; pr_pause := fun _ => Ok (Some "paused");
     pr_terminal := fun _ _ => JObj []; pr_date := fun _ => Some 0%Z; pr_now := "one";
     pr_release_io := fun _ => io_rename_fails; pr_record_io := fun _ => io_rename_fails |}.

Definition demo_watchdog : watchdog ledger history := createWatchdog two_sprints empty_history.

Lemma watchdog_never_releases_live_witness :
  jget "s1" (st_list (w_ledger (ticks 60000 [demo_probes; failing_probes] demo_watchdog)))
    = Some alice_reservation.
Proof.
  apply (watchdog_never_releases_live ledger_inv).
  - apply two_sprints_inv.
  - vm_compute. reflexivity.
  - repeat constructor.
Defined.

Lemma watchdog_pass_clears_dead_witness :
  let w' := (classifyAll 60000 demo_probes demo_watchdog).1 in
  (st_list (w_ledger w')).*1 = ["s1"] /\
  (occurrences AUTO_RELEASED "s2" (hs_events (w_history w')) = 1) /\
  st_list (w_ledger w')
    = filter (fun e => ~ gone demo_probes e) (st_list (w_ledger demo_watchdog)).
Proof.
  split; [vm_compute; reflexivity|]. split; [vm_compute; reflexivity|].
  apply (watchdog_pass_clears_dead ledger_inv 60000 demo_probes demo_watchdog
    (classifyAll 60000 demo_probes demo_watchdog).1 (classifyAll 60000 demo_probes demo_watchdog).2).
  - apply two_sprints_inv.
  - reflexivity.
  - apply surjective_pairing.
Defined.

(** The release of [s2] fails in the first pass, so it is classified twice. *)
Definition failing_dead_probes : probes :=
  {| pr_port := fun _ => None; pr_alive := fun p _ => only_4242 p;
     pr_http := fun _ => Ok false; pr_pause := fun _ => Ok None;
     pr_terminal := fun _ _ => JObj [("terminalReason", JStr "COMPLETED")];
     pr_date := fun _ => None; pr_now := "one";
     pr_release_io := fun _ => io_rename_fails; pr_record_io := fun _ => io_ok |}.
Definition twice : watchdog ledger history :=
  (classifyAll 60000 failing_dead_probes (classifyAll 60000 failing_dead_probes demo_watchdog).1).1.

Lemma watchdog_records_once_witness :
  occurrences FINISHED "s2" (hs_events (w_history twice)) = 1 /\
  exists es, hs_events (w_history twice) = hs_events empty_history ++ es /\
    forall s, occurrences FINISHED s es <= 1 /\ occurrences LAUNCH_FAILED s es <= 1 /\
              length (filter (fun e => te_sprintId e = s) (w_errors twice)) <= 1.
Proof.
  split; [vm_compute; reflexivity|].
  apply (watchdog_records_once ledger_inv 60000 two_sprints empty_history twice).
  - apply two_sprints_inv.
  - eapply rtc_l; [apply ws_pass|]. eapply rtc_l; [apply ws_pass|]. apply rtc_refl.
Defined.
