(* ===== verification/LaunchRequest.v ===== *)
(** * Launch requests

    What [POST /api/sprints] reads from an untrusted body before it touches
    any state: [splitIssueIds], [normalizeMembers], [memberUnion],
    [unreservableMemberNamesFromList] and [validateLaunchRequest]
    ([src/supervisor/api.mjs]), the role map and its deprecated backlog alias
    ([fleet-sprint/backlog-role.mjs], [normalizeRole] of
    [fleet-sprint/contracts.mjs], [resolveRoleMapWithWarnings] of
    [bin/cli.mjs]), and the generated sprint id.

    [JSON.stringify] is the parameter [stringify]; [json_parse] is
    [JSON.parse], [None] when it throws. *)

From Stdlib Require Import Ascii.
From S2P Require Import Prelude JsMap JsVal Text SprintArgs Spawner.
Local Open Scope string_scope.
Local Open Scope list_scope.

(** ** Lists in a request *)

Definition splitIssueIds (v : jsval) : list string :=
  match v with
  | JStr s => filter (fun x => x ≠ "") (trim <$> split_comma s)
  | _ => []
  end.

(** The [seen]/[out] loop over the trimmed strings of a list. *)
Definition trimmed_strings (items : list jsval) : list string :=
  dedup (filter (fun x => x ≠ "") (trim <$> omap as_str items)).

Definition normalizeMembers (v : jsval) : list string :=
  match v with
  | JArr items => trimmed_strings items
  | JStr s => trimmed_strings (JStr <$> split_comma s)
  | _ => []
  end.

(** ** The role map *)

Definition ROLE_BACKLOG : string := "backlog".
Definition ROLE_BACKLOG_ALIAS : string := "orchestrator".
Definition BACKLOG_ALIAS_WARNING : string :=
  "Deprecated: roleMap.orchestrator is a deprecated alias of roleMap.backlog; use roleMap.backlog instead. The orchestrator alias will be removed in v0.5.".

Notation role_map := (list (string * jsval)).

Definition normalizeRole (role : string) : string := toLowerCase (trim role).

Definition resolveBacklogRoleAlias (stringify : jsval -> string) (m : role_map)
    : result (role_map * list string) :=
  match jget ROLE_BACKLOG_ALIAS m with
  | None => Ok (m, [])
  | Some aliasValue =>
      let roleMap := jdel ROLE_BACKLOG_ALIAS m in
      match jget ROLE_BACKLOG m with
      | Some v =>
          if decide (stringify v = stringify aliasValue)
          then Ok (roleMap, [BACKLOG_ALIAS_WARNING])
          else Throw (PlainErr "roleMap has both backlog and its deprecated alias with different member lists")
      | None => Ok (jset ROLE_BACKLOG aliasValue roleMap, [BACKLOG_ALIAS_WARNING])
      end
  end.

(** One entry of a role map: an array of non-empty strings. *)
Definition role_entry_ok (v : jsval) : bool :=
  match v with
  | JArr ms => forallb (fun m => match as_nonempty_str m with Some _ => true | None => false end) ms
  | _ => false
  end.

(** The keys normalised one after the other; two keys that become one are
    refused. *)
Fixpoint normalize_role_keys (acc m : role_map) : result role_map :=
  match m with
  | [] => Ok acc
  | (k, v) :: m' =>
      if jhas (normalizeRole k) acc
      then Throw (PlainErr "Error: --role-map key collides with another key already present in --role-map")
      else normalize_role_keys (jset (normalizeRole k) v acc) m'
  end.

(** [resolveRoleMapWithWarnings] after [JSON.parse] ([None]: it threw). *)
Definition resolveRoleMap (stringify : jsval -> string) (parsed : option jsval)
    : result (role_map * list string) :=
  match parsed with
  | Some (JObj m) =>
      if forallb (fun kv => role_entry_ok kv.2) m
      then n ← normalize_role_keys [] m; resolveBacklogRoleAlias stringify n
      else Throw (PlainErr "Error: --role-map entry must be a non-empty array of member-name strings")
  | Some _ => Throw (PlainErr "Error: --role-map JSON must be an object")
  | None => Throw (PlainErr "Error: --role-map must be valid JSON")
  end.

(** ** Members *)

(** [typeof m === 'string' && m.length > 0] items of an array. *)
Definition member_names (v : jsval) : list string :=
  match v with JArr l => omap as_nonempty_str l | _ => [] end.

(** Every member the sprint may drive, first mention first, without the
    excluded ones. *)
Definition memberUnion (ms : list string) (roleMap : option role_map) (exclude : list string)
    : list string :=
  dedup (filter (fun m => m ≠ "" /\ m ∉ exclude)
           (ms ++ match roleMap with
                  | Some m => concat ((fun kv => member_names kv.2) <$> m)
                  | None => []
                  end)).

(** [Array.isArray(raw) ? raw : (raw && Array.isArray(raw.members) ? raw.members : [])] *)
Definition member_rows (raw : jsval) : list jsval :=
  match raw with
  | JArr l => l
  | _ => match prop "members" raw with JArr l => l | _ => [] end
  end.

(** The flagged names; a name is a string ([list_members] documents it). *)
Definition unreservableMemberNamesFromList (raw : jsval) : list string :=
  omap (fun m => if truthy (prop "unreservable" m) then as_nonempty_str (prop "name" m) else None)
       (member_rows raw).

(** ** The request *)

Record launch_request := {
  lr_issue : string; lr_issueIds : list string; lr_branch : string; lr_base : string;
  lr_members : list string; lr_skipRegression : bool
}.

(** [try { ... } catch (err) { throw new ApiError(400, err.message, field) }] *)
Definition bad_request {A} (field : string) (r : result A) : result A :=
  match r with
  | Ok a => Ok a
  | Throw (TypeErr m) | Throw (PlainErr m) | Throw (CodedErr _ m) | Throw (ApiErr _ m _) =>
      Throw (ApiErr 400 m (Some field))
  | Throw (SprintNotFound s) => Throw (ApiErr 400 s (Some field))
  end.

(** [body.phases]: whether the regression phase is skipped. *)
Definition read_phases (phases : jsval) : result bool :=
  match phases with
  | JUndef => Ok false
  | JObj fs =>
      match filter (fun k => k ≠ "regression") fs.*1 with
      | [] =>
          match prop "regression" phases with
          | JUndef => Ok false
          | JStr "run" => Ok false
          | JStr "skip" => Ok true
          | _ => Throw (ApiErr 400 "phases.regression must be run or skip" (Some "phases"))
          end
      | _ => Throw (ApiErr 400 "phases has unknown key(s); only regression is supported" (Some "phases"))
      end
  | _ => Throw (ApiErr 400 "phases must be an object" (Some "phases"))
  end.


Definition validateLaunchRequest (body : jsval) : result launch_request :=
  let rawIssue := coalesce (prop "issue" body) (prop "target_issue" body) in
  let branch := prop "branch" body in
  let base := coalesce (prop "base" body) (prop "base_branch" body) in
  let members := normalizeMembers (prop "members" body) in
  let issueIds := splitIssueIds rawIssue in
  match issueIds with
  | [] =>
      _ ← bad_request "issue" (validateIssueId rawIssue);
      Throw (ApiErr 400 "[Arg Contract] issue must contain at least one id" (Some "issue"))
  | _ =>
      _ ← all_ok (fun id => bad_request "issue" (validateIssueId (JStr id))) issueIds;
      b ← bad_request "branch" (validateBranchName branch "branch");
      a ← bad_request "base" (validateBranchName base "base");
      _ ← bad_request "branch" (validateBranchPair branch base);
      match members with
      | [] => Throw (ApiErr 400 "members must be a non-empty list of member names" (Some "members"))
      | _ =>
          skip ← read_phases (prop "phases" body);
          Ok {| lr_issue := join_comma issueIds; lr_issueIds := issueIds; lr_branch := b;
                lr_base := a; lr_members := members; lr_skipRegression := skip |}
      end
  end.

(** ** The sprint id *)

Definition MAX_SPRINT_ID_LENGTH : nat := 48.
Definition SPRINT_ID_ROOT_LENGTH : nat := 20.

(** [sha6] is the first six hex digits of a SHA-256, [uuid8] the first eight
    of [randomUUID()]. *)
Definition defaultGenerateSprintId (sha6 : string -> string) (uuid8 : string) (issue : string)
    : string :=
  let roots := filter (fun x => x ≠ "") (trim <$> split_comma issue) in
  let first := String.substring 0 SPRINT_ID_ROOT_LENGTH
                 (sanitize (match roots with [] => "sprint" | r :: _ => r end)) in
  first +:+ "-" +:+ pretty (length roots) +:+ "-" +:+ sha6 (join_comma roots) +:+ "-" +:+ uuid8.
