(* ===== verification/LaunchRequestProps.v ===== *)
(** * What request validation guarantees *)

From Stdlib Require Import Ascii.
From S2P Require Import Prelude JsMap JsVal Text SprintArgs Spawner SpawnerProps LaunchRequest.
Local Open Scope string_scope.
Local Open Scope list_scope.

(** ** Lemmas *)

Lemma splitIssueIds_join ids :
  ids ≠ [] -> Forall (fun i => i ≠ "" /\ string_all safe_char i = true) ids ->
  splitIssueIds (JStr (join_comma ids)) = ids.
Proof.
  intros Hne Hall. simpl.
  rewrite split_join_comma; [|done|by eapply Forall_impl; [exact Hall|]; intros ? []; apply safe_no_comma].
  clear Hne. induction Hall as [|i ids [Hi Hs] _ IH]; [done|].
  rewrite fmap_cons, trim_safe by done. rewrite filter_cons, decide_True by done. by rewrite IH.
Qed.

Lemma bad_request_Ok {A} f (r : result A) a : bad_request f r = Ok a <-> r = Ok a.
Proof. destruct r as [x|[]]; simpl; naive_solver. Qed.

Lemma bad_request_status {A} f (r : result A) e :
  bad_request f r = Throw e -> exists m fld, e = ApiErr 400 m fld.
Proof. destruct r as [x|[]]; simpl; intros [=]; subst; eauto. Qed.

Lemma trimmed_strings_ok items :
  NoDup (trimmed_strings items) /\ Forall (fun m => m ≠ "") (trimmed_strings items).
Proof.
  unfold trimmed_strings. split; [apply NoDup_dedup|]. apply Forall_forall. intros m Hm.
  apply elem_of_dedup, list_elem_of_filter in Hm. by destruct Hm.
Qed.

Lemma normalizeMembers_ok v :
  NoDup (normalizeMembers v) /\ Forall (fun m => m ≠ "") (normalizeMembers v).
Proof. destruct v; simpl; try (split; [apply NoDup_nil_2|constructor]); apply trimmed_strings_ok. Qed.

(** Opens a successful validation. *)
Lemma validateLaunchRequest_inv body r :
  validateLaunchRequest body = Ok r ->
  lr_issueIds r ≠ [] /\
  Forall (fun i => i ≠ "" /\ string_all safe_char i = true) (lr_issueIds r) /\
  lr_issue r = join_comma (lr_issueIds r) /\
  (lr_branch r ≠ "" /\ string_all branch_char (lr_branch r) = true) /\
  (lr_base r ≠ "" /\ string_all branch_char (lr_base r) = true) /\
  validateBranchPair (JStr (lr_branch r)) (JStr (lr_base r)) = Ok tt /\
  lr_members r = normalizeMembers (prop "members" body) /\ lr_members r ≠ [].
Proof.
  unfold validateLaunchRequest. set (raw := coalesce (prop "issue" body) _).
  set (base := coalesce (prop "base" body) _).
  destruct (splitIssueIds raw) as [|i0 ids0] eqn:Hids; [by destruct (bad_request _ _)|].
  rewrite <-Hids. assert (splitIssueIds raw ≠ []) as Hne by by rewrite Hids. clear Hids i0 ids0.
  intros Hv. inv_ok Hv. rename H into Hall, x0 into b, H0 into Hb, x1 into a, H1 into Ha, H2 into Hp.
  destruct (normalizeMembers (prop "members" body)) as [|m ms]; [done|]. inv_ok Hv. simpl.
  apply bad_request_Ok, validateBranchName_Ok in Hb as (Hb & Hb1 & Hb2).
  apply bad_request_Ok, validateBranchName_Ok in Ha as (Ha & Ha1 & Ha2).
  apply bad_request_Ok in Hp. rewrite Hb, Ha in Hp. destruct x2.
  assert (Forall (fun i => i ≠ "" /\ string_all safe_char i = true) (splitIssueIds raw)) as Hids.
  { apply all_ok_Ok in Hall. apply Forall_forall. intros i Hi.
    apply list_elem_of_lookup in Hi as [n Hn]. eapply Forall2_lookup_l in Hn; [|exact Hall].
    destruct Hn as (y & _ & Hy). apply bad_request_Ok, validateIssueId_Ok in Hy as (E & ? & ?).
    by injection E as <-. }
  done.
Qed.

Lemma branch_pattern b :
  b ≠ "" -> string_all branch_char b = true -> BRANCH_NAME_PATTERN b = true.
Proof. intros Hb%nonempty_spec Hs. unfold BRANCH_NAME_PATTERN. by rewrite Hb, Hs. Qed.


(** Every refusal of the validation is a 400 that names the field. *)
Lemma launch_request_errors body e :
  validateLaunchRequest body = Throw e -> exists m f, e = ApiErr 400 m f.
Proof.
  unfold validateLaunchRequest.
  assert (Hids : forall l e, all_ok (fun id => bad_request "issue" (validateIssueId (JStr id))) l = Throw e ->
            exists m f, e = ApiErr 400 m f).
  { induction l as [|i l IH]; intros e' He; [done|]. simpl in He.
    destruct (bad_request "issue" _) eqn:Hb; simpl in He.
    - destruct (all_ok _ l); simpl in He; [done|]. injection He as <-. by apply IH.
    - injection He as <-. by eapply bad_request_status. }
  destruct (splitIssueIds _) as [|i ids]; [|remember (i :: ids) as l eqn:Hl; clear Hl].
  { destruct (bad_request "issue" _) eqn:Hb; simpl; intros [= <-]; [eauto|].
    by eapply bad_request_status. }
  destruct (all_ok _ l) eqn:Ha; cbn [mbind result_bind]; [|intros [= <-]; by eapply Hids].
  destruct (bad_request "branch" (validateBranchName _ _)) eqn:Hb; cbn [mbind result_bind];
    [|intros [= <-]; by eapply bad_request_status].
  destruct (bad_request "base" _) eqn:Hc; cbn [mbind result_bind];
    [|intros [= <-]; by eapply bad_request_status].
  destruct (bad_request "branch" (validateBranchPair _ _)) eqn:Hd; cbn [mbind result_bind];
    [|intros [= <-]; by eapply bad_request_status].
  destruct (normalizeMembers _); [intros [= <-]; eauto|].
  destruct (read_phases _) as [|e'] eqn:Hp; cbn [mbind result_bind]; [done|]. intros [= <-].
  unfold read_phases in Hp. repeat case_match; simplify_eq; eauto.
Qed.

(** ** The generated sprint id *)

Lemma pretty_N_go_length k x s :
  (x < 10 ^ N.of_nat k)%N -> String.length (pretty_N_go x s) <= k + String.length s.
Proof.
  revert x s. induction k as [|k IH]; intros x s Hx.
  - assert (x = 0)%N as -> by (simpl in Hx; lia). by rewrite pretty_N_go_0.
  - destruct (decide (x = 0)%N) as [->|Hne]; [rewrite pretty_N_go_0; lia|].
    rewrite pretty_N_go_step by lia. etrans; [apply IH|simpl; lia].
    apply N.Div0.div_lt_upper_bound. rewrite Nat2N.inj_succ, N.pow_succ_r' in Hx. lia.
Qed.

Lemma pretty_nat_length n k :
  0 < k -> (N.of_nat n < 10 ^ N.of_nat k)%N -> String.length (pretty n) <= k.
Proof.
  intros Hk Hn. unfold pretty, pretty_nat, pretty, pretty_N. case_decide; [simpl; lia|].
  pose proof (pretty_N_go_length k (N.of_nat n) "" Hn). simpl in *. lia.
Qed.

Lemma pretty_N_char_safe d : safe_char (pretty_N_char d) = true.
Proof. destruct d as [|p]; [done|]. do 4 (destruct p as [p|p|]; try done). Qed.

Lemma pretty_nat_safe (n : nat) : string_all safe_char (pretty n) = true.
Proof.
  assert (Hgo : forall x s, string_all safe_char s = true -> string_all safe_char (pretty_N_go x s) = true).
  { intros x. induction (N.lt_wf_0 x) as [x _ IH]. intros s Hs.
    destruct (decide (x = 0)%N) as [->|Hx]; [by rewrite pretty_N_go_0|].
    rewrite pretty_N_go_step by lia. apply IH; [apply N.div_lt; lia|].
    cbn [string_all]. by rewrite pretty_N_char_safe. }
  unfold pretty, pretty_nat, pretty, pretty_N. case_decide; [done|]. by apply Hgo.
Qed.

Lemma sanitize_id s : string_all safe_char s = true -> sanitize s = s.
Proof.
  induction s as [|c s IH]; [done|]. intros [Hc Hs]%andb_true_iff. simpl. by rewrite Hc, IH.
Qed.

(** A generated sprint id (also the child's run id, the ledger key and
    the log-file stem) is at most 48 characters long and of the safe
    characters, however long the issue list is (below 10^11 roots); so its log
    file is named exactly after it, without truncation. *)
Theorem generated_sprint_id_bounded sha6 sha12 uuid8 issue :
  (forall s, String.length (sha6 s) = 6 /\ string_all safe_char (sha6 s) = true) ->
  String.length uuid8 = 8 -> string_all safe_char uuid8 = true ->
  (N.of_nat (length (split_comma issue)) < 10 ^ 11)%N ->
  let id := defaultGenerateSprintId sha6 uuid8 issue in
  String.length id <= MAX_SPRINT_ID_LENGTH /\ string_all safe_char id = true /\
  resolveSprintLogName sha12 id = Ok (id +:+ ".log").
Proof.
  intros Hsha Hul Hus Hn id. set (roots := filter (fun x => x ≠ "") (trim <$> split_comma issue)).
  destruct (Hsha (join_comma roots)) as [Hl6 Hs6].
  assert (length roots <= length (split_comma issue)) as Hle.
  { unfold roots. etrans; [apply length_filter|]. by rewrite length_fmap. }
  assert (String.length (pretty (length roots)) <= 11) as Hcount.
  { apply pretty_nat_length; [lia|]. change (N.of_nat 11) with 11%N. lia. }
  set (first := String.substring 0 SPRINT_ID_ROOT_LENGTH
                  (sanitize (match roots with [] => "sprint" | r :: _ => r end))).
  assert (String.length first <= 20) as Hfirst by apply substring_length.
  assert (Hid : id = first +:+ "-" +:+ pretty (length roots) +:+ "-" +:+ sha6 (join_comma roots)
                     +:+ "-" +:+ uuid8) by done.
  assert (String.length id <= MAX_SPRINT_ID_LENGTH) as Hlen.
  { rewrite Hid, !string_length_app. unfold MAX_SPRINT_ID_LENGTH. simpl. lia. }
  assert (string_all safe_char id = true) as Hsafe.
  { rewrite Hid, !string_all_app, pretty_nat_safe, Hs6, Hus.
    unfold first. rewrite substring_safe by apply sanitize_safe. done. }
  split; [done|]. split; [done|]. unfold resolveSprintLogName. rewrite sanitize_id by done.
  rewrite (proj2 (Nat.ltb_ge _ _)) by (unfold MAX_LOG_STEM_LENGTH, MAX_SPRINT_ID_LENGTH in *; lia).
  assert (id ≠ "") as Hne.
  { intros E. apply (f_equal String.length) in E. rewrite Hid, !string_length_app in E.
    simpl in E. lia. }
  rewrite (proj2 (nonempty_spec id)) by done.
  rewrite bool_decide_eq_true_2, bool_decide_eq_false_2; [done|by apply app_log_ne|].
  symmetry. apply (basename_from_safe ""). by rewrite string_all_app, Hsafe.
Qed.

(** ** Concrete requests *)

Definition demo_body : jsval :=
  JObj [("issue", JStr " r1, r2 ,,"); ("branch", JStr "feat/x"); ("base", JStr "main");
        ("members", JStr "alice, bob,alice"); ("phases", JObj [("regression", JStr "skip")])].
Definition demo_request : launch_request :=
  {| lr_issue := "r1,r2"; lr_issueIds := ["r1"; "r2"]; lr_branch := "feat/x"; lr_base := "main";
     lr_members := ["alice"; "bob"]; lr_skipRegression := true |}.


Definition demo_sha6 (s : string) : string := "01ab9f".

Lemma generated_sprint_id_bounded_witness :
  let id := defaultGenerateSprintId demo_sha6 "89abcdef" "apra-fleet-eft.37.1/../x,r2" in
  String.length id <= MAX_SPRINT_ID_LENGTH /\ string_all safe_char id = true /\
  resolveSprintLogName demo_sha id = Ok (id +:+ ".log").
Proof.
  apply (generated_sprint_id_bounded demo_sha6 demo_sha).
  - intros s. vm_compute. done.
  - reflexivity.
  - reflexivity.
  - vm_compute. reflexivity.
Defined.
