(* ===== verification/Api.v ===== *)
(** * The operator API of the supervisor ([src/supervisor/api.mjs])

    [createSprintController] and its routes, over the ledger, the spawner and
    the history.  [launch] is the composition of three stages between which
    other requests can run: [launch_admit] (everything up to the overlap
    guards), the spawn, and the claim.  The fleet's member list, the sprint id,
    the operating system and the two child proxies are arguments. *)

From Stdlib Require Import Ascii.
From S2P Require Import Prelude JsMap JsVal Text AtomicFile Reservation Ledger History Http.
From S2P Require Import Spawner SprintArgs Scope LaunchRequest.
Local Open Scope string_scope.
Local Open Scope list_scope.

(** ** The member-overlap guard *)

Record member_conflict := { mc_sprintId : string; mc_members : list string }.

Definition formatMemberConflict (cs : list member_conflict) : string :=
  "member overlap rejects launch: " +:+
  String.concat "; " ((fun c => "sprint '" +:+ mc_sprintId c +:+ "' already claims [" +:+
                                String.concat ", " (mc_members c) +:+ "]") <$> cs).

(** [addConflict]: a map from sprints to sets of members. *)
Definition addConflict (sprintId member : string) (acc : list (string * list string))
    : list (string * list string) :=
  if negb (nonempty sprintId) then acc
  else let cur := default [] (jget sprintId acc) in
       jset sprintId (if decide (member ∈ cur) then cur else cur ++ [member]) acc.

(** The members of the request a reservation holds. *)
Definition ledger_conflicts (request : list string) (entries : list (string * reservation))
    (acc : list (string * list string)) : list (string * list string) :=
  foldl (fun acc e => foldl (fun acc m => if decide (m ∈ request) then addConflict e.1 m acc else acc)
                            acc (members e.2)) acc entries.

(** A row of the fleet's member list; [name] and [reservedBy] are strings when
    set ([list_members] documents them). *)
Definition row_conflict (request : list string) (acc : list (string * list string)) (m : jsval)
    : list (string * list string) :=
  if negb (truthy m && typeof_object m) || truthy (prop "unreservable" m) then acc
  else match as_nonempty_str (prop "name" m), as_nonempty_str (prop "reservedBy" m) with
       | Some n, Some s => if decide (n ∈ request) then addConflict s n acc else acc
       | _, _ => acc
       end.

(** [membersList] is the context's list, when it has one; [fetch] is the
    outcome of the guard's own [listMembers()] call.  [by_locale] is the
    [localeCompare] order of the conflicts. *)
Definition defaultMemberOverlapGuard (by_locale : list member_conflict -> list member_conflict)
    (fetch : result jsval) (requestMembers : list string) (membersList : option jsval)
    (entries : list (string * reservation)) : result unit :=
  let local := ledger_conflicts requestMembers entries [] in
  let both := match (match membersList with Some raw => Ok raw | None => fetch end) with
              | Ok raw => foldl (row_conflict requestMembers) local (member_rows raw)
              | Throw _ => local
              end in
  match both with
  | [] => Ok tt
  | _ =>
      Throw (ApiErr 409
        (formatMemberConflict
           (by_locale ((fun e => {| mc_sprintId := e.1; mc_members := sortS e.2 |}) <$> both)))
        (Some "members"))
  end.

(** [deps.beforeLaunch]: the context of a launch and the ledger's entries. *)
Definition launch_guard : Type :=
  list string -> list string -> option jsval -> list (string * reservation) -> result unit.

(** [composeBeforeLaunch] of [bin/serve.mjs]: the member guard is called
    without the context's member list, then the scope guard.  [scope] is
    [scopeGuard.checkLaunch]; [unavailable] tells a [BeadsViewUnavailableError]. *)
Definition composeBeforeLaunch (memberGuard : launch_guard)
    (scope : list string -> list (string * reservation) -> result scope_check)
    (unavailable : js_error -> option string) : launch_guard :=
  fun ms roots _ entries =>
    _ ← memberGuard ms roots None entries;
    match scope roots entries with
    | Throw e =>
        match unavailable e with
        | Some reason => Throw (ApiErr 503 ("cannot verify issue-scope overlap: " +:+ reason) (Some "issue"))
        | None => Throw e
        end
    | Ok c => if ck_ok c then Ok tt
              else Throw (ApiErr 409 (formatScopeConflict (ck_conflicts c)) (Some "issue"))
    end.

(** ** The controller *)

Record controller := { ct_ledger : ledger; ct_spawner : spawner; ct_history : history }.

Definition with_ledger (l : ledger) (c : controller) : controller :=
  {| ct_ledger := l; ct_spawner := ct_spawner c; ct_history := ct_history c |}.
Definition with_spawner (sp : spawner) (c : controller) : controller :=
  {| ct_ledger := ct_ledger c; ct_spawner := sp; ct_history := ct_history c |}.

(** What [listMembers()] returned, with the two markers a result can carry. *)
Record fleet_list := {
  fl_raw : jsval; fl_unavailable : option string; fl_stoppedByUser : option string
}.

(** The backlog member handle's state. *)
Record backlog_state := { bs_ready : bool; bs_member : option string; bs_reason : string }.

(** The body: the fields the controller checks, untyped, and the optional ones
    it forwards to the child's command line, at the types the command line
    takes. *)
Record launch_body := {
  lb_json : jsval;
  lb_goal : option string; lb_maxCycles : option num_or_str; lb_allowMissingMembers : bool;
  lb_requirementsFile : option string; lb_budget : option num_or_str
}.

(** The outside world during one launch. *)
Record launch_env := {
  en_members : result fleet_list;        (** [listMembers()] *)
  en_backlogMember : option backlog_state;
  en_sprintId : string;                  (** [generateSprintId(issue)] *)
  en_uuid : string; en_portFree : Z -> bool; en_os : os_env;
  en_claim : io_env; en_now : string;
  en_stamped : option string; en_onDisk : option string;  (** build versions *)
  en_beads : option beads_summary
}.

Record launch_result := {
  la_sprintId : string; la_pid : Z; la_port : Z; la_logPath : string;
  la_issueRoots : list string; la_members : list string; la_goal : option string;
  la_buildVersionWarning : bool; la_warnings : list string
}.

(** What the admission of a launch decided. *)
Record launch_plan := {
  pl_request : launch_request; pl_union : list string; pl_sprintId : string;
  pl_opts : sprint_opts; pl_warnings : list string
}.

Section controller.
Context (stringify : jsval -> string) (json_parse : string -> option jsval).
Context (sha12 : string -> string) (cliPath : string) (serviceUrl expectBeads : option string).
Context (basePort : option Z) (cfg : ledger_cfg) (beforeLaunch : launch_guard).

(** The keys of the map as the operator wrote it, normalised; a later key
    overwrites an earlier one. *)
Definition normalized_raw (m : role_map) : role_map :=
  foldl (fun acc kv => jset (normalizeRole kv.1) kv.2 acc) [] m.

(** The role map: the one forwarded to the child, the resolved one and the
    alias warnings.  [body.roleMap] is text or a value; an ['@'] text is
    refused. *)
Definition launch_roleMap (v : jsval)
    : result (option role_map * option role_map * list string) :=
  match v with
  | JUndef => Ok (None, None, [])
  | _ =>
      _ ← (match v with
           | JStr s => match trim s with
                       | String "@" _ =>
                           Throw (ApiErr 400 "[Arg Contract] roleMap '@file' references are not accepted over HTTP" (Some "roleMap"))
                       | _ => Ok tt
                       end
           | _ => Ok tt
           end);
      let parsed := match v with JStr s => json_parse s | _ => Some v end in
      fwd ← (match parsed with
             | Some (JObj m) =>
                 r ← bad_request "roleMap" (resolveBacklogRoleAlias stringify (normalized_raw m));
                 Ok (Some (normalized_raw m), r.2)
             | _ => Ok (None, [])
             end);
      r ← bad_request "roleMap" (resolveRoleMap stringify parsed);
      Ok (fwd.1, Some r.1, fwd.2)
  end.

(** The pinned backlog member's name, when the supervisor has one. *)
Definition pinned_backlog (h : option backlog_state) : result (option string) :=
  match h with
  | None => Ok None
  | Some b =>
      match bs_ready b, bs_member b with
      | true, Some n => if nonempty n then Ok (Some n)
                        else Throw (ApiErr 503 ("this supervisor's backlog member is not ready: " +:+ bs_reason b) None)
      | _, _ => Throw (ApiErr 503 ("this supervisor's backlog member is not ready: " +:+ bs_reason b) None)
      end
  end.

(** The member list read for this launch ([None] when the read failed), after
    the stopped-server and pinned-member refusals. *)
Definition launch_members (pinned : option string) (read : result fleet_list)
    : result (option jsval) :=
  match read with
  | Ok f =>
      match fl_stoppedByUser f with
      | Some ((String _ _) as m) => Throw (ApiErr 503 m None)
      | _ =>
          match pinned, fl_unavailable f with
          | Some _, Some r => if nonempty r then Throw (ApiErr 503 ("cannot verify backlog member: fleet member list unavailable (" +:+ r +:+ ")") None)
                              else Ok (Some (fl_raw f))
          | _, _ => Ok (Some (fl_raw f))
          end
      end
  | Throw e =>
      match pinned with
      | Some _ => Throw (ApiErr 503 ("cannot verify backlog member: fleet member list unavailable (" +:+ err_message e +:+ ")") None)
      | None => Ok None
      end
  end.

(** The first root whose last terminal record is deterministic. *)
Fixpoint prior_terminal (roots : list string) (h : history) : option (string * terminal_record) :=
  match roots with
  | [] => None
  | root :: roots' =>
      match latestForIssueRoot root h with
      | Some t => if isDeterministicTerminalReason (Some t) then Some (root, t)
                  else prior_terminal roots' h
      | None => prior_terminal roots' h
      end
  end.

(** The role map of the child, with the pinned backlog member. *)
Definition child_roleMap (pinned : option string) (forward resolved : option role_map)
    : result (option role_map) :=
  let base := match forward with Some m => Some m | None => resolved end in
  match pinned with
  | None => Ok base
  | Some p =>
      let requested :=
        match resolved ≫= jget ROLE_BACKLOG with
        | Some v => trim <$> filter (fun m => trim m ≠ "") (omap as_str (default [] (as_arr v)))
        | None => []
        end in
      match requested with
      | [] => Ok (Some (jset ROLE_BACKLOG (jstrs [p]) (default [] base)))
      | _ => if existsb (fun m => negb (bool_decide (m = p))) requested
             then Throw (ApiErr 400 "[Arg Contract] roleMap.backlog must be this supervisor's backlog member" (Some "roleMap"))
             else Ok base
      end
  end.

(** The options of the spawn. *)
Definition launch_opts (env : launch_env) (body : launch_body) (r : launch_request)
    (childMap : option role_map) : sprint_opts :=
  {| o_issue := lr_issue r; o_members := join_comma (lr_members r);
     o_branch := lr_branch r; o_base := lr_base r; o_goal := lb_goal body;
     o_maxCycles := lb_maxCycles body;
     o_allowMissingMembers := lb_allowMissingMembers body;
     o_requirementsFile := lb_requirementsFile body;
     o_roleMap := (fun m => inr (JObj m)) <$> childMap; o_budget := lb_budget body;
     o_skipRegression := lr_skipRegression r; o_serviceUrl := None;
     o_runId := Some (en_sprintId env); o_expectBeads := None; o_extraArgs := [] |}.

(** [launch] up to the spawn: nothing has changed yet. *)
Definition launch_admit (env : launch_env) (body : launch_body) (c : controller)
    : result launch_plan :=
  r ← validateLaunchRequest (lb_json body);
  rm ← launch_roleMap (prop "roleMap" (lb_json body));
  pinned ← pinned_backlog (en_backlogMember env);
  raw ← launch_members pinned (en_members env);
  let unreservable := match raw with Some v => unreservableMemberNamesFromList v | None => [] end in
  let union := memberUnion (lr_members r) rm.1.2 unreservable in
  _ ← (match prior_terminal (lr_issueIds r) (ct_history c) with
       | Some (root, t) =>
           match prop "overrideRelaunchGate" (lb_json body) with
           | JBool true => Ok tt
           | _ => Throw (ApiErr 409 ("relaunch of '" +:+ root +:+ "' refused: its prior incarnation ('" +:+
                                     t_sprintId t +:+ "') ended deterministically") (Some "issue"))
           end
       | None => Ok tt
       end);
  childMap ← child_roleMap pinned rm.1.1 rm.1.2;
  _ ← beforeLaunch union (lr_issueIds r) raw (list_entries (ct_ledger c));
  Ok {| pl_request := r; pl_union := union; pl_sprintId := en_sprintId env;
        pl_opts := launch_opts env body r childMap;
        pl_warnings := rm.2 |}.

(** A failed spawn becomes a 500 that names the step. *)
Definition spawn_failure (e : js_error) : js_error :=
  match e with
  | ApiErr s m f => ApiErr s m f
  | CodedErr code m => ApiErr 500 ("sprint launch failed at step 'spawn sprint child': " +:+ code +:+ ": " +:+ m) None
  | _ => ApiErr 500 ("sprint launch failed at step 'spawn sprint child': " +:+ err_message e) None
  end.

Definition launch_spawn (env : launch_env) (p : launch_plan) (c : controller)
    : controller * result spawned :=
  match spawnSprint stringify sha12 cliPath serviceUrl expectBeads basePort (en_portFree env)
          (en_os env) (en_uuid env) (pl_opts p) (ct_spawner c) with
  | (sp, Ok s) => (with_spawner sp c, Ok s)
  | (sp, Throw e) => (with_spawner sp c, Throw (spawn_failure e))
  end.

(** The object [launch] passes to [ledger.claim]. *)
Definition claim_input (p : launch_plan) (s : spawned) (beads : option beads_summary) : jsval :=
  JObj [("members", jstrs (pl_union p)); ("issueRoots", jstrs (lr_issueIds (pl_request p)));
        ("childPid", jint (sp_pid s)); ("logPath", JStr (sp_logPath s));
        ("branch", JStr (lr_branch (pl_request p))); ("base", JStr (lr_base (pl_request p)));
        ("goal", of_opt JStr (o_goal (pl_opts p))); ("beads", of_opt beads_json beads)].

Definition launch_claim (env : launch_env) (p : launch_plan) (s : spawned) (c : controller)
    : controller * result launch_result :=
  match claim cfg (en_claim env) (en_now env) (pl_sprintId p) (claim_input p s (en_beads env))
          (ct_ledger c) with
  | (l, Throw e) => (with_ledger l c, Throw e)
  | (l, Ok _) =>
      (with_ledger l c,
       Ok {| la_sprintId := pl_sprintId p; la_pid := sp_pid s; la_port := sp_port s;
             la_logPath := sp_logPath s; la_issueRoots := lr_issueIds (pl_request p);
             la_members := pl_union p; la_goal := o_goal (pl_opts p);
             la_buildVersionWarning :=
               match en_stamped env, en_onDisk env with
               | Some a, Some b => negb (bool_decide (a = b))
               | _, _ => false
               end;
             la_warnings := pl_warnings p |})
  end.

(** One launch with nothing in between. *)
Definition launch (env : launch_env) (body : launch_body) (c : controller)
    : controller * result launch_result :=
  match launch_admit env body c with
  | Throw e => (c, Throw e)
  | Ok p =>
      match launch_spawn env p c with
      | (c1, Throw e) => (c1, Throw e)
      | (c1, Ok s) => launch_claim env p s c1
      end
  end.

(** ** Reads *)

(** [deps.resolvePort]'s default. *)
Definition resolvePort (pid : option Z) (c : controller) : option Z :=
  p ← pid; e ← getLiveEntry p (ct_spawner c); Some (le_port e).

(** The first reservation that lists a member. *)
Definition reserved_by (entries : list (string * reservation)) : list (string * string) :=
  foldl (fun acc e => foldl (fun acc m => if jhas m acc then acc else jset m e.1 acc)
                            acc (members e.2)) [] entries.

Definition member_overlay (entries : list (string * reservation)) (m : jsval) : jsval :=
  let base := match m with
              | JStr _ => [("name", m)]
              | JObj fs => fs
              | _ => []
              end in
  let sid := match prop "name" (JObj base) with
             | JStr n => match jget n (reserved_by entries) with
                         | Some s => JStr s
                         | None => coalesce (prop "reservedBy" (JObj base)) JNull
                         end
             | _ => coalesce (prop "reservedBy" (JObj base)) JNull
             end in
  JObj (jset "reservedBy" sid (jset "reserved" (JBool (negb (nullish sid))) base)).

(** [GET /api/members] *)
Definition members_view (raw : jsval) (c : controller) : list jsval :=
  member_overlay (list_entries (ct_ledger c)) <$> member_rows raw.

Definition sprint_row (c : controller) (e : string * reservation) : jsval :=
  JObj [("sprintId", JStr e.1); ("members", jstrs (members e.2));
        ("issueRoots", jstrs (issueRoots e.2)); ("childPid", of_opt jint (childPid e.2));
        ("port", of_opt jint (resolvePort (childPid e.2) c))].

(** [GET /api/sprints] *)
Definition listSprints (c : controller) : list jsval :=
  sprint_row c <$> list_entries (ct_ledger c).

Inductive sprint_view :=
| ViewTerminal (state : jsval)
| ViewLive (state : jsval)
| ViewHistory (events : list hevent) (latest : hevent).

(** [GET /api/sprints/:id]; [terminal] is [hasTerminalState], [proxy] the
    child's [/state]. *)
Definition getSprint (terminal : string -> option string -> jsval) (proxy : Z -> result jsval)
    (id : string) (c : controller) : result sprint_view :=
  let fromHistory :=
    match latestFor id (ct_history c) with
    | Some e => Ok (ViewHistory (forSprint id (ct_history c)) e)
    | None => Throw (ApiErr 404 ("no sprint '" +:+ id +:+ "' is live or in history") None)
    end in
  match get id (ct_ledger c) with
  | None => fromHistory
  | Some r =>
      let state := terminal id (branch r) in
      if truthy state then Ok (ViewTerminal state)
      else match resolvePort (childPid r) c with
           | Some port => ViewLive <$> proxy port
           | None => fromHistory
           end
  end.

Inductive stop_result := AlreadyTerminal | Stopping (child : jsval).

(** [POST /api/sprints/:id/stop]; the first component is the ports asked. *)
Definition stopSprint (terminal : string -> option string -> jsval) (proxyStop : Z -> result jsval)
    (id : string) (c : controller) : list Z * result stop_result :=
  match get id (ct_ledger c) with
  | None => ([], Throw (ApiErr 404 ("no live sprint '" +:+ id +:+ "' to stop") None))
  | Some r =>
      if truthy (terminal id (branch r)) then ([], Ok AlreadyTerminal)
      else match resolvePort (childPid r) c with
           | None => ([], Throw (ApiErr 409 ("sprint '" +:+ id +:+ "' has no reachable child (port unknown)") None))
           | Some port => ([port], (fun v => Stopping (coalesce v JNull)) <$> proxyStop port)
           end
  end.
End controller.

(** [onApiError]: an [ApiError] becomes a response, anything else reaches the
    server. *)
Definition onApiError (e : js_error) : option response :=
  match e with
  | ApiErr status m field =>
      Some (sendJson status (("error", JStr m) ::
        match field with Some f => if nonempty f then [("field", JStr f)] else [] | None => [] end))
  | _ => None
  end.

Definition route_result {A} (status : Z) (render : A -> list (string * jsval)) (r : result A)
    : result response :=
  match r with
  | Ok a => Ok (sendJson status (render a))
  | Throw e => match onApiError e with Some resp => Ok resp | None => Throw e end
  end.
