(* ===== verification/ApiProps.v ===== *)
(** * What the operator API guarantees *)

From Stdlib Require Import Ascii.
From S2P Require Import Prelude JsMap JsVal Text AtomicFile Reservation Ledger LedgerProps.
From S2P Require Import History Http Spawner SpawnerProps SprintArgs Scope LaunchRequest.
From S2P Require Import LaunchRequestProps Api.
Local Open Scope string_scope.
Local Open Scope list_scope.

(** ** The member-overlap guard *)

(** A loop that only ever adds to its accumulator, when the step adds. *)
Lemma foldl_nil {A B} (f : list A -> B -> list A) (adds : B -> Prop) l acc :
  (forall acc x, x ∈ l -> adds x -> f acc x ≠ []) ->
  (forall acc x, x ∈ l -> acc ≠ [] -> f acc x ≠ []) ->
  (forall x, x ∈ l -> ~ adds x -> f [] x = []) ->
  (forall x, x ∈ l -> adds x \/ ~ adds x) ->
  foldl f acc l = [] <-> acc = [] /\ forall x, x ∈ l -> ~ adds x.
Proof.
  revert acc. induction l as [|x l IH]; intros acc Hadd Hkeep Hid Hdec; simpl; [set_solver|].
  rewrite IH by (intros; eauto using list_elem_of_further; set_solver).
  assert (x ∈ x :: l) as Hx by constructor.
  split.
  - intros [Hf Hl]. destruct acc; [|by destruct (Hkeep (a :: acc) x Hx)]. split; [done|].
    intros y [->|Hy]%elem_of_cons; [|by apply Hl]. intros Ha. by apply (Hadd [] x).
  - intros [-> Hl]. split; [apply Hid; [done|]; by apply Hl|]. intros y Hy. apply Hl. by right.
Qed.

Lemma addConflict_nil s m acc : s ≠ "" -> addConflict s m acc ≠ [].
Proof.
  intros Hs%nonempty_spec. unfold addConflict. rewrite Hs. simpl.
  destruct acc as [|[k v] acc]; [done|]. cbn [jset]. by case_decide.
Qed.

Lemma addConflict_keep s m acc : acc ≠ [] -> addConflict s m acc ≠ [].
Proof.
  unfold addConflict. destruct (nonempty s); [|done]. simpl.
  destruct acc as [|[k v] acc]; [done|]. intros _. cbn [jset]. by case_decide.
Qed.

Lemma addConflict_empty m acc : addConflict "" m acc = acc.
Proof. done. Qed.

(** A reservation that holds a member of the request. *)
Definition holds_requested (request : list string) (e : string * reservation) : Prop :=
  e.1 ≠ "" /\ exists m, m ∈ members e.2 /\ m ∈ request.

Lemma entry_conflicts_nil (request : list string) s (ms : list string) acc :
  foldl (fun acc m => if decide (m ∈ request) then addConflict s m acc else acc) acc ms = []
  <-> acc = [] /\ ~ (s ≠ "" /\ exists m, m ∈ ms /\ m ∈ request).
Proof.
  rewrite (foldl_nil _ (fun m => s ≠ "" /\ m ∈ request)).
  - naive_solver.
  - intros acc' m _ [Hs Hm]. rewrite decide_True by done. by apply addConflict_nil.
  - intros acc' m _ Hne. case_decide; [by apply addConflict_keep|done].
  - intros m _ Hno. case_decide; [|done]. destruct (decide (s = "")) as [->|?]; [done|naive_solver].
  - intros m _. destruct (decide (s = "")), (decide (m ∈ request)); naive_solver.
Qed.

Lemma holds_requested_dec request e : holds_requested request e \/ ~ holds_requested request e.
Proof.
  unfold holds_requested. destruct (decide (e.1 = "")); [naive_solver|].
  destruct (decide (Exists (fun m => m ∈ request) (members e.2))) as [H|H];
    rewrite Exists_exists in H; [left|right]; naive_solver.
Qed.

Lemma ledger_conflicts_nil request entries :
  ledger_conflicts request entries [] = [] <->
  forall e, e ∈ entries -> ~ holds_requested request e.
Proof.
  unfold ledger_conflicts. rewrite (foldl_nil _ (holds_requested request)).
  - naive_solver.
  - intros acc e _ He Hf. apply entry_conflicts_nil in Hf as [_ Hno]. by apply Hno.
  - intros acc e _ Hne Hf. by apply entry_conflicts_nil in Hf as [-> _].
  - intros e _ Hno. by apply entry_conflicts_nil.
  - intros e _. apply holds_requested_dec.
Qed.

(** A row of the fleet's list that reserves a member of the request. *)
Definition row_reserves (request : list string) (m : jsval) : Prop :=
  truthy m && typeof_object m = true /\ truthy (prop "unreservable" m) = false /\
  exists n s, as_nonempty_str (prop "name" m) = Some n /\
              as_nonempty_str (prop "reservedBy" m) = Some s /\ n ∈ request.

Lemma row_conflict_adds request acc m : row_reserves request m -> row_conflict request acc m ≠ [].
Proof.
  intros (Ho & Hu & n & s & Hn & Hs & Hin). unfold row_conflict. rewrite Ho, Hu, Hn, Hs. simpl.
  rewrite decide_True by done. apply as_nonempty_str_Some in Hs as [_ Hs].
  by apply addConflict_nil.
Qed.

Lemma row_conflict_keep request acc m : acc ≠ [] -> row_conflict request acc m ≠ [].
Proof. unfold row_conflict. intros. repeat case_match; try done. by apply addConflict_keep. Qed.

Lemma row_conflict_id request acc m :
  row_reserves request m \/ (~ row_reserves request m /\ row_conflict request acc m = acc).
Proof.
  unfold row_conflict, row_reserves.
  destruct (truthy m && typeof_object m); [|right; naive_solver]. simpl.
  destruct (truthy (prop "unreservable" m)); [right; naive_solver|].
  destruct (as_nonempty_str (prop "name" m)) as [n|]; [|right; naive_solver].
  destruct (as_nonempty_str (prop "reservedBy" m)) as [s|]; [|right; naive_solver].
  case_decide; [left|right]; naive_solver.
Qed.

(** The member guard is exact: it admits a launch exactly when no
    reservation of the ledger lists one of its members, and no row of the
    fleet's member list (when one could be read) has one of them reserved,
    flagged unreservable members aside. *)
Theorem member_guard_exact by_locale fetch request membersList entries :
  Forall (fun e => e.1 ≠ "") entries ->
  defaultMemberOverlapGuard by_locale fetch request membersList entries = Ok tt <->
  (forall s r m, (s, r) ∈ entries -> m ∈ members r -> m ∉ request) /\
  (forall raw, match membersList with Some v => Ok v | None => fetch end = Ok raw ->
     forall m, m ∈ member_rows raw -> ~ row_reserves request m).
Proof.
  intros Hne. unfold defaultMemberOverlapGuard.
  set (read := match membersList with Some v => Ok v | None => fetch end).
  assert (Hl : ledger_conflicts request entries [] = [] <->
               forall s r m, (s, r) ∈ entries -> m ∈ members r -> m ∉ request).
  { rewrite ledger_conflicts_nil. unfold holds_requested. split.
    - intros Hno s r m Hin Hm Hreq. apply (Hno (s, r) Hin). split; [|by exists m].
      by eapply Forall_forall in Hne; [|exact Hin].
    - intros Hno [s r] Hin (_ & m & Hm & Hreq). by apply (Hno s r m). }
  set (both := match read with Ok _ => _ | Throw _ => _ end).
  assert (Hb : both = [] <-> ledger_conflicts request entries [] = [] /\
                 forall raw, read = Ok raw -> forall m, m ∈ member_rows raw -> ~ row_reserves request m).
  { subst both. destruct read as [raw|e]; [|naive_solver].
    rewrite (foldl_nil _ (row_reserves request)).
    - naive_solver.
    - intros acc m _. apply row_conflict_adds.
    - intros acc m _. apply row_conflict_keep.
    - intros m _ Hno. by destruct (row_conflict_id request [] m) as [?|[_ ?]].
    - intros m _. destruct (row_conflict_id request [] m) as [?|[? _]]; auto. }
  rewrite <-Hl, <-Hb. destruct both; naive_solver.
Qed.

Lemma rows_keep request rows acc : acc ≠ [] -> foldl (row_conflict request) acc rows ≠ [].
Proof.
  revert acc. induction rows as [|x l IH]; intros acc Hacc; [done|].
  exact (IH _ (row_conflict_keep _ _ _ Hacc)).
Qed.

(** What the claims rely on: an admitted launch names no member the ledger
    already lists. *)
Class MemberGuard (g : launch_guard) := member_guard_sound :
  forall ms roots raw entries, Forall (fun e => e.1 ≠ "") entries ->
    g ms roots raw entries = Ok tt ->
    forall s r m, (s, r) ∈ entries -> m ∈ members r -> m ∉ ms.

Definition member_guard (by_locale : list member_conflict -> list member_conflict)
    (fetch : result jsval) : launch_guard :=
  fun ms _ raw entries => defaultMemberOverlapGuard by_locale fetch ms raw entries.

Lemma guard_no_ledger_overlap by_locale fetch request raw entries :
  Forall (fun e => e.1 ≠ "") entries ->
  defaultMemberOverlapGuard by_locale fetch request raw entries = Ok tt ->
  forall s r m, (s, r) ∈ entries -> m ∈ members r -> m ∉ request.
Proof.
  intros Hne Hg s r m Hin Hm Hreq. unfold defaultMemberOverlapGuard in Hg.
  assert (ledger_conflicts request entries [] ≠ []) as Hl.
  { rewrite ledger_conflicts_nil. intros Hno. apply (Hno (s, r) Hin).
    split; [by eapply Forall_forall in Hne; [|exact Hin]|by exists m]. }
  set (read := match raw with Some v => Ok v | None => fetch end) in Hg.
  assert (Hk : match read with Ok v => foldl (row_conflict request) (ledger_conflicts request entries [])
                                             (member_rows v)
                             | Throw _ => ledger_conflicts request entries [] end ≠ []).
  { destruct read as [v|]; [|done]. by apply rows_keep. }
  cbv zeta in Hg. set (both := match read with Ok _ => _ | Throw _ => _ end) in Hg.
  change (both ≠ []) in Hk. by destruct both.
Qed.

#[export] Instance default_guard by_locale fetch : MemberGuard (member_guard by_locale fetch).
Proof. intros ms roots raw entries. apply guard_no_ledger_overlap. Qed.

#[export] Instance composed_guard g scope unavailable :
  MemberGuard g -> MemberGuard (composeBeforeLaunch g scope unavailable).
Proof.
  intros Hg ms roots raw entries Hne Hc. unfold composeBeforeLaunch in Hc.
  apply bind_Ok in Hc as ([] & Hc & _). by eapply Hg.
Qed.

(** ** Admission *)

Lemma memberUnion_spec ms rm ex m :
  m ∈ memberUnion ms rm ex <->
  m ≠ "" /\ m ∉ ex /\ (m ∈ ms \/ exists f k v, rm = Some f /\ (k, v) ∈ f /\ m ∈ member_names v).
Proof.
  unfold memberUnion. rewrite elem_of_dedup, list_elem_of_filter, elem_of_app.
  destruct rm as [f|]; [|set_solver].
  rewrite (list_elem_of_In (concat _)), in_concat. setoid_rewrite <-list_elem_of_In. split.
  - intros [[? ?] [?|(l & (kv & -> & Hkv)%list_elem_of_fmap & Hl)]]; [naive_solver|].
    split; [done|]. split; [done|]. right. exists f, kv.1, kv.2. by destruct kv.
  - intros (? & ? & [?|(f' & k & v & [= <-] & Hkv & Hm)]); [naive_solver|].
    split; [done|]. right. exists (member_names v). split; [|done].
    apply list_elem_of_fmap. by exists (k, v).
Qed.

Lemma prior_terminal_None roots h :
  prior_terminal roots h = None <->
  Forall (fun root => isDeterministicTerminalReason (latestForIssueRoot root h) = false) roots.
Proof.
  induction roots as [|root roots IH]; cbn [prior_terminal]; [split; [constructor|done]|].
  rewrite Forall_cons, <-IH. destruct (latestForIssueRoot root h) as [t|];
    [|cbn [isDeterministicTerminalReason]; naive_solver].
  destruct (isDeterministicTerminalReason (Some t)); naive_solver.
Qed.

Section launch.
Context (stringify : jsval -> string) (json_parse : string -> option jsval) (guard : launch_guard).

Notation admits := (launch_admit stringify json_parse guard).

(** Opens a successful admission. *)
Lemma admit_inv env body (c : controller) p :
  admits env body c = Ok p ->
  exists rm raw,
    validateLaunchRequest (lb_json body) = Ok (pl_request p) /\
    launch_roleMap stringify json_parse (prop "roleMap" (lb_json body)) = Ok rm /\
    (raw = None \/ exists f, en_members env = Ok f /\ raw = Some (fl_raw f)) /\
    pl_union p = memberUnion (lr_members (pl_request p)) rm.1.2
                   (match raw with Some v => unreservableMemberNamesFromList v | None => [] end) /\
    (prior_terminal (lr_issueIds (pl_request p)) (ct_history c) = None \/
     prop "overrideRelaunchGate" (lb_json body) = JBool true) /\
    guard (pl_union p) (lr_issueIds (pl_request p)) raw (list_entries (ct_ledger c)) = Ok tt /\
    pl_sprintId p = en_sprintId env /\ o_runId (pl_opts p) = Some (en_sprintId env) /\
    o_goal (pl_opts p) = lb_goal body.
Proof.
  unfold launch_admit. intros Ha.
  apply bind_Ok in Ha as (r & Hr & Ha). apply bind_Ok in Ha as (rm & Hrm & Ha).
  apply bind_Ok in Ha as (pin & Hpin & Ha). apply bind_Ok in Ha as (raw & Hraw & Ha).
  apply bind_Ok in Ha as ([] & Hgate & Ha). apply bind_Ok in Ha as (cm & Hcm & Ha).
  apply bind_Ok in Ha as ([] & Hguard & Ha). injection Ha as <-. simpl.
  exists rm, raw. split; [done|]. split; [done|]. split.
  { unfold launch_members in Hraw. repeat case_match; simplify_eq; eauto. }
  split; [done|]. split; [|done].
  destruct (prior_terminal (lr_issueIds r) (ct_history c)) as [[root t]|]; [right|by left].
  destruct (prop "overrideRelaunchGate" (lb_json body)) as [| |[]| | | |]; done.
Qed.

(** What an admitted launch will reserve: every member named by the
    request or its role map, without repetition, except exactly those the
    fleet flags unreservable; and unless the request overrides the gate, no
    root's last terminal record is deterministic. *)
Theorem launch_admit_spec env body (c : controller) p :
  admits env body c = Ok p ->
  NoDup (pl_union p) /\
  (exists rm raw, launch_roleMap stringify json_parse (prop "roleMap" (lb_json body)) = Ok rm /\
     (raw = None \/ exists f, en_members env = Ok f /\ raw = Some (fl_raw f)) /\
     forall m, m ∈ pl_union p <->
       m ≠ "" /\ m ∉ (match raw with Some v => unreservableMemberNamesFromList v | None => [] end) /\
       (m ∈ lr_members (pl_request p) \/
        exists f k v, rm.1.2 = Some f /\ (k, v) ∈ f /\ m ∈ member_names v)) /\
  (prop "overrideRelaunchGate" (lb_json body) ≠ JBool true ->
   Forall (fun root => isDeterministicTerminalReason (latestForIssueRoot root (ct_history c)) = false)
          (lr_issueIds (pl_request p))).
Proof.
  intros (rm & raw & _ & Hrm & Hraw & Hu & Hgate & _)%admit_inv. split.
  { rewrite Hu. apply NoDup_dedup. }
  split; [|rewrite <-prior_terminal_None; naive_solver].
  exists rm, raw. split; [done|]. split; [done|]. intros m. rewrite Hu. apply memberUnion_spec.
Qed.

(** ** Launch *)

Context (sha12 : string -> string) (cliPath : string) (serviceUrl expectBeads : option string).
Context (basePort : option Z) (cfg : ledger_cfg).

Notation launch' := (launch stringify json_parse sha12 cliPath serviceUrl expectBeads basePort cfg guard).

(** The reservation a launch claims. *)
Definition claimed_reservation (p : launch_plan) (s : spawned) (env : launch_env) : reservation :=
  {| members := pl_union p; issueRoots := dedup (lr_issueIds (pl_request p));
     childPid := Some (sp_pid s); reservedAt := en_now env;
     branch := Some (lr_branch (pl_request p)); base := Some (lr_base (pl_request p));
     goal := o_goal (pl_opts p); exitCode := None; signal := None; exitedAt := None;
     logPath := Some (sp_logPath s); beads := en_beads env |}.

Lemma toStringArray_nonempty l label :
  Forall (fun s => s ≠ "") l -> toStringArray (jstrs l) label = Ok (dedup l).
Proof.
  intros Hf. unfold toStringArray, jstrs. simpl. by rewrite check_items_jstrs.
Qed.

Lemma normalize_claim_input env body (c : controller) p s :
  admits env body c = Ok p ->
  normalizeReservation (claim_input p s (en_beads env)) (en_now env)
    = Ok (claimed_reservation p s env).
Proof.
  intros (rm & raw & Hv & _ & _ & Hu & _)%admit_inv.
  apply validateLaunchRequest_inv in Hv as (_ & Hids & _).
  assert (Forall (fun s => s ≠ "") (pl_union p)) as Hune.
  { apply Forall_forall. intros m. rewrite Hu, memberUnion_spec. by intros []. }
  assert (NoDup (pl_union p)) as Hund by (rewrite Hu; apply NoDup_dedup).
  unfold normalizeReservation, claim_input. cbn [nullish]. unfold prop; simpl.
  rewrite (toStringArray_jstrs (pl_union p)) by done. simpl.
  rewrite (toStringArray_nonempty (lr_issueIds (pl_request p))) by (eapply Forall_impl; [exact Hids|]; by intros ? []). simpl.
  rewrite toNullableString_of_opt, normalizeBeadsSummary_json. reflexivity.
Qed.

Lemma launch_spawn_spec env p (c c1 : controller) r :
  launch_spawn stringify sha12 cliPath serviceUrl expectBeads basePort env p c = (c1, r) ->
  ct_ledger c1 = ct_ledger c /\ ct_history c1 = ct_history c /\
  match r with
  | Throw _ => live (ct_spawner c1) = live (ct_spawner c)
  | Ok s => exists e, live (ct_spawner c1) = jset (sp_pid s) e (live (ct_spawner c)) /\
                      le_port e = sp_port s
  end.
Proof.
  unfold launch_spawn, spawnSprint.
  destruct (choose_port _ _ _) as [port|e]; [|intros [= <- <-]; done].
  destruct (launch_child _ _ _ _ _ _ _ _ _ _) as [sp [s|e]] eqn:Hl; intros [= <- <-];
    apply launch_child_spec in Hl as (_ & _ & Hl); (split; [done|]); (split; [done|]).
  - destruct Hl as (Hp & e & Hlive & He & _). exists e. by rewrite Hp, He.
  - by destruct Hl.
Qed.

(** What the claim of an admitted launch does to the ledger. *)
Lemma launch_claim_spec env body p s (c c1 c2 : controller) r :
  admits env body c = Ok p -> pl_sprintId p = en_sprintId env ->
  launch_claim cfg env p s c1 = (c2, r) ->
  ct_history c2 = ct_history c1 /\ ct_spawner c2 = ct_spawner c1 /\
  match r with
  | Ok a =>
      jget (en_sprintId env) (reservations (ct_ledger c1)) = None /\
      reservations (ct_ledger c2)
        = reservations (ct_ledger c1) ++ [(en_sprintId env, claimed_reservation p s env)] /\
      la_sprintId a = en_sprintId env /\ la_members a = pl_union p /\
      la_issueRoots a = lr_issueIds (pl_request p) /\ la_pid a = sp_pid s /\ la_port a = sp_port s
  | Throw e =>
      reservations (ct_ledger c2) = reservations (ct_ledger c1) /\
      (claim cfg (en_claim env) (en_now env) (en_sprintId env)
         (claim_input p s (en_beads env)) (ct_ledger c1)).2 = Throw e
  end.
Proof.
  intros Ha Hid. pose proof (normalize_claim_input env body c p s Ha) as Hn.
  unfold launch_claim. rewrite Hid.
  destruct (claim _ _ _ _ _ _) as [l [res|e]] eqn:Hc; intros [= <- <-]; simpl;
    (split; [done|]); (split; [done|]); apply claim_effect in Hc;
    cbn [op_target] in Hc; rewrite Hn in Hc.
  - destruct (nonempty (en_sprintId env)); [|by destruct Hc as [_ [? ?]]].
    destruct (jhas (en_sprintId env) _) eqn:Hh; [by destruct Hc as [_ [? ?]]|].
    apply jhas_false in Hh. destruct Hc as [(Hr & _)|(_ & _ & ? & ?)]; [|done].
    split; [done|]. by rewrite Hr, jset_keys_new.
  - split; [|done]. destruct (nonempty (en_sprintId env) && _).
    + by destruct Hc as [(_ & ? & _)|(Hr & _)].
    + by destruct Hc as [-> _].
Qed.

Lemma admits_sprintId env body (c : controller) p :
  admits env body c = Ok p -> pl_sprintId p = en_sprintId env.
Proof. by intros (? & ? & ? & ? & ? & ? & ? & ? & ? & ?)%admit_inv. Qed.

(** The ledger after a launch. *)
Lemma launch_ledger env body (c c' : controller) r :
  launch' env body c = (c', r) ->
  reservations (ct_ledger c') = reservations (ct_ledger c) \/
  exists p s, admits env body c = Ok p /\
    jget (en_sprintId env) (reservations (ct_ledger c)) = None /\
    reservations (ct_ledger c')
      = reservations (ct_ledger c) ++ [(en_sprintId env, claimed_reservation p s env)].
Proof.
  unfold launch. destruct (admits env body c) as [p|e] eqn:Ha; [|intros [= <- <-]; by left].
  destruct (launch_spawn _ _ _ _ _ _ _ _ _) as [c1 [s|e]] eqn:Hs;
    destruct (launch_spawn_spec _ _ _ _ _ Hs) as (Hled & _); [|intros [= <- <-]; rewrite Hled; by left].
  intros Hc. destruct (launch_claim_spec _ _ _ _ _ _ _ _ Ha (admits_sprintId _ _ _ _ Ha) Hc)
    as (_ & _ & Hr). rewrite Hled in Hr. destruct r as [a|e]; [|by left; destruct Hr].
  right. exists p, s. destruct Hr as (? & ? & _). done.
Qed.

(** C33: The outcome of a launch. On success the ledger has one new
    reservation, for the new sprint id, with the reserved members, the issue
    roots and the pid of the child, which is live in the spawner on the port
    returned. When it throws, the ledger's reservations are those from before
    and either no child was added, or the claim failed after the spawn. The
    history is not touched. *)
Theorem launch_outcome env body (c c' : controller) r :
  launch' env body c = (c', r) ->
  ct_history c' = ct_history c /\
  match r with
  | Ok a =>
      exists p res, admits env body c = Ok p /\
        jget (la_sprintId a) (reservations (ct_ledger c)) = None /\
        reservations (ct_ledger c') = reservations (ct_ledger c) ++ [(la_sprintId a, res)] /\
        la_sprintId a = en_sprintId env /\
        members res = la_members a /\ la_members a = pl_union p /\
        issueRoots res = dedup (la_issueRoots a) /\ childPid res = Some (la_pid a) /\
        le_port <$> getLiveEntry (la_pid a) (ct_spawner c') = Some (la_port a)
  | Throw e =>
      reservations (ct_ledger c') = reservations (ct_ledger c) /\
      (live (ct_spawner c') = live (ct_spawner c) \/
       exists p s c1, admits env body c = Ok p /\
         launch_spawn stringify sha12 cliPath serviceUrl expectBeads basePort env p c = (c1, Ok s) /\
         ct_spawner c' = ct_spawner c1 /\
         (claim cfg (en_claim env) (en_now env) (en_sprintId env)
            (claim_input p s (en_beads env)) (ct_ledger c)).2 = Throw e)
  end.
Proof.
  unfold launch. destruct (admits env body c) as [p|e] eqn:Ha.
  2:{ intros [= <- <-]. split; [done|]. split; [done|by left]. }
  destruct (launch_spawn _ _ _ _ _ _ _ _ _) as [c1 [s|e]] eqn:Hs;
    destruct (launch_spawn_spec _ _ _ _ _ Hs) as (Hled & Hhist & Hlive).
  2:{ intros [= <- <-]. rewrite Hled. split; [done|]. split; [done|by left]. }
  destruct Hlive as (le & Hlive & Hport). intros Hc.
  destruct (launch_claim_spec _ _ _ _ _ _ _ _ Ha (admits_sprintId _ _ _ _ Ha) Hc)
    as (Hh & Hsp & Hr). rewrite Hled in Hr. rewrite Hh. split; [done|].
  destruct r as [a|e].
  - destruct Hr as (Hn & Hr & Hid & Hm & Hroots & Hpid & Hp).
    exists p, (claimed_reservation p s env). rewrite Hid, Hm, Hroots, Hpid, Hp, Hsp.
    unfold getLiveEntry. rewrite Hlive, jget_jset_eq. simpl. by rewrite Hport.
  - destruct Hr as [Hr Hcl]. split; [done|]. right. exists p, s, c1. done.
Qed.

(** ** One launch at a time *)

(** No member is reserved for two sprints. *)
Definition members_disjoint (st : ledger) : Prop :=
  forall s1 s2 r1 r2 m, jget s1 (reservations st) = Some r1 -> jget s2 (reservations st) = Some r2 ->
    m ∈ members r1 -> m ∈ members r2 -> s1 = s2.

Definition not_claim (op : ledger_op) : Prop := match op with OpClaim _ _ _ => False | _ => True end.

(** Launches one after the other, with every other operation on the ledger,
    and anything happening to children and history, in between. *)
Inductive api_step : controller -> controller -> Prop :=
| as_launch env body c : api_step c (launch' env body c).1
| as_ledger env op c : not_claim op -> api_step c (with_ledger (run_op cfg env op (ct_ledger c)).1 c)
| as_other c c' : ct_ledger c' = ct_ledger c -> api_step c c'.

Lemma members_disjoint_sub (m m' : list (string * reservation)) :
  (forall s r', jget s m' = Some r' -> exists r, jget s m = Some r /\ members r' = members r) ->
  (forall s1 s2 r1 r2 x, jget s1 m = Some r1 -> jget s2 m = Some r2 ->
     x ∈ members r1 -> x ∈ members r2 -> s1 = s2) ->
  forall s1 s2 r1 r2 x, jget s1 m' = Some r1 -> jget s2 m' = Some r2 ->
     x ∈ members r1 -> x ∈ members r2 -> s1 = s2.
Proof.
  intros Hsub Hd s1 s2 r1 r2 x H1 H2 Hx1 Hx2.
  apply Hsub in H1 as (q1 & H1 & E1), H2 as (q2 & H2 & E2). rewrite E1 in Hx1. rewrite E2 in Hx2.
  by eapply Hd.
Qed.

(** An operation other than a claim adds no member to a sprint. *)
Lemma op_target_members op st d s r' :
  not_claim op -> op_target op st = Some d -> jget s d = Some r' ->
  exists r, jget s (reservations st) = Some r /\ members r' = members r.
Proof.
  intros Hop Hd Hs. destruct op as [| s0 | s0 pid | now s0 i | | ]; simpl in *; [done|..].
  - destruct (nonempty s0); simplify_eq. rewrite jget_jdel in Hs. case_decide; naive_solver.
  - destruct pid as [| | |[]| | |]; try done;
      destruct (jget s0 (reservations st)) eqn:Hg; simplify_eq;
      rewrite jget_jset in Hs; case_decide; naive_solver.
  - destruct (nonempty s0); [|done]. destruct (jget s0 (reservations st)) eqn:Hg; simplify_eq.
    rewrite jget_jset in Hs. case_decide; naive_solver.
  - simplify_eq. eauto.
  - simplify_eq. eauto.
Qed.

Lemma members_disjoint_op env op st :
  ledger_inv st -> not_claim op -> members_disjoint st ->
  members_disjoint (run_op cfg env op st).1.
Proof.
  intros Hinv Hop. unfold members_disjoint. apply members_disjoint_sub. intros s r' Hs.
  pose proof (run_op_effect cfg env op st Hinv) as He.
  destruct (op_target op st) as [d|] eqn:Hd; simpl in He.
  - destruct He as [(Hr & _)|(Hr & _)]; rewrite Hr in Hs; [|by eauto].
    by eapply op_target_members.
  - destruct He as [He _]. rewrite He in Hs. eauto.
Qed.

Lemma launch_ledger_inv env body (c : controller) :
  ledger_inv (ct_ledger c) -> ledger_inv (ct_ledger (launch' env body c).1).
Proof.
  intros Hinv. unfold launch. destruct (admits env body c) as [p|e]; [|done].
  destruct (launch_spawn _ _ _ _ _ _ _ _ _) as [c1 [s|e]] eqn:Hs;
    destruct (launch_spawn_spec _ _ _ _ _ Hs) as (Hled & _); simpl; [|by rewrite Hled].
  pose proof (run_op_inv cfg (en_claim env) (OpClaim (en_now env) (pl_sprintId p)
    (claim_input p s (en_beads env))) (ct_ledger c1)) as Hr. simpl in Hr. rewrite Hled in Hr.
  unfold launch_claim. rewrite Hled.
  destruct (claim _ _ _ _ _ _) as [l [res|e]]; simpl in *; by apply Hr.
Qed.

Lemma api_step_inv `{!MemberGuard guard} (c c' : controller) :
  api_step c c' -> ledger_inv (ct_ledger c) /\ members_disjoint (ct_ledger c) ->
  ledger_inv (ct_ledger c') /\ members_disjoint (ct_ledger c').
Proof.
  intros Hs [Hinv Hd]. destruct Hs as [env body c|env op c Hop|c c' Hc].
  - split; [by apply launch_ledger_inv|].
    destruct (launch' env body c) as [c' r] eqn:Hl. apply launch_ledger in Hl.
    unfold members_disjoint. simpl.
    destruct Hl as [->|(p & sp & Ha & Hn & Hr)]; [exact Hd|].
    set (res := claimed_reservation p sp env) in *.
    assert (forall s r m, jget s (reservations (ct_ledger c)) = Some r -> m ∈ members r ->
              m ∈ members res -> False) as Hnew.
    { intros s r0 m Hsr Hmr Hmres. apply admit_inv in Ha as (rm & raw & _ & _ & _ & _ & _ & Hg & _).
      rewrite list_entries_eq in Hg. change (m ∈ pl_union p) in Hmres.
      eapply (member_guard_sound _ _ _ (reservations (ct_ledger c)));
        [|exact Hg|by apply jget_Some_elem|exact Hmr|exact Hmres].
      apply Forall_forall. intros [s' r'] Hin. apply jget_elem in Hin; [|apply Hinv].
      by destruct (li_ok _ Hinv _ _ Hin). }
    rewrite Hr, <-jset_keys_new by done. intros s1 s2 r1 r2 m.
    rewrite !jget_jset. repeat case_decide; intros; simplify_eq; try done.
    + exfalso. by eapply Hnew.
    + exfalso. by eapply Hnew.
    + by eapply Hd.
  - simpl. split; [by apply run_op_inv|by apply members_disjoint_op].
  - by rewrite Hc.
Qed.

(** C2: As long as launches run one at a time, no fleet member is ever
    reserved for two sprints, whatever else happens to the ledger, the
    children and the history in between. *)
Theorem sequential_launches_keep_members_disjoint `{!MemberGuard guard} sp h (c : controller) :
  rtc api_step {| ct_ledger := createLedger no_files; ct_spawner := sp; ct_history := h |} c ->
  members_disjoint (ct_ledger c).
Proof.
  intros Hr.
  assert (ledger_inv (ct_ledger c) /\ members_disjoint (ct_ledger c)) as [_ Hd]; [|done].
  revert c Hr. refine (rtc_ind_r _ _ _ _).
  - split; [apply ledger_inv_init|]. intros s1 s2 r1 r2 m H1. done.
  - intros c c' _ Hs IH. by eapply api_step_inv.
Qed.
End launch.

(** ** Concrete runs *)

Definition by_locale_id (l : list member_conflict) : list member_conflict := l.
Definition demo_guard : launch_guard := member_guard by_locale_id (Ok (JArr [])).
Definition demo_parse (s : string) : option jsval := None.
Definition demo_api_cfg : ledger_cfg :=
  {| renameRetryOpts := RenameRetry.no_opts; reservationClient := fun _ => true |}.

(** The fleet lists [carol], reserved by a sprint started elsewhere, and
    [dave], who is unreservable. *)
Definition demo_fleet : jsval :=
  JArr [JObj [("name", JStr "carol"); ("reservedBy", JStr "cli-1")];
        JObj [("name", JStr "dave"); ("unreservable", JBool true); ("reservedBy", JStr "cli-1")]].

Definition demo_env (sprintId : string) (pid : Z) (io : io_env) : launch_env :=
  {| en_members := Ok {| fl_raw := demo_fleet; fl_unavailable := None; fl_stoppedByUser := None |};
     en_backlogMember := None; en_sprintId := sprintId; en_uuid := "u"; en_portFree := all_free;
     en_os := demo_os pid; en_claim := io; en_now := "t0"; en_stamped := None; en_onDisk := None;
     en_beads := None |}.

Definition demo_launch_body (issue ms : string) : launch_body :=
  {| lb_json := JObj [("issue", JStr issue); ("branch", JStr "feat/x"); ("base", JStr "main");
                      ("members", JStr ms)];
     lb_goal := None; lb_maxCycles := None; lb_allowMissingMembers := false;
     lb_requirementsFile := None; lb_budget := None |}.

Definition idle : controller :=
  {| ct_ledger := createLedger no_files; ct_spawner := createSpawner;
     ct_history := createHistory no_files |}.

Notation demo_admit := (launch_admit demo_stringify demo_parse demo_guard).
Notation demo_launch :=
  (launch demo_stringify demo_parse demo_sha "cli.mjs" None None None demo_api_cfg demo_guard).

Lemma member_guard_exact_witness :
  defaultMemberOverlapGuard by_locale_id (Ok demo_fleet) ["carol"; "dave"] None [] = Ok tt <->
  (forall s r m, (s, r) ∈ @nil (string * reservation) -> m ∈ members r -> m ∉ ["carol"; "dave"]) /\
  (forall raw, Ok demo_fleet = Ok raw ->
     forall m, m ∈ member_rows raw -> ~ row_reserves ["carol"; "dave"] m).
Proof.
  apply (member_guard_exact by_locale_id (Ok demo_fleet) ["carol"; "dave"] None []). constructor.
Defined.

(** [carol] is named, so the launch is refused; [dave] alone is not reserved. *)
Example guard_rejects_carol :
  is_ok (defaultMemberOverlapGuard by_locale_id (Ok demo_fleet) ["carol"; "dave"] None []) = false /\
  is_ok (defaultMemberOverlapGuard by_locale_id (Ok demo_fleet) ["dave"] None []) = true.
Proof. vm_compute. done. Qed.

Definition plan_of (r : result launch_plan) : list string :=
  match r with Ok p => pl_union p | Throw _ => [] end.

Definition demo_plan : launch_plan :=
  {| pl_request := {| lr_issue := "r1"; lr_issueIds := ["r1"]; lr_branch := "feat/x";
                      lr_base := "main"; lr_members := ["alice"; "dave"];
                      lr_skipRegression := false |};
     pl_union := ["alice"]; pl_sprintId := "s1";
     pl_opts := {| o_issue := "r1"; o_members := "alice,dave"; o_branch := "feat/x";
                   o_base := "main"; o_goal := None; o_maxCycles := None;
                   o_allowMissingMembers := false; o_requirementsFile := None; o_roleMap := None;
                   o_budget := None; o_skipRegression := false; o_serviceUrl := None;
                   o_runId := Some "s1"; o_expectBeads := None; o_extraArgs := [] |};
     pl_warnings := [] |}.

Lemma launch_admit_spec_witness :
  NoDup ["alice"] /\
  (exists rm raw, launch_roleMap demo_stringify demo_parse JUndef = Ok rm /\
     (raw = None \/ exists f, en_members (demo_env "s1" 101 io_ok) = Ok f /\ raw = Some (fl_raw f)) /\
     forall m, m ∈ ["alice"] <->
       m ≠ "" /\ m ∉ (match raw with Some v => unreservableMemberNamesFromList v | None => [] end) /\
       (m ∈ ["alice"; "dave"] \/
        exists f k v, rm.1.2 = Some f /\ (k, v) ∈ f /\ m ∈ member_names v)).
Proof.
  destruct (launch_admit_spec demo_stringify demo_parse demo_guard (demo_env "s1" 101 io_ok)
    (demo_launch_body "r1" "alice, dave") idle demo_plan) as (H1 & H2 & _).
  - vm_compute. reflexivity.
  - split; [exact H1|exact H2].
Defined.

Notation after_s1 :=
  (demo_launch (demo_env "s1" 101 io_ok) (demo_launch_body "r1" "alice, dave") idle).

Lemma launch_outcome_witness :
  is_ok after_s1.2 = true /\ ct_history after_s1.1 = ct_history idle.
Proof.
  split; [vm_compute; reflexivity|].
  pose proof (launch_outcome demo_stringify demo_parse demo_guard demo_sha "cli.mjs" None None None
    demo_api_cfg (demo_env "s1" 101 io_ok) (demo_launch_body "r1" "alice, dave") idle
    after_s1.1 after_s1.2 (surjective_pairing _)) as H.
  destruct H as [H _]. exact H.
Defined.

(** A second launch that names [alice] again is refused. *)
Notation after_s2 :=
  (demo_launch (demo_env "s2" 102 io_ok) (demo_launch_body "r2" "alice, bob") after_s1.1).

Lemma sequential_launches_keep_members_disjoint_witness :
  is_ok after_s2.2 = false /\ members_disjoint (ct_ledger after_s2.1).
Proof.
  split; [vm_compute; reflexivity|].
  apply (sequential_launches_keep_members_disjoint demo_stringify demo_parse demo_guard demo_sha
    "cli.mjs" None None None demo_api_cfg createSpawner (createHistory no_files)).
  eapply rtc_l; [apply (as_launch _ _ _ _ _ _ _ _ _ (demo_env "s1" 101 io_ok)
                         (demo_launch_body "r1" "alice, dave"))|].
  eapply rtc_l; [apply (as_launch _ _ _ _ _ _ _ _ _ (demo_env "s2" 102 io_ok)
                         (demo_launch_body "r2" "alice, bob"))|].
  apply rtc_refl.
Defined.

(** ** Two launches at once *)

(** Both requests pass the guard before either has claimed. *)
Definition run_admitted (env : launch_env) (p : result launch_plan) (c : controller) : controller :=
  match p with
  | Throw _ => c
  | Ok p =>
      match launch_spawn demo_stringify demo_sha "cli.mjs" None None None env p c with
      | (c1, Throw _) => c1
      | (c1, Ok s) => (launch_claim demo_api_cfg env p s c1).1
      end
  end.

Definition env_a : launch_env := demo_env "sA" 101 io_ok.
Definition env_b : launch_env := demo_env "sB" 102 io_ok.
Definition body_a : launch_body := demo_launch_body "r1" "alice".
Definition body_b : launch_body := demo_launch_body "r2" "alice, bob".
Definition raced : controller :=
  run_admitted env_b (demo_admit env_b body_b idle) (run_admitted env_a (demo_admit env_a body_a idle) idle).

(** The guard and the claim are separate steps: two launch requests that
    are admitted before either has claimed both succeed, and the ledger then
    has one member reserved for two sprints. *)
Theorem concurrent_launches_share_member :
  is_ok (demo_admit env_a body_a idle) = true /\ is_ok (demo_admit env_b body_b idle) = true /\
  (members <$> jget "sA" (reservations (ct_ledger raced))) = Some ["alice"] /\
  (members <$> jget "sB" (reservations (ct_ledger raced))) = Some ["alice"; "bob"] /\
  ~ members_disjoint (ct_ledger raced).
Proof.
  assert (Ha : exists r, jget "sA" (reservations (ct_ledger raced)) = Some r /\ members r = ["alice"])
    by (vm_compute; eauto).
  assert (Hb : exists r, jget "sB" (reservations (ct_ledger raced)) = Some r /\ members r = ["alice"; "bob"])
    by (vm_compute; eauto).
  destruct Ha as (ra & Ha & Hma), Hb as (rb & Hb & Hmb).
  split; [vm_compute; reflexivity|]. split; [vm_compute; reflexivity|].
  rewrite Ha, Hb. cbn [fmap option_fmap option_map]. rewrite Hma, Hmb. split; [done|]. split; [done|].
  intros Hd. pose proof (Hd "sA" "sB" ra rb "alice" Ha Hb) as Heq. rewrite Hma, Hmb in Heq.
  discriminate (Heq (list_elem_of_here _ _) (list_elem_of_here _ _)).
Qed.

(** The claim's rename fails. *)
Definition failed_claim : controller * result launch_result :=
  demo_launch (demo_env "s1" 101 io_rename_fails) (demo_launch_body "r1" "alice") idle.

