(* ===== verification/RunnerArgs.v ===== *)
(** * The sprint runner's argument contract

    [validateArgs] and [validateExpectBeads] of [fleet-sprint/sprint-args.mjs]
    with what they call ([parseExpectedIdentity] of
    [fleet-sprint/beads-identity.mjs], [validateCredentialStoreName] of
    [fleet-sprint/contracts.mjs], the role-map alias), the backlog-member
    selection of [fleet-sprint/backlog-role.mjs], and the part of
    [bin/cli.mjs] that turns a child's flags into those arguments
    ([resolveMemberValidation], [buildRunnerArgs], [cli_start]).

    [url_protocol s] is [new URL(s).protocol], [None] when the constructor
    throws; [json_parse] is [JSON.parse], [stringify] is [JSON.stringify]. *)

From Stdlib Require Import Ascii QArith.
From S2P Require Import Prelude JsMap JsVal Text Spawner SprintArgs LaunchRequest.
Local Open Scope string_scope.
Local Open Scope list_scope.

(** [if (!ok) throw new Error(msg)] *)
Definition require (ok : bool) (msg : string) : result unit :=
  if ok then Ok tt else Throw (PlainErr ("[Arg Contract] " +:+ msg)).

Definition is_some {A} (o : option A) : bool := match o with Some _ => true | None => false end.

(** ** Patterns *)

Definition digit13 (c : ascii) : bool := in_range "1" "3" c.

(** [(\/P[1-3]){0,n}] to the end of the string. *)
Fixpoint goal_rest (n : nat) (s : string) : bool :=
  match s with
  | EmptyString => true
  | String "/" (String "P" (String d s')) =>
      match n with O => false | S n' => digit13 d && goal_rest n' s' end
  | _ => false
  end.

(** [/^P[1-3](\/P[1-3]){0,2}$/] *)
Definition GOAL_PATTERN (s : string) : bool :=
  match s with
  | String "P" (String d s') => digit13 d && goal_rest 2 s'
  | _ => false
  end.

(** [/^[a-zA-Z0-9_-]{1,64}$/] *)
Definition credential_char (c : ascii) : bool :=
  in_range "A" "Z" c || in_range "a" "z" c || in_range "0" "9" c
  || bool_decide (c = "_"%char) || bool_decide (c = "-"%char).
Definition CREDENTIAL_STORE_NAME_PATTERN (s : string) : bool :=
  nonempty s && string_all credential_char s && (String.length s <=? 64)%nat.

Definition validateCredentialStoreName (name : jsval) (label : string) : result string :=
  match as_nonempty_str name with
  | Some s => if CREDENTIAL_STORE_NAME_PATTERN s then Ok s
              else Throw (PlainErr ("[Arg Contract] Invalid " +:+ label))
  | None => Throw (PlainErr ("[Arg Contract] Invalid " +:+ label))
  end.

(** ** The expected beads identity *)

Record identity := {
  id_beadsDir : string; id_prefix : string; id_syncRemote : string; id_repoRemote : string
}.

Definition normaliseRecord (obj : jsval) : identity :=
  let pick k := match prop k obj with JStr s => trim s | _ => "" end in
  {| id_beadsDir := pick "beadsDir"; id_prefix := pick "prefix";
     id_syncRemote := pick "syncRemote"; id_repoRemote := pick "repoRemote" |}.

(** The object [serializeExpectedIdentity] turns into JSON. *)
Definition identity_json (i : identity) : jsval :=
  JObj [("beadsDir", JStr (id_beadsDir i)); ("prefix", JStr (id_prefix i));
        ("syncRemote", JStr (id_syncRemote i)); ("repoRemote", JStr (id_repoRemote i))].

Section contract.
Context (stringify : jsval -> string) (json_parse : string -> option jsval).
Context (url_protocol : string -> option string).

Definition parseExpectedIdentity (text : jsval) : option identity :=
  match text with
  | JObj _ | JArr _ => Some (normaliseRecord text)
  | JStr s =>
      if nonempty (trim s)
      then match json_parse s with
           | Some ((JObj _) as o) | Some ((JArr _) as o) => Some (normaliseRecord o)
           | _ => None
           end
      else None
  | _ => None
  end.

Definition validateExpectBeads (raw : jsval) : result (option identity) :=
  match raw with
  | JUndef | JNull | JStr EmptyString => Ok None
  | JStr _ | JObj _ =>
      match parseExpectedIdentity raw with
      | None => Throw (PlainErr "[Arg Contract] Invalid expect_beads: not valid JSON")
      | Some i =>
          _ ← require (nonempty (id_prefix i) || nonempty (id_syncRemote i) || nonempty (id_repoRemote i))
                "Invalid expect_beads: must carry at least one of prefix, syncRemote, repoRemote";
          Ok (Some i)
      end
  | _ => Throw (PlainErr "[Arg Contract] Invalid expect_beads: must be a JSON string or an object")
  end.

(** ** The CI gate argument

    Exported, and deliberately not called by [validateArgs]. *)

Record ci_gate := { cg_workflow : string; cg_timeoutS : Z }.

Definition DEFAULT_CI_GATE_TIMEOUT_S : Z := 3600.

Definition ci_gate_fields (fs : list (string * jsval)) : result ci_gate :=
  _ ← require (forallb (fun k => bool_decide (k ∈ ["workflow"; "timeout_s"])) fs.*1)
        "Invalid ci_gate: unknown key(s)";
  let timeout := match prop "timeout_s" (JObj fs) with
                 | JUndef => jint DEFAULT_CI_GATE_TIMEOUT_S
                 | v => v
                 end in
  match as_nonempty_str (prop "workflow" (JObj fs)), as_int timeout with
  | Some w, Some t =>
      if negb (ISSUE_ID_PATTERN w)
      then Throw (PlainErr "[Arg Contract] Invalid ci_gate.workflow")
      else if (0 <? t)%Z then Ok {| cg_workflow := w; cg_timeoutS := t |}
      else Throw (PlainErr "[Arg Contract] Invalid ci_gate.timeout_s")
  | Some w, None =>
      if negb (ISSUE_ID_PATTERN w)
      then Throw (PlainErr "[Arg Contract] Invalid ci_gate.workflow")
      else Throw (PlainErr "[Arg Contract] Invalid ci_gate.timeout_s")
  | None, _ => Throw (PlainErr "[Arg Contract] Invalid ci_gate.workflow")
  end.

(** The workflow name has the pattern of an issue id. *)
Definition validateCiGate (raw : jsval) : result (option ci_gate) :=
  let value := match raw with JStr s => json_parse s | v => Some v end in
  match raw with
  | JUndef | JNull | JStr EmptyString => Ok None
  | _ =>
      match value with
      | None => Throw (PlainErr "[Arg Contract] Invalid ci_gate: not valid JSON")
      | Some (JObj fs) => g ← ci_gate_fields fs; Ok (Some g)
      | Some _ => Throw (PlainErr "[Arg Contract] Invalid ci_gate: must be an object")
      end
  end.

(** ** [validateArgs] *)

Definition KNOWN_ARG_KEYS : list string :=
  ["target_issues"; "target_issue"; "members"; "branch"; "base_branch"; "goal"; "max_cycles";
   "requirementsFile"; "roleMap"; "roleMapWarnings"; "budget"; "dispatch_timeout_s";
   "usage_limit_max_wait_s"; "usage_limit_max_reprobes"; "serviceUrl"; "run_id"; "assignee";
   "skip_regression"; "doer_worklist_mode"; "resume_model_switch"; "worklist_effort_budget";
   "callTool"; "azdevops_pat_secret_name"; "expect_beads"].

Definition ROLE_KB_MAINTAINER : string := "kb_maintainer".

Record sprint_args := {
  va_targetIssues : list string; va_members : list string; va_branch : string;
  va_baseBranch : string; va_goal : string; va_maxCycles : Z; va_requirementsFile : jsval;
  va_roleMap : option role_map; va_roleMapWarnings : list string; va_budget : jsval;
  va_serviceUrl : jsval; va_runId : jsval; va_assignee : jsval; va_dispatchTimeoutS : Z;
  va_azdevopsPatSecretName : jsval; va_doerWorklistMode : string; va_resumeModelSwitch : bool;
  va_skipRegression : bool; va_worklistEffortBudget : jsval; va_usageLimitMaxWaitS : jsval;
  va_usageLimitMaxReprobes : jsval; va_expectBeads : option identity
}.

Definition with_default (v d : jsval) : jsval := match v with JUndef => d | _ => v end.

(** An integer of at least [lo]. *)
Definition int_at_least (lo : Z) (v : jsval) (msg : string) : result Z :=
  match as_int v with
  | Some z => if (lo <=? z)%Z then Ok z else Throw (PlainErr ("[Arg Contract] " +:+ msg))
  | None => Throw (PlainErr ("[Arg Contract] " +:+ msg))
  end.

(** An optional argument: [undefined], or a value [ok] accepts. *)
Definition optional (ok : jsval -> bool) (v : jsval) (msg : string) : result unit :=
  require (match v with JUndef => true | _ => ok v end) msg.

Definition nonempty_str (v : jsval) : bool := is_some (as_nonempty_str v).

(** [typeof v === 'number' && Number.isFinite(v)] with a bound on its sign. *)
Definition finite_nonneg (v : jsval) : bool :=
  match v with JNum (NInt z) => (0 <=? z)%Z | JNum (NFrac q) => Qle_bool 0 q | _ => false end.
Definition finite_pos (v : jsval) : bool :=
  match v with
  | JNum (NInt z) => (0 <? z)%Z
  | JNum (NFrac q) => negb (Qle_bool q 0)
  | _ => false
  end.
Definition int_from (lo : Z) (v : jsval) : bool :=
  match as_int v with Some z => (lo <=? z)%Z | None => false end.

Definition read_targets (args : jsval) : result (list string) :=
  match prop "target_issues" args, prop "target_issue" args with
  | JArr [], _ => Throw (PlainErr "[Arg Contract] target_issues must be a non-empty array")
  | JArr l, _ => all_ok validateIssueId l
  | _, JStr s => all_ok validateIssueId [JStr s]
  | _, _ => Throw (PlainErr "[Arg Contract] Missing required arg: target_issues or target_issue")
  end.

Definition member_entry (v : jsval) : result string :=
  match as_nonempty_str v with
  | Some s => Ok s
  | None => Throw (PlainErr "[Arg Contract] Invalid member entry: must be a non-empty string")
  end.

Definition read_members (args : jsval) : result (list string) :=
  match prop "members" args with
  | JArr ((_ :: _) as l) => all_ok member_entry l
  | _ => Throw (PlainErr "[Arg Contract] Missing required arg: members")
  end.

(** The [kb_maintainer] entry names sprint members. *)
Definition check_kb_maintainer (ms : list string) (m : role_map) : result unit :=
  match jget ROLE_KB_MAINTAINER m with
  | None => Ok tt
  | Some v =>
      match v with
      | JArr l =>
          names ← all_ok member_entry l;
          require (forallb (fun n => bool_decide (n ∈ ms)) names)
            "Invalid roleMap.kb_maintainer: not in members"
      | _ => Throw (PlainErr "[Arg Contract] Invalid roleMap.kb_maintainer: must be an array of non-empty member names")
      end
  end.

(** The role map with normalised keys, the alias folded, and its warnings. *)
Definition read_roleMap (ms : list string) (v : jsval) : result (option role_map * list string) :=
  match v with
  | JUndef => Ok (None, [])
  | JObj m =>
      n ← (match normalize_role_keys [] m with
           | Ok n => Ok n
           | Throw _ => Throw (PlainErr "[Arg Contract] Invalid roleMap: key collides")
           end);
      _ ← check_kb_maintainer ms n;
      match resolveBacklogRoleAlias stringify n with
      | Ok (r, ws) => Ok (Some r, ws)
      | Throw e => Throw (PlainErr "[Arg Contract] Invalid roleMap: conflicting backlog alias")
      end
  | _ => Throw (PlainErr "[Arg Contract] Invalid roleMap: must be an object mapping role -> member[]")
  end.

(** The warnings the CLI collected, without repeating. *)
Definition add_warnings (ws : list string) (v : jsval) : list string :=
  match v with
  | JArr l => foldl (fun ws w => match w with
                                 | JStr s => if decide (s ∈ ws) then ws else ws ++ [s]
                                 | _ => ws
                                 end) ws l
  | _ => ws
  end.

Definition http_url (v : jsval) : bool :=
  match as_nonempty_str v with
  | Some s => match url_protocol s with
              | Some p => bool_decide (p = "http:") || bool_decide (p = "https:")
              | None => false
              end
  | None => false
  end.

Definition issue_like (v : jsval) : bool :=
  match as_nonempty_str v with Some s => ISSUE_ID_PATTERN s | None => false end.

Definition as_bool (v : jsval) : option bool := match v with JBool b => Some b | _ => None end.

Definition bool_arg (v : jsval) (msg : string) : result bool :=
  match as_bool (with_default v (JBool false)) with
  | Some b => Ok b
  | None => Throw (PlainErr ("[Arg Contract] " +:+ msg))
  end.

Definition goal_arg (v : jsval) : result string :=
  match as_str (with_default v (JStr "P1/P2")) with
  | Some g => if GOAL_PATTERN g then Ok g else Throw (PlainErr "[Arg Contract] Invalid goal")
  | None => Throw (PlainErr "[Arg Contract] Invalid goal")
  end.

Definition worklist_mode (v : jsval) : result string :=
  match with_default v (JStr "resume") with
  | JStr "resume" => Ok "resume"
  | JStr "batch" => Ok "batch"
  | _ => Throw (PlainErr "[Arg Contract] Invalid doer_worklist_mode")
  end.

Definition validateArgs (args : jsval) : result sprint_args :=
  keys ← (match args with
          | JObj fs => Ok fs.*1
          | _ => Throw (PlainErr "[Arg Contract] args must be an object.")
          end);
  _ ← require (forallb (fun k => bool_decide (k ∈ KNOWN_ARG_KEYS)) keys) "Unknown arg(s)";
  targets ← read_targets args;
  ms ← read_members args;
  _ ← require (nonempty_str (prop "branch" args)) "Missing required arg: branch";
  br ← validateBranchName (prop "branch" args) "branch";
  _ ← require (nonempty_str (prop "base_branch" args)) "Missing required arg: base_branch";
  base ← validateBranchName (prop "base_branch" args) "base_branch";
  _ ← validateBranchPair (prop "branch" args) (prop "base_branch" args);
  goal ← goal_arg (prop "goal" args);
  maxCycles ← int_at_least 1 (with_default (prop "max_cycles" args) (jint 5)) "Invalid max_cycles";
  _ ← optional nonempty_str (prop "requirementsFile" args) "Invalid requirementsFile";
  rm ← read_roleMap ms (prop "roleMap" args);
  _ ← optional finite_nonneg (prop "budget" args) "Invalid budget";
  _ ← optional nonempty_str (prop "run_id" args) "Invalid run_id";
  _ ← optional http_url (prop "serviceUrl" args) "Invalid serviceUrl";
  _ ← optional issue_like (prop "assignee" args) "Invalid assignee";
  timeout ← int_at_least 60 (with_default (prop "dispatch_timeout_s" args) (jint 9000))
              "Invalid dispatch_timeout_s";
  mode ← worklist_mode (prop "doer_worklist_mode" args);
  skip ← bool_arg (prop "skip_regression" args) "Invalid skip_regression";
  switch ← bool_arg (prop "resume_model_switch" args) "Invalid resume_model_switch";
  _ ← optional finite_pos (prop "worklist_effort_budget" args) "Invalid worklist_effort_budget";
  _ ← optional (int_from 60) (prop "usage_limit_max_wait_s" args) "Invalid usage_limit_max_wait_s";
  _ ← optional (int_from 1) (prop "usage_limit_max_reprobes" args) "Invalid usage_limit_max_reprobes";
  _ ← (match prop "azdevops_pat_secret_name" args with
       | JUndef => Ok ""
       | v => validateCredentialStoreName v "azdevops_pat_secret_name"
       end);
  beads ← validateExpectBeads (prop "expect_beads" args);
  Ok {| va_targetIssues := targets; va_members := ms; va_branch := br; va_baseBranch := base;
        va_goal := goal; va_maxCycles := maxCycles;
        va_requirementsFile := prop "requirementsFile" args; va_roleMap := rm.1;
        va_roleMapWarnings := add_warnings rm.2 (prop "roleMapWarnings" args);
        va_budget := prop "budget" args; va_serviceUrl := prop "serviceUrl" args;
        va_runId := prop "run_id" args; va_assignee := prop "assignee" args;
        va_dispatchTimeoutS := timeout;
        va_azdevopsPatSecretName := prop "azdevops_pat_secret_name" args;
        va_doerWorklistMode := mode; va_resumeModelSwitch := switch; va_skipRegression := skip;
        va_worklistEffortBudget := prop "worklist_effort_budget" args;
        va_usageLimitMaxWaitS := prop "usage_limit_max_wait_s" args;
        va_usageLimitMaxReprobes := prop "usage_limit_max_reprobes" args;
        va_expectBeads := beads |}.

(** ** The CLI *)

Record member_validation := {
  mv_ok : bool; mv_valid : list string; mv_missing : list string; mv_message : bool
}.

(** [mv_message]: whether there is a message (an error when not ok, a warning
    otherwise). *)
Definition resolveMemberValidation (rawMembers registeredNames : list string)
    (allowMissing : bool) : member_validation :=
  let valid := filter (fun m => m ∈ registeredNames) rawMembers in
  let missing := filter (fun m => m ∉ registeredNames) rawMembers in
  match valid, missing with
  | [], _ => {| mv_ok := false; mv_valid := valid; mv_missing := missing; mv_message := true |}
  | _, _ :: _ => {| mv_ok := allowMissing; mv_valid := valid; mv_missing := missing; mv_message := true |}
  | _, [] => {| mv_ok := true; mv_valid := valid; mv_missing := missing; mv_message := false |}
  end.

(** The flags of a child, numbers already read by [Number] and the role map by
    [JSON.parse] ([Some None]: it throws); [None] is a flag that was not given.
    [cv_expectBeads] is what [resolveExpectBeads] chose. *)
Record cli_values := {
  cv_issue : string; cv_members : string; cv_branch : string; cv_base : string;
  cv_goal : option string; cv_maxCycles : jsval; cv_allowMissing : bool;
  cv_requirementsFile : option string; cv_roleMap : option (option jsval); cv_viewerPort : jsval;
  cv_serviceUrl : option string; cv_runId : option string; cv_budget : jsval;
  cv_dispatchTimeoutS : jsval; cv_usageLimitMaxWaitS : jsval; cv_usageLimitMaxReprobes : jsval;
  cv_expectBeads : option string; cv_skipRegression : bool
}.

(** [if (v !== undefined) args.k = v] *)
Definition opt_field (k : string) (v : jsval) : list (string * jsval) :=
  match v with JUndef => [] | _ => [(k, v)] end.
Definition of_option (o : option string) : jsval :=
  match o with Some s => JStr s | None => JUndef end.

(** The [--expect-beads] flag, else the environment variable; a blank text is
    no text. *)
Definition resolveExpectBeads (flagValue env : option string) : option string :=
  let given o := match o with Some s => if nonempty (trim s) then Some s else None | None => None end in
  match given flagValue with Some s => Some s | None => given env end.

Definition buildRunnerArgs (targets ms : list string) (cv : cli_values) (maxCycles : Z)
    (roleMap : option role_map) (warnings : list string) (runId : string) : jsval :=
  JObj ([("target_issues", jstrs targets); ("members", jstrs ms); ("branch", JStr (cv_branch cv));
         ("base_branch", JStr (cv_base cv)); ("goal", JStr (default "P1/P2" (cv_goal cv)));
         ("max_cycles", jint maxCycles)]
        ++ opt_field "requirementsFile" (of_option (cv_requirementsFile cv))
        ++ opt_field "roleMap" (match roleMap with Some m => JObj m | None => JUndef end)
        ++ (match warnings with [] => [] | _ => [("roleMapWarnings", jstrs warnings)] end)
        ++ opt_field "budget" (cv_budget cv)
        ++ opt_field "dispatch_timeout_s" (cv_dispatchTimeoutS cv)
        ++ opt_field "usage_limit_max_wait_s" (cv_usageLimitMaxWaitS cv)
        ++ opt_field "usage_limit_max_reprobes" (cv_usageLimitMaxReprobes cv)
        ++ opt_field "serviceUrl" (of_option (cv_serviceUrl cv))
        ++ [("run_id", JStr runId)]
        ++ (if cv_skipRegression cv then [("skip_regression", JBool true)] else [])
        ++ opt_field "expect_beads" (of_option (cv_expectBeads cv))).

(** [main] up to the runner's arguments: the lists are split, the ids, the
    branches and the role map checked, the numbers bounded, the members looked
    up in the fleet's list.  Every refusal is an [exit(1)]. *)
Definition cli_start (registered : list string) (cv : cli_values) : result jsval :=
  let targetIssues := filter (fun x => x ≠ "") (trim <$> split_comma (cv_issue cv)) in
  let rawMembers := filter (fun x => x ≠ "") (trim <$> split_comma (cv_members cv)) in
  _ ← require (nonempty (cv_issue cv) && nonempty (cv_members cv)
               && nonempty (cv_branch cv) && nonempty (cv_base cv)) "Missing required flags";
  _ ← (match cv_expectBeads cv with
       | Some t => require (is_some (parseExpectedIdentity (JStr t))) "--expect-beads is not valid JSON"
       | None => Ok tt
       end);
  _ ← all_ok (fun i => validateIssueId (JStr i)) targetIssues;
  _ ← validateBranchName (JStr (cv_branch cv)) "branch";
  _ ← validateBranchName (JStr (cv_base cv)) "base";
  _ ← validateBranchPair (JStr (cv_branch cv)) (JStr (cv_base cv));
  rm ← (match cv_roleMap cv with
        | None => Ok (None, [])
        | Some parsed => r ← resolveRoleMap stringify parsed; Ok (Some r.1, r.2)
        end);
  maxCycles ← int_at_least 1 (with_default (cv_maxCycles cv) (jint 5)) "--max-cycles must be a positive integer";
  port ← int_at_least 1 (cv_viewerPort cv) "--viewer-port must be a valid TCP port number";
  _ ← require (port <=? MAX_PORT)%Z "--viewer-port must be a valid TCP port number";
  _ ← optional (int_from 60) (cv_dispatchTimeoutS cv) "--dispatch-timeout-s must be an integer >= 60";
  _ ← optional (int_from 60) (cv_usageLimitMaxWaitS cv) "--usage-limit-max-wait-s must be an integer >= 60";
  _ ← optional (int_from 1) (cv_usageLimitMaxReprobes cv) "--usage-limit-max-reprobes must be an integer >= 1";
  _ ← optional finite_nonneg (cv_budget cv) "--budget must be a non-negative finite number";
  let mv := resolveMemberValidation rawMembers registered (cv_allowMissing cv) in
  _ ← require (mv_ok mv) "members are missing from the fleet";
  let runId := match cv_runId cv with Some ((String _ _) as r) => r | _ => cv_branch cv end in
  Ok (buildRunnerArgs targetIssues (mv_valid mv) cv maxCycles rm.1 rm.2 runId).
End contract.

(** What [parseArgs] reads back from the argument vector [buildSprintArgv]
    makes of [o]; [number] is [Number] on a flag's text. *)
Definition child_values (stringify : jsval -> string) (json_parse : string -> option jsval)
    (number : string -> jsval) (o : sprint_opts) (viewerPort : Z) : cli_values :=
  {| cv_issue := o_issue o; cv_members := o_members o; cv_branch := o_branch o;
     cv_base := o_base o; cv_goal := o_goal o;
     cv_maxCycles := match o_maxCycles o with Some v => number (to_String v) | None => JUndef end;
     cv_allowMissing := o_allowMissingMembers o; cv_requirementsFile := o_requirementsFile o;
     cv_roleMap := (fun r => json_parse (match r with inl s => s | inr v => stringify v end)) <$> o_roleMap o;
     cv_viewerPort := number (pretty viewerPort); cv_serviceUrl := o_serviceUrl o;
     cv_runId := o_runId o;
     cv_budget := match o_budget o with Some v => number (to_String v) | None => JUndef end;
     cv_dispatchTimeoutS := JUndef; cv_usageLimitMaxWaitS := JUndef;
     cv_usageLimitMaxReprobes := JUndef; cv_expectBeads := o_expectBeads o;
     cv_skipRegression := o_skipRegression o |}.

(** ** The backlog member of a direct launch

    The role map's entries are lists of strings ([resolveRoleMap] refuses
    anything else). *)

Record backlog_selection := { bsel_member : option string; bsel_explicit : bool; bsel_reason : string }.

Definition selectBacklogMember (roleMap : option role_map) (ms : list string) : backlog_selection :=
  let explicitList := match roleMap ≫= jget ROLE_BACKLOG with
                      | Some (JArr l) => omap as_str l
                      | _ => []
                      end in
  let mapped := match roleMap with
                | Some m => concat ((fun kv => match kv.2 with JArr l => omap as_str l | _ => [] end) <$> m)
                | None => []
                end in
  match explicitList with
  | e :: _ => {| bsel_member := Some e; bsel_explicit := true; bsel_reason := "roleMap.backlog" |}
  | [] =>
      match mapped with
      | [] => {| bsel_member := head ms; bsel_explicit := false;
                 bsel_reason := "no roleMap, first member" |}
      | _ =>
          match filter (fun m => m ∉ mapped) ms with
          | g :: _ => {| bsel_member := Some g; bsel_explicit := false;
                         bsel_reason := "first member not mapped to any role" |}
          | [] =>
              let doers := match roleMap ≫= jget "doer" with
                           | Some (JArr l) => omap as_str l
                           | _ => []
                           end in
              match filter (fun m => m ∈ doers) ms with
              | d :: _ => {| bsel_member := Some d; bsel_explicit := false;
                             bsel_reason := "every member is role-mapped; first doer-mapped member" |}
              | [] => {| bsel_member := head ms; bsel_explicit := false;
                         bsel_reason := "every member is role-mapped and none is a doer; first member" |}
              end
          end
      end
  end.

Definition formatBacklogSelection (sel : backlog_selection) : option string :=
  if bsel_explicit sel then None
  else Some ("backlog: " +:+ default "undefined" (bsel_member sel) +:+ " (auto-selected: " +:+
             bsel_reason sel +:+ ")").
