(* ===== verification/RunnerArgsProps.v ===== *)
(** * What the argument contract guarantees

    Above all, that the three readers of a launch (the supervisor, the child's
    command line and the runner) agree on it. *)

From Stdlib Require Import Ascii QArith.
From S2P Require Import Prelude JsMap JsVal Text Spawner SpawnerProps SprintArgs.
From S2P Require Import AtomicFile Reservation Ledger LaunchRequest LaunchRequestProps.
From S2P Require Import RunnerArgs Api ApiProps.
Local Open Scope string_scope.
Local Open Scope list_scope.

(** ** Reading lists back *)

(** The members of a request are trimmed; given as one string, they have no
    comma. *)
Lemma normalizeMembers_trimmed v : Forall (fun m => trim m = m) (normalizeMembers v).
Proof.
  assert (forall items, Forall (fun m => trim m = m) (trimmed_strings items)) as Ht.
  { intros items. apply Forall_forall. intros m Hm.
    apply elem_of_dedup, list_elem_of_filter in Hm as [_ (x & -> & _)%list_elem_of_fmap].
    apply trim_idem. }
  destruct v; simpl; try constructor; apply Ht.
Qed.

Lemma normalizeMembers_string s : Forall no_comma (normalizeMembers (JStr s)).
Proof.
  apply Forall_forall. intros m Hm. cbn [normalizeMembers] in Hm. unfold trimmed_strings in Hm.
  apply elem_of_dedup, list_elem_of_filter in Hm as [_ (x & -> & Hx)%list_elem_of_fmap].
  apply trim_no_comma. pose proof (split_comma_no_comma s) as Hall.
  apply list_elem_of_omap in Hx as (v & Hv & Hx). apply list_elem_of_fmap in Hv as (y & -> & Hy).
  injection Hx as ->. by eapply Forall_forall in Hall.
Qed.

(** A list written with commas is read back by split, trim and filter. *)
Lemma read_back l :
  l ≠ [] -> Forall no_comma l -> Forall (fun m => trim m = m) l -> Forall (fun m => m ≠ "") l ->
  filter (fun x => x ≠ "") (trim <$> split_comma (join_comma l)) = l.
Proof.
  intros Hne Hc Ht Hn. rewrite split_join_comma by done. clear Hne Hc.
  induction Ht as [|m l Hm _ IH]; [done|]. apply Forall_cons in Hn as [Hmn Hn].
  rewrite fmap_cons, Hm, filter_cons, decide_True by done. by rewrite IH.
Qed.

Lemma join_comma_nonempty l : l ≠ [] -> Forall (fun m => m ≠ "") l -> nonempty (join_comma l) = true.
Proof.
  intros Hne Hn. apply nonempty_spec. destruct l as [|x l]; [done|].
  apply Forall_cons in Hn as [Hx _]. destruct x as [|c x]; [done|]. by destruct l.
Qed.

(** ** The contract *)

Lemma require_Ok b msg u : require b msg = Ok u <-> b = true.
Proof. unfold require. destruct b, u; naive_solver. Qed.

Lemma int_at_least_Ok lo v msg z : int_at_least lo v msg = Ok z <-> as_int v = Some z /\ (lo <= z)%Z.
Proof.
  unfold int_at_least. destruct (as_int v) as [x|]; [|naive_solver].
  destruct (lo <=? x)%Z eqn:E; [apply Z.leb_le in E|apply Z.leb_gt in E]; split; intros.
  - naive_solver.
  - naive_solver.
  - done.
  - destruct H. simplify_eq. lia.
Qed.

Section contract.
Context (stringify : jsval -> string) (json_parse : string -> option jsval).
Context (url_protocol : string -> option string).

Notation validate := (validateArgs stringify json_parse url_protocol).

Lemma member_entries_Ok l ms :
  all_ok member_entry l = Ok ms <-> l = JStr <$> ms /\ Forall (fun m => m ≠ "") ms.
Proof.
  rewrite all_ok_Ok. split.
  - induction 1 as [|v m l ms Hv _ [-> IH]]; [done|]. unfold member_entry in Hv.
    destruct (as_nonempty_str v) as [s|] eqn:E; [|done]. injection Hv as <-.
    apply as_nonempty_str_Some in E as [-> ?]. split; [done|by constructor].
  - intros [-> Hn]. induction Hn as [|m ms Hm _ IH]; [constructor|]. constructor; [|done].
    unfold member_entry. by rewrite (proj2 (as_nonempty_str_Some (JStr m) m)).
Qed.

Lemma issue_ids_Ok l ids :
  all_ok validateIssueId l = Ok ids <->
  l = JStr <$> ids /\ Forall (fun i => i ≠ "" /\ string_all safe_char i = true) ids.
Proof.
  rewrite all_ok_Ok. split.
  - induction 1 as [|v i l ids Hv _ [-> IH]]; [done|]. apply validateIssueId_Ok in Hv as (-> & ? & ?).
    split; [done|by constructor].
  - intros [-> Hn]. induction Hn as [|i ids [? ?] _ IH]; [constructor|]. constructor; [|done].
    by apply validateIssueId_Ok.
Qed.

(** Arguments the runner accepts are well formed: known keys only; at
    least one target issue, each of the id characters; at least one member,
    none empty; branch and base of the branch characters and naming different
    branches; a goal of the priority pattern; at least one cycle and a
    dispatch budget of at least a minute. *)
Theorem validateArgs_sound args v :
  validate args = Ok v ->
  (exists fs, args = JObj fs /\ forall k, k ∈ fs.*1 -> k ∈ KNOWN_ARG_KEYS) /\
  va_targetIssues v ≠ [] /\
  Forall (fun i => i ≠ "" /\ string_all safe_char i = true) (va_targetIssues v) /\
  va_members v ≠ [] /\ Forall (fun m => m ≠ "") (va_members v) /\
  BRANCH_NAME_PATTERN (va_branch v) = true /\ BRANCH_NAME_PATTERN (va_baseBranch v) = true /\
  normalizeBranchForCompare (va_branch v) ≠ normalizeBranchForCompare (va_baseBranch v) /\
  GOAL_PATTERN (va_goal v) = true /\ (1 <= va_maxCycles v)%Z /\ (60 <= va_dispatchTimeoutS v)%Z.
Proof.
  unfold validateArgs. intros Hv.
  apply bind_Ok in Hv as (keys & Hkeys & Hv). apply bind_Ok in Hv as (u & Hknown & Hv).
  apply bind_Ok in Hv as (targets & Htargets & Hv). apply bind_Ok in Hv as (ms & Hms & Hv).
  apply bind_Ok in Hv as (u1 & _ & Hv). apply bind_Ok in Hv as (br & Hbr & Hv).
  apply bind_Ok in Hv as (u2 & _ & Hv). apply bind_Ok in Hv as (base & Hbase & Hv).
  apply bind_Ok in Hv as (u3 & Hpair & Hv). apply bind_Ok in Hv as (goal & Hgoal & Hv).
  apply bind_Ok in Hv as (maxc & Hmaxc & Hv). apply bind_Ok in Hv as (u4 & _ & Hv).
  apply bind_Ok in Hv as (rm & _ & Hv). do 4 (apply bind_Ok in Hv as (? & _ & Hv)).
  apply bind_Ok in Hv as (timeout & Htimeout & Hv).
  do 8 (apply bind_Ok in Hv as (? & _ & Hv)). injection Hv as <-. cbn.
  apply int_at_least_Ok in Hmaxc as [_ Hmaxc], Htimeout as [_ Htimeout].
  apply validateBranchName_Ok in Hbr as (Hb & Hb1 & Hb2).
  apply validateBranchName_Ok in Hbase as (Ha & Ha1 & Ha2).
  rewrite Hb, Ha in Hpair. unfold validateBranchPair in Hpair. case_decide; [done|].
  split; [|split; [|split; [|split; [|split; [|split; [|split; [|split; [|split; [|done]]]]]]]]].
  - destruct args; try done. injection Hkeys as <-. eexists. split; [done|]. intros k Hk.
    apply require_Ok, forallb_forall with (x := k) in Hknown; [by apply bool_decide_eq_true in Hknown|].
    by apply list_elem_of_In.
  - unfold read_targets in Htargets. intros ->. destruct (prop "target_issues" args) as [| | | | |[|? ?]|];
      try (destruct (prop "target_issue" args)); try done;
      apply issue_ids_Ok in Htargets as [? _]; done.
  - unfold read_targets in Htargets. destruct (prop "target_issues" args) as [| | | | |[|? ?]|];
      try (destruct (prop "target_issue" args)); try done; by apply issue_ids_Ok in Htargets as [_ ?].
  - unfold read_members in Hms. intros ->. destruct (prop "members" args) as [| | | | |[|? ?]|]; try done.
    by apply member_entries_Ok in Hms as [? _].
  - unfold read_members in Hms. destruct (prop "members" args) as [| | | | |[|? ?]|]; try done.
    by apply member_entries_Ok in Hms as [_ ?].
  - unfold BRANCH_NAME_PATTERN. by rewrite (proj2 (nonempty_spec br)).
  - unfold BRANCH_NAME_PATTERN. by rewrite (proj2 (nonempty_spec base)).
  - done.
  - unfold goal_arg in Hgoal. destruct (as_str _) as [g|]; [|done].
    destruct (GOAL_PATTERN g) eqn:Hg; [|done]. by injection Hgoal as <-.
Qed.

(** ** The three readers agree *)

Lemma all_registered ms registered :
  (forall m, m ∈ ms -> m ∈ registered) -> ms ≠ [] -> forall allow,
  resolveMemberValidation ms registered allow
    = {| mv_ok := true; mv_valid := ms; mv_missing := []; mv_message := false |}.
Proof.
  intros Hreg Hne allow. unfold resolveMemberValidation.
  assert (filter (fun m => m ∈ registered) ms = ms) as ->.
  { clear Hne. induction ms as [|m ms IH]; [done|].
    rewrite filter_cons, decide_True, IH; [done|set_solver|set_solver]. }
  assert (filter (fun m => m ∉ registered) ms = []) as ->.
  { clear Hne. induction ms as [|m ms IH]; [done|].
    rewrite filter_cons, decide_False by set_solver. apply IH. set_solver. }
  by destruct ms.
Qed.

Lemma branch_name_validated b l : BRANCH_NAME_PATTERN b = true -> validateBranchName (JStr b) l = Ok b.
Proof.
  intros Hb. unfold BRANCH_NAME_PATTERN in Hb. apply andb_true_iff in Hb as [Hb1%nonempty_spec ?].
  by apply validateBranchName_Ok.
Qed.

Lemma nonempty_str_JStr b : nonempty b = true -> nonempty_str (JStr b) = true.
Proof. intros Hb. unfold nonempty_str. cbn. by rewrite Hb. Qed.

(** The request's own fields, written to and read from the runner's arguments. *)
Lemma validateArgs_build (ids ms : list string) b a g n run skip (su : option string) :
  ids ≠ [] -> Forall (fun i => i ≠ "" /\ string_all safe_char i = true) ids ->
  ms ≠ [] -> Forall (fun m => m ≠ "") ms ->
  BRANCH_NAME_PATTERN b = true -> BRANCH_NAME_PATTERN a = true ->
  normalizeBranchForCompare b ≠ normalizeBranchForCompare a ->
  GOAL_PATTERN g = true -> (1 <= n)%Z -> run ≠ "" ->
  (forall u, su = Some u -> http_url url_protocol (JStr u) = true) ->
  exists v, validate (JObj ([("target_issues", jstrs ids); ("members", jstrs ms); ("branch", JStr b);
                 ("base_branch", JStr a); ("goal", JStr g); ("max_cycles", jint n)]
                 ++ opt_field "serviceUrl" (of_option su)
                 ++ [("run_id", JStr run)] ++ if skip : bool then [("skip_regression", JBool true)] else []))
              = Ok v /\
    va_targetIssues v = ids /\ va_members v = ms /\ va_branch v = b /\ va_baseBranch v = a /\
    va_goal v = g /\ va_maxCycles v = n /\ va_runId v = JStr run /\ va_skipRegression v = skip.
Proof.
  intros Hids0 Hids Hms0 Hms Hb Ha Hpair Hg Hn Hrun Hsu.
  assert (Hti : all_ok validateIssueId (JStr <$> ids) = Ok ids) by by apply issue_ids_Ok.
  assert (Hmi : all_ok member_entry (JStr <$> ms) = Ok ms) by by apply member_entries_Ok.
  pose proof (branch_name_validated b) as Hbv. pose proof (branch_name_validated a) as Hav.
  apply nonempty_spec in Hrun. apply Z.leb_le in Hn.
  set (args := JObj _).
  assert (Hk : exists fs, args = JObj fs /\
            forallb (fun k => bool_decide (k ∈ KNOWN_ARG_KEYS)) fs.*1 = true).
  { eexists. split; [reflexivity|]. by destruct skip, su. }
  assert (Hp : forall k, k ∈ ["requirementsFile"; "roleMap"; "roleMapWarnings"; "budget";
            "assignee"; "dispatch_timeout_s"; "doer_worklist_mode"; "resume_model_switch";
            "worklist_effort_budget"; "usage_limit_max_wait_s"; "usage_limit_max_reprobes";
            "azdevops_pat_secret_name"; "expect_beads"] -> prop k args = JUndef).
  { intros k Hin. repeat (apply elem_of_cons in Hin as [->|Hin]; [by destruct skip, su|]).
    by apply elem_of_nil in Hin. }
  assert (Hs : prop "skip_regression" args = if skip then JBool true else JUndef) by by destruct skip, su.
  assert (Hu : prop "serviceUrl" args = of_option su) by by destruct skip, su.
  assert (prop "target_issues" args = jstrs ids /\ prop "members" args = jstrs ms /\
    prop "branch" args = JStr b /\ prop "base_branch" args = JStr a /\ prop "goal" args = JStr g /\
    prop "max_cycles" args = jint n) as (H1 & H2 & H3 & H4 & H5 & H6) by done.
  assert (H7 : prop "run_id" args = JStr run) by by destruct su.
  assert (Hsu' : optional (http_url url_protocol) (of_option su) "Invalid serviceUrl" = Ok tt).
  { unfold optional. destruct su as [u|]; [|done]. cbn [of_option]. by rewrite Hsu. }
  destruct Hk as (fs & Hfs & Hkeys). clearbody args.
  assert (Ht : read_targets args = Ok ids).
  { unfold read_targets. rewrite H1. unfold jstrs. by destruct ids. }
  assert (Hm : read_members args = Ok ms).
  { unfold read_members. rewrite H2. unfold jstrs. by destruct ms. }
  assert (Hpr : validateBranchPair (JStr b) (JStr a) = Ok tt).
  { unfold validateBranchPair. by rewrite decide_False. }
  pose proof (nonempty_str_JStr run Hrun) as Hr.
  assert (Hb' : nonempty_str (JStr b) = true) by (by apply nonempty_str_JStr; apply andb_true_iff in Hb as [? _]).
  assert (Ha' : nonempty_str (JStr a) = true) by (by apply nonempty_str_JStr; apply andb_true_iff in Ha as [? _]).
  unfold validateArgs. rewrite Ht, Hm, H3, H4, H5, H6, H7, Hs, Hu, Hsu', Hbv, Hav, Hpr by done.
  rewrite !Hp by (apply (bool_decide_eq_true_1 _); reflexivity).
  subst args. cbn [mbind result_bind]. rewrite Hkeys. cbn [require mbind result_bind].
  rewrite Hb', Ha'. unfold goal_arg. cbn [require mbind result_bind with_default as_str]. rewrite Hg.
  unfold int_at_least. cbn [mbind result_bind with_default jint as_int]. rewrite Hn.
  unfold optional. cbn [require mbind result_bind read_roleMap]. rewrite Hr.
  destruct skip; eexists; (split; [reflexivity|]); done.
Qed.

(** The three flags of a validated request that name beads and branches. *)
Lemma child_flags_nonempty ids ms b a :
  ids ≠ [] -> Forall (fun i => i ≠ "" /\ string_all safe_char i = true) ids ->
  ms ≠ [] -> Forall (fun m => m ≠ "") ms -> b ≠ "" -> a ≠ "" ->
  nonempty (join_comma ids) && nonempty (join_comma ms) && nonempty b && nonempty a = true.
Proof.
  intros Hids0 Hids Hms0 Hms Hb Ha.
  rewrite !join_comma_nonempty; [|done..|eapply Forall_impl; [exact Hids|by intros ? []]].
  apply nonempty_spec in Hb, Ha. cbn. by rewrite Hb, Ha.
Qed.

Lemma issue_ids_validated ids :
  Forall (fun i => i ≠ "" /\ string_all safe_char i = true) ids ->
  all_ok (fun i => validateIssueId (JStr i)) ids = Ok ids.
Proof.
  intros Hids. apply all_ok_Ok. induction Hids as [|i ids [? ?] _ IH]; constructor; [|done].
  by apply validateIssueId_Ok.
Qed.

End contract.

(** ** Concrete runs *)

Definition demo_number (s : string) : jsval := if decide (s = "8081") then jint 8081 else JNum NNaN.
Definition demo_protocol (s : string) : option string := Some "http:".

Lemma validateArgs_sound_witness :
  Forall (fun i => i ≠ "" /\ string_all safe_char i = true) ["r1"] /\ GOAL_PATTERN "P1/P2" = true.
Proof.
  set (args := JObj [("target_issue", JStr "r1"); ("members", jstrs ["alice"; "bob"]);
                     ("branch", JStr "feat/x"); ("base_branch", JStr "main");
                     ("roleMap", JObj [(" Orchestrator", jstrs ["bob"])]);
                     ("budget", JNum (NFrac (5 # 2)))]).
  set (v := validateArgs demo_stringify demo_parse demo_protocol args).
  assert (exists a, v = Ok a /\ va_targetIssues a = ["r1"] /\ va_goal a = "P1/P2")
    as (a & Ha & Ht & Hg) by (vm_compute; eauto).
  pose proof (validateArgs_sound demo_stringify demo_parse demo_protocol args a Ha)
    as (_ & _ & H1 & _ & _ & _ & _ & _ & H2 & _).
  rewrite <-Ht, <-Hg. split; [exact H1|exact H2].
Defined.


(** ** Member names with a comma *)

Definition comma_body : launch_body :=
  {| lb_json := JObj [("issue", JStr "r2"); ("branch", JStr "feat/y"); ("base", JStr "main");
                      ("members", JArr [JStr "alice,bob"])];
     lb_goal := None; lb_maxCycles := None; lb_allowMissingMembers := false;
     lb_requirementsFile := None; lb_budget := None |}.

(** A reservation of [alice] by another sprint. *)
Definition alice_taken : controller :=
  (launch demo_stringify demo_parse demo_sha "cli.mjs" None None None demo_api_cfg demo_guard
     (demo_env "s1" 101 io_ok) (demo_launch_body "r1" "alice") idle).1.

(** The members the child's command line reads. *)
Definition child_members (p : result launch_plan) : list string :=
  match p with
  | Ok p => filter (fun x => x ≠ "") (trim <$> split_comma (o_members (pl_opts p)))
  | Throw _ => []
  end.

(** A member list in array form is not split on commas by the supervisor,
    but the child splits it: a launch that names one member ["alice,bob"]
    passes the overlap guard while [alice] is reserved, and its child then
    drives [alice] and [bob]. *)
Theorem comma_member_bypasses_guard :
  (members <$> jget "s1" (reservations (ct_ledger alice_taken))) = Some ["alice"] /\
  is_ok (launch_admit demo_stringify demo_parse demo_guard (demo_env "s2" 102 io_ok) comma_body
           alice_taken) = true /\
  child_members (launch_admit demo_stringify demo_parse demo_guard (demo_env "s2" 102 io_ok)
                   comma_body alice_taken) = ["alice"; "bob"].
Proof. vm_compute. done. Qed.
