(* ===== verification/Backlog.v ===== *)
(** * The backlog view

    [src/supervisor/backlog.mjs]: which beads the active sprints claim, the
    forest of the unclaimed ones with its partial-claim annotations, and the
    flat filtered and sorted list.  The bead rows, their normalisation and
    the in-memory scope expansion are in [Scope].

    The order in which the classifications of [activeReservations] settle is
    an argument.  [parse_date s] is [Date.parse(s)] when it is finite,
    [number] is [Number] on a filter's text when finite, [to_string] is
    [v.toString()]. *)

From Stdlib Require Import QArith.
From S2P Require Import Prelude JsMap JsVal Text Reservation SprintArgs Scope.
From S2P Require Import Http Watchdog.
Local Open Scope string_scope.
Local Open Scope list_scope.

(** ** Partial claims *)

(** The claimed ids with their owning sprints: an owner or a list of them. *)
Notation claims := (list (string * jsval)).

Record partial_claim := {
  pc_totalCount : nat; pc_claimedCount : nat; pc_freeCount : nat;
  pc_sprints : list (string * nat)
}.

Definition ownersOf (value : jsval) : list string :=
  match value with
  | JArr l => omap as_nonempty_str l
  | JStr s => if nonempty s then [s] else []
  | _ => []
  end.

Definition isClaimed (cl : claims) (id : string) : bool := jhas id cl.

(** [pid && byId.has(pid)]: the parent, when the tracker has it. *)
Definition tracked_parent (beads : list bead) (b : bead) : option string :=
  match bd_parentId b with
  | Some pid => if nonempty pid && bool_decide (pid ∈ bd_id <$> beads) then Some pid else None
  | None => None
  end.

(** [allChildrenOf] *)
Definition allChildrenOf (beads : list bead) : list (string * list bead) :=
  group_by (tracked_parent beads) beads.

(** [sprintCounts.set(owner, (sprintCounts.get(owner) ?? 0) + 1)] *)
Definition bump (counts : list (string * nat)) (owner : string) : list (string * nat) :=
  jset owner (S (default 0 (jget owner counts))) counts.

Definition partial_claim_of (cl : claims) (kids : list bead) : option partial_claim :=
  let claimedKids := filter (fun c => isClaimed cl (bd_id c) = true) kids in
  match claimedKids with
  | [] => None
  | _ =>
      let owners := concat ((fun c => ownersOf (default JUndef (jget (bd_id c) cl))) <$> claimedKids) in
      Some {| pc_totalCount := length kids; pc_claimedCount := length claimedKids;
              pc_freeCount := length kids - length claimedKids;
              pc_sprints := foldl bump [] owners |}
  end.

Definition computePartialClaimByBead (beads : list bead) (cl : claims)
    : list (string * option partial_claim) :=
  let kids := allChildrenOf beads in
  foldl (fun m b => if isClaimed cl (bd_id b) then m
                    else jset (bd_id b) (partial_claim_of cl (default [] (jget (bd_id b) kids))) m)
    [] beads.

Definition formatPartialClaim (pc : partial_claim) : string :=
  let label := match pc_sprints pc with
               | [] => "an active sprint"
               | [(s, _)] => s
               | ss => joinS ", " ((fun sc => sc.1 +:+ " (" +:+ pretty sc.2 +:+ ")") <$> ss)
               end in
  pretty (pc_claimedCount pc) +:+ " of " +:+ pretty (pc_totalCount pc) +:+ " children claimed by " +:+
  label +:+ "; " +:+ pretty (pc_freeCount pc) +:+ " free".

(** ** The forest *)

Inductive backlog_node := BacklogNode {
  bn_id : string; bn_title : string; bn_issueType : jsval; bn_status : jsval;
  bn_partialClaim : option partial_claim; bn_children : list backlog_node
}.

(** The ids of a node and the nodes below it. *)
Fixpoint node_ids (t : backlog_node) : list string :=
  match t with BacklogNode id _ _ _ _ ts => id :: concat (map node_ids ts) end.

(** [buildNode]: the source recurses; [None] when the fuel runs out. *)
Fixpoint buildNode (fuel : nat) (kids : list (string * list bead))
    (pcs : list (string * option partial_claim)) (cl : claims) (b : bead) : option backlog_node :=
  match fuel with
  | O => None
  | S fuel' =>
      let freeKids := filter (fun c => isClaimed cl (bd_id c) = false)
                        (default [] (jget (bd_id b) kids)) in
      children ← mapM (buildNode fuel' kids pcs cl) freeKids;
      Some (BacklogNode (bd_id b) (bd_title b) (bd_issueType b) (bd_status b)
              (default None (jget (bd_id b) pcs)) children)
  end.

(** A free bead without a free tracked parent. *)
Definition is_root (beads : list bead) (cl : claims) (b : bead) : bool :=
  if isClaimed cl (bd_id b) then false
  else match tracked_parent beads b with
       | Some pid => isClaimed cl pid
       | None => true
       end.

(** A path of the forest has each bead once. *)
Definition buildBacklogTree (beads : list bead) (cl : claims) : option (list backlog_node) :=
  let kids := allChildrenOf beads in
  let pcs := computePartialClaimByBead beads cl in
  mapM (buildNode (length beads) kids pcs cl) (filter (fun b => is_root beads cl b = true) beads).

(** ** What the sprints claim *)

(** [settled]: the ledger's entries in the order their classifications
    settle. A classification that throws keeps the entry. *)
Definition activeReservations (watchdog : option (string * reservation -> result WATCHDOG_STATUS))
    (entries settled : list (string * reservation)) : list (string * reservation) :=
  match watchdog with
  | None => entries
  | Some classify => filter (fun e => classify e ≠ Ok FINISHED_ST) settled
  end.

(** [for (const id of scope) if (!claimedBy.has(id)) claimedBy.set(id, sprintId)] *)
Definition claim_scope (sprintId : string) (cl : claims) (scope : list string) : claims :=
  foldl (fun cl id => if jhas id cl then cl else jset id (JStr sprintId) cl) cl scope.

(** Each reservation's scope in turn; one that fails claims nothing. *)
Definition claim_reservations (expand : list string -> result (list string))
    (rs : list (string * reservation)) : claims :=
  foldl (fun cl e => match expand (issueRoots e.2) with
                     | Ok scope => claim_scope e.1 cl scope
                     | Throw _ => cl
                     end) [] rs.

(** The production expansion, over the bulk listing. *)
Definition expand_bulk (raw : jsval) (roots : list string) : result (list string) :=
  match expandScopeInMemory (JStr <$> roots) (buildChildIndex (beads_of_rows raw)) with
  | Some scope => Ok scope
  | None => Throw (PlainErr "unreachable")
  end.

Definition buildClaimedBy (raw : jsval) (active : list (string * reservation)) : claims :=
  claim_reservations (expand_bulk raw) active.

(** [buildTree]; [listAllBeads] may throw. *)
Definition buildTree (rows : result jsval) (active : list (string * reservation))
    : option (result (list backlog_node)) :=
  match rows with
  | Throw e => Some (Throw e)
  | Ok raw => Ok <$> buildBacklogTree (beads_of_rows raw) (buildClaimedBy raw active)
  end.

(** ** The flat list *)

Record bead_filters := {
  f_type : option string; f_status : option string; f_priority : option string;
  f_model : option string; f_q : option string; f_sort : option string; f_dir : option string
}.

Inductive direction := Asc | Desc.

Section flat.
Context (parse_date : string -> option Z) (number : string -> option jnum).
Context (to_string : jsval -> string).

(** An empty result is [None] too: every use is behind a truthiness test or
    compares with a non-empty text. *)
Definition norm (v : option string) : option string :=
  match v with
  | Some s => let t := toLowerCase (trim s) in if nonempty t then Some t else None
  | None => None
  end.

Definition parseCreatedAt (r : jsval) : option Z :=
  match as_nonempty_str (prop "created_at" r) with Some s => parse_date s | None => None end.

(** The rows with their index and date. *)
Definition decorate (tasks : list jsval) : list (jsval * nat * option Z) :=
  imap (fun i r => (r, i, parseCreatedAt r)) tasks.

(** The comparator's result, as an order: not positive. *)
Definition created_cmp (dir : direction) (a b : jsval * nat * option Z) : Z :=
  match a.2, b.2 with
  | None, None => Z.of_nat a.1.2 - Z.of_nat b.1.2
  | None, Some _ => 1
  | Some _, None => -1
  | Some x, Some y =>
      if (x =? y)%Z then Z.of_nat a.1.2 - Z.of_nat b.1.2
      else match dir with Asc => x - y | Desc => - (x - y) end
  end.

Definition created_le (dir : direction) (a b : jsval * nat * option Z) : Prop :=
  (created_cmp dir a b <= 0)%Z.

#[export] Instance created_le_dec dir : RelDecision (created_le dir).
Proof. intros a b. unfold created_le. apply _. Defined.

Definition sortByCreatedAt (tasks : list jsval) (dir : direction) : list jsval :=
  (fun d => d.1.1) <$> merge_sort (created_le dir) (decorate tasks).

(** [(r.issue_type ?? r.issueType ?? '').toString()] *)
Definition typeOf (r : jsval) : string :=
  to_string (coalesce (coalesce (prop "issue_type" r) (prop "issueType" r)) (JStr "")).
Definition statusOf (r : jsval) : string := to_string (coalesce (prop "status" r) (JStr "")).

(** [(r.metadata && r.metadata.model) || ''] *)
Definition modelOf (r : jsval) : jsval :=
  let v := if truthy (prop "metadata" r) then prop "model" (prop "metadata" r) else prop "metadata" r in
  if truthy v then v else JStr "".

(** A text criterion rejects the row. *)
Definition differs (criterion : option string) (v : string) : bool :=
  match criterion with Some t => negb (bool_decide (toLowerCase v = t)) | None => false end.

Definition priority_filter (f : bead_filters) : option jnum :=
  match f_priority f with Some p => if nonempty p then number p else None | None => None end.

Definition text_match (f : bead_filters) (r : jsval) : bool :=
  match norm (f_q f) with
  | Some q => includes q (toLowerCase (to_string (prop "id" r) +:+ " " +:+
                            to_string (coalesce (prop "title" r) (JStr ""))))
  | None => true
  end.

(** One row against the filters; [toLowerCase] of a model that is not a
    string throws. *)
Definition row_matches (f : bead_filters) (r : jsval) : result bool :=
  if differs (norm (f_type f)) (typeOf r) then Ok false
  else if differs (norm (f_status f)) (statusOf r) then Ok false
  else if match priority_filter f with
          | Some n => negb (strict_eq (prop "priority" r) (JNum n))
          | None => false
          end then Ok false
  else match norm (f_model f) with
       | None => Ok (text_match f r)
       | Some m =>
           match modelOf r with
           | JStr s => if bool_decide (toLowerCase s = m) then Ok (text_match f r) else Ok false
           | _ => Throw (TypeErr "modelOf(...).toLowerCase is not a function")
           end
       end.

Fixpoint filter_rows (f : bead_filters) (rows : list jsval) : result (list jsval) :=
  match rows with
  | [] => Ok []
  | r :: rows' =>
      keep ← row_matches f r;
      rest ← filter_rows f rows';
      Ok (if keep : bool then r :: rest else rest)
  end.

(** The tasks and the total; the observed filter values are not modelled. *)
Definition applyBeadFilters (rows : list jsval) (f : bead_filters) : result (list jsval * nat) :=
  tasks ← filter_rows f rows;
  Ok (if bool_decide (norm (f_sort f) = Some "created_at")
      then sortByCreatedAt tasks (if bool_decide (norm (f_dir f) = Some "asc") then Asc else Desc)
      else tasks, length rows).

Definition partial_claim_json (o : option partial_claim) : jsval :=
  match o with
  | None => JNull
  | Some pc =>
      JObj [("totalCount", jint (Z.of_nat (pc_totalCount pc)));
            ("claimedCount", jint (Z.of_nat (pc_claimedCount pc)));
            ("freeCount", jint (Z.of_nat (pc_freeCount pc)));
            ("sprints", JArr ((fun sc => JObj [("sprintId", JStr sc.1);
                                               ("count", jint (Z.of_nat sc.2))]) <$> pc_sprints pc))]
  end.

(** [{ ...b, parent, partialClaim }] *)
Definition stamp_row (pcs : list (string * option partial_claim)) (b : jsval) : jsval :=
  let fs := match b with JObj fs => fs | _ => [] end in
  let id := default "" (as_str (prop "id" b)) in
  JObj (jset "partialClaim" (partial_claim_json (default None (jget id pcs)))
         (jset "parent" (of_opt JStr (parentIdOf b)) fs)).

(** The rows that have an id. *)
Definition rows_with_id (raw : jsval) : list (string * jsval) :=
  omap (fun b => (fun id => (id, b)) <$> as_nonempty_str (prop "id" b)) (default [] (as_arr raw)).

Definition buildBacklogTasks (rows : result jsval) (active : list (string * reservation))
    (f : bead_filters) : result (list jsval * nat) :=
  raw ← rows;
  let cl := buildClaimedBy raw active in
  let with_id := rows_with_id raw in
  let pcs := computePartialClaimByBead (normalizeBead <$> with_id.*2) cl in
  let free := filter (fun e => isClaimed cl e.1 = false) with_id in
  applyBeadFilters (stamp_row pcs <$> free.*2) f.

(** [GET /api/backlog/tasks] *)
Definition route_backlog_tasks (rows : result jsval) (active : list (string * reservation))
    (f : bead_filters) : response :=
  match buildBacklogTasks rows active f with
  | Ok (tasks, total) => sendJson 200 [("tasks", JArr tasks); ("total", jint (Z.of_nat total))]
  | Throw _ => sendError 500 "failed to build backlog tasks"
  end.
End flat.
