(* ===== verification/BacklogProps.v ===== *)
(** * What the backlog view guarantees

    Every unclaimed bead is shown exactly once and no claimed one is; the
    annotations count the children; the date sort is stable. *)

From S2P Require Import Prelude JsMap JsVal Text Reservation SprintArgs Scope ScopeProps.
From S2P Require Import Http Watchdog Backlog.
Local Open Scope string_scope.
Local Open Scope list_scope.

(** ** Beads by id *)

Definition unique_ids (beads : list bead) : Prop := NoDup (bd_id <$> beads).

Lemma unique_id beads b c :
  unique_ids beads -> b ∈ beads -> c ∈ beads -> bd_id b = bd_id c -> b = c.
Proof.
  unfold unique_ids. induction beads as [|d beads IH]; [by intros ? ?%elem_of_nil|].
  rewrite fmap_cons. intros [Hd Hnd]%NoDup_cons.
  assert (forall e, e ∈ beads -> bd_id e ≠ bd_id d) as Hne.
  { intros e He Heq. apply Hd. rewrite <-Heq. apply list_elem_of_fmap. eauto. }
  intros [->|Hb]%elem_of_cons [->|Hc]%elem_of_cons Heq; [done| | |by apply IH].
  - by destruct (Hne c Hc).
  - by destruct (Hne b Hb).
Qed.

Lemma ids_NoDup beads l : unique_ids beads -> l ⊆ beads -> NoDup l -> NoDup (bd_id <$> l).
Proof.
  intros Hu. induction l as [|b l IH]; intros Hsub; [constructor|].
  intros [Hb Hnd]%NoDup_cons. rewrite fmap_cons. apply NoDup_cons. split; [|apply IH; set_solver].
  intros (c & Heq & Hc)%list_elem_of_fmap. apply Hb.
  rewrite (unique_id beads b c); set_solver.
Qed.

Lemma tracked_parent_Some beads b p :
  tracked_parent beads b = Some p <-> bd_parentId b = Some p /\ p ≠ "" /\ p ∈ bd_id <$> beads.
Proof.
  unfold tracked_parent. destruct (bd_parentId b) as [q|]; [|naive_solver].
  destruct (nonempty q) eqn:Hq; cbn [andb].
  - apply nonempty_spec in Hq. case_bool_decide; naive_solver.
  - apply nonempty_false in Hq. naive_solver.
Qed.

Lemma children_lookup beads p :
  default [] (jget p (allChildrenOf beads)) = filter (fun b => tracked_parent beads b = Some p) beads.
Proof. apply jget_group_by. Qed.

(** ** The forest's edges *)

Section forest.
Context (beads : list bead) (cl : claims) (Hu : unique_ids beads).

Definition free (b : bead) : Prop := isClaimed cl (bd_id b) = false.

(** [c] is shown under [b]. *)
Definition free_kid (b c : bead) : Prop :=
  c ∈ beads /\ free c /\ tracked_parent beads c = Some (bd_id b).

(** The free beads [n] steps below a root of the forest. *)
Inductive at_depth : nat -> bead -> Prop :=
| at_root b : b ∈ beads -> is_root beads cl b = true -> at_depth 0 b
| at_kid n b c : at_depth n b -> free_kid b c -> at_depth (S n) c.

Lemma at_depth_in n b : at_depth n b -> b ∈ beads /\ free b.
Proof.
  destruct 1 as [b Hb Hr|n b c _ (? & ? & _)]; [|done]. split; [done|].
  unfold is_root in Hr. unfold free. by destruct (isClaimed cl (bd_id b)).
Qed.

Lemma kid_not_root b c : b ∈ beads -> free b -> free_kid b c -> is_root beads cl c = false.
Proof.
  intros Hb Hf (Hc & Hfc & Hp). unfold is_root. unfold free in *. by rewrite Hfc, Hp.
Qed.

Lemma free_kid_parent b b' c : b ∈ beads -> b' ∈ beads -> free_kid b c -> free_kid b' c -> b = b'.
Proof. intros Hb Hb' (_ & _ & H1) (_ & _ & H2). apply (unique_id beads); [done..|congruence]. Qed.

(** A bead has one depth. *)
Lemma at_depth_unique n m b : at_depth n b -> at_depth m b -> n = m.
Proof.
  revert m b. induction n as [|n IH]; intros m b Hn Hm;
    inversion Hn as [? Hb Hr|? p ? Hp Hk]; subst; inversion Hm as [? Hb' Hr'|k q ? Hq Hk']; subst; try done.
  - destruct (at_depth_in _ _ Hq). by rewrite (kid_not_root q b) in Hr.
  - destruct (at_depth_in _ _ Hp). by rewrite (kid_not_root p b) in Hr'.
  - f_equal. destruct (at_depth_in _ _ Hp), (at_depth_in _ _ Hq).
    rewrite (free_kid_parent p q b) in Hp by done. by eapply IH.
Qed.

(** The beads on the way to the root are distinct, so there are at most as
    many levels as beads. *)
Lemma at_depth_path n b :
  at_depth n b -> exists l, length l = S n /\ NoDup l /\ l ⊆ beads /\
    forall x, x ∈ l -> exists k, k <= n /\ at_depth k x.
Proof.
  induction 1 as [b Hb Hr|n b c Hb (l & Hl & Hnd & Hsub & Hk) Hc].
  - exists [b]. split; [done|]. split; [apply NoDup_singleton|]. split; [set_solver|].
    intros x ->%list_elem_of_singleton. exists 0. split; [done|by apply at_root].
  - exists (c :: l). split; [simpl; lia|]. assert (at_depth (S n) c) as Hcd by by eapply at_kid.
    split; [|split].
    + apply NoDup_cons. split; [|done]. intros (k & Hkn & Hck)%Hk.
      rewrite (at_depth_unique k (S n) c) in Hkn by done. lia.
    + intros x [->|Hx]%elem_of_cons; [by destruct Hc|by apply Hsub].
    + intros x [->|Hx]%elem_of_cons; [by exists (S n)|]. destruct (Hk x Hx) as (k & ? & ?).
      exists k. split; [lia|done].
Qed.

Lemma at_depth_bound n b : at_depth n b -> n < length beads.
Proof.
  intros (l & Hl & Hnd & Hsub & _)%at_depth_path.
  assert (length l <= length beads); [|lia]. by apply submseteq_length, NoDup_submseteq.
Qed.

Lemma at_depth_nsteps m k x y : nsteps free_kid k x y -> at_depth m x -> at_depth (m + k) y.
Proof.
  intros Hk. revert m. induction Hk as [|k x z y Hxz Hk IH]; intros m Hm.
  - by rewrite Nat.add_0_r.
  - rewrite Nat.add_succ_r. apply (IH (S m)). by eapply at_kid.
Qed.

Lemma no_loop m b k : at_depth m b -> 0 < k -> ~ nsteps free_kid k b b.
Proof.
  intros Hb Hk Hn. pose proof (at_depth_nsteps _ _ _ _ Hn Hb) as Hb'.
  pose proof (at_depth_unique _ _ _ Hb Hb'). lia.
Qed.

(** Subtrees of beads of one depth are disjoint. *)
Lemma desc_unique i j b b' c m :
  nsteps free_kid i b c -> nsteps free_kid j b' c -> at_depth m b -> at_depth m b' -> b = b'.
Proof.
  assert (Hd := at_depth_nsteps m).
  revert j c. induction i as [|i IH]; intros j c Hi Hj Hb Hb';
    pose proof (at_depth_unique _ _ _ (Hd _ _ _ Hi Hb) (Hd _ _ _ Hj Hb')) as Hij;
    [replace j with 0 in Hj by lia|replace j with (S i) in Hj by lia].
  - inversion Hi; subst. by inversion Hj.
  - apply nsteps_inv_r in Hi as (d & Hi & Hk), Hj as (d' & Hj & Hk').
    destruct (at_depth_in _ _ (Hd _ _ _ Hi Hb)), (at_depth_in _ _ (Hd _ _ _ Hj Hb')).
    rewrite (free_kid_parent d' d c) in Hj by done. by eapply IH.
Qed.

(** ** What is built *)

(** [t] is the node of [b]: its fields, the annotation of all its children,
    and the nodes of its free ones, in tracker order. *)
Inductive shows : bead -> backlog_node -> Prop :=
| shows_node b ts :
    Forall2 shows (filter (fun c => isClaimed cl (bd_id c) = false)
                     (default [] (jget (bd_id b) (allChildrenOf beads)))) ts ->
    shows b (BacklogNode (bd_id b) (bd_title b) (bd_issueType b) (bd_status b)
               (partial_claim_of cl (default [] (jget (bd_id b) (allChildrenOf beads)))) ts).

(** The ids below [b] in the forest, [b] included. *)
Definition under (b : bead) (x : string) : Prop := exists c, rtc free_kid b c /\ bd_id c = x.

Definition node_ok (b : bead) (t : backlog_node) : Prop :=
  shows b t /\ NoDup (node_ids t) /\ forall x, x ∈ node_ids t <-> under b x.

Lemma at_depth_rtc n b c : at_depth n b -> rtc free_kid b c -> exists m, at_depth m c.
Proof.
  intros Hb Hrt. revert n Hb. induction Hrt as [|a d c Had _ IH]; intros n Hb; [by exists n|].
  apply (IH (S n)). by eapply at_kid.
Qed.

Lemma under_disjoint m b b' x : at_depth m b -> at_depth m b' -> under b x -> under b' x -> b = b'.
Proof.
  intros Hb Hb' (c & Hc & <-) (c' & Hc' & Heq).
  destruct (at_depth_rtc _ _ _ Hb Hc) as [k Hk], (at_depth_rtc _ _ _ Hb' Hc') as [k' Hk'].
  destruct (at_depth_in _ _ Hk), (at_depth_in _ _ Hk').
  rewrite (unique_id beads c' c) in Hc' by done.
  apply rtc_nsteps in Hc as [i Hi], Hc' as [j Hj]. by eapply desc_unique.
Qed.

(** A list of beads of one depth, and their nodes. *)
Lemma nodes_ids m l ts :
  Forall2 node_ok l ts -> NoDup l -> Forall (at_depth m) l ->
  NoDup (concat (map node_ids ts)) /\
  forall x, x ∈ concat (map node_ids ts) <-> exists b, b ∈ l /\ under b x.
Proof.
  induction 1 as [|b t l ts (_ & Hnd & Hids) _ IH]; simpl.
  { intros _ _. split; [constructor|]. set_solver. }
  intros [Hb Hl]%NoDup_cons [Hbd Hld]%Forall_cons. destruct (IH Hl Hld) as [Hnds Hidss].
  split.
  - apply NoDup_app. split; [done|]. split; [|done]. intros x Hx Hx'.
    apply Hids in Hx. apply Hidss in Hx' as (b' & Hb' & Hx'). apply Hb.
    rewrite Forall_forall in Hld. by rewrite (under_disjoint m b b' x) by auto.
  - intros x. rewrite elem_of_app, Hids, Hidss. set_solver.
Qed.

Lemma jget_partial_claims b :
  b ∈ beads -> free b ->
  default None (jget (bd_id b) (computePartialClaimByBead beads cl))
    = partial_claim_of cl (default [] (jget (bd_id b) (allChildrenOf beads))).
Proof.
  unfold computePartialClaimByBead, free. set (kids := allChildrenOf beads). clearbody kids.
  intros Hb Hf. set (step := fun m b => _).
  assert (Hkeep : forall l m, jget (bd_id b) m = Some (partial_claim_of cl (default [] (jget (bd_id b) kids))) ->
            jget (bd_id b) (foldl step m l) = Some (partial_claim_of cl (default [] (jget (bd_id b) kids)))).
  { induction l as [|c l IH]; intros m Hm; [done|]. simpl. apply IH. unfold step.
    destruct (isClaimed cl (bd_id c)); [done|]. rewrite jget_jset. case_decide as Heq; [by rewrite Heq|done]. }
  enough (Hset : forall m, jget (bd_id b) (foldl step m beads)
                           = Some (partial_claim_of cl (default [] (jget (bd_id b) kids)))) by by rewrite Hset.
  clear Hu. induction beads as [|c l IH]; [by apply elem_of_nil in Hb|]. intros m. simpl.
  apply elem_of_cons in Hb as [<-|Hb]; [|by apply IH]. apply Hkeep. unfold step.
  rewrite Hf. apply jget_jset_eq.
Qed.

Lemma beads_NoDup : NoDup beads.
Proof. by apply NoDup_fmap_1 with (f := bd_id). Qed.

Lemma free_kids_spec b c :
  c ∈ filter (fun c => isClaimed cl (bd_id c) = false) (default [] (jget (bd_id b) (allChildrenOf beads)))
  <-> free_kid b c.
Proof.
  rewrite list_elem_of_filter, children_lookup, list_elem_of_filter. unfold free_kid, free. tauto.
Qed.

Lemma buildNode_ok fuel n b :
  at_depth n b -> length beads <= fuel + n ->
  exists t, buildNode fuel (allChildrenOf beads) (computePartialClaimByBead beads cl) cl b = Some t /\
    node_ok b t.
Proof.
  revert n b. induction fuel as [|fuel IH]; intros n b Hb Hf.
  { apply at_depth_bound in Hb. lia. }
  cbn [buildNode]. destruct (at_depth_in _ _ Hb) as [Hin Hfree].
  set (fk := filter _ (default [] (jget (bd_id b) (allChildrenOf beads)))).
  assert (Hfk : forall c, c ∈ fk -> at_depth (S n) c)
    by (intros c Hc; apply free_kids_spec in Hc; by eapply at_kid).
  destruct (mapM_all (buildNode fuel (allChildrenOf beads) (computePartialClaimByBead beads cl) cl)
              node_ok fk) as (ts & -> & Hts).
  { intros c Hc. apply (IH (S n)); [by apply Hfk|lia]. }
  simpl. eexists. split; [done|]. rewrite jget_partial_claims by done.
  destruct (nodes_ids (S n) fk ts) as [Hnd Hids]; [done| |by apply Forall_forall|].
  { apply NoDup_filter. rewrite children_lookup. apply NoDup_filter, beads_NoDup. }
  split; [|split].
  - constructor. eapply Forall2_impl; [exact Hts|]. by intros ? ? [? _].
  - simpl. apply NoDup_cons. split; [|done]. intros (c & Hc & d & Hd & Heq)%Hids.
    apply free_kids_spec in Hc.
    assert (d = b) as ->.
    { destruct (at_depth_rtc (S n) c d) as [k Hk]; [by eapply at_kid|done|].
      apply at_depth_in in Hk as [? _]. by apply (unique_id beads). }
    apply rtc_nsteps in Hd as [i Hi].
    apply (no_loop n b (S i)); [done|lia|]. by econstructor.
  - intros x. simpl. rewrite elem_of_cons, Hids. split.
    + intros [->|(c & Hc & d & Hd & <-)]; [exists b; split; [constructor|done]|].
      exists d. split; [|done]. eapply rtc_l; [by apply free_kids_spec|done].
    + intros (d & Hd & <-). apply rtc_inv in Hd as [<-|(c & Hc & Hd)]; [by left|].
      right. exists c. split; [by apply free_kids_spec|]. by exists d.
Qed.
End forest.

(** The parent edges of the tracker have no cycle. *)
Definition acyclic (beads : list bead) : Prop :=
  exists rank : string -> nat, forall b p, b ∈ beads -> bd_parentId b = Some p -> rank p < rank (bd_id b).

(** The free beads from which the way up through free beads ends. *)
Definition shown (beads : list bead) (cl : claims) (x : string) : Prop :=
  exists n b, at_depth beads cl n b /\ bd_id b = x.

Lemma acyclic_shown beads cl b :
  unique_ids beads -> acyclic beads -> b ∈ beads -> isClaimed cl (bd_id b) = false ->
  shown beads cl (bd_id b).
Proof.
  intros Hu (rank & Hrank) Hb Hf. cut (exists n, at_depth beads cl n b); [intros [n ?]; by exists n, b|].
  remember (rank (bd_id b)) as k eqn:Hk. revert b Hb Hf Hk.
  induction (lt_wf k) as [k _ IH]. intros b Hb Hf ->.
  destruct (is_root beads cl b) eqn:Hr; [exists 0; by apply at_root|].
  unfold is_root in Hr. rewrite Hf in Hr.
  destruct (tracked_parent beads b) as [p|] eqn:Hp; [|done]. pose proof Hp as Hp'.
  apply tracked_parent_Some in Hp' as (Hpar & _ & (q & -> & Hq)%list_elem_of_fmap).
  destruct (IH (rank (bd_id q))) with (b := q) as [n Hn]; [by apply Hrank|done..|].
  exists (S n). by eapply at_kid.
Qed.

Lemma shown_under beads cl x :
  unique_ids beads ->
  shown beads cl x <-> exists b, b ∈ filter (fun b => is_root beads cl b = true) beads /\ under beads cl b x.
Proof.
  intros Hu. split.
  - intros (n & c & Hc & <-). cut (exists b, at_depth beads cl 0 b /\ rtc (free_kid beads cl) b c).
    { intros (b & Hb & Hrt). exists b. split; [|by exists c]. apply list_elem_of_filter.
      by inversion Hb. }
    induction Hc as [b Hb Hr|n b c Hb (r & Hr & Hrt) Hk].
    + exists b. split; [by apply at_root|constructor].
    + exists r. split; [done|]. by eapply rtc_r.
  - intros (b & [Hr Hb]%list_elem_of_filter & c & Hc & <-).
    destruct (at_depth_rtc beads cl 0 b c) as [m Hm]; [by apply at_root|done|]. by exists m, c.
Qed.

Lemma forest_built beads cl :
  unique_ids beads ->
  exists forest, buildBacklogTree beads cl = Some forest /\
    Forall2 (shows beads cl) (filter (fun b => is_root beads cl b = true) beads) forest /\
    NoDup (concat (map node_ids forest)) /\
    forall x, x ∈ concat (map node_ids forest) <-> shown beads cl x.
Proof.
  intros Hu. unfold buildBacklogTree. set (roots := filter _ beads).
  assert (Hroots : forall b, b ∈ roots -> at_depth beads cl 0 b).
  { intros b [Hr Hb]%list_elem_of_filter. by apply at_root. }
  destruct (mapM_all (buildNode (length beads) (allChildrenOf beads) (computePartialClaimByBead beads cl) cl)
              (node_ok beads cl) roots) as (ts & -> & Hts).
  { intros b Hb. apply (buildNode_ok beads cl Hu _ 0); [by apply Hroots|lia]. }
  exists ts. split; [done|].
  destruct (nodes_ids beads cl Hu 0 roots ts) as [Hnd Hids]; [done| |by apply Forall_forall|].
  { by apply NoDup_filter, beads_NoDup. }
  split; [eapply Forall2_impl; [exact Hts|]; by intros ? ? [? _]|].
  split; [done|]. intros x. by rewrite Hids, shown_under.
Qed.

Lemma forest_perm beads cl forest :
  unique_ids beads -> acyclic beads -> NoDup (concat (map node_ids forest)) ->
  (forall x, x ∈ concat (map node_ids forest) <-> shown beads cl x) ->
  concat (map node_ids forest) ≡ₚ bd_id <$> filter (fun b => isClaimed cl (bd_id b) = false) beads.
Proof.
  intros Hu Hac Hnd Hids. apply NoDup_Permutation; [done| |].
  - eapply (ids_NoDup beads); [done|intros b [_ ?]%list_elem_of_filter; done|].
    by apply NoDup_filter, beads_NoDup.
  - intros x. rewrite Hids, list_elem_of_fmap. setoid_rewrite list_elem_of_filter. split.
    + intros (n & b & Hb & <-). apply at_depth_in in Hb as [? Hf]. by exists b.
    + intros (b & -> & Hf & Hb). by apply acyclic_shown.
Qed.

(** C24: The backlog forest terminates on any tracker without repeated ids and
    any claims. Its roots are the free beads without a free parent, each node
    holds its bead's fields, the annotation of all its children and exactly its
    free children in tracker order; no bead is shown twice or while claimed;
    and when the parent edges have no cycle every free bead is shown. *)
Theorem backlog_forest_exact beads cl :
  unique_ids beads ->
  exists forest, buildBacklogTree beads cl = Some forest /\
    Forall2 (shows beads cl) (filter (fun b => is_root beads cl b = true) beads) forest /\
    NoDup (concat (map node_ids forest)) /\
    (forall x, x ∈ concat (map node_ids forest) -> isClaimed cl x = false) /\
    (acyclic beads ->
     concat (map node_ids forest) ≡ₚ bd_id <$> filter (fun b => isClaimed cl (bd_id b) = false) beads).
Proof.
  intros Hu. destruct (forest_built beads cl Hu) as (forest & Hb & Hs & Hnd & Hids).
  exists forest. split; [done|]. split; [done|]. split; [done|]. split.
  - intros x (n & b & Hd & <-)%Hids. by apply at_depth_in in Hd as [_ ?].
  - intros Hac. by apply forest_perm.
Qed.

(** ** What is claimed *)

Lemma jhas_claim_scope s cl scope x :
  jhas x (claim_scope s cl scope) = true <-> jhas x cl = true \/ x ∈ scope.
Proof.
  unfold claim_scope. revert cl. induction scope as [|y scope IH]; intros cl; simpl; [set_solver|].
  rewrite IH, elem_of_cons. destruct (jhas y cl) eqn:Hy; [naive_solver|].
  rewrite !jhas_spec, jget_jset. case_decide; naive_solver.
Qed.

Lemma jget_claim_scope s cl scope x v :
  jget x (claim_scope s cl scope) = Some v -> jget x cl = Some v \/ (v = JStr s /\ x ∈ scope).
Proof.
  unfold claim_scope. revert cl. induction scope as [|y scope IH]; intros cl; simpl; [by left|].
  intros [Hx|[-> ?]]%IH; [|right; set_solver]. destruct (jhas y cl); [by left|].
  rewrite jget_jset in Hx. case_decide; [|by left]. right. set_solver.
Qed.

(** The bead [x] is in the live subtree of the reservation [e]. *)
Definition in_subtree (beads : list bead) (e : string * reservation) (x : string) : Prop :=
  subtree beads (issueRoots e.2) x.

Lemma expand_bulk_spec raw roots :
  exists scope, expand_bulk raw roots = Ok scope /\
    forall x, x ∈ scope <-> subtree (beads_of_rows raw) roots x.
Proof.
  destruct (expand_roots (beads_of_rows raw) roots) as (scope & Hs & Hx).
  exists scope. unfold expand_bulk. by rewrite Hs.
Qed.

Definition claim_step (raw : jsval) (cl : claims) (e : string * reservation) : claims :=
  match expand_bulk raw (issueRoots e.2) with
  | Ok scope => claim_scope e.1 cl scope
  | Throw _ => cl
  end.

Lemma claim_steps raw active cl x :
  (jhas x (foldl (claim_step raw) cl active) = true
   <-> jhas x cl = true \/ exists e, e ∈ active /\ in_subtree (beads_of_rows raw) e x) /\
  (forall v, jget x (foldl (claim_step raw) cl active) = Some v ->
     jget x cl = Some v \/
     exists e, e ∈ active /\ in_subtree (beads_of_rows raw) e x /\ v = JStr e.1).
Proof.
  revert cl. induction active as [|e active IH]; intros cl; simpl; [split; [set_solver|by left]|].
  destruct (IH (claim_step raw cl e)) as [IH1 IH2]. rewrite IH1. clear IH IH1.
  destruct (expand_bulk_spec raw (issueRoots e.2)) as (scope & He & Hs).
  assert (claim_step raw cl e = claim_scope e.1 cl scope) as Heq by (unfold claim_step; by rewrite He).
  rewrite Heq in *. split.
  - rewrite jhas_claim_scope, Hs. unfold in_subtree. set_solver.
  - intros v [[Hv|[-> Hx%Hs]]%jget_claim_scope|Hv]%IH2; [by left| |]; right; [exists e|]; set_solver.
Qed.

Lemma claimed_spec raw active x :
  isClaimed (buildClaimedBy raw active) x = true
  <-> exists e, e ∈ active /\ in_subtree (beads_of_rows raw) e x.
Proof.
  destruct (claim_steps raw active [] x) as [H _].
  unfold isClaimed, buildClaimedBy, claim_reservations. fold (claim_step raw).
  rewrite H. split; [intros [?|?]; done|by right].
Qed.

Lemma claimed_owner raw active x v :
  jget x (buildClaimedBy raw active) = Some v ->
  exists e, e ∈ active /\ in_subtree (beads_of_rows raw) e x /\ v = JStr e.1.
Proof. intros [?|?]%(proj2 (claim_steps raw active [] x)); done. Qed.

(** The ledger's entries a classifier does not call finished. *)
Lemma active_spec classify entries settled e :
  settled ≡ₚ entries ->
  e ∈ activeReservations (Some classify) entries settled
  <-> e ∈ entries /\ classify e ≠ Ok FINISHED_ST.
Proof. intros Hp. simpl. rewrite list_elem_of_filter, Hp. tauto. Qed.

(** C23: The page shows each bead once. With the ledger's entries and the
    watchdog's verdicts, in whatever order they settle, the backlog shows a
    bead of the tracker exactly when it lies in the live subtree of no sprint
    that is not finished, and shows it once; a bead it leaves out is claimed by
    such a sprint whose subtree has it. A sprint whose classification fails
    keeps its beads. *)
Theorem backlog_complements_sprints raw classify entries settled :
  unique_ids (beads_of_rows raw) -> acyclic (beads_of_rows raw) -> settled ≡ₚ entries ->
  let beads := beads_of_rows raw in
  let active := activeReservations (Some classify) entries settled in
  let live e := e ∈ entries /\ classify e ≠ Ok FINISHED_ST in
  exists forest, buildTree (Ok raw) active = Some (Ok forest) /\
    NoDup (concat (map node_ids forest)) /\
    (forall x, x ∈ concat (map node_ids forest) <->
       x ∈ bd_id <$> beads /\ forall e, live e -> ~ in_subtree beads e x) /\
    (forall x v, jget x (buildClaimedBy raw active) = Some v ->
       exists e, live e /\ in_subtree beads e x /\ v = JStr e.1).
Proof.
  intros Hu Hac Hp beads active live. unfold buildTree. fold beads.
  set (cl := buildClaimedBy raw active).
  destruct (forest_built beads cl Hu) as (forest & -> & _ & Hnd & Hids).
  assert (Hact : forall e, e ∈ active <-> live e) by (intros e; by apply active_spec).
  exists forest. split; [done|]. split; [done|]. split.
  - intros x. rewrite (forest_perm beads cl forest), list_elem_of_fmap by done.
    setoid_rewrite list_elem_of_filter. rewrite list_elem_of_fmap.
    assert (isClaimed cl x = false <-> forall e, live e -> ~ in_subtree beads e x) as <-.
    { rewrite <-not_true_iff_false. unfold cl. rewrite claimed_spec. setoid_rewrite Hact. naive_solver. }
    naive_solver.
  - intros x v (e & ? & ? & ?)%claimed_owner. exists e. by rewrite <-Hact.
Qed.

(** ** The annotation's counts *)

Definition sum_counts (m : list (string * nat)) : nat := sum_list m.*2.

Lemma bump_sum m o : sum_counts (bump m o) = S (sum_counts m).
Proof.
  unfold sum_counts, bump. induction m as [|[s n] m IH]; simpl; [done|]. case_decide; csimpl; [done|].
  rewrite IH. lia.
Qed.

Lemma bump_get m o s :
  default 0 (jget s (bump m o)) = default 0 (jget s m) + if decide (o = s) then 1 else 0.
Proof. unfold bump. rewrite jget_jset. case_decide; subst; simpl; lia. Qed.

Lemma bumps_sum os m : sum_counts (foldl bump m os) = sum_counts m + length os.
Proof. revert m. induction os as [|o os IH]; intros m; simpl; [lia|]. rewrite IH, bump_sum. lia. Qed.

Lemma bumps_get os m s :
  default 0 (jget s (foldl bump m os)) = default 0 (jget s m) + length (filter (fun o => o = s) os).
Proof.
  revert m. induction os as [|o os IH]; intros m; simpl; [lia|].
  rewrite IH, bump_get, filter_cons. case_decide; simpl; lia.
Qed.

(** Every claim names one sprint. *)
Definition single_owner (cl : claims) : Prop :=
  forall x v, jget x cl = Some v -> exists s, v = JStr s /\ s ≠ "".

Definition owner (cl : claims) (c : bead) : list string := ownersOf (default JUndef (jget (bd_id c) cl)).

Lemma owner_single cl c :
  single_owner cl -> isClaimed cl (bd_id c) = true ->
  exists s, owner cl c = [s] /\ jget (bd_id c) cl = Some (JStr s).
Proof.
  intros Hs [v Hv]%jhas_spec. destruct (Hs _ _ Hv) as (s & -> & Hne). exists s.
  unfold owner. rewrite Hv. cbn. by rewrite (proj2 (nonempty_spec s)).
Qed.

(** The sprint [s] claims [c]. *)
Definition claimed_by (cl : claims) (s : string) (c : bead) : bool :=
  match jget (bd_id c) cl with Some (JStr t) => bool_decide (t = s) | _ => false end.

Lemma owners_of_claimed cl kids :
  single_owner cl ->
  let claimedKids := filter (fun c => isClaimed cl (bd_id c) = true) kids in
  length (concat (owner cl <$> claimedKids)) = length claimedKids /\
  forall s, length (filter (fun o => o = s) (concat (owner cl <$> claimedKids)))
            = length (filter (fun c => claimed_by cl s c = true) kids).
Proof.
  intros Hs. induction kids as [|c kids [IH1 IH2]]; [done|]. cbn zeta in *.
  rewrite (filter_cons (fun c => isClaimed cl (bd_id c) = true)).
  case_decide as Hc.
  - destruct (owner_single cl c Hs Hc) as (s & Ho & Hg). rewrite fmap_cons. simpl. rewrite Ho.
    split; [simpl; by rewrite IH1|]. intros s'. simpl. rewrite !filter_cons.
    assert (claimed_by cl s' c = true <-> s = s') as Hcb.
    { unfold claimed_by. rewrite Hg. apply bool_decide_eq_true. }
    do 2 case_decide; simpl; rewrite IH2; tauto.
  - split; [done|]. intros s'. rewrite (filter_cons (fun c => claimed_by cl s' c = true)).
    rewrite decide_False; [done|]. unfold claimed_by. intros Hg. apply Hc. apply jhas_spec.
    destruct (jget (bd_id c) cl); [eauto|done].
Qed.

(** The partial-claim annotation adds up. A bead is annotated exactly when
    one of its children is claimed; claimed and free children add up to all of
    them; each sprint is counted with exactly the children it claims; and the
    sprints' counts add up to the claimed children. *)
Theorem partial_claim_counts raw active kids :
  Forall (fun e => e.1 ≠ "") active ->
  let cl := buildClaimedBy raw active in
  match partial_claim_of cl kids with
  | None => Forall (fun c => isClaimed cl (bd_id c) = false) kids
  | Some pc =>
      0 < pc_claimedCount pc /\ pc_claimedCount pc + pc_freeCount pc = pc_totalCount pc /\
      pc_totalCount pc = length kids /\
      pc_freeCount pc = length (filter (fun c => isClaimed cl (bd_id c) = false) kids) /\
      sum_counts (pc_sprints pc) = pc_claimedCount pc /\
      forall s, default 0 (jget s (pc_sprints pc))
                = length (filter (fun c => claimed_by cl s c = true) kids)
  end.
Proof.
  intros Hne cl.
  assert (Hs : single_owner cl).
  { intros x v (e & He & _ & ->)%claimed_owner. exists e.1. split; [done|].
    by eapply Forall_forall in Hne. }
  destruct (owners_of_claimed cl kids Hs) as [Hlen Hcnt]. unfold partial_claim_of.
  assert (Hsplit : length (filter (fun c => isClaimed cl (bd_id c) = true) kids)
                   + length (filter (fun c => isClaimed cl (bd_id c) = false) kids) = length kids).
  { clear Hlen Hcnt. induction kids as [|c kids IH]; [done|]. rewrite !filter_cons.
    destruct (isClaimed cl (bd_id c)); repeat case_decide; simplify_eq/=; lia. }
  destruct (filter (fun c => isClaimed cl (bd_id c) = true) kids) as [|k ks] eqn:Hck.
  { apply Forall_forall. intros c Hc. destruct (isClaimed cl (bd_id c)) eqn:E; [|done]. exfalso.
    apply (not_elem_of_nil c). rewrite <-Hck. by apply list_elem_of_filter. }
  fold (owner cl). cbn [pc_claimedCount pc_freeCount pc_totalCount pc_sprints].
  split; [simpl; lia|]. split; [lia|]. split; [done|]. split; [lia|]. split.
  - rewrite bumps_sum. exact Hlen.
  - intros s. rewrite bumps_get. exact (Hcnt s).
Qed.

(** ** The date sort *)

Section sort.
Context (parse_date : string -> option Z) (dir : direction).

Notation date := (parseCreatedAt parse_date).

#[local] Instance created_le_total : Total (created_le dir).
Proof.
  intros [[r i] [x|]] [[r' j] [y|]]; unfold created_le, created_cmp; cbn; try lia.
  destruct (Z.eqb_spec x y), (Z.eqb_spec y x), dir; lia.
Qed.

#[local] Instance created_le_trans : Transitive (created_le dir).
Proof.
  intros [[r i] [x|]] [[r' j] [y|]] [[r'' k] [z|]]; unfold created_le, created_cmp; cbn; try lia.
  destruct (Z.eqb_spec x y), (Z.eqb_spec y z), (Z.eqb_spec x z), dir; lia.
Qed.

(** Earlier in the requested order; an undated row comes last. *)
Definition date_le (a b : option Z) : Prop :=
  match a, b with
  | _, None => True
  | None, Some _ => False
  | Some x, Some y => match dir with Asc => (x <= y)%Z | Desc => (y <= x)%Z end
  end.

Lemma created_le_date a b : created_le dir a b -> date_le a.2 b.2.
Proof.
  destruct a as [[r i] [x|]], b as [[r' j] [y|]]; unfold created_le, created_cmp; cbn; try done.
  destruct (Z.eqb_spec x y), dir; lia.
Qed.

Lemma decorate_rows tasks : (fun d => d.1.1) <$> decorate parse_date tasks = tasks.
Proof. unfold decorate. rewrite fmap_imap. etrans; [apply (imap_const id)|apply list_fmap_id]. Qed.

Lemma decorate_date tasks d : d ∈ decorate parse_date tasks -> d.2 = date d.1.1.
Proof. by intros (i & r & -> & _)%elem_of_lookup_imap. Qed.

(** An index names one decorated row. *)
Lemma decorate_index tasks d d' :
  d ∈ decorate parse_date tasks -> d' ∈ decorate parse_date tasks -> d.1.2 = d'.1.2 -> d = d'.
Proof.
  intros (i & r & -> & Hr)%elem_of_lookup_imap (j & r' & -> & Hr')%elem_of_lookup_imap Heq.
  cbn in Heq. subst j. by simplify_eq.
Qed.

Lemma decorate_sorted tasks :
  StronglySorted (fun d d' => (d.1.2 < d'.1.2)%nat) (decorate parse_date tasks).
Proof.
  unfold decorate. cut (forall k, StronglySorted (fun d d' : jsval * nat * option Z => (d.1.2 < d'.1.2)%nat)
    (imap (fun i r => (r, k + i, date r)) tasks)); [intros H; exact (H 0)|].
  induction tasks as [|r tasks IH]; intros k; [constructor|]. rewrite imap_cons. constructor.
  - rewrite (imap_ext _ (fun i r => (r, S k + i, date r))); [apply (IH (S k))|].
    intros i x _. simpl. by rewrite Nat.add_succ_r.
  - apply Forall_forall. intros d (i & x & -> & _)%elem_of_lookup_imap. simpl. lia.
Qed.

Lemma same_date_index a b : a.2 = b.2 -> created_le dir a b <-> (a.1.2 <= b.1.2)%nat.
Proof.
  destruct a as [[r i] o], b as [[r' j] o']. cbn. intros <-. unfold created_le, created_cmp. cbn.
  destruct o as [x|]; [rewrite Z.eqb_refl|]; lia.
Qed.

(** Among the rows of one date the sort keeps the order. *)
Lemma decorated_stable tasks o :
  filter (fun d => d.2 = o) (merge_sort (created_le dir) (decorate parse_date tasks))
    = filter (fun d => d.2 = o) (decorate parse_date tasks).
Proof.
  apply (StronglySorted_unique_strong (created_le dir)).
  - intros d d' [Ho Hd]%list_elem_of_filter [Ho' Hd']%list_elem_of_filter.
    rewrite merge_sort_Permutation in Hd. rewrite !same_date_index by congruence.
    intros ? ?. apply (decorate_index tasks); [done..|lia].
  - apply StronglySorted_filter, StronglySorted_merge_sort; apply _.
  - refine (StronglySorted_weaken _ _ _ _ (StronglySorted_filter _ _ _ (decorate_sorted tasks))).
    intros d d' [Ho _]%list_elem_of_filter [Ho' _]%list_elem_of_filter Hlt.
    apply same_date_index; [congruence|lia].
  - by rewrite merge_sort_Permutation.
Qed.

(** Sorting by creation date never fails and loses nothing: the result is
    a permutation of the rows, in the requested direction by date with every
    row whose date is missing or unreadable after all dated ones, and rows of
    equal (or equally missing) date stay in the order they came in. *)
Theorem sortByCreatedAt_stable tasks :
  sortByCreatedAt parse_date tasks dir ≡ₚ tasks /\
  StronglySorted date_le (date <$> sortByCreatedAt parse_date tasks dir) /\
  forall o, filter (fun r => date r = o) (sortByCreatedAt parse_date tasks dir)
            = filter (fun r => date r = o) tasks.
Proof.
  set (D := decorate parse_date tasks). set (M := merge_sort (created_le dir) D).
  assert (HM : M ≡ₚ D) by apply merge_sort_Permutation.
  assert (Hdate : forall d, d ∈ M -> date d.1.1 = d.2).
  { intros d. rewrite HM. intros Hd. by rewrite (decorate_date tasks d). }
  assert (Hout : sortByCreatedAt parse_date tasks dir = (fun d => d.1.1) <$> M) by done.
  rewrite Hout. split; [|split].
  - rewrite HM. unfold D. by rewrite decorate_rows.
  - rewrite <-list_fmap_compose. rewrite (list_fmap_ext _ snd M).
    + apply (StronglySorted_fmap _ (created_le dir)); [apply created_le_date|].
      apply StronglySorted_merge_sort; apply _.
    + intros i d Hd. apply Hdate. by eapply list_elem_of_lookup_2.
  - intros o. rewrite filter_fmap.
    rewrite (list_filter_iff_elem _ (fun d => d.2 = o) M) by (intros d Hd; by rewrite Hdate).
    unfold M, D. rewrite decorated_stable.
    trans (filter (fun r => date r = o) ((fun d => d.1.1) <$> decorate parse_date tasks));
      [|by rewrite decorate_rows].
    rewrite filter_fmap. f_equal. apply list_filter_iff_elem.
    intros d Hd. by rewrite (decorate_date tasks d).
Qed.
End sort.

(** ** Concrete runs *)

(** An epic with two children, one claimed by [s1]; [s2] is finished. *)
Definition demo_row (id parent : string) : jsval :=
  JObj [("id", JStr id); ("title", JStr id); ("parent", JStr parent)].
Definition demo_tracker : jsval :=
  JArr [demo_row "r1" ""; demo_row "r1.1" "r1"; demo_row "r1.2" "r1"; demo_row "r1.1.1" "r1.1";
        demo_row "r2" ""].
Definition demo_rooted (roots : list string) : reservation :=
  {| members := []; issueRoots := roots; childPid := None; reservedAt := "t0"; branch := None;
     base := None; goal := None; exitCode := None; signal := None; exitedAt := None;
     logPath := None; beads := None |}.
Definition demo_sprints : list (string * reservation) :=
  [("s1", demo_rooted ["r1.1"]); ("s2", demo_rooted ["r2"])].
Definition demo_verdict (e : string * reservation) : result WATCHDOG_STATUS :=
  if decide (e.1 = "s2") then Ok FINISHED_ST else Throw (PlainErr "probe failed").
Definition demo_active : list (string * reservation) :=
  activeReservations (Some demo_verdict) demo_sprints (reverse demo_sprints).

Lemma demo_unique : unique_ids (beads_of_rows demo_tracker).
Proof. apply (bool_decide_eq_true_1 _). reflexivity. Qed.

Lemma demo_acyclic : acyclic (beads_of_rows demo_tracker).
Proof.
  exists String.length. intros b p Hb Hp.
  assert (Forall (fun b => match bd_parentId b with
                           | Some p => String.length p < String.length (bd_id b)
                           | None => True
                           end) (beads_of_rows demo_tracker)) as Hall by (vm_compute; repeat constructor).
  eapply Forall_forall in Hall; [|exact Hb]. by rewrite Hp in Hall.
Qed.

Lemma backlog_forest_exact_witness :
  exists forest,
    buildBacklogTree (beads_of_rows demo_tracker) (buildClaimedBy demo_tracker demo_active) = Some forest /\
    concat (map node_ids forest) ≡ₚ ["r1"; "r1.2"; "r2"].
Proof.
  destruct (backlog_forest_exact (beads_of_rows demo_tracker) (buildClaimedBy demo_tracker demo_active)
              demo_unique) as (forest & Hb & _ & _ & _ & Hperm).
  exists forest. split; [exact Hb|]. etrans; [exact (Hperm demo_acyclic)|].
  vm_compute. reflexivity.
Defined.

Lemma backlog_complements_sprints_witness :
  exists forest, buildTree (Ok demo_tracker) demo_active = Some (Ok forest) /\
    NoDup (concat (map node_ids forest)).
Proof.
  destruct (backlog_complements_sprints demo_tracker demo_verdict demo_sprints (reverse demo_sprints)
              demo_unique demo_acyclic (reverse_Permutation _)) as (forest & Hb & Hnd & _).
  exists forest. split; [exact Hb|exact Hnd].
Defined.

Lemma demo_named : Forall (fun e => e.1 ≠ "") demo_active.
Proof.
  assert (demo_active = [("s1", demo_rooted ["r1.1"])]) as -> by (vm_compute; reflexivity).
  by constructor.
Qed.

Lemma partial_claim_counts_witness :
  match partial_claim_of (buildClaimedBy demo_tracker demo_active)
          (default [] (jget "r1" (allChildrenOf (beads_of_rows demo_tracker)))) with
  | Some pc => formatPartialClaim pc = "1 of 2 children claimed by s1; 1 free" /\
               sum_counts (pc_sprints pc) = pc_claimedCount pc
  | None => False
  end.
Proof.
  pose proof (partial_claim_counts demo_tracker demo_active
    (default [] (jget "r1" (allChildrenOf (beads_of_rows demo_tracker)))) demo_named) as H.
  cbv zeta in H.
  destruct (partial_claim_of _ _) as [pc|] eqn:E; [|vm_compute in E; discriminate E].
  destruct H as (_ & _ & _ & _ & Hs & _).
  split; [vm_compute in E; injection E as <-; reflexivity|exact Hs].
Defined.
