(* ===== verification/SprintIdentity.v ===== *)
(** * Own and foreign sprints ([src/supervisor/sprint-identity.mjs])

    Which entries of [GET /api/sprints] are the caller's own reservation: the
    deploy gate stops on the foreign ones only.  Identities are compared
    exactly, never by prefix. *)

From Stdlib Require Import Ascii.
From S2P Require Import Prelude JsMap JsVal Reservation Ledger LedgerProps Api.
Local Open Scope string_scope.
Local Open Scope list_scope.

(** [exactStringOrNull] is [as_nonempty_str]. *)
Definition exactPidOrNull (v : jsval) : option Z :=
  match as_int v with Some z => if (0 <? z)%Z then Some z else None | None => None end.

(** Two identifiers that are both usable and equal. *)
Definition same_id {A} `{EqDecision A} (a b : option A) : bool :=
  match a, b with Some x, Some y => bool_decide (x = y) | _, _ => false end.

Definition isSelfReservation (reservation identity : jsval) : bool :=
  if negb (truthy reservation && typeof_object reservation) then false
  else same_id (as_nonempty_str (prop "sprintId" identity))
               (as_nonempty_str (prop "sprintId" reservation))
    || same_id (exactPidOrNull (prop "childPid" identity))
               (exactPidOrNull (prop "childPid" reservation)).

Record active_sprints := { as_self : list jsval; as_foreign : list jsval; as_shouldStop : bool }.

Definition classifyActiveSprints (sprints identity : jsval) : active_sprints :=
  let l := default [] (as_arr sprints) in
  let foreign := filter (fun r => isSelfReservation r identity = false) l in
  {| as_self := filter (fun r => isSelfReservation r identity = true) l;
     as_foreign := foreign;
     as_shouldStop := negb (bool_decide (length foreign = 0)) |}.

Definition selectForeignSprints (sprints identity : jsval) : list jsval :=
  as_foreign (classifyActiveSprints sprints identity).

(** ** The gate on the supervisor's own listing *)

Lemma same_id_None {A} `{EqDecision A} (b : option A) : same_id None b = false.
Proof. done. Qed.

Lemma stop_foreign sprints identity :
  as_shouldStop (classifyActiveSprints sprints identity) = true
  <-> as_foreign (classifyActiveSprints sprints identity) ≠ [].
Proof.
  unfold classifyActiveSprints. cbn. rewrite negb_true_iff, bool_decide_eq_false.
  by rewrite length_zero_iff_nil.
Qed.

(** A row of the listing, to a caller that knows its sprint id only. *)
Lemma self_row c e me :
  isSelfReservation (sprint_row c e) (JObj [("sprintId", JStr me)])
    = bool_decide (me ≠ "" /\ e.1 = me).
Proof.
  unfold isSelfReservation.
  change (prop "sprintId" (sprint_row c e)) with (JStr e.1).
  change (prop "sprintId" (JObj [("sprintId", JStr me)])) with (JStr me).
  change (prop "childPid" (JObj [("sprintId", JStr me)])) with JUndef.
  cbn [sprint_row truthy typeof_object negb andb exactPidOrNull as_int same_id as_nonempty_str].
  rewrite orb_false_r. destruct (nonempty me) eqn:Hme; cbn [same_id].
  - apply nonempty_spec in Hme. destruct (nonempty e.1) eqn:He.
    + apply bool_decide_ext. naive_solver.
    + apply nonempty_false in He. rewrite He. symmetry. apply bool_decide_eq_false. naive_solver.
  - apply nonempty_false in Hme. symmetry. apply bool_decide_eq_false. naive_solver.
Qed.

(** A sprint that asks about the supervisor's listing under its own id sees its
    own reservation as its own and every other as foreign, in order, and has to
    stop exactly when another sprint holds a reservation; a caller without an
    id sees every reservation as foreign. *)
Theorem deploy_gate_exact c me :
  let cls := classifyActiveSprints (JArr (listSprints c)) (JObj [("sprintId", JStr me)]) in
  as_self cls = sprint_row c <$> filter (fun e => me ≠ "" /\ e.1 = me) (list_entries (ct_ledger c)) /\
  as_foreign cls = sprint_row c <$> filter (fun e => ~ (me ≠ "" /\ e.1 = me)) (list_entries (ct_ledger c)) /\
  (as_shouldStop cls = true <-> exists e, e ∈ list_entries (ct_ledger c) /\ ~ (me ≠ "" /\ e.1 = me)).
Proof.
  intros cls.
  assert (Hf : as_foreign cls
    = sprint_row c <$> filter (fun e => ~ (me ≠ "" /\ e.1 = me)) (list_entries (ct_ledger c))).
  { unfold cls, classifyActiveSprints. cbn [as_foreign].
    change (default [] (as_arr (JArr (listSprints c)))) with (sprint_row c <$> list_entries (ct_ledger c)).
    rewrite filter_fmap. f_equal. apply list_filter_iff. intros e.
    rewrite self_row, bool_decide_eq_false. done. }
  split; [|split; [exact Hf|]].
  - unfold cls, classifyActiveSprints. cbn [as_self].
    change (default [] (as_arr (JArr (listSprints c)))) with (sprint_row c <$> list_entries (ct_ledger c)).
    rewrite filter_fmap. f_equal. apply list_filter_iff. intros e.
    by rewrite self_row, bool_decide_eq_true.
  - unfold cls at 1. rewrite stop_foreign. fold cls. rewrite Hf. split.
    + intros Hne. destruct (filter _ (list_entries (ct_ledger c))) as [|e l] eqn:He; [done|].
      exists e. assert (e ∈ e :: l) as Hin by set_solver. rewrite <-He in Hin.
      by apply list_elem_of_filter in Hin as [? ?].
    + intros (e & He & Hn) Hnil. apply fmap_nil_inv in Hnil.
      apply (not_elem_of_nil e). rewrite <-Hnil. by apply list_elem_of_filter.
Qed.
