(* ===== verification/BeadsIdentity.v ===== *)
(** * Identities of the beads database

    [fleet-sprint/beads-identity.mjs]: reading the identity of a member's
    beads database from three probes, the canonical form of a git remote, and
    the comparison of an expected identity with an actual one.  The form an
    expected identity travels in is in [RunnerArgs].

    [json_parse] is [JSON.parse]; strings have no line terminator but the
    ASCII ones. *)

From Stdlib Require Import Ascii.
From S2P Require Import Prelude JsMap JsVal Text SprintArgs RunnerArgs.
Local Open Scope string_scope.
Local Open Scope list_scope.

(** ** Reading a string *)

(** [s.startsWith(pre)], with the rest. *)
Definition after (pre s : string) : option string := strip_prefix pre s.

Definition newline (c : ascii) : bool := bool_decide (N_of_ascii c ∈ [10; 13]%N).

(** ** [normalizeRemoteUrl] *)

(** [[\w.-]] *)
Definition host_char (c : ascii) : bool := safe_char c.

(** [[a-z0-9+.-]], case-insensitive *)
Definition scheme_char (c : ascii) : bool :=
  in_range "A" "Z" c || in_range "a" "z" c || in_range "0" "9" c
  || bool_decide (c = "+"%char) || bool_decide (c = "."%char) || bool_decide (c = "-"%char).
Definition letter (c : ascii) : bool := in_range "A" "Z" c || in_range "a" "z" c.

(** [/^(?:[\w.-]+@)?([\w.-]+):(?!\/\/)(.+)$/]: the host and the path. The runs
    are maximal: what follows each is outside the class. *)
Definition scp_tail (s : string) : option (string * string) :=
  match span host_char s with
  | (EmptyString, _) => None
  | (h, String ":" p) =>
      if negb (nonempty p) || is_some (after "//" p) || negb (string_all (fun c => negb (newline c)) p)
      then None else Some (h, p)
  | _ => None
  end.
Definition scp_form (s : string) : option (string * string) :=
  match span host_char s with
  | (String _ _, String "@" t) => scp_tail t
  | _ => scp_tail s
  end.

(** [/^[a-z][a-z0-9+.-]*:\/\//i]: what follows the scheme. *)
Definition after_scheme (s : string) : option string :=
  match s with
  | String c _ => if letter c then after "://" (span scheme_char s).2 else None
  | EmptyString => None
  end.

(** [/^[^@/]+@/] *)
Definition not_at_slash (c : ascii) : bool :=
  negb (bool_decide (c = "@"%char)) && negb (bool_decide (c = "/"%char)).
Definition strip_user (s : string) : string :=
  match span not_at_slash s with
  | (String _ _, String "@" t) => t
  | _ => s
  end.

(** [u.replace(/\/+$/, '')] *)
Fixpoint strip_slashes (s : string) : string :=
  match s with
  | EmptyString => ""
  | String c s' =>
      match strip_slashes s' with
      | EmptyString => if bool_decide (c = "/"%char) then "" else String c ""
      | t => String c t
      end
  end.

(** [u.replace(/\.git$/, '')] *)
Fixpoint strip_git (s : string) : string :=
  match s with
  | EmptyString => ""
  | String c s' => if bool_decide (s = ".git") then "" else String c (strip_git s')
  end.

Definition normalizeRemoteUrl (url : jsval) : string :=
  match url with
  | JStr s =>
      let u := trim s in
      if nonempty u then
        let u := default u (after "git+" u) in
        let u := match scp_form u, after_scheme u with
                 | Some (h, p), None => h +:+ "/" +:+ p
                 | _, sch => strip_user (default u sch)
                 end in
        toLowerCase (strip_git (strip_slashes u))
      else ""
  | _ => ""
  end.

(** ** The probes' outputs *)

(** The text from its first brace on. *)
Fixpoint from_brace (s : string) : option string :=
  match s with
  | EmptyString => None
  | String "{" _ => Some s
  | String _ s' => from_brace s'
  end.

Definition starts_newline (s : string) : bool :=
  match s with String c _ => bool_decide (N_of_ascii c = 10%N) | EmptyString => false end.

(** [text.split(/\r?\n/)]: a carriage return goes with the line feed after it. *)
Fixpoint split_lines (s : string) : list string :=
  match s with
  | EmptyString => [""]
  | String c s' =>
      if bool_decide (N_of_ascii c = 10%N) then "" :: split_lines s'
      else if bool_decide (N_of_ascii c = 13%N) && starts_newline s' then split_lines s'
      else match split_lines s' with
           | [] => [String c ""]
           | l :: ls => String c l :: ls
           end
  end.

(** [/[\\/]\.beads$/] *)
Fixpoint ends_in_beads (s : string) : bool :=
  match s with
  | EmptyString => false
  | String c s' =>
      ((bool_decide (c = "/"%char) || bool_decide (c = "\"%char)) && bool_decide (s' = ".beads"))
      || ends_in_beads s'
  end.

(** [/^key:\s*(.+)$/] on a trimmed line: the trimmed value. *)
Definition line_value (key l : string) : option string :=
  match after (key +:+ ":") l with
  | Some rest =>
      let v := trim rest in
      if nonempty v && string_all (fun c => negb (newline c)) v then Some v else None
  | None => None
  end.

Record bd_where := { w_beadsDir : string; w_prefix : string; w_databasePath : string }.

Definition read_line (w : bd_where) (l : string) : bd_where :=
  match line_value "prefix" l, line_value "database" l with
  | Some v, _ => {| w_beadsDir := w_beadsDir w; w_prefix := v; w_databasePath := w_databasePath w |}
  | None, Some v => {| w_beadsDir := w_beadsDir w; w_prefix := w_prefix w; w_databasePath := v |}
  | None, None => w
  end.

(** An identity as probed: [RunnerArgs.identity] and the database path. *)
Record probed_identity := { pi_identity : identity; pi_databasePath : string }.

Section probes.
Context (json_parse : string -> option jsval) (to_string : jsval -> string).

Definition firstJsonObject (text : jsval) : option jsval :=
  match text with JStr s => t ← from_brace s; json_parse t | _ => None end.

Definition trimmed_prop (k : string) (v : jsval) : string :=
  match prop k v with JStr s => trim s | _ => "" end.

(** The plain form: the directory, then [prefix:] and [database:] lines. *)
Definition parse_plain_where (text : jsval) : option bd_where :=
  match text with
  | JStr s =>
      match filter (fun l => l ≠ "") (trim <$> split_lines s) with
      | dir :: ls =>
          if ends_in_beads dir
          then Some (foldl read_line {| w_beadsDir := dir; w_prefix := ""; w_databasePath := "" |} ls)
          else None
      | [] => None
      end
  | _ => None
  end.

Definition parseBdWhere (text : jsval) : option bd_where :=
  match firstJsonObject text with
  | Some obj =>
      if nonempty (trimmed_prop "path" obj)
      then Some {| w_beadsDir := trimmed_prop "path" obj; w_prefix := trimmed_prop "prefix" obj;
                   w_databasePath := trimmed_prop "database_path" obj |}
      else parse_plain_where text
  | None => parse_plain_where text
  end.

Definition first_line (s : string) : string := trim (default "" (head (split_lines (trim s)))).

Definition parseBdConfigValue (text : jsval) : string :=
  match firstJsonObject text with
  | Some (JObj fs) =>
      match jget "value" fs with
      | Some (JStr s) => trim s
      | Some v => trim (to_string (coalesce v (JStr "")))
      | None => match text with JStr s => first_line s | _ => "" end
      end
  | _ => match text with JStr s => first_line s | _ => "" end
  end.

Definition parseBeadsIdentity (where_ syncRemote repoRemote : jsval) : probed_identity :=
  let w := parseBdWhere where_ in
  {| pi_identity :=
       {| id_beadsDir := default "" (w_beadsDir <$> w); id_prefix := default "" (w_prefix <$> w);
          id_syncRemote := parseBdConfigValue syncRemote;
          id_repoRemote := match repoRemote with JStr s => first_line s | _ => "" end |};
     pi_databasePath := default "" (w_databasePath <$> w) |}.
End probes.

Definition hasBeadsDatabase (i : option probed_identity) : bool :=
  match i with Some i => nonempty (pi_databasePath i) | None => false end.

Definition isCompleteIdentity (i : option identity) : bool :=
  match i with
  | Some i => nonempty (id_beadsDir i) && nonempty (id_prefix i) && nonempty (id_syncRemote i)
              && nonempty (id_repoRemote i)
  | None => false
  end.

(** ** Comparison *)

Definition COMPARED_FIELDS : list string := ["prefix"; "syncRemote"; "repoRemote"].

(** [id ? id[field] ?? '' : ''] *)
Definition field_of (field : string) (i : option identity) : string :=
  match i with
  | None => ""
  | Some i => if decide (field = "prefix") then id_prefix i
              else if decide (field = "syncRemote") then id_syncRemote i
              else if decide (field = "repoRemote") then id_repoRemote i else ""
  end.

Record field_diff := { fd_field : string; fd_expected : string; fd_actual : string }.
Record comparison := { cmp_ok : bool; cmp_mismatches : list field_diff; cmp_unresolved : list field_diff }.

Definition same_field (field e a : string) : bool :=
  if decide (field = "prefix") then bool_decide (trim e = trim a)
  else bool_decide (normalizeRemoteUrl (JStr e) = normalizeRemoteUrl (JStr a)).

Definition unresolved (e a : string) : bool := negb (nonempty (trim e)) || negb (nonempty (trim a)).

(** One round of the loop over the fields. *)
Definition compare_field (skipUnresolved : bool) (expected actual : option identity)
    (acc : list field_diff * list field_diff) (field : string) : list field_diff * list field_diff :=
  let e := field_of field expected in
  let a := field_of field actual in
  let d := {| fd_field := field; fd_expected := e; fd_actual := a |} in
  if skipUnresolved && unresolved e a then (acc.1, acc.2 ++ [d])
  else if same_field field e a then acc else (acc.1 ++ [d], acc.2).

Definition compareIdentity (expected actual : option identity) (skipUnresolved : bool) : comparison :=
  let '(ms, us) := foldl (compare_field skipUnresolved expected actual) ([], []) COMPARED_FIELDS in
  {| cmp_ok := bool_decide (length ms = 0); cmp_mismatches := ms; cmp_unresolved := us |}.

Definition formatBeadsIdentity (i : option identity) (label : string) : string :=
  match i with
  | None => (if nonempty label then label +:+ ": " else "") +:+ "beads: (unknown)"
  | Some i =>
      let or_ (s d : string) := if nonempty s then s else d in
      let parts := [or_ (id_beadsDir i) "(no .beads)"; "prefix=" +:+ or_ (id_prefix i) "?";
                    "remote=" +:+ or_ (id_syncRemote i) "(unset)"]
                   ++ if nonempty (id_repoRemote i)
                         && negb (bool_decide (normalizeRemoteUrl (JStr (id_repoRemote i))
                                               = normalizeRemoteUrl (JStr (id_syncRemote i))))
                      then ["origin=" +:+ id_repoRemote i] else [] in
      (if nonempty label then label +:+ " " else "") +:+ "beads: " +:+ String.concat " | " parts
  end.
