(* ===== verification/BeadsIdentityProps.v ===== *)
(** * What the beads-identity contract guarantees

    The spellings of one remote agree, the comparison reports exactly the
    fields that differ, and an expected identity survives its way from the
    supervisor to the runner. *)

From Stdlib Require Import Ascii.
From S2P Require Import Prelude JsMap JsVal Text SprintArgs RunnerArgs RunnerArgsProps BeadsIdentity.
Local Open Scope string_scope.
Local Open Scope list_scope.

(** ** Runs of characters *)

Definition starts_outside (p : ascii -> bool) (s : string) : Prop :=
  match s with String c _ => p c = false | EmptyString => True end.

Lemma span_app p s t :
  string_all p s = true -> starts_outside p t -> span p (s +:+ t) = (s, t).
Proof. intros Hs Ht. apply span_all; [done|]. by intros c u ->. Qed.

Lemma string_all_impl p q s :
  (forall c, p c = true -> q c = true) -> string_all p s = true -> string_all q s = true.
Proof.
  intros Hpq. induction s as [|c s IH]; [done|]. intros [? ?]%andb_true_iff.
  apply andb_true_iff. auto.
Qed.

Lemma app_cons c s t : String c s +:+ t = String c (s +:+ t).
Proof. done. Qed.

Lemma app_nil_str s : "" +:+ s = s.
Proof. done. Qed.

(** ** Spellings of a remote *)

(** A host, and a repository path on it without a trailing slash or [.git]. *)
Definition host_ok (h : string) : Prop := h ≠ "" /\ string_all host_char h = true.

Definition path_char (c : ascii) : bool := host_char c || bool_decide (c = "/"%char).
Definition path_ok (p : string) : Prop :=
  p ≠ "" /\ string_all path_char p = true /\ starts_outside (fun c => bool_decide (c = "/"%char)) p /\
  strip_slashes p = p /\ strip_git p = p.

Definition canonical (h p : string) : string := toLowerCase (h +:+ "/" +:+ p).

Lemma strip_slashes_app s t :
  strip_slashes t ≠ "" -> strip_slashes (s +:+ t) = s +:+ strip_slashes t.
Proof.
  intros Ht. induction s as [|c s IH]; [done|]. rewrite !app_cons. cbn [strip_slashes]. rewrite IH.
  destruct (s +:+ strip_slashes t) eqn:E; [|done].
  destruct s; [|done]. rewrite app_nil_str in E. done.
Qed.

Lemma strip_slashes_slash s : strip_slashes (s +:+ "/") = strip_slashes s.
Proof. induction s as [|c s IH]; [done|]. rewrite app_cons. cbn [strip_slashes]. by rewrite IH. Qed.

Lemma length_git s : 4 <= String.length (s +:+ ".git").
Proof. induction s as [|c s IH]; [done|]. rewrite app_cons. simpl. lia. Qed.

Lemma strip_git_suffix s : strip_git (s +:+ ".git") = s.
Proof.
  induction s as [|c s IH]; [done|]. rewrite app_cons. cbn [strip_git].
  rewrite bool_decide_false, IH; [done|]. intros [= -> Hs].
  pose proof (length_git s) as Hl. rewrite Hs in Hl. simpl in Hl. lia.
Qed.

(** A path that does not end in [.git] still does not after its host. *)
Lemma strip_git_path s p : strip_git p = p -> strip_git (s +:+ String "/" p) = s +:+ String "/" p.
Proof.
  intros Hp. induction s as [|c s IH].
  - rewrite app_nil_str. cbn [strip_git]. rewrite bool_decide_false by done. by rewrite Hp.
  - rewrite !app_cons. cbn [strip_git]. rewrite bool_decide_false, IH; [done|].
    intros Heq. assert (has_char "/" (String c (s +:+ String "/" p)) = true) as Hc.
    { cbn [has_char]. rewrite has_char_app. cbn. by rewrite orb_true_r, orb_true_r. }
    by rewrite Heq in Hc.
Qed.

(** The last steps, on a path with and without its suffixes. *)
Definition finish (u : string) : string := toLowerCase (strip_git (strip_slashes u)).

Lemma finish_path h p t :
  path_ok p -> t ∈ [p; p +:+ ".git"; p +:+ "/"] -> finish (h +:+ "/" +:+ t) = canonical h p.
Proof.
  intros (Hne & _ & _ & Hs & Hg) Ht. unfold finish, canonical. f_equal.
  assert (Hcore : strip_git (strip_slashes (h +:+ "/" +:+ p)) = h +:+ "/" +:+ p).
  { rewrite <-string_app_assoc, strip_slashes_app by by rewrite Hs. rewrite Hs, string_app_assoc.
    by apply (strip_git_path h p). }
  apply elem_of_cons in Ht as [->|Ht]; [done|]. apply elem_of_cons in Ht as [->|Ht].
  - replace (h +:+ "/" +:+ p +:+ ".git") with ((h +:+ "/" +:+ p) +:+ ".git")
      by by rewrite !string_app_assoc.
    rewrite strip_slashes_app by done. apply (strip_git_suffix (h +:+ "/" +:+ p)).
  - apply list_elem_of_singleton in Ht as ->.
    replace (h +:+ "/" +:+ p +:+ "/") with ((h +:+ "/" +:+ p) +:+ "/")
      by by rewrite !string_app_assoc.
    by rewrite strip_slashes_slash.
Qed.

(** ** The two forms exclude each other *)

Lemma span_scheme s : exists r, s = (span scheme_char s).1 +:+ r /\ r = (span scheme_char s).2 /\
  string_all scheme_char (span scheme_char s).1 = true.
Proof.
  induction s as [|c s (r & Hs & Hr & Ha)]; [by exists ""|]. cbn [span].
  destruct (scheme_char c) eqn:Hc.
  - destruct (span scheme_char s) as [a b]. cbn in *. exists r. rewrite app_cons, <-Hs.
    split; [done|]. split; [done|]. by rewrite Hc.
  - by exists (String c s).
Qed.

Lemma after_Some pre s t : after pre s = Some t <-> s = pre +:+ t.
Proof.
  unfold after. split; [|intros ->; apply strip_prefix_app].
  revert s. induction pre as [|c pre IH]; intros s; [by intros [= ->]|].
  destruct s as [|d s]; [done|]. cbn [strip_prefix]. case_decide; [|done]. subst. intros Hs.
  rewrite app_cons. f_equal. by apply IH.
Qed.

(** A run of host characters over a scheme ends with it or at a plus sign. *)
Lemma span_host_scheme sch t :
  string_all scheme_char sch = true -> starts_outside host_char t ->
  span host_char (sch +:+ t) = (sch, t) \/ exists a b, span host_char (sch +:+ t) = (a, String "+" b).
Proof.
  intros Hs Ht. induction sch as [|c sch IH].
  - left. rewrite app_nil_str. destruct t as [|d t]; [done|]. simpl in *. by rewrite Ht.
  - apply andb_true_iff in Hs as [Hc Hs]. rewrite app_cons. cbn [span].
    destruct (host_char c) eqn:Hh.
    + destruct (IH Hs) as [->|(a & b & ->)]; [by left|right; eauto].
    + right. exists "", (sch +:+ t). f_equal. f_equal.
      revert Hc Hh. clear. destruct c as [[] [] [] [] [] [] [] []]; vm_compute; congruence.
Qed.

Lemma scheme_not_scp s r : after_scheme s = Some r -> scp_form s = None.
Proof.
  unfold after_scheme. destruct s as [|c s]; [done|]. destruct (letter c); [|done].
  destruct (span_scheme (String c s)) as (r' & Hs & -> & Ha). intros Hr%after_Some.
  rewrite Hr in Hs. set (sch := (span scheme_char (String c s)).1) in *. rewrite Hs.
  unfold scp_form, scp_tail.
  destruct (span_host_scheme sch ("://" +:+ r) Ha) as [->|(a & b & ->)]; [done| |].
  - by destruct sch.
  - by destruct a.
Qed.

(** ** The canonical form *)

Definition canonical_of (u : string) : string :=
  finish (match scp_form u, after_scheme u with
          | Some (h, p), None => h +:+ "/" +:+ p
          | _, sch => strip_user (default u sch)
          end).

Definition url_char (c : ascii) : bool :=
  path_char c || bool_decide (c = ":"%char) || bool_decide (c = "@"%char).

Lemma url_not_ws c : url_char c || bool_decide (c = "+"%char) = true -> ws_char c = false.
Proof. destruct c as [[] [] [] [] [] [] [] []]; vm_compute; congruence. Qed.

Lemma normalize_url u :
  u ≠ "" -> string_all url_char u = true ->
  normalizeRemoteUrl (JStr u) = canonical_of u /\
  normalizeRemoteUrl (JStr ("git+" +:+ u)) = canonical_of u.
Proof.
  intros Hne Hu.
  assert (Hu' : string_all (fun c => url_char c || bool_decide (c = "+"%char)) u = true).
  { eapply string_all_impl; [|exact Hu]. intros c Hc. by rewrite Hc. }
  assert (after "git+" u = None) as Hg.
  { destruct (after "git+" u) as [t|] eqn:Ha; [|done]. apply after_Some in Ha. subst u. done. }
  unfold normalizeRemoteUrl. rewrite (trim_none _ u url_not_ws Hu').
  rewrite (trim_none _ ("git+" +:+ u) url_not_ws Hu').
  apply nonempty_spec in Hne. rewrite Hne, Hg. cbn [default].
  rewrite (proj2 (nonempty_spec ("git+" +:+ u))) by done.
  by rewrite (proj2 (after_Some "git+" ("git+" +:+ u) u)).
Qed.

Definition letters (s : string) : Prop := s ≠ "" /\ string_all letter s = true.

Lemma after_scheme_url sch r : letters sch -> after_scheme (sch +:+ "://" +:+ r) = Some r.
Proof.
  intros [Hne Hs]. destruct sch as [|c sch]; [done|]. unfold after_scheme. rewrite app_cons.
  rewrite <-(app_cons c sch). rewrite span_app; [|eapply string_all_impl; [|exact Hs]|done].
  - apply andb_true_iff in Hs as [-> _]. by apply after_Some.
  - intros d. destruct d as [[] [] [] [] [] [] [] []]; vm_compute; congruence.
Qed.

Lemma canonical_of_url sch r : letters sch -> canonical_of (sch +:+ "://" +:+ r) = finish (strip_user r).
Proof.
  intros Hs. unfold canonical_of. pose proof (after_scheme_url sch r Hs) as Ha.
  by rewrite (scheme_not_scp _ _ Ha), Ha.
Qed.

Lemma host_not_at_slash c : host_char c = true -> not_at_slash c = true.
Proof. destruct c as [[] [] [] [] [] [] [] []]; vm_compute; congruence. Qed.

Lemma strip_user_host h t : host_ok h -> strip_user (h +:+ String "/" t) = h +:+ String "/" t.
Proof.
  intros [_ Hh]. unfold strip_user.
  rewrite span_app; [by destruct h|by eapply string_all_impl; [apply host_not_at_slash|]|done].
Qed.

Lemma strip_user_at user t : host_ok user -> strip_user (user +:+ String "@" t) = t.
Proof.
  intros [Hne Hh]. unfold strip_user.
  rewrite span_app; [by destruct user|by eapply string_all_impl; [apply host_not_at_slash|]|done].
Qed.

Lemma path_no_newline c : path_char c = true -> negb (newline c) = true.
Proof. destruct c as [[] [] [] [] [] [] [] []]; vm_compute; congruence. Qed.

Lemma canonical_of_scp user h t :
  host_ok user -> host_ok h -> t ≠ "" -> string_all path_char t = true ->
  starts_outside (fun c => bool_decide (c = "/"%char)) t ->
  canonical_of (user +:+ String "@" (h +:+ String ":" t)) = finish (h +:+ "/" +:+ t).
Proof.
  intros [Hune Hu] [Hhne Hh] Ht Hp Hst. unfold canonical_of.
  assert (scp_form (user +:+ String "@" (h +:+ String ":" t)) = Some (h, t)) as Hscp.
  { unfold scp_form. rewrite span_app by done. destruct user as [|c user]; [done|].
    unfold scp_tail. rewrite span_app by done. destruct h as [|d h]; [done|].
    rewrite (proj2 (nonempty_spec t) Ht). cbn [negb orb].
    assert (after "//" t = None) as ->.
    { destruct t as [|e t]; [done|]. cbn in Hst. apply bool_decide_eq_false in Hst.
      unfold after. cbn [strip_prefix]. by rewrite decide_False by congruence. }
    cbn [is_some orb]. by rewrite (string_all_impl _ _ t path_no_newline Hp). }
  destruct (after_scheme _) as [r|] eqn:Ha; [|by rewrite Hscp].
  apply scheme_not_scp in Ha. congruence.
Qed.

Lemma host_url s : string_all host_char s = true -> string_all url_char s = true.
Proof. apply string_all_impl. intros c Hc. unfold url_char, path_char. by rewrite Hc. Qed.

Lemma letters_url s : string_all letter s = true -> string_all url_char s = true.
Proof. apply string_all_impl. intros c. destruct c as [[] [] [] [] [] [] [] []]; vm_compute; congruence. Qed.

Lemma path_url s : string_all path_char s = true -> string_all url_char s = true.
Proof. apply string_all_impl. intros c Hc. unfold url_char. by rewrite Hc. Qed.

(** The path with a suffix is still a path, not starting in a slash. *)
Lemma path_suffix p t :
  path_ok p -> t ∈ [p; p +:+ ".git"; p +:+ "/"] ->
  t ≠ "" /\ string_all path_char t = true /\ starts_outside (fun c => bool_decide (c = "/"%char)) t.
Proof.
  intros (Hne & Hp & Hst & _) Ht. destruct p as [|c p]; [done|].
  apply elem_of_cons in Ht as [->|Ht]; [done|]. apply elem_of_cons in Ht as [->|Ht].
  - split; [done|]. split; [|done]. by rewrite string_all_app, Hp.
  - apply list_elem_of_singleton in Ht as ->. split; [done|]. split; [|done].
    by rewrite string_all_app, Hp.
Qed.

(** A URL and its [git+] form, an scp-like address, each with the path plain,
    with [.git], or with a trailing slash. *)
Definition spellings (sch user h p : string) : list string :=
  t ← [p; p +:+ ".git"; p +:+ "/"];
  let plain := sch +:+ "://" +:+ h +:+ String "/" t in
  let with_user := sch +:+ "://" +:+ user +:+ String "@" (h +:+ String "/" t) in
  [plain; with_user; "git+" +:+ plain; "git+" +:+ with_user; user +:+ String "@" (h +:+ String ":" t)].

(** Every usual spelling of one repository's remote has the same canonical
    form: the [git+], [http(s)], [ssh] and scp-like addresses, with or without
    a user, a [.git] suffix or a trailing slash, all normalise to the
    lower-cased [host/path]. *)
Theorem remote_spellings_agree sch user h p :
  letters sch -> host_ok user -> host_ok h -> path_ok p ->
  Forall (fun u => normalizeRemoteUrl (JStr u) = canonical h p) (spellings sch user h p).
Proof.
  intros [Hs0 Hs] Hu Hh Hp. apply Forall_forall. intros u Hin.
  apply list_elem_of_bind in Hin as (t & Hin & Ht).
  destruct (path_suffix p t Hp Ht) as (Ht0 & Htp & Hts).
  assert (Hfin := finish_path h p t Hp Ht).
  assert (Hplain : forall r, string_all url_char r = true ->
            string_all url_char (sch +:+ "://" +:+ r) = true).
  { intros r Hr. rewrite !string_all_app, (letters_url sch Hs), Hr. done. }
  assert (Hht : forall c, url_char c = true -> string_all url_char (h +:+ String c t) = true).
  { intros c Hc. rewrite string_all_app, (host_url h (proj2 Hh)). cbn. by rewrite Hc, path_url. }
  assert (Hat : forall r, string_all url_char r = true ->
            string_all url_char (user +:+ String "@" r) = true).
  { intros r Hr. rewrite string_all_app, (host_url user (proj2 Hu)). cbn. by rewrite Hr. }
  assert (Hne : forall r, sch +:+ r ≠ "") by (intros r; by destruct sch).
  assert (H1 := normalize_url _ (Hne _) (Hplain _ (Hht "/"%char eq_refl))).
  assert (H2 := normalize_url _ (Hne _) (Hplain _ (Hat _ (Hht "/"%char eq_refl)))).
  rewrite canonical_of_url, strip_user_host in H1 by done.
  rewrite canonical_of_url, strip_user_at in H2 by done.
  destruct H1 as [H1 H1'], H2 as [H2 H2'].
  assert (H3 : normalizeRemoteUrl (JStr (user +:+ String "@" (h +:+ String ":" t)))
               = finish (h +:+ "/" +:+ t)).
  { rewrite (proj1 (normalize_url (user +:+ String "@" (h +:+ String ":" t)) ltac:(by destruct user)
                      (Hat _ (Hht ":"%char eq_refl)))).
    apply canonical_of_scp; [done|done|done|done|done]. }
  rewrite <-Hfin.
  apply elem_of_cons in Hin as [->|Hin]; [exact H1|].
  apply elem_of_cons in Hin as [->|Hin]; [exact H2|].
  apply elem_of_cons in Hin as [->|Hin]; [exact H1'|].
  apply elem_of_cons in Hin as [->|Hin]; [exact H2'|].
  apply list_elem_of_singleton in Hin as ->. exact H3.
Qed.

(** ** Comparing identities *)

(** The fields whose values differ, among those compared. *)
Definition compared (skip : bool) (e a : option identity) (f : string) : bool :=
  negb (skip && unresolved (field_of f e) (field_of f a)).

Definition diff_of (e a : option identity) (f : string) : field_diff :=
  {| fd_field := f; fd_expected := field_of f e; fd_actual := field_of f a |}.

Lemma compare_fold skip e a fs acc :
  foldl (compare_field skip e a) acc fs =
  (acc.1 ++ (diff_of e a <$> filter (fun f => compared skip e a f = true /\
                                       same_field f (field_of f e) (field_of f a) = false) fs),
   acc.2 ++ (diff_of e a <$> filter (fun f => compared skip e a f = false) fs)).
Proof.
  revert acc. induction fs as [|f fs IH]; intros [ms us]; [by rewrite !app_nil_r|].
  cbn [foldl]. rewrite IH, !filter_cons. unfold compare_field at 1 2. cbn [fst snd].
  unfold compared. destruct (skip && unresolved (field_of f e) (field_of f a)); cbn [negb].
  - rewrite decide_False by naive_solver. rewrite decide_True by done. cbn.
    by rewrite <-app_assoc.
  - destruct (same_field f (field_of f e) (field_of f a)); cbn [fst snd].
    + rewrite !decide_False by naive_solver. done.
    + rewrite decide_True, decide_False by naive_solver. cbn. by rewrite <-app_assoc.
Qed.

(** The comparison is exact: it lists as mismatches exactly the compared
    fields that differ (the prefix as text, the remotes by their canonical
    form) and as unresolved exactly the fields it was told to skip; it accepts
    exactly when no compared field differs; and skipping can only accept more. *)
Theorem compareIdentity_exact e a skip :
  let c := compareIdentity e a skip in
  cmp_mismatches c = diff_of e a <$> filter (fun f => compared skip e a f = true /\
      same_field f (field_of f e) (field_of f a) = false) COMPARED_FIELDS /\
  cmp_unresolved c = diff_of e a <$> filter (fun f => compared skip e a f = false) COMPARED_FIELDS /\
  (cmp_ok c = true <-> forall f, f ∈ COMPARED_FIELDS -> compared skip e a f = true ->
                         same_field f (field_of f e) (field_of f a) = true) /\
  (cmp_ok (compareIdentity e a false) = true -> cmp_ok c = true).
Proof.
  intros c.
  assert (Hok : forall sk, cmp_ok (compareIdentity e a sk) = true <->
            forall f, f ∈ COMPARED_FIELDS -> compared sk e a f = true ->
              same_field f (field_of f e) (field_of f a) = true).
  { intros sk. unfold compareIdentity. rewrite compare_fold. cbn [fst snd cmp_ok app].
    rewrite bool_decide_eq_true, length_fmap, length_zero_iff_nil.
    rewrite list_filter_nil. split; intros H f Hf.
    - intros Hc. specialize (H f Hf). destruct (same_field _ _ _); naive_solver.
    - intros [Hc Hs]. by rewrite (H f Hf Hc) in Hs. }
  split; [|split; [|split; [apply Hok|]]].
  - unfold c, compareIdentity. by rewrite compare_fold.
  - unfold c, compareIdentity. by rewrite compare_fold.
  - rewrite (Hok false). intros H. apply Hok. intros f Hf _. by apply H.
Qed.

(** ** The expected identity on its way to the runner *)

Section travel.
Context (stringify : jsval -> string) (json_parse : string -> option jsval).

Definition trimmed (i : identity) : identity :=
  {| id_beadsDir := trim (id_beadsDir i); id_prefix := trim (id_prefix i);
     id_syncRemote := trim (id_syncRemote i); id_repoRemote := trim (id_repoRemote i) |}.

Lemma same_field_trim f e : f ∈ COMPARED_FIELDS -> same_field f (trim e) e = true.
Proof.
  intros _. unfold same_field, normalizeRemoteUrl. rewrite trim_idem. case_decide; by rewrite bool_decide_true.
Qed.

Lemma field_trimmed f i : field_of f (Some (trimmed i)) = trim (field_of f (Some i)).
Proof. unfold field_of, trimmed. by repeat case_decide. Qed.

Lemma identity_travels i :
  json_parse (stringify (identity_json i)) = Some (identity_json i) ->
  nonempty (trim (stringify (identity_json i))) = true ->
  parseExpectedIdentity json_parse (JStr (stringify (identity_json i))) = Some (trimmed i).
Proof. intros Hj Ht. cbn [parseExpectedIdentity]. rewrite Ht, Hj. done. Qed.

(** The identity the supervisor writes on a child's command line reaches
    the runner: as long as JSON text is read back as written and some compared
    field is set, both the child's and the runner's check accept the text as
    that identity, and comparing it with the same database reports no
    mismatch, strictly or leniently. *)
Theorem expected_identity_reaches_runner i :
  json_parse (stringify (identity_json i)) = Some (identity_json i) ->
  nonempty (trim (stringify (identity_json i))) = true ->
  (exists f, f ∈ COMPARED_FIELDS /\ trim (field_of f (Some i)) ≠ "") ->
  resolveExpectBeads (Some (stringify (identity_json i))) None = Some (stringify (identity_json i)) /\
  validateExpectBeads json_parse (JStr (stringify (identity_json i))) = Ok (Some (trimmed i)) /\
  forall skip, cmp_ok (compareIdentity (Some (trimmed i)) (Some i) skip) = true.
Proof.
  intros Hj Ht (f & Hf & Hset). split; [|split].
  - unfold resolveExpectBeads. by rewrite Ht.
  - unfold validateExpectBeads.
    assert (exists c s, stringify (identity_json i) = String c s) as (c & s & Hs).
    { destruct (stringify (identity_json i)) as [|c s]; [done|eauto]. }
    rewrite Hs at 1. rewrite identity_travels by done. cbn [mbind result_bind].
    assert (nonempty (id_prefix (trimmed i)) || nonempty (id_syncRemote (trimmed i))
            || nonempty (id_repoRemote (trimmed i)) = true) as ->; [|done].
    unfold COMPARED_FIELDS in Hf. cbn [trimmed id_prefix id_syncRemote id_repoRemote].
    apply nonempty_spec in Hset.
    apply elem_of_cons in Hf as [->|Hf];
      [change (field_of "prefix" (Some i)) with (id_prefix i) in Hset; by rewrite Hset|].
    apply elem_of_cons in Hf as [->|Hf];
      [change (field_of "syncRemote" (Some i)) with (id_syncRemote i) in Hset;
       by rewrite Hset, orb_true_r|].
    apply list_elem_of_singleton in Hf as ->.
    change (field_of "repoRemote" (Some i)) with (id_repoRemote i) in Hset.
    by rewrite Hset, orb_true_r.
  - intros skip. unfold compareIdentity. rewrite compare_fold. cbn [fst snd cmp_ok app].
    apply bool_decide_eq_true. rewrite length_fmap. apply length_zero_iff_nil.
    apply list_filter_nil. intros g Hg [_ Hs].
    rewrite field_trimmed, same_field_trim in Hs; done.
Qed.
End travel.

(** ** Concrete runs *)

Lemma remote_spellings_agree_witness :
  normalizeRemoteUrl (JStr "git@GitHub.com:apra/fleet.git") = "github.com/apra/fleet" /\
  normalizeRemoteUrl (JStr "git+https://GitHub.com/apra/fleet/") = "github.com/apra/fleet".
Proof.
  assert (Forall (fun u => normalizeRemoteUrl (JStr u) = canonical "GitHub.com" "apra/fleet")
            (spellings "https" "git" "GitHub.com" "apra/fleet")) as H.
  { apply remote_spellings_agree; repeat split; done. }
  rewrite Forall_forall in H. split.
  - exact (H "git@GitHub.com:apra/fleet.git" ltac:(apply (bool_decide_eq_true_1 _); reflexivity)).
  - exact (H "git+https://GitHub.com/apra/fleet/" ltac:(apply (bool_decide_eq_true_1 _); reflexivity)).
Defined.

Definition demo_identity : identity :=
  {| id_beadsDir := "/work/.beads"; id_prefix := " fleet"; id_syncRemote := "git@x:y.git";
     id_repoRemote := "" |}.

Lemma expected_identity_reaches_runner_witness :
  validateExpectBeads (fun _ => Some (identity_json demo_identity)) (JStr "{}")
    = Ok (Some (trimmed demo_identity)).
Proof.
  destruct (expected_identity_reaches_runner (fun _ => "{}") (fun _ => Some (identity_json demo_identity))
              demo_identity) as (_ & H & _); [reflexivity|reflexivity| |exact H].
  exists "prefix". split; [set_solver|done].
Defined.
