(* ===== verification/Closure.v ===== *)
(** * Breadth-first closure

    The [queue]/[visited] loops of the runner ([discoverScope],
    [openBlocksDependents], [partitionReadyByGoal]) differ in what they visit
    and in which of the visited elements they go on from; this file has the
    loop once, with what it computes and how much fuel it needs. *)

From S2P Require Import Prelude.
Local Open Scope list_scope.

Section absorb.
Context {A K : Type} `{EqDecision K} (key : A -> K).

(** The elements of [l] whose key is new, each once, in order. *)
Fixpoint absorb (seen : list K) (l : list A) : list K * list A :=
  match l with
  | [] => (seen, [])
  | y :: l' =>
      if decide (key y ∈ seen) then absorb seen l'
      else let '(s, f) := absorb (seen ++ [key y]) l' in (s, y :: f)
  end.

Lemma absorb_spec seen l s f :
  absorb seen l = (s, f) ->
  s = seen ++ (key <$> f) /\ (forall y, y ∈ f -> y ∈ l /\ key y ∉ seen) /\
  (forall y, y ∈ l -> key y ∈ s) /\ NoDup (key <$> f).
Proof.
  revert seen s f. induction l as [|y l IH]; intros seen s f Ha; simpl in Ha.
  { simplify_eq. rewrite app_nil_r. repeat split; [set_solver..|constructor]. }
  case_decide as Hy.
  - destruct (IH _ _ _ Ha) as (-> & Hf & Hl & Hnd). repeat split; [|set_solver..|done].
    set_solver.
  - destruct (absorb (seen ++ [key y]) l) as [s' f'] eqn:E. simplify_eq.
    destruct (IH _ _ _ E) as (-> & Hf & Hl & Hnd). rewrite <-app_assoc. simpl.
    split; [done|]. split; [|split].
    + intros z [->|Hz]%elem_of_cons; [set_solver|]. specialize (Hf z Hz). set_solver.
    + intros z [->|Hz]%elem_of_cons; [set_solver|]. specialize (Hl z Hz). set_solver.
    + constructor; [|done]. intros (z & Hz & Hin)%list_elem_of_fmap.
      destruct (Hf z Hin) as [_ Hn]. set_solver.
Qed.

(** How many of [U] are not yet seen. *)
Definition unseen (seen U : list K) : nat := length (filter (fun k => k ∉ seen) U).

Lemma unseen_snoc seen U k :
  k ∈ U -> k ∉ seen -> unseen (seen ++ [k]) U + 1 <= unseen seen U.
Proof.
  assert (Hmono : forall U, unseen (seen ++ [k]) U <= unseen seen U).
  { unfold unseen. induction U0 as [|u U0 IH]; [done|]. rewrite !filter_cons.
    repeat case_decide; simpl; try lia. set_solver. }
  intros Hk Hs. induction U as [|u U IH]; [set_solver|].
  unfold unseen in *. rewrite !filter_cons.
  destruct (decide (u = k)) as [->|Hne].
  - rewrite decide_False by set_solver. rewrite decide_True by done. simpl.
    specialize (Hmono U). lia.
  - assert (k ∈ U) as HkU by set_solver. specialize (IH HkU).
    repeat case_decide; simpl; try lia; set_solver.
Qed.

Lemma absorb_unseen seen l s f U :
  absorb seen l = (s, f) -> (forall y, y ∈ l -> key y ∈ U) ->
  unseen s U + length f <= unseen seen U.
Proof.
  revert seen s f. induction l as [|y l IH]; intros seen s f Ha HU; simpl in Ha.
  { simplify_eq. simpl. lia. }
  case_decide as Hy; [apply (IH seen); [done|set_solver]|].
  destruct (absorb (seen ++ [key y]) l) as [s' f'] eqn:E. simplify_eq.
  specialize (IH _ _ _ E). assert (key y ∈ U) by set_solver.
  pose proof (unseen_snoc seen U (key y)). simpl. set_solver by lia.
Qed.

End absorb.

Section closure.
Context {A K : Type} `{EqDecision K}.
Context (key : A -> K) (keep : A -> bool) (next : A -> list A).

(** [while (queue.length > 0)]; [None] when [fuel] turns are not enough. *)
Fixpoint bfs (fuel : nat) (seen : list K) (out queue : list A) : option (list K * list A) :=
  match queue with
  | [] => Some (seen, out)
  | x :: q =>
      match fuel with
      | O => None
      | S fuel' =>
          let '(s, fresh) := absorb key seen (next x) in
          bfs fuel' s (out ++ fresh) (q ++ filter (fun y => keep y = true) fresh)
      end
  end.

(** What holds of everything discovered: [P] of what the loop goes on from,
    [R] of what it finds. *)
Lemma bfs_sound (P R : A -> Prop) fuel seen out queue s' out' :
  (forall x y, P x -> y ∈ next x -> R y) -> (forall y, R y -> keep y = true -> P y) ->
  bfs fuel seen out queue = Some (s', out') ->
  Forall P queue -> Forall R out -> Forall R out'.
Proof.
  intros HR HP. revert seen out queue. induction fuel as [|fuel IH];
    intros seen out [|x q] Hb Hq Ho; simpl in Hb; try by simplify_eq.
  destruct (absorb key seen (next x)) as [s fresh] eqn:E.
  apply absorb_spec in E as (_ & Hf & _). apply Forall_cons in Hq as [Hx Hq].
  assert (Forall R fresh) as Hfr.
  { apply Forall_forall. intros y Hy. apply (HR x); [done|]. by apply Hf. }
  eapply IH; [exact Hb| |by apply Forall_app].
  apply Forall_app. split; [done|]. apply Forall_forall.
  intros y [Hk Hy]%list_elem_of_filter. apply HP; [|done]. by eapply Forall_forall in Hfr.
Qed.

(** What is visited is new, without repetition, and closed. *)
Lemma bfs_closed fuel seen out queue s' out' :
  bfs fuel seen out queue = Some (s', out') ->
  exists new, out' = out ++ new /\ s' = seen ++ (key <$> new) /\ NoDup (key <$> new) /\
    (forall y, y ∈ new -> key y ∉ seen) /\
    (forall x y, x ∈ queue -> y ∈ next x -> key y ∈ s') /\
    (forall x y, x ∈ new -> keep x = true -> y ∈ next x -> key y ∈ s').
Proof.
  revert seen out queue. induction fuel as [|fuel IH];
    intros seen out [|x q] Hb; simpl in Hb; try done.
  1,2: simplify_eq; exists []; simpl; rewrite !app_nil_r;
       split; [done|]; split; [done|]; split; [constructor|]; set_solver.
  destruct (absorb key seen (next x)) as [s fresh] eqn:E.
  apply absorb_spec in E as (-> & Hf & Hl & Hnd).
  destruct (IH _ _ _ Hb) as (new & -> & -> & Hnd' & Hnew & Hq & Hc).
  exists (fresh ++ new). rewrite fmap_app, <-!app_assoc.
  split; [done|]. split; [done|]. split; [|split; [|split]].
  - apply NoDup_app. split; [done|]. split; [|done].
    intros k Hk (y & -> & Hy)%list_elem_of_fmap. apply Hnew in Hy. set_solver.
  - intros y [Hy|Hy]%elem_of_app; [by apply Hf|]. apply Hnew in Hy. set_solver.
  - intros z y [->|Hz]%elem_of_cons Hy.
    + specialize (Hl y Hy). set_solver.
    + assert (z ∈ q ++ filter (fun y => keep y = true) fresh) as Hzq by set_solver.
      specialize (Hq z y Hzq Hy). by rewrite <-app_assoc in Hq.
  - intros z y [Hz|Hz]%elem_of_app Hk Hy.
    + assert (z ∈ q ++ filter (fun y => keep y = true) fresh) as Hzq.
      { apply elem_of_app. right. by apply list_elem_of_filter. }
      specialize (Hq z y Hzq Hy). by rewrite <-app_assoc in Hq.
    + specialize (Hc z y Hz Hk Hy). by rewrite <-app_assoc in Hc.
Qed.

(** One turn per queued element and per key that may still be visited. *)
Lemma bfs_total (U : list K) fuel seen out queue :
  (forall x y, y ∈ next x -> key y ∈ U) ->
  length queue + unseen seen U <= fuel ->
  exists s' out', bfs fuel seen out queue = Some (s', out').
Proof.
  intros HU. revert seen out queue. induction fuel as [|fuel IH];
    intros seen out [|x q] Hf; simpl; eauto; simpl in Hf; [lia|].
  destruct (absorb key seen (next x)) as [s fresh] eqn:E.
  assert (Hab := E). apply (absorb_unseen _ _ _ _ _ U) in Hab; [|by intros; eapply HU].
  apply IH. rewrite length_app.
  assert (length (filter (fun y => keep y = true) fresh) <= length fresh) by apply length_filter.
  lia.
Qed.

(** ** Reachability *)

(** [y] is found from [x], going on only from kept elements. *)
Inductive found_from (x : A) : A -> Prop :=
| found_next y : y ∈ next x -> found_from x y
| found_step y z : found_from x y -> keep y = true -> z ∈ next y -> found_from x z.

Lemma bfs_found fuel seen queue s' out' :
  bfs fuel seen [] queue = Some (s', out') ->
  forall y, y ∈ out' -> exists x, x ∈ queue /\ found_from x y.
Proof.
  intros Hb.
  set (R := fun y => exists x, x ∈ queue /\ found_from x y).
  set (P := fun x => x ∈ queue \/ (R x /\ keep x = true)).
  assert (Forall R out') as HR; [|by intros y Hy; eapply Forall_forall in HR].
  eapply (bfs_sound P R); [| |exact Hb| |constructor].
  - intros x y [Hx|[(x0 & Hx0 & Hx) Hk]] Hy; [exists x|exists x0]; split; try done.
    + by constructor.
    + by eapply found_step.
  - intros y Hy Hk. by right.
  - apply Forall_forall. by left.
Qed.

(** Of the elements the walk produces, those with the same key are followed
    alike. *)
Definition key_ok (G : A -> Prop) : Prop :=
  (forall x y, y ∈ next x -> G y) /\
  (forall a b, G a -> G b -> key a = key b -> keep a = keep b /\ (key <$> next a) = (key <$> next b)).

Lemma bfs_complete (G : A -> Prop) fuel seen queue s' out' :
  key_ok G ->
  (forall y z, key y ∈ seen -> keep y = true -> z ∈ next y -> key z ∈ s') ->
  bfs fuel seen [] queue = Some (s', out') ->
  forall x y, x ∈ queue -> found_from x y -> key y ∈ s'.
Proof.
  intros [HG Hkey] Hseen Hb x y Hx Hf.
  assert (Forall G out') as Hout.
  { eapply (bfs_sound (fun _ => True) G); [by eauto|done|exact Hb| |constructor].
    by apply Forall_forall. }
  destruct (bfs_closed _ _ _ _ _ _ Hb) as (new & -> & -> & _ & _ & Hq & Hc).
  induction Hf as [y Hy|y z Hf IH Hk Hz]; [by apply (Hq x)|].
  apply elem_of_app in IH as [Hy|Hy]; [by apply (Hseen y)|].
  apply list_elem_of_fmap in Hy as (y' & Hyy & Hy').
  assert (G y) as HGy by (inversion Hf; by eapply HG).
  eapply Forall_forall in Hout; [|exact Hy'].
  destruct (Hkey y y' HGy Hout Hyy) as [Hkk Hnn].
  assert (key z ∈ key <$> next y') as Hz'.
  { rewrite <-Hnn. apply list_elem_of_fmap. eauto. }
  apply list_elem_of_fmap in Hz' as (z' & -> & Hz').
  apply (Hc y' z'); [done|congruence|done].
Qed.
End closure.

Arguments found_from {A} keep next x _.
