(* ===== verification/SprintLock.v ===== *)
(** * The sprint lock ([fleet-sprint/sprint-lock.mjs])

    One pid file per branch and member set keeps a second engine from starting
    on the same sprint.  [acquire] is the call on its own, a function of the
    file's content; [lock_step] is the same code as the system calls it makes,
    so that launches can interleave.  Which pids are alive, and the failures of
    the file system that the code lets through, are the operating system's. *)

From Stdlib Require Import Ascii.
From S2P Require Import Prelude JsMap Text Process.
Local Open Scope string_scope.
Local Open Scope list_scope.

(** ** The key *)

(** [[a-zA-Z0-9._+-]] *)
Definition key_char (c : ascii) : bool := safe_char c || bool_decide (c = "+"%char).

(** [raw.replace(/[^a-zA-Z0-9._+-]/g, '_')] *)
Fixpoint key_sanitize (s : string) : string :=
  match s with
  | EmptyString => ""
  | String c s' => String (if key_char c then c else "_"%char) (key_sanitize s')
  end.

Definition sprintLockKey (branch : string) (members : list string) : string :=
  let memberPart := joinS "+" (sortS (dedup members)) in
  key_sanitize (branch +:+ "::" +:+ memberPart).

(** ** Reading a pid *)

(** [parseInt(s.trim(), 10)] *)
Definition parse_pid (s : string) : option Z := parse_int (trim s).

(** [isPidAlive]; [kill0 p] is the outcome of [process.kill(p, 0)]. *)
Definition isPidAlive (kill0 : Z -> option js_error) (pid : Z) : bool :=
  if (pid <=? 0)%Z then false
  else match kill0 pid with None => true | Some e => has_code "EPERM" e end.

(** [Number.isInteger(existingPid) && isPidAlive(existingPid)] *)
Definition live_holder (alive : Z -> bool) (existing : option Z) : option Z :=
  match existing with Some p => if alive p then Some p else None | None => None end.

(** ** One call, undisturbed *)

Inductive lock_error :=
| LockHeld (existingPid : Z)     (** [SprintLockHeldError], a live process *)
| LockLostReclaim                (** [SprintLockHeldError], lost the reclaim *)
| LockIo (e : js_error).

(** What the file system may refuse during a call. *)
Record lock_fs := {
  open_err : option js_error;    (** [openSync], other than [EEXIST] *)
  write_err : option js_error;   (** [writeSync] *)
  read_ok : bool;                (** [readFileSync] *)
  unlink_ok : bool               (** [unlinkSync] *)
}.
Definition healthy : lock_fs :=
  {| open_err := None; write_err := None; read_ok := true; unlink_ok := true |}.

(** [tryAcquire], with [reclaims] as [allowReclaim]; the state is the content
    of the pid file, [None] when there is none.  A handle stands for the path
    and its [release]. *)
Fixpoint try_acquire (fs : lock_fs) (alive : Z -> bool) (pid : Z) (reclaims : nat)
    (file : option string) : (unit + lock_error) * option string :=
  match open_err fs with
  | Some e => (inr (LockIo e), file)
  | None =>
      match file with
      | None =>
          match write_err fs with
          | Some e => (inr (LockIo e), Some "")
          | None => (inl tt, Some (pretty pid))
          end
      | Some content =>
          let existingPid := if read_ok fs then parse_pid content else None in
          match live_holder alive existingPid with
          | Some q => (inr (LockHeld q), file)
          | None =>
              match reclaims with
              | O => (inr LockLostReclaim, file)
              | S r => try_acquire fs alive pid r (if unlink_ok fs then None else file)
              end
          end
      end
  end.

Definition acquireSprintLock (fs : lock_fs) (alive : Z -> bool) (pid : Z)
    (file : option string) : (unit + lock_error) * option string :=
  try_acquire fs alive pid 1 file.

(** [release]: whatever file is there is removed. *)
Definition release_lock (fs : lock_fs) (file : option string) : option string :=
  if unlink_ok fs then None else file.

(** ** Interleaved calls

    The directory entry names an inode; a process that opened the file writes
    to its inode even after another one unlinked the entry. *)

Inductive lock_pc :=
| Outside                        (** a process that is not acquiring *)
| Opening (reclaims : bool)      (** about to [openSync(.., 'wx')] *)
| Writing (ino : nat)            (** holds a fresh, empty file *)
| Reading (reclaims : bool)      (** got [EEXIST] *)
| Checking (reclaims : bool) (existing : option Z)
| Unlinking                      (** found the holder dead *)
| Holding
| Refused.

Record lock_sys := {
  entry : option nat;
  inodes : gmap nat string;
  next_ino : nat;
  procs : gmap Z lock_pc         (** the live processes *)
}.

(** Signal 0 reaches exactly the live processes. *)
Definition sys_kill0 (s : lock_sys) (p : Z) : option js_error :=
  match procs s !! p with Some _ => None | None => Some (CodedErr "ESRCH" "kill ESRCH") end.
Definition sys_alive (s : lock_sys) (p : Z) : bool := isPidAlive (sys_kill0 s) p.

Definition set_pc (p : Z) (c : lock_pc) (s : lock_sys) : lock_sys :=
  {| entry := entry s; inodes := inodes s; next_ino := next_ino s;
     procs := <[p := c]> (procs s) |}.
Definition set_entry (e : option nat) (s : lock_sys) : lock_sys :=
  {| entry := e; inodes := inodes s; next_ino := next_ino s; procs := procs s |}.
Definition write_inode (i : nat) (content : string) (s : lock_sys) : lock_sys :=
  {| entry := entry s; inodes := <[i := content]> (inodes s); next_ino := next_ino s;
     procs := procs s |}.
Definition create (s : lock_sys) : lock_sys :=
  {| entry := Some (next_ino s); inodes := <[next_ino s := ""]> (inodes s);
     next_ino := S (next_ino s); procs := procs s |}.

(** What the entry's file holds. *)
Definition file_content (s : lock_sys) : option string := i ← entry s; inodes s !! i.

(** One system call of process [p] that is inside [acquireSprintLock]. *)
Definition lock_go (p : Z) (s : lock_sys) : option lock_sys :=
  c ← procs s !! p;
  match c with
  | Opening r =>
      Some (match entry s with
            | None => set_pc p (Writing (next_ino s)) (create s)
            | Some _ => set_pc p (Reading r) s
            end)
  | Writing i => Some (set_pc p Holding (write_inode i (pretty p) s))
  | Reading r =>
      Some (set_pc p (Checking r (file_content s ≫= parse_pid)) s)
  | Checking r existing =>
      Some (set_pc p (match live_holder (sys_alive s) existing with
                      | Some _ => Refused
                      | None => if r : bool then Unlinking else Refused
                      end) s)
  | Unlinking => Some (set_pc p (Opening false) (set_entry None s))
  | Outside | Holding | Refused => None
  end.

Inductive lock_event :=
| Launch (p : Z)       (** a process calls [acquireSprintLock] *)
| Go (p : Z)           (** its next system call *)
| Release (p : Z)      (** a holder calls [release] *)
| Exit (p : Z).        (** a process ends, at any point *)

Definition lock_step (s : lock_sys) (e : lock_event) : option lock_sys :=
  match e with
  | Launch p =>
      match procs s !! p with
      | None | Some Outside | Some Refused => Some (set_pc p (Opening true) s)
      | Some _ => None
      end
  | Go p => lock_go p s
  | Release p =>
      match procs s !! p with
      | Some Holding => Some (set_pc p Outside (set_entry None s))
      | _ => None
      end
  | Exit p =>
      match procs s !! p with
      | Some _ => Some {| entry := entry s; inodes := inodes s; next_ino := next_ino s;
                          procs := delete p (procs s) |}
      | None => None
      end
  end.

Fixpoint lock_run (s : lock_sys) (es : list lock_event) : option lock_sys :=
  match es with [] => Some s | e :: es' => s' ← lock_step s e; lock_run s' es' end.

(** A call left alone: its system calls until it returns or throws. *)
Fixpoint solo (fuel : nat) (p : Z) (s : lock_sys) : lock_sys :=
  match fuel with
  | O => s
  | S fuel' => match lock_go p s with Some s' => solo fuel' p s' | None => s end
  end.
