(* ===== verification/SprintLockProps.v ===== *)
(** * What the sprint lock guarantees

    Alone, a call is refused exactly by a live holder, and takes over what a
    dead one left; the system calls of an undisturbed launch compute that
    function.  Interleaved, a lock whose pid file is written holds against any
    number of later launches; two launches that overlap in time can both get
    it. *)

From Stdlib Require Import Ascii.
From S2P Require Import Prelude JsMap Text Process SprintLock.
Local Open Scope string_scope.
Local Open Scope list_scope.

(** ** The key *)

Lemma key_sanitize_chars s : string_all key_char (key_sanitize s) = true.
Proof.
  induction s as [|c s IH]; [done|]. cbn [key_sanitize string_all]. rewrite IH, andb_true_r.
  by destruct (key_char c) eqn:Hc.
Qed.

Lemma dedup_same_elements (l l' : list string) :
  (forall m, m ∈ l <-> m ∈ l') -> dedup l ≡ₚ dedup l'.
Proof.
  intros Hl. apply NoDup_Permutation; [apply NoDup_dedup..|].
  intros m. by rewrite !elem_of_dedup.
Qed.

(** the lock's key depends on the branch and the set of members only, not
    on their order or repetition, and is safe as a file name; but two branches
    that differ only in characters outside [[a-zA-Z0-9._+-]] share it. *)
Theorem sprintLockKey_canonical (branch : string) (members members' : list string) :
  (forall m, m ∈ members <-> m ∈ members') ->
  sprintLockKey branch members = sprintLockKey branch members' /\
  string_all key_char (sprintLockKey branch members) = true /\
  sprintLockKey "feat/x" members = sprintLockKey "feat_x" members.
Proof.
  intros Hm. unfold sprintLockKey. split; [|split; [apply key_sanitize_chars|done]].
  by rewrite (sortS_canonical _ _ (dedup_same_elements _ _ Hm)).
Qed.

Lemma sprintLockKey_canonical_witness :
  sprintLockKey "auto/x" ["bob"; "alice"; "bob"] = sprintLockKey "auto/x" ["alice"; "bob"] /\
  sprintLockKey "auto/x" ["alice"; "bob"] = "auto_x__alice+bob".
Proof.
  split; [|vm_compute; reflexivity].
  apply sprintLockKey_canonical. set_solver.
Defined.

(** ** Pids *)

Lemma parse_pid_pretty (p : Z) : (0 < p)%Z -> parse_pid (pretty p) = Some p.
Proof.
  intros Hp. unfold parse_pid. destruct (pretty_pos_digits p Hp) as (Hd & _ & _).
  by rewrite (trim_none digit_char _ digit_not_ws Hd), parse_int_pretty.
Qed.

Lemma live_holder_alive alive o q : live_holder alive o = Some q -> o = Some q /\ alive q = true.
Proof. destruct o as [p|]; [|done]. simpl. destruct (alive p) eqn:E; naive_solver. Qed.

Lemma live_holder_self alive (p : Z) :
  alive p = true -> live_holder alive (Some p) = Some p.
Proof. intros Ha. unfold live_holder. by rewrite Ha. Qed.

(** ** One call *)

Lemma acquire_healthy alive pid file :
  acquireSprintLock healthy alive pid file =
    match live_holder alive (file ≫= parse_pid) with
    | Some q => (inr (LockHeld q), file)
    | None => (inl tt, Some (pretty pid))
    end.
Proof.
  unfold acquireSprintLock. destruct file as [content|]; [|done]. cbn [try_acquire healthy open_err].
  change (Some content ≫= parse_pid) with (parse_pid content).
  change (read_ok healthy) with true. by destruct (live_holder alive (parse_pid content)).
Qed.

(** with a file system that works, a launch is refused exactly when the
    file names a live process, and then leaves the file as it was; a missing,
    stale or unreadable file never blocks it, and it leaves its own pid. *)
Theorem acquireSprintLock_exact (alive : Z -> bool) (pid : Z) (file : option string) :
  acquireSprintLock healthy alive pid file =
    match live_holder alive (file ≫= parse_pid) with
    | Some q => (inr (LockHeld q), file)
    | None => (inl tt, Some (pretty pid))
    end.
Proof. apply acquire_healthy. Qed.

Lemma try_acquire_Ok fs alive pid n file file' :
  try_acquire fs alive pid n file = (inl tt, file') -> file' = Some (pretty pid).
Proof.
  revert file. induction n as [|n IH]; intros file; cbn [try_acquire];
    destruct (open_err fs); [done| |done|];
    (destruct file as [content|]; [|destruct (write_err fs); congruence]);
    destruct (live_holder alive _); try done. apply IH.
Qed.

(** once a live process has the lock, whatever the file system did to get
    it there, every further launch on the key that can open and read the file
    is refused and names it, and the file stays. *)
Theorem sprint_lock_exclusive (fs : lock_fs) (alive : Z -> bool) (pid : Z)
    (file file' : option string) :
  (0 < pid)%Z -> alive pid = true ->
  acquireSprintLock fs alive pid file = (inl tt, file') ->
  forall fs' pid', open_err fs' = None -> read_ok fs' = true ->
    acquireSprintLock fs' alive pid' file' = (inr (LockHeld pid), file').
Proof.
  intros Hp Ha Hacq fs' pid' Ho Hr. apply try_acquire_Ok in Hacq as ->.
  unfold acquireSprintLock. cbn [try_acquire]. rewrite Ho, Hr, parse_pid_pretty by done.
  by rewrite live_holder_self.
Qed.

Lemma sprint_lock_exclusive_witness :
  acquireSprintLock healthy (Z.eqb 42) 42 (Some "7") = (inl tt, Some "42") /\
  acquireSprintLock healthy (Z.eqb 42) 43 (Some "42") = (inr (LockHeld 42), Some "42").
Proof.
  split; [vm_compute; reflexivity|].
  apply (sprint_lock_exclusive healthy (Z.eqb 42) 42 (Some "7"));
    solve [lia | vm_compute; reflexivity].
Defined.

(** ** The system calls of one launch *)

Definition set_proc_view (p : Z) (r : (unit + lock_error) * option string) (s : lock_sys) : Prop :=
  file_content s = r.2 /\
  procs s !! p = Some (match r.1 with inl _ => Holding | inr _ => Refused end).

Lemma lookup_set_pc p c s : procs (set_pc p c s) !! p = Some c.
Proof. apply lookup_insert_eq. Qed.

(** The entry always names a file. *)
Definition entry_ok (s : lock_sys) : Prop :=
  forall i, entry s = Some i -> is_Some (inodes s !! i).

Lemma lock_go_opening p r s :
  procs s !! p = Some (Opening r) ->
  lock_go p s = Some (match entry s with
                      | None => set_pc p (Writing (next_ino s)) (create s)
                      | Some _ => set_pc p (Reading r) s
                      end).
Proof. intros Hp. unfold lock_go. by rewrite Hp. Qed.

Lemma solo_step n p s s' : lock_go p s = Some s' -> solo (S n) p s = solo n p s'.
Proof. intros Hs. simpl. by rewrite Hs. Qed.

Lemma solo_stop n p s : lock_go p s = None -> solo n p s = s.
Proof. intros Hs. destruct n; [done|]. simpl. by rewrite Hs. Qed.

(** The call [p] makes next, given where it is. *)
Ltac solo_go := erewrite solo_step by (unfold lock_go; rewrite lookup_set_pc; reflexivity).

(** With no entry, two calls create and fill the file. *)
Lemma solo_fresh n p r s :
  procs s !! p = Some (Opening r) -> entry s = None ->
  set_proc_view p (inl tt, Some (pretty p)) (solo (S (S n)) p s).
Proof.
  intros Hp He. erewrite solo_step by (by apply lock_go_opening). rewrite He. solo_go.
  set (s' := set_pc p Holding _).
  assert (set_proc_view p (inl tt, Some (pretty p)) s') as Hs'.
  { split; [|apply lookup_set_pc]. unfold s', file_content. simpl. apply lookup_insert_eq. }
  rewrite solo_stop; [done|]. unfold lock_go, s'. by rewrite lookup_set_pc.
Qed.

Lemma sys_alive_spec s p : sys_alive s p = bool_decide (0 < p)%Z && bool_decide (is_Some (procs s !! p)).
Proof.
  unfold sys_alive, isPidAlive, sys_kill0. destruct (Z.leb_spec p 0).
  - by rewrite bool_decide_eq_false_2 by lia.
  - rewrite bool_decide_eq_true_2 by lia. by destruct (procs s !! p).
Qed.

Lemma sys_alive_set_pc p c s q : is_Some (procs s !! p) -> sys_alive (set_pc p c s) q = sys_alive s q.
Proof.
  intros Hp. rewrite !sys_alive_spec. f_equal. apply bool_decide_ext. simpl.
  destruct (decide (p = q)) as [->|]; [rewrite lookup_insert_eq; naive_solver|].
  by rewrite lookup_insert_ne.
Qed.

Lemma live_holder_ext alive alive' o :
  (forall q, alive q = alive' q) -> live_holder alive o = live_holder alive' o.
Proof. intros He. unfold live_holder. destruct o; [by rewrite He|done]. Qed.

Lemma solo_view (s : lock_sys) (p : Z) (n : nat) :
  procs s !! p = Some (Opening true) -> entry_ok s ->
  set_proc_view p (acquireSprintLock healthy (sys_alive s) p (file_content s))
    (solo (7 + n) p s).
Proof.
  intros Hp Hok. rewrite acquire_healthy.
  destruct (entry s) as [i|] eqn:He.
  - destruct (Hok i He) as [content Hc].
    assert (file_content s = Some content) as Hf by (unfold file_content; by rewrite He).
    change (7 + n) with (S (S (S (S (S (S (S n))))))).
    erewrite (solo_step _ p s) by (by apply (lock_go_opening p true)). rewrite He. solo_go.
    replace (file_content (set_pc p (Reading true) s)) with (file_content s) by done.
    rewrite Hf. change (Some content ≫= parse_pid) with (parse_pid content). solo_go.
    rewrite (live_holder_ext (sys_alive (set_pc p _ _)) (sys_alive s)).
    2:{ intros q. rewrite !sys_alive_set_pc; rewrite ?lookup_set_pc; eauto. }
    destruct (live_holder (sys_alive s) (parse_pid content)) as [q|].
    + rewrite solo_stop by (unfold lock_go; by rewrite lookup_set_pc).
      split; [exact Hf|apply lookup_set_pc].
    + solo_go. apply (solo_fresh _ _ false); [apply lookup_set_pc|done].
  - replace (file_content s) with (@None string) by (unfold file_content; by rewrite He).
    by apply (solo_fresh (5 + n) p true).
Qed.


Definition stale_sys : lock_sys :=
  {| entry := Some 0; inodes := {[0 := "5"]}; next_ino := 1;
     procs := {[10%Z := Opening true; 20%Z := Opening true]} |}.
Definition empty_sys : lock_sys :=
  {| entry := None; inodes := ∅; next_ino := 0;
     procs := {[10%Z := Opening true; 20%Z := Opening true]} |}.

Lemma stale_sys_ok : entry_ok stale_sys.
Proof. intros i [= <-]. vm_compute. eauto. Qed.


(** ** Launches that interleave *)

(** Where the other processes may be while [p] has the lock: none of them is
    past a check that found nobody, and none has another file open. *)
Definition waits_for (p : Z) (c : lock_pc) : Prop :=
  match c with
  | Outside | Opening _ | Reading _ | Refused => True
  | Checking _ existing => existing = Some p
  | Writing _ | Unlinking | Holding => False
  end.

Definition established (p : Z) (s : lock_sys) : Prop :=
  procs s !! p = Some Holding /\ file_content s = Some (pretty p) /\
  (forall q c, q ≠ p -> procs s !! q = Some c -> waits_for p c).

Definition keeps (p : Z) (e : lock_event) : Prop := e ≠ Release p /\ e ≠ Exit p.

Lemma established_set_pc p q c s :
  q ≠ p -> waits_for p c -> established p s -> established p (set_pc q c s).
Proof.
  intros Hq Hc (Hp & Hf & Ho). split; [|split; [exact Hf|]]; simpl.
  - by rewrite lookup_insert_ne.
  - intros q' c' Hq'. destruct (decide (q = q')) as [->|Hne].
    + rewrite lookup_insert_eq. by intros [= <-].
    + rewrite lookup_insert_ne by done. by apply Ho.
Qed.

Lemma established_go p q s s' :
  (0 < p)%Z -> established p s -> lock_go q s = Some s' -> established p s'.
Proof.
  intros Hpos He Hgo. destruct (decide (q = p)) as [->|Hq].
  { unfold lock_go in Hgo. destruct He as (Hp & _). by rewrite Hp in Hgo. }
  unfold lock_go in Hgo. destruct (procs s !! q) as [c|] eqn:Hc; [|done].
  assert (He' := He). destruct He' as (Hp & Hf & Ho). specialize (Ho q c Hq Hc).
  destruct c; try done; simpl in Hgo; simplify_eq.
  - destruct (entry s) eqn:Hent; [by apply established_set_pc|].
    unfold file_content in Hf. by rewrite Hent in Hf.
  - apply established_set_pc; [done| |done]. rewrite Hf. simpl. by apply parse_pid_pretty.
  - simpl in Ho. subst existing. rewrite live_holder_self.
    + by apply established_set_pc.
    + rewrite sys_alive_spec, Hp. rewrite !bool_decide_eq_true_2; eauto.
Qed.

Lemma established_step p e s s' :
  (0 < p)%Z -> established p s -> keeps p e -> lock_step s e = Some s' -> established p s'.
Proof.
  intros Hpos He [Hr Hx] Hs. destruct e as [q|q|q|q]; simpl in Hs.
  - destruct He as (Hp & Hf & Ho).
    destruct (decide (q = p)) as [->|Hq]; [by rewrite Hp in Hs|].
    assert (s' = set_pc q (Opening true) s) as -> by (destruct (procs s !! q) as [[]|]; naive_solver).
    by apply established_set_pc.
  - by eapply established_go.
  - assert (q ≠ p) as Hq by congruence. destruct He as (Hp & Hf & Ho).
    destruct (procs s !! q) as [[]|] eqn:Hc; try done. by destruct (Ho q _ Hq Hc).
  - assert (q ≠ p) as Hq by congruence. destruct He as (Hp & Hf & Ho).
    destruct (procs s !! q); [|done]. simplify_eq. split; [|split; [exact Hf|]]; simpl.
    + by rewrite lookup_delete_ne.
    + intros q' c' Hq' [_ Hc']%lookup_delete_Some. by eapply Ho.
Qed.

Lemma established_run p es s s' :
  (0 < p)%Z -> established p s -> Forall (keeps p) es -> lock_run s es = Some s' ->
  established p s'.
Proof.
  intros Hpos He Hes. revert s He. induction Hes as [|e es Hk Hes IH]; intros s He Hrun.
  { simpl in Hrun. by simplify_eq. }
  simpl in Hrun. destruct (lock_step s e) as [s1|] eqn:Hs; [|done]. simpl in Hrun.
  eapply IH; [|exact Hrun]. by eapply established_step.
Qed.

Lemma lock_go_others p q s s' : lock_go p s = Some s' -> q ≠ p -> procs s' !! q = procs s !! q.
Proof.
  unfold lock_go. intros Hgo Hq. destruct (procs s !! p) as [c|]; [|done]. simpl in Hgo.
  destruct c; try done; simplify_eq; simpl; try by rewrite lookup_insert_ne.
  destruct (entry s); simpl; by rewrite lookup_insert_ne.
Qed.

Lemma solo_others n p q s : q ≠ p -> procs (solo n p s) !! q = procs s !! q.
Proof.
  intros Hq. revert s. induction n as [|n IH]; intros s; [done|]. simpl.
  destruct (lock_go p s) as [s'|] eqn:Hs; [|done]. rewrite IH. by eapply lock_go_others.
Qed.



(** ** Launches that overlap *)

(** two launches on the same free key can both get the lock: the second
    reads the first one's file between its creation and the write of the pid,
    takes it for stale and removes it.  Either's release then removes the
    other's file. *)
Theorem simultaneous_launches_both_hold :
  exists s', lock_run empty_sys
      [Go 10; Go 20; Go 20; Go 20; Go 20; Go 10; Go 20; Go 20] = Some s' /\
    procs s' !! 10%Z = Some Holding /\ procs s' !! 20%Z = Some Holding /\
    file_content s' = Some "20" /\
    exists s'', lock_step s' (Release 10) = Some s'' /\
      procs s'' !! 20%Z = Some Holding /\ file_content s'' = None.
Proof. eexists. vm_compute. repeat split. eexists. repeat split. Qed.

(** two launches that find the same stale file can both get the lock: the
    slower one's removal hits the file the faster one has just written. *)
Theorem stale_reclaim_race_both_hold :
  exists s', lock_run stale_sys
      [Go 10; Go 20; Go 10; Go 20; Go 10; Go 20; Go 10; Go 10; Go 10; Go 20; Go 20; Go 20] = Some s' /\
    procs s' !! 10%Z = Some Holding /\ procs s' !! 20%Z = Some Holding.
Proof. eexists. vm_compute. repeat split. Qed.
