(* ===== verification/UsageLimit.v ===== *)
(** * Waiting out a provider's usage limit

    [createUsageLimitPauseController] of
    [fleet-sprint/usage-limit-controller.mjs], with its budgets from
    [role-policies.mjs] and the error predicates of [errors.mjs].  The clock,
    [Date.parse], and what pausing, resuming and probing answer are the
    arguments [date] and [world]: one [round] per turn of the loop. *)

From S2P Require Import Prelude.
Local Open Scope string_scope.
Local Open Scope list_scope.

(** ** Milliseconds, possibly [NaN] *)

Definition ms := option Z.
Definition ms_add (a b : ms) : ms := x ← a; y ← b; Some (x + y)%Z.
Definition ms_sub (a b : ms) : ms := x ← a; y ← b; Some (x - y)%Z.
Definition ms_max (a b : ms) : ms := x ← a; y ← b; Some (Z.max x y).
Definition ms_min (a b : ms) : ms := x ← a; y ← b; Some (Z.min x y).
(** [a <= b]; comparisons with [NaN] are false. *)
Definition ms_le (a b : ms) : bool :=
  match a, b with Some x, Some y => (x <=? y)%Z | _, _ => false end.

(** ** Budgets *)

Definition USAGE_LIMIT_MAX_WAIT_S : Z := 6 * 60 * 60.
Definition USAGE_LIMIT_MAX_REPROBES : Z := 6.
Definition USAGE_LIMIT_MIN_WAIT_S : Z := 60.
Definition USAGE_LIMIT_REPROBE_BACKOFF_MS : list Z :=
  (fun m => m * 60 * 1000)%Z <$> [15; 30; 60; 60; 60; 60]%Z.

Record budgets := {
  b_max_wait_s : option Z; b_max_reprobes : option Z; b_min_wait_s : option Z;
  b_backoff_ms : option (list Z)
}.
Definition no_budgets : budgets :=
  {| b_max_wait_s := None; b_max_reprobes := None; b_min_wait_s := None; b_backoff_ms := None |}.

Definition maxWaitMs (b : budgets) : Z := default USAGE_LIMIT_MAX_WAIT_S (b_max_wait_s b) * 1000.
Definition minWaitMs (b : budgets) : Z := default USAGE_LIMIT_MIN_WAIT_S (b_min_wait_s b) * 1000.
Definition maxReprobes (b : budgets) : Z := default USAGE_LIMIT_MAX_REPROBES (b_max_reprobes b).
Definition backoffLadder (b : budgets) : list Z :=
  default USAGE_LIMIT_REPROBE_BACKOFF_MS (b_backoff_ms b).

(** ** Signals and dispatch errors *)

Record signal := { resumeAt : option string }.

(** [currentSignal && currentSignal.resumeAt], when truthy. *)
Definition resume_time (s : option signal) : option string :=
  x ← s; r ← resumeAt x; if nonempty r then Some r else None.

Record dispatch_error := { e_reason : option string; e_usageLimit : option signal }.

Definition isUsageLimitDispatchError (e : dispatch_error) : bool :=
  bool_decide (e_reason e = Some "usage_limit").
Definition usageLimitOf (e : dispatch_error) : option signal := e_usageLimit e.

Inductive probe :=
| ProbeOk
| ProbeCancelled                    (** [CancelledError] *)
| ProbeFailed (e : dispatch_error).

(** The probe still hits the limit. *)
Definition limited (p : probe) : bool :=
  match p with ProbeFailed e => isUsageLimitDispatchError e | _ => false end.

(** ** The loop *)

Record round := {
  rd_now : Z;                       (** [now()] *)
  rd_pause : option js_error;       (** what [requestPause] rejects with *)
  rd_resume : option js_error;      (** what [requestResume] rejects with *)
  rd_probe : probe
}.

Inductive ul_event :=
| Paused (resumeAt : option string)
| Slept (wait : ms)
| Resumed
| Probed (p : probe).

Record exhausted_details := {
  x_lastResumeAt : option string; x_reprobes : Z; x_waitedMs : ms
}.

Inductive ul_outcome :=
| UsableAgain                       (** [{ resumed: true }] *)
| WaitExhausted (d : exhausted_details)
| Rejected (e : js_error)
| Cancelled.

Record ul_state := {
  u_signal : option signal; u_reprobes : Z; u_waited : ms; u_last : option string
}.

Definition exhausted (s : ul_state) : ul_outcome :=
  WaitExhausted {| x_lastResumeAt := u_last s; x_reprobes := u_reprobes s;
                   x_waitedMs := u_waited s |}.

(** [backoffLadder[i]], [undefined] (later [NaN]) outside the ladder. *)
Definition ladder_at (l : list Z) (reprobes : Z) : ms :=
  let i := Z.min reprobes (Z.of_nat (length l) - 1) in
  if (i <? 0)%Z then None else l !! Z.to_nat i.

Definition targetMs (b : budgets) (date : string -> option Z) (s : ul_state) (now : Z) : ms :=
  match resume_time (u_signal s) with
  | Some r => ms_sub (date r) (Some now)
  | None => ladder_at (backoffLadder b) (u_reprobes s)
  end.

Definition remainingMs (b : budgets) (s : ul_state) : ms :=
  ms_sub (Some (maxWaitMs b)) (u_waited s).

Definition waitMs (b : budgets) (date : string -> option Z) (s : ul_state) (now : Z) : ms :=
  ms_min (ms_max (targetMs b date s now) (Some (minWaitMs b))) (remainingMs b s).

(** One turn: the events, and either the outcome or the state of the next. *)
Definition ul_turn (b : budgets) (date : string -> option Z) (r : round) (s : ul_state)
    : list ul_event * (ul_outcome + ul_state) :=
  if ms_le (remainingMs b s) (Some 0%Z) then ([], inl (exhausted s))
  else
    let last := match resume_time (u_signal s) with Some x => Some x | None => u_last s end in
    let wait := waitMs b date s (rd_now r) in
    match rd_pause r with
    | Some e => ([Paused last], inl (Rejected e))
    | None =>
        match rd_resume r with
        | Some e => ([Paused last; Slept wait], inl (Rejected e))
        | None =>
            let waited := ms_add (u_waited s) wait in
            ([Paused last; Slept wait; Resumed; Probed (rd_probe r)],
             match rd_probe r with
             | ProbeOk => inl UsableAgain
             | ProbeCancelled => inl Cancelled
             | ProbeFailed e =>
                 if isUsageLimitDispatchError e
                 then
                   let s' := {| u_signal := usageLimitOf e; u_reprobes := u_reprobes s + 1;
                                u_waited := waited; u_last := last |} in
                   if (maxReprobes b <? u_reprobes s')%Z || ms_le (Some (maxWaitMs b)) waited
                   then inl (exhausted s') else inr s'
                 else inl UsableAgain
             end)
        end
    end.

(** [for (;;)]; [None] when [fuel] turns are not enough. *)
Fixpoint ul_loop (fuel : nat) (b : budgets) (date : string -> option Z) (world : nat -> round)
    (k : nat) (s : ul_state) : option (list ul_event * ul_outcome) :=
  match fuel with
  | O => None
  | S fuel' =>
      let '(es, o) := ul_turn b date (world k) s in
      match o with
      | inl out => Some (es, out)
      | inr s' => '(es', out) ← ul_loop fuel' b date world (S k) s'; Some (es ++ es', out)
      end
  end.

Definition ul_init (sig : option signal) : ul_state :=
  {| u_signal := sig; u_reprobes := 0; u_waited := Some 0%Z; u_last := resume_time sig |}.

(** One turn per reprobe, and one more. *)
Definition ul_fuel (b : budgets) : nat := S (Z.to_nat (maxReprobes b)).

Definition onUsageLimit (b : budgets) (date : string -> option Z) (world : nat -> round)
    (sig : option signal) : option (list ul_event * ul_outcome) :=
  ul_loop (ul_fuel b) b date world 0 (ul_init sig).

(** ** Reading a run *)

Definition slept (es : list ul_event) : list ms :=
  omap (fun e => match e with Slept w => Some w | _ => None end) es.
Definition probes (es : list ul_event) : list probe :=
  omap (fun e => match e with Probed p => Some p | _ => None end) es.
Definition total (ws : list ms) : ms := foldr ms_add (Some 0%Z) ws.
