(* ===== verification/UsageLimitProps.v ===== *)
(** * What the usage-limit wait guarantees

    The wait ends; how it ends follows from what the probes answered; with
    budgets and dates that parse, the time slept stays within the wait budget.
    A resume time that does not parse switches the budget off. *)

From S2P Require Import Prelude UsageLimit.
Local Open Scope string_scope.
Local Open Scope list_scope.

Lemma ms_le_Some x y : ms_le (Some x) (Some y) = true <-> (x <= y)%Z.
Proof. apply Z.leb_le. Qed.

Lemma total_app a b : total (a ++ b) = ms_add (total a) (total b).
Proof.
  induction a as [|w a IH]; simpl.
  - by destruct (total b).
  - unfold total in *. rewrite IH.
    destruct w, (foldr ms_add _ a), (foldr ms_add _ b); simpl; try done. f_equal; lia.
Qed.

Lemma slept_app a b : slept (a ++ b) = slept a ++ slept b.
Proof. apply omap_app. Qed.
Lemma probes_app a b : probes (a ++ b) = probes a ++ probes b.
Proof. apply omap_app. Qed.

Section run.
Context (b : budgets) (date : string -> option Z) (world : nat -> round).

(** What the outcome says of the probes made on the way to it. *)
Definition outcome_of (s : ul_state) (es : list ul_event) (out : ul_outcome) : Prop :=
  match out with
  | UsableAgain =>
      exists ps p, probes es = ps ++ [p] /\ Forall (fun q => limited q = true) ps /\
        limited p = false /\ p ≠ ProbeCancelled
  | Cancelled =>
      exists ps, probes es = ps ++ [ProbeCancelled] /\ Forall (fun q => limited q = true) ps
  | WaitExhausted d =>
      Forall (fun q => limited q = true) (probes es) /\
      x_reprobes d = (u_reprobes s + Z.of_nat (length (probes es)))%Z /\
      ((maxReprobes b < x_reprobes d)%Z \/ ms_le (Some (maxWaitMs b)) (x_waitedMs d) = true)
  | Rejected _ => Forall (fun q => limited q = true) (probes es)
  end.

Lemma remaining_le s :
  ms_le (remainingMs b s) (Some 0%Z) = true -> ms_le (Some (maxWaitMs b)) (u_waited s) = true.
Proof. unfold remainingMs. destruct (u_waited s); [|done]. simpl. rewrite !Z.leb_le. lia. Qed.

(** One turn: it ends the wait with what it saw, or the limit still holds. *)
Lemma turn_outcome r s :
  match ul_turn b date r s with
  | (es, inl out) => outcome_of s es out
  | (es, inr s') => exists p, probes es = [p] /\ limited p = true /\
                      u_reprobes s' = (u_reprobes s + 1)%Z /\ (u_reprobes s' <= maxReprobes b)%Z
  end.
Proof.
  unfold ul_turn. destruct (ms_le _ (Some 0%Z)) eqn:Hrem.
  { simpl. split; [by constructor|]. split; [lia|right]. by apply remaining_le. }
  destruct (rd_pause r); [by apply Forall_nil|].
  destruct (rd_resume r); [by apply Forall_nil|].
  destruct (rd_probe r) as [| |e] eqn:Hp.
  - exists [], ProbeOk. repeat constructor. done.
  - exists []. by repeat constructor.
  - destruct (isUsageLimitDispatchError e) eqn:He.
    + cbn zeta. cbn [u_reprobes]. destruct (Z.ltb_spec (maxReprobes b) (u_reprobes s + 1)) as [Hm|Hm];
        [|destruct (ms_le (Some (maxWaitMs b)) _) eqn:Hw]; cbn [u_reprobes orb].
      * simpl. split; [by repeat constructor|]. split; [lia|]. left. lia.
      * simpl. split; [by repeat constructor|]. split; [lia|]. right. exact Hw.
      * exists (ProbeFailed e). done.
    + exists [], (ProbeFailed e). repeat constructor; done.
Qed.

Lemma outcome_step s s' p es es' out :
  probes es = [p] -> limited p = true -> u_reprobes s' = (u_reprobes s + 1)%Z ->
  outcome_of s' es' out -> outcome_of s (es ++ es') out.
Proof.
  intros Hp Hl Hr Ho. unfold outcome_of in *. rewrite probes_app, Hp.
  destruct out as [|d|e|]; simpl.
  - destruct Ho as (ps & q & -> & Hps & Hq). exists (p :: ps), q. split; [done|].
    split; [by constructor|done].
  - destruct Ho as (Hps & Hd & Hx). split; [by constructor|]. split; [lia|done].
  - by constructor.
  - destruct Ho as (ps & -> & Hps). exists (p :: ps). split; [done|by constructor].
Qed.

Lemma loop_outcome fuel k s :
  (maxReprobes b - u_reprobes s < Z.of_nat fuel)%Z -> fuel ≠ 0 ->
  exists es out, ul_loop fuel b date world k s = Some (es, out) /\ outcome_of s es out /\
    length (probes es) <= fuel.
Proof.
  revert k s. induction fuel as [|fuel IH]; intros k s Hf Hne; [done|]. cbn [ul_loop].
  assert (Ht := turn_outcome (world k) s).
  assert (length (probes (ul_turn b date (world k) s).1) <= 1) as Hlen.
  { unfold ul_turn. destruct (ms_le _ _), (rd_pause (world k)), (rd_resume (world k)); simpl; lia. }
  destruct (ul_turn b date (world k) s) as [es [out|s']]; simpl in Hlen.
  { exists es, out. repeat split; [done|lia]. }
  destruct Ht as (p & Hp & Hl & Hr & Hle).
  destruct (IH (S k) s') as (es' & out & -> & Ho & Hn); [lia|lia|].
  exists (es ++ es'), out. split; [done|]. split; [by eapply outcome_step|].
  rewrite probes_app, length_app. lia.
Qed.

(** C31: the wait always ends, after at most [maxReprobes + 1] probes: with the
    member usable again exactly when a probe came back without the limit, with
    the budget error only when every probe still hit it and the reprobes or
    the wait were used up, and a cooperative stop is passed on. *)
Theorem usage_limit_ends (sig : option signal) :
  exists es out, onUsageLimit b date world sig = Some (es, out) /\
    outcome_of (ul_init sig) es out /\
    length (probes es) <= S (Z.to_nat (maxReprobes b)).
Proof. apply loop_outcome; [unfold ul_fuel; simpl; lia|done]. Qed.

(** ** Time *)

Hypothesis dates_parse : forall r, is_Some (date r).
Hypothesis ladder_some : backoffLadder b ≠ [].
Hypothesis floor_nonneg : (0 <= minWaitMs b)%Z.

Lemma ladder_at_Some l n : l ≠ [] -> (0 <= n)%Z -> is_Some (ladder_at l n).
Proof.
  intros Hl Hn. unfold ladder_at. destruct l as [|z l]; [done|]. simpl length.
  destruct (Z.ltb_spec (n `min` (Z.of_nat (S (length l)) - 1)) 0); [lia|].
  apply lookup_lt_is_Some. simpl. lia.
Qed.

Lemma target_Some s now : (0 <= u_reprobes s)%Z -> exists t, targetMs b date s now = Some t.
Proof.
  intros Hr. unfold targetMs. destruct (resume_time (u_signal s)) as [r|].
  - destruct (dates_parse r) as [d ->]. by eexists.
  - by apply ladder_at_Some.
Qed.

(** The wait of a turn that waits. *)
Lemma wait_bounds s now w :
  (0 <= u_reprobes s)%Z -> u_waited s = Some w -> (w < maxWaitMs b)%Z ->
  exists z, waitMs b date s now = Some z /\ (0 <= z)%Z /\ (w + z <= maxWaitMs b)%Z /\
    ((minWaitMs b <= z)%Z \/ (w + z)%Z = maxWaitMs b).
Proof.
  intros Hr Hw Hlt. destruct (target_Some s now Hr) as [t Ht].
  unfold waitMs, remainingMs. rewrite Ht, Hw. simpl. eexists. split; [done|]. lia.
Qed.

Definition wait_ok (w : Z) (es : list ul_event) (out : ul_outcome) : Prop :=
  exists t, total (slept es) = Some t /\ (0 <= t)%Z /\ (w + t <= Z.max w (maxWaitMs b))%Z /\
    Forall (fun x => exists z, x = Some z /\
              ((minWaitMs b <= z)%Z \/ (w + t)%Z = maxWaitMs b)) (slept es) /\
    match out with WaitExhausted d => x_waitedMs d = Some (w + t)%Z | _ => True end.

Lemma turn_wait r s w :
  (0 <= u_reprobes s)%Z -> u_waited s = Some w ->
  match ul_turn b date r s with
  | (es, inl out) => wait_ok w es out
  | (es, inr s') => exists z, slept es = [Some z] /\ u_waited s' = Some (w + z)%Z /\
      (0 <= z)%Z /\ (w + z < maxWaitMs b)%Z /\ (minWaitMs b <= z)%Z
  end.
Proof.
  intros Hr Hw. unfold ul_turn. unfold remainingMs at 1. rewrite Hw.
  change (ms_sub (Some (maxWaitMs b)) (Some w)) with (Some (maxWaitMs b - w)%Z).
  destruct (ms_le _ (Some 0%Z)) eqn:Hrem.
  { apply ms_le_Some in Hrem. exists 0%Z. simpl. repeat split; [lia|lia|constructor|].
    rewrite Hw. f_equal; lia. }
  assert (w < maxWaitMs b)%Z as Hlt by (apply Z.leb_gt in Hrem; lia).
  destruct (rd_pause r).
  { exists 0%Z. simpl. repeat split; [lia|lia|constructor]. }
  destruct (wait_bounds s (rd_now r) w Hr Hw Hlt) as (z & Hz & H0 & Hle & Hfl).
  assert (forall tl out, slept tl = [] ->
            match out with WaitExhausted d => x_waitedMs d = Some (w + z)%Z | _ => True end ->
            forall l, wait_ok w ([Paused l; Slept (waitMs b date s (rd_now r))] ++ tl) out) as Hend.
  { intros tl out Htl Hout l. exists z. rewrite slept_app, Htl. simpl. rewrite Hz. simpl.
    rewrite Z.add_0_r. repeat split; [lia|lia| |done]. repeat constructor. by exists z. }
  destruct (rd_resume r); [by apply (Hend [])|].
  destruct (rd_probe r) as [| |e]; [by apply (Hend [_; _])..|].
  destruct (isUsageLimitDispatchError e); [|by apply (Hend [_; _])]. cbn zeta.
  destruct (_ || _) eqn:Hstop.
  - apply (Hend [_; _]); [done|]. simpl. by rewrite Hz.
  - apply orb_false_iff in Hstop as [_ Hstop]. rewrite Hz in Hstop.
    apply Z.leb_gt in Hstop. exists z. simpl. rewrite Hz. simpl. repeat split; lia.
Qed.

Lemma loop_wait fuel k s w es out :
  (0 <= u_reprobes s)%Z -> u_waited s = Some w ->
  ul_loop fuel b date world k s = Some (es, out) -> wait_ok w es out.
Proof.
  revert k s w es out. induction fuel as [|fuel IH]; intros k s w es out Hr Hw Hl; [done|].
  cbn [ul_loop] in Hl. assert (Ht := turn_wait (world k) s w Hr Hw).
  assert (Ho := turn_outcome (world k) s).
  destruct (ul_turn b date (world k) s) as [es1 [out1|s1]]; [by simplify_eq|].
  destruct Ht as (z & Hs1 & Hw1 & Hz0 & Hlt & Hfl). destruct Ho as (_ & _ & _ & Hr1 & _).
  destruct (ul_loop fuel b date world (S k) s1) as [[es2 out2]|] eqn:Hl2; [|done].
  simpl in Hl. simplify_eq.
  destruct (IH (S k) s1 (w + z)%Z es2 out) as (t & Ht & Ht0 & Hle & Hall & Hx); [lia|done|done|].
  exists (z + t)%Z. rewrite slept_app, Hs1, total_app, Ht. simpl.
  split; [f_equal; lia|]. split; [lia|]. split; [lia|]. split.
  - constructor; [exists z; split; [done|by left]|].
    eapply Forall_impl; [exact Hall|]. intros x (y & -> & Hy). exists y. split; [done|].
    destruct Hy; [by left|right; lia].
  - destruct out; try done. rewrite Hx. f_equal; lia.
Qed.

End run.

(** ** Runs *)

Definition still_limited (sig : option signal) : probe :=
  ProbeFailed {| e_reason := Some "usage_limit"; e_usageLimit := sig |}.
Definition limited_round (sig : option signal) : round :=
  {| rd_now := 0; rd_pause := None; rd_resume := None; rd_probe := still_limited sig |}.

Definition minutes (m : Z) : Z := m * 60 * 1000.

(** A provider that answers on the fourth probe. *)
Definition fourth_ok (k : nat) : round :=
  if (k <? 3)%nat then limited_round None
  else {| rd_now := 0; rd_pause := None; rd_resume := None; rd_probe := ProbeOk |}.


(** a provider that stays limited and gives no resume time is probed seven
    times under the default budget of six reprobes, once more than the ladder
    has rungs. *)
Theorem default_budget_probes_seven_times :
  exists es d, onUsageLimit no_budgets (fun _ => None) (fun _ => limited_round None) None
                 = Some (es, WaitExhausted d) /\
    slept es = Some <$> (minutes <$> [15; 30; 60; 60; 60; 60; 60]%Z) /\
    length (probes es) = 7 /\ x_reprobes d = 7%Z /\ USAGE_LIMIT_MAX_REPROBES = 6%Z.
Proof. eexists _, _. split; [vm_compute; reflexivity|]. vm_compute. auto. Qed.

(** a resume time that does not parse makes every later wait [NaN]: the
    floor and the wait budget no longer apply, and the probes follow one
    another at once until the reprobes run out. *)
Theorem unparseable_resume_time_disables_floor :
  let bad := Some {| resumeAt := Some "soon" |} in
  exists es d, onUsageLimit no_budgets (fun _ => None)
                 (fun _ => limited_round None) bad
                 = Some (es, WaitExhausted d) /\
    slept es = replicate 7 None /\ x_waitedMs d = None.
Proof. eexists _, _. split; [vm_compute; reflexivity|]. vm_compute. auto. Qed.
