(* ===== verification/BeadGraph.v ===== *)
(** * The bead graph of a sprint ([fleet-sprint/beads-scope.mjs])

    Prerequisites, lanes, scope discovery, the verify set and the goal filters:
    the decisions the runner takes from one [bd list --all] listing.  A listing
    has no null entry and its ids are strings, as [bd] prints them; the other
    fields are untyped.  [JSON.parse] of a metadata text ([None]: it throws)
    and [localeCompare] ([locale_le a b]: not positive) are arguments. *)

From Stdlib Require Import Ascii QArith.
From S2P Require Import Prelude JsMap JsVal Text Closure.
Local Open Scope string_scope.
Local Open Scope list_scope.

Record rbead := {
  r_id : string; r_status : jsval; r_parent : jsval; r_priority : jsval;
  r_title : jsval; r_dependencies : jsval; r_metadata : jsval
}.

Definition closed (b : rbead) : bool := is_str "closed" (r_status b).
Definition is_open (b : rbead) : bool := negb (closed b).

(** [Array.isArray(v) ? v : []] *)
Definition elements (v : jsval) : list jsval := default [] (as_arr v).

(** ** Dependencies *)

(** A dependency's id: [d.depends_on_id ?? d.id], when it is one. *)
Definition dep_target (d : jsval) : option string :=
  as_nonempty_str (coalesce (prop "depends_on_id" d) (prop "id" d)).

(** One entry of [blocksPrereqIds]. *)
Definition prereq_of (d : jsval) : option string :=
  match d with
  | JStr s => if nonempty s then Some s else None
  | JObj _ | JArr _ =>
      let type := coalesce (prop "type" d) (prop "dependency_type" d) in
      match type with
      | JUndef => dep_target d
      | _ => if is_str "blocks" type then dep_target d else None
      end
  | _ => None
  end.

Definition blocksPrereqIds (b : rbead) : list string := omap prereq_of (elements (r_dependencies b)).

(** ** Lanes *)

Record lane := { ln_streak : string; ln_order : Q }.

Section metadata.
Context (json_parse : string -> option jsval).

(** The metadata as an object; other values have no properties. *)
Definition metadataOf (b : rbead) : jsval :=
  let m := r_metadata b in
  if negb (truthy m) then JObj []
  else match m with
       | JStr s => match json_parse s with
                   | Some p => if truthy p && typeof_object p then p else JObj []
                   | None => JObj []
                   end
       | _ => if typeof_object m then m else JObj []
       end.

(** [typeof raw === 'number' ? raw : Number.parseInt(raw, 10)], when finite. *)
Definition order_of (raw : jsval) : option Q :=
  match raw with
  | JNum _ => as_Q raw
  | JStr s => inject_Z <$> parse_int s
  | _ => None
  end.

Definition laneOf (b : rbead) : option lane :=
  let m := metadataOf b in
  match prop "streak" m with
  | JStr streak =>
      if nonempty (trim streak)
      then o ← order_of (prop "streakOrder" m); Some {| ln_streak := streak; ln_order := o |}
      else None
  | _ => None
  end.

(** [m] comes before [b] in [b]'s lane. *)
Definition lane_before (m b : rbead) : bool :=
  match laneOf m, laneOf b with
  | Some ml, Some bl => bool_decide (ln_streak ml = ln_streak bl) && Qltb (ln_order ml) (ln_order bl)
  | _, _ => false
  end.

(** ** Unmet prerequisites *)

(** [indexById(beads).values()]: the first bead of each id. *)
Definition indexById (beads : list rbead) : list rbead := (absorb r_id [] beads).2.

(** [byId.get(id)] *)
Definition find_bead (id : string) (beads : list rbead) : option rbead :=
  jget id ((fun b => (r_id b, b)) <$> beads).

Record unmet := { un_inScope : list string; un_outOfScope : list string }.

(** The last bead of each id, [byId.set] in order. *)
Definition last_bead (id : string) (beads : list rbead) : option rbead :=
  find_bead id (reverse beads).

Context (locale_le : string -> string -> bool).

(** The lane order, then the id. *)
Definition mate_le (a b : rbead) : bool :=
  match laneOf a, laneOf b with
  | Some la, Some lb =>
      Qltb (ln_order la) (ln_order lb)
      || (Qeq_bool (ln_order la) (ln_order lb) && locale_le (r_id a) (r_id b))
  | _, _ => true
  end.

Definition lower_open_mates (bead : rbead) (scope : list rbead) : list rbead :=
  stable_sort mate_le
    (filter (fun m => negb (bool_decide (r_id m = r_id bead)) && is_open m
                      && lane_before m bead = true) (indexById scope)).

Definition push_new (l : list string) (x : string) : list string :=
  if decide (x ∈ l) then l else l ++ [x].

Definition unmetPrerequisites (bead : rbead) (scope all : list rbead) : unmet :=
  let pres := filter (fun pre => pre ≠ r_id bead) (blocksPrereqIds bead) in
  let inScope := filter (fun pre => match find_bead pre scope with
                                    | Some b => is_open b | None => false end = true) pres in
  let outOfScope := filter (fun pre => match find_bead pre scope with
                                       | Some _ => false
                                       | None => match find_bead pre all with
                                                 | Some b => is_open b | None => false end
                                       end = true) pres in
  {| un_inScope := foldl push_new inScope (r_id <$> lower_open_mates bead scope);
     un_outOfScope := outOfScope |}.

(** ** Dependents *)

(** A dependent on the queue: its id, the root of its chain, its bead's state. *)
Record reached := { rc_id : string; rc_root : string; rc_open : bool }.

(** [dependentsOf.get(id) || []] *)
Definition dependents_of (scope : list rbead) (id : string) : list rbead :=
  b ← scope; (fun _ => b) <$> filter (fun pre => pre = id) (blocksPrereqIds b).

Definition follow_dependents (scope : list rbead) (x : reached) : list reached :=
  (fun b => {| rc_id := r_id b; rc_root := rc_root x; rc_open := is_open b |})
    <$> dependents_of scope (rc_id x).

Definition openBlocksDependents (rootIds : list string) (scope : list rbead)
    : option (list (string * string)) :=
  let roots := dedup rootIds in
  let queue : list reached :=
    (fun id => {| rc_id := id; rc_root := id; rc_open := true |}) <$> roots in
  match bfs rc_id rc_open (follow_dependents scope) (length roots + length scope) roots [] queue with
  | Some (_, out) => Some ((fun x => (rc_id x, rc_root x)) <$> filter (fun x => rc_open x = true) out)
  | None => None
  end.

(** ** Goals *)

(** [Number(digits)], for the tiers of a goal. *)
Definition tier_number (p : string) : option Z :=
  let d := String.substring 1 (String.length p - 1) p in
  if string_all digit_char d then Some (Z.of_N (digits_value 0 d)) else None.

(** The number of [goalPriorityMax(goal)]; [None] is [NaN]. *)
Definition goal_max_number (goal : string) : option Z :=
  foldr (fun t acc => x ← t; y ← acc; Some (Z.max x y)) (Some 0%Z)
        (tier_number <$> split_on "/"%char goal).

Definition goalPriorityMax (goal : string) : string :=
  match goal_max_number goal with Some n => "P" +:+ pretty n | None => "PNaN" end.

Definition isBelowGoal (goal : string) (b : rbead) : bool :=
  match as_Q (r_priority b), goal_max_number goal with
  | Some p, Some g => Qltb (inject_Z g) p
  | _, _ => false
  end.

(** ** Sprint or backlog *)

(** The targets of the [blocks] entries, in [bd list]'s shape. *)
Definition list_blocks (b : rbead) : list string :=
  omap (fun d => if is_str "blocks" (prop "type" d) then as_str (prop "depends_on_id" d) else None)
       (elements (r_dependencies b)).

(** The parent, when the dataset has it ([hasInDatasetParent]). *)
Definition dataset_parent (tasks : list rbead) (b : rbead) : option rbead :=
  p ← as_str (r_parent b); last_bead p tasks.

(** [rootOf], walking at most [fuel] parents. *)
Fixpoint root_loop (fuel : nat) (tasks : list rbead) (seen : list string) (cur : rbead)
    : option rbead :=
  match dataset_parent tasks cur with
  | None => Some cur
  | Some p =>
      if decide (r_id cur ∈ seen) then Some cur
      else match fuel with
           | O => None
           | S fuel' => root_loop fuel' tasks (seen ++ [r_id cur]) p
           end
  end.
Definition rootOf (tasks : list rbead) (b : rbead) : option rbead :=
  root_loop (S (length tasks)) tasks [] b.

Definition topLevel (tasks : list rbead) : list rbead :=
  filter (fun b => negb (bool_decide (is_Some (r_id <$> dataset_parent tasks b))) = true) tasks.

Definition inGoalTopIds (goal : string) (tasks : list rbead) : list string :=
  r_id <$> filter (fun b => negb (isBelowGoal goal b) = true) (topLevel tasks).

Definition sprintTopIds (goal : string) (tasks : list rbead) : list string :=
  let inGoal := inGoalTopIds goal tasks in
  let outgoing := r_id <$> filter (fun b => existsb (fun d => bool_decide (d ∈ inGoal)) (list_blocks b)
                                            = true) (topLevel tasks) in
  let incoming := b ← filter (fun b => bool_decide (r_id b ∈ inGoal) = true) (topLevel tasks);
                  filter (fun d => match last_bead d tasks with
                                   | Some o => negb (bool_decide (is_Some (r_id <$> dataset_parent tasks o)))
                                   | None => false end = true) (list_blocks b) in
  dedup (inGoal ++ outgoing ++ incoming).

Definition in_sprint (goal : string) (tasks : list rbead) (b : rbead) : option bool :=
  root ← rootOf tasks b; Some (bool_decide (r_id root ∈ sprintTopIds goal tasks)).

(** [sprintTasks] and [backlogTasks]; the [placement] tag is which of the two. *)
Record membership := { mb_sprint : list rbead; mb_backlog : list rbead }.

Definition partitionByGoalMembership (tasks : list rbead) (goal : string) : option membership :=
  placed ← mapM (fun b => p ← in_sprint goal tasks b; Some (b, p : bool)) tasks;
  Some {| mb_sprint := (filter (fun x => x.2 = true) placed).*1;
          mb_backlog := (filter (fun x => x.2 = false) placed).*1 |}.

Record deferred_split := { ds_active : list rbead; ds_deferredIds : list string }.

(** [bead.status.trim().toLowerCase() === 'deferred'] *)
Definition is_deferred (b : rbead) : bool :=
  match r_status b with JStr s => bool_decide (toLowerCase (trim s) = "deferred") | _ => false end.

Definition partitionDeferredBeads (beads : list rbead) : deferred_split :=
  {| ds_active := filter (fun b => negb (is_deferred b) = true) beads;
     ds_deferredIds := r_id <$> filter (fun b => is_deferred b = true) beads |}.

(** ** Which ready beads may be dispatched *)

Definition prereqsOf (byId : list rbead) (id : string) : list string :=
  match find_bead id byId with
  | Some b =>
      blocksPrereqIds b ++
      (r_id <$> filter (fun m => is_open m && lane_before m b = true) byId)
  | None => []
  end.

Definition all_keep {A} (_ : A) : bool := true.

(** The ids a ready set and a scope name, which bounds both walks. *)
Definition named_ids (byId : list rbead) : list string :=
  (r_id <$> byId) ++ (b ← byId; blocksPrereqIds b).

(** What open in-goal beads wait for, transitively. *)
Definition serves_goal (goal : string) (byId : list rbead) : option (list string) :=
  let start := r_id <$> filter (fun b => is_open b && negb (isBelowGoal goal b) = true) byId in
  match bfs (fun x => x) all_keep (prereqsOf byId)
            (length start + length (named_ids byId)) start [] start with
  | Some (visited, _) => Some (dedup (x ← visited; prereqsOf byId x))
  | None => None
  end.

(** The same, started from the beads already worked on. *)
Definition serves_worked (byId : list rbead) (serves worked : list string) : option (list string) :=
  match bfs (fun x => x) all_keep (prereqsOf byId)
            (length worked + length (named_ids byId)) serves [] worked with
  | Some (s, _) => Some s
  | None => None
  end.

Record ready_split := { rs_dispatchable : list rbead; rs_excluded : list (string * jsval) }.

Definition partitionReadyByGoal (ready scope : list rbead) (goal : string) (workedOnIds : list string)
    : option ready_split :=
  let byId := indexById (scope ++ ready) in
  serves0 ← serves_goal goal byId;
  serves ← serves_worked byId serves0
             (r_id <$> filter (fun b => bool_decide (r_id b ∈ workedOnIds) = true) ready);
  let keep := fun b => negb (isBelowGoal goal b) || bool_decide (r_id b ∈ workedOnIds)
                       || bool_decide (r_id b ∈ serves) in
  Some {| rs_dispatchable := filter (fun b => keep b = true) ready;
          rs_excluded := (fun b => (r_id b, r_priority b)) <$>
                         filter (fun b => negb (keep b) = true) ready |}.
End metadata.

(** ** Scope discovery *)

(** A bead's parent id, when it has one. *)
Definition parent_id (b : rbead) : option string := as_nonempty_str (r_parent b).

Definition childrenOf (beads : list rbead) : list (string * list rbead) := group_by parent_id beads.
Definition kids (beads : list rbead) (id : string) : list rbead :=
  default [] (jget id (childrenOf beads)).

Definition scope_next (beads : list rbead) (id : string) : list string := r_id <$> kids beads id.

Definition discoverScope (beads : list rbead) (targets : list string) : option (list string) :=
  match bfs (fun x => x) all_keep (scope_next beads) (length targets + length beads)
            [] [] targets with
  | Some (_, out) => Some (dedup (out ++ targets))
  | None => None
  end.

(** ** The verify set *)

Record verify_set := { vs_verifyIds : list string; vs_ineligible : list (string * string) }.

(** [(bead.dependencies || []).filter(d => d.type === 'blocks')...]: the open
    blockers; an entry that is null makes the property access throw. *)
Definition unmet_blockers (beads : list rbead) (b : rbead) : result (list string) :=
  let deps := elements (r_dependencies b) in
  if existsb nullish deps then Throw (TypeErr "Cannot read properties of null (reading 'type')")
  else Ok (filter (fun id => match last_bead id beads with
                             | Some d => is_open d | None => false end = true)
                  (omap (fun d => if is_str "blocks" (prop "type" d)
                                  then as_str (prop "depends_on_id" d) else None) deps)).

Definition verify_step (beads : list rbead) (vs : verify_set) (id : string) : result verify_set :=
  match last_bead id beads with
  | None => Ok vs
  | Some bead =>
      if negb (is_str "open" (r_status bead) || is_str "in_progress" (r_status bead)) then Ok vs
      else
        match kids beads id with
        | [] => Ok vs
        | ks =>
            if negb (forallb closed ks) then Ok vs
            else
              unmet ← unmet_blockers beads bead;
              Ok (match unmet with
                  | [] => {| vs_verifyIds := vs_verifyIds vs ++ [id]; vs_ineligible := vs_ineligible vs |}
                  | _ => {| vs_verifyIds := vs_verifyIds vs;
                            vs_ineligible := vs_ineligible vs ++ [(id, "unmet blocker(s): " +:+ joinS ", " unmet)] |}
                  end)
        end
  end.

Fixpoint verify_loop (beads : list rbead) (vs : verify_set) (ids : list string) : result verify_set :=
  match ids with
  | [] => Ok vs
  | id :: ids' => vs' ← verify_step beads vs id; verify_loop beads vs' ids'
  end.

Definition classifyVerifySet (beads : list rbead) (targets : list string) : option (result verify_set) :=
  scope ← discoverScope beads targets;
  Some (verify_loop beads {| vs_verifyIds := []; vs_ineligible := [] |} scope).
