(* ===== verification/BeadGraphProps.v ===== *)
(** * What the bead graph decisions compute

    Scope, verify set, prerequisites, dependents and the goal filter are
    characterised by the graph's edges; their loops terminate within the fuel
    [BeadGraph] gives them. *)

From Stdlib Require Import Ascii QArith.
From S2P Require Import Prelude JsMap JsVal Text Closure BeadGraph.
Local Open Scope string_scope.
Local Open Scope list_scope.

(** ** Looking beads up *)

Lemma find_bead_elem id beads b : find_bead id beads = Some b -> b ∈ beads /\ r_id b = id.
Proof.
  unfold find_bead. intros Hj%jget_Some_elem.
  apply list_elem_of_fmap in Hj as (b' & [= -> ->] & Hb). done.
Qed.

Lemma find_bead_None id beads : find_bead id beads = None <-> id ∉ r_id <$> beads.
Proof.
  unfold find_bead. rewrite jget_None. by rewrite <-list_fmap_compose.
Qed.

(** With unique ids, a bead is found under its id. *)
Lemma find_bead_NoDup beads b :
  NoDup (r_id <$> beads) -> b ∈ beads -> find_bead (r_id b) beads = Some b.
Proof.
  intros Hnd Hb. unfold find_bead. apply jget_elem.
  - unfold jwf. by rewrite <-list_fmap_compose.
  - apply list_elem_of_fmap. by exists b.
Qed.

Lemma last_bead_elem id beads b : last_bead id beads = Some b -> b ∈ beads /\ r_id b = id.
Proof. intros Hb. apply find_bead_elem in Hb. by rewrite elem_of_reverse in Hb. Qed.

Lemma last_bead_NoDup beads b :
  NoDup (r_id <$> beads) -> b ∈ beads -> last_bead (r_id b) beads = Some b.
Proof.
  intros Hnd Hb. unfold last_bead. apply find_bead_NoDup.
  - by rewrite reverse_Permutation.
  - by rewrite elem_of_reverse.
Qed.

Lemma bead_id_inj beads a b :
  NoDup (r_id <$> beads) -> a ∈ beads -> b ∈ beads -> r_id a = r_id b -> a = b.
Proof.
  intros Hnd Ha Hb Heq. apply (find_bead_NoDup _ _ Hnd) in Ha, Hb. congruence.
Qed.

(** ** Scope discovery *)

(** [id] is a descendant of [anc] over parent edges. *)
Inductive descends (beads : list rbead) (anc : string) : string -> Prop :=
| descends_child b : b ∈ beads -> parent_id b = Some anc -> descends beads anc (r_id b)
| descends_deeper x b : descends beads anc x -> b ∈ beads -> parent_id b = Some x ->
    descends beads anc (r_id b).

Lemma elem_of_kids beads id b : b ∈ kids beads id <-> b ∈ beads /\ parent_id b = Some id.
Proof. unfold kids, childrenOf. rewrite jget_group_by, list_elem_of_filter. naive_solver. Qed.

Lemma elem_of_scope_next beads id x :
  x ∈ scope_next beads id <-> exists b, b ∈ beads /\ parent_id b = Some id /\ x = r_id b.
Proof. unfold scope_next. rewrite list_elem_of_fmap. setoid_rewrite elem_of_kids. naive_solver. Qed.

Lemma found_descends beads anc id :
  found_from all_keep (scope_next beads) anc id <-> descends beads anc id.
Proof.
  split.
  - induction 1 as [y Hy|y z _ IH _ Hz].
    + apply elem_of_scope_next in Hy as (b & Hb & Hp & ->). by constructor.
    + apply elem_of_scope_next in Hz as (b & Hb & Hp & ->). by econstructor.
  - induction 1 as [b Hb Hp|x b _ IH Hb Hp].
    + apply found_next, elem_of_scope_next. eauto.
    + eapply found_step; [exact IH|done|]. apply elem_of_scope_next. eauto.
Qed.

Lemma unseen_le {K} `{EqDecision K} (seen U : list K) : unseen seen U <= length U.
Proof. apply length_filter. Qed.

Lemma id_key_ok (next : string -> list string) : key_ok (fun x => x) all_keep next (fun _ => True).
Proof. split; [done|]. by intros a b _ _ ->. Qed.

Lemma discoverScope_spec (beads : list rbead) (targets : list string) :
  exists scope, discoverScope beads targets = Some scope /\ NoDup scope /\
    forall id, id ∈ scope <-> id ∈ targets \/ exists t, t ∈ targets /\ descends beads t id.
Proof.
  unfold discoverScope.
  destruct (bfs_total (fun x => x) all_keep (scope_next beads) (r_id <$> beads)
              (length targets + length beads) [] [] targets) as (s & out & Hb).
  { intros x y (b & Hb & _ & ->)%elem_of_scope_next. by apply list_elem_of_fmap_2. }
  { pose proof (unseen_le [] (r_id <$> beads)) as Hu. rewrite length_fmap in Hu. lia. }
  rewrite Hb. eexists. split; [done|]. split; [apply NoDup_dedup|].
  intros id. rewrite elem_of_dedup, elem_of_app. setoid_rewrite <-found_descends.
  pose proof (bfs_closed _ _ _ _ _ _ _ _ _ Hb) as (new & -> & -> & _).
  rewrite list_fmap_id in Hb. simpl in Hb. split.
  - intros [Hid|Hid]; [right|by left].
    destruct (bfs_found _ _ _ _ _ _ _ _ Hb id Hid) as (t & Ht & Hf). eauto.
  - intros [Hid|(t & Ht & Hf)]; [by right|left].
    apply (bfs_complete _ _ _ _ _ _ _ _ _ (id_key_ok _)) with (x := t) (y := id) in Hb;
      [done|set_solver|done|done].
Qed.

(** the scope of a sprint is its target issues and all their descendants
    over parent edges, at any depth and of any status, each once; the walk
    terminates on every listing, cyclic parents included. *)
Theorem discoverScope_exact (beads : list rbead) (targets : list string) :
  exists scope, discoverScope beads targets = Some scope /\ NoDup scope /\
    forall id, id ∈ scope <-> id ∈ targets \/ exists t, t ∈ targets /\ descends beads t id.
Proof. apply discoverScope_spec. Qed.

(** ** The verify set *)

(** The entries of [dependencies] can be read. *)
Definition deps_ok (b : rbead) : Prop := existsb nullish (elements (r_dependencies b)) = false.

(** A bead of the listing that a parent's [blocks] entry names is still open. *)
Definition blocked_by (beads : list rbead) (b : rbead) : Prop :=
  exists d o, d ∈ elements (r_dependencies b) /\ is_str "blocks" (prop "type" d) = true /\
    o ∈ beads /\ prop "depends_on_id" d = JStr (r_id o) /\ is_open o = true.

(** Every child is closed, and there is one. *)
Definition implemented (beads : list rbead) (id : string) : Prop :=
  kids beads id ≠ [] /\ forall k, k ∈ beads -> parent_id k = Some id -> closed k = true.

Definition verifiable (beads : list rbead) (b : rbead) : Prop :=
  (r_status b = JStr "open" \/ r_status b = JStr "in_progress") /\
  implemented beads (r_id b) /\ ~ blocked_by beads b.

Lemma unmet_blockers_nil beads b ids :
  NoDup (r_id <$> beads) -> unmet_blockers beads b = Ok ids ->
  (ids = [] <-> ~ blocked_by beads b).
Proof.
  unfold unmet_blockers. intros Hnd. destruct (existsb _ _); [done|]. intros [= <-].
  rewrite list_filter_nil. setoid_rewrite list_elem_of_omap. split.
  - intros Hn (d & o & Hd & Ht & Ho & Hdo & Hop).
    apply (Hn (r_id o)); [|by rewrite last_bead_NoDup].
    exists d. split; [done|]. by rewrite Ht, Hdo.
  - intros Hb id (d & Hd & Hdo) Hl. apply Hb.
    destruct (is_str "blocks" (prop "type" d)) eqn:Ht; [|done].
    destruct (last_bead id beads) as [o|] eqn:Hid; [|done].
    apply last_bead_elem in Hid as [Ho <-]. exists d, o. repeat split; try done.
    by destruct (prop "depends_on_id" d); simplify_eq/=.
Qed.

Lemma forallb_closed beads id :
  forallb closed (kids beads id) = true <->
  forall k, k ∈ beads -> parent_id k = Some id -> closed k = true.
Proof.
  rewrite forallb_forall. setoid_rewrite <-list_elem_of_In. setoid_rewrite elem_of_kids. naive_solver.
Qed.

Lemma verify_step_spec beads vs id :
  NoDup (r_id <$> beads) -> Forall deps_ok beads ->
  exists vs', verify_step beads vs id = Ok vs' /\
    forall x, x ∈ vs_verifyIds vs' <->
      x ∈ vs_verifyIds vs \/ (x = id /\ exists b, b ∈ beads /\ r_id b = id /\ verifiable beads b).
Proof.
  intros Hnd Hok. unfold verify_step.
  assert (Hskip : (forall b, b ∈ beads -> r_id b = id -> ~ verifiable beads b) ->
            forall x, x ∈ vs_verifyIds vs <-> x ∈ vs_verifyIds vs \/
              (x = id /\ exists b, b ∈ beads /\ r_id b = id /\ verifiable beads b)).
  { intros Hn x. split; [by left|]. intros [?|(_ & b & Hb & Hi & Hv)]; [done|]. by destruct (Hn b Hb Hi). }
  destruct (last_bead id beads) as [bead|] eqn:Hid.
  2:{ exists vs. split; [done|]. apply Hskip. intros b Hb <-. by rewrite last_bead_NoDup in Hid. }
  apply last_bead_elem in Hid as [Hbead <-].
  assert (Huniq : forall b, b ∈ beads -> r_id b = r_id bead -> b = bead).
  { intros b Hb Heq. by eapply bead_id_inj. }
  destruct (is_str "open" (r_status bead) || is_str "in_progress" (r_status bead)) eqn:Hst; cbn [negb].
  2:{ exists vs. split; [done|]. apply Hskip. intros b Hb Heq%Huniq (Hs & _); [|done]. subst b.
      apply orb_false_iff in Hst as [H1 H2]. by destruct Hs as [Hs|Hs]; rewrite Hs in H1, H2. }
  apply orb_true_iff in Hst. rewrite !is_str_spec in Hst.
  destruct (kids beads (r_id bead)) as [|k ks] eqn:Hk.
  { exists vs. split; [done|]. apply Hskip. intros b Hb Heq%Huniq (_ & (Hi & _) & _); [|done]. by subst b. }
  destruct (forallb closed (k :: ks)) eqn:Hcl.
  2:{ exists vs. split; [done|]. apply Hskip.
      intros b Hb Heq%Huniq (_ & (_ & Hc) & _); [|done]. subst b.
      apply forallb_closed in Hc. rewrite Hk in Hc. congruence. }
  assert (Hall : forall k, k ∈ beads -> parent_id k = Some (r_id bead) -> closed k = true)
    by (apply forallb_closed; by rewrite Hk).
  assert (exists ids, unmet_blockers beads bead = Ok ids) as [ids Hids].
  { unfold unmet_blockers. eapply Forall_forall in Hok; [|done]. rewrite Hok. eauto. }
  pose proof (unmet_blockers_nil beads bead ids Hnd Hids) as Hnil.
  cbn [negb]. rewrite Hids. cbn [mbind result_bind].
  destruct ids as [|i ids]; eexists; (split; [reflexivity|]); simpl.
  - intros x. rewrite elem_of_app, list_elem_of_singleton. split; [|naive_solver].
    intros [Hx|Hx]; [by left|right]. split; [done|]. exists bead. split; [done|]. split; [done|].
    split; [naive_solver|]. split; [split; [by rewrite Hk|done]|by apply Hnil].
  - apply Hskip. intros b Hb Heq%Huniq (_ & _ & Hnb); [|done]. subst b. by apply Hnil in Hnb.
Qed.

Lemma verify_loop_spec beads ids vs :
  NoDup (r_id <$> beads) -> Forall deps_ok beads ->
  exists vs', verify_loop beads vs ids = Ok vs' /\
    forall x, x ∈ vs_verifyIds vs' <->
      x ∈ vs_verifyIds vs \/ (x ∈ ids /\ exists b, b ∈ beads /\ r_id b = x /\ verifiable beads b).
Proof.
  intros Hnd Hok. revert vs. induction ids as [|id ids IH]; intros vs; simpl.
  { exists vs. split; [done|]. set_solver. }
  destruct (verify_step_spec beads vs id Hnd Hok) as (vs1 & -> & H1). cbn [mbind result_bind].
  destruct (IH vs1) as (vs2 & -> & H2). exists vs2. split; [done|].
  intros x. rewrite H2, H1. set_solver.
Qed.


Definition mk (id status : string) (parent : jsval) (deps : list jsval) (meta : jsval) : rbead :=
  {| r_id := id; r_status := JStr status; r_parent := parent; r_priority := jint 1;
     r_title := JStr id; r_dependencies := JArr deps; r_metadata := meta |}.
Definition blocks_on (id : string) : jsval := JObj [("type", JStr "blocks"); ("depends_on_id", JStr id)].

(** An epic whose two tasks are closed, one waiting for an open bead. *)
Definition verify_rows : list rbead :=
  [mk "e" "open" JNull [] JNull; mk "e.1" "closed" (JStr "e") [] JNull;
   mk "f" "open" (JStr "e") [blocks_on "g"] JNull; mk "f.1" "closed" (JStr "f") [] JNull;
   mk "g" "in_progress" JNull [] JNull; mk "g.1" "closed" (JStr "g") [] JNull].


(** ** Dependents *)

Lemma elem_of_dependents scope id b :
  b ∈ dependents_of scope id <-> b ∈ scope /\ id ∈ blocksPrereqIds b.
Proof.
  unfold dependents_of. rewrite list_elem_of_bind.
  setoid_rewrite list_elem_of_fmap. setoid_rewrite list_elem_of_filter. naive_solver.
Qed.

(** [id] is an open bead that waits for [root], directly or through open
    beads, over [blocks] edges. *)
Inductive waits_on (scope : list rbead) (root : string) : string -> Prop :=
| waits_direct b : b ∈ scope -> is_open b = true -> root ∈ blocksPrereqIds b ->
    waits_on scope root (r_id b)
| waits_through x b : waits_on scope root x -> b ∈ scope -> is_open b = true ->
    x ∈ blocksPrereqIds b -> waits_on scope root (r_id b).

Lemma follow_spec scope x y :
  y ∈ follow_dependents scope x <->
  exists b, b ∈ scope /\ rc_id x ∈ blocksPrereqIds b /\
    y = {| rc_id := r_id b; rc_root := rc_root x; rc_open := is_open b |}.
Proof.
  unfold follow_dependents. rewrite list_elem_of_fmap. setoid_rewrite elem_of_dependents. naive_solver.
Qed.

Lemma found_waits scope x y :
  rc_id x = rc_root x -> found_from rc_open (follow_dependents scope) x y ->
  rc_root y = rc_root x /\ (rc_open y = true -> waits_on scope (rc_root x) (rc_id y)).
Proof.
  intros Hx. induction 1 as [y Hy|y z _ IH Hk Hz].
  - apply follow_spec in Hy as (b & Hb & Hp & ->). simpl. split; [done|].
    intros Ho. apply waits_direct; [done|done|congruence].
  - destruct IH as [Hr Hw]. apply follow_spec in Hz as (b & Hb & Hp & ->). simpl.
    split; [done|]. intros Ho. eapply waits_through; [by apply Hw|done..].
Qed.

Lemma waits_found scope root id :
  waits_on scope root id ->
  exists y, rc_id y = id /\ rc_open y = true /\
    found_from rc_open (follow_dependents scope) {| rc_id := root; rc_root := root; rc_open := true |} y.
Proof.
  induction 1 as [b Hb Ho Hp|x b _ IH Hb Ho Hp].
  - exists {| rc_id := r_id b; rc_root := root; rc_open := is_open b |}.
    split; [done|]. split; [done|]. apply found_next, follow_spec. eauto.
  - destruct IH as (y & <- & Hk & Hf).
    exists {| rc_id := r_id b; rc_root := rc_root y; rc_open := is_open b |}.
    split; [done|]. split; [done|]. eapply found_step; [exact Hf|done|]. apply follow_spec. eauto.
Qed.

Lemma follow_keys scope a b :
  rc_id a = rc_id b -> (rc_id <$> follow_dependents scope a) = (rc_id <$> follow_dependents scope b).
Proof.
  intros Heq. unfold follow_dependents. rewrite Heq, <-!list_fmap_compose. done.
Qed.

(** What the walk queues describes a bead of the scope. *)
Definition describes (scope : list rbead) (y : reached) : Prop :=
  exists b, b ∈ scope /\ rc_id y = r_id b /\ rc_open y = is_open b.

Lemma found_describes scope x y :
  found_from rc_open (follow_dependents scope) x y -> describes scope y.
Proof. inversion 1; subst; match goal with H : _ ∈ follow_dependents _ _ |- _ =>
  apply follow_spec in H as (b & Hb & _ & ->) end; by exists b. Qed.

Lemma describes_alike scope a c :
  NoDup (r_id <$> scope) -> describes scope a -> describes scope c -> rc_id a = rc_id c ->
  rc_open a = rc_open c.
Proof.
  intros Hnd (b & Hb & Ha & Hoa) (d & Hd & Hc & Hoc) Heq.
  assert (b = d) as -> by (eapply bead_id_inj; eauto; congruence). congruence.
Qed.

Lemma dependents_key_ok scope :
  NoDup (r_id <$> scope) -> key_ok rc_id rc_open (follow_dependents scope) (describes scope).
Proof.
  intros Hnd. split; [intros x z (b & Hb & _ & ->)%follow_spec; by exists b|].
  intros a c Ha Hc Heq. split; [by eapply describes_alike|by apply follow_keys].
Qed.

Lemma dependents_spec (rootIds : list string) (scope : list rbead) :
  NoDup (r_id <$> scope) ->
  exists out, openBlocksDependents rootIds scope = Some out /\ NoDup out.*1 /\
    (forall id root, (id, root) ∈ out -> root ∈ rootIds /\ id ∉ rootIds /\ waits_on scope root id) /\
    (forall id root, root ∈ rootIds -> waits_on scope root id -> id ∈ rootIds \/ id ∈ out.*1).
Proof.
  intros Hnd. unfold openBlocksDependents. set (roots := dedup rootIds).
  set (seed := fun id => {| rc_id := id; rc_root := id; rc_open := true |}).
  destruct (bfs_total rc_id rc_open (follow_dependents scope) (r_id <$> scope)
              (length roots + length scope) roots [] (seed <$> roots)) as (s & out & Hb).
  { intros x y (b & Hb & _ & ->)%follow_spec. by apply (list_elem_of_fmap_2 r_id). }
  { pose proof (unseen_le roots (r_id <$> scope)) as Hu. rewrite length_fmap in Hu.
    rewrite length_fmap. lia. }
  rewrite Hb. eexists. split; [done|].
  destruct (bfs_closed _ _ _ _ _ _ _ _ _ Hb) as (new & -> & -> & Hndn & Hnew & Hq & Hc).
  cbn [app] in *.
  assert (Hroots : forall id, id ∈ roots <-> id ∈ rootIds) by apply elem_of_dedup.
  assert (Hin : forall id root, (id, root) ∈ (fun x => (rc_id x, rc_root x)) <$>
                  filter (fun x => rc_open x = true) new <->
                exists x, x ∈ new /\ rc_open x = true /\ rc_id x = id /\ rc_root x = root).
  { intros id root. rewrite list_elem_of_fmap. setoid_rewrite list_elem_of_filter. naive_solver. }
  split; [|split].
  - rewrite <-list_fmap_compose. eapply sublist_NoDup; [exact Hndn|].
    apply (fmap_sublist rc_id), sublist_filter.
  - intros id root (x & Hx & Ho & <- & <-)%Hin.
    destruct (bfs_found _ _ _ _ _ _ _ _ Hb x Hx) as (r & Hr & Hf).
    apply list_elem_of_fmap in Hr as (rid & -> & Hrid).
    apply found_waits in Hf as [Hroot Hw]; [|done]. simpl in *. rewrite Hroot.
    split; [by apply Hroots|]. split; [|by apply Hw]. rewrite <-Hroots. by apply Hnew.
  - intros id root Hroot (y & <- & Ho & Hf)%waits_found.
    assert (rc_id y ∈ roots ++ (rc_id <$> new)) as Hy.
    { refine (bfs_complete _ _ _ _ _ _ _ _ _ (dependents_key_ok scope Hnd) _ Hb (seed root) y _ Hf).
      - intros x z Hx _ Hz.
        assert (rc_id z ∈ rc_id <$> follow_dependents scope (seed (rc_id x))) as Hz'.
        { rewrite (follow_keys scope _ x) by done. by apply list_elem_of_fmap_2. }
        apply list_elem_of_fmap in Hz' as (z' & -> & Hz').
        apply (Hq (seed (rc_id x))); [by apply (list_elem_of_fmap_2 seed)|done].
      - apply (list_elem_of_fmap_2 seed). by apply Hroots. }
    apply elem_of_app in Hy as [Hy|Hy]; [left; by apply Hroots|right].
    apply list_elem_of_fmap in Hy as (y' & Heq & Hy'). rewrite <-list_fmap_compose.
    assert (Hy'2 := Hy'). apply (bfs_found _ _ _ _ _ _ _ _ Hb) in Hy'2 as (r & _ & Hr).
    rewrite Heq. apply (list_elem_of_fmap_2 rc_id), list_elem_of_filter. split; [|done].
    by rewrite <-(describes_alike scope y y' Hnd (found_describes _ _ _ Hf) (found_describes _ _ _ Hr) Heq).
Qed.

(** the dependents of a set of beads are exactly the open beads that wait
    for one of them over [blocks] edges, directly or through other open beads,
    the set itself left out; each appears once, with a root of the set that it
    waits for, and the walk terminates. *)
Theorem openBlocksDependents_exact (rootIds : list string) (scope : list rbead) :
  NoDup (r_id <$> scope) ->
  exists out, openBlocksDependents rootIds scope = Some out /\ NoDup out.*1 /\
    (forall id root, (id, root) ∈ out -> root ∈ rootIds /\ id ∉ rootIds /\ waits_on scope root id) /\
    (forall id root, root ∈ rootIds -> waits_on scope root id -> id ∈ rootIds \/ id ∈ out.*1).
Proof. apply dependents_spec. Qed.

Definition chain_rows : list rbead :=
  [mk "a" "open" JNull [] JNull; mk "b" "open" JNull [blocks_on "a"] JNull;
   mk "c" "open" JNull [blocks_on "b"] JNull; mk "d" "closed" JNull [blocks_on "a"] JNull;
   mk "e" "open" JNull [blocks_on "d"] JNull].

Lemma openBlocksDependents_exact_witness :
  exists out, openBlocksDependents ["a"] chain_rows = Some out /\
    out = [("b", "a"); ("c", "a")] /\ NoDup out.*1.
Proof.
  destruct (openBlocksDependents_exact ["a"] chain_rows) as (out & Hout & Hnd & _).
  - apply (bool_decide_unpack _). vm_compute. exact I.
  - exists out. split; [exact Hout|]. split; [|exact Hnd].
    vm_compute in Hout. by injection Hout as <-.
Defined.

(** ** Prerequisites *)

Section metadata.
Context (json_parse : string -> option jsval) (locale_le : string -> string -> bool).

Lemma elem_of_push_all l xs x : x ∈ foldl push_new l xs <-> x ∈ l \/ x ∈ xs.
Proof.
  revert l. induction xs as [|y xs IH]; intros l; simpl; [set_solver|].
  rewrite IH. unfold push_new. case_decide; set_solver.
Qed.

Lemma indexById_spec beads b : NoDup (r_id <$> beads) -> b ∈ indexById beads <-> b ∈ beads.
Proof.
  intros Hnd. unfold indexById. destruct (absorb r_id [] beads) as [s f] eqn:E. simpl.
  apply absorb_spec in E as (-> & Hf & Hl & _). simpl in Hl. split; [by intros [? _]%Hf|].
  intros Hb. specialize (Hl b Hb). apply list_elem_of_fmap in Hl as (b' & Heq & Hb').
  apply Hf in Hb' as Hb2. by rewrite (bead_id_inj beads b b' Hnd Hb (proj1 Hb2) Heq).
Qed.

(** Repeating a bead changes nothing. *)
Lemma indexById_consistent beads b :
  (forall a c, a ∈ beads -> c ∈ beads -> r_id a = r_id c -> a = c) ->
  b ∈ indexById beads <-> b ∈ beads.
Proof.
  intros Hc. unfold indexById. destruct (absorb r_id [] beads) as [s f] eqn:E. simpl.
  apply absorb_spec in E as (-> & Hf & Hl & _). simpl in Hl. split; [by intros [? _]%Hf|].
  intros Hb. specialize (Hl b Hb). apply list_elem_of_fmap in Hl as (b' & Heq & Hb').
  apply Hf in Hb' as Hb2. by rewrite (Hc b b' Hb (proj1 Hb2) Heq).
Qed.

(** [pre] is open and known, in [beads]. *)
Definition open_in (beads : list rbead) (pre : string) : Prop :=
  exists b, b ∈ beads /\ r_id b = pre /\ is_open b = true.

Lemma find_open beads pre :
  NoDup (r_id <$> beads) ->
  match find_bead pre beads with Some b => is_open b | None => false end = true <-> open_in beads pre.
Proof.
  intros Hnd. split.
  - destruct (find_bead pre beads) as [b|] eqn:Hf; [|done]. apply find_bead_elem in Hf as [Hb <-].
    intros Ho. by exists b.
  - intros (b & Hb & <- & Ho). by rewrite find_bead_NoDup.
Qed.

Lemma unmet_spec (bead : rbead) (scope all : list rbead) :
  NoDup (r_id <$> scope) -> NoDup (r_id <$> all) ->
  let pre := unmetPrerequisites json_parse locale_le bead scope all in
  (forall id, id ∈ un_inScope pre <->
     id ≠ r_id bead /\
     ((id ∈ blocksPrereqIds bead /\ open_in scope id) \/
      (exists m, m ∈ scope /\ r_id m = id /\ is_open m = true /\
                 lane_before json_parse m bead = true))) /\
  (forall id, id ∈ un_outOfScope pre <->
     id ≠ r_id bead /\ id ∈ blocksPrereqIds bead /\ id ∉ r_id <$> scope /\ open_in all id).
Proof.
  intros Hs Ha. cbn zeta. unfold unmetPrerequisites. cbn [un_inScope un_outOfScope]. split; intros id.
  - rewrite elem_of_push_all, !list_elem_of_filter, find_open by done.
    unfold lower_open_mates. rewrite list_elem_of_fmap.
    setoid_rewrite stable_sort_perm. setoid_rewrite list_elem_of_filter.
    setoid_rewrite indexById_spec; [|done].
    setoid_rewrite andb_true_iff. setoid_rewrite andb_true_iff.
    setoid_rewrite negb_true_iff. setoid_rewrite bool_decide_eq_false. naive_solver.
  - rewrite !list_elem_of_filter, <-find_bead_None.
    destruct (find_bead id scope) eqn:Hf; [naive_solver|]. rewrite find_open by done. naive_solver.
Qed.

(** a bead's unmet prerequisites are, inside the scope, the open beads it
    names in a [blocks] entry and its open lane-mates of lower order, and,
    outside it, the open beads of the whole listing it names in one; a bead is
    never its own prerequisite, and nothing closed is a prerequisite. *)
Theorem unmetPrerequisites_exact (bead : rbead) (scope all : list rbead) :
  NoDup (r_id <$> scope) -> NoDup (r_id <$> all) ->
  let pre := unmetPrerequisites json_parse locale_le bead scope all in
  (forall id, id ∈ un_inScope pre <->
     id ≠ r_id bead /\
     ((id ∈ blocksPrereqIds bead /\ open_in scope id) \/
      (exists m, m ∈ scope /\ r_id m = id /\ is_open m = true /\
                 lane_before json_parse m bead = true))) /\
  (forall id, id ∈ un_outOfScope pre <->
     id ≠ r_id bead /\ id ∈ blocksPrereqIds bead /\ id ∉ r_id <$> scope /\ open_in all id).
Proof. apply unmet_spec. Qed.

End metadata.

(** ** What the goal lets through *)

Section goal_filter.
Context (json_parse : string -> option jsval).

(** [pre] is a prerequisite of the bead [id]: a [blocks] target, or an open
    lane-mate of lower order. *)
Definition prereq_edge (byId : list rbead) (id pre : string) : Prop :=
  exists b, b ∈ byId /\ r_id b = id /\
    (pre ∈ blocksPrereqIds b \/
     exists m, m ∈ byId /\ r_id m = pre /\ is_open m = true /\ lane_before json_parse m b = true).

Lemma prereqsOf_edge byId id pre :
  NoDup (r_id <$> byId) -> pre ∈ prereqsOf json_parse byId id <-> prereq_edge byId id pre.
Proof.
  intros Hnd. unfold prereqsOf, prereq_edge. split.
  - destruct (find_bead id byId) as [b|] eqn:Hf; [|set_solver].
    apply find_bead_elem in Hf as [Hb Hid]. intros Hpre. exists b. split; [done|]. split; [done|].
    apply elem_of_app in Hpre as [?|(m & -> & Hm)%list_elem_of_fmap]; [by left|right].
    apply list_elem_of_filter in Hm as [[? ?]%andb_true_iff ?]. by exists m.
  - intros (b & Hb & <- & Hpre). rewrite find_bead_NoDup by done. apply elem_of_app.
    destruct Hpre as [?|(m & Hm & <- & Ho & Hl)]; [by left|right].
    apply list_elem_of_fmap_2, list_elem_of_filter. by rewrite Ho, Hl.
Qed.

Lemma prereqsOf_named byId x y : y ∈ prereqsOf json_parse byId x -> y ∈ named_ids byId.
Proof.
  unfold prereqsOf, named_ids. destruct (find_bead x byId) as [b|] eqn:Hf; [|set_solver].
  apply find_bead_elem in Hf as [Hb _]. rewrite !elem_of_app. intros [Hy|Hy]; [right|left].
  - apply list_elem_of_bind. by exists b.
  - apply list_elem_of_fmap in Hy as (m & -> & Hm). apply list_elem_of_fmap_2.
    by apply list_elem_of_filter in Hm as [_ ?].
Qed.

Lemma prereq_walk byId seen start :
  exists s out, bfs (fun x => x) all_keep (prereqsOf json_parse byId)
                  (length start + length (named_ids byId)) seen [] start = Some (s, out).
Proof.
  apply (bfs_total _ _ _ (named_ids byId)); [intros x y; apply prereqsOf_named|].
  pose proof (unseen_le seen (named_ids byId)). lia.
Qed.

Lemma found_tc byId x y :
  NoDup (r_id <$> byId) ->
  found_from all_keep (prereqsOf json_parse byId) x y <-> tc (prereq_edge byId) x y.
Proof.
  intros Hnd. split.
  - induction 1 as [y Hy|y z _ IH _ Hz]; rewrite prereqsOf_edge in * by done.
    + by constructor.
    + by eapply tc_r.
  - intros Htc. revert y Htc.
    apply (tc_ind_r (fun y => found_from all_keep (prereqsOf json_parse byId) x y) x).
    + intros y Hy. by apply found_next, prereqsOf_edge.
    + intros y z _ Hz IH. eapply found_step; [exact IH|done|]. by apply prereqsOf_edge.
Qed.

Lemma tc_last {A} (R : A -> A -> Prop) x y : tc R x y -> R x y \/ exists z, tc R x z /\ R z y.
Proof. revert y. apply tc_ind_r; eauto. Qed.

(** The open beads at goal priority. *)
Definition in_goal (goal : string) (byId : list rbead) (x : string) : Prop :=
  exists b, b ∈ byId /\ r_id b = x /\ is_open b = true /\ isBelowGoal goal b = false.

Lemma serves_goal_spec goal byId :
  NoDup (r_id <$> byId) ->
  exists l, serves_goal json_parse goal byId = Some l /\
    forall y, y ∈ l <-> exists x, in_goal goal byId x /\ tc (prereq_edge byId) x y.
Proof.
  intros Hnd. unfold serves_goal. set (start := r_id <$> _).
  destruct (prereq_walk byId start start) as (s & out & Hb). rewrite Hb.
  eexists. split; [done|]. intros y. rewrite elem_of_dedup, list_elem_of_bind.
  setoid_rewrite prereqsOf_edge; [|done].
  assert (Hstart : forall x, x ∈ start <-> in_goal goal byId x).
  { intros x. unfold start, in_goal. rewrite list_elem_of_fmap. setoid_rewrite list_elem_of_filter.
    setoid_rewrite andb_true_iff. setoid_rewrite negb_true_iff. naive_solver. }
  destruct (bfs_closed _ _ _ _ _ _ _ _ _ Hb) as (new & -> & -> & _ & _ & Hq & _).
  rewrite list_fmap_id in *. split.
  - intros (x & Hxy & Hx). apply elem_of_app in Hx as [Hx|Hx].
    + exists x. split; [by apply Hstart|by constructor].
    + destruct (bfs_found _ _ _ _ _ _ _ _ Hb x Hx) as (x0 & Hx0 & Hf).
      apply found_tc in Hf; [|done]. exists x0. split; [by apply Hstart|by eapply tc_r].
  - intros (x & Hx & [Hxy|(z & Hxz & Hzy)]%tc_last).
    + exists x. split; [done|]. apply elem_of_app. left. by apply Hstart.
    + exists z. split; [done|].
      refine (bfs_complete _ _ _ _ _ _ _ _ _ (id_key_ok _) _ Hb x z _ _).
      * intros y' z' Hy' _ Hz'. by apply (Hq y').
      * by apply Hstart.
      * by apply found_tc.
Qed.

Lemma serves_worked_spec byId serves worked :
  NoDup (r_id <$> byId) ->
  (forall x y, x ∈ serves -> prereq_edge byId x y -> y ∈ serves) ->
  exists l, serves_worked json_parse byId serves worked = Some l /\
    forall y, y ∈ l <-> y ∈ serves \/ exists x, x ∈ worked /\ tc (prereq_edge byId) x y.
Proof.
  intros Hnd Hcl. unfold serves_worked.
  destruct (prereq_walk byId serves worked) as (s & out & Hb). rewrite Hb.
  eexists. split; [done|]. intros y.
  destruct (bfs_closed _ _ _ _ _ _ _ _ _ Hb) as (new & -> & -> & _).
  rewrite list_fmap_id in *. split.
  - intros [Hy|Hy]%elem_of_app; [by left|right].
    destruct (bfs_found _ _ _ _ _ _ _ _ Hb y Hy) as (x & Hx & Hf).
    apply found_tc in Hf; [|done]. eauto.
  - intros [Hy|(x & Hx & Htc)]; [by apply elem_of_app; left|].
    refine (bfs_complete _ _ _ _ _ _ _ _ _ (id_key_ok _) _ Hb x y Hx _).
    + intros y' z' Hy' _ Hz'. apply elem_of_app. left. apply (Hcl y'); [done|]. by apply prereqsOf_edge.
    + by apply found_tc.
Qed.

Lemma indexById_NoDup beads : NoDup (r_id <$> indexById beads).
Proof.
  unfold indexById. destruct (absorb r_id [] beads) as [s f] eqn:E.
  by apply absorb_spec in E as (_ & _ & _ & ?).
Qed.

(** Work at goal priority cannot finish without the bead [id], or work this
    sprint has already taken up. *)
Definition needed (goal : string) (workedOnIds : list string) (ready scope : list rbead) (id : string)
    : Prop :=
  let byId := indexById (scope ++ ready) in
  exists x, (in_goal goal byId x \/ (x ∈ workedOnIds /\ x ∈ r_id <$> ready)) /\
            tc (prereq_edge byId) x id.

Lemma partition_spec (ready scope : list rbead) (goal : string)
    (workedOnIds : list string) :
  exists sp, partitionReadyByGoal json_parse ready scope goal workedOnIds = Some sp /\
    (forall b, b ∈ rs_dispatchable sp <-> b ∈ ready /\
       (isBelowGoal goal b = false \/ r_id b ∈ workedOnIds \/
        needed goal workedOnIds ready scope (r_id b))) /\
    (forall id p, (id, p) ∈ rs_excluded sp <-> exists b, b ∈ ready /\ r_id b = id /\
       r_priority b = p /\ isBelowGoal goal b = true /\ id ∉ workedOnIds /\
       ~ needed goal workedOnIds ready scope id).
Proof.
  unfold partitionReadyByGoal. set (byId := indexById (scope ++ ready)).
  assert (Hnd : NoDup (r_id <$> byId)) by apply indexById_NoDup.
  destruct (serves_goal_spec goal byId Hnd) as (l0 & -> & H0). cbn [mbind option_bind].
  destruct (serves_worked_spec byId l0
              (r_id <$> filter (fun b => bool_decide (r_id b ∈ workedOnIds) = true) ready) Hnd)
    as (l & -> & Hl).
  { intros x y Hx Hxy. apply H0 in Hx as (x0 & Hx0 & Htc). apply H0. exists x0.
    split; [done|]. by eapply tc_r. }
  cbn [mbind option_bind].
  assert (Hneed : forall id, id ∈ l <-> needed goal workedOnIds ready scope id).
  { intros id. rewrite Hl, H0. unfold needed. fold byId. setoid_rewrite list_elem_of_fmap.
    setoid_rewrite list_elem_of_filter. setoid_rewrite bool_decide_eq_true. naive_solver. }
  eexists. split; [reflexivity|]. cbn [rs_dispatchable rs_excluded].
  assert (Hkeep : forall b, negb (isBelowGoal goal b) || bool_decide (r_id b ∈ workedOnIds)
                            || bool_decide (r_id b ∈ l) = true <->
            (isBelowGoal goal b = false \/ r_id b ∈ workedOnIds \/
             needed goal workedOnIds ready scope (r_id b))).
  { intros b. rewrite !orb_true_iff, negb_true_iff, !bool_decide_eq_true, Hneed. tauto. }
  split.
  - intros b. rewrite list_elem_of_filter, Hkeep. tauto.
  - intros id p. rewrite list_elem_of_fmap. setoid_rewrite list_elem_of_filter.
    setoid_rewrite negb_true_iff. setoid_rewrite <-not_true_iff_false. setoid_rewrite Hkeep.
    split.
    + intros (b & [= -> ->] & Hn & Hb). exists b. rewrite <-(not_false_iff_true (isBelowGoal goal b)).
      naive_solver.
    + intros (b & Hb & <- & <- & Hbelow & Hw & Hn). exists b. rewrite Hbelow. naive_solver.
Qed.

End goal_filter.

Definition laned (id streak : string) (order : Z) (prio : Z) (deps : list jsval) : rbead :=
  {| r_id := id; r_status := JStr "open"; r_parent := JNull; r_priority := jint prio;
     r_title := JStr id; r_dependencies := JArr deps;
     r_metadata := JObj [("streak", JStr streak); ("streakOrder", jint order)] |}.

(** The implementation task of a lane, the tests after it, and a bead the tests
    also wait for. *)
Definition lane_rows : list rbead :=
  [laned "impl" "s" 1 3 []; laned "dep" "t" 1 3 []; laned "spare" "u" 1 3 [];
   laned "test" "s" 2 1 [blocks_on "dep"; blocks_on "out"]].

Definition outside_rows : list rbead := laned "out" "v" 1 2 [] :: lane_rows.

Lemma unmetPrerequisites_exact_witness :
  let pre := unmetPrerequisites (fun _ => None) String.leb (laned "test" "s" 2 1 [blocks_on "dep"; blocks_on "out"])
               lane_rows outside_rows in
  pre = {| un_inScope := ["dep"; "impl"]; un_outOfScope := ["out"] |} /\
  ("impl" ∈ un_inScope pre <-> "impl" ≠ "test" /\
     (("impl" ∈ ["dep"; "out"] /\ open_in lane_rows "impl") \/
      (exists m, m ∈ lane_rows /\ r_id m = "impl" /\ is_open m = true /\
         lane_before (fun _ => None) m (laned "test" "s" 2 1 [blocks_on "dep"; blocks_on "out"]) = true))).
Proof.
  split; [vm_compute; reflexivity|].
  refine (proj1 (unmetPrerequisites_exact (fun _ => None) String.leb
            (laned "test" "s" 2 1 [blocks_on "dep"; blocks_on "out"]) lane_rows outside_rows _ _) "impl");
    apply (bool_decide_unpack _); vm_compute; exact I.
Defined.

Example partitionReadyByGoal_run :
  (fun sp => (r_id <$> rs_dispatchable sp, (rs_excluded sp).*1)) <$>
    partitionReadyByGoal (fun _ => None) (take 3 lane_rows) lane_rows "P1/P2" []
  = Some (["impl"; "dep"], ["spare"]).
Proof. vm_compute. reflexivity. Qed.

(** ** Sprint or backlog *)

Section membership.
Context (goal : string) (tasks : list rbead).

Lemma dataset_parent_elem b p : dataset_parent tasks b = Some p -> p ∈ tasks.
Proof.
  unfold dataset_parent. destruct (as_str (r_parent b)); [|done]. simpl.
  by intros [? _]%last_bead_elem.
Qed.

Lemma root_loop_total fuel seen cur :
  cur ∈ tasks -> NoDup seen -> seen ⊆ r_id <$> tasks -> length tasks < fuel + length seen ->
  exists r, root_loop fuel tasks seen cur = Some r.
Proof.
  revert seen cur. induction fuel as [|fuel IH]; intros seen cur Hc Hnd Hsub Hlen; simpl;
    destruct (dataset_parent tasks cur) as [p|] eqn:Hp; eauto; case_decide as Hs; eauto.
  - exfalso. assert (NoDup (r_id cur :: seen)) as Hnd' by by constructor.
    assert (r_id cur :: seen ⊆ r_id <$> tasks) as Hsub'.
    { intros x [->|Hx]%elem_of_cons; [by apply list_elem_of_fmap_2|by apply Hsub]. }
    pose proof (submseteq_length _ _ (NoDup_submseteq _ _ Hnd' Hsub')) as Hl.
    rewrite length_fmap in Hl. simpl in *. lia.
  - apply IH; [by eapply dataset_parent_elem| | |].
    + apply NoDup_app. split; [done|]. split; [set_solver|apply NoDup_singleton].
    + intros x [Hx|Hx]%elem_of_app; [by apply Hsub|]. apply list_elem_of_singleton in Hx as ->.
      by apply list_elem_of_fmap_2.
    + rewrite length_app. simpl. lia.
Qed.

(** Parents come strictly before their children in some order. *)
Definition acyclic (rank : string -> nat) : Prop :=
  forall b p, b ∈ tasks -> dataset_parent tasks b = Some p -> rank (r_id p) < rank (r_id b).

(** Without cycles the guard never fires: the walk does not depend on it. *)
Lemma root_loop_seen rank fuel fuel' seen seen' cur r r' :
  acyclic rank -> cur ∈ tasks ->
  (forall x, x ∈ seen -> rank (r_id cur) < rank x) ->
  (forall x, x ∈ seen' -> rank (r_id cur) < rank x) ->
  root_loop fuel tasks seen cur = Some r -> root_loop fuel' tasks seen' cur = Some r' -> r = r'.
Proof.
  intros Hac. revert fuel' seen seen' cur. induction fuel as [|fuel IH];
    intros fuel' seen seen' cur Hc Hs Hs' Hr Hr';
    assert (H1 : r_id cur ∉ seen) by (intros H; specialize (Hs _ H); lia);
    assert (H2 : r_id cur ∉ seen') by (intros H; specialize (Hs' _ H); lia);
    destruct fuel' as [|fuel']; simpl in *;
    destruct (dataset_parent tasks cur) as [p|] eqn:Hp; try congruence;
    rewrite decide_False in Hr by done; rewrite decide_False in Hr' by done; try done.
  assert (Hlt := Hac cur p Hc Hp).
  eapply (IH fuel' (seen ++ [r_id cur]) (seen' ++ [r_id cur]) p);
    [by eapply dataset_parent_elem| | |done|done];
    intros x [Hx|Hx%list_elem_of_singleton]%elem_of_app; subst; try lia;
    [specialize (Hs x Hx)|specialize (Hs' x Hx)]; lia.
Qed.

Lemma rootOf_total b : b ∈ tasks -> exists r, rootOf tasks b = Some r.
Proof. intros Hb. apply root_loop_total; [done|constructor|set_solver|simpl; lia]. Qed.

Lemma rootOf_parent rank b p :
  acyclic rank -> b ∈ tasks -> dataset_parent tasks b = Some p -> rootOf tasks b = rootOf tasks p.
Proof.
  intros Hac Hb Hp. destruct (rootOf_total b Hb) as [r Hr].
  destruct (rootOf_total p (dataset_parent_elem _ _ Hp)) as [r' Hr'].
  rewrite Hr, Hr'. f_equal. unfold rootOf in Hr. simpl in Hr. rewrite Hp in Hr. cbn iota in Hr.
  eapply root_loop_seen; [done|by eapply dataset_parent_elem| | |exact Hr|exact Hr'].
  - intros x ->%list_elem_of_singleton. by apply Hac.
  - intros x Hx. by apply elem_of_nil in Hx.
Qed.

Lemma rootOf_top b : dataset_parent tasks b = None -> rootOf tasks b = Some b.
Proof. intros Hp. unfold rootOf. simpl. by rewrite Hp. Qed.

Lemma elem_of_topLevel b : b ∈ topLevel tasks <-> b ∈ tasks /\ dataset_parent tasks b = None.
Proof.
  unfold topLevel. rewrite list_elem_of_filter, negb_true_iff, bool_decide_eq_false.
  destruct (dataset_parent tasks b); simpl.
  - split; [|naive_solver]. intros [Hn _]. destruct Hn. by eexists.
  - split; [naive_solver|]. intros [? _]. split; [|done]. by intros [? ?].
Qed.

(** A top-level bead at goal priority. *)
Definition goal_top (b : rbead) : Prop :=
  b ∈ tasks /\ dataset_parent tasks b = None /\ isBelowGoal goal b = false.

(** In the sprint section: at goal priority, or joined to such a bead by a
    [blocks] edge, in either direction. *)
Definition sprint_top (b : rbead) : Prop :=
  isBelowGoal goal b = false \/
  exists g, goal_top g /\ (r_id g ∈ list_blocks b \/ r_id b ∈ list_blocks g).

Lemma elem_of_inGoal x : x ∈ inGoalTopIds goal tasks <-> exists g, goal_top g /\ r_id g = x.
Proof.
  unfold inGoalTopIds, goal_top. rewrite list_elem_of_fmap. setoid_rewrite list_elem_of_filter.
  setoid_rewrite elem_of_topLevel. setoid_rewrite negb_true_iff. naive_solver.
Qed.

Lemma sprintTopIds_spec b :
  NoDup (r_id <$> tasks) -> b ∈ tasks -> dataset_parent tasks b = None ->
  r_id b ∈ sprintTopIds goal tasks <-> sprint_top b.
Proof.
  intros Hnd Hb Htop. unfold sprintTopIds, sprint_top. rewrite elem_of_dedup, !elem_of_app.
  assert (Huniq : forall c, c ∈ tasks -> r_id c = r_id b -> c = b)
    by (intros c Hc Heq; by eapply bead_id_inj).
  assert (H1 : r_id b ∈ inGoalTopIds goal tasks <-> isBelowGoal goal b = false).
  { rewrite elem_of_inGoal. split.
    - intros (g & (Hg & _ & Hlow) & Heq). by rewrite <-(Huniq g).
    - intros Hlow. by exists b. }
  assert (H2 : r_id b ∈ r_id <$> filter (fun b => existsb (fun d => bool_decide
                   (d ∈ inGoalTopIds goal tasks)) (list_blocks b) = true) (topLevel tasks) <->
               exists g, goal_top g /\ r_id g ∈ list_blocks b).
  { rewrite list_elem_of_fmap. setoid_rewrite list_elem_of_filter.
    setoid_rewrite elem_of_topLevel. setoid_rewrite existsb_exists.
    setoid_rewrite <-list_elem_of_In. setoid_rewrite bool_decide_eq_true.
    setoid_rewrite elem_of_inGoal. split.
    - intros (c & Heq & (d & Hd & g & Hg & <-) & Hc & _). rewrite (Huniq c) in Hd by done. by exists g.
    - intros (g & Hg & Hd). exists b. split; [done|]. split; [|done]. exists (r_id g). eauto. }
  rewrite H1, H2, list_elem_of_bind. setoid_rewrite list_elem_of_filter.
  setoid_rewrite bool_decide_eq_true.
  setoid_rewrite elem_of_topLevel. setoid_rewrite elem_of_inGoal. split.
  - intros [Hx|[(g & Hg & Hx)|(c & (Hl & Hx) & (g & Hg & Heq) & Hc & Hct)]]; [by left|right..].
    + exists g. tauto.
    + exists g. split; [done|]. right. destruct Hg as (Hg & Hgt & Hgl).
      by rewrite (bead_id_inj tasks g c).
  - intros [Hx|(g & Hg & [Hx|Hx])]; [by left|right; left; eauto|right; right].
    exists g. split; [split; [|done]|].
    + rewrite last_bead_NoDup by done. rewrite Htop. done.
    + split; [by exists g|]. by destruct Hg as (? & ? & _).
Qed.

Definition in_sprint_b (b : rbead) : bool := default false (in_sprint goal tasks b).

Lemma in_sprint_total b : b ∈ tasks -> in_sprint goal tasks b = Some (in_sprint_b b).
Proof.
  intros Hb. unfold in_sprint_b, in_sprint. by destruct (rootOf_total b Hb) as [r ->].
Qed.

Lemma partition_membership :
  partitionByGoalMembership tasks goal =
    Some {| mb_sprint := filter (fun b => in_sprint_b b = true) tasks;
            mb_backlog := filter (fun b => in_sprint_b b = false) tasks |}.
Proof.
  unfold partitionByGoalMembership.
  assert (Hm : forall l, l ⊆ tasks ->
    mapM (fun b => p ← in_sprint goal tasks b; Some (b, p : bool)) l
    = Some ((fun b => (b, in_sprint_b b)) <$> l)).
  { induction l as [|b l IH]; intros Hl; [done|]. cbn [mapM]. rewrite in_sprint_total by set_solver.
    cbn [mbind option_bind]. by rewrite IH by set_solver. }
  rewrite Hm by done. cbn [mbind option_bind].
  assert (Hf : forall (f : rbead -> bool) (p : bool) l,
    (filter (fun x => x.2 = p) ((fun b => (b, f b)) <$> l)).*1 = filter (fun b => f b = p) l).
  { intros f p l. induction l as [|b l IH]; [done|]. rewrite fmap_cons, !filter_cons. cbn [snd].
    case_decide; [rewrite fmap_cons|]; by rewrite IH. }
  by rewrite !Hf.
Qed.

(** on a listing with unique ids and no parent cycle, every bead lands in
    exactly one of the two sections, with its parent; and a top-level bead is
    in the sprint exactly when it is not below the goal or shares a [blocks]
    edge with a top-level bead that is not. *)
Theorem goal_membership_exact (rank : string -> nat) :
  NoDup (r_id <$> tasks) -> acyclic rank ->
  exists m, partitionByGoalMembership tasks goal = Some m /\
    mb_sprint m ++ mb_backlog m ≡ₚ tasks /\
    (forall b p, b ∈ tasks -> dataset_parent tasks b = Some p ->
       (b ∈ mb_sprint m <-> p ∈ mb_sprint m)) /\
    (forall b, b ∈ tasks -> dataset_parent tasks b = None -> (b ∈ mb_sprint m <-> sprint_top b)).
Proof.
  intros Hnd Hac. rewrite partition_membership. eexists. split; [reflexivity|].
  cbn [mb_sprint mb_backlog]. split; [|split].
  - clear Hac Hnd. generalize in_sprint_b as f. intros f. generalize tasks as l.
    induction l as [|b l IH]; [done|]. rewrite !filter_cons.
    destruct (f b); simpl.
    + by rewrite IH.
    + rewrite <-Permutation_middle. by rewrite IH.
  - intros b p Hb Hp. rewrite !list_elem_of_filter. unfold in_sprint_b, in_sprint.
    rewrite (rootOf_parent rank b p) by done. apply dataset_parent_elem in Hp. tauto.
  - intros b Hb Htop. rewrite list_elem_of_filter. unfold in_sprint_b, in_sprint.
    rewrite rootOf_top by done. cbn [mbind option_bind from_option id].
    rewrite <-sprintTopIds_spec by done. rewrite bool_decide_eq_true. tauto.
Qed.
End membership.

(** A below-goal epic that blocks an in-goal one, with a child, and one that
    does not. *)
Definition goal_rows : list rbead :=
  let row id prio parent deps :=
    {| r_id := id; r_status := JStr "open"; r_parent := parent; r_priority := jint prio;
       r_title := JStr id; r_dependencies := JArr deps; r_metadata := JNull |} in
  [row "a" 1%Z JNull [blocks_on "b"]; row "b" 3%Z JNull []; row "b.1" 3%Z (JStr "b") [];
   row "c" 3%Z JNull []; row "c.1" 1%Z (JStr "c") []].

Lemma goal_membership_exact_witness :
  exists m, partitionByGoalMembership goal_rows "P1/P2" = Some m /\
    r_id <$> mb_sprint m = ["a"; "b"; "b.1"] /\ r_id <$> mb_backlog m = ["c"; "c.1"] /\
    mb_sprint m ++ mb_backlog m ≡ₚ goal_rows.
Proof.
  destruct (goal_membership_exact "P1/P2" goal_rows String.length) as (m & Hm & Hp & _).
  - apply (bool_decide_unpack _). vm_compute. exact I.
  - intros b p Hb. unfold goal_rows in Hb. cbn in Hb.
    repeat (apply elem_of_cons in Hb as [->|Hb]; [vm_compute; intros [= <-] || intros [=]; vm_compute; lia|]).
    by apply elem_of_nil in Hb.
  - exists m. split; [exact Hm|]. vm_compute in Hm. injection Hm as <-.
    split; [reflexivity|]. split; [reflexivity|exact Hp].
Defined.
