(* ===== verification/SetAside.v ===== *)
(** * Beads set aside for a run ([fleet-sprint/set-aside.mjs])

    What the runner records when a doer reports a bead BLOCKED, which open
    beads can no longer move because of it, and when that stops the sprint.
    Maps are insertion-ordered association lists by bead id. *)

From Stdlib Require Import Ascii QArith.
From S2P Require Import Prelude JsMap JsVal Text Closure BeadGraph.
Local Open Scope string_scope.
Local Open Scope list_scope.

Definition DEPLOY_SET_ASIDE_ID : string := "deploy".

(** ** The run's records *)

(** An entry of [sprintState.doctorBlockedIds]. *)
Record blocked_rec := {
  bl_kind : option string; bl_blockedBy : option string; bl_reason : option string;
  bl_cycle : option Z; bl_round : option Z
}.

(** [sprintState.deploySetAside] *)
Record deploy_rec := { dp_reason : string; dp_notes : option string; dp_cycle : option Z }.

(** An entry of [sprintState.waitingIds]. *)
Record waiting_rec := { wt_on : list string; wt_cycle : option Z; wt_round : option Z }.

Notation blocked_map := (list (string * blocked_rec)).
Notation waiting_map := (list (string * waiting_rec)).

Record entry := {
  en_id : string; en_kind : string; en_blockedBy : option string; en_reason : string;
  en_cycle : option Z; en_round : option Z
}.

(** [o || d] on strings *)
Definition or_else (o : option string) (d : string) : string :=
  match o with Some s => if nonempty s then s else d | None => d end.

Definition kindRank (k : string) : Z := if decide (k = "blocked") then 0 else 1.

(** Lexicographic comparison: [le] decides where the keys agree. *)
Definition then_by (a b : Z) (le : bool) : bool := (a <? b)%Z || ((a =? b)%Z && le).

Section locale.
Context (json_parse : string -> option jsval) (locale_le : string -> string -> bool).

Definition entry_le (a b : entry) : bool :=
  then_by (default 0 (en_cycle a))%Z (default 0 (en_cycle b))%Z
    (then_by (default 0 (en_round a))%Z (default 0 (en_round b))%Z
      (then_by (kindRank (en_kind a)) (kindRank (en_kind b)) (locale_le (en_id a) (en_id b)))).

Definition blocked_entry (x : string * blocked_rec) : entry :=
  {| en_id := x.1; en_kind := or_else (bl_kind x.2) "blocked";
     en_blockedBy := Some (or_else (bl_blockedBy x.2) x.1);
     en_reason := or_else (bl_reason x.2) "set aside";
     en_cycle := bl_cycle x.2; en_round := bl_round x.2 |}.

Definition deploy_entry (d : deploy_rec) : entry :=
  {| en_id := DEPLOY_SET_ASIDE_ID; en_kind := "deploy"; en_blockedBy := None;
     en_reason := match dp_notes d with
                  | Some n => if nonempty n then dp_reason d +:+ " (" +:+ n +:+ ")"
                              else or_else (Some (dp_reason d)) "deploy set aside"
                  | None => or_else (Some (dp_reason d)) "deploy set aside"
                  end;
     en_cycle := dp_cycle d; en_round := None |}.

Definition collectSetAsideEntries (blocked : blocked_map) (deploy : option deploy_rec) : list entry :=
  stable_sort entry_le (blocked_entry <$> blocked)
  ++ match deploy with Some d => [deploy_entry d] | None => [] end.

(** ** Reports *)

Definition first_seen (cycle round : option Z) : string :=
  match cycle, round with
  | None, _ => "unknown"
  | Some c, None => "C" +:+ pretty c
  | Some c, Some r => "C" +:+ pretty c +:+ " R" +:+ pretty r
  end.
Definition formatFirstSeen (e : entry) : string := first_seen (en_cycle e) (en_round e).

Definition seen_note (e : entry) : string := en_reason e +:+ " (first seen " +:+ formatFirstSeen e +:+ ")".

Definition formatSetAsideItems (entries : list entry) : list string :=
  (fun e => en_id e +:+ ": " +:+ seen_note e) <$> entries.

(** ** The immediate stall *)

Record stall := {
  st_blockerIds : list string; st_blockerReasons : list (string * string); st_entries : list entry
}.

Record stall_opts := {
  so_openIds : list string; so_integBoundIds : list string; so_verifyBlockedIds : list string;
  so_blocked : blocked_map; so_deploy : option deploy_rec; so_stuck : list (string * string)
}.

Definition candidates (o : stall_opts) : list string := dedup (so_openIds o ++ dedup (so_integBoundIds o)).

Definition covered (o : stall_opts) (id : string) : bool :=
  jhas id (so_blocked o) || jhas id (so_stuck o)
  || (bool_decide (is_Some (dp_reason <$> so_deploy o))
      && (bool_decide (id ∈ so_integBoundIds o) || bool_decide (id ∈ so_verifyBlockedIds o))).

Definition integ_reason : string :=
  "can only close through Integration Test, which cannot run while the deploy is set aside".
Definition verify_reason : string :=
  "blocked only by bead(s) that can only close through Integration Test, which cannot run while the deploy is set aside".

(** [if (blockerReasons[id]) continue; ...] *)
Definition explain (o : stall_opts) (reasons : list (string * string)) (id : string)
    : list (string * string) :=
  if nonempty (default "" (jget id reasons)) then reasons
  else
    let integ := bool_decide (id ∈ so_integBoundIds o) in
    match jget id (so_stuck o), integ with
    | Some why, false => jset id why reasons
    | _, _ => jset id (if integ then integ_reason else verify_reason) reasons
    end.

Definition evaluateSetAsideStall (o : stall_opts) : option stall :=
  match candidates o with
  | [] => None
  | cs =>
      if negb (forallb (covered o) cs) then None
      else
        let entries := collectSetAsideEntries (so_blocked o) (so_deploy o) in
        let reasons := foldl (fun m e => jset (en_id e) (seen_note e) m) [] entries in
        let reasons := foldl (explain o) reasons cs in
        let ids := (en_id <$> filter (fun e => en_id e ≠ DEPLOY_SET_ASIDE_ID) entries)
                   ++ sortS (filter (fun id => negb (jhas id (so_blocked o)) = true) cs) in
        Some {| st_blockerIds := dedup ids ++ (if so_deploy o then [DEPLOY_SET_ASIDE_ID] else []);
                st_blockerReasons := reasons; st_entries := entries |}
  end.

Definition formatSetAsideStallMessage (s : stall) (where_ scope : string) : string :=
  let blockers := joinS "; " ((fun id => id +:+ " -- " +:+ default "undefined" (jget id (st_blockerReasons s)))
                              <$> st_blockerIds s) in
  "Sprint stalled (" +:+ where_ +:+ "): nothing is ready and every open in-scope bead in scope '" +:+ scope
  +:+ "' is set aside for this run, so no further round or cycle can make progress. Set aside: " +:+ blockers
  +:+ ". Fix these blockers and re-run the sprint. Aborting now rather than burning the remaining cycles.".

(** ** Stuck beads *)

Section stuck.
Context (scope all : list rbead) (blocked : blocked_map) (waiting : waiting_map).

Definition open_beads : list rbead :=
  filter (fun b => is_open b && negb (jhas (r_id b) blocked) = true) scope.

(** [pre.get(id)] *)
Definition pre_of (b : rbead) : unmet := unmetPrerequisites json_parse locale_le b scope all.

(** The prerequisites that cannot close, given what is stuck so far. *)
Definition stuck_on (out : list (string * string)) (b : rbead) : list string :=
  filter (fun x => jhas x blocked || jhas x out = true) (un_inScope (pre_of b)).

(** One bead of a pass: the map and whether it changed. *)
Definition stuck_step (st : list (string * string) * bool) (b : rbead) : list (string * string) * bool :=
  let '(out, changed) := st in
  if jhas (r_id b) out then st
  else
    match stuck_on out b with
    | [] =>
        if jhas (r_id b) waiting && negb (bool_decide (un_outOfScope (pre_of b) = []))
        then (jset (r_id b) ("waiting on " +:+ joinS ", " (un_outOfScope (pre_of b)) +:+
                ", outside this sprint's scope, which cannot close in this run") out, true)
        else st
    | on =>
        (jset (r_id b) ((if jhas (r_id b) waiting then "waiting" else "held") +:+ " on " +:+ joinS ", " on +:+
           ", which cannot close in this run (set aside, or itself waiting on a set-aside bead)") out, true)
    end.

Definition stuck_pass (out : list (string * string)) : list (string * string) * bool :=
  foldl stuck_step (out, false) open_beads.

(** [while (changed)] *)
Fixpoint stuck_loop (fuel : nat) (out : list (string * string)) : option (list (string * string)) :=
  match fuel with
  | O => None
  | S fuel' =>
      let '(out', changed) := stuck_pass out in
      if changed then stuck_loop fuel' out' else Some out'
  end.

Definition stuckBehindSetAside : option (list (string * string)) :=
  match blocked, waiting with
  | [], [] => Some []
  | _, _ => stuck_loop (S (length open_beads)) []
  end.

(** ** A BLOCKED report *)

Record blocked_split := { bs_wait : list (string * list string); bs_setAside : list (string * string) }.

(** The prerequisites of a reported id; none for one outside the scope. *)
Definition report_pre (id : string) : unmet :=
  match last_bead id scope with
  | Some bead => pre_of bead
  | None => {| un_inScope := []; un_outOfScope := [] |}
  end.

Definition report_step (s : blocked_split) (id : string) : blocked_split :=
  if jhas id blocked then s
  else
    let pre := report_pre id in
    let aside suffix :=
      {| bs_wait := bs_wait s; bs_setAside := bs_setAside s ++ [(id, suffix)] |} in
    match un_outOfScope pre with
    | _ :: _ =>
        aside (" -- open prerequisite(s) outside this sprint's scope, which cannot close in this run: "
               +:+ joinS ", " (un_outOfScope pre))
    | [] =>
        match un_inScope pre, jget id waiting with
        | _ :: _, None => {| bs_wait := bs_wait s ++ [(id, un_inScope pre)]; bs_setAside := bs_setAside s |}
        | _, Some w => aside (" (reported BLOCKED again after waiting on " +:+ joinS ", " (wt_on w) +:+ ")")
        | [], None => aside ""
        end
    end.

Definition classifyBlockedReport (blockedIds : list string) : blocked_split :=
  foldl report_step {| bs_wait := []; bs_setAside := [] |} blockedIds.
End stuck.

(** ** Waits *)

Record wait_entry := { we_id : string; we_on : list string; we_cycle : option Z; we_round : option Z }.

Definition wait_le (a b : wait_entry) : bool :=
  then_by (default 0 (we_cycle a))%Z (default 0 (we_cycle b))%Z
    (then_by (default 0 (we_round a))%Z (default 0 (we_round b))%Z (locale_le (we_id a) (we_id b))).

Definition collectWaitEntries (waiting : waiting_map) : list wait_entry :=
  stable_sort wait_le
    ((fun x => {| we_id := x.1; we_on := wt_on x.2; we_cycle := wt_cycle x.2; we_round := wt_round x.2 |})
       <$> waiting).

Definition formatWaitedLine (entries : list wait_entry) : option string :=
  match entries with
  | [] => None
  | _ => Some ("Waited this run: " +:+
               joinS "; " ((fun e => we_id e +:+ " on " +:+ or_else (Some (joinS ", " (we_on e))) "(unknown)")
                           <$> entries))
  end.
End locale.
