(* ===== verification/SetAsideProps.v ===== *)
(** * What setting beads aside guarantees

    The stuck beads are the least set closed under waiting for what cannot
    close; a stall is declared exactly when every candidate is covered, and
    names a reason for each; a BLOCKED report is decided by the bead graph, and
    a bead waits at most once. *)

From Stdlib Require Import Ascii QArith.
From S2P Require Import Prelude JsMap JsVal Text Closure BeadGraph BeadGraphProps SetAside.
Local Open Scope string_scope.
Local Open Scope list_scope.

(** ** Stuck beads *)

Section stuck.
Context (json_parse : string -> option jsval) (locale_le : string -> string -> bool).
Context (scope all : list rbead) (blocked : blocked_map) (waiting : waiting_map).

Notation pre := (pre_of json_parse locale_le scope all).
Notation opens := (open_beads scope blocked).

(** An open bead that cannot close in this run. *)
Inductive stuck : string -> Prop :=
| stuck_behind b x : b ∈ opens -> x ∈ un_inScope (pre b) ->
    jhas x blocked = true \/ stuck x -> stuck (r_id b)
| stuck_waiting b : b ∈ opens -> jhas (r_id b) waiting = true ->
    un_outOfScope (pre b) ≠ [] -> stuck (r_id b).

(** The bead would be added, given what is stuck so far. *)
Definition fires (out : list (string * string)) (b : rbead) : Prop :=
  jhas (r_id b) out = false /\
  ((exists x, x ∈ un_inScope (pre b) /\ (jhas x blocked = true \/ jhas x out = true)) \/
   (jhas (r_id b) waiting = true /\ un_outOfScope (pre b) ≠ [])).

Lemma stuck_on_spec out b x :
  x ∈ stuck_on json_parse locale_le scope all blocked out b <->
  x ∈ un_inScope (pre b) /\ (jhas x blocked = true \/ jhas x out = true).
Proof. unfold stuck_on. rewrite list_elem_of_filter, orb_true_iff. tauto. Qed.

Notation step := (stuck_step json_parse locale_le scope all blocked waiting).

(** A step adds the bead when it fires, and leaves the map alone otherwise. *)
Lemma stuck_step_spec out ch b :
  (fires out b /\ exists why, step (out, ch) b = (jset (r_id b) why out, true)) \/
  (~ fires out b /\ step (out, ch) b = (out, ch)).
Proof.
  unfold stuck_step, fires. destruct (jhas (r_id b) out) eqn:Ho.
  { right. split; [naive_solver|done]. }
  destruct (stuck_on json_parse locale_le scope all blocked out b) as [|x xs] eqn:Hon.
  - assert (Hno : forall x, x ∈ un_inScope (pre b) -> ~ (jhas x blocked = true \/ jhas x out = true)).
    { intros x Hx Hy. assert (x ∈ stuck_on json_parse locale_le scope all blocked out b) as Hin
        by (apply stuck_on_spec; done). rewrite Hon in Hin. by apply elem_of_nil in Hin. }
    destruct (jhas (r_id b) waiting) eqn:Hw; simpl.
    + case_bool_decide as Hout; simpl; [right|left].
      * split; [naive_solver|done].
      * split; [naive_solver|]. by eexists.
    + right. split; [naive_solver|done].
  - left. assert (x ∈ stuck_on json_parse locale_le scope all blocked out b) as Hin
      by (rewrite Hon; set_solver). apply stuck_on_spec in Hin.
    split; [naive_solver|]. by eexists.
Qed.

Definition sound_map (out : list (string * string)) : Prop :=
  jwf out /\ out.*1 ⊆ r_id <$> opens /\ forall id, jhas id out = true -> stuck id.

Lemma pass_spec l out ch out' ch' :
  l ⊆ opens -> sound_map out -> foldl step (out, ch) l = (out', ch') ->
  sound_map out' /\
  (ch' = false -> ch = false /\ out' = out /\ forall b, b ∈ l -> ~ fires out b) /\
  length out <= length out' /\ (ch' = true -> ch = true \/ length out < length out').
Proof.
  revert out ch. induction l as [|b l IH]; intros out ch Hl Hok Hf; cbn [foldl] in Hf.
  { simplify_eq. split; [done|]. split; [set_solver|]. split; [lia|by left]. }
  destruct (stuck_step_spec out ch b) as [[Hfire [why Hs]]|[Hno Hs]]; rewrite Hs in Hf.
  - assert (b ∈ opens) as Hb by set_solver. destruct Hok as (Hwf & Hsub & Hst).
    destruct (IH (jset (r_id b) why out) true) as (Hok' & Hch & Hlen & _); [set_solver| |done|].
    { split; [by apply jset_wf|]. split.
      - rewrite jset_keys_new by by apply jhas_false; destruct Hfire.
        rewrite fmap_app. intros x [Hx|Hx]%elem_of_app; [by apply Hsub|].
        simpl in Hx. apply list_elem_of_singleton in Hx as ->. by apply list_elem_of_fmap_2.
      - intros id [->|Hid]%jhas_jset; [|by apply Hst].
        destruct Hfire as [_ [(x & Hx & Hy)|[Hw Hou]]].
        + eapply stuck_behind; [done|done|]. destruct Hy; [by left|right; by apply Hst].
        + by apply stuck_waiting. }
    rewrite jset_new_length in Hlen by by destruct Hfire.
    split; [done|]. split; [intros E; by destruct (Hch E)|]. split; [lia|]. right. lia.
  - destruct (IH out ch) as (Hok' & Hch & Hlen & Hgrow); [set_solver|done|done|].
    split; [done|]. split; [|done]. intros E. destruct (Hch E) as (? & -> & Hn).
    split; [done|]. split; [done|]. intros c [->|Hc]%elem_of_cons; [done|by apply Hn].
Qed.

Lemma sound_length out : sound_map out -> length out <= length opens.
Proof.
  intros (Hwf & Hsub & _).
  pose proof (submseteq_length _ _ (NoDup_submseteq _ _ Hwf Hsub)) as Hl.
  by rewrite !length_fmap in Hl.
Qed.

Lemma stuck_loop_spec fuel out :
  sound_map out -> length opens < fuel + length out ->
  exists out', stuck_loop json_parse locale_le scope all blocked waiting fuel out = Some out' /\
    sound_map out' /\ forall b, b ∈ opens -> ~ fires out' b.
Proof.
  revert out. induction fuel as [|fuel IH]; intros out Hok Hf; simpl.
  { pose proof (sound_length out Hok). lia. }
  unfold stuck_pass. destruct (foldl step (out, false) opens) as [out' ch] eqn:E.
  destruct (pass_spec opens _ _ _ _ (fun x Hx => Hx) Hok E) as (Hok' & Hch & Hlen & Hgrow).
  destruct ch.
  - apply IH; [done|]. destruct (Hgrow eq_refl); [done|lia].
  - destruct (Hch eq_refl) as (_ & -> & Hn). by exists out.
Qed.

(** A map that nothing can be added to has every stuck bead. *)
Lemma closed_complete out :
  (forall b, b ∈ opens -> ~ fires out b) -> forall id, stuck id -> jhas id out = true.
Proof.
  intros Hn. fix IH 2. intros id [b x Hb Hx Hor|b Hb Hw Ho].
  - destruct (jhas (r_id b) out) eqn:Hid; [done|]. destruct (Hn b Hb). split; [done|]. left.
    exists x. split; [done|]. destruct Hor as [?|Hs]; [by left|right; by apply IH].
  - destruct (jhas (r_id b) out) eqn:Hid; [done|]. destruct (Hn b Hb). split; [done|]. by right.
Qed.

Lemma stuck_spec :
  exists out, stuckBehindSetAside json_parse locale_le scope all blocked waiting = Some out /\
    forall id, jhas id out = true <-> stuck id.
Proof.
  assert (Hnil : sound_map []) by (split; [constructor|split; [set_solver|done]]).
  unfold stuckBehindSetAside.
  assert (Hmain : exists out, stuck_loop json_parse locale_le scope all blocked waiting
                     (S (length opens)) [] = Some out /\ forall id, jhas id out = true <-> stuck id).
  { destruct (stuck_loop_spec (S (length opens)) [] Hnil) as (out & -> & (_ & _ & Hs) & Hn); [simpl; lia|].
    exists out. split; [done|]. intros id. split; [by apply Hs|by apply closed_complete]. }
  destruct blocked eqn:Hb; [|exact Hmain]. destruct waiting eqn:Hw; [|exact Hmain].
  exists []. split; [done|]. intros id. split; [done|]. revert id. apply closed_complete.
  intros b _ [_ [(x & _ & Hx)|[Hx _]]].
  - rewrite Hb in Hx. by destruct Hx.
  - by rewrite Hw in Hx.
Qed.

(** C26: the stuck beads are exactly the least set of open beads that wait for
    a set-aside bead, for another stuck one, or, once they have waited, for an
    open bead outside the scope; the fixpoint loop reaches it within one pass
    per open bead. *)
Theorem stuckBehindSetAside_exact :
  exists out, stuckBehindSetAside json_parse locale_le scope all blocked waiting = Some out /\
    forall id, jhas id out = true <-> stuck id.
Proof. apply stuck_spec. Qed.

(** ** BLOCKED reports *)

Notation report := (report_pre json_parse locale_le scope all).

(** The report makes the bead wait: it has an open prerequisite in the sprint,
    none outside, and has not waited before. *)
Definition waits (id : string) : Prop :=
  jhas id blocked = false /\ un_outOfScope (report id) = [] /\ un_inScope (report id) ≠ [] /\
  jhas id waiting = false.

Lemma report_fold ids s :
  let r := foldl (report_step json_parse locale_le scope all blocked waiting) s ids in
  (forall id on, (id, on) ∈ bs_wait r <->
     (id, on) ∈ bs_wait s \/ (id ∈ ids /\ waits id /\ on = un_inScope (report id))) /\
  (forall id, id ∈ (bs_setAside r).*1 <->
     id ∈ (bs_setAside s).*1 \/ (id ∈ ids /\ jhas id blocked = false /\ ~ waits id)).
Proof.
  revert s. induction ids as [|i ids IH]; intros s; cbn zeta; simpl; [set_solver|].
  destruct (IH (report_step json_parse locale_le scope all blocked waiting s i)) as [Hw Ha].
  setoid_rewrite Hw. setoid_rewrite Ha. clear IH Hw Ha.
  assert (Hstep :
    (waits i /\ report_step json_parse locale_le scope all blocked waiting s i =
       {| bs_wait := bs_wait s ++ [(i, un_inScope (report i))]; bs_setAside := bs_setAside s |}) \/
    (~ waits i /\ jhas i blocked = true /\
       report_step json_parse locale_le scope all blocked waiting s i = s) \/
    (~ waits i /\ jhas i blocked = false /\ exists suffix,
       report_step json_parse locale_le scope all blocked waiting s i =
       {| bs_wait := bs_wait s; bs_setAside := bs_setAside s ++ [(i, suffix)] |})).
  { unfold report_step, waits. destruct (jhas i blocked) eqn:Hb; [naive_solver|].
    destruct (un_outOfScope (report i)) eqn:Ho;
      [|right; right; split; [intros (_ & Hn & _); congruence|split; [done|by eexists]]].
    destruct (un_inScope (report i)) eqn:Hi, (jget i waiting) eqn:Hj;
      [right; right|right; right|right; right|left].
    1,2: split; [intros (_ & _ & Hn & _); congruence|split; [done|by eexists]].
    - split; [|split; [done|by eexists]]. intros (_ & _ & _ & Hn). apply jhas_false in Hn. congruence.
    - split; [|done]. split; [done|]. split; [done|]. split; [done|]. by apply jhas_false. }
  destruct Hstep as [[Hwt ->]|[(Hn & Hb & ->)|(Hn & Hb & suffix & ->)]]; cbn [bs_wait bs_setAside].
  - split; [intros id on|intros id].
    + rewrite elem_of_app, list_elem_of_singleton, elem_of_cons. split.
      * intros [[?|[= -> ->]]|?]; tauto.
      * intros [?|([->|?] & ? & ->)]; tauto.
    + rewrite elem_of_cons. split; [tauto|]. intros [?|([->|?] & ? & ?)]; tauto.
  - split; [intros id on|intros id]; rewrite elem_of_cons.
    + split; [tauto|]. intros [?|([->|?] & ? & ->)]; tauto.
    + split; [tauto|]. intros [?|([->|?] & ? & ?)]; [tauto|congruence|tauto].
  - split; [intros id on|intros id]; rewrite ?fmap_app, ?elem_of_app, elem_of_cons.
    + split; [tauto|]. intros [?|([->|?] & ? & ->)]; tauto.
    + cbn [fmap list_fmap fst]. rewrite list_elem_of_singleton. split.
      * intros [[?| ->]|?]; tauto.
      * intros [?|([->|?] & ? & ?)]; tauto.
Qed.

Lemma report_spec (ids : list string) :
  let r := classifyBlockedReport json_parse locale_le scope all blocked waiting ids in
  (forall id on, (id, on) ∈ bs_wait r <->
     id ∈ ids /\ waits id /\ on = un_inScope (report id)) /\
  (forall id, id ∈ (bs_setAside r).*1 <-> id ∈ ids /\ jhas id blocked = false /\ ~ waits id) /\
  (forall id on, (id, on) ∈ bs_wait r -> jhas id waiting = false).
Proof.
  cbn zeta. destruct (report_fold ids {| bs_wait := []; bs_setAside := [] |}) as [Hw Ha].
  cbn zeta in Hw, Ha. cbn [bs_wait bs_setAside fmap list_fmap] in Hw, Ha.
  fold (classifyBlockedReport json_parse locale_le scope all blocked waiting ids) in Hw, Ha.
  split; [|split].
  - intros id on. rewrite Hw. set_solver.
  - intros id. rewrite Ha. set_solver.
  - intros id on Hin. apply Hw in Hin as [Hin|(_ & (_ & _ & _ & ?) & _)]; [set_solver|done].
Qed.

(** every bead a report names, unless already set aside, is either put on
    wait, on exactly its open in-sprint prerequisites, or set aside; it waits
    exactly when it has one, has no open prerequisite outside the sprint, and
    has not waited before, so no bead waits twice. *)
Theorem classifyBlockedReport_exact (ids : list string) :
  let r := classifyBlockedReport json_parse locale_le scope all blocked waiting ids in
  (forall id on, (id, on) ∈ bs_wait r <->
     id ∈ ids /\ waits id /\ on = un_inScope (report id)) /\
  (forall id, id ∈ (bs_setAside r).*1 <-> id ∈ ids /\ jhas id blocked = false /\ ~ waits id) /\
  (forall id on, (id, on) ∈ bs_wait r -> jhas id waiting = false).
Proof. apply report_spec. Qed.
End stuck.

(** ** The stall *)

Lemma explain_has o reasons cs id :
  jhas id (foldl (explain o) reasons cs) = true <-> jhas id reasons = true \/ id ∈ cs.
Proof.
  revert reasons. induction cs as [|c cs IH]; intros reasons; simpl; [set_solver|].
  rewrite IH, elem_of_cons.
  assert (jhas id (explain o reasons c) = true <-> id = c \/ jhas id reasons = true) as ->; [|tauto].
  unfold explain. destruct (nonempty (default "" (jget c reasons))) eqn:Hne.
  - split; [by right|]. intros [->|?]; [|done]. apply jhas_spec.
    destruct (jget c reasons); [by eexists|done].
  - destruct (jget c (so_stuck o)), (bool_decide _); apply jhas_jset.
Qed.

Lemma entries_have entries m id :
  jhas id (foldl (fun m e => jset (en_id e) (seen_note e) m) m entries) = true <->
  jhas id m = true \/ id ∈ en_id <$> entries.
Proof.
  revert m. induction entries as [|e es IH]; intros m; simpl; [set_solver|].
  rewrite IH, jhas_jset, elem_of_cons. tauto.
Qed.

Lemma candidates_elem (o : stall_opts) id :
  id ∈ candidates o <-> id ∈ so_openIds o \/ id ∈ so_integBoundIds o.
Proof. unfold candidates. rewrite elem_of_dedup, elem_of_app, elem_of_dedup. tauto. Qed.

Lemma covered_spec (o : stall_opts) id :
  covered o id = true <->
    is_Some (jget id (so_blocked o)) \/ is_Some (jget id (so_stuck o)) \/
    (so_deploy o ≠ None /\ (id ∈ so_integBoundIds o \/ id ∈ so_verifyBlockedIds o)).
Proof.
  unfold covered. rewrite !orb_true_iff, andb_true_iff, orb_true_iff, !bool_decide_eq_true, !jhas_spec.
  destruct (so_deploy o); simpl.
  - assert (is_Some (Some (dp_reason d))) by eauto. naive_solver.
  - split; [|naive_solver]. intros [?|[[? Hn] _]]; [tauto|done].
Qed.

(** The entries of the stall report are the set-aside beads and the deploy. *)
Lemma collect_has (locale_le : string -> string -> bool) blocked deploy id :
  id ∈ en_id <$> collectSetAsideEntries locale_le blocked deploy <->
  jhas id blocked = true \/ (deploy ≠ None /\ id = "deploy").
Proof.
  unfold collectSetAsideEntries. rewrite fmap_app, elem_of_app.
  rewrite stable_sort_perm, <-list_fmap_compose. apply Morphisms_Prop.or_iff_morphism.
  - rewrite jhas_spec. split.
    + intros (x & -> & Hx)%list_elem_of_fmap. apply not_eq_None_Some. rewrite jget_None. intros Hn.
      apply Hn. simpl. by apply (list_elem_of_fmap_2 fst).
    + intros [v Hv]. apply jget_Some_elem in Hv. by apply (list_elem_of_fmap_2 (en_id ∘ blocked_entry)) in Hv.
  - destruct deploy; simpl; [rewrite list_elem_of_singleton|]; set_solver.
Qed.

Lemma stall_spec (locale_le : string -> string -> bool) (o : stall_opts) :
  (is_Some (evaluateSetAsideStall locale_le o) <->
     (exists id, id ∈ so_openIds o \/ id ∈ so_integBoundIds o) /\
     forall id, id ∈ so_openIds o \/ id ∈ so_integBoundIds o ->
       is_Some (jget id (so_blocked o)) \/ is_Some (jget id (so_stuck o)) \/
       (so_deploy o ≠ None /\ (id ∈ so_integBoundIds o \/ id ∈ so_verifyBlockedIds o))) /\
  forall s, evaluateSetAsideStall locale_le o = Some s ->
    (forall id, id ∈ so_openIds o \/ id ∈ so_integBoundIds o -> id ∈ st_blockerIds s \/ id = "deploy") /\
    (forall id, id ∈ st_blockerIds s -> is_Some (jget id (st_blockerReasons s))).
Proof.
  assert (Hall : forallb (covered o) (candidates o) = true <->
                 forall id, id ∈ candidates o -> covered o id = true).
  { rewrite forallb_forall. by setoid_rewrite <-list_elem_of_In. }
  setoid_rewrite <-candidates_elem. setoid_rewrite <-covered_spec. rewrite <-Hall. unfold evaluateSetAsideStall.
  destruct (candidates o) as [|c cs] eqn:Hc.
  { split; [|done]. split; [by intros [? ?]|]. intros ((id & Hid) & _). by apply elem_of_nil in Hid. }
  destruct (forallb (covered o) (c :: cs)) eqn:Hf; cbn [negb].
  2:{ split; [|done]. split; [by intros [? ?]|]. naive_solver. }
  split.
  { split; [|intros _; by eexists]. intros _. split; [exists c; set_solver|done]. }
  intros s [= <-]. cbn [st_blockerIds st_blockerReasons].
  set (entries := collectSetAsideEntries locale_le (so_blocked o) (so_deploy o)).
  pose proof (collect_has locale_le (so_blocked o) (so_deploy o)) as Hent. fold entries in Hent.
  split.
  - intros id Hid. destruct (decide (id = "deploy")) as [->|Hne]; [by right|left].
    apply elem_of_app. left. apply elem_of_dedup, elem_of_app.
    destruct (jhas id (so_blocked o)) eqn:Hb.
    + left. assert (id ∈ en_id <$> entries) as (e & -> & He)%list_elem_of_fmap by (apply Hent; by left).
      apply list_elem_of_fmap_2, list_elem_of_filter. done.
    + right. rewrite sortS_perm. apply list_elem_of_filter. by rewrite Hb.
  - intros id Hid. apply jhas_spec, (explain_has o _ (c :: cs)). apply elem_of_app in Hid as [Hid|Hid].
    + apply elem_of_dedup, elem_of_app in Hid as [Hid|Hid].
      * left. apply entries_have. right. apply list_elem_of_fmap in Hid as (e & -> & He).
        apply list_elem_of_filter in He as [_ ?]. by apply list_elem_of_fmap_2.
      * right. rewrite sortS_perm in Hid. by apply list_elem_of_filter in Hid as [_ ?].
    + left. apply entries_have. right. apply Hent. right.
      destruct (so_deploy o); [|by apply elem_of_nil in Hid]. by apply list_elem_of_singleton in Hid.
Qed.

(** an immediate stall is declared exactly when some open bead at goal
    priority or bound to Integration Test is left and every such bead is set
    aside, stuck, or waits for a test that cannot run; and then the report
    names every one of them, and gives a reason for every bead it names. *)
Theorem stall_exact (locale_le : string -> string -> bool) (o : stall_opts) :
  (is_Some (evaluateSetAsideStall locale_le o) <->
     (exists id, id ∈ so_openIds o \/ id ∈ so_integBoundIds o) /\
     forall id, id ∈ so_openIds o \/ id ∈ so_integBoundIds o ->
       is_Some (jget id (so_blocked o)) \/ is_Some (jget id (so_stuck o)) \/
       (so_deploy o ≠ None /\ (id ∈ so_integBoundIds o \/ id ∈ so_verifyBlockedIds o))) /\
  forall s, evaluateSetAsideStall locale_le o = Some s ->
    (forall id, id ∈ so_openIds o \/ id ∈ so_integBoundIds o -> id ∈ st_blockerIds s \/ id = "deploy") /\
    (forall id, id ∈ st_blockerIds s -> is_Some (jget id (st_blockerReasons s))).
Proof. apply stall_spec. Qed.
