(* ===== verification/Worklists.v ===== *)
(** * Streaks and doer worklists ([fleet-sprint/worklists.mjs])

    Which ready beads form a streak, which of them lane order holds back, and
    how the streaks of a round are packed onto the doers.  A streak is a list of
    beads; the packing works on the streaks' indices, as the source's
    descriptors do.  [json_parse] and [locale_le] are as in [BeadGraph];
    [normalizeTierToken] is from [newtask-text.mjs]. *)

From Stdlib Require Import Ascii QArith.
From S2P Require Import Prelude JsMap JsVal Text Closure BeadGraph.
Local Open Scope string_scope.
Local Open Scope list_scope.

(** ** Assigned streaks *)

Inductive streak_choice :=
| Streaks (l : list (list rbead))
| Fallback (reason : string).

(** The streaks of a choice: one bead per streak on the fallback. *)
Definition streaks_of (ready : list rbead) (c : streak_choice) : list (list rbead) :=
  match c with Streaks l => l | Fallback _ => (fun b => [b]) <$> ready end.

(** One streak of the candidate: the ids seen so far and its beads. *)
Fixpoint resolve_streak (ready : list rbead) (seen : list string) (ids : list string)
    : (list string * list rbead) + string :=
  match ids with
  | [] => inl (seen, [])
  | id :: ids' =>
      match last_bead id ready with
      | None => inr ("streak referenced unknown/non-ready bead id '" +:+ id +:+ "'")
      | Some b =>
          if decide (id ∈ seen)
          then inr ("bead id '" +:+ id +:+ "' appeared in more than one streak")
          else match resolve_streak ready (seen ++ [id]) ids' with
               | inl (s, bs) => inl (s, b :: bs)
               | inr why => inr why
               end
      end
  end.

(** [candidate.streaks]: [None] for an entry that is not an array. *)
Fixpoint resolve_streaks (ready : list rbead) (seen : list string) (l : list (option (list string)))
    : (list string * list (list rbead)) + string :=
  match l with
  | [] => inl (seen, [])
  | e :: l' =>
      match default [] e with
      | [] => inr "a streak entry was not a non-empty array"
      | ids =>
          match resolve_streak ready seen ids with
          | inr why => inr why
          | inl (s, bs) =>
              match resolve_streaks ready s l' with
              | inr why => inr why
              | inl (s', bss) => inl (s', bs :: bss)
              end
          end
      end
  end.

(** [None]: no candidate, or no [streaks] array. *)
Definition selectStreaks (candidate : option (list (option (list string)))) (ready : list rbead)
    : streak_choice :=
  match candidate with
  | None => Fallback "no candidate or candidate.streaks was not an array"
  | Some l =>
      match resolve_streaks ready [] l with
      | inr why => Fallback why
      | inl (seen, bss) =>
          if decide (length seen = length ready) then Streaks bss
          else Fallback ("candidate covered " +:+ pretty (length seen) +:+ " of " +:+
                         pretty (length ready) +:+ " ready bead id(s)")
      end
  end.

(** ** Streaks from lane metadata *)

Section lanes.
Context (json_parse : string -> option jsval) (locale_le : string -> string -> bool).

(** [b.metadata.streak], when it names a lane. *)
Definition lane_id (b : rbead) : option string :=
  match prop "streak" (r_metadata b) with
  | JStr s => if nonempty (trim s) then Some s else None
  | _ => None
  end.

(** [orderOf]; [None] is [Infinity]. *)
Definition lane_order (b : rbead) : option Q := order_of (prop "streakOrder" (r_metadata b)).

Definition order_ltb (a b : option Q) : bool :=
  match a, b with Some x, Some y => Qltb x y | Some _, None => true | None, _ => false end.
(** [a - b] is 0 or [NaN]. *)
Definition order_eqb (a b : option Q) : bool :=
  match a, b with Some x, Some y => Qeq_bool x y | None, None => true | _, _ => false end.

(** [String(b.title || '')] of a title that is text. *)
Definition title_of (b : rbead) : string := default "" (as_str (r_title b)).

(** The ids decide between equal titles. *)
Definition text_le (a b : string) (le : bool) : bool :=
  if locale_le a b && locale_le b a then le else locale_le a b.

Definition within_lane (a b : rbead) : bool :=
  order_ltb (lane_order a) (lane_order b)
  || (order_eqb (lane_order a) (lane_order b)
      && text_le (title_of a) (title_of b) (locale_le (r_id a) (r_id b))).

Definition order_min (a b : option Q) : option Q := if order_ltb b a then b else a.

Record lane_group := { lg_streak : string; lg_beads : list rbead }.
Definition min_order (g : lane_group) : option Q := foldr order_min None (lane_order <$> lg_beads g).

Definition lane_le (x y : lane_group) : bool :=
  order_ltb (min_order x) (min_order y)
  || (order_eqb (min_order x) (min_order y) && locale_le (lg_streak x) (lg_streak y)).

Definition groupStreaksFromLaneMetadata (ready : list rbead) : option (list (list rbead)) :=
  match ready with
  | [] => None
  | _ =>
      if forallb (fun b => bool_decide (is_Some (lane_id b))) ready
      then
        let groups := (fun g => {| lg_streak := g.1; lg_beads := stable_sort within_lane g.2 |})
                        <$> group_by lane_id ready in
        Some (lg_beads <$> stable_sort lane_le groups)
      else None
  end.

(** ** Lane order as a prerequisite *)

(** The open beads with a lane position, each id once. *)
Definition open_laned (ready scope : list rbead) : list rbead :=
  filter (fun b => is_open b && bool_decide (is_Some (ln_streak <$> laneOf json_parse b)) = true)
         (indexById (scope ++ ready)).

Definition lowerOpenMates (ready scope : list rbead) (bead : rbead) : list string :=
  r_id <$> filter (fun m => negb (bool_decide (r_id m = r_id bead)) && lane_before json_parse m bead = true)
                  (open_laned ready scope).

Definition missing_mates (ready scope : list rbead) (kept : list string) (b : rbead) : list string :=
  filter (fun m => m ∉ kept) (lowerOpenMates ready scope b).

(** One bead of a pass: the kept ids, what the others are held on, whether
    anything changed. *)
Definition hold_step (ready scope : list rbead)
    (st : list string * list (string * list string) * bool) (b : rbead)
    : list string * list (string * list string) * bool :=
  let '(kept, heldOn, changed) := st in
  if decide (r_id b ∈ kept) then
    match missing_mates ready scope kept b with
    | [] => st
    | missing => (filter (fun id => id ≠ r_id b) kept, jset (r_id b) (sortS missing) heldOn, true)
    end
  else st.

Fixpoint hold_loop (fuel : nat) (ready scope : list rbead) (kept : list string)
    (heldOn : list (string * list string)) : option (list string * list (string * list string)) :=
  match fuel with
  | O => None
  | S fuel' =>
      let '(kept', heldOn', changed) := foldl (hold_step ready scope) (kept, heldOn, false) ready in
      if changed : bool then hold_loop fuel' ready scope kept' heldOn' else Some (kept', heldOn')
  end.

Record lane_hold := { lh_dispatchable : list rbead; lh_held : list (string * list string) }.

Definition holdBackByLaneOrder (ready scope : list rbead) : option lane_hold :=
  let kept := dedup (r_id <$> ready) in
  match hold_loop (S (length kept)) ready scope kept [] with
  | Some (kept', heldOn) =>
      Some {| lh_dispatchable := filter (fun b => r_id b ∈ kept') ready; lh_held := heldOn |}
  | None => None
  end.
End lanes.

(** ** Effort and tiers *)

Definition SIZE_POINTS (s : string) : Z :=
  if decide (s = "S") then 1 else if decide (s = "M") then 2 else if decide (s = "L") then 4 else 0.
Definition MODEL_WEIGHT (s : string) : Z :=
  if decide (s = "cheap") then 1 else if decide (s = "standard") then 10
  else if decide (s = "premium") then 20 else 0.
Definition DEFAULT_EFFORT_THRESHOLD : Z := 200.

Record effort_task := { et_size : string; et_model : string }.

Definition computeLaneEffort (tasks : list effort_task) : Z :=
  (foldl (fun acc t => acc + SIZE_POINTS (et_size t)) 0 tasks
   * foldl (fun acc t => Z.max acc (MODEL_WEIGHT (et_model t))) 0 tasks)%Z.

Definition tier_names : list string := ["cheap"; "standard"; "premium"].

(** The text result of [normalizeTierToken]; [None] when it is not a string. *)
Definition normalizeTierToken (raw : jsval) : option string :=
  match raw with
  | JStr s => match filter (fun t => includes t (toLowerCase s) = true) tier_names with
              | [t] => Some t
              | _ => Some s
              end
  | _ => None
  end.

(** The tier a bead's metadata names, if it names one. *)
Definition bead_tier (b : rbead) : option string :=
  match normalizeTierToken (prop "model" (r_metadata b)) with
  | Some t => if (0 <? MODEL_WEIGHT t)%Z then Some t else None
  | None => None
  end.

Definition better_tier (best : option string) (b : rbead) : option string :=
  match bead_tier b with
  | Some t => match best with
              | Some u => if (MODEL_WEIGHT u <? MODEL_WEIGHT t)%Z then Some t else best
              | None => Some t
              end
  | None => best
  end.
Definition streakRequiredTier (streak : list rbead) : option string := foldl better_tier None streak.

(** [POSITIVE_INFINITY] is [None]. *)
Definition lower_priority (min : option Q) (b : rbead) : option Q :=
  match as_Q (r_priority b) with
  | Some p => if order_ltb (Some p) min then Some p else min
  | None => min
  end.
Definition streakMinPriority (streak : list rbead) : option Q := foldl lower_priority None streak.

(** [toUpperCase] on the ASCII letters. *)
Definition upper_char (c : ascii) : ascii :=
  if in_range "a" "z" c then ascii_of_N (N_of_ascii c - 32) else c.
Fixpoint toUpperCase (s : string) : string :=
  match s with EmptyString => "" | String c s' => String (upper_char c) (toUpperCase s') end.

Definition effort_task_of (b : rbead) : effort_task :=
  {| et_size := match prop "size" (r_metadata b) with
                | JStr s => let u := toUpperCase (trim s) in
                            if (0 <? SIZE_POINTS u)%Z then u else "M"
                | _ => "M"
                end;
     et_model := default "standard" (bead_tier b) |}.
Definition streakEffortPoints (streak : list rbead) : Z := computeLaneEffort (effort_task_of <$> streak).

(** One entry of [beadBlocksDependencyIds]. *)
Definition ordering_dep (d : jsval) : option string :=
  match d with
  | JStr s => if nonempty s then Some s else None
  | JObj _ | JArr _ =>
      let type := prop "dependency_type" d in
      if truthy type && negb (is_str "blocks" type) then None
      else as_nonempty_str (if truthy (prop "depends_on_id" d) then prop "depends_on_id" d
                            else prop "id" d)
  | _ => None
  end.
Definition beadBlocksDependencyIds (b : rbead) : list string :=
  omap ordering_dep (elements (r_dependencies b)).

Definition resolveWorklistTierPolicy (mode : string) (resumeModelSwitch : bool) : bool :=
  if decide (mode = "batch") then true else negb resumeModelSwitch.

(** ** Context headroom *)

Definition DEFAULT_CONTEXT_CEILING : Q := 150000.

Definition positive_or (o : option Q) (d : Q) : Q :=
  match o with Some x => if Qltb 0 x then x else d | None => d end.

Definition hasContextHeadroomForResume (total_tokens contextCeiling ceilingFraction : option Q) : bool :=
  match total_tokens with
  | None => true
  | Some n => Qltb n (positive_or contextCeiling DEFAULT_CONTEXT_CEILING * positive_or ceilingFraction (9 # 10))
  end.

(** ** Packing a round's streaks *)

Definition UNSPECIFIED_TIER_KEY : string := "unspecified".

(** The descriptor of a streak; [ds_deps] are the indices of the streaks of
    this round it must follow. *)
Record desc := {
  ds_streak : list rbead; ds_index : nat; ds_priority : option Q; ds_tierKey : string;
  ds_effort : Z; ds_deps : list nat
}.

(** [descByBeadId]: the last streak that has the bead. *)
Definition streak_of_bead (streaks : list (list rbead)) (id : string) : option nat :=
  fst <$> last (filter (fun x => id ∈ r_id <$> x.2) (imap pair streaks)).

Definition dep_indexes (streaks : list (list rbead)) (index : nat) (streak : list rbead) : list nat :=
  dedup (filter (fun i => i ≠ index)
           (omap (streak_of_bead streaks) (b ← streak; beadBlocksDependencyIds b))).

Definition describe (streaks : list (list rbead)) (index : nat) (streak : list rbead) : desc :=
  {| ds_streak := streak; ds_index := index; ds_priority := streakMinPriority streak;
     ds_tierKey := default UNSPECIFIED_TIER_KEY (streakRequiredTier streak);
     ds_effort := streakEffortPoints streak; ds_deps := dep_indexes streaks index streak |}.

Definition descs (streaks : list (list rbead)) : list desc := imap (describe streaks) streaks.

(** *** The order: dependencies, then priority, then input order *)

Definition desc_le (a b : desc) : bool :=
  order_ltb (ds_priority a) (ds_priority b)
  || (order_eqb (ds_priority a) (ds_priority b) && (ds_index a <=? ds_index b)%nat).

Definition unblocked (remaining : list desc) (d : desc) : bool :=
  forallb (fun i => negb (bool_decide (i ∈ ds_index <$> remaining))) (ds_deps d).

Definition next_desc (remaining : list desc) : option desc :=
  match filter (fun d => unblocked remaining d = true) remaining with
  | [] => head (stable_sort desc_le remaining)
  | ready => head (stable_sort desc_le ready)
  end.

(** [while (remaining.size > 0)], one streak per turn. *)
Fixpoint order_loop (fuel : nat) (remaining : list desc) : list desc :=
  match fuel, next_desc remaining with
  | S fuel', Some d =>
      d :: order_loop fuel' (filter (fun e => ds_index e ≠ ds_index d) remaining)
  | _, _ => []
  end.
Definition topo_order (ds : list desc) : list desc := order_loop (length ds) ds.

(** *** Tier partitions and their slots *)

Definition partitions (order : list desc) : list (string * list desc) :=
  group_by (fun d => Some (ds_tierKey d)) order.

(** The index of the first least element of a nonempty list. *)
Fixpoint argmin (l : list nat) : nat :=
  match l with
  | [] => 0
  | x :: l' =>
      match l' with
      | [] => 0
      | _ => let j := argmin l' in if (x <=? default 0 (l' !! j))%nat then 0 else S j
      end
  end.

(** Whole partitions merged into [doerCount] slots, each into the slot with the
    fewest streaks claimed. *)
Fixpoint merge_slots (claimed : list nat) (ps : list (string * list desc)) : list (list nat) :=
  match ps with
  | [] => []
  | p :: ps' =>
      let host := argmin claimed in
      [host] :: merge_slots (alter (fun n => n + length p.2)%nat host claimed) ps'
  end.

(** The partition with the highest load per slot, the earliest on a tie. *)
Fixpoint heaviest (best : option (nat * (nat * nat))) (i : nat) (l : list (nat * nat)) : option nat :=
  match l with
  | [] => fst <$> best
  | (m, s) :: l' =>
      let best' := match best with
                   | None => Some (i, (m, s))
                   | Some (_, (bm, bs)) => if (bm * s <? m * bs)%nat then Some (i, (m, s)) else best
                   end in
      heaviest best' (S i) l'
  end.

(** Spare doers, one slot at a time; [next] is the next slot's number. *)
Fixpoint spare_slots (spare next : nat) (members : list nat) (alloc : list (list nat)) : list (list nat) :=
  match spare with
  | O => alloc
  | S spare' =>
      match heaviest None 0 (zip members (length <$> alloc)) with
      | None => alloc
      | Some i => spare_slots spare' (S next) members (alter (fun ss => ss ++ [next]) i alloc)
      end
  end.

(** The slots each partition may use. *)
Definition slot_alloc (tierHomogeneous : bool) (doerCount : nat) (ps : list (string * list desc))
    : list (list nat) :=
  let n := length ps in
  if negb tierHomogeneous && (doerCount <? n)%nat
  then merge_slots (replicate doerCount 0) ps
  else spare_slots (doerCount - n) n ((fun p => length p.2) <$> ps) ((fun i => [i]) <$> seq 0 n).

Definition slot_count (tierHomogeneous : bool) (doerCount : nat) (ps : list (string * list desc)) : nat :=
  if negb tierHomogeneous && (doerCount <? length ps)%nat then doerCount
  else max doerCount (length ps).

(** *** Placement *)

Record slot := { sl_items : list desc; sl_effort : Z }.
Record packing := { pk_slots : list slot; pk_overflow : list desc }.

Definition empty_slot : slot := {| sl_items := []; sl_effort := 0 |}.

Definition slot_has (i : nat) (s : slot) : bool := bool_decide (i ∈ ds_index <$> sl_items s).

(** [slotOfDesc.get(i)] *)
Definition slot_of (i : nat) (slots : list slot) : option nat :=
  fst <$> list_find (fun s => slot_has i s = true) slots.

(** [depSlotFor]: [None] cannot place, [Some None] no constraint. *)
Definition depSlotFor (pk : packing) (d : desc) : option (option nat) :=
  match ds_deps d with
  | [] => Some None
  | i :: rest =>
      match slot_of i (pk_slots pk) with
      | None => None
      | Some s =>
          if forallb (fun j => bool_decide (slot_of j (pk_slots pk) = Some s)) rest
          then Some (Some s) else None
      end
  end.

Definition fits (effortBudget : Z) (s : slot) (d : desc) : bool :=
  match sl_items s with [] => true | _ => (sl_effort s + ds_effort d <=? effortBudget)%Z end.

Definition fuller (slots : list slot) (a b : nat) : bool :=
  let len i := default 0 ((fun s => length (sl_items s)) <$> slots !! i) in
  (len a <? len b)%nat || ((len a =? len b)%nat && (a <=? b)%nat).

Definition usable (effortBudget : Z) (pk : packing) (pslots : list nat) (d : desc) : list nat :=
  match depSlotFor pk d with
  | None => []
  | Some dep =>
      let cands := match dep with Some s => [s] | None => pslots end in
      filter (fun i => bool_decide (i ∈ pslots) &&
                       match pk_slots pk !! i with Some s => fits effortBudget s d | None => false end
                       = true) cands
  end.

Definition put (d : desc) (s : slot) : slot :=
  {| sl_items := sl_items s ++ [d]; sl_effort := sl_effort s + ds_effort d |}.

Definition place_step (effortBudget : Z) (pslots : list nat) (pk : packing) (d : desc) : packing :=
  match head (stable_sort (fuller (pk_slots pk)) (usable effortBudget pk pslots d)) with
  | Some i => {| pk_slots := alter (put d) i (pk_slots pk); pk_overflow := pk_overflow pk |}
  | None => {| pk_slots := pk_slots pk; pk_overflow := pk_overflow pk ++ [d] |}
  end.

Definition place_partition (effortBudget : Z) (pk : packing) (x : list desc * list nat) : packing :=
  foldl (place_step effortBudget x.2) pk x.1.

Record assignment := {
  as_worklists : list (list (list rbead)); as_overflow : list (list rbead); as_packed : bool
}.

Record pack_opts := { po_effortBudget : option Z; po_tierHomogeneous : bool }.

Definition effort_budget (o : pack_opts) : Z :=
  match po_effortBudget o with Some n => if (0 <? n)%Z then n else DEFAULT_EFFORT_THRESHOLD
                             | None => DEFAULT_EFFORT_THRESHOLD end.

Definition pack (o : pack_opts) (doerCount : nat) (ds : list desc) : packing :=
  let ps := partitions (topo_order ds) in
  let alloc := slot_alloc (po_tierHomogeneous o) doerCount ps in
  foldl (place_partition (effort_budget o))
    {| pk_slots := replicate (slot_count (po_tierHomogeneous o) doerCount ps) empty_slot; pk_overflow := [] |}
    (zip ps.*2 alloc).

Definition assignDoerWorklists (streaks : list (list rbead)) (doerCount : Z) (o : pack_opts) : assignment :=
  if bool_decide (streaks = []) || (doerCount <? 1)%Z
  then {| as_worklists := []; as_overflow := []; as_packed := false |}
  else if (Z.of_nat (length streaks) <=? doerCount)%Z
  then {| as_worklists := (fun s => [s]) <$> streaks; as_overflow := []; as_packed := false |}
  else
    let pk := pack o (Z.to_nat doerCount) (descs streaks) in
    {| as_worklists := (fun s => ds_streak <$> sl_items s)
                         <$> filter (fun s => negb (bool_decide (length (sl_items s) = 0)) = true) (pk_slots pk);
       as_overflow := ds_streak <$> pk_overflow pk; as_packed := true |}.
