(* ===== verification/WorklistsProps.v ===== *)
(** * What streak assignment and packing guarantee

    No ready bead is lost or given twice; lane order holds back exactly the
    beads behind one that is not dispatched; the packing of streaks onto doers
    keeps every streak, never mixes tiers when told not to, keeps dependencies
    in order and the effort budget. *)

From Stdlib Require Import Ascii QArith.
From S2P Require Import Prelude JsMap JsVal Text Closure BeadGraph BeadGraphProps Worklists.
Local Open Scope string_scope.
Local Open Scope list_scope.

(** ** Assigned streaks *)

(** The ids of the streaks. *)
Definition streak_ids (bss : list (list rbead)) : list (list string) :=
  map (fun bs : list rbead => map r_id bs) bss.

Section streaks.
Context (ready : list rbead) (ready_ids : NoDup (r_id <$> ready)).

Lemma resolve_streak_spec seen ids :
  match resolve_streak ready seen ids with
  | inl (s, bs) => s = seen ++ ids /\ (r_id <$> bs) = ids /\ Forall (fun b => b ∈ ready) bs /\
                   NoDup ids /\ forall id, id ∈ ids -> id ∉ seen
  | inr _ => ~ (NoDup ids /\ forall id, id ∈ ids -> id ∉ seen /\ id ∈ r_id <$> ready)
  end.
Proof.
  revert seen. induction ids as [|id ids IH]; intros seen; simpl.
  { rewrite app_nil_r. split; [done|]. split; [done|]. split; [constructor|]. split; [constructor|].
    intros id Hid. by apply elem_of_nil in Hid. }
  destruct (last_bead id ready) as [b|] eqn:Hb.
  2:{ intros (_ & Hall). destruct (Hall id) as [_ Hin]; [set_solver|].
      apply list_elem_of_fmap in Hin as (b & -> & Hin). by rewrite last_bead_NoDup in Hb. }
  apply last_bead_elem in Hb as [Hb Hid]. case_decide as Hs.
  { intros (_ & Hall). destruct (Hall id) as [Hn _]; [set_solver|done]. }
  specialize (IH (seen ++ [id])). destruct (resolve_streak ready (seen ++ [id]) ids) as [[s bs]|why].
  - destruct IH as (-> & Hids & Hall & Hnd & Hnew). rewrite <-app_assoc. split; [done|].
    split; [by rewrite fmap_cons, Hids, Hid|]. split; [by constructor|]. split.
    + constructor; [|done]. intros Hin. specialize (Hnew id Hin). set_solver.
    + intros x [->|Hx]%elem_of_cons; [done|]. specialize (Hnew x Hx). set_solver.
  - intros ([Hni Hnd]%NoDup_cons & Hall). apply IH. split; [done|]. intros x Hx.
    destruct (Hall x) as [? ?]; [set_solver|]. split; [|done].
    rewrite elem_of_app, list_elem_of_singleton. intros [?| ->]; done.
Qed.

(** A candidate that gives every id of [ids] to one nonempty streak. *)
Definition covers (l : list (option (list string))) (seen ids : list string) : Prop :=
  exists ls, l = Some <$> ls /\ Forall (fun s => s ≠ []) ls /\ NoDup (concat ls) /\
    (forall id, id ∈ concat ls -> id ∉ seen /\ id ∈ r_id <$> ready) /\ ids = concat ls.

Lemma resolve_streaks_spec seen l :
  match resolve_streaks ready seen l with
  | inl (s, bss) => s = seen ++ concat (streak_ids bss) /\
      Forall (fun bs => bs ≠ [] /\ Forall (fun b => b ∈ ready) bs) bss /\
      l = Some <$> (streak_ids bss) /\ NoDup (concat (streak_ids bss)) /\
      forall id, id ∈ concat (streak_ids bss) -> id ∉ seen
  | inr _ => forall ids, ~ covers l seen ids
  end.
Proof.
  revert seen. induction l as [|e l IH]; intros seen; cbn [resolve_streaks].
  { rewrite app_nil_r. split; [done|]. split; [constructor|]. split; [done|]. split; [constructor|].
    intros id Hid. by apply elem_of_nil in Hid. }
  destruct (default [] e) as [|i il] eqn:He.
  { intros ids (ls & Hl & Hne & _). destruct ls as [|x ls]; [done|]. simpl in Hl. simplify_eq.
    apply Forall_cons in Hne as [Hne _]. by simpl in He. }
  assert (e = Some (i :: il)) as -> by (destruct e; simplify_eq/=; congruence). clear He.
  assert (Hr := resolve_streak_spec seen (i :: il)).
  destruct (resolve_streak ready seen (i :: il)) as [[s bs]|why].
  2:{ intros ids (ls & Hl & Hne & Hnd & Hall & _). destruct ls as [|x ls]; [done|].
      cbn [fmap list_fmap] in Hl. simplify_eq. apply Hr. cbn [concat] in Hnd, Hall.
      apply NoDup_app in Hnd as (Hnd & _ & _). split; [done|]. intros id Hid. apply Hall. set_solver. }
  destruct Hr as (-> & Hids & Hbs & Hnd & Hnew).
  specialize (IH (seen ++ i :: il)). destruct (resolve_streaks ready (seen ++ i :: il) l) as [[s' bss]|why].
  - destruct IH as (-> & Hbss & -> & Hnd' & Hnew'). unfold streak_ids.
    cbn [map concat]. fold (streak_ids bss). change (map r_id bs) with (r_id <$> bs). rewrite Hids.
    rewrite app_assoc. split; [done|]. split.
    { constructor; [|done]. split; [|done]. intros ->. done. }
    split; [done|]. split.
    + apply NoDup_app. split; [done|]. split; [|done]. intros x Hx Hx'. specialize (Hnew' x Hx'). set_solver.
    + intros id Hid. apply elem_of_app in Hid as [Hid|Hid]; [by apply Hnew|].
      specialize (Hnew' id Hid). set_solver.
  - intros ids (ls & Hl & Hne & Hnd' & Hall & _). destruct ls as [|x ls]; [done|].
    cbn [fmap list_fmap] in Hl. simplify_eq. apply (IH (concat ls)). cbn [concat] in Hnd', Hall.
    apply NoDup_app in Hnd' as (_ & Hdis & Hnd'). apply Forall_cons in Hne as [_ Hne].
    exists ls. split; [done|]. split; [done|]. split; [done|]. split; [|done].
    intros id Hid. destruct (Hall id) as [Hs Hin]; [set_solver|]. split; [|done].
    intros Hx. apply elem_of_app in Hx as [Hx|Hx]; [done|]. by apply (Hdis id).
Qed.

(** whatever the assignment proposes, the streaks used contain every ready
    bead exactly once and none is empty; the proposal itself is used exactly
    when it is a list of nonempty lists that names each ready id once, and is
    then used as it is. *)
Theorem selectStreaks_covers (candidate : option (list (option (list string)))) :
  let c := selectStreaks candidate ready in
  concat (streaks_of ready c) ≡ₚ ready /\ Forall (fun s => s ≠ []) (streaks_of ready c) /\
  forall ls, candidate = Some (Some <$> ls) -> Forall (fun s => s ≠ []) ls ->
    concat ls ≡ₚ r_id <$> ready ->
    exists bss, c = Streaks bss /\ (streak_ids bss) = ls.
Proof.
  cbn zeta. unfold selectStreaks.
  assert (Hfb : forall why, concat (streaks_of ready (Fallback why)) ≡ₚ ready /\
                            Forall (fun s => s ≠ []) (streaks_of ready (Fallback why))).
  { intros why. simpl. split.
    - clear. induction ready as [|b l IH]; [done|]. simpl. by rewrite IH.
    - apply Forall_fmap, Forall_true. done. }
  destruct candidate as [l|].
  2:{ destruct (Hfb "no candidate or candidate.streaks was not an array") as [? ?]. done. }
  assert (Hr := resolve_streaks_spec [] l). destruct (resolve_streaks ready [] l) as [[seen bss]|why].
  2:{ destruct (Hfb why) as [? ?]. split; [done|]. split; [done|]. intros ls [= ->] Hne Hp.
      destruct (Hr (concat ls)). exists ls. split; [done|]. split; [done|].
      split; [by rewrite Hp|]. split; [|done]. intros id Hid. rewrite Hp in Hid. set_solver. }
  destruct Hr as (-> & Hbss & Hl & Hnd & _). cbn [app].
  set (ids := concat (streak_ids bss)) in *.
  assert (Hcat : ids = r_id <$> concat bss).
  { unfold ids, streak_ids. clear. induction bss as [|bs bss IH]; [done|]. cbn. by rewrite fmap_app, IH. }
  assert (Hsub : forall b, b ∈ concat bss -> b ∈ ready).
  { intros b (bs & Hbs & Hb)%list_elem_of_In%in_concat. apply list_elem_of_In in Hbs, Hb.
    rewrite Forall_forall in Hbss. destruct (Hbss bs Hbs) as [_ Hall].
    rewrite Forall_forall in Hall. by apply Hall. }
  assert (Hlen : length ids = length (concat bss)) by by rewrite Hcat, length_fmap.
  case_decide as Hsize.
  - split; [|split].
    + simpl. apply submseteq_length_Permutation; [|by rewrite <-Hlen, Hsize].
      apply NoDup_submseteq; [|done]. rewrite Hcat in Hnd. by eapply NoDup_fmap_1.
    + simpl. eapply Forall_impl; [exact Hbss|]. by intros bs [? _].
    + intros ls [= ->] _ _. exists bss. split; [done|]. by apply (inj (fmap (M:=list) Some)) in Hl.
  - match goal with |- context [Fallback ?w] => destruct (Hfb w) as [? ?] end.
    split; [done|]. split; [done|]. intros ls [= ->] _ Hp. apply (inj (fmap (M:=list) Some)) in Hl.
    destruct Hsize. unfold ids. rewrite <-Hl, Hp. apply length_fmap.
Qed.
End streaks.

Lemma selectStreaks_covers_witness :
  let a := mk "a" "open" JNull [] JNull in
  let b := mk "b" "open" JNull [] JNull in
  let c := selectStreaks (Some [Some ["b"; "a"]]) [a; b] in
  c = Streaks [[b; a]] /\ concat (streaks_of [a; b] c) ≡ₚ [a; b] /\
  selectStreaks (Some [Some ["b"]; Some ["b"; "a"]]) [a; b]
    = Fallback "bead id 'b' appeared in more than one streak".
Proof.
  split; [vm_compute; reflexivity|]. split; [|vm_compute; reflexivity].
  refine (proj1 (selectStreaks_covers [mk "a" "open" JNull [] JNull; mk "b" "open" JNull [] JNull] _
                   (Some [Some ["b"; "a"]]))).
  apply (bool_decide_unpack _). vm_compute. exact I.
Defined.

(** ** Lane order *)

Section hold.
Context (json_parse : string -> option jsval) (ready scope : list rbead).

Notation mates := (lowerOpenMates json_parse ready scope).

(** A ready bead behind one that will not run this round. *)
Inductive held_back : string -> Prop :=
| held_behind b m : b ∈ ready -> m ∈ mates b -> m ∉ r_id <$> ready \/ held_back m ->
    held_back (r_id b).

Lemma missing_spec kept b m : m ∈ missing_mates json_parse ready scope kept b <-> m ∈ mates b /\ m ∉ kept.
Proof. unfold missing_mates. rewrite list_elem_of_filter. tauto. Qed.

Notation step := (hold_step json_parse ready scope).

(** The bead is still kept but misses a lane-mate. *)
Definition drops (kept : list string) (b : rbead) : Prop :=
  r_id b ∈ kept /\ exists m, m ∈ mates b /\ m ∉ kept.

Lemma hold_step_spec kept heldOn ch b :
  (drops kept b /\ exists on,
     step (kept, heldOn, ch) b = (filter (fun id => id ≠ r_id b) kept, jset (r_id b) on heldOn, true)) \/
  (~ drops kept b /\ step (kept, heldOn, ch) b = (kept, heldOn, ch)).
Proof.
  unfold hold_step, drops. case_decide as Hk; [|right; tauto].
  destruct (missing_mates json_parse ready scope kept b) as [|m ms] eqn:Hm; [right|left].
  - split; [|done]. intros (_ & m & Hin). apply missing_spec in Hin. rewrite Hm in Hin.
    by apply elem_of_nil in Hin.
  - split; [|by eexists]. split; [done|]. exists m. apply missing_spec. rewrite Hm. set_solver.
Qed.

Definition kept_ok (kept : list string) : Prop :=
  NoDup kept /\ kept ⊆ r_id <$> ready /\
  forall id, id ∈ r_id <$> ready -> id ∉ kept -> held_back id.

Lemma filter_ne_length (x : string) l :
  NoDup l -> x ∈ l -> S (length (filter (fun y => y ≠ x) l)) = length l.
Proof.
  induction 1 as [|y l Hy Hnd IH]; [by intros ?%elem_of_nil|]. intros Hx. rewrite filter_cons.
  destruct (decide (y = x)) as [->|Hne].
  - rewrite decide_False by naive_solver. simpl. f_equal.
    assert (Hid : filter (fun z => z ≠ x) l = l); [|by rewrite Hid].
    clear -Hy. induction l as [|z l IH]; [done|]. rewrite filter_cons.
    rewrite decide_True by set_solver. f_equal. set_solver.
  - rewrite decide_True by done. simpl. f_equal. apply IH. set_solver.
Qed.

Lemma hold_pass l kept heldOn ch kept' heldOn' ch' :
  l ⊆ ready -> kept_ok kept -> foldl step (kept, heldOn, ch) l = (kept', heldOn', ch') ->
  kept_ok kept' /\
  (ch' = false -> ch = false /\ kept' = kept /\ forall b, b ∈ l -> ~ drops kept b) /\
  length kept' <= length kept /\ (ch' = true -> ch = true \/ length kept' < length kept).
Proof.
  revert kept heldOn ch. induction l as [|b l IH]; intros kept heldOn ch Hl Hok Hf; cbn [foldl] in Hf.
  { simplify_eq. split; [done|]. split; [set_solver|]. split; [lia|by left]. }
  destruct (hold_step_spec kept heldOn ch b) as [[Hdrop [on Hs]]|[Hno Hs]]; rewrite Hs in Hf.
  - destruct Hok as (Hnd & Hsub & Hheld). destruct Hdrop as (Hb & m & Hm & Hmk).
    pose proof (filter_ne_length (r_id b) kept Hnd Hb) as Hlen.
    destruct (IH (filter (fun id => id ≠ r_id b) kept) (jset (r_id b) on heldOn) true)
      as (Hok' & Hch & Hle & _); [set_solver| |done|].
    { split; [by apply NoDup_filter|]. split.
      - intros x [_ Hx]%list_elem_of_filter. by apply Hsub.
      - intros id Hid Hn. rewrite list_elem_of_filter in Hn.
        destruct (decide (id = r_id b)) as [->|Hne]; [|apply Hheld; [done|naive_solver]].
        apply (held_behind b m); [set_solver|done|].
        destruct (decide (m ∈ r_id <$> ready)); [right; by apply Hheld|by left]. }
    split; [done|]. split; [intros E; by destruct (Hch E)|]. split; [lia|right; lia].
  - destruct (IH kept heldOn ch) as (Hok' & Hch & Hle & Hgrow); [set_solver|done|done|].
    split; [done|]. split; [|done]. intros E. destruct (Hch E) as (? & -> & Hn).
    split; [done|]. split; [done|]. intros c [->|Hc]%elem_of_cons; [done|by apply Hn].
Qed.

Lemma hold_loop_spec fuel kept heldOn :
  kept_ok kept -> length kept < fuel ->
  exists kept' heldOn', hold_loop json_parse fuel ready scope kept heldOn = Some (kept', heldOn') /\
    kept_ok kept' /\ forall b, b ∈ ready -> ~ drops kept' b.
Proof.
  revert kept heldOn. induction fuel as [|fuel IH]; intros kept heldOn Hok Hf; [lia|]. simpl.
  destruct (foldl step (kept, heldOn, false) ready) as [[kept' heldOn'] ch] eqn:E.
  destruct (hold_pass ready _ _ _ _ _ _ (fun x Hx => Hx) Hok E) as (Hok' & Hch & Hle & Hgrow).
  destruct ch.
  - apply IH; [done|]. destruct (Hgrow eq_refl); [done|lia].
  - destruct (Hch eq_refl) as (_ & -> & Hn). by exists kept, heldOn'.
Qed.

Lemma not_kept kept id :
  kept_ok kept -> (forall b, b ∈ ready -> ~ drops kept b) -> held_back id -> id ∉ kept.
Proof.
  intros (_ & Hsub & _) Hn. revert id. fix IH 2. intros id [b m Hb Hm Hor] Hk.
  apply (Hn b Hb). split; [done|]. exists m. split; [done|]. destruct Hor as [Hr|Hr].
  - intros Hin. by apply Hr, Hsub.
  - by apply IH.
Qed.

Lemma hold_spec :
  exists h, holdBackByLaneOrder json_parse ready scope = Some h /\
    forall b, b ∈ lh_dispatchable h <-> b ∈ ready /\ ~ held_back (r_id b).
Proof.
  unfold holdBackByLaneOrder.
  destruct (hold_loop_spec (S (length (dedup (r_id <$> ready)))) (dedup (r_id <$> ready)) [])
    as (kept & heldOn & -> & Hok & Hn).
  { split; [apply NoDup_dedup|]. split; [intros x Hx; by apply elem_of_dedup|].
    intros id Hid Hnk. destruct Hnk. by apply elem_of_dedup. }
  { lia. }
  eexists. split; [done|]. intros b. simpl. rewrite list_elem_of_filter. split.
  - intros [Hk Hb]. split; [done|]. intros Hh. by apply (not_kept kept (r_id b)).
  - intros [Hb Hh]. split; [|done]. destruct (decide (r_id b ∈ kept)); [done|]. destruct Hh.
    apply Hok; [by apply list_elem_of_fmap_2|done].
Qed.

(** of a round's candidates, exactly those are dispatched of which no open
    lane-mate of lower order is missing from the round or itself held back,
    transitively; the loop ends within one pass per candidate. *)
Theorem holdBackByLaneOrder_exact :
  exists h, holdBackByLaneOrder json_parse ready scope = Some h /\
    forall b, b ∈ lh_dispatchable h <-> b ∈ ready /\ ~ held_back (r_id b).
Proof. apply hold_spec. Qed.
End hold.

(** A lane of three whose first bead is not ready. *)
Example hold_run :
  (fun h => (r_id <$> lh_dispatchable h, lh_held h)) <$>
    holdBackByLaneOrder (fun _ => None)
      [laned "b" "s" 2 1 []; laned "c" "s" 3 1 []; laned "x" "t" 2 1 []]
      [laned "a" "s" 1 1 []]
  = Some (["x"], [("b", ["a"]); ("c", ["a"; "b"])]).
Proof. vm_compute. reflexivity. Qed.
