(* ===== verification/PackProps.v ===== *)
(** * What the packing of streaks onto doers guarantees

    [assignDoerWorklists] of [worklists.mjs]: no streak is lost, budgets, tiers
    and dependencies are kept, and some streak is always placed unless the
    streaks depend on each other in a cycle. *)

From Stdlib Require Import Ascii QArith.
From S2P Require Import Prelude JsMap JsVal Text Closure BeadGraph BeadGraphProps Worklists.
Local Open Scope string_scope.
Local Open Scope list_scope.

(** ** Grouping *)

Lemma group_push_concat {K A} `{Countable K} (key : A -> option K) (m : list (K * list A)) x k :
  key x = Some k -> concat (group_push key m x).*2 ≡ₚ concat m.*2 ++ [x].
Proof.
  unfold group_push. intros ->. induction m as [|[k' l] m IH]; simpl; [done|].
  case_decide as Hk.
  - subst. simpl. rewrite <-!app_assoc. f_equiv. by rewrite Permutation_app_comm.
  - simpl. rewrite IH. by rewrite app_assoc.
Qed.

Lemma group_by_concat {K A} `{Countable K} (key : A -> K) (l : list A) :
  concat (group_by (fun x => Some (key x)) l).*2 ≡ₚ l.
Proof.
  unfold group_by. cut (forall m, concat (foldl (group_push (fun x => Some (key x))) m l).*2
                                  ≡ₚ concat m.*2 ++ l); [by intros ->|].
  induction l as [|x l IH]; intros m; simpl; [by rewrite app_nil_r|].
  rewrite IH, (group_push_concat _ m x (key x)) by done. by rewrite <-app_assoc.
Qed.

(** ** The order *)

Lemma stable_sort_head {A} (le : A -> A -> bool) l x : head (stable_sort le l) = Some x -> x ∈ l.
Proof.
  intros Hh. rewrite <-(stable_sort_perm le l). destruct (stable_sort le l); [done|]. simplify_eq/=.
  set_solver.
Qed.

Lemma stable_sort_head_Some {A} (le : A -> A -> bool) l :
  l ≠ [] -> exists x, head (stable_sort le l) = Some x.
Proof.
  intros Hl. destruct (stable_sort le l) as [|x l'] eqn:E; [|by eexists].
  destruct Hl. apply Permutation_nil. by rewrite <-E, stable_sort_perm.
Qed.

Lemma next_desc_Some rem : rem ≠ [] -> exists d, next_desc rem = Some d /\ d ∈ rem.
Proof.
  intros Hne. unfold next_desc. destruct (filter _ rem) as [|r rs] eqn:E.
  - destruct (stable_sort_head_Some desc_le rem Hne) as [d Hd]. exists d.
    split; [done|]. by eapply stable_sort_head.
  - destruct (stable_sort_head_Some desc_le (r :: rs)) as [d Hd]; [done|]. exists d.
    split; [done|]. apply stable_sort_head in Hd. rewrite <-E in Hd.
    by apply list_elem_of_filter in Hd as [_ ?].
Qed.

Lemma remove_index_perm (d : desc) (l : list desc) :
  NoDup (ds_index <$> l) -> d ∈ l -> l ≡ₚ d :: filter (fun e => ds_index e ≠ ds_index d) l.
Proof.
  induction l as [|e l IH]; intros Hnd Hd; [by apply elem_of_nil in Hd|].
  cbn in Hnd. apply NoDup_cons in Hnd as [He Hnd]. rewrite filter_cons.
  destruct (decide (ds_index e = ds_index d)) as [Heq|Hne].
  - rewrite decide_False by naive_solver.
    assert (e = d) as ->.
    { apply elem_of_cons in Hd as [->|Hd]; [done|]. destruct He. rewrite Heq. by apply list_elem_of_fmap_2. }
    f_equiv. clear -He. induction l as [|f l IH]; [done|]. rewrite filter_cons.
    cbn in He. apply not_elem_of_cons in He as [Hf He]. rewrite decide_True by done. f_equiv. by apply IH.
  - rewrite decide_True by done. apply elem_of_cons in Hd as [->|Hd]; [done|].
    rewrite (IH Hnd Hd) at 1. apply Permutation_swap.
Qed.

Lemma order_loop_perm fuel rem :
  NoDup (ds_index <$> rem) -> length rem <= fuel -> order_loop fuel rem ≡ₚ rem.
Proof.
  revert rem. induction fuel as [|fuel IH]; intros rem Hnd Hf.
  { destruct rem; simpl in *; [done|lia]. }
  simpl. destruct (decide (rem = [])) as [->|Hne]; [done|].
  destruct (next_desc_Some rem Hne) as (d & -> & Hd).
  pose proof (remove_index_perm d rem Hnd Hd) as Hp. rewrite Hp at 2. f_equiv. apply IH.
  - rewrite Hp in Hnd. cbn in Hnd. by apply NoDup_cons in Hnd as [_ ?].
  - apply Permutation_length in Hp. simpl in Hp. lia.
Qed.

(** The order is a permutation of the streaks: every turn of the loop removes
    one, cycle or not. *)
Lemma topo_order_perm ds : NoDup (ds_index <$> ds) -> topo_order ds ≡ₚ ds.
Proof. intros. by apply order_loop_perm. Qed.

(** ** Slots *)

Lemma concat_items_alter (slots : list slot) k s d :
  slots !! k = Some s ->
  concat (sl_items <$> alter (put d) k slots) ≡ₚ d :: concat (sl_items <$> slots).
Proof.
  revert k. induction slots as [|s0 slots IH]; intros [|k] Hk; simplify_eq/=.
  - rewrite <-app_assoc. simpl. by rewrite <-Permutation_middle.
  - rewrite (IH k Hk). by rewrite <-Permutation_middle.
Qed.

Section place.
Context (budget : Z) (can : desc -> nat -> Prop).

Definition effort_sum (l : list desc) : Z := foldr (fun d acc => ds_effort d + acc)%Z 0%Z l.

Lemma effort_sum_snoc l d : effort_sum (l ++ [d]) = (effort_sum l + ds_effort d)%Z.
Proof. unfold effort_sum. induction l as [|e l IH]; simpl; [lia|]. rewrite IH. lia. Qed.

(** What holds of each slot. *)
Definition slot_ok (k : nat) (s : slot) : Prop :=
  sl_effort s = effort_sum (sl_items s) /\
  (length (sl_items s) <= 1 \/ (sl_effort s <= budget)%Z) /\
  (forall d, d ∈ sl_items s -> can d k) /\
  forall before d after, sl_items s = before ++ d :: after ->
    forall i, i ∈ ds_deps d -> i ∈ ds_index <$> before.

Definition pack_ok (n : nat) (handled : list desc) (pk : packing) : Prop :=
  length (pk_slots pk) = n /\
  concat (sl_items <$> pk_slots pk) ++ pk_overflow pk ≡ₚ handled /\
  forall k s, pk_slots pk !! k = Some s -> slot_ok k s.

Lemma slot_of_Some i slots k : slot_of i slots = Some k -> exists s, slots !! k = Some s /\ i ∈ ds_index <$> sl_items s.
Proof.
  unfold slot_of. destruct (list_find _ slots) as [[k' s]|] eqn:E; [|done]. simpl. intros [= ->].
  apply list_find_Some in E as (Hk & Hs & _). exists s. split; [done|].
  unfold slot_has in Hs. by rewrite bool_decide_eq_true in Hs.
Qed.

(** A slot the streak may use: free or with room, of its partition, and
    holding everything the streak depends on. *)
Lemma usable_spec pk pslots d k :
  k ∈ usable budget pk pslots d ->
  k ∈ pslots /\ exists s, pk_slots pk !! k = Some s /\ fits budget s d = true /\
    forall i, i ∈ ds_deps d -> i ∈ ds_index <$> sl_items s.
Proof.
  unfold usable, depSlotFor. destruct (ds_deps d) as [|i rest] eqn:Hd.
  - intros [[Hk Hf]%andb_true_iff Hin]%list_elem_of_filter. rewrite bool_decide_eq_true in Hk.
    split; [done|]. destruct (pk_slots pk !! k) as [s|]; [|done]. exists s.
    split; [done|]. split; [done|]. intros i Hi. by apply elem_of_nil in Hi.
  - destruct (slot_of i (pk_slots pk)) as [s0|] eqn:Hs; [|by intros ?%elem_of_nil].
    destruct (forallb _ rest) eqn:Hall; [|by intros ?%elem_of_nil].
    intros [[Hk Hf]%andb_true_iff Hin]%list_elem_of_filter. rewrite bool_decide_eq_true in Hk.
    apply list_elem_of_singleton in Hin as ->. split; [done|].
    destruct (pk_slots pk !! s0) as [s|] eqn:Hs0; [|done]. exists s. split; [done|]. split; [done|].
    intros j [->|Hj]%elem_of_cons.
    + apply slot_of_Some in Hs as (s' & Hs' & ?). by simplify_eq.
    + rewrite forallb_forall in Hall. apply list_elem_of_In in Hj. apply Hall in Hj.
      rewrite bool_decide_eq_true in Hj. apply slot_of_Some in Hj as (s' & Hs' & ?). by simplify_eq.
Qed.

Lemma snoc_split {A} (l before after : list A) d x :
  l ++ [x] = before ++ d :: after ->
  (after = [] /\ l = before /\ d = x) \/ exists after', after = after' ++ [x] /\ l = before ++ d :: after'.
Proof.
  destruct (decide (after = [])) as [->|Hne].
  - intros Heq. apply app_inj_tail in Heq as [-> ->]. by left.
  - destruct (exists_last Hne) as (after' & y & ->). intros Heq. right. exists after'.
    rewrite app_comm_cons, app_assoc in Heq. apply app_inj_tail in Heq as [-> ->]. done.
Qed.

Lemma slot_ok_put k s d :
  slot_ok k s -> can d k -> fits budget s d = true ->
  (forall i, i ∈ ds_deps d -> i ∈ ds_index <$> sl_items s) -> slot_ok k (put d s).
Proof.
  intros (Hsum & Hb & Hc & Hdep) Hcan Hfit Hd. split; [|split; [|split]]; simpl.
  - by rewrite effort_sum_snoc, Hsum.
  - unfold fits in Hfit. destruct (sl_items s); [by left|right]. by apply Z.leb_le.
  - intros e [He|He%list_elem_of_singleton]%elem_of_app; [by apply Hc|by subst].
  - intros before e after [(-> & <- & <-)|(after' & -> & Heq)]%snoc_split; [done|].
    by eapply Hdep.
Qed.

Lemma place_step_ok n handled pslots pk d :
  pack_ok n handled pk -> (forall k, k ∈ pslots -> can d k) ->
  pack_ok n (handled ++ [d]) (place_step budget pslots pk d).
Proof.
  intros (Hlen & Hperm & Hok) Hcan. unfold place_step.
  destruct (head _) as [k|] eqn:Hh.
  - apply stable_sort_head, usable_spec in Hh as (Hk & s & Hs & Hfit & Hdep).
    split; [|split]; simpl.
    + by rewrite length_alter.
    + rewrite (concat_items_alter _ k s d Hs). simpl. rewrite Hperm.
      by rewrite <-Permutation_cons_append.
    + intros k' s' Hk'. destruct (decide (k = k')) as [<-|Hne].
      * rewrite list_lookup_alter_eq, Hs in Hk'. simplify_eq/=. apply slot_ok_put; auto.
      * rewrite list_lookup_alter_ne in Hk' by done. by apply Hok.
  - split; [done|]. split; [|done]. simpl. by rewrite app_assoc, Hperm.
Qed.

Lemma place_partition_ok n handled pk x :
  pack_ok n handled pk -> (forall d k, d ∈ x.1 -> k ∈ x.2 -> can d k) ->
  pack_ok n (handled ++ x.1) (place_partition budget pk x).
Proof.
  destruct x as [ds pslots]. unfold place_partition. simpl. revert handled pk.
  induction ds as [|d ds IH]; intros handled pk Hok Hcan; simpl; [by rewrite app_nil_r|].
  change (d :: ds) with ([d] ++ ds). rewrite app_assoc. apply IH; [|set_solver].
  apply place_step_ok; [done|]. intros k Hk. apply Hcan; set_solver.
Qed.

Lemma place_all_ok n handled pk xs :
  pack_ok n handled pk -> (forall x d k, x ∈ xs -> d ∈ x.1 -> k ∈ x.2 -> can d k) ->
  pack_ok n (handled ++ concat xs.*1) (foldl (place_partition budget) pk xs).
Proof.
  revert handled pk. induction xs as [|x xs IH]; intros handled pk Hok Hcan; simpl; [by rewrite app_nil_r|].
  rewrite app_assoc. apply IH; [|intros y d k Hy; apply Hcan; set_solver].
  apply place_partition_ok; [done|]. intros d k. apply Hcan. set_solver.
Qed.

(** ** A streak without dependencies is placed when the slots are empty *)

Definition all_empty (pk : packing) : Prop := Forall (fun s => sl_items s = []) (pk_slots pk).

Lemma place_free pk pslots d :
  all_empty pk -> ds_deps d = [] -> (exists k, k ∈ pslots /\ k < length (pk_slots pk)) ->
  ~ all_empty (place_step budget pslots pk d).
Proof.
  intros He Hd (k & Hk & Hlt). unfold place_step.
  assert (k ∈ usable budget pk pslots d) as Hu.
  { unfold usable, depSlotFor. rewrite Hd. apply list_elem_of_filter. split; [|done].
    rewrite bool_decide_eq_true_2 by done. simpl.
    apply lookup_lt_is_Some in Hlt as [s Hs]. rewrite Hs. unfold fits.
    unfold all_empty in He. eapply Forall_lookup_1 in He; [|exact Hs]. by rewrite He. }
  destruct (stable_sort_head_Some (fuller (pk_slots pk)) (usable budget pk pslots d)) as [i Hi].
  { intros Hn. rewrite Hn in Hu. by apply elem_of_nil in Hu. }
  rewrite Hi. apply stable_sort_head, usable_spec in Hi as (_ & s & Hs & _).
  intros Hall. unfold all_empty in Hall. simpl in Hall.
  apply (Forall_lookup_1 _ _ i (put d s)) in Hall.
  - simpl in Hall. by destruct (sl_items s).
  - by rewrite list_lookup_alter_eq, Hs.
Qed.

Lemma place_step_nonempty pk pslots d :
  ~ all_empty pk -> ~ all_empty (place_step budget pslots pk d).
Proof.
  intros Hn Hall. apply Hn. unfold place_step in Hall. destruct (head _) as [i|]; [|done].
  unfold all_empty in *. simpl in Hall. rewrite Forall_lookup in *. intros k s Hs.
  destruct (decide (i = k)) as [->|Hne].
  - specialize (Hall k (put d s)). rewrite list_lookup_alter_eq, Hs in Hall.
    specialize (Hall eq_refl). simpl in Hall. by destruct (sl_items s).
  - apply (Hall k). by rewrite list_lookup_alter_ne.
Qed.

Lemma place_step_length pk pslots d :
  length (pk_slots (place_step budget pslots pk d)) = length (pk_slots pk).
Proof. unfold place_step. destruct (head _); [apply length_alter|done]. Qed.

Lemma fold_place_keeps ds pslots pk :
  (~ all_empty pk -> ~ all_empty (foldl (place_step budget pslots) pk ds)) /\
  length (pk_slots (foldl (place_step budget pslots) pk ds)) = length (pk_slots pk).
Proof.
  revert pk. induction ds as [|d ds IH]; intros pk; simpl; [done|].
  destruct (IH (place_step budget pslots pk d)) as [He Hl]. rewrite Hl, place_step_length.
  split; [|done]. intros Hn. by apply He, place_step_nonempty.
Qed.

Lemma fold_place_free ds pslots pk d :
  d ∈ ds -> ds_deps d = [] -> (exists k, k ∈ pslots /\ k < length (pk_slots pk)) ->
  ~ all_empty (foldl (place_step budget pslots) pk ds).
Proof.
  revert pk. induction ds as [|e ds IH]; intros pk Hd Hdep Hk; [by apply elem_of_nil in Hd|]. simpl.
  apply elem_of_cons in Hd as [<-|Hd].
  - apply fold_place_keeps. destruct (decide (all_empty pk)); [by apply place_free|by apply place_step_nonempty].
  - apply IH; [done|done|]. by rewrite place_step_length.
Qed.

Lemma place_all_free xs pk x d :
  x ∈ xs -> d ∈ x.1 -> ds_deps d = [] -> (exists k, k ∈ x.2 /\ k < length (pk_slots pk)) ->
  ~ all_empty (foldl (place_partition budget) pk xs).
Proof.
  revert pk. induction xs as [|y xs IH]; intros pk Hx Hd Hdep Hk; [by apply elem_of_nil in Hx|]. simpl.
  destruct (fold_place_keeps y.1 y.2 pk) as [_ Hlen]. fold (place_partition budget pk y) in Hlen.
  apply elem_of_cons in Hx as [<-|Hx].
  - assert (Hn : ~ all_empty (place_partition budget pk x)) by by eapply fold_place_free.
    clear -Hn. revert pk Hn. induction xs as [|y xs IH]; intros pk Hn; [done|]. simpl.
    cut (forall pk', ~ all_empty pk' -> ~ all_empty (foldl (place_partition budget) pk' (y :: xs)));
      [intros Hc; by apply (Hc (place_partition budget pk x))|].
    clear. intros pk' Hn. revert pk' Hn. generalize (y :: xs). clear. intros l.
    induction l as [|z l IH]; intros pk' Hn; simpl; [done|]. apply IH. by apply fold_place_keeps.
  - apply IH; try done. by rewrite Hlen.
Qed.
End place.

(** ** Slots of the partitions *)

Lemma argmin_lt l : l ≠ [] -> argmin l < length l.
Proof.
  induction l as [|x l IH]; [done|]. intros _. cbn [argmin]. destruct l as [|y l]; [simpl; lia|].
  specialize (IH ltac:(done)). cbn zeta.
  destruct (x <=? _)%nat; cbn [length] in *; lia.
Qed.

(** Every partition has a slot, and every slot exists. *)
Definition alloc_ok (n : nat) (alloc : list (list nat)) : Prop :=
  forall ss, ss ∈ alloc -> ss ≠ [] /\ forall k, k ∈ ss -> k < n.

Lemma merge_slots_ok claimed ps :
  claimed ≠ [] ->
  length (merge_slots claimed ps) = length ps /\ alloc_ok (length claimed) (merge_slots claimed ps).
Proof.
  revert claimed. induction ps as [|p ps IH]; intros claimed Hc; simpl.
  { split; [done|]. intros ss Hs. by apply elem_of_nil in Hs. }
  destruct (IH (alter (fun n => n + length p.2)%nat (argmin claimed) claimed)) as [Hl Ha].
  { intros Hn. apply (f_equal length) in Hn. rewrite length_alter in Hn. by destruct claimed. }
  rewrite length_alter in Ha. split; [lia|].
  intros ss [->|Hs]%elem_of_cons; [|by apply Ha]. split; [done|].
  intros k ->%list_elem_of_singleton. by apply argmin_lt.
Qed.

Lemma concat_snoc_alter (l : list (list nat)) i x :
  concat (alter (fun ss => ss ++ [x]) i l) ≡ₚ concat l \/
  concat (alter (fun ss => ss ++ [x]) i l) ≡ₚ x :: concat l.
Proof.
  revert i. induction l as [|ss l IH]; intros [|i]; simpl; [by left..| |].
  - right. rewrite <-app_assoc. simpl. by rewrite <-Permutation_middle.
  - change (concat (alter (fun ss => ss ++ [x]) (S i) (ss :: l)))
      with (ss ++ concat (alter (fun ss => ss ++ [x]) i l)).
    destruct (IH i) as [Hp|Hp]; rewrite Hp; [by left|right]. by rewrite <-Permutation_middle.
Qed.

Lemma alter_elem {A} (g : A -> A) (l : list A) i y :
  y ∈ alter g i l -> y ∈ l \/ exists x, x ∈ l /\ y = g x.
Proof.
  intros (k & Hk)%list_elem_of_lookup. destruct (decide (i = k)) as [->|Hne].
  - rewrite list_lookup_alter_eq in Hk. destruct (l !! k) as [x|] eqn:Hx; [|done].
    simpl in Hk. simplify_eq. right. exists x. split; [|done]. by eapply list_elem_of_lookup_2.
  - rewrite list_lookup_alter_ne in Hk by done. left. by eapply list_elem_of_lookup_2.
Qed.

Lemma spare_slots_ok spare next members alloc :
  alloc_ok next alloc -> NoDup (concat alloc) ->
  let a := spare_slots spare next members alloc in
  length a = length alloc /\ alloc_ok (next + spare) a /\ NoDup (concat a).
Proof.
  revert next alloc. induction spare as [|spare IH]; intros next alloc Ha Hnd; cbn zeta; simpl.
  { rewrite Nat.add_0_r. done. }
  destruct (heaviest None 0 _) as [i|].
  2:{ split; [done|]. split; [|done]. intros ss Hs. destruct (Ha ss Hs) as [? Hk].
      split; [done|]. intros k Hin. specialize (Hk k Hin). lia. }
  destruct (IH (S next) (alter (fun ss => ss ++ [next]) i alloc)) as (Hl & Ha' & Hnd').
  - intros ss [Hs|(ss0 & Hs & ->)]%alter_elem; destruct (Ha _ Hs) as [Hne Hk].
    + split; [done|]. intros k Hin. specialize (Hk k Hin). lia.
    + split; [by destruct ss0|]. intros k [Hin|Hin%list_elem_of_singleton]%elem_of_app;
        [specialize (Hk k Hin)|]; lia.
  - destruct (concat_snoc_alter alloc i next) as [Hp|Hp]; rewrite Hp; [done|].
    constructor; [|done]. intros Hin.
    apply list_elem_of_In, in_concat in Hin as (ss & Hs & Hin). apply list_elem_of_In in Hs, Hin.
    destruct (Ha ss Hs) as [_ Hk]. specialize (Hk next Hin). lia.
  - rewrite length_alter in Hl. replace (next + S spare) with (S next + spare) by lia. done.
Qed.

Lemma slot_alloc_spec (homogeneous : bool) n (ps : list (string * list desc)) :
  0 < n ->
  let a := slot_alloc homogeneous n ps in
  length a = length ps /\ alloc_ok (slot_count homogeneous n ps) a /\
  (homogeneous = true -> NoDup (concat a)).
Proof.
  intros Hn. cbn zeta. unfold slot_alloc, slot_count.
  destruct (negb homogeneous && (n <? length ps)%nat) eqn:Hm.
  - destruct (merge_slots_ok (replicate n 0) ps) as [Hl Ha].
    { intros Hr. apply (f_equal length) in Hr. rewrite length_replicate in Hr. simpl in Hr. lia. }
    rewrite length_replicate in Ha. split; [done|]. split; [done|].
    intros ->. simpl in Hm. done.
  - assert (Hnd : NoDup (concat ((fun i => [i]) <$> seq 0 (length ps)))).
    { replace (concat _) with (seq 0 (length ps)); [apply NoDup_seq|].
      generalize (seq 0 (length ps)). intros l. induction l as [|x l IH]; [done|]. exact (f_equal (cons x) IH). }
    destruct (spare_slots_ok (n - length ps) (length ps) ((fun p => length p.2) <$> ps)
                ((fun i => [i]) <$> seq 0 (length ps))) as (Hl & Ha & Hnd'); [|done|].
    + intros ss (k & -> & Hk)%list_elem_of_fmap. split; [done|].
      intros j ->%list_elem_of_singleton. apply elem_of_seq in Hk. lia.
    + rewrite length_fmap, length_seq in Hl. split; [done|]. split; [|done].
      replace (length ps + (n - length ps)) with (max n (length ps)) in Ha by lia. done.
Qed.

(** ** Packing *)

Section pack.
Context (o : pack_opts) (n : nat) (ds : list desc).
Context (n_pos : 0 < n) (ids : NoDup (ds_index <$> ds)).

Notation ps := (partitions (topo_order ds)).
Notation alloc := (slot_alloc (po_tierHomogeneous o) n ps).
Notation xs := (zip ps.*2 alloc).

(** The slots the packing may put a streak in. *)
Definition may_use (d : desc) (k : nat) : Prop := exists x, x ∈ xs /\ d ∈ x.1 /\ k ∈ x.2.

Lemma alloc_length : length alloc = length ps.
Proof. by destruct (slot_alloc_spec (po_tierHomogeneous o) n ps n_pos) as (? & _). Qed.

Lemma xs_fst : xs.*1 = ps.*2.
Proof. apply fst_zip. rewrite alloc_length, length_fmap. done. Qed.

Lemma xs_concat : concat xs.*1 ≡ₚ ds.
Proof.
  rewrite xs_fst. unfold partitions. rewrite (group_by_concat ds_tierKey). by apply topo_order_perm.
Qed.

Lemma pack_pack_ok :
  pack_ok (effort_budget o) may_use (slot_count (po_tierHomogeneous o) n ps) ds (pack o n ds).
Proof.
  pose proof (place_all_ok (effort_budget o) may_use (slot_count (po_tierHomogeneous o) n ps) []
    {| pk_slots := replicate (slot_count (po_tierHomogeneous o) n ps) empty_slot; pk_overflow := [] |} xs)
    as Hp. fold (pack o n ds) in Hp. simpl in Hp.
  destruct Hp as (Hl & Hperm & Hok).
  - split; [cbn [pk_slots]; by rewrite length_replicate|]. split; cbn [pk_slots pk_overflow].
    + rewrite app_nil_r. generalize (slot_count (po_tierHomogeneous o) n ps). intros m.
      induction m as [|m IH]; simpl; [done|]. done.
    + intros k s [-> _]%lookup_replicate. split; [done|]. split; [by left; simpl; lia|].
      split; [intros d Hd; by apply elem_of_nil in Hd|]. intros before d after Heq.
      by destruct before.
  - intros x d k Hx Hd Hk. by exists x.
  - split; [done|]. split; [|done]. rewrite Hperm. apply xs_concat.
Qed.

(** Two streaks that may use one slot are of one tier, when tiers are kept
    apart. *)
Lemma may_use_tier d e k :
  po_tierHomogeneous o = true -> may_use d k -> may_use e k -> ds_tierKey d = ds_tierKey e.
Proof.
  intros Hh (x & Hx & Hd & Hk) (y & Hy & He & Hk').
  destruct (slot_alloc_spec (po_tierHomogeneous o) n ps n_pos) as (_ & _ & Hnd). specialize (Hnd Hh).
  apply list_elem_of_lookup in Hx as [i Hi], Hy as [j Hj].
  assert (Hz : forall m z, xs !! m = Some z -> exists t, ps !! m = Some (t, z.1) /\ alloc !! m = Some z.2).
  { intros m z Hm. apply lookup_zip_with_Some in Hm as (a & b & -> & Ha & Hb).
    rewrite list_lookup_fmap in Ha. destruct (ps !! m) as [[t g]|]; simplify_eq/=. by exists t. }
  destruct (Hz _ _ Hi) as (t & Hti & Hai), (Hz _ _ Hj) as (u & Huj & Haj).
  assert (i = j) as ->.
  { destruct (decide (i = j)) as [|Hne]; [done|]. exfalso. clear -Hnd Hai Haj Hk Hk' Hne.
    revert i j Hai Haj Hne. induction alloc as [|ss l IH]; intros i j Hi Hj Hne; [done|].
    cbn [concat] in Hnd. apply NoDup_app in Hnd as (_ & Hdis & Hnd).
    assert (Hin : forall m (zs : list nat), l !! m = Some zs -> k ∈ zs -> k ∈ concat l).
    { intros m zs Hm Hkz. apply list_elem_of_In, in_concat. exists zs.
      split; apply list_elem_of_In; [by eapply list_elem_of_lookup_2|done]. }
    destruct i as [|i], j as [|j]; simplify_eq/=; try done.
    - eapply Hdis; [exact Hk|]. by eapply Hin.
    - eapply Hdis; [exact Hk'|]. by eapply Hin.
    - eapply (IH Hnd i j); eauto. }
  assert (Hkey : forall t g z, (t, g) ∈ ps -> z ∈ g -> ds_tierKey z = t).
  { intros t0 g z Hin Hz0. apply group_by_elem in Hin as ->. apply list_elem_of_filter in Hz0 as [Hz0 _].
    congruence. }
  assert (Some (t, x.1) = Some (u, y.1)) as Heq by by rewrite <-Hti, <-Huj.
  injection Heq as Htu _. rewrite (Hkey t x.1 d), (Hkey u y.1 e); try done; by eapply list_elem_of_lookup_2.
Qed.

Lemma pack_progress :
  (exists d, d ∈ ds /\ ds_deps d = []) -> exists s, s ∈ pk_slots (pack o n ds) /\ sl_items s ≠ [].
Proof.
  intros (d & Hd & Hdep).
  assert (Hn : ~ all_empty (pack o n ds)).
  { rewrite <-xs_concat in Hd. apply list_elem_of_In, in_concat in Hd as (g & Hg & Hd).
    apply list_elem_of_In in Hg, Hd. apply list_elem_of_fmap in Hg as (x & -> & Hx).
    destruct (slot_alloc_spec (po_tierHomogeneous o) n ps n_pos) as (_ & Ha & _).
    assert (Hx2 : x.2 ∈ alloc).
    { destruct x as [g ss]. apply elem_of_zip_r in Hx. done. }
    destruct (Ha _ Hx2) as [Hne Hlt].
    apply (place_all_free _ xs _ x d); [done|done|done|].
    destruct (x.2) as [|k ss] eqn:E; [done|]. exists k. split; [set_solver|].
    simpl. rewrite length_replicate. apply Hlt. set_solver. }
  apply not_Forall_Exists in Hn; [|intros s; apply _].
  apply Exists_exists in Hn as (s & Hs & Hne). by exists s.
Qed.
End pack.

(** ** The assignment *)

Section assignment.
Context (streaks : list (list rbead)).

Lemma descs_lookup i d :
  descs streaks !! i = Some d <-> exists s, streaks !! i = Some s /\ d = describe streaks i s.
Proof.
  unfold descs. rewrite list_lookup_imap. destruct (streaks !! i); simpl; [|naive_solver].
  split; [intros [= <-]; eauto|by intros (s & [= <-] & ->)].
Qed.

Lemma descs_index : ds_index <$> descs streaks = seq 0 (length streaks).
Proof.
  apply list_eq. intros i. rewrite list_lookup_fmap. unfold descs. rewrite list_lookup_imap.
  destruct (streaks !! i) as [s|] eqn:Hs; simpl; symmetry.
  - apply lookup_seq. split; [done|]. by eapply lookup_lt_Some.
  - apply lookup_seq_ge. by apply lookup_ge_None.
Qed.

Lemma descs_streak : ds_streak <$> descs streaks = streaks.
Proof.
  apply list_eq. intros i. rewrite list_lookup_fmap. unfold descs. rewrite list_lookup_imap.
  by destruct (streaks !! i).
Qed.

Lemma descs_NoDup : NoDup (ds_index <$> descs streaks).
Proof. rewrite descs_index. apply NoDup_seq. Qed.

Lemma elem_of_descs d :
  d ∈ descs streaks ->
  streaks !! ds_index d = Some (ds_streak d) /\ d = describe streaks (ds_index d) (ds_streak d).
Proof. intros (i & (s & Hs & ->)%descs_lookup)%list_elem_of_lookup. done. Qed.

(** A dependency on another streak of the round is one of the indices. *)
Lemma dep_indexes_spec i s b id :
  b ∈ s -> id ∈ beadBlocksDependencyIds b -> (exists t, t ∈ streaks /\ id ∈ r_id <$> t) ->
  exists j t, streaks !! j = Some t /\ id ∈ r_id <$> t /\ (j = i \/ j ∈ dep_indexes streaks i s).
Proof.
  intros Hb Hid (t & Ht & Hidt).
  assert (exists j, streak_of_bead streaks id = Some j) as [j Hj].
  { unfold streak_of_bead. destruct (last _) as [x|] eqn:E; [by exists x.1|].
    apply last_None in E. exfalso. apply list_elem_of_lookup in Ht as [m Hm].
    assert ((m, t) ∈ filter (fun x => id ∈ r_id <$> x.2) (imap pair streaks)) as Hin.
    { apply list_elem_of_filter. split; [done|]. by apply elem_of_lookup_imap_2. }
    rewrite E in Hin. by apply elem_of_nil in Hin. }
  assert (Hj' := Hj). unfold streak_of_bead in Hj'.
  destruct (last _) as [[j' t']|] eqn:E; [|done]. simpl in Hj'. simplify_eq.
  apply last_Some_elem_of in E. apply list_elem_of_filter in E as [Hin Hel]. simpl in Hin.
  apply elem_of_lookup_imap in Hel as (m & t'' & [= -> ->] & Hm).
  exists m, t''. split; [done|]. split; [done|]. destruct (decide (m = i)) as [|Hne]; [by left|right].
  unfold dep_indexes. apply elem_of_dedup, list_elem_of_filter. split; [done|].
  apply list_elem_of_omap. exists id. split; [|done]. apply list_elem_of_bind. by exists b.
Qed.

Context (o : pack_opts) (doerCount : Z) (one_doer : (1 <= doerCount)%Z).

Notation result := (assignDoerWorklists streaks doerCount o).
Notation pk := (pack o (Z.to_nat doerCount) (descs streaks)).

(** The three ways the function returns. *)
Lemma assign_cases :
  (streaks = [] /\ result = {| as_worklists := []; as_overflow := []; as_packed := false |}) \/
  (result = {| as_worklists := (fun s => [s]) <$> streaks; as_overflow := []; as_packed := false |} /\
   (Z.of_nat (length streaks) <= doerCount)%Z) \/
  result = {| as_worklists := (fun s => ds_streak <$> sl_items s)
                <$> filter (fun s => negb (bool_decide (length (sl_items s) = 0)) = true) (pk_slots pk);
              as_overflow := ds_streak <$> pk_overflow pk; as_packed := true |}.
Proof.
  unfold assignDoerWorklists. case_bool_decide as Hs; simpl; [by left|].
  destruct (Z.ltb_spec doerCount 1); [lia|]. simpl.
  destruct (Z.leb_spec (Z.of_nat (length streaks)) doerCount); [right; left|right; right]; done.
Qed.

Lemma pk_ok :
  pack_ok (effort_budget o) (may_use o (Z.to_nat doerCount) (descs streaks))
    (slot_count (po_tierHomogeneous o) (Z.to_nat doerCount) (partitions (topo_order (descs streaks))))
    (descs streaks) pk.
Proof. apply pack_pack_ok; [lia|apply descs_NoDup]. Qed.

(** C18: packing loses no streak and gives none twice: the worklists and the
    streaks put off to the next round are a permutation of the streaks, and no
    worklist is empty. *)
Theorem assignment_keeps_every_streak :
  concat (as_worklists result) ++ as_overflow result ≡ₚ streaks /\
  Forall (fun w => w ≠ []) (as_worklists result).
Proof.
  destruct assign_cases as [[Hs ->]|[[-> _]| ->]]; simpl.
  - rewrite Hs. split; [done|constructor].
  - split; [|by apply Forall_fmap, Forall_true]. rewrite app_nil_r.
    clear. induction streaks as [|s l IH]; [done|]. simpl. by rewrite IH.
  - destruct pk_ok as (_ & Hperm & _). split.
    + apply (fmap_Permutation ds_streak) in Hperm. rewrite descs_streak, fmap_app in Hperm.
      etransitivity; [|exact Hperm]. f_equiv. clear.
      induction (pk_slots pk) as [|s l IH]; [done|]. rewrite filter_cons, fmap_cons. cbn [concat].
      rewrite fmap_app. case_bool_decide as Hs; cbn [negb].
      * apply nil_length_inv in Hs. rewrite Hs. done.
      * rewrite decide_True by done. rewrite fmap_cons. cbn [concat]. by rewrite IH.
    + apply Forall_fmap, Forall_forall. intros s [Hs _]%list_elem_of_filter. simpl.
      rewrite negb_true_iff, bool_decide_eq_false in Hs. by destruct (sl_items s).
Qed.

(** A worklist of a packed round is the content of a slot. *)
Lemma worklist_slot w :
  as_packed result = true -> w ∈ as_worklists result ->
  exists k s, pk_slots pk !! k = Some s /\ w = ds_streak <$> sl_items s.
Proof.
  destruct assign_cases as [[_ ->]|[[-> _]| ->]]; [done|done|]. simpl. intros _ Hw.
  apply list_elem_of_fmap in Hw as (s & -> & Hs). apply list_elem_of_filter in Hs as [_ Hs].
  apply list_elem_of_lookup in Hs as [k Hk]. eauto.
Qed.

Lemma slot_items_descs k s d : pk_slots pk !! k = Some s -> d ∈ sl_items s -> d ∈ descs streaks.
Proof.
  intros Hk Hd. destruct pk_ok as (_ & Hperm & _). rewrite <-Hperm. apply elem_of_app. left.
  apply list_elem_of_In, in_concat. exists (sl_items s). split; apply list_elem_of_In; [|done].
  apply list_elem_of_fmap_2. by eapply list_elem_of_lookup_2.
Qed.

Lemma effort_sum_streaks k s :
  pk_slots pk !! k = Some s ->
  effort_sum (sl_items s) = foldr Z.add 0%Z (streakEffortPoints <$> (ds_streak <$> sl_items s)).
Proof.
  intros Hk. assert (Hall : forall d, d ∈ sl_items s -> d ∈ descs streaks)
    by (intros d; by apply (slot_items_descs k)). clear Hk.
  induction (sl_items s) as [|d l IH]; [done|]. simpl. rewrite IH by (intros; apply Hall; set_solver).
  f_equal. destruct (elem_of_descs d) as [_ Heq]; [apply Hall; set_solver|].
  rewrite Heq at 1. done.
Qed.


(** a round with a streak that depends on no other streak of the round
    dispatches something. *)
Theorem packing_makes_progress :
  (exists i s, streaks !! i = Some s /\ dep_indexes streaks i s = []) -> as_worklists result ≠ [].
Proof.
  intros (i & s & Hs & Hd).
  destruct assign_cases as [[-> _]|[[-> _]| ->]]; [done|by destruct streaks|].
  destruct (pack_progress o (Z.to_nat doerCount) (descs streaks)) as (sl & Hsl & Hne);
    [lia|apply descs_NoDup| |].
  { exists (describe streaks i s). split; [|done]. eapply list_elem_of_lookup_2, descs_lookup. eauto. }
  simpl. intros Hn. apply fmap_nil_inv in Hn.
  assert (sl ∈ []) as Hin; [|by apply elem_of_nil in Hin].
  rewrite <-Hn. apply list_elem_of_filter. split; [|done].
  rewrite negb_true_iff, bool_decide_eq_false. by destruct (sl_items sl).
Qed.
End assignment.

(** ** Runs *)

Definition task (id model : string) (prio : Z) (deps : list jsval) : rbead :=
  {| r_id := id; r_status := JStr "open"; r_parent := JNull; r_priority := jint prio;
     r_title := JStr id; r_dependencies := JArr deps;
     r_metadata := JObj [("model", JStr model); ("size", JStr "M")] |}.

(** Four streaks for two doers: one of another tier, one that follows the
    first. *)
Definition round_streaks : list (list rbead) :=
  [[task "a" "standard" 1 []]; [task "b" "premium" 1 []];
   [task "c" "standard" 0 [JObj [("depends_on_id", JStr "a"); ("dependency_type", JStr "blocks")]]];
   [task "d" "standard" 2 []]].
Definition apart : pack_opts := {| po_effortBudget := Some 40%Z; po_tierHomogeneous := true |}.

Definition worklist_ids (a : assignment) : list (list (list string)) :=
  map (map (map r_id)) (as_worklists a).

Lemma assignment_keeps_every_streak_witness :
  worklist_ids (assignDoerWorklists round_streaks 2 apart) = [[["a"]; ["c"]]; [["b"]]] /\
  concat (as_worklists (assignDoerWorklists round_streaks 2 apart))
    ++ as_overflow (assignDoerWorklists round_streaks 2 apart) ≡ₚ round_streaks.
Proof.
  split; [vm_compute; reflexivity|].
  refine (proj1 (assignment_keeps_every_streak round_streaks apart 2 _)). lia.
Defined.


Lemma packing_makes_progress_witness :
  as_worklists (assignDoerWorklists round_streaks 2 apart) ≠ [].
Proof.
  apply (packing_makes_progress round_streaks apart 2); [lia|].
  exists 1, [task "b" "premium" 1 []]. split; vm_compute; reflexivity.
Defined.

(** two ready beads that name each other in a link of [bd list]'s shape that
    is not a [blocks] edge are still taken to depend on each other: with more
    streaks than doers neither is dispatched, and the round is empty. *)
Theorem related_links_block_packing :
  let related id := JObj [("type", JStr "related"); ("depends_on_id", JStr id)] in
  let a := task "a" "standard" 1 [related "b"] in
  let b := task "b" "standard" 1 [related "a"] in
  blocksPrereqIds a = [] /\ blocksPrereqIds b = [] /\
  assignDoerWorklists [[a]; [b]] 1 {| po_effortBudget := None; po_tierHomogeneous := true |}
    = {| as_worklists := []; as_overflow := [[a]; [b]]; as_packed := true |}.
Proof. vm_compute. repeat split. Qed.
