(* ===== verification/Dispatch.v ===== *)
(** * Which beads a develop round may dispatch

    [dispatchableReadyLeafBeads] of [fleet-sprint/runner.js], over the ready
    leaves and the scope it reads from [bd], the exclusion of set-aside beads at
    the start of a round, and the bookkeeping of a doer's BLOCKED report
    ([phases/develop.mjs]). *)

From Stdlib Require Import Ascii QArith.
From S2P Require Import Prelude JsMap JsVal Text Closure BeadGraph SetAside Worklists.
Local Open Scope string_scope.
Local Open Scope list_scope.

Record sprint_state := {
  ss_blocked : blocked_map;            (** [doctorBlockedIds] *)
  ss_waiting : waiting_map;            (** [waitingIds] *)
  ss_permission : list string          (** keys of [permissionScopeBlockedBeads] *)
}.

Section dispatch.
Context (json_parse : string -> option jsval) (locale_le : string -> string -> bool).

(** A waiting bead is held while a prerequisite of it is open. *)
Definition still_waiting (st : sprint_state) (scope : list rbead) (b : rbead) : bool :=
  jhas (r_id b) (ss_waiting st)
  && negb (bool_decide (un_inScope (unmetPrerequisites json_parse locale_le b scope []) = [])).

Definition isAside (st : sprint_state) (b : rbead) : bool :=
  jhas (r_id b) (ss_blocked st) || bool_decide (r_id b ∈ ss_permission st).

Definition dispatchableReadyLeafBeads (st : sprint_state) (ready scope : list rbead) (goal : string)
    (workedOnBeadIds : list string) : option (list rbead) :=
  sp ← partitionReadyByGoal json_parse ready scope goal workedOnBeadIds;
  let candidates := filter (fun b => negb (still_waiting st scope b) = true) (rs_dispatchable sp) in
  h ← holdBackByLaneOrder json_parse (filter (fun b => negb (isAside st b) = true) candidates) scope;
  Some (match lh_held h with
        | [] => candidates
        | _ =>
            let keep := (r_id <$> lh_dispatchable h)
                        ++ (r_id <$> filter (fun b => isAside st b = true) candidates) in
            filter (fun b => r_id b ∈ keep) candidates
        end).

(** The beads of a round that are not set aside. *)
Definition round_beads (st : sprint_state) (l : list rbead) : list rbead :=
  filter (fun b => negb (isAside st b) = true) l.

(** ** Recording a BLOCKED report *)

Record doer_report := { rp_blockedIds : option (list string); rp_notes : jsval }.

(** [notes.replace(/\s+/g, ' ')]. *)
Fixpoint collapse_ws (s : string) : string :=
  match s with
  | "" => ""
  | String c r =>
      if ws_char c then
        match collapse_ws r with
        | String " " t => String " " t
        | t => String " " t
        end
      else String c (collapse_ws r)
  end.

(** The reason recorded for a bead the doer blocked: its notes, capped. *)
Definition doerReason (doerMember : string) (streakIds : list string) (r : doer_report) : string :=
  let rawNotes := match rp_notes r with JStr n => trim (collapse_ws n) | _ => "" end in
  let doerNotes := if (300 <? String.length rawNotes)%nat then String.substring 0 297 rawNotes +:+ "..."
                   else rawNotes in
  "doer on member '" +:+ doerMember +:+ "' reported BLOCKED on streak [" +:+ String.concat ", " streakIds +:+ "]"
  +:+ (if nonempty doerNotes then ": " +:+ doerNotes else "").

(** Which open beads the report blocks; [None]: nothing is set aside. *)
Definition report_ids (r : doer_report) (unclosedIds streakIds : list string) : option (list string) :=
  match rp_blockedIds r with
  | Some [] => None
  | Some ids => Some (filter (fun id => id ∈ unclosedIds) ids)
  | None => match streakIds, unclosedIds with
            | [_], [id] => Some [id]
            | _, _ => None
            end
  end.

(** The streak's own beads that the read-back shows closed count as closed. *)
Definition with_closed (closedNow : list string) (scope : list rbead) : list rbead :=
  (fun b => if decide (r_id b ∈ closedNow)
            then {| r_id := r_id b; r_status := JStr "closed"; r_parent := r_parent b;
                    r_priority := r_priority b; r_title := r_title b;
                    r_dependencies := r_dependencies b; r_metadata := r_metadata b |}
            else b) <$> scope.

Definition record_wait (cycle round : Z) (m : waiting_map) (w : string * list string) : waiting_map :=
  jset w.1 {| wt_on := w.2; wt_cycle := Some cycle; wt_round := Some round |} m.

Definition record_aside (cycle round : Z) (reason : string) (m : blocked_map) (s : string * string)
    : blocked_map :=
  jset s.1 {| bl_kind := Some "blocked"; bl_blockedBy := Some s.1;
              bl_reason := Some (reason +:+ s.2);
              bl_cycle := Some cycle; bl_round := Some round |} m.

Definition record_dependent (cycle round : Z) (m : blocked_map) (x : string * string) : blocked_map :=
  if jhas x.1 m then m
  else jset x.1 {| bl_kind := Some "dependent"; bl_blockedBy := Some x.2;
                   bl_reason := Some ("depends (via blocks edges) on doer-BLOCKED bead '" +:+ x.2 +:+ "'");
                   bl_cycle := Some cycle; bl_round := Some round |} m.

Definition recordDoerBlocked (st : sprint_state) (scope all : list rbead) (cycle round : Z)
    (doerMember : string) (r : doer_report) (unclosedIds streakIds : list string) : option sprint_state :=
  match report_ids r unclosedIds streakIds with
  | None | Some [] => Some st
  | Some blockedIds =>
      let closedNow := filter (fun id => id ∉ unclosedIds) streakIds in
      let scope' := with_closed closedNow scope in
      let decision := classifyBlockedReport json_parse locale_le scope' all
                        (ss_blocked st) (ss_waiting st) blockedIds in
      let waiting := foldl (record_wait cycle round) (ss_waiting st) (bs_wait decision) in
      let blocked := foldl (record_aside cycle round (doerReason doerMember streakIds r)) (ss_blocked st) (bs_setAside decision) in
      let fresh := (bs_setAside decision).*1 in
      match fresh with
      | [] => Some {| ss_blocked := blocked; ss_waiting := waiting; ss_permission := ss_permission st |}
      | _ =>
          dependents ← openBlocksDependents fresh scope';
          Some {| ss_blocked := foldl (record_dependent cycle round) blocked dependents;
                  ss_waiting := waiting; ss_permission := ss_permission st |}
      end
  end.
End dispatch.
