(* ===== verification/DispatchProps.v ===== *)
(** * No open work is left behind silently

    A develop round that dispatches nothing is a stall the runner reports: each
    open bead at goal priority can be dispatched, now or after beads that can,
    or is set aside or stuck.  A BLOCKED report always moves the run on. *)

From Stdlib Require Import Ascii QArith.
From S2P Require Import Prelude JsMap JsVal Text Closure BeadGraph BeadGraphProps SetAside SetAsideProps.
From S2P Require Import Worklists WorklistsProps Dispatch.
Local Open Scope string_scope.
Local Open Scope list_scope.

Section round.
Context (json_parse : string -> option jsval) (locale_le : string -> string -> bool).
Context (st : sprint_state) (ready scope all : list rbead) (goal : string) (worked : list string).
Context (rank : string -> nat).

Notation pre := (pre_of json_parse locale_le scope all).
Notation byId := (indexById (scope ++ ready)).
Notation stuck_bead := (stuck json_parse locale_le scope all (ss_blocked st) (ss_waiting st)).

(** The listing: unique ids, and the ready beads are beads of the scope. *)
Hypothesis scope_ids : NoDup (r_id <$> scope).
Hypothesis all_ids : NoDup (r_id <$> all).
Hypothesis ready_scope : ready ⊆ scope.
(** [bd] offers every open bead without an unmet prerequisite. *)
Hypothesis ready_complete : forall b, b ∈ scope -> is_open b = true ->
  un_inScope (pre b) = [] -> un_outOfScope (pre b) = [] -> b ∈ ready.
(** No open prerequisite lies outside the scope, and there are no cycles. *)
Hypothesis inside : forall b, b ∈ scope -> is_open b = true -> un_outOfScope (pre b) = [].
Hypothesis rank_decreases : forall b x, b ∈ scope -> is_open b = true ->
  x ∈ un_inScope (pre b) -> rank x < rank (r_id b).
Hypothesis no_permission_block : ss_permission st = [].

Lemma elem_of_byId b : b ∈ byId <-> b ∈ scope.
Proof.
  rewrite indexById_consistent.
  - rewrite elem_of_app. split; [intros [?|?]; [done|by apply ready_scope]|by left].
  - intros a c Ha Hc Heq. apply (bead_id_inj scope); [done| | |done].
    + apply elem_of_app in Ha as [?|?]; [done|by apply ready_scope].
    + apply elem_of_app in Hc as [?|?]; [done|by apply ready_scope].
Qed.

(** An unmet prerequisite is an open bead of the scope, one edge away. *)
Lemma prerequisite_bead b x :
  b ∈ scope -> x ∈ un_inScope (pre b) ->
  (exists p, p ∈ scope /\ r_id p = x /\ is_open p = true) /\ prereq_edge json_parse byId (r_id b) x.
Proof.
  intros Hb Hx. apply (unmet_spec json_parse locale_le b scope all scope_ids all_ids) in Hx as [_ [[Hp Ho]|Hm]].
  - split; [done|]. exists b. split; [by apply elem_of_byId|]. split; [done|]. by left.
  - destruct Hm as (m & Hm & <- & Ho & Hl). split; [by exists m|].
    exists b. split; [by apply elem_of_byId|]. split; [done|]. right. exists m.
    split; [by apply elem_of_byId|done].
Qed.

(** The scope without the whole listing gives the same in-scope part. *)
Lemma inScope_all b : un_inScope (unmetPrerequisites json_parse locale_le b scope []) = un_inScope (pre b).
Proof. done. Qed.

(** A bead the goal lets through and nothing holds is dispatched. *)
Lemma free_bead_dispatched b :
  b ∈ scope -> is_open b = true -> un_inScope (pre b) = [] -> jhas (r_id b) (ss_blocked st) = false ->
  (isBelowGoal goal b = false \/ needed json_parse goal worked ready scope (r_id b)) ->
  exists l, dispatchableReadyLeafBeads json_parse locale_le st ready scope goal worked = Some l /\
    b ∈ round_beads st l.
Proof.
  intros Hb Ho Hpre Hbl Hgoal. unfold dispatchableReadyLeafBeads.
  destruct (partition_spec json_parse ready scope goal worked) as (sp & -> & Hsp & _).
  cbn [mbind option_bind].
  set (cands := filter (fun b => negb (still_waiting json_parse locale_le st scope b) = true) (rs_dispatchable sp)).
  assert (Hcand : b ∈ cands).
  { unfold cands. apply list_elem_of_filter. split.
    - unfold still_waiting. rewrite inScope_all, Hpre. rewrite bool_decide_eq_true_2 by done.
      simpl. by rewrite andb_false_r.
    - apply Hsp. split; [apply ready_complete; [done..|by apply inside]|]. tauto. }
  assert (Haside : isAside st b = false).
  { unfold isAside. by rewrite Hbl, no_permission_block. }
  destruct (hold_spec json_parse (filter (fun b => negb (isAside st b) = true) cands) scope)
    as (h & -> & Hh). cbn [mbind option_bind].
  assert (Hlane : b ∈ lh_dispatchable h).
  { apply Hh. split; [apply list_elem_of_filter; by rewrite Haside|].
    intros Hheld. inversion Hheld as [b' m Hb' Hm Hor Heq].
    assert (b' = b) as ->.
    { apply (bead_id_inj scope); [done| |done|done]. apply list_elem_of_filter in Hb' as [_ Hb'].
      unfold cands in Hb'. apply list_elem_of_filter in Hb' as [_ Hb']. apply Hsp in Hb' as [Hb' _].
      by apply ready_scope. }
    unfold lowerOpenMates, open_laned in Hm.
    apply list_elem_of_fmap in Hm as (mb & -> & Hm).
    apply list_elem_of_filter in Hm as [[Hne Hl]%andb_true_iff Hm].
    apply list_elem_of_filter in Hm as [[Hmo _]%andb_true_iff Hm].
    assert (Hms : mb ∈ scope).
    { unfold indexById in Hm. destruct (absorb r_id [] _) as [s f] eqn:E. simpl in Hm.
      apply absorb_spec in E as (_ & Hf & _). apply Hf in Hm as [Hm _].
      apply elem_of_app in Hm as [Hm|Hm]; [done|]. apply list_elem_of_filter in Hm as [_ Hm].
      unfold cands in Hm. apply list_elem_of_filter in Hm as [_ Hm]. apply Hsp in Hm as [Hm _].
      by apply ready_scope. }
    assert (r_id mb ∈ un_inScope (pre b)) as Hin; [|rewrite Hpre in Hin; by apply elem_of_nil in Hin].
    apply (unmet_spec json_parse locale_le b scope all scope_ids all_ids).
    rewrite negb_true_iff, bool_decide_eq_false in Hne. split; [done|]. right. exists mb. done. }
  eexists. split; [reflexivity|]. unfold round_beads. apply list_elem_of_filter.
  split; [by rewrite Haside|]. destruct (lh_held h); [done|].
  apply list_elem_of_filter. split; [|done]. apply elem_of_app. left. by apply list_elem_of_fmap_2.
Qed.

(** What a bead waits for is needed once the bead is. *)
Lemma needed_step b x :
  b ∈ scope -> is_open b = true -> x ∈ un_inScope (pre b) ->
  isBelowGoal goal b = false \/ needed json_parse goal worked ready scope (r_id b) ->
  needed json_parse goal worked ready scope x.
Proof.
  intros Hb Ho Hx Hor. destruct (prerequisite_bead b x Hb Hx) as [_ He].
  destruct Hor as [Hlow|(x0 & Hx0 & Htc)].
  - exists (r_id b). split; [left|by constructor]. exists b. split; [by apply elem_of_byId|done].
  - exists x0. split; [done|]. by eapply tc_r.
Qed.

Lemma open_work n b :
  rank (r_id b) < n -> b ∈ scope -> is_open b = true ->
  isBelowGoal goal b = false \/ needed json_parse goal worked ready scope (r_id b) ->
  jhas (r_id b) (ss_blocked st) = true \/ stuck_bead (r_id b) \/
  exists l, dispatchableReadyLeafBeads json_parse locale_le st ready scope goal worked = Some l /\
    round_beads st l ≠ [].
Proof.
  revert b. induction n as [|n IH]; intros b Hn Hb Ho Hgoal; [lia|].
  destruct (jhas (r_id b) (ss_blocked st)) eqn:Hbl; [by left|right].
  destruct (un_inScope (pre b)) as [|x xs] eqn:Hpre.
  { right. destruct (free_bead_dispatched b Hb Ho Hpre Hbl Hgoal) as (l & Hl & Hin). exists l.
    split; [done|]. intros Hnil. rewrite Hnil in Hin. by apply elem_of_nil in Hin. }
  assert (Hx : x ∈ un_inScope (pre b)) by (rewrite Hpre; set_solver).
  destruct (prerequisite_bead b x Hb Hx) as [(p & Hp & Hpx & Hpo) _]. subst x.
  assert (Hopen : b ∈ open_beads scope (ss_blocked st)).
  { unfold open_beads. apply list_elem_of_filter. by rewrite Ho, Hbl. }
  destruct (IH p) as [Hpb|[Hps|Hd]]; [|done|done|right; by apply (needed_step b)| | |].
  - specialize (rank_decreases b (r_id p) Hb Ho Hx). lia.
  - left. by eapply stuck_behind; [|exact Hx|left].
  - left. by eapply stuck_behind; [|exact Hx|right].
  - by right.
Qed.

End round.

(** A sprint whose only free bead is set aside: the tests wait for it in their
    lane, another bead over an edge. *)
Definition aside_rows : list rbead :=
  [laned "impl" "s" 1 1 []; laned "test" "s" 2 1 []; laned "next" "t" 1 1 [blocks_on "test"]].
Definition aside_state : sprint_state :=
  {| ss_blocked := [("impl", {| bl_kind := None; bl_blockedBy := None; bl_reason := Some "no access";
                                bl_cycle := Some 1%Z; bl_round := Some 1%Z |})];
     ss_waiting := []; ss_permission := [] |}.


(** ** A BLOCKED report moves the run on *)

Lemma record_aside_has cycle round why l (m : blocked_map) id :
  jhas id (foldl (record_aside cycle round why) m l) = true <-> jhas id m = true \/ id ∈ l.*1.
Proof.
  revert m. induction l as [|x l IH]; intros m; simpl; [set_solver|].
  rewrite IH, elem_of_cons. unfold record_aside. rewrite jhas_jset. tauto.
Qed.

Lemma record_wait_has cycle round l (m : waiting_map) id :
  jhas id (foldl (record_wait cycle round) m l) = true <-> jhas id m = true \/ id ∈ l.*1.
Proof.
  revert m. induction l as [|x l IH]; intros m; simpl; [set_solver|].
  rewrite IH, elem_of_cons. unfold record_wait. rewrite jhas_jset. tauto.
Qed.

Lemma record_dependent_has cycle round l (m : blocked_map) id :
  jhas id (foldl (record_dependent cycle round) m l) = true <-> jhas id m = true \/ id ∈ l.*1.
Proof.
  revert m. induction l as [|x l IH]; intros m; simpl; [set_solver|].
  rewrite IH, elem_of_cons. unfold record_dependent. destruct (jhas x.1 m) eqn:Hx.
  - split; [tauto|]. intros [?|[->|?]]; tauto.
  - rewrite jhas_jset. tauto.
Qed.

Lemma with_closed_ids closedNow scope : r_id <$> with_closed closedNow scope = r_id <$> scope.
Proof.
  unfold with_closed. rewrite <-list_fmap_compose. apply list_fmap_ext. intros i b _. simpl.
  by case_decide.
Qed.

Section report.
Context (json_parse : string -> option jsval) (locale_le : string -> string -> bool).
Context (st : sprint_state) (scope all : list rbead) (cycle round : Z).
Context (doerMember : string) (r : doer_report) (unclosedIds streakIds : list string).

Notation scope' := (with_closed (filter (fun id => id ∉ unclosedIds) streakIds) scope).

Notation decision ids :=
  (classifyBlockedReport json_parse locale_le scope' all (ss_blocked st) (ss_waiting st) ids).
Notation waiting_after ids := (foldl (record_wait cycle round) (ss_waiting st) (bs_wait (decision ids))).
Notation blocked_after ids :=
  (foldl (record_aside cycle round (doerReason doerMember streakIds r)) (ss_blocked st)
         (bs_setAside (decision ids))).

(** Each reported bead ends up set aside, or begins its one wait. *)
Lemma reported_settled ids id :
  id ∈ ids ->
  jhas id (blocked_after ids) = true \/
  (jhas id (ss_waiting st) = false /\ jhas id (waiting_after ids) = true).
Proof.
  destruct (report_spec json_parse locale_le scope' all (ss_blocked st) (ss_waiting st) ids)
    as (Hw & Ha & Hfirst).
  intros Hid. rewrite record_aside_has, record_wait_has.
  destruct (jhas id (ss_blocked st)) eqn:Hb; [by left; left|].
  destruct (decide (id ∈ (bs_setAside (decision ids)).*1)) as [|Hna]; [by left; right|right].
  assert (Hwaits : waits json_parse locale_le scope' all (ss_blocked st) (ss_waiting st) id).
  { rewrite Ha in Hna. destruct (jhas id (ss_waiting st)) eqn:Hwt; unfold waits.
    - destruct Hna. split; [done|]. split; [done|]. intros (_ & _ & _ & ?). congruence.
    - split; [done|].
      destruct (un_outOfScope _) eqn:Ho; [|destruct Hna; split; [done|]; split; [done|];
        intros (_ & ? & _); congruence].
      destruct (un_inScope _) eqn:Hi; [destruct Hna; split; [done|]; split; [done|];
        intros (_ & _ & ? & _); congruence|]. done. }
  assert (Hin : (id, un_inScope (report_pre json_parse locale_le scope' all id)) ∈ bs_wait (decision ids))
    by by apply Hw.
  split; [by apply (Hfirst id _ Hin)|]. right. by apply (list_elem_of_fmap_2 fst) in Hin.
Qed.

(** Only reported beads are newly set aside. *)
Lemma aside_reported ids id :
  jhas id (blocked_after ids) = true -> jhas id (ss_blocked st) = false -> id ∈ ids.
Proof.
  intros Hid Hn. apply record_aside_has in Hid as [?|Hid]; [congruence|].
  by apply (report_spec json_parse locale_le scope' all (ss_blocked st) (ss_waiting st) ids) in Hid as [? _].
Qed.

Lemma records_kept ids id :
  (jhas id (ss_blocked st) = true -> jhas id (blocked_after ids) = true) /\
  (jhas id (ss_waiting st) = true -> jhas id (waiting_after ids) = true).
Proof. split; intros Hid; [apply record_aside_has|apply record_wait_has]; by left. Qed.

(** C25: a BLOCKED report is recorded without a loss, and never leaves the run
    where it was: what was set aside or waiting stays so, every bead the report
    blocks is afterwards set aside or has begun its one wait, and a bead newly
    set aside is one the report names or an open bead that depends, over
    [blocks] edges, on one it names. *)
Theorem blocked_report_recorded :
  NoDup (r_id <$> scope) ->
  exists st', recordDoerBlocked json_parse locale_le st scope all cycle round doerMember r unclosedIds streakIds
                = Some st' /\
    (forall id, jhas id (ss_blocked st) = true -> jhas id (ss_blocked st') = true) /\
    (forall id, jhas id (ss_waiting st) = true -> jhas id (ss_waiting st') = true) /\
    (forall ids id, report_ids r unclosedIds streakIds = Some ids -> id ∈ ids ->
       jhas id (ss_blocked st') = true \/
       (jhas id (ss_waiting st) = false /\ jhas id (ss_waiting st') = true)) /\
    (forall id, jhas id (ss_blocked st') = true -> jhas id (ss_blocked st) = false ->
       exists ids, report_ids r unclosedIds streakIds = Some ids /\
         (id ∈ ids \/ exists root, root ∈ ids /\ waits_on scope' root id)).
Proof.
  intros Hnd. unfold recordDoerBlocked.
  destruct (report_ids r unclosedIds streakIds) as [[|i ids]|] eqn:Hids.
  1,3: exists st; split; [done|]; split; [done|]; split; [done|]; split;
       [intros ids0 id [= <-] Hid; by apply elem_of_nil in Hid|intros id H1 H2; congruence].
  pose proof (reported_settled (i :: ids)) as Hdone.
  pose proof (aside_reported (i :: ids)) as Hnew.
  pose proof (records_kept (i :: ids)) as Hkeep.
  destruct (bs_setAside _).*1 as [|f fs] eqn:Hfresh.
  - eexists. split; [reflexivity|]. cbn [ss_blocked ss_waiting].
    split; [apply Hkeep|]. split; [apply Hkeep|]. split.
    + intros ids0 id [= <-]. by apply Hdone.
    + intros id Hid Hn. eexists. split; [done|]. left. by apply Hnew.
  - destruct (dependents_spec (f :: fs) scope') as (out & -> & _ & Hout & _); [by rewrite with_closed_ids|].
    eexists. split; [reflexivity|]. cbn [ss_blocked ss_waiting].
    split; [intros id Hid; apply record_dependent_has; left; by apply Hkeep|]. split; [apply Hkeep|]. split.
    + intros ids0 id [= <-] Hid. rewrite record_dependent_has. destruct (Hdone id Hid); tauto.
    + intros id Hid Hn. eexists. split; [done|].
      apply record_dependent_has in Hid as [Hid|Hid]; [left; by apply Hnew|right].
      apply list_elem_of_fmap in Hid as ([id' root] & -> & Hin). apply Hout in Hin as (Hroot & _ & Hwt).
      exists root. split; [|done].
      destruct (report_spec json_parse locale_le scope' all (ss_blocked st) (ss_waiting st) (i :: ids))
        as (_ & Ha & _). rewrite <-Hfresh in Hroot. by apply Ha in Hroot as [? _].
Qed.
End report.

(** The tests of a lane are reported before their implementation is done: they
    wait; reported again, they are set aside with what depends on them. *)
Lemma blocked_report_recorded_witness :
  let rep := {| rp_blockedIds := Some ["test"]; rp_notes := JStr "no access" |} in
  let st0 := {| ss_blocked := []; ss_waiting := []; ss_permission := [] |} in
  let rows := [laned "impl" "s" 1 1 []; laned "test" "s" 2 1 []; laned "next" "t" 1 1 [blocks_on "test"]] in
  let go st := recordDoerBlocked (fun _ => None) String.leb st rows rows 1 1 "alice" rep ["test"] ["test"] in
  (exists st1, go st0 = Some st1 /\ jhas "test" (ss_waiting st1) = true /\ ss_blocked st1 = [] /\
     exists st2, go st1 = Some st2 /\ (ss_blocked st2).*1 = ["test"; "next"]) /\
  exists st', go st0 = Some st' /\
    forall id, jhas id (ss_waiting st0) = true -> jhas id (ss_waiting st') = true.
Proof.
  split.
  - eexists. split; [vm_compute; reflexivity|]. split; [vm_compute; reflexivity|].
    split; [vm_compute; reflexivity|]. eexists. split; vm_compute; reflexivity.
  - destruct (blocked_report_recorded (fun _ => None) String.leb
      {| ss_blocked := []; ss_waiting := []; ss_permission := [] |}
      [laned "impl" "s" 1 1 []; laned "test" "s" 2 1 []; laned "next" "t" 1 1 [blocks_on "test"]]
      [laned "impl" "s" 1 1 []; laned "test" "s" 2 1 []; laned "next" "t" 1 1 [blocks_on "test"]]
      1 1 "alice" {| rp_blockedIds := Some ["test"]; rp_notes := JStr "no access" |} ["test"] ["test"])
      as (st' & Hst & _ & Hw & _).
    + apply (bool_decide_unpack _). vm_compute. exact I.
    + exists st'. split; [exact Hst|exact Hw].
Defined.
