(* ===== verification/PauseGate.v ===== *)
(** * The pause gate of the workflow engine

    [requestPause], [requestResume], [requestStop], [setPauseGuard],
    [setPreResumeHook], [_pauseGate] and the in-flight bookkeeping of
    [apra-fleet-workflow/src/workflow/index.mjs].

    A call of [agent()] or [command()] is a sequence of synchronous pieces that
    other code can run between: it arrives at the gate; once the gate returned,
    a later microtask counts it in flight and dispatches it; a call the gate
    blocked is resumed by the promise it waits on.  [pause_step] has one event
    per piece, so a run of events is one interleaving of the calls with the
    script, the operator and the pre-resume hook.  The guard's answer, when an
    event consults it, is an argument of the event. *)

From S2P Require Import Prelude.
Local Open Scope string_scope.
Local Open Scope list_scope.

(** Where a call stands. *)
Inductive call_pc :=
| Waiting      (** blocked at the gate, its promise in [_pauseWaiters] *)
| Released     (** its promise is resolved, the loop not yet re-checked *)
| Passed       (** [_pauseGate] has returned, [_enterActivity] not yet run *)
| InFlight
| Settled
| Torn.        (** rejected at the gate by [requestStop] *)

#[export] Instance call_pc_eq_dec : EqDecision call_pc.
Proof. solve_decision. Defined.

(** The emitted lifecycle events. *)
Inductive pause_event :=
| EvPauseRequested (reason : string) (resumeAt source : option string)
| EvPaused
| EvResumed (reason : string).

#[export] Instance pause_event_eq_dec : EqDecision pause_event.
Proof. solve_decision. Defined.

Record wf_state := {
  pauseRequested : bool;
  paused : bool;
  has_guard : bool;                 (** [_pauseGuard] is set *)
  has_hook : bool;                  (** [_preResumeHook] is set *)
  inFlight : nat;
  pauseWaiters : list nat;          (** the calls whose promises are queued *)
  resuming : list (nat * string);   (** [requestResume] calls awaiting the hook *)
  next_resume : nat;
  calls : gmap nat call_pc;
  emitted : list pause_event
}.

Definition wf_init : wf_state :=
  {| pauseRequested := false; paused := false; has_guard := false; has_hook := false;
     inFlight := 0; pauseWaiters := []; resuming := []; next_resume := 0; calls := ∅;
     emitted := [] |}.

(** ** The pieces *)

Definition set_call (i : nat) (c : call_pc) (s : wf_state) : wf_state :=
  {| pauseRequested := pauseRequested s; paused := paused s; has_guard := has_guard s;
     has_hook := has_hook s; inFlight := inFlight s; pauseWaiters := pauseWaiters s;
     resuming := resuming s; next_resume := next_resume s; calls := <[i := c]> (calls s);
     emitted := emitted s |}.

Definition emit (e : pause_event) (s : wf_state) : wf_state :=
  {| pauseRequested := pauseRequested s; paused := paused s; has_guard := has_guard s;
     has_hook := has_hook s; inFlight := inFlight s; pauseWaiters := pauseWaiters s;
     resuming := resuming s; next_resume := next_resume s; calls := calls s;
     emitted := emitted s ++ [e] |}.

Definition set_pause (requested engaged : bool) (s : wf_state) : wf_state :=
  {| pauseRequested := requested; paused := engaged; has_guard := has_guard s;
     has_hook := has_hook s; inFlight := inFlight s; pauseWaiters := pauseWaiters s;
     resuming := resuming s; next_resume := next_resume s; calls := calls s;
     emitted := emitted s |}.

Definition set_inFlight (n : nat) (s : wf_state) : wf_state :=
  {| pauseRequested := pauseRequested s; paused := paused s; has_guard := has_guard s;
     has_hook := has_hook s; inFlight := n; pauseWaiters := pauseWaiters s;
     resuming := resuming s; next_resume := next_resume s; calls := calls s;
     emitted := emitted s |}.

Definition set_waiters (ws : list nat) (s : wf_state) : wf_state :=
  {| pauseRequested := pauseRequested s; paused := paused s; has_guard := has_guard s;
     has_hook := has_hook s; inFlight := inFlight s; pauseWaiters := ws;
     resuming := resuming s; next_resume := next_resume s; calls := calls s;
     emitted := emitted s |}.

Definition set_resuming (rs : list (nat * string)) (n : nat) (s : wf_state) : wf_state :=
  {| pauseRequested := pauseRequested s; paused := paused s; has_guard := has_guard s;
     has_hook := has_hook s; inFlight := inFlight s; pauseWaiters := pauseWaiters s;
     resuming := rs; next_resume := n; calls := calls s; emitted := emitted s |}.

Definition set_hooks (guard hook : bool) (s : wf_state) : wf_state :=
  {| pauseRequested := pauseRequested s; paused := paused s; has_guard := guard;
     has_hook := hook; inFlight := inFlight s; pauseWaiters := pauseWaiters s;
     resuming := resuming s; next_resume := next_resume s; calls := calls s;
     emitted := emitted s |}.

(** [g] is what the guard answers; a guard that throws answers [false]. *)
Definition guardPermitsPause (g : bool) (s : wf_state) : bool := negb (has_guard s) || g.

Definition maybeEngagePause (g : bool) (s : wf_state) : wf_state :=
  if negb (pauseRequested s) || paused s then s
  else if (0 <? inFlight s)%nat then s
  else if negb (guardPermitsPause g s) then s
  else emit EvPaused (set_pause (pauseRequested s) true s).

(** One turn of the gate's loop, up to the next [await] or its return. *)
Definition pauseGate (g : bool) (i : nat) (s : wf_state) : wf_state :=
  let s := maybeEngagePause g s in
  if paused s then set_call i Waiting (set_waiters (pauseWaiters s ++ [i]) s)
  else set_call i Passed s.

Definition enterActivity (s : wf_state) : wf_state := set_inFlight (inFlight s + 1) s.
(** [Math.max(0, n - 1)] *)
Definition exitActivity (g : bool) (s : wf_state) : wf_state :=
  maybeEngagePause g (set_inFlight (inFlight s - 1) s).

Definition requestPause (g : bool) (reason : string) (resumeAt source : option string)
    (s : wf_state) : wf_state :=
  if paused s || pauseRequested s then s
  else maybeEngagePause g
         (emit (EvPauseRequested reason resumeAt source) (set_pause true (paused s) s)).

(** Every queued promise is settled: the calls move to [c]. *)
Definition settle_waiters (c : call_pc) (s : wf_state) : wf_state :=
  set_waiters [] (foldl (fun s i => set_call i c s) s (pauseWaiters s)).

(** What [requestResume] does once the hook, if any, has resolved. *)
Definition finishResume (reason : string) (s : wf_state) : wf_state :=
  emit (EvResumed reason) (settle_waiters Released (set_pause false false s)).

Definition requestResume (reason : string) (s : wf_state) : wf_state :=
  if negb (paused s) && negb (pauseRequested s) then s
  else if has_hook s
       then set_resuming (resuming s ++ [(next_resume s, reason)]) (S (next_resume s)) s
       else finishResume reason s.

Definition requestStop (s : wf_state) : wf_state :=
  settle_waiters Torn (set_pause false false s).

Definition setPauseGuard (guard : bool) (g : bool) (s : wf_state) : wf_state :=
  maybeEngagePause g (set_hooks guard (has_hook s) s).
Definition setPreResumeHook (hook : bool) (s : wf_state) : wf_state :=
  set_hooks (has_guard s) hook s.

(** ** Interleaving *)

Inductive wf_event :=
| Arrive (i : nat) (g : bool)      (** [agent()] or [command()] is called *)
| Wake (i : nat) (g : bool)        (** the loop of a released call goes on *)
| Enter (i : nat)                  (** past the gate: in flight, dispatched *)
| Settle (i : nat) (g : bool)      (** its [finally] *)
| Pause (g : bool) (reason : string) (resumeAt source : option string)
| Resume (reason : string)
| HookSettles (k : nat) (ok : bool)
| Stop
| SetGuard (guard : bool) (g : bool)
| SetHook (hook : bool).

(** [None]: the event cannot happen in this state. *)
Definition pause_step (s : wf_state) (e : wf_event) : option wf_state :=
  match e with
  | Arrive i g => if decide (calls s !! i = None) then Some (pauseGate g i s) else None
  | Wake i g => if decide (calls s !! i = Some Released) then Some (pauseGate g i s) else None
  | Enter i => if decide (calls s !! i = Some Passed)
               then Some (enterActivity (set_call i InFlight s)) else None
  | Settle i g => if decide (calls s !! i = Some InFlight)
                  then Some (exitActivity g (set_call i Settled s)) else None
  | Pause g reason resumeAt source => Some (requestPause g reason resumeAt source s)
  | Resume reason => Some (requestResume reason s)
  | HookSettles k ok =>
      match find (fun r => Nat.eqb r.1 k) (resuming s) with
      | None => None
      | Some (_, reason) =>
          let s' := set_resuming (filter (fun r => r.1 ≠ k) (resuming s)) (next_resume s) s in
          Some (if ok : bool then finishResume reason s' else s')
      end
  | Stop => Some (requestStop s)
  | SetGuard guard g => Some (setPauseGuard guard g s)
  | SetHook hook => Some (setPreResumeHook hook s)
  end.

Fixpoint pause_run (s : wf_state) (es : list wf_event) : option wf_state :=
  match es with
  | [] => Some s
  | e :: es' => s' ← pause_step s e; pause_run s' es'
  end.
