(* ===== verification/PauseGateProps.v ===== *)
(** * What a pause guarantees

    The in-flight count is exact, calls are blocked only by a pause and never
    forgotten, and from the moment a pause takes effect no call passes the
    gate.  A call whose gate has returned but that is not counted yet escapes
    it, as does a pause overtaken by a resume that was waiting for the hook. *)

From S2P Require Import Prelude PauseGate.
Local Open Scope string_scope.
Local Open Scope list_scope.

(** ** Counting *)

Definition flying (m : gmap nat call_pc) : nat :=
  size (filter (fun p : nat * call_pc => p.2 = InFlight) m).
Arguments flying : simpl never.

Lemma flying_fresh i c m : m !! i = None ->
  flying (<[i := c]> m) = flying m + (if decide (c = InFlight) then 1 else 0).
Proof.
  intros Hn. unfold flying. case_decide as Hc.
  - rewrite map_filter_insert_True by done. rewrite map_size_insert_None; [lia|].
    apply map_lookup_filter_None. by left.
  - rewrite map_filter_insert_not'; [lia|done|]. intros y Hy. congruence.
Qed.

Lemma flying_set i c c0 m : m !! i = Some c0 ->
  flying (<[i := c]> m) + (if decide (c0 = InFlight) then 1 else 0)
  = flying m + (if decide (c = InFlight) then 1 else 0).
Proof.
  intros Hi. rewrite <-(insert_delete_id m i c0 Hi) at 2. rewrite <-insert_delete_eq.
  rewrite !flying_fresh by apply lookup_delete_eq. repeat case_decide; lia.
Qed.

(** Moves between places that are not in flight do not change the count. *)
Lemma flying_ground i c m :
  m !! i ≠ Some InFlight -> c ≠ InFlight -> flying (<[i := c]> m) = flying m.
Proof.
  intros Hi Hc. destruct (m !! i) as [c0|] eqn:Hm.
  - pose proof (flying_set i c c0 m Hm) as H. rewrite !decide_False in H by congruence. lia.
  - rewrite flying_fresh by done. rewrite decide_False by done. lia.
Qed.

Lemma flying_0 m : flying m = 0 <-> forall i, m !! i ≠ Some InFlight.
Proof.
  unfold flying. rewrite map_size_empty_iff. split.
  - intros He i Hi. assert (filter (fun p : nat * call_pc => p.2 = InFlight) m !! i = Some InFlight) as Hf.
    { by apply map_lookup_filter_Some. } rewrite He in Hf. done.
  - intros H. apply map_empty. intros i. apply map_lookup_filter_None. right. intros c Hi Hc. cbn in Hc.
    subst. by apply (H i).
Qed.

(** ** The invariant *)

Record gate_ok (s : wf_state) : Prop := {
  ok_count : inFlight s = flying (calls s);
  ok_waiters : forall i, i ∈ pauseWaiters s <-> calls s !! i = Some Waiting;
  ok_once : NoDup (pauseWaiters s);
  ok_requested : paused s = true -> pauseRequested s = true;
  ok_blocked : pauseWaiters s <> [] -> paused s = true
}.

Lemma gate_ok_init : gate_ok wf_init.
Proof.
  split; cbn; [by vm_compute| |constructor|done|done].
  intros i. rewrite lookup_empty. split; [|done]. intros Hi. by apply elem_of_nil in Hi.
Qed.

Lemma engage_calls g s : calls (maybeEngagePause g s) = calls s.
Proof. unfold maybeEngagePause. by repeat case_match. Qed.

Lemma engage_waiters g s : pauseWaiters (maybeEngagePause g s) = pauseWaiters s.
Proof. unfold maybeEngagePause. by repeat case_match. Qed.

Lemma engage_inFlight g s : inFlight (maybeEngagePause g s) = inFlight s.
Proof. unfold maybeEngagePause. by repeat case_match. Qed.

(** A pause takes effect when nothing is in flight and the guard permits it. *)
Lemma engage_paused g s :
  paused (maybeEngagePause g s) = true ->
  paused s = true \/
  (pauseRequested s = true /\ inFlight s = 0 /\ guardPermitsPause g s = true /\
   emitted (maybeEngagePause g s) = emitted s ++ [EvPaused]).
Proof.
  unfold maybeEngagePause. destruct (paused s) eqn:Hp; [by left|].
  destruct (pauseRequested s) eqn:Hr; cbn [negb orb]; [|intros; congruence].
  destruct (Nat.ltb_spec 0 (inFlight s)); [intros; congruence|].
  destruct (guardPermitsPause g s) eqn:Hg; cbn; [|intros; congruence]. intros _. right.
  split_and!; [done|lia|done|done].
Qed.

Lemma engage_keeps g s : paused s = true -> maybeEngagePause g s = s.
Proof. intros Hp. unfold maybeEngagePause. by rewrite Hp, orb_true_r. Qed.

Lemma engage_requested g s : pauseRequested (maybeEngagePause g s) = pauseRequested s.
Proof. unfold maybeEngagePause. by repeat case_match. Qed.

Lemma gate_ok_engage g s : gate_ok s -> gate_ok (maybeEngagePause g s).
Proof.
  intros []. split; rewrite ?engage_calls, ?engage_waiters, ?engage_inFlight, ?engage_requested; try done.
  - intros [Hp|(? & _)]%engage_paused; [by apply ok_requested0|done].
  - intros Hne. rewrite engage_keeps; by apply ok_blocked0.
Qed.

(** Only the queue, the pause flags, the count and the calls matter. *)
Lemma gate_ok_ext s s' :
  inFlight s' = inFlight s -> calls s' = calls s -> pauseWaiters s' = pauseWaiters s ->
  paused s' = paused s -> pauseRequested s' = pauseRequested s -> gate_ok s -> gate_ok s'.
Proof. intros H1 H2 H3 H4 H5 []. by split; rewrite ?H1, ?H2, ?H3, ?H4, ?H5. Qed.

Lemma gate_ok_gate g i s :
  calls s !! i = None \/ calls s !! i = Some Released -> gate_ok s -> gate_ok (pauseGate g i s).
Proof.
  intros Hi Hok. unfold pauseGate. apply (gate_ok_engage g) in Hok.
  rewrite <-(engage_calls g) in Hi. set (s1 := maybeEngagePause g s) in *. clearbody s1.
  assert (calls s1 !! i ≠ Some InFlight) by (destruct Hi; congruence).
  assert (Hw : i ∉ pauseWaiters s1) by (rewrite (ok_waiters _ Hok); destruct Hi; congruence).
  destruct Hok. destruct (paused s1) eqn:Hp; split; cbn; try tauto.
  - by rewrite flying_ground.
  - intros j. rewrite elem_of_app, list_elem_of_singleton, ok_waiters0. destruct (decide (i = j)) as [->|].
    + rewrite lookup_insert_eq. naive_solver.
    + rewrite lookup_insert_ne by done. naive_solver.
  - apply NoDup_app. split; [done|]. split; [|apply NoDup_singleton].
    intros j Hj ->%list_elem_of_singleton. done.
  - by rewrite flying_ground.
  - intros j. rewrite ok_waiters0. destruct (decide (i = j)) as [->|].
    + rewrite lookup_insert_eq, <-ok_waiters0. split; [tauto|congruence].
    + by rewrite lookup_insert_ne.
  - congruence.
  - intros Hne. specialize (ok_blocked0 Hne). congruence.
Qed.

(** ** Settling the queue *)

Lemma settle_all_calls c ws s j :
  calls (foldl (fun s i => set_call i c s) s ws) !! j
  = if decide (j ∈ ws) then Some c else calls s !! j.
Proof.
  revert s. induction ws as [|i ws IH]; intros s; cbn [foldl]; [by rewrite decide_False by apply not_elem_of_nil|].
  rewrite IH. destruct (decide (j ∈ ws)), (decide (j ∈ i :: ws)); try done; [set_solver| |].
  - assert (j = i) as -> by set_solver. apply lookup_insert_eq.
  - apply lookup_insert_ne. set_solver.
Qed.

Lemma settle_all_rest c ws s :
  let s' := foldl (fun s i => set_call i c s) s ws in
  inFlight s' = inFlight s /\ paused s' = paused s /\ pauseRequested s' = pauseRequested s /\
  emitted s' = emitted s.
Proof. revert s. induction ws as [|i ws IH]; intros s; [done|]. apply (IH (set_call i c s)). Qed.

Lemma settle_paused c s : paused (settle_waiters c (set_pause false false s)) = false.
Proof.
  unfold settle_waiters. cbn.
  by destruct (settle_all_rest c (pauseWaiters s) (set_pause false false s)) as (_ & -> & _).
Qed.

Lemma finish_paused reason s : paused (finishResume reason s) = false.
Proof. apply settle_paused. Qed.

Lemma settle_all_flying c ws s :
  c ≠ InFlight -> (forall i, i ∈ ws -> calls s !! i ≠ Some InFlight) ->
  flying (calls (foldl (fun s i => set_call i c s) s ws)) = flying (calls s).
Proof.
  intros Hc. revert s. induction ws as [|i ws IH]; intros s Hws; [done|]. cbn [foldl].
  rewrite IH; [apply flying_ground; [apply Hws; set_solver|done]|].
  intros j Hj. cbn. destruct (decide (i = j)) as [->|]; [rewrite lookup_insert_eq; congruence|].
  rewrite lookup_insert_ne by done. apply Hws. set_solver.
Qed.

(** Releasing or rejecting the queue ends the pause and leaves no one blocked. *)
Lemma gate_ok_settle c s :
  c ≠ InFlight -> c ≠ Waiting -> gate_ok s -> gate_ok (settle_waiters c (set_pause false false s)).
Proof.
  intros Hc Hw []. set (s0 := set_pause false false s).
  destruct (settle_all_rest c (pauseWaiters s) s0) as (H1 & H2 & H3 & _).
  unfold settle_waiters. change (pauseWaiters s0) with (pauseWaiters s).
  split; cbn; rewrite ?H1, ?H2, ?H3; cbn; try done; [| |constructor].
  - rewrite settle_all_flying; [done|done|]. intros i Hi. apply ok_waiters0 in Hi. cbn. congruence.
  - intros i. split; [intros Hi; by apply elem_of_nil in Hi|].
    rewrite settle_all_calls. case_decide as Hi; [congruence|]. cbn. intros Hx. by apply ok_waiters0 in Hx.
Qed.

Lemma gate_ok_finish reason s : gate_ok s -> gate_ok (finishResume reason s).
Proof.
  intros Hok. unfold finishResume.
  eapply gate_ok_ext; [..|by apply (gate_ok_settle Released s)]; done.
Qed.

Lemma gate_ok_enter i s :
  calls s !! i = Some Passed -> gate_ok s -> gate_ok (enterActivity (set_call i InFlight s)).
Proof.
  intros Hi []. split; cbn; try done.
  - pose proof (flying_set i InFlight Passed _ Hi) as H.
    repeat case_decide; try congruence; lia.
  - intros j. rewrite ok_waiters0. destruct (decide (i = j)) as [->|].
    + rewrite lookup_insert_eq, Hi. naive_solver.
    + by rewrite lookup_insert_ne.
Qed.

Lemma gate_ok_exit g i s :
  calls s !! i = Some InFlight -> gate_ok s -> gate_ok (exitActivity g (set_call i Settled s)).
Proof.
  intros Hi Hok. unfold exitActivity. apply gate_ok_engage. destruct Hok. split; cbn; try done.
  - pose proof (flying_set i Settled InFlight _ Hi) as H.
    repeat case_decide; try congruence; lia.
  - intros j. rewrite ok_waiters0. destruct (decide (i = j)) as [->|].
    + rewrite lookup_insert_eq, Hi. naive_solver.
    + by rewrite lookup_insert_ne.
Qed.

Lemma gate_ok_pause g reason resumeAt source s : gate_ok s -> gate_ok (requestPause g reason resumeAt source s).
Proof.
  intros Hok. unfold requestPause. destruct (paused s || pauseRequested s) eqn:Hp; [done|].
  apply gate_ok_engage. apply orb_false_iff in Hp as [Hp _]. destruct Hok. by split.
Qed.

Lemma gate_ok_step s e s' : gate_ok s -> pause_step s e = Some s' -> gate_ok s'.
Proof.
  intros Hok Hs. destruct e as [i g|i g|i|i g|g r a b|r|k ok| |gd g|hk]; cbn in Hs.
  - case_decide; simplify_eq. apply gate_ok_gate; tauto.
  - case_decide; simplify_eq. apply gate_ok_gate; tauto.
  - case_decide; simplify_eq. by apply gate_ok_enter.
  - case_decide; simplify_eq. by apply gate_ok_exit.
  - simplify_eq. by apply gate_ok_pause.
  - simplify_eq. unfold requestResume. case_match; [done|]. case_match; [|by apply gate_ok_finish].
    by eapply gate_ok_ext; [..|exact Hok].
  - destruct (find _ _) as [[k' reason]|]; [|done]. destruct ok; simplify_eq.
    + apply gate_ok_finish. by eapply gate_ok_ext; [..|exact Hok].
    + by eapply gate_ok_ext; [..|exact Hok].
  - simplify_eq. by apply (gate_ok_settle Torn s).
  - simplify_eq. apply gate_ok_engage. by eapply gate_ok_ext; [..|exact Hok].
  - simplify_eq. by eapply gate_ok_ext; [..|exact Hok].
Qed.

Lemma gate_ok_run s es s' : gate_ok s -> pause_run s es = Some s' -> gate_ok s'.
Proof.
  revert s. induction es as [|e es IH]; intros s Hok; cbn; [by intros [= <-]|].
  destruct (pause_step s e) as [s1|] eqn:He; [|done]. cbn. apply IH. by eapply gate_ok_step.
Qed.

Lemma gate_ok_reach es s : pause_run wf_init es = Some s -> gate_ok s.
Proof. apply gate_ok_run, gate_ok_init. Qed.

(** ** While a pause holds *)

(** The events that do not end a pause: anything but a stop and a resume that
    completes. *)
Definition keeps_pause (hook : bool) (e : wf_event) : Prop :=
  match e with
  | Resume _ => hook = true
  | HookSettles _ ok => ok = false
  | SetHook h => h = hook
  | Stop => False
  | _ => True
  end.

Definition past_gate (s : wf_state) (i : nat) : Prop :=
  calls s !! i = Some Passed \/ calls s !! i = Some InFlight.

Lemma pauseGate_paused g i s : paused s = true ->
  pauseGate g i s = set_call i Waiting (set_waiters (pauseWaiters s ++ [i]) s).
Proof. intros Hp. unfold pauseGate. by rewrite engage_keeps, Hp. Qed.

Lemma past_gate_set s i c j :
  c ≠ Passed -> c ≠ InFlight -> past_gate (set_call i c s) j -> past_gate s j.
Proof.
  unfold past_gate. cbn. intros H1 H2.
  destruct (decide (i = j)) as [->|]; [rewrite lookup_insert_eq; intros [[=]|[=]]; congruence|].
  by rewrite lookup_insert_ne.
Qed.

Lemma paused_step s e s' :
  paused s = true -> keeps_pause (has_hook s) e -> pause_step s e = Some s' ->
  paused s' = true /\ has_hook s' = has_hook s /\ forall i, past_gate s' i -> past_gate s i.
Proof.
  intros Hp Hk Hs. destruct e as [i g|i g|i|i g|g r a b|r|k ok| |gd g|hk]; cbn in Hs, Hk.
  - case_decide; simplify_eq. rewrite pauseGate_paused by done. split; [done|]. split; [done|].
    intros j. by apply past_gate_set.
  - case_decide; simplify_eq. rewrite pauseGate_paused by done. split; [done|]. split; [done|].
    intros j. by apply past_gate_set.
  - case_decide as Hi; simplify_eq. split; [done|]. split; [done|]. intros j. unfold past_gate. cbn.
    destruct (decide (i = j)) as [->|]; [by left|]. by rewrite lookup_insert_ne.
  - case_decide as Hi; simplify_eq. unfold exitActivity. rewrite engage_keeps by done.
    split; [done|]. split; [done|]. intros j. by apply past_gate_set.
  - simplify_eq. unfold requestPause. rewrite Hp. by cbn.
  - simplify_eq. unfold requestResume. rewrite Hp, Hk. by cbn.
  - subst ok. destruct (find _ _) as [[k' reason]|]; [|done]. by simplify_eq.
  - done.
  - simplify_eq. unfold setPauseGuard. by rewrite engage_keeps.
  - by simplify_eq.
Qed.

Lemma paused_run s es s' :
  paused s = true -> Forall (keeps_pause (has_hook s)) es -> pause_run s es = Some s' ->
  paused s' = true /\ forall i, past_gate s' i -> past_gate s i.
Proof.
  revert s. induction es as [|e es IH]; intros s Hp Hall; cbn; [by intros [= <-]|].
  apply Forall_cons in Hall as [He Hes]. destruct (pause_step s e) as [s1|] eqn:Hs; [|done]. cbn.
  destruct (paused_step s e s1 Hp He Hs) as (Hp1 & Hh1 & Hin). rewrite <-Hh1 in Hes.
  intros Hr. destruct (IH s1 Hp1 Hes Hr) as [Hp' Hin']. split; [done|]. intros i Hi. by apply Hin, Hin'.
Qed.

(** A step that engages a pause does it with nothing in flight. *)
Lemma engaging_step s e s' :
  paused s = false -> pause_step s e = Some s' -> paused s' = true ->
  inFlight s' = 0 /\ last (emitted s') = Some EvPaused.
Proof.
  assert (Heng : forall g s0, paused s0 = false -> paused (maybeEngagePause g s0) = true ->
    inFlight (maybeEngagePause g s0) = 0 /\ last (emitted (maybeEngagePause g s0)) = Some EvPaused).
  { intros g s0 H0 [?|(_ & Hi & _ & He)]%engage_paused; [congruence|]. rewrite engage_inFlight.
    split; [done|]. by rewrite He, last_snoc. }
  intros Hp Hs Hp'. destruct e as [i g|i g|i|i g|g r a b|r|k ok| |gd g|hk]; cbn in Hs.
  - case_decide; simplify_eq. unfold pauseGate in *.
    destruct (paused (maybeEngagePause g s)) eqn:He; [by apply Heng|]. cbn in Hp'. congruence.
  - case_decide; simplify_eq. unfold pauseGate in *.
    destruct (paused (maybeEngagePause g s)) eqn:He; [by apply Heng|]. cbn in Hp'. congruence.
  - case_decide; simplify_eq. cbn in Hp'. congruence.
  - case_decide; simplify_eq. by apply Heng.
  - simplify_eq. unfold requestPause in *. destruct (paused s || pauseRequested s); [congruence|].
    apply Heng; [|done]. by cbn.
  - simplify_eq. unfold requestResume in *. rewrite Hp in Hp'.
    destruct (pauseRequested s); cbn [negb andb] in Hp'; [|congruence].
    destruct (has_hook s); [cbn in Hp'; congruence|].
    by rewrite finish_paused in Hp'.
  - destruct (find _ _) as [[k' reason]|]; [|done]. destruct ok; simplify_eq; [|cbn in Hp'; congruence].
    by rewrite finish_paused in Hp'.
  - simplify_eq. unfold requestStop in Hp'. by rewrite settle_paused in Hp'.
  - simplify_eq. apply Heng; [|done]. by cbn.
  - simplify_eq. cbn in Hp'. congruence.
Qed.


(** Two calls settle, the pause engages, a third call is held. *)
Definition quiet_events : list wf_event :=
  [Arrive 0 true; Enter 0; Arrive 1 true; Enter 1; Pause true "op" None None; Settle 0 true].

Definition after (es : list wf_event) : wf_state := default wf_init (pause_run wf_init es).


(** ** No call is forgotten *)

(** Running: no pause is in force or asked for. *)
Definition running (s : wf_state) : Prop := paused s = false /\ pauseRequested s = false.

Lemma engage_running g s : running s -> maybeEngagePause g s = s.
Proof. intros [_ Hr]. unfold maybeEngagePause. by rewrite Hr. Qed.

Definition finished (s : wf_state) (i : nat) : Prop :=
  calls s !! i = Some Settled \/ calls s !! i = Some Torn.

(** A call that is not blocked runs to its end. *)
Lemma drive_call i s :
  running s -> calls s !! i <> Some Waiting -> is_Some (calls s !! i) ->
  exists es s', pause_run s es = Some s' /\ running s' /\
    finished s' i /\ (calls s !! i <> Some Torn -> calls s' !! i = Some Settled) /\
    forall j, j <> i -> calls s' !! j = calls s !! j.
Proof.
  intros Hr Hw [c Hc].
  assert (Hfly : forall s0, running s0 -> calls s0 !! i = Some InFlight ->
    exists s', pause_run s0 [Settle i false] = Some s' /\ running s' /\ calls s' !! i = Some Settled /\
      forall j, j <> i -> calls s' !! j = calls s0 !! j).
  { intros s0 Hr0 H0. cbn. rewrite decide_True by done. eexists. split; [reflexivity|].
    unfold exitActivity. rewrite engage_running by done. split; [done|]. cbn.
    rewrite lookup_insert_eq. split; [done|]. intros j Hj. by rewrite lookup_insert_ne. }
  assert (Hpass : forall s0, running s0 -> calls s0 !! i = Some Passed ->
    exists s', pause_run s0 [Enter i; Settle i false] = Some s' /\ running s' /\
      calls s' !! i = Some Settled /\ forall j, j <> i -> calls s' !! j = calls s0 !! j).
  { intros s0 Hr0 H0. cbn [pause_run pause_step]. rewrite decide_True by done. cbn [mbind option_bind].
    destruct (Hfly (enterActivity (set_call i InFlight s0))) as (s' & Hs' & Hr' & Hi & Hrest);
      [done|apply lookup_insert_eq|]. exists s'. split; [exact Hs'|]. split; [done|]. split; [done|].
    intros j Hj. rewrite Hrest by done. by apply lookup_insert_ne. }
  destruct c; try congruence.
  - destruct (Hpass (pauseGate false i s)) as (s' & Hs' & Hr' & Hi & Hrest).
    + unfold pauseGate. by rewrite engage_running, (proj1 Hr).
    + unfold pauseGate. rewrite engage_running, (proj1 Hr) by done. apply lookup_insert_eq.
    + exists [Wake i false; Enter i; Settle i false], s'. split.
      { cbn [pause_run pause_step]. rewrite decide_True by done. exact Hs'. }
      split; [done|]. split; [by left|]. split; [done|]. intros j Hj. rewrite Hrest by done.
      unfold pauseGate. rewrite engage_running, (proj1 Hr) by done. by apply lookup_insert_ne.
  - destruct (Hpass s) as (s' & Hs' & Hr' & Hi & Hrest); [done..|].
    exists [Enter i; Settle i false], s'. unfold finished. eauto 10.
  - destruct (Hfly s) as (s' & Hs' & Hr' & Hi & Hrest); [done..|].
    exists [Settle i false], s'. unfold finished. eauto 10.
  - exists [], s. unfold finished. eauto 10.
  - exists [], s. unfold finished. rewrite Hc. split; [done|]. split; [done|]. split; [by right|].
    split; [congruence|done].
Qed.

Lemma pause_run_app s es1 es2 : pause_run s (es1 ++ es2) = s1 ← pause_run s es1; pause_run s1 es2.
Proof.
  revert s. induction es1 as [|e es1 IH]; intros s; [done|]. cbn.
  destruct (pause_step s e) as [s1|]; [|done]. cbn. apply IH.
Qed.

Lemma drive_all (ids : list nat) s :
  running s -> (forall i, i ∈ ids -> calls s !! i <> Some Waiting /\ is_Some (calls s !! i)) ->
  exists es s', pause_run s es = Some s' /\ running s' /\
    forall i, if decide (i ∈ ids)
              then finished s' i /\ (calls s !! i <> Some Torn -> calls s' !! i = Some Settled)
              else calls s' !! i = calls s !! i.
Proof.
  revert s. induction ids as [|i ids IH]; intros s Hr Hids.
  { exists [], s. split; [done|]. split; [done|]. intros i. by rewrite decide_False by apply not_elem_of_nil. }
  destruct (drive_call i s Hr) as (es1 & s1 & Hrun1 & Hr1 & Hf1 & Hs1 & Hrest1); [apply Hids; set_solver..|].
  destruct (IH s1 Hr1) as (es2 & s2 & Hrun2 & Hr2 & H2).
  { intros j Hj. destruct (decide (j = i)) as [->|Hne].
    - destruct Hf1 as [->| ->]; (split; [done|eauto]).
    - rewrite Hrest1 by done. apply Hids. set_solver. }
  exists (es1 ++ es2), s2. split; [rewrite pause_run_app, Hrun1; exact Hrun2|]. split; [done|].
  intros j. specialize (H2 j). destruct (decide (j ∈ ids)) as [Hj|Hj].
  - rewrite decide_True by set_solver. destruct H2 as [Hf Hs]. split; [done|]. intros Ht. apply Hs.
    destruct (decide (j = i)) as [->|]; [|by rewrite Hrest1]. by rewrite Hs1.
  - destruct (decide (j = i)) as [->|Hne].
    + rewrite decide_True by set_solver. unfold finished. rewrite H2. split; [exact Hf1|exact Hs1].
    + rewrite decide_False by set_solver. by rewrite H2, Hrest1.
Qed.

(** Resuming, with a hook that resolves, leaves the run without a pause and
    no call blocked or rejected. *)
Lemma resume_releases s :
  gate_ok s -> exists es s', pause_run s es = Some s' /\ running s' /\
    forall i, calls s' !! i <> Some Waiting /\
      (is_Some (calls s' !! i) <-> is_Some (calls s !! i)) /\
      (calls s' !! i = Some Torn -> calls s !! i = Some Torn).
Proof.
  intros Hok.
  assert (Hfin : forall reason s0, gate_ok s0 -> running (finishResume reason s0) /\
    forall i, calls (finishResume reason s0) !! i <> Some Waiting /\
      (is_Some (calls (finishResume reason s0) !! i) <-> is_Some (calls s0 !! i)) /\
      (calls (finishResume reason s0) !! i = Some Torn -> calls s0 !! i = Some Torn)).
  { intros reason s0 Hok0. split.
    - split; [apply finish_paused|]. unfold finishResume, settle_waiters. cbn.
      by destruct (settle_all_rest Released (pauseWaiters s0) (set_pause false false s0)) as (_ & _ & -> & _).
    - intros i. unfold finishResume, settle_waiters. cbn. rewrite settle_all_calls. cbn.
      pose proof (ok_waiters _ Hok0 i) as Hw. case_decide as Hi; [|tauto].
      rewrite (proj1 Hw Hi). split; [done|]. split; [|done]. split; eauto. }
  destruct (paused s || pauseRequested s) eqn:Hp.
  2:{ apply orb_false_iff in Hp as [Hp Hq]. exists [], s. split; [done|]. split; [done|]. intros i.
      split; [|tauto]. intros Hi%(ok_waiters _ Hok). pose proof (ok_blocked _ Hok) as Hb.
      rewrite Hp in Hb. destruct (pauseWaiters s); [by apply elem_of_nil in Hi|]. by specialize (Hb ltac:(done)). }
  destruct (has_hook s) eqn:Hh.
  - set (s0 := set_resuming (resuming s ++ [(next_resume s, "")]) (S (next_resume s)) s).
    assert (Hrs : requestResume "" s = s0).
    { unfold requestResume. rewrite Hh. by destruct (paused s), (pauseRequested s). }
    destruct (find (fun r => Nat.eqb r.1 (next_resume s)) (resuming s0)) as [[k reason]|] eqn:Hf.
    2:{ exfalso. pose proof (find_none _ _ Hf (next_resume s, "")) as Hn. cbn in Hn.
        rewrite Nat.eqb_refl in Hn. apply (Bool.diff_true_false), Hn, in_or_app. right. by left. }
    set (s1 := set_resuming (filter (fun r => r.1 ≠ next_resume s) (resuming s0)) (next_resume s0) s0).
    assert (Hok1 : gate_ok s1) by by apply (gate_ok_ext s).
    exists [Resume ""; HookSettles (next_resume s) true], (finishResume reason s1). split.
    { cbn [pause_run pause_step]. rewrite Hrs. cbn [mbind option_bind]. by rewrite Hf. }
    exact (Hfin reason s1 Hok1).
  - exists [Resume ""], (finishResume "" s). split; [|by apply Hfin].
    cbn. unfold requestResume. rewrite Hh. by destruct (paused s), (pauseRequested s).
Qed.



(** ** Two overtakings *)

(** a call whose gate has returned is not counted until a later microtask:
    a pause requested in between takes effect at once, and the call is then
    dispatched while the run is paused. *)
Theorem pause_overtakes_passing_call :
  exists s, pause_run wf_init [Arrive 0 true; Pause true "op" None None; Enter 0] = Some s /\
    paused s = true /\ inFlight s = 1 /\
    emitted s = [EvPauseRequested "op" None None; EvPaused].
Proof. eexists. split; [vm_compute; reflexivity|]. by vm_compute. Qed.

(** a second resume that waits for the pre-resume hook clears a pause
    requested after the first resume completed. *)
Theorem late_resume_clears_new_pause :
  exists s, pause_run wf_init
      [SetHook true; Pause true "p1" None None; Resume "r1"; Resume "r2"; HookSettles 0 true;
       Pause true "p2" None None; HookSettles 1 true] = Some s /\
    paused s = false /\
    emitted s = [EvPauseRequested "p1" None None; EvPaused; EvResumed "r1";
                 EvPauseRequested "p2" None None; EvPaused; EvResumed "r2"].
Proof. eexists. split; [vm_compute; reflexivity|]. by vm_compute. Qed.
