(* ===== verification/Journal.v ===== *)
(** * The execution journal of the workflow engine

    [apra-fleet-workflow/src/workflow/journal.mjs]: an append-only file with
    one JSON record per line, the replay key of a call, and the loader that a
    resumed run reads.  [sha256], [path.resolve], [JSON.parse] and
    [JSON.stringify] are arguments.  A record whose [id] or [replayKey] is
    truthy but not a string is written by nobody; the loader's model answers
    [None] there. *)

From Stdlib Require Import Ascii.
From S2P Require Import Prelude JsMap JsVal Text.
Local Open Scope string_scope.
Local Open Scope list_scope.

(** ** Keys *)

Definition DEFAULT_JOURNAL_DIR : string := ".fleet-workflow".

(** [hashText]; [None] for [null] and [undefined]. *)
Definition hashText (sha256 : string -> string) (text : option string) : option string :=
  sha256 <$> text.

Inductive activity_type := Agent | Command.

#[export] Instance activity_type_eq_dec : EqDecision activity_type.
Proof. solve_decision. Defined.

Definition type_name (t : activity_type) : string :=
  match t with Agent => "agent" | Command => "command" end.

(** A sequence number is written as its decimal digits. *)
Definition computeActivityKey (sequence : string) (t : activity_type) (member : option string)
    (textHash : option string) : string :=
  sequence +:+ ":" +:+ type_name t +:+ ":" +:+ default "" member +:+ ":" +:+ default "" textHash.

(** ** Where the journal is written *)

Inductive journal_opt := NoJournal | JournalOff | JournalOn | JournalAt (p : string).

(** [resolve1 p] is [path.resolve(p)], [resolve2 d f] is [path.resolve(d, f)];
    [JournalAt] is a string or an object with a [path]. *)
Definition resolveJournalWritePath (resolve1 : string -> string) (resolve2 : string -> string -> string)
    (journal : journal_opt) (resumeJournal : option string) (runId : string) : option string :=
  match journal with
  | JournalOff => None
  | JournalAt p => Some (resolve1 p)
  | JournalOn => Some (resolve2 DEFAULT_JOURNAL_DIR ("journal-" +:+ runId +:+ ".jsonl"))
  | NoJournal => resolve1 <$> resumeJournal
  end.

(** ** Writing *)

Section writer.
Context (stringify : jsval -> string).

Definition newline : ascii := "010"%char.
Definition record_line (r : jsval) : string := stringify r +:+ String newline "".

(** The promise chain: each append waits for the one before it, and after one
    has failed ([false]) none of the later ones is carried out. *)
Fixpoint append_chain (file : string) (writes : list (jsval * bool)) : string :=
  match writes with
  | [] => file
  | (r, ok) :: ws => if ok : bool then append_chain (file +:+ record_line r) ws else file
  end.

(** The records a listening writer queues: those of its own run. *)
Definition enqueued (runId : string) (event : string) (meta : list (string * jsval)) : option jsval :=
  if is_str runId (prop "runId" (JObj meta)) then Some (JObj (jset "event" (JStr event) [] ++ meta))
  else None.
End writer.

(** ** Loading *)

(** [{ ...a, ...b }] *)
Definition fields_of (v : jsval) : list (string * jsval) := match v with JObj fs => fs | _ => [] end.
Definition spread (a b : jsval) : jsval :=
  JObj (foldl (fun m kv => jset kv.1 kv.2 m) (fields_of a) (fields_of b)).

Definition or_value (a b : jsval) : jsval := if truthy a then a else b.

Record journal := {
  completedByKey : list (string * jsval);
  ambiguous : list jsval
}.

Record load_state := {
  startsById : list (string * jsval);
  endsById : list (string * jsval);
  completed : list (string * jsval)
}.

Definition load_init : load_state := {| startsById := []; endsById := []; completed := [] |}.

(** The replay key of an end record. *)
Definition replay_key_of (rec : jsval) (startRec : option jsval) : jsval :=
  or_value (prop "replayKey" rec) (match startRec with Some s => prop "replayKey" s | None => JUndef end).

Definition load_end (rec : jsval) (id : string) (st : load_state) : option load_state :=
  let startRec := jget id (startsById st) in
  let ends := jset id rec (endsById st) in
  let key := replay_key_of rec startRec in
  if truthy key then
    k ← as_str key;
    Some {| startsById := startsById st; endsById := ends;
            completed := jset k (spread (default JUndef startRec) rec) (completed st) |}
  else Some {| startsById := startsById st; endsById := ends; completed := completed st |}.

(** One parsed record; reading [event] of [null] throws. *)
Definition load_record (st : load_state) (rec : jsval) : option (result load_state) :=
  if nullish rec then Some (Throw (TypeErr "Cannot read properties of null"))
  else if negb (truthy (prop "id" rec)) then Some (Ok st)
  else if is_str "activity:start" (prop "event" rec) then
    id ← as_str (prop "id" rec);
    Some (Ok {| startsById := jset id rec (startsById st); endsById := endsById st;
                completed := completed st |})
  else if is_str "activity:end" (prop "event" rec) then
    id ← as_str (prop "id" rec);
    st' ← load_end rec id st;
    Some (Ok st')
  else Some (Ok st).

Section loader.
Context (json_parse : string -> option jsval).

(** Blank lines and lines that do not parse are skipped. *)
Fixpoint load_lines (st : load_state) (lines : list string) : option (result load_state) :=
  match lines with
  | [] => Some (Ok st)
  | line :: lines' =>
      let trimmed := trim line in
      if negb (nonempty trimmed) then load_lines st lines'
      else match json_parse trimmed with
           | None => load_lines st lines'
           | Some rec =>
               match load_record st rec with
               | None => None
               | Some (Throw e) => Some (Throw e)
               | Some (Ok st') => load_lines st' lines'
               end
           end
  end.

Definition ambiguous_of (st : load_state) : list jsval :=
  snd <$> filter (fun x => jhas x.1 (endsById st) = false) (startsById st).

Definition journal_of (st : load_state) : journal :=
  {| completedByKey := completed st; ambiguous := ambiguous_of st |}.

Inductive journal_read := Contents (raw : string) | NoFile | ReadError (e : js_error).

Definition loadJournal (read : journal_read) : option (result journal) :=
  match read with
  | NoFile => Some (Ok {| completedByKey := []; ambiguous := [] |})
  | ReadError e => Some (Throw e)
  | Contents raw =>
      match load_lines load_init (split_on newline raw) with
      | None => None
      | Some (Throw e) => Some (Throw e)
      | Some (Ok st) => Some (Ok (journal_of st))
      end
  end.
End loader.
