(* ===== verification/JournalProps.v ===== *)
(** * What a resumed run reads

    The loader finds what the writer wrote, up to the first failed append and
    whatever a crash left of the last line: the last completion of every key,
    and the activities that were started and never ended. *)

From Stdlib Require Import Ascii.
From S2P Require Import Prelude JsMap JsVal Text Journal.
Local Open Scope string_scope.
Local Open Scope list_scope.

(** ** Lines *)

Lemma split_on_none sep s : has_char sep s = false -> split_on sep s = [s].
Proof.
  induction s as [|c s IH]; cbn; [done|]. intros [Hc Hs]%orb_false_iff.
  apply bool_decide_eq_false in Hc. rewrite decide_False by congruence. by rewrite IH.
Qed.

Lemma split_on_app sep a b :
  has_char sep a = false -> split_on sep (a +:+ String sep b) = a :: split_on sep b.
Proof.
  induction a as [|c a IH].
  - intros _. change ("" +:+ String sep b) with (String sep b). cbn [split_on].
    by rewrite decide_True.
  - cbn [has_char]. intros [Hc Ha]%orb_false_iff. apply bool_decide_eq_false in Hc.
    change (String c a +:+ String sep b) with (String c (a +:+ String sep b)). cbn [split_on].
    rewrite decide_False by congruence. by rewrite IH.
Qed.

(** ** Reading records *)

Fixpoint load_all (st : load_state) (rs : list jsval) : option (result load_state) :=
  match rs with
  | [] => Some (Ok st)
  | r :: rs' =>
      match load_record st r with
      | None => None
      | Some (Throw e) => Some (Throw e)
      | Some (Ok st') => load_all st' rs'
      end
  end.

(** The records a run of appends leaves in the file. *)
Fixpoint written (writes : list (jsval * bool)) : list jsval :=
  match writes with
  | (r, true) :: ws => r :: written ws
  | _ => []
  end.

Section lines.
Context (stringify : jsval -> string) (json_parse : string -> option jsval).

(** The line of a record: no line break, nothing to trim, and it parses back. *)
Definition good_line (r : jsval) : Prop :=
  has_char newline (stringify r) = false /\ trim (stringify r) = stringify r /\
  nonempty (stringify r) = true /\ json_parse (stringify r) = Some r.

Fixpoint text_of (rs : list jsval) : string :=
  match rs with [] => "" | r :: rs' => record_line stringify r +:+ text_of rs' end.

Lemma append_chain_text file writes :
  append_chain stringify file writes = file +:+ text_of (written writes).
Proof.
  revert file. induction writes as [|[r ok] ws IH]; intros file; cbn; [by rewrite string_app_nil_r|].
  destruct ok; cbn; [|by rewrite string_app_nil_r]. by rewrite IH, string_app_assoc.
Qed.

Lemma load_lines_text st rs torn :
  Forall good_line rs -> has_char newline torn = false ->
  trim torn = "" \/ json_parse (trim torn) = None ->
  load_lines json_parse st (split_on newline (text_of rs +:+ torn)) = load_all st rs.
Proof.
  intros Hrs Ht Htorn. revert st. induction Hrs as [|r rs (Hn & Htr & Hne & Hp) _ IH]; intros st.
  - change (text_of [] +:+ torn) with torn. rewrite split_on_none by done. cbn.
    destruct Htorn as [->|Hp]; [done|]. rewrite Hp. by destruct (nonempty (trim torn)).
  - cbn [text_of]. unfold record_line. rewrite !string_app_assoc.
    change (String newline "" +:+ (text_of rs +:+ torn)) with (String newline (text_of rs +:+ torn)).
    rewrite split_on_app by done. cbn [load_lines load_all]. rewrite Htr, Hne, Hp. cbn [negb].
    destruct (load_record st r) as [[st'|e]|]; [apply IH|done|done].
Qed.

Lemma load_written writes torn :
  Forall good_line (written writes) -> has_char newline torn = false ->
  trim torn = "" \/ json_parse (trim torn) = None ->
  loadJournal json_parse (Contents (append_chain stringify "" writes +:+ torn))
  = match load_all load_init (written writes) with
    | None => None
    | Some (Throw e) => Some (Throw e)
    | Some (Ok st) => Some (Ok (journal_of st))
    end.
Proof.
  intros Hg Ht Htorn. unfold loadJournal. rewrite append_chain_text.
  change ("" +:+ text_of (written writes)) with (text_of (written writes)).
  by rewrite load_lines_text.
Qed.
End lines.

(** ** The records of a run *)

Definition is_start (r : jsval) : bool := is_str "activity:start" (prop "event" r).
Definition is_end (r : jsval) : bool := is_str "activity:end" (prop "event" r).
Definition rec_id (r : jsval) : string := default "" (as_str (prop "id" r)).
Definition rec_key (r : jsval) : string := default "" (as_str (prop "replayKey" r)).

(** An activity record has an id and a replay key; other records have none. *)
Definition log_record (r : jsval) : Prop :=
  match r with
  | JObj fs => jwf fs /\
      ((is_start r = true \/ is_end r = true) ->
       exists id k, prop "id" r = JStr id /\ id <> "" /\ prop "replayKey" r = JStr k /\ k <> "")
  | _ => False
  end.

Lemma load_all_app st l1 l2 :
  load_all st (l1 ++ l2) = match load_all st l1 with
                           | Some (Ok st') => load_all st' l2
                           | x => x
                           end.
Proof.
  revert st. induction l1 as [|r l1 IH]; intros st; cbn; [done|].
  by destruct (load_record st r) as [[st'|e]|].
Qed.

Lemma load_start st r id k :
  nullish r = false -> is_start r = true -> prop "id" r = JStr id -> id <> "" -> prop "replayKey" r = JStr k ->
  load_record st r = Some (Ok {| startsById := jset id r (startsById st); endsById := endsById st;
                                 completed := completed st |}).
Proof.
  intros Hn Hs Hid Hne _. unfold load_record. rewrite Hn, Hid. cbn.
  apply nonempty_spec in Hne. rewrite Hne. cbn. unfold is_start in Hs. by rewrite Hs.
Qed.

Lemma load_ended st r id k :
  nullish r = false -> is_start r = false -> is_end r = true ->
  prop "id" r = JStr id -> id <> "" -> prop "replayKey" r = JStr k -> k <> "" ->
  load_record st r =
    Some (Ok {| startsById := startsById st; endsById := jset id r (endsById st);
                completed := jset k (spread (default JUndef (jget id (startsById st))) r) (completed st) |}).
Proof.
  intros Hn Hs He Hid Hne Hk Hkne. unfold load_record. rewrite Hn, Hid. cbn.
  apply nonempty_spec in Hne, Hkne. rewrite Hne. cbn. unfold is_start, is_end in *. rewrite Hs, He.
  unfold load_end, replay_key_of, or_value. rewrite Hk. cbn. rewrite Hkne. cbn. by rewrite Hkne.
Qed.

Lemma start_not_end r : is_start r = true -> is_end r = false.
Proof. unfold is_start, is_end. rewrite is_str_spec. by intros ->. Qed.

Lemma load_other st r :
  nullish r = false -> is_start r = false -> is_end r = false -> load_record st r = Some (Ok st).
Proof.
  intros Hn Hs He. unfold load_record. rewrite Hn. unfold is_start, is_end in *. rewrite Hs, He.
  by destruct (truthy (prop "id" r)).
Qed.

(** A field of the end record survives the merge with the start record. *)
Lemma prop_spread a fs f v :
  jwf fs -> prop f (JObj fs) = v -> v <> JUndef -> prop f (spread a (JObj fs)) = v.
Proof.
  intros Hwf Hv Hne. cbn in *. destruct (jget f fs) as [x|] eqn:Hf; [|congruence]. subst x.
  enough (jget f (foldl (fun m kv => jset kv.1 kv.2 m) (fields_of a) fs) = Some v) as -> by done.
  generalize (fields_of a). clear a. revert Hwf Hf. induction fs as [|[k w] fs IH]; intros Hwf Hf m; [done|].
  cbn [foldl fst snd]. apply NoDup_cons in Hwf as [Hk Hwf]. cbn in Hf.
  case_decide as Hkf; [|by apply IH]. simplify_eq.
  assert (forall m', jget f (foldl (fun m kv => jset kv.1 kv.2 m) m' fs) = jget f m') as ->; [|apply jget_jset_eq].
  clear -Hk. induction fs as [|[k w] fs IH]; intros m'; [done|]. cbn [foldl fst snd].
  rewrite IH by set_solver. apply jget_jset_ne. set_solver.
Qed.

(** [e] is the last completion of key [k] in [rs]. *)
Definition last_end (rs : list jsval) (k : string) (e : jsval) : Prop :=
  exists l1 l2, rs = l1 ++ e :: l2 /\ is_end e = true /\ rec_key e = k /\
    forall e', e' ∈ l2 -> is_end e' = true -> rec_key e' <> k.

(** What the loader knows after [rs]. *)
Record loaded (rs : list jsval) (st : load_state) : Prop := {
  ld_wf : jwf (startsById st);
  ld_start : forall id r, jget id (startsById st) = Some r -> r ∈ rs /\ is_start r = true /\ rec_id r = id;
  ld_started : forall r, r ∈ rs -> is_start r = true -> is_Some (jget (rec_id r) (startsById st));
  ld_ended : forall id, jhas id (endsById st) = true <-> exists e, e ∈ rs /\ is_end e = true /\ rec_id e = id;
  ld_completed : forall k r, jget k (completed st) = Some r ->
    exists e, last_end rs k e /\ forall f v, prop f e = v -> v <> JUndef -> prop f r = v;
  ld_has : forall e, e ∈ rs -> is_end e = true -> is_Some (jget (rec_key e) (completed st))
}.

Lemma loaded_init : loaded [] load_init.
Proof. split; [apply NoDup_nil_2|done|set_solver| |done|set_solver]. intros id. cbn. set_solver. Qed.

Lemma last_end_keep rs k e r :
  last_end rs k e -> (is_end r = true -> rec_key r <> k) -> last_end (rs ++ [r]) k e.
Proof.
  intros (l1 & l2 & -> & He & Hk & Hl) Hr. exists l1, (l2 ++ [r]).
  split; [by rewrite <-app_assoc|]. split; [done|]. split; [done|]. set_solver.
Qed.

Lemma loaded_start rs st r id :
  loaded rs st -> is_start r = true -> rec_id r = id ->
  loaded (rs ++ [r]) {| startsById := jset id r (startsById st); endsById := endsById st;
                        completed := completed st |}.
Proof.
  intros [] Hs Hid. pose proof (start_not_end r Hs) as He. split; cbn.
  - by apply jset_wf.
  - intros id' r'. rewrite jget_jset. case_decide.
    { intros [= <-]. split; [|split; [done|congruence]]. apply elem_of_app. right.
      by apply list_elem_of_singleton. }
    intros Hr. apply ld_start0 in Hr as (? & ? & ?). split; [|done]. apply elem_of_app. by left.
  - intros r' [Hr'| ->%list_elem_of_singleton]%elem_of_app Hs'; rewrite jget_jset; case_decide; eauto. congruence.
  - intros id'. rewrite ld_ended0. split.
    + intros (e & ? & ? & ?). exists e. split; [apply elem_of_app; by left|done].
    + intros (e & [?| ->%list_elem_of_singleton]%elem_of_app & ? & ?); [by exists e|congruence].
  - intros k r' Hr'. destruct (ld_completed0 k r' Hr') as (e & Hl & Hp). exists e. split; [|done].
    apply last_end_keep; [done|congruence].
  - intros e Hin He'. apply ld_has0; [|done]. apply elem_of_app in Hin as [?| ->%list_elem_of_singleton]; [done|congruence].
Qed.

Lemma loaded_end rs st fs id k a :
  let r := JObj fs in
  loaded rs st -> jwf fs -> is_end r = true -> rec_id r = id -> rec_key r = k ->
  loaded (rs ++ [r]) {| startsById := startsById st; endsById := jset id r (endsById st);
                        completed := jset k (spread a r) (completed st) |}.
Proof.
  intros r [] Hwf He Hid Hk.
  assert (Hs : is_start r = false) by (destruct (is_start r) eqn:Hs; [apply start_not_end in Hs; congruence|done]).
  split; cbn.
  - done.
  - intros id' r' Hr'. apply ld_start0 in Hr' as (? & ? & ?). split; [|done]. apply elem_of_app. by left.
  - intros r' [Hr'| ->%list_elem_of_singleton]%elem_of_app Hs'; [by apply ld_started0|congruence].
  - intros id'. rewrite jhas_jset, ld_ended0. split.
    + intros [->|(e & ? & ? & ?)]; [exists r|exists e]; (split; [apply elem_of_app|done]).
      * right. by apply list_elem_of_singleton.
      * by left.
    + intros (e & [Hin| ->%list_elem_of_singleton]%elem_of_app & He' & Hid').
      * right. by exists e.
      * left. congruence.
  - intros k' r'. rewrite jget_jset. case_decide as Hkk.
    + intros [= <-]. exists r. split; [|intros f v Hv Hne; by apply prop_spread].
      exists rs, []. split; [done|]. split; [done|]. split; [congruence|].
      intros e' Hin'. by apply elem_of_nil in Hin'.
    + intros Hr'. destruct (ld_completed0 k' r' Hr') as (e & Hl & Hp). exists e. split; [|done].
      apply last_end_keep; [done|]. intros _. congruence.
  - intros e Hin He'. rewrite jget_jset. case_decide; [eauto|].
    apply elem_of_app in Hin as [Hin| ->%list_elem_of_singleton]; [by apply ld_has0|congruence].
Qed.

Lemma loaded_other rs st r :
  loaded rs st -> is_start r = false -> is_end r = false -> loaded (rs ++ [r]) st.
Proof.
  intros [] Hs He. split; cbn.
  - done.
  - intros id' r' Hr'. apply ld_start0 in Hr' as (? & ? & ?). split; [|done]. apply elem_of_app. by left.
  - intros r' [Hr'| ->%list_elem_of_singleton]%elem_of_app Hs'; [by apply ld_started0|congruence].
  - intros id'. rewrite ld_ended0. split.
    { intros (e & ? & ? & ?). exists e. split; [apply elem_of_app; by left|done]. }
    intros (e & [?| ->%list_elem_of_singleton]%elem_of_app & ? & ?); [by exists e|congruence].
  - intros k' r' Hr'. destruct (ld_completed0 k' r' Hr') as (e & Hl & Hp). exists e. split; [|done].
    apply last_end_keep; [done|congruence].
  - intros e [Hin| ->%list_elem_of_singleton]%elem_of_app He'; [by apply ld_has0|congruence].
Qed.

Lemma load_all_loaded rs :
  Forall log_record rs -> exists st, load_all load_init rs = Some (Ok st) /\ loaded rs st.
Proof.
  induction rs as [|r rs IH] using rev_ind; intros Hall; [exists load_init; split; [done|apply loaded_init]|].
  apply Forall_app in Hall as [Hrs [Hr _]%Forall_cons]. destruct (IH Hrs) as (st & Hst & Hld).
  rewrite load_all_app, Hst. cbn. destruct r as [| | | | | |fs]; cbn [log_record] in Hr; try contradiction. destruct Hr as [Hwf Hact].
  destruct (is_start (JObj fs)) eqn:Hs.
  - destruct Hact as (id & k & Hid & Hne & Hk & Hkne); [by left|].
    erewrite load_start by done. eexists. split; [reflexivity|]. apply loaded_start; [done|done|].
    unfold rec_id. by rewrite Hid.
  - destruct (is_end (JObj fs)) eqn:He.
    + destruct Hact as (id & k & Hid & Hne & Hk & Hkne); [by right|].
      erewrite load_ended by done. eexists. split; [reflexivity|].
      apply loaded_end; [done|done|done| |]; unfold rec_id, rec_key; [by rewrite Hid|by rewrite Hk].
    + rewrite load_other by done. eexists. split; [reflexivity|]. by apply loaded_other.
Qed.

(** C11: reloading a journal is exact: for a file that the writer appended to
    until an append failed, and whose last line a crash may have cut short, the
    loader always answers; it has an entry for exactly the keys completed in
    the written records, each with the fields of the last completion; and the
    ambiguous activities are the started ones of which no end was written. *)
Theorem journal_reload_exact (stringify : jsval -> string) (json_parse : string -> option jsval)
    (writes : list (jsval * bool)) (torn : string) :
  Forall (good_line stringify json_parse) (written writes) -> Forall log_record (written writes) ->
  has_char newline torn = false -> trim torn = "" \/ json_parse (trim torn) = None ->
  exists j, loadJournal json_parse (Contents (append_chain stringify "" writes +:+ torn)) = Some (Ok j) /\
    (forall k, is_Some (jget k (completedByKey j)) <->
       exists e, e ∈ written writes /\ is_end e = true /\ rec_key e = k) /\
    (forall k r, jget k (completedByKey j) = Some r -> exists e, last_end (written writes) k e /\
       forall f v, prop f e = v -> v <> JUndef -> prop f r = v) /\
    (forall a, a ∈ ambiguous j -> a ∈ written writes /\ is_start a = true /\
       forall e, e ∈ written writes -> is_end e = true -> rec_id e <> rec_id a) /\
    (forall r, r ∈ written writes -> is_start r = true ->
       (forall e, e ∈ written writes -> is_end e = true -> rec_id e <> rec_id r) ->
       exists a, a ∈ ambiguous j /\ rec_id a = rec_id r).
Proof.
  intros Hg Hlog Ht Htorn. rewrite load_written by done.
  destruct (load_all_loaded _ Hlog) as (st & -> & []). exists (journal_of st). split; [done|].
  split; [|split; [done|split]].
  - intros k. split; [|intros (e & ? & ? & <-); by apply ld_has0].
    intros [r Hr]. destruct (ld_completed0 k r Hr) as (e & (l1 & l2 & Hrs & ? & ? & _) & _).
    exists e. rewrite Hrs. set_solver.
  - intros a Ha. unfold journal_of, ambiguous_of in Ha. cbn in Ha.
    apply list_elem_of_fmap in Ha as ([id a'] & -> & [Hno Hin]%list_elem_of_filter). cbn in *.
    apply jget_elem in Hin; [|done]. destruct (ld_start0 _ _ Hin) as (? & ? & Hid). split; [done|].
    split; [done|]. intros e He Hend Heq. rewrite <-not_true_iff_false, ld_ended0 in Hno. apply Hno.
    exists e. split; [done|]. split; [done|congruence].
  - intros r Hr Hs Hnone. destruct (ld_started0 r Hr Hs) as [a Ha]. exists a.
    destruct (ld_start0 _ _ Ha) as (_ & _ & Hid). split; [|done]. unfold journal_of, ambiguous_of. cbn.
    apply (list_elem_of_fmap_2 snd _ (rec_id r, a)), list_elem_of_filter. split; [|by apply jget_Some_elem].
    cbn. apply not_true_iff_false. rewrite ld_ended0. intros (e & He & Hend & Hide). by apply (Hnone e).
Qed.

(** ** A concrete journal *)

Definition demo_start : jsval :=
  JObj [("event", JStr "activity:start"); ("id", JStr "u1"); ("replayKey", JStr "0:agent:m:h")].
Definition demo_end : jsval :=
  JObj [("event", JStr "activity:end"); ("id", JStr "u1"); ("replayKey", JStr "0:agent:m:h");
        ("success", JBool true); ("output", JStr "done")].
Definition demo_lost : jsval :=
  JObj [("event", JStr "activity:start"); ("id", JStr "u2"); ("replayKey", JStr "1:agent:m:h")].

Definition demo_stringify (r : jsval) : string :=
  if is_end r then "E" else if bool_decide (rec_id r = "u1") then "S" else "L".
Definition demo_parse (s : string) : option jsval :=
  if decide (s = "S") then Some demo_start else if decide (s = "E") then Some demo_end
  else if decide (s = "L") then Some demo_lost else None.

Lemma journal_reload_exact_witness :
  exists j, loadJournal demo_parse
      (Contents (append_chain demo_stringify "" [(demo_start, true); (demo_end, true); (demo_lost, true)]
                 +:+ "{half")) = Some (Ok j) /\
    (completedByKey j).*1 = ["0:agent:m:h"] /\ ambiguous j = [demo_lost].
Proof.
  destruct (journal_reload_exact demo_stringify demo_parse
    [(demo_start, true); (demo_end, true); (demo_lost, true)] "{half") as (j & Hj & _).
  - repeat constructor.
  - repeat (apply Forall_cons; split; [split;
      [apply (bool_decide_unpack _); vm_compute; exact I
      |intros _; eexists _, _; (split; [reflexivity|split; [done|split; [reflexivity|done]]])]|]).
    constructor.
  - reflexivity.
  - right. reflexivity.
  - exists j. split; [exact Hj|]. vm_compute in Hj. injection Hj as <-. split; reflexivity.
Defined.

(** ** Replay keys *)

(** The characters of a sequence: digits and colons. *)
Definition seq_char (c : ascii) : bool := digit_char c || bool_decide (c = ":"%char).

Lemma key_span s t m h : string_all seq_char s = true ->
  span seq_char (computeActivityKey s t m h)
  = (s +:+ ":", type_name t +:+ ":" +:+ default "" m +:+ ":" +:+ default "" h).
Proof.
  intros Hs. unfold computeActivityKey. rewrite <-string_app_assoc. apply span_all.
  - by rewrite string_all_app, Hs.
  - intros c r Heq. by destruct t; injection Heq as <- _.
Qed.

(** The sequence and the type of a key can be read back. *)
Lemma activity_key_inj s t m h s' t' m' h' :
  string_all seq_char s = true -> string_all seq_char s' = true ->
  computeActivityKey s t m h = computeActivityKey s' t' m' h' -> s = s' /\ t = t'.
Proof.
  intros Hs Hs' Heq. apply (f_equal (span seq_char)) in Heq. rewrite !key_span in Heq by done.
  injection Heq as Hseq Ht. split.
  - by apply (sep_inj ":" s s' "" "") in Hseq as [? _].
  - destruct t, t'; try done.
Qed.
