(* ===== verification/Replay.v ===== *)
(** * Running and resuming a workflow script

    The calls of a script, their replay keys, and the journal replay of
    [apra-fleet-workflow/src/workflow/index.mjs]: [agent], [command] and
    [parallel] as far as they number calls, look them up in the journal of the
    run being resumed, dispatch them and journal them.

    A script is a tree of what it does next: it ends, makes a call and goes on
    with its outcome, or enters a [parallel()] barrier and goes on with the
    branches' outcomes.  A step of [run_step] is what the event loop does in one
    piece for one branch: start a call, receive its reply, enter a barrier, end.
    A schedule chooses the branch each time.  The fleet's replies, [sha256] and
    [JSON.parse]/[JSON.stringify] are arguments.

    A call is one step out and one step back: its wait at the gate is in
    [PauseGate], the repair rounds of an agent call are in [Agent], and its
    reply here is the one that ended it.  A record has the fields that the
    loader and the replay read. *)

From Stdlib Require Import Ascii.
From S2P Require Import Prelude JsMap JsVal Text Journal.
Local Open Scope string_scope.
Local Open Scope list_scope.

(** ** Calls and replies *)

(** [ac_text] is the prompt with its schema instruction, or the substituted
    command line. *)
Record acall := {
  ac_type : activity_type;
  ac_member : string;
  ac_text : string;
  ac_schema : bool;
  ac_failSoft : bool
}.

#[export] Instance acall_eq_dec : EqDecision acall.
Proof. solve_decision. Defined.

(** What the fleet answered: the message of the typed error the call ends
    with, or the display text, the clean text newer servers add
    ([structuredContent.response] or [.stdout]), and for a schema call the
    value extracted from it. *)
Record reply := {
  rp_error : option string;
  rp_cancelled : bool;              (** the error is a [CancelledError] *)
  rp_text : string;
  rp_clean : option string;
  rp_parsed : jsval
}.

(** What a call or a barrier gives back: a value, or an error it throws. *)
Inductive outcome := Val (v : jsval) | Err (msg : string).

Definition soft (ok : bool) (output : jsval) (error : jsval) : jsval :=
  JObj [("ok", JBool ok); ("output", output); ("error", error)].

(** The value a live call returns. *)
Definition live_value (c : acall) (r : reply) : outcome :=
  match rp_error r with
  | Some e =>
      match ac_type c with
      | Command => if ac_failSoft c && negb (rp_cancelled r) then Val (soft false (JStr "") (JStr e)) else Err e
      | Agent => Err e
      end
  | None =>
      match ac_type c with
      | Agent => if ac_schema c then Val (rp_parsed r) else Val (JStr (default (rp_text r) (rp_clean r)))
      | Command =>
          let out := JStr (default (rp_text r) (rp_clean r)) in
          if ac_failSoft c then Val (soft true out JNull) else Val out
      end
  end.

Section run.
Context (sha256 : string -> string) (json_parse : string -> option jsval) (stringify : jsval -> string).

(** The fields of the journaled [activity:start] and [activity:end]. *)
Definition meta_fields (id key : string) (c : acall) : list (string * jsval) :=
  [("id", JStr id); ("type", JStr (type_name (ac_type c))); ("member", JStr (ac_member c));
   ("replayKey", JStr key)]
  ++ match ac_type c with Command => [("failSoft", JBool (ac_failSoft c))] | Agent => [] end.

Definition start_record (id key : string) (c : acall) : jsval :=
  JObj (("event", JStr "activity:start") :: meta_fields id key c).

Definition journaled_output (c : acall) (r : reply) : string :=
  match ac_type c with
  | Agent => if ac_schema c then stringify (rp_parsed r) else rp_text r
  | Command => rp_text r
  end.

Definition end_record (id key : string) (c : acall) (r : reply) : jsval :=
  JObj (("event", JStr "activity:end") :: meta_fields id key c
        ++ match rp_error r with
           | None => [("success", JBool true); ("output", JStr (journaled_output c r))]
           | Some e => [("success", JBool false); ("error", JStr e)]
           end).

(** What a replayed call returns, from its completed, successful record. *)
Definition cached_value (c : acall) (rec : jsval) : outcome :=
  let out := prop "output" rec in
  match ac_type c with
  | Agent =>
      if ac_schema c then
        match json_parse (default "" (as_str out)) with
        | Some v => Val v
        | None => Err "SyntaxError"
        end
      else Val out
  | Command => if truthy (prop "failSoft" rec) then Val (soft true out JNull) else Val out
  end.

(** The events of a replayed call, marked as such; a cached output that does
    not parse throws between the two. *)
Definition replayed_fields (id key : string) (c : acall) (rec : jsval) : list (string * jsval) :=
  [("id", JStr id); ("type", JStr (type_name (ac_type c))); ("member", JStr (ac_member c));
   ("replayKey", JStr key); ("replayed", JBool true)]
  ++ match ac_type c with
     | Command => [("failSoft", JBool (truthy (prop "failSoft" rec)))]
     | Agent => []
     end.

Definition replayed_records (id key : string) (c : acall) (rec : jsval) : list jsval :=
  JObj (("event", JStr "activity:start") :: replayed_fields id key c rec)
  :: match cached_value c rec with
     | Val _ => [JObj (("event", JStr "activity:end") :: replayed_fields id key c rec
                       ++ [("success", JBool true); ("output", prop "output" rec)])]
     | Err _ => []
     end.

(** ** Sequences *)

(** The part of a run's or a branch's store that numbers calls. *)
Record store := { seqPrefix : string; activitySeq : nat; parallelSeq : nat }.

Definition top_store : store := {| seqPrefix := ""; activitySeq := 0; parallelSeq := 0 |}.

Definition nextSequence (st : store) : string := seqPrefix st +:+ pretty (activitySeq st).
Definition bump_seq (st : store) : store :=
  {| seqPrefix := seqPrefix st; activitySeq := S (activitySeq st); parallelSeq := parallelSeq st |}.
Definition bump_par (st : store) : store :=
  {| seqPrefix := seqPrefix st; activitySeq := activitySeq st; parallelSeq := S (parallelSeq st) |}.

(** The fork of branch [i] of the barrier being entered. *)
Definition branch_store (st : store) (i : nat) : store :=
  {| seqPrefix := seqPrefix st +:+ pretty (parallelSeq st) +:+ ":" +:+ pretty i +:+ ":";
     activitySeq := 0; parallelSeq := 0 |}.

Definition call_key (st : store) (c : acall) : string :=
  computeActivityKey (nextSequence st) (ac_type c) (Some (ac_member c)) (hashText sha256 (Some (ac_text c))).

(** ** Scripts *)

Inductive script :=
| Finish (r : outcome)
| DoCall (c : acall) (k : outcome -> script)
| Barrier (continueOnError : bool) (bs : list script) (k : outcome -> script).

(** ** Execution *)

Inductive task :=
| Running (st : store) (p : script)
| Dispatched (st : store) (id key : string) (c : acall) (k : outcome -> script)
| Joining (st : store) (continueOnError : bool) (bs : list task) (k : outcome -> script)
| Ended (r : outcome).

Definition ended (t : task) : option outcome := match t with Ended r => Some r | _ => None end.

(** [Promise.all] over the branches: with [continueOnError] an error becomes
    [null]; without it the first error rejects, whatever the others do. *)
Definition value_of (r : outcome) : jsval := match r with Val v => v | Err _ => JNull end.
Definition error_of (r : outcome) : option string := match r with Val _ => None | Err e => Some e end.

Definition first_error (bs : list task) : option string :=
  head (omap (fun t => ended t ≫= error_of) bs).

(** The barrier after one of its branches moved; the branches still running
    when it rejects go on unobserved. *)
Definition settle (st : store) (ce : bool) (bs : list task) (k : outcome -> script) : task * list task :=
  match (if ce then None else first_error bs) with
  | Some e => (Running st (k (Err e)), filter (fun t => ended t = None) bs)
  | None =>
      match mapM ended bs with
      | Some rs => (Running st (k (Val (JArr (value_of <$> rs)))), [])
      | None => (Joining st ce bs k, [])
      end
  end.

(** What a step does that others can see. *)
Inductive effect :=
| Quiet
| Dispatch (id key : string) (c : acall)
| Replayed (id key : string) (c : acall) (rec : jsval)
| Reply (id key : string) (c : acall) (r : reply).

(** One step of the branch at the root: [hit] is the journal's record to
    replay for a key, [id] a fresh activity id, [r] the reply of a dispatched call. *)
Definition leaf_step (hit : string -> option jsval) (id : string) (r : option reply)
    (t : task) : option (task * list task * effect) :=
  match t with
  | Running _ (Finish o) => Some (Ended o, [], Quiet)
  | Running st (DoCall c k) =>
      let key := call_key st c in
      match hit key with
      | Some rec => Some (Running (bump_seq st) (k (cached_value c rec)), [], Replayed id key c rec)
      | None => Some (Dispatched (bump_seq st) id key c k, [], Dispatch id key c)
      end
  | Running st (Barrier ce bs k) =>
      let '(t', orphans) :=
        settle (bump_par st) ce (imap (fun i b => Running (branch_store st i) b) bs) k in
      Some (t', orphans, Quiet)
  | Dispatched st id' key c k =>
      rp ← r; Some (Running st (k (live_value c rp)), [], Reply id' key c rp)
  | Joining _ _ _ _ | Ended _ => None
  end.

(** A step of the branch at [path], a list of branch indexes from the root. *)
Fixpoint task_step (hit : string -> option jsval) (id : string) (r : option reply)
    (path : list nat) (t : task) : option (task * list task * effect) :=
  match path, t with
  | [], _ => leaf_step hit id r t
  | i :: path', Joining st ce bs k =>
      match bs !! i with
      | None => None
      | Some b =>
          match task_step hit id r path' b with
          | None => None
          | Some (b', orphans, e) =>
              let '(t', more) := settle st ce (<[i := b']> bs) k in
              Some (t', orphans ++ more, e)
          end
      end
  | _ :: _, _ => None
  end.

(** ** A run *)

Record run := {
  rn_main : task;
  rn_orphans : list task;
  rn_replay : option (list (string * jsval));   (** [replay.completedByKey] *)
  rn_diverged : bool;
  rn_log : list jsval;                          (** the journal records *)
  rn_dispatched : list string                   (** the keys sent to the fleet *)
}.

Definition new_run (p : script) (replay : option (list (string * jsval))) : run :=
  {| rn_main := Running top_store p; rn_orphans := []; rn_replay := replay; rn_diverged := false;
     rn_log := []; rn_dispatched := [] |}.

(** [replay && !replay.diverged && cached && cached.success] *)
Definition replay_hit (s : run) (key : string) : option jsval :=
  if rn_diverged s then None
  else m ← rn_replay s; rec ← jget key m; if truthy (prop "success" rec) then Some rec else None.

Definition observe (e : effect) (s : run) : run :=
  match e with
  | Quiet => s
  | Replayed id key c rec =>
      {| rn_main := rn_main s; rn_orphans := rn_orphans s; rn_replay := rn_replay s;
         rn_diverged := rn_diverged s; rn_log := rn_log s ++ replayed_records id key c rec;
         rn_dispatched := rn_dispatched s |}
  | Dispatch id key c =>
      {| rn_main := rn_main s; rn_orphans := rn_orphans s; rn_replay := rn_replay s;
         rn_diverged := rn_diverged s || bool_decide (is_Some (rn_replay s));
         rn_log := rn_log s ++ [start_record id key c]; rn_dispatched := rn_dispatched s ++ [key] |}
  | Reply id key c r =>
      {| rn_main := rn_main s; rn_orphans := rn_orphans s; rn_replay := rn_replay s;
         rn_diverged := rn_diverged s; rn_log := rn_log s ++ [end_record id key c r];
         rn_dispatched := rn_dispatched s |}
  end.

(** A choice of the scheduler: the main task or an orphan, the branch, the
    fresh id and the reply it may consume. *)
Record choice := { ch_orphan : option nat; ch_path : list nat; ch_id : string; ch_reply : option reply }.

Definition run_step (s : run) (ch : choice) : option run :=
  match ch_orphan ch with
  | None =>
      match task_step (replay_hit s) (ch_id ch) (ch_reply ch) (ch_path ch) (rn_main s) with
      | None => None
      | Some (t', more, e) =>
          Some (observe e {| rn_main := t'; rn_orphans := rn_orphans s ++ more; rn_replay := rn_replay s;
                             rn_diverged := rn_diverged s; rn_log := rn_log s;
                             rn_dispatched := rn_dispatched s |})
      end
  | Some j =>
      match rn_orphans s !! j with
      | None => None
      | Some t =>
          match task_step (replay_hit s) (ch_id ch) (ch_reply ch) (ch_path ch) t with
          | None => None
          | Some (t', more, e) =>
              Some (observe e {| rn_main := rn_main s; rn_orphans := <[j := t']> (rn_orphans s) ++ more;
                                 rn_replay := rn_replay s; rn_diverged := rn_diverged s;
                                 rn_log := rn_log s; rn_dispatched := rn_dispatched s |})
          end
      end
  end.

Fixpoint run_steps (s : run) (cs : list choice) : option run :=
  match cs with
  | [] => Some s
  | c :: cs' => s' ← run_step s c; run_steps s' cs'
  end.
End run.
