(* ===== verification/ReplayProps.v ===== *)
(** * Schedules do not matter, until a journal is cut short

    What a script does is a function of the fleet's answers: whatever the
    interleaving of its parallel branches, it makes the same calls, under the
    same distinct replay keys, and ends with the same value.  Hence a complete
    journal replays a run without dispatching anything. *)

From Stdlib Require Import Ascii.
From S2P Require Import Prelude JsMap JsVal Text Journal JournalProps Replay.
Local Open Scope string_scope.
Local Open Scope list_scope.

(** ** The schedule-free meaning of a script *)

Definition is_val (o : outcome) : bool := match o with Val _ => true | Err _ => false end.

(** The outcome of a barrier none of whose rejections races with a branch. *)
Definition join_outcome (ce : bool) (os : list outcome) : option outcome :=
  if ce || forallb is_val os then Some (Val (JArr (value_of <$> os))) else None.

(** A call's start ([false]) or its reply ([true]). *)
Notation mark := (bool * (string * acall))%type.

(** The starts and replies, a bound on the steps taken, the end. *)
Notation meaning := (list mark * nat * outcome)%type.
Definition m_calls (x : meaning) : list mark := x.1.1.
Definition m_steps (x : meaning) : nat := x.1.2.
Definition m_end (x : meaning) : outcome := x.2.

Definition m_join (xs : list meaning) (y : meaning) : meaning :=
  (concat (m_calls <$> xs) ++ m_calls y, sum_list (m_steps <$> xs) + m_steps y, m_end y).
Definition m_tick (n : nat) (y : meaning) : meaning := (m_calls y, n + m_steps y, m_end y).
Definition m_reply (x : string * acall) (y : meaning) : meaning :=
  ((true, x) :: m_calls y, 1 + m_steps y, m_end y).
Definition m_call (x : string * acall) (y : meaning) : meaning :=
  ((false, x) :: (true, x) :: m_calls y, 2 + m_steps y, m_end y).

Definition m_ended (r : outcome) : meaning := ([], 0, r).

Section meaning.
Context (sha256 : string -> string) (json_parse : string -> option jsval).
Context (oracle : string -> acall -> outcome).

Fixpoint eval (p : script) (st : store) {struct p} : option meaning :=
  match p with
  | Finish r => Some ([], 1, r)
  | DoCall c k =>
      let key := call_key sha256 st c in
      m_call (key, c) <$> eval (k (oracle key c)) (bump_seq st)
  | Barrier ce bs k =>
      match (fix go (i : nat) (bs : list script) : option (list meaning) :=
               match bs with
               | [] => Some []
               | b :: bs' => x ← eval b (branch_store st i); xs ← go (S i) bs'; Some (x :: xs)
               end) 0 bs with
      | None => None
      | Some xs =>
          match join_outcome ce (m_end <$> xs) with
          | None => None
          | Some o => m_tick 1 ∘ m_join xs <$> eval (k o) (bump_par st)
          end
      end
  end.

Fixpoint teval (t : task) : option meaning :=
  match t with
  | Running st p => eval p st
  | Dispatched st id key c k => m_reply (key, c) <$> eval (k (oracle key c)) st
  | Joining st ce bs k =>
      match mapM teval bs with
      | None => None
      | Some xs =>
          match join_outcome ce (m_end <$> xs) with
          | None => None
          | Some o => m_join xs <$> eval (k o) st
          end
      end
  | Ended r => Some (m_ended r)
  end.

Definition branches (st : store) (bs : list script) : list task :=
  imap (fun i b => Running (branch_store st i) b) bs.

Lemma eval_Barrier ce bs k st :
  eval (Barrier ce bs k) st = m_tick 1 <$> teval (Joining (bump_par st) ce (branches st bs) k).
Proof.
  cbn [eval teval].
  assert (Hgo : forall i,
    (fix go (i : nat) (bs : list script) : option (list meaning) :=
       match bs with
       | [] => Some []
       | b :: bs' => x ← eval b (branch_store st i); xs ← go (S i) bs'; Some (x :: xs)
       end) i bs = mapM teval (imap (fun j b => Running (branch_store st (i + j)) b) bs)).
  { induction bs as [|b bs IH]; intros i; [done|]. cbn. rewrite Nat.add_0_r.
    destruct (eval b (branch_store st i)); [|done]. cbn. rewrite (IH (S i)).
    erewrite imap_ext; [reflexivity|]. intros j b' _. cbn. by rewrite Nat.add_succ_r. }
  rewrite (Hgo 0). unfold branches. cbn [Nat.add]. destruct (mapM teval _) as [xs|]; [|done].
  destruct (join_outcome ce _); [|done]. by destruct (eval _ _).
Qed.

(** ** A barrier that settles *)

Lemma mapM_ended (bs : list task) (rs : list outcome) :
  mapM ended bs = Some rs -> mapM teval bs = Some (m_ended <$> rs).
Proof.
  revert rs. induction bs as [|b bs IH]; intros rs; cbn; [by intros [= <-]|].
  destruct b; try done. cbn. destruct (mapM ended bs) as [rs'|]; [|done]. intros [= <-]. by rewrite (IH rs').
Qed.

Lemma first_error_joins bs e xs ce :
  first_error bs = Some e -> mapM teval bs = Some xs -> ce = false -> join_outcome ce (m_end <$> xs) = None.
Proof.
  intros He Hxs ->. unfold join_outcome. cbn.
  assert (forallb is_val (m_end <$> xs) = false) as ->; [|done].
  revert xs Hxs. induction bs as [|b bs IH]; intros xs; cbn; [done|].
  destruct (teval b) as [x|] eqn:Hb; [|done]. cbn. destruct (mapM teval bs) as [xs'|]; [|done]. cbn.
  intros [= <-]. cbn. unfold first_error in He. cbn in He. destruct b; cbn in He.
  4:{ cbn in Hb. simplify_eq. destruct r; cbn in *; [by apply IH|done]. }
  all: rewrite (IH He xs' eq_refl); by rewrite andb_false_r.
Qed.

Lemma m_join_nil rs y : m_join (m_ended <$> rs) y = y.
Proof.
  unfold m_join. destruct y as [[es n] r]. cbn. f_equal. f_equal.
  - induction rs as [|r' rs IH]; cbn; [done|]. cbn in IH. by rewrite IH.
  - induction rs as [|r' rs IH]; cbn; [done|]. cbn in IH. done.
Qed.

Lemma settle_meaning st ce bs k x :
  teval (Joining st ce bs k) = Some x ->
  exists t', settle st ce bs k = (t', []) /\ teval t' = Some x.
Proof.
  cbn [teval]. destruct (mapM teval bs) as [xs|] eqn:Hxs; [|done].
  destruct (join_outcome ce (m_end <$> xs)) as [o|] eqn:Ho; [|done]. intros Hx. unfold settle.
  destruct (if ce then None else first_error bs) as [e|] eqn:He.
  { destruct ce; [done|]. by rewrite (first_error_joins bs e xs false) in Ho. }
  destruct (mapM ended bs) as [rs|] eqn:Hrs.
  - eexists. split; [reflexivity|]. cbn [teval]. apply mapM_ended in Hrs. rewrite Hxs in Hrs.
    injection Hrs as ->. unfold join_outcome in Ho. destruct (ce || _); [|done]. injection Ho as <-.
    assert (m_end <$> (m_ended <$> rs) = rs) as Heq by (rewrite <-list_fmap_compose; apply list_fmap_id).
    rewrite Heq in Hx. revert Hx. destruct (eval _ st) as [y|]; [|done]. cbn. by rewrite m_join_nil.
  - eexists. split; [reflexivity|]. cbn [teval]. rewrite Hxs, Ho. exact Hx.
Qed.

(** ** One step *)

Definition marks (e : effect) : list mark :=
  match e with
  | Quiet => []
  | Dispatch _ key c => [(false, (key, c))]
  | Replayed _ key c _ => [(false, (key, c)); (true, (key, c))]
  | Reply _ key c _ => [(true, (key, c))]
  end.

(** The journal's records and the replies agree with the oracle. *)
Definition hits_agree (hit : string -> option jsval) (calls : list mark) : Prop :=
  forall key c rec, hit key = Some rec -> (false, (key, c)) ∈ calls -> cached_value json_parse c rec = oracle key c.
Definition reply_agrees (e : effect) : Prop :=
  match e with Reply _ key c rp => live_value c rp = oracle key c | _ => True end.

Notation leaf_step := (leaf_step sha256 json_parse).
Notation task_step := (task_step sha256 json_parse).

Lemma leaf_meaning hit id r t x t' orphans e :
  teval t = Some x -> hits_agree hit (m_calls x) -> leaf_step hit id r t = Some (t', orphans, e) ->
  reply_agrees e ->
  orphans = [] /\ exists x', teval t' = Some x' /\ m_calls x = marks e ++ m_calls x' /\
    m_steps x' < m_steps x /\ m_end x' = m_end x.
Proof.
  intros Hx Hhit Hs Hr. destruct t as [st p|st id' key c k|st ce bs k|o]; cbn in Hs; try done.
  - destruct p as [o|c k|ce bs k].
    + cbn in Hx. simplify_eq. split; [done|]. exists (m_ended o). cbn. split; [done|]. split; [done|]. split; [lia|done].
    + cbn [teval eval] in Hx. destruct (eval _ _) as [y|] eqn:Hy; [|done]. cbn in Hx. injection Hx as <-.
      destruct (hit (call_key sha256 st c)) as [rec|] eqn:Hh; injection Hs as <- <- <-; (split; [done|]).
      * exists y. cbn [teval]. rewrite (Hhit _ c _ Hh) by (cbn; set_solver). split; [done|]. cbn. split; [done|].
        split; [lia|done].
      * exists (m_reply (call_key sha256 st c, c) y). cbn [teval]. rewrite Hy. split; [done|]. cbn. split; [done|]. split; [lia|done].
    + destruct (settle _ _ _ _) as [t1 more] eqn:Hset. injection Hs as <- <- <-.
      cbn [teval] in Hx. rewrite eval_Barrier in Hx.
      destruct (teval (Joining _ _ _ _)) as [y|] eqn:Hy; [|done]. cbn in Hx. injection Hx as <-.
      apply settle_meaning in Hy as (t2 & Hset' & Ht2). unfold branches in Hset'. rewrite Hset in Hset'.
      injection Hset' as -> ->. split; [done|]. exists y. split; [done|]. cbn. split; [done|]. split; [lia|done].
  - destruct r as [rp|]; [|done]. cbn in Hs. injection Hs as <- <- <-. cbn in Hr.
    cbn [teval] in Hx. rewrite <-Hr in Hx. destruct (eval _ st) as [y|] eqn:Hy; [|done]. cbn in Hx. injection Hx as <-.
    split; [done|]. exists y. split; [done|]. cbn. split; [done|]. split; [lia|done].
Qed.

Lemma mapM_lookup {A B} (f : A -> option B) l ys i a :
  mapM f l = Some ys -> l !! i = Some a -> exists y, ys !! i = Some y /\ f a = Some y.
Proof.
  intros Hm Hi. apply mapM_Some in Hm. destruct (Forall2_lookup_l _ _ _ _ _ Hm Hi) as (y & ? & ?). eauto.
Qed.

Lemma mapM_insert {A B} (f : A -> option B) l ys i a y :
  mapM f l = Some ys -> f a = Some y -> mapM f (<[i := a]> l) = Some (<[i := y]> ys).
Proof.
  intros Hm Ha. apply mapM_Some in Hm. apply mapM_Some. by apply Forall2_insert.
Qed.

Lemma m_calls_join xs y : m_calls (m_join xs y) = concat (m_calls <$> xs) ++ m_calls y.
Proof. done. Qed.

Lemma m_steps_join xs y : m_steps (m_join xs y) = sum_list (m_steps <$> xs) + m_steps y.
Proof. done. Qed.

Lemma elem_of_branch_calls (xs : list meaning) i x e :
  xs !! i = Some x -> e ∈ m_calls x -> e ∈ concat (m_calls <$> xs).
Proof.
  intros Hi He. destruct (list_elem_of_split_length _ _ _ Hi) as (l1 & l2 & -> & _).
  rewrite fmap_app, concat_app. cbn. rewrite !elem_of_app. auto.
Qed.

(** Replacing one branch's meaning by what is left of it. *)
Lemma join_advance (xs : list meaning) i x x' y done :
  xs !! i = Some x -> m_calls x ≡ₚ done ++ m_calls x' -> m_steps x' < m_steps x ->
  m_calls (m_join xs y) ≡ₚ done ++ m_calls (m_join (<[i := x']> xs) y) /\
  m_steps (m_join (<[i := x']> xs) y) < m_steps (m_join xs y).
Proof.
  intros Hi Hc Hs. destruct (list_elem_of_split_length _ _ _ Hi) as (l1 & l2 & -> & ->).
  rewrite insert_app_r_alt, Nat.sub_diag by done. cbn [insert list_insert].
  rewrite !m_calls_join, !m_steps_join, !fmap_app, !concat_app, !fmap_cons, !sum_list_with_app.
  cbn [concat sum_list_with]. split; [|cbn; lia].
  rewrite Hc, <-!app_assoc. apply Permutation_app_swap_app.
Qed.

Lemma step_meaning hit id r path t x t' orphans e :
  teval t = Some x -> hits_agree hit (m_calls x) -> task_step hit id r path t = Some (t', orphans, e) ->
  reply_agrees e ->
  orphans = [] /\ exists x', teval t' = Some x' /\ m_calls x ≡ₚ marks e ++ m_calls x' /\
    m_steps x' < m_steps x /\ m_end x' = m_end x.
Proof.
  revert t x t' orphans. induction path as [|i path IH]; intros t x t' orphans Hx Hhit Hs Hr.
  { destruct (leaf_meaning hit id r t x t' orphans e Hx Hhit Hs Hr) as (-> & x' & ? & -> & ?). eauto 10. }
  destruct t as [| |st ce bs k|]; try done. cbn [Replay.task_step] in Hs.
  destruct (bs !! i) as [b|] eqn:Hb; [|done].
  destruct (task_step hit id r path b) as [[[b' orph] e']|] eqn:Hsb; [|done].
  cbn [teval] in Hx. destruct (mapM teval bs) as [xs|] eqn:Hxs; [|done].
  destruct (join_outcome ce (m_end <$> xs)) as [o|] eqn:Ho; [|done].
  destruct (eval (k o) st) as [y|] eqn:Hy; [|done]. cbn in Hx. injection Hx as <-.
  destruct (mapM_lookup _ _ _ _ _ Hxs Hb) as (xb & Hxb & Hteb).
  destruct (settle st ce (<[i:=b']> bs) k) as [t1 more] eqn:Hset. injection Hs as <- <- ->.
  destruct (IH b xb b' orph Hteb) as (-> & xb' & Hxb' & Hc & Hn & Hend); [|done|done|].
  { intros key c rec Hh Hin. apply Hhit; [done|]. rewrite m_calls_join. apply elem_of_app. left.
    by apply (elem_of_branch_calls xs i xb). }
  destruct (settle_meaning st ce (<[i:=b']> bs) k (m_join (<[i:=xb']> xs) y)) as (t2 & Hset' & Ht2).
  { cbn [teval]. rewrite (mapM_insert _ _ _ i _ _ Hxs Hxb').
    rewrite list_fmap_insert, list_insert_id by (by rewrite list_lookup_fmap, Hxb, Hend).
    by rewrite Ho, Hy. }
  rewrite Hset in Hset'. injection Hset' as -> ->. split; [done|].
  exists (m_join (<[i:=xb']> xs) y). split; [done|].
  destruct (join_advance xs i xb xb' y (marks e) Hxb Hc Hn). done.
Qed.

(** ** Progress *)

Fixpoint live (t : task) : bool :=
  match t with
  | Joining _ _ bs _ => existsb (fun b => bool_decide (ended b = None)) bs && forallb live bs
  | _ => true
  end.

Lemma task_ind' (P : task -> Prop) :
  (forall st p, P (Running st p)) -> (forall st id key c k, P (Dispatched st id key c k)) ->
  (forall st ce bs k, Forall P bs -> P (Joining st ce bs k)) -> (forall r, P (Ended r)) ->
  forall t, P t.
Proof.
  intros H1 H2 H3 H4. fix IH 1. intros [| |st ce bs k|]; [apply H1|apply H2| |apply H4].
  apply H3. induction bs as [|b bs IHbs]; constructor; [apply IH|apply IHbs].
Qed.

Lemma settle_live st ce bs k :
  forallb live bs = true -> live (settle st ce bs k).1 = true.
Proof.
  intros Hl. unfold settle. destruct (if ce then None else first_error bs); [done|].
  destruct (mapM ended bs) as [rs|] eqn:Hrs; [done|]. cbn. rewrite Hl, andb_true_r.
  apply mapM_None in Hrs. apply Exists_exists in Hrs as (b & Hb & He). apply existsb_exists.
  exists b. split; [by apply list_elem_of_In|by apply bool_decide_eq_true].
Qed.

Lemma leaf_live hit id r t t' orphans e :
  live t = true -> leaf_step hit id r t = Some (t', orphans, e) -> live t' = true.
Proof.
  intros Hl Hs. destruct t as [st [o|c k|ce bs k]|st id' key c k|st ce bs k|o]; cbn in Hs; try done.
  - by simplify_eq.
  - by destruct (hit _); simplify_eq.
  - pose proof (settle_live (bump_par st) ce (branches st bs) k) as H. unfold branches in H.
    destruct (settle _ _ _ _) as [t1 more]. simplify_eq. apply H. apply forallb_forall.
    intros b (i & s & -> & _)%list_elem_of_In%elem_of_lookup_imap. done.
  - destruct r; [|done]. cbn in Hs. by simplify_eq.
Qed.

Lemma step_live hit id r path t t' orphans e :
  live t = true -> task_step hit id r path t = Some (t', orphans, e) -> live t' = true.
Proof.
  revert t t' orphans. induction path as [|i path IH]; intros t t' orphans Hl Hs; [by eapply leaf_live|].
  destruct t as [| |st ce bs k|]; try done. cbn [Replay.task_step] in Hs.
  destruct (bs !! i) as [b|] eqn:Hb; [|done].
  destruct (task_step hit id r path b) as [[[b' orph] e']|] eqn:Hsb; [|done].
  pose proof (settle_live st ce (<[i:=b']> bs) k) as H.
  destruct (settle st ce (<[i:=b']> bs) k) as [t1 more]. injection Hs as <- <- ->. apply H.
  cbn in Hl. apply andb_true_iff in Hl as [_ Hl]. rewrite forallb_forall in *.
  intros c Hc. apply list_elem_of_In, list_elem_of_lookup in Hc as [j Hj].
  apply list_lookup_insert_Some in Hj as [(-> & -> & _)|(_ & Hj)].
  - apply (IH b c orph); [|done]. apply Hl, list_elem_of_In. by eapply list_elem_of_lookup_2.
  - apply Hl, list_elem_of_In. by eapply list_elem_of_lookup_2.
Qed.

(** The call whose reply the branch at [path] waits for. *)
Fixpoint waiting (path : list nat) (t : task) : option (string * acall) :=
  match path, t with
  | [], Dispatched _ _ key c _ => Some (key, c)
  | i :: path', Joining _ _ bs _ => b ← bs !! i; waiting path' b
  | _, _ => None
  end.

(** A task that has not ended can always move. *)
Lemma step_enabled t :
  live t = true -> ended t = None ->
  exists path, forall hit id r, (is_Some (waiting path t) -> is_Some r) -> is_Some (task_step hit id r path t).
Proof.
  induction t as [st p|st id' key c k|st ce bs k IH|o] using task_ind'; intros Hl He; [| | |done].
  - exists []. intros hit id r _. cbn. destruct p as [o|c k|ce bs k]; [eauto| |].
    + destruct (hit _); eauto.
    + destruct (settle _ _ _ _); eauto.
  - exists []. intros hit id r [rp ->]; cbn; eauto.
  - cbn in Hl. apply andb_true_iff in Hl as [Hex Hl].
    apply existsb_exists in Hex as (b & Hin & Hb%bool_decide_eq_true).
    apply list_elem_of_In, list_elem_of_lookup in Hin as [i Hi].
    assert (live b = true) as Hlb.
    { rewrite forallb_forall in Hl. apply Hl, list_elem_of_In. by eapply list_elem_of_lookup_2. }
    destruct (proj1 (Forall_lookup _ _) IH i b Hi Hlb Hb) as (path & Hp).
    exists (i :: path). intros hit id r Hr. cbn [Replay.task_step waiting] in *. rewrite Hi in *.
    destruct (Hp hit id r Hr) as [[[b' orph] e] ->]. destruct (settle _ _ _ _). eauto.
Qed.
End meaning.

(** ** Runs against a fleet *)

Section runs.
Context (sha256 : string -> string) (json_parse : string -> option jsval) (stringify : jsval -> string).

Notation run_step := (run_step sha256 json_parse stringify).
Notation run_steps := (run_steps sha256 json_parse stringify).
Notation task_step := (task_step sha256 json_parse).

Definition chosen (s : run) (ch : choice) : option task :=
  match ch_orphan ch with None => Some (rn_main s) | Some j => rn_orphans s !! j end.

(** A fleet that answers each call of a run by [answer]. *)
Definition answering (answer : string -> acall -> reply) (s : run) (ch : choice) : choice :=
  {| ch_orphan := ch_orphan ch; ch_path := ch_path ch; ch_id := ch_id ch;
     ch_reply := kc ← chosen s ch ≫= waiting (ch_path ch); Some (answer kc.1 kc.2) |}.

(** A run whose choices are each completed by [next]. *)
Fixpoint play (next : run -> choice -> choice) (s : run) (cs : list choice) : option run :=
  match cs with
  | [] => Some s
  | c :: cs' => s' ← run_step s (next s c); play next s' cs'
  end.

Lemma play_run_steps s cs : play (fun _ c => c) s cs = run_steps s cs.
Proof.
  revert s. induction cs as [|c cs IH]; intros s; cbn; [done|]. destruct (run_step s c); [apply IH|done].
Qed.

(** An invariant that counts the steps and is never stuck: the run ends. *)
Section course.
Context (next : run -> choice -> choice) (I : nat -> run -> Prop) (total : nat).
Hypothesis I_total : forall n s, I n s -> n <= total.
Hypothesis I_step : forall n s ch s', I n s -> run_step s (next s ch) = Some s' -> I (S n) s'.
Hypothesis I_go : forall n s, I n s -> ended (rn_main s) = None -> exists ch s', run_step s (next s ch) = Some s'.

Lemma course_play n s cs s' : I n s -> play next s cs = Some s' -> I (n + length cs) s'.
Proof.
  revert n s. induction cs as [|c cs IH]; intros n s Hs Hp; cbn in Hp.
  - simplify_eq. by rewrite Nat.add_0_r.
  - destruct (run_step s _) as [s1|] eqn:H1; [|done]. cbn in Hp. cbn [length].
    rewrite <-plus_n_Sm. apply (IH (S n) s1); [by eapply I_step|done].
Qed.

Lemma course_ends n s :
  I n s -> exists cs s', play next s cs = Some s' /\ is_Some (ended (rn_main s')).
Proof.
  remember (total - n) as d. revert n s Heqd. induction d as [|d IH]; intros n s Hd Hs.
  all: destruct (ended (rn_main s)) as [o|] eqn:He; [exists [], s; cbn; eauto|].
  all: destruct (I_go n s Hs He) as (ch & s1 & H1); pose proof (I_step n s ch s1 Hs H1) as Hs1;
    pose proof (I_total _ _ Hs1) as Hle.
  - lia.
  - destruct (IH (S n) s1) as (cs & s' & Hcs & Hend); [lia|done|].
    exists (ch :: cs), s'. cbn. by rewrite H1.
Qed.
End course.

Definition oracle_of (answer : string -> acall -> reply) (key : string) (c : acall) : outcome :=
  live_value c (answer key c).

(** The step of a branch deep in the tree is a step of the branch itself. *)
Lemma step_leaf hit id r path t t' orphans e :
  task_step hit id r path t = Some (t', orphans, e) ->
  exists u u' orphans', leaf_step sha256 json_parse hit id r u = Some (u', orphans', e) /\
    waiting path t = waiting [] u.
Proof.
  revert t t' orphans. induction path as [|i path IH]; intros t t' orphans Hs; [eauto|].
  destruct t as [| |st ce bs k|]; try done. cbn [Replay.task_step] in Hs. cbn [waiting].
  destruct (bs !! i) as [b|] eqn:Hb; [|done]. cbn.
  destruct (task_step hit id r path b) as [[[b' orph] e']|] eqn:Hsb; [|done].
  destruct (settle _ _ _ _). simplify_eq. by eapply IH.
Qed.

(** Where an effect comes from. *)
Lemma step_effect hit id r path t t' orphans e :
  task_step hit id r path t = Some (t', orphans, e) ->
  match e with
  | Quiet => True
  | Dispatch _ key _ => hit key = None
  | Replayed _ key _ rec => hit key = Some rec
  | Reply _ key c rp => waiting path t = Some (key, c) /\ r = Some rp
  end.
Proof.
  intros (u & u' & orphans' & Hs & ->)%step_leaf.
  destruct u as [st [o|c' k|ce bs k]|st id'' key' c' k|st ce bs k|o]; cbn in Hs; try done.
  - by simplify_eq.
  - destruct (hit _) eqn:Hh; by simplify_eq.
  - destruct (settle _ _ _ _). by simplify_eq.
  - destruct r; [|done]. cbn in Hs. by simplify_eq.
Qed.

(** The journal records of an effect. *)
Definition records (e : effect) : list jsval :=
  match e with
  | Quiet => []
  | Dispatch id key c => [start_record id key c]
  | Replayed id key c rec => replayed_records json_parse id key c rec
  | Reply id key c r => [end_record stringify id key c r]
  end.

(** A step of a run without orphans is a step of its main task. *)
Lemma main_step s ch s' :
  rn_orphans s = [] -> run_step s ch = Some s' ->
  exists t' more e, ch_orphan ch = None /\
    task_step (replay_hit s) (ch_id ch) (ch_reply ch) (ch_path ch) (rn_main s) = Some (t', more, e) /\
    rn_main s' = t' /\ rn_orphans s' = more /\ rn_replay s' = rn_replay s /\
    rn_dispatched s' = rn_dispatched s ++ (match e with Dispatch _ key _ => [key] | _ => [] end) /\
    rn_diverged s' = rn_diverged s
      || (match e with Dispatch _ _ _ => bool_decide (is_Some (rn_replay s)) | _ => false end) /\
    rn_log s' = rn_log s ++ records e.
Proof.
  intros Ho Hs. unfold Replay.run_step in Hs. rewrite Ho in Hs. destruct (ch_orphan ch); [done|].
  destruct (task_step _ _ _ _ _) as [[[t' more] e]|]; [|done]. simplify_eq.
  exists t', more, e. by destruct e; cbn; rewrite ?app_nil_r, ?orb_false_r.
Qed.

(** ** Without a journal *)

(** The record of a mark under an activity id. *)
Definition record_of (answer : string -> acall -> reply) (x : string * mark) : jsval :=
  let '(id, (ended, (key, c))) := x in
  if ended : bool then end_record stringify id key c (answer key c) else start_record id key c.

Definition start_keys (ms : list mark) : list string :=
  omap (fun m : mark => if m.1 then None else Some m.2.1) ms.

(** After some steps: no branch was abandoned; the marks journaled and the
    marks left make up the meaning of the script. *)
Record on_course (answer : string -> acall -> reply) (m : meaning) (tr : list (string * mark))
    (took : nat) (s : run) : Prop := {
  oc_orphans : rn_orphans s = [];
  oc_replay : rn_replay s = None;
  oc_live : live (rn_main s) = true;
  oc_log : rn_log s = record_of answer <$> tr;
  oc_dispatched : rn_dispatched s = start_keys tr.*2;
  oc_teval : exists x, teval sha256 (oracle_of answer) (rn_main s) = Some x /\
    m_calls m ≡ₚ tr.*2 ++ m_calls x /\ took + m_steps x <= m_steps m /\ m_end x = m_end m
}.

Lemma on_course_new answer p m :
  eval sha256 (oracle_of answer) p top_store = Some m -> on_course answer m [] 0 (new_run p None).
Proof. intros Hm. split; try done. exists m. done. Qed.

Lemma replay_hit_none s : rn_replay s = None -> replay_hit s = fun _ => None.
Proof. intros Hr. unfold replay_hit. rewrite Hr. by destruct (rn_diverged s). Qed.

Lemma on_course_step answer m n tr s ch s' :
  on_course answer m tr n s -> run_step s (answering answer s ch) = Some s' ->
  exists tr', on_course answer m (tr ++ tr') (S n) s'.
Proof.
  intros [Ho Hrep Hl Hlog Hd (x & Hx & Hc & Hn & Hend)] Hs.
  destruct (main_step _ _ _ Ho Hs) as (t' & more & e & Hor & Hst & Hm & Ho' & Hr' & Hd' & _ & Hlog').
  rewrite (replay_hit_none s Hrep) in Hst. cbn [answering ch_orphan] in Hor.
  assert (He : reply_agrees (oracle_of answer) e /\ exists tr', records e = record_of answer <$> tr' /\
    tr'.*2 = marks e /\ start_keys (marks e) = match e with Dispatch _ key _ => [key] | _ => [] end).
  { pose proof (step_effect _ _ _ _ _ _ _ _ Hst) as He.
    destruct e as [|id key c|id key c rec|id key c rp]; [by split; [done|exists []]| |done|].
    - split; [done|]. by exists [(id, (false, (key, c)))].
    - destruct He as [Hw Hrp]. cbn in Hrp. unfold chosen in Hrp. rewrite Hor in Hrp. cbn in Hrp, Hw.
      rewrite Hw in Hrp. injection Hrp as <-. split; [done|]. by exists [(id, (true, (key, c)))]. }
  destruct He as (Hag & tr' & Hrecs & Hmarks & Hkeys).
  destruct (step_meaning sha256 json_parse (oracle_of answer) (fun _ => None) _ _ _ _ _ _ _ _ Hx ltac:(done) Hst Hag)
    as (-> & x' & Hx' & Hc' & Hn' & Hend').
  exists tr'. split.
  - done.
  - congruence.
  - rewrite Hm. by eapply step_live.
  - by rewrite Hlog', Hlog, Hrecs, fmap_app.
  - rewrite Hd', Hd, fmap_app. unfold start_keys in *. by rewrite omap_app, Hmarks, Hkeys.
  - exists x'. rewrite Hm. split; [done|]. rewrite fmap_app, Hmarks, Hc, Hc', <-app_assoc.
    split; [done|]. split; [lia|congruence].
Qed.

(** A run that has not ended goes on. *)
Lemma on_course_go answer m n tr s :
  on_course answer m tr n s -> ended (rn_main s) = None ->
  exists ch s', run_step s (answering answer s ch) = Some s'.
Proof.
  intros [Ho Hrep Hl _ _ _] He. destruct (step_enabled sha256 json_parse _ Hl He) as (path & Hp).
  exists {| ch_orphan := None; ch_path := path; ch_id := "id"; ch_reply := None |}.
  unfold Replay.run_step. cbn.
  destruct (Hp (replay_hit s) "id" (kc ← waiting path (rn_main s); Some (answer kc.1 kc.2))) as [[[t' more] e] ->].
  - intros [kc ->]. cbn. eauto.
  - eauto.
Qed.

Lemma on_course_ended answer m tr n s r :
  on_course answer m tr n s -> ended (rn_main s) = Some r -> r = m_end m /\ m_calls m ≡ₚ tr.*2.
Proof.
  intros [_ _ _ _ _ (x & Hx & Hc & _ & Hend)] He. destruct (rn_main s); try done. cbn in He, Hx. simplify_eq.
  by rewrite Hc, app_nil_r.
Qed.

Lemma course_bound answer m n s : (exists tr, on_course answer m tr n s) -> n <= m_steps m.
Proof. intros (tr & [_ _ _ _ _ (x & _ & _ & ? & _)]). lia. Qed.

Lemma course_next answer m n s ch s' :
  (exists tr, on_course answer m tr n s) -> run_step s (answering answer s ch) = Some s' ->
  exists tr, on_course answer m tr (S n) s'.
Proof. intros (tr & Hs) H1. destruct (on_course_step _ _ _ _ _ _ _ Hs H1). eauto. Qed.

Lemma start_keys_proper ms ms' : ms ≡ₚ ms' -> start_keys ms ≡ₚ start_keys ms'.
Proof. intros H. unfold start_keys. by rewrite H. Qed.

(** C8: schedules agree: for a script none of whose barriers rejects, run
    against a fleet that answers each call by its key and content, every
    interleaving takes at most as many steps as the script has, abandons no
    branch and can always go on to the end; every run that ended ends with the
    same value, having dispatched the same calls under the same keys. *)
Theorem schedules_agree answer p m sched s :
  eval sha256 (oracle_of answer) p top_store = Some m ->
  play (answering answer) (new_run p None) sched = Some s ->
  length sched <= m_steps m /\ rn_orphans s = [] /\
  (forall r, ended (rn_main s) = Some r -> r = m_end m /\ rn_dispatched s ≡ₚ start_keys (m_calls m)) /\
  exists more s', play (answering answer) s more = Some s' /\ ended (rn_main s') = Some (m_end m).
Proof.
  intros Hm Hp.
  pose proof (course_play _ (fun n s => exists tr, on_course answer m tr n s) (course_next answer m) 0 _ _ _
    (ex_intro _ [] (on_course_new answer p m Hm)) Hp) as [tr Hs]. cbn in Hs.
  split; [apply (course_bound answer m _ s); eauto|]. split; [apply Hs|]. split.
  - intros r Hr. destruct (on_course_ended _ _ _ _ _ _ Hs Hr) as [-> Hc]. split; [done|].
    rewrite (oc_dispatched _ _ _ _ _ Hs). symmetry. by apply start_keys_proper.
  - destruct (course_ends (answering answer) (fun n s => exists tr, on_course answer m tr n s) (m_steps m)
      (course_bound answer m) (course_next answer m)) with (n := length sched) (s := s) as (cs & s' & Hcs & [r Hr]).
    + intros n s1 [tr1 Hs1] He. by eapply on_course_go.
    + eauto.
    + exists cs, s'. split; [done|]. 
      destruct (course_play _ (fun n s => exists tr, on_course answer m tr n s) (course_next answer m) _ _ _ _
        (ex_intro _ tr Hs) Hcs) as [tr' Hs'].
      rewrite Hr. by destruct (on_course_ended _ _ _ _ _ _ Hs' Hr) as [-> _].
Qed.
End runs.
