(* ===== verification/ReplayKeys.v ===== *)
(** * No two calls of a run share a replay key

    Every branch of a run owns the sequences it can still give out; the tasks
    of a run own disjoint sets of them, whatever the script, the replies, the
    schedule and the branches abandoned by a rejected barrier. *)

From Stdlib Require Import Ascii.
From S2P Require Import Prelude JsMap JsVal Text Journal JournalProps Replay ReplayProps.
Local Open Scope string_scope.
Local Open Scope list_scope.

(** ** Sequences *)

Lemma nat_digits (n : nat) : string_all digit_char (pretty n) = true.
Proof.
  change (pretty n) with (pretty (N.of_nat n)). unfold pretty, pretty_N. case_decide; [done|].
  by rewrite (proj1 (digits_value_pretty_go _ _)).
Qed.

Lemma nat_span (n : nat) r : span digit_char (pretty n +:+ String ":" r) = (pretty n, String ":" r).
Proof. apply span_all; [apply nat_digits|]. by intros c s [= <- _]. Qed.

Lemma nat_colon_inj (n n' : nat) r r' :
  pretty n +:+ String ":" r = pretty n' +:+ String ":" r' -> n = n' /\ r = r'.
Proof.
  intros Heq. apply (f_equal (span digit_char)) in Heq. rewrite !nat_span in Heq.
  injection Heq as Hn Hr. split; [by apply (inj pretty)|done].
Qed.

Lemma nat_not_colon (n n' : nat) r : pretty n <> pretty n' +:+ String ":" r.
Proof.
  intros Heq. pose proof (nat_digits n) as Hn. rewrite Heq, string_all_app in Hn.
  cbn in Hn. by rewrite andb_false_r in Hn.
Qed.

Lemma digits_seq s : string_all digit_char s = true -> string_all seq_char s = true.
Proof.
  induction s as [|c s IH]; cbn; [done|]. intros [Hc Hs]%andb_true_iff. rewrite IH by done.
  unfold seq_char at 1. by rewrite Hc.
Qed.

(** What a store still gives out: its later activities, and anything below its
    later barriers. *)
Definition gives (st : store) (u : string) : Prop :=
  (exists n, activitySeq st <= n /\ u = pretty n) \/
  (exists b r, parallelSeq st <= b /\ u = pretty b +:+ String ":" r).

Definition owns (st : store) (q : string) : Prop :=
  string_all seq_char q = true /\ exists u, q = seqPrefix st +:+ u /\ gives st u.

Definition good_store (st : store) : Prop := string_all seq_char (seqPrefix st) = true.

Lemma owns_gives st u : owns st (seqPrefix st +:+ u) -> gives st u.
Proof. intros [_ (u' & Heq & Hu)]. apply (inj (String.append _)) in Heq. by subst. Qed.

Lemma owns_next st : good_store st -> owns st (nextSequence st).
Proof.
  intros Hg. split; [unfold nextSequence; rewrite string_all_app, Hg; by apply digits_seq, nat_digits|].
  eexists. split; [reflexivity|]. left. eauto.
Qed.

Lemma owns_bump_seq st q : owns (bump_seq st) q -> owns st q.
Proof.
  intros [Hq (u & -> & Hu)]. split; [done|]. exists u. split; [done|].
  destruct Hu as [(n & Hn & ->)|Hu]; [left; exists n; cbn in Hn; split; [lia|done]|by right].
Qed.

Lemma next_given st : ~ owns (bump_seq st) (nextSequence st).
Proof.
  intros Ho%(owns_gives (bump_seq st) (pretty (activitySeq st))). destruct Ho as [(n & Hn & Heq)|(b & r & _ & Heq)].
  - apply (inj pretty) in Heq. cbn in Hn. lia.
  - by apply nat_not_colon in Heq.
Qed.

Lemma owns_bump_par st q : owns (bump_par st) q -> owns st q.
Proof.
  intros [Hq (u & -> & Hu)]. split; [done|]. exists u. split; [done|].
  destruct Hu as [Hu|(b & r & Hb & ->)]; [by left|]. right. exists b, r. cbn in Hb. split; [lia|done].
Qed.

Lemma owns_branch st i q :
  owns (branch_store st i) q ->
  string_all seq_char q = true /\
  exists r, q = seqPrefix st +:+ (pretty (parallelSeq st) +:+ String ":" (pretty i +:+ String ":" r)).
Proof.
  intros [Hq (u & -> & _)]. split; [done|]. exists u. cbn [branch_store seqPrefix].
  by rewrite !string_app_assoc.
Qed.

Lemma branch_owned st i q : owns (branch_store st i) q -> owns st q.
Proof.
  intros (Hq & r & ->)%owns_branch. split; [done|]. eexists. split; [reflexivity|].
  right. by eexists _, _.
Qed.

Definition apart (P Q : string -> Prop) : Prop := forall q, P q -> Q q -> False.

Lemma branches_apart st i j : i <> j -> apart (owns (branch_store st i)) (owns (branch_store st j)).
Proof.
  intros Hij q (_ & r & ->)%owns_branch (_ & r' & Heq)%owns_branch.
  apply (inj (String.append _)), nat_colon_inj in Heq as [_ Heq]. by apply nat_colon_inj in Heq as [? _].
Qed.

Lemma branch_apart st i : apart (owns (branch_store st i)) (owns (bump_par st)).
Proof.
  intros q (_ & r & ->)%owns_branch Ho. apply (owns_gives (bump_par st)) in Ho as [(n & _ & Heq)|(b & r' & Hb & Heq)]; [by eapply nat_not_colon|].
  apply nat_colon_inj in Heq as [Heq _]. cbn in Hb. lia.
Qed.

Lemma branch_good st i : good_store st -> good_store (branch_store st i).
Proof.
  intros Hg. unfold good_store in *. cbn [branch_store seqPrefix]. rewrite !string_all_app, Hg.
  by rewrite (digits_seq _ (nat_digits (parallelSeq st))), (digits_seq _ (nat_digits i)).
Qed.

(** ** The owners of a run *)

Inductive owned : task -> string -> Prop :=
| owned_running st p q : owns st q -> owned (Running st p) q
| owned_dispatched st id key c k q : owns st q -> owned (Dispatched st id key c k) q
| owned_joining st ce bs k q : owns st q -> owned (Joining st ce bs k) q
| owned_branch st ce bs k b q : b ∈ bs -> owned b q -> owned (Joining st ce bs k) q.

Definition owned_by (ts : list task) (q : string) : Prop := exists t, t ∈ ts /\ owned t q.

Fixpoint disjoint_tasks (ts : list task) : Prop :=
  match ts with
  | [] => True
  | t :: ts' => apart (owned t) (owned_by ts') /\ disjoint_tasks ts'
  end.

Inductive tidy : task -> Prop :=
| tidy_running st p : good_store st -> tidy (Running st p)
| tidy_dispatched st id key c k : good_store st -> tidy (Dispatched st id key c k)
| tidy_joining st ce bs k : good_store st -> Forall tidy bs -> disjoint_tasks bs ->
    apart (owns st) (owned_by bs) -> tidy (Joining st ce bs k)
| tidy_ended r : tidy (Ended r).

Definition forest (ts : list task) : Prop := Forall tidy ts /\ disjoint_tasks ts.

Lemma apart_mono (P P' Q Q' : string -> Prop) :
  apart P Q -> (forall q, P' q -> P q) -> (forall q, Q' q -> Q q) -> apart P' Q'.
Proof. intros H HP HQ q Hp Hq. apply (H q); auto. Qed.

Lemma owned_by_nil q : ~ owned_by [] q.
Proof. intros (t & Ht & _). by apply elem_of_nil in Ht. Qed.

Lemma owned_by_cons t ts q : owned_by (t :: ts) q <-> owned t q \/ owned_by ts q.
Proof.
  split.
  - intros (u & [->|Hu]%elem_of_cons & Hq); [by left|right; by exists u].
  - intros [Hq|(u & Hu & Hq)]; [exists t|exists u]; (split; [apply elem_of_cons; auto|done]).
Qed.

Lemma owned_by_app ts us q : owned_by (ts ++ us) q <-> owned_by ts q \/ owned_by us q.
Proof.
  induction ts as [|t ts IH]; cbn; [split; [auto|intros [H%owned_by_nil|H]; done]|].
  rewrite !owned_by_cons, IH. tauto.
Qed.

Lemma owned_by_perm ts us q : ts ≡ₚ us -> owned_by ts q -> owned_by us q.
Proof. intros Hp (t & Ht & Hq). exists t. by rewrite <-Hp. Qed.

Lemma disjoint_app ts us :
  disjoint_tasks (ts ++ us) <-> disjoint_tasks ts /\ disjoint_tasks us /\ apart (owned_by ts) (owned_by us).
Proof.
  induction ts as [|t ts IH]; cbn [app disjoint_tasks].
  - split; [intros H; split; [done|split; [done|]]; intros q Hq; by apply owned_by_nil in Hq|by intros (_ & H & _)].
  - rewrite IH. unfold apart. setoid_rewrite owned_by_cons. setoid_rewrite owned_by_app. firstorder.
Qed.

Lemma owners_app ts us : forest (ts ++ us) <-> forest ts /\ forest us /\ apart (owned_by ts) (owned_by us).
Proof. unfold forest. rewrite Forall_app, disjoint_app. tauto. Qed.

Lemma owners_cons t ts : forest (t :: ts) <-> tidy t /\ forest ts /\ apart (owned t) (owned_by ts).
Proof. unfold forest. rewrite Forall_cons. cbn. tauto. Qed.

Lemma owners_nil : forest [].
Proof. by split. Qed.

Lemma owners_perm ts us : ts ≡ₚ us -> forest ts -> forest us.
Proof.
  intros Hp [Hf Hd]. split; [by rewrite <-Hp|]. clear Hf. revert Hd.
  induction Hp as [|t ts us Hp IH|t u ts|ts us vs _ IH1 _ IH2]; cbn; [done| | |auto].
  - intros [Ha Hd]. split; [|auto]. eapply apart_mono; [exact Ha|done|].
    intros q. by apply owned_by_perm.
  - intros (Hut & Ht & Hd). unfold apart in *. setoid_rewrite owned_by_cons in Hut.
    setoid_rewrite owned_by_cons. firstorder.
Qed.

Lemma owners_filter (P : task -> Prop) `{!forall t, Decision (P t)} ts : forest ts -> forest (filter P ts).
Proof.
  intros Hf. eapply (owners_app (filter P ts) (filter (fun t => ~ P t) ts)).
  eapply owners_perm; [|exact Hf]. clear. induction ts as [|t ts IH]; [done|].
  rewrite !filter_cons. destruct (decide (P t)), (decide (~ P t)); try tauto; cbn; rewrite IH at 1; [done|].
  apply Permutation_middle.
Qed.

Lemma owned_by_filter (P : task -> Prop) `{!forall t, Decision (P t)} ts q :
  owned_by (filter P ts) q -> owned_by ts q.
Proof. intros (t & [_ Ht]%list_elem_of_filter & Hq). by exists t. Qed.

(** Some owners may be replaced by owners of less. *)
Lemma owners_replace t us ts :
  forest (t :: ts) -> forest us -> (forall q, owned_by us q -> owned t q) -> forest (us ++ ts).
Proof.
  intros (_ & Hts & Ha)%owners_cons Hus Hsub. apply owners_app. split; [done|]. split; [done|].
  eapply apart_mono; [exact Ha|exact Hsub|done].
Qed.

(** ** Steps *)

Lemma owned_joining_iff st ce bs k q : owned (Joining st ce bs k) q <-> owns st q \/ owned_by bs q.
Proof.
  split.
  - intros H. inversion H; subst; [by left|right]. by eexists.
  - intros [H|(b & Hb & H)]; [by apply owned_joining|by eapply owned_branch].
Qed.

Lemma owned_seq t q : owned t q -> string_all seq_char q = true.
Proof. induction 1 as [st p q []|st id key c k q []|st ce bs k q []|]; done. Qed.

Lemma owners_one t : tidy t -> forest [t].
Proof.
  intros Ht. apply owners_cons. split; [done|]. split; [apply owners_nil|].
  by intros q _ Hq%owned_by_nil.
Qed.

Lemma owned_by_one t q : owned_by [t] q <-> owned t q.
Proof. rewrite owned_by_cons. split; [intros [H|H%owned_by_nil]; done|by left]. Qed.

Lemma settle_forest st ce bs k t' more :
  tidy (Joining st ce bs k) -> settle st ce bs k = (t', more) ->
  forest (t' :: more) /\ forall q, owned_by (t' :: more) q -> owns st q \/ owned_by bs q.
Proof.
  intros Ht Hs. inversion Ht as [| |st' ce' bs' k' Hg Hbs Hd Ha|]; subst. unfold settle in Hs.
  assert (Hrun : forall o q, owned (Running st (k o)) q -> owns st q) by (intros o q; by inversion 1).
  destruct (if ce then None else first_error bs) as [e|].
  - injection Hs as <- <-. split.
    + apply owners_cons. split; [by constructor|]. split; [by apply owners_filter|].
      eapply apart_mono; [exact Ha|apply Hrun|apply owned_by_filter].
    + intros q [Hq|Hq]%owned_by_cons; [left; by eapply Hrun|right; by eapply owned_by_filter].
  - destruct (mapM ended bs) as [rs|]; injection Hs as <- <-; (split; [apply owners_one; by constructor|]).
    + intros q Hq%owned_by_one. left. by eapply Hrun.
    + intros q Hq%owned_by_one. by apply owned_joining_iff in Hq.
Qed.

Lemma branches_forest st bs j :
  good_store st -> forest (imap (fun i b => Running (branch_store st (i + j)) b) bs) /\
  forall q, owned_by (imap (fun i b => Running (branch_store st (i + j)) b) bs) q ->
    exists i, j <= i /\ owns (branch_store st i) q.
Proof.
  intros Hg. revert j. induction bs as [|b bs IH]; intros j; [split; [apply owners_nil|by intros q Hq%owned_by_nil]|].
  cbn [imap Nat.add]. destruct (IH (S j)) as [Hf Ho].
  rewrite (imap_ext _ (fun i b => Running (branch_store st (i + S j)) b) bs)
    by (intros i b' _; cbn; by rewrite Nat.add_succ_r).
  split.
  - apply owners_cons. split; [constructor; by apply branch_good|]. split; [done|].
    intros q Hq (i & Hi & Hq')%Ho. inversion Hq; subst. apply (branches_apart st j i) with q; [lia|done|done].
  - intros q [Hq|(i & Hi & Hq)%Ho]%owned_by_cons; [|exists i; split; [lia|done]].
    inversion Hq; subst. by exists j.
Qed.

Lemma barrier_tidy st ce bs k :
  good_store st -> tidy (Joining (bump_par st) ce (branches st bs) k) /\
  forall q, owns (bump_par st) q \/ owned_by (branches st bs) q -> owns st q.
Proof.
  intros Hg. destruct (branches_forest st bs 0 Hg) as [Hf Ho].
  assert (branches st bs = imap (fun i b => Running (branch_store st (i + 0)) b) bs) as Heq.
  { apply imap_ext. intros i b _. by rewrite Nat.add_0_r. }
  rewrite <-Heq in Hf, Ho. split.
  - destruct Hf as [Ht Hd]. constructor; [done|done|done|]. intros q Hq (i & _ & Hq')%Ho.
    by apply (branch_apart st i q).
  - intros q [Hq|(i & _ & Hq)%Ho]; [by apply owns_bump_par|by eapply branch_owned].
Qed.

(** A branch replaced by what is left of it and the branches it abandoned. *)
Lemma branch_replaced st ce l1 l2 k b b' orph :
  tidy (Joining st ce (l1 ++ b :: l2) k) -> forest (b' :: orph) ->
  (forall q, owned_by (b' :: orph) q -> owned b q) ->
  tidy (Joining st ce (l1 ++ b' :: l2) k) /\ forest orph /\
  apart (owned_by (l1 ++ b' :: l2)) (owned_by orph) /\
  (forall q, owned_by (l1 ++ b' :: l2) q \/ owned_by orph q -> owned_by (l1 ++ b :: l2) q) /\
  (forall q, owned b q -> ~ owned_by (b' :: orph) q ->
     ~ (owns st q \/ owned_by (l1 ++ b' :: l2) q \/ owned_by orph q)).
Proof.
  intros Ht Hf' Hsub. inversion Ht as [| |st' ce' bs' k' Hg Hbs Hd Ha|]; subst.
  assert (Hfb : forest (b :: l1 ++ l2)).
  { eapply owners_perm; [symmetry; apply Permutation_middle|by split]. }
  destruct (proj1 (owners_cons _ _) Hfb) as (Htb & _ & Hab).
  pose proof (owners_replace _ _ _ Hfb Hf' Hsub) as Hall.
  assert (Hperm : (b' :: orph) ++ (l1 ++ l2) ≡ₚ (l1 ++ b' :: l2) ++ orph).
  { rewrite <-Permutation_middle. cbn. f_equiv. apply Permutation_app_comm. }
  apply (owners_perm _ _ Hperm), owners_app in Hall as (Hbs' & Horph & Hao).
  assert (Hby : forall q, owned_by (l1 ++ b' :: l2) q \/ owned_by orph q ->
    owned_by (b' :: orph) q \/ owned_by (l1 ++ l2) q).
  { intros q Hq. apply owned_by_app. eapply owned_by_perm; [symmetry; exact Hperm|]. by apply owned_by_app. }
  assert (Hin : forall q, owned b q \/ owned_by (l1 ++ l2) q -> owned_by (l1 ++ b :: l2) q).
  { intros q Hq. eapply owned_by_perm; [apply Permutation_middle|]. by apply owned_by_cons. }
  assert (Hin' : forall q, owned_by (l1 ++ b' :: l2) q \/ owned_by orph q -> owned_by (l1 ++ b :: l2) q).
  { intros q [Hq|Hq]%Hby; apply Hin; [left; by apply Hsub|by right]. }
  split; [|split; [done|split; [done|split; [done|]]]].
  - destruct Hbs'. constructor; [done..|]. intros q Hq Hq'. apply (Ha q Hq). auto.
  - intros q Hq Hnq [Hq'|[Hq'|Hq']%Hby]; [apply (Ha q Hq'); auto|done|by apply (Hab q)].
Qed.

Section keys.
Context (sha256 : string -> string) (json_parse : string -> option jsval) (stringify : jsval -> string).
Notation task_step := (task_step sha256 json_parse).

(** The started call's sequence was its branch's, and is nobody's any more. *)
Definition spends (e : effect) (before after : string -> Prop) : Prop :=
  forall key c, (false, (key, c)) ∈ marks e -> exists q,
    key = computeActivityKey q (ac_type c) (Some (ac_member c)) (hashText sha256 (Some (ac_text c))) /\
    before q /\ ~ after q.

Lemma leaf_forest hit id r t t' orphans e :
  tidy t -> leaf_step sha256 json_parse hit id r t = Some (t', orphans, e) ->
  forest (t' :: orphans) /\ (forall q, owned_by (t' :: orphans) q -> owned t q) /\
  spends e (owned t) (owned_by (t' :: orphans)).
Proof.
  intros Ht Hs. destruct t as [st p|st id' key c k|st ce bs k|o]; cbn in Hs; try done.
  - inversion Ht as [st' p' Hg| | |]; subst. destruct p as [o|c k|ce bs k].
    + simplify_eq. split; [apply owners_one; constructor|].
      split; [intros q Hq%owned_by_one; inversion Hq|]. by intros key c Hin%elem_of_nil.
    + assert (Hgoal : forall t1, (forall q, owned t1 q -> owns (bump_seq st) q) -> tidy t1 ->
        forest [t1] /\ (forall q, owned_by [t1] q -> owned (Running st (DoCall c k)) q) /\
        exists q, call_key sha256 st c = computeActivityKey q (ac_type c) (Some (ac_member c)) (hashText sha256 (Some (ac_text c)))
          /\ owned (Running st (DoCall c k)) q /\ ~ owned_by [t1] q).
      { intros t1 Hsub Ht1. split; [by apply owners_one|]. split.
        - intros q Hq%owned_by_one%Hsub. constructor. by apply owns_bump_seq.
        - exists (nextSequence st). split; [done|]. split; [constructor; by apply owns_next|].
          intros Hq%owned_by_one%Hsub. by apply next_given in Hq. }
      destruct (hit _) as [rec|]; injection Hs as <- <- <-.
      all: match goal with |- forest [?t1] /\ _ => destruct (Hgoal t1) as (Hf & Hsub & Hq) end;
        [intros q Hq; inversion Hq; subst; assumption|by constructor|].
      all: split; [exact Hf|]; split; [exact Hsub|]; intros key c' Hin.
      all: cbn in Hin; repeat (apply elem_of_cons in Hin as [[= -> ->]|Hin]; [exact Hq|]); set_solver.
    + destruct (settle _ _ _ _) as [t1 more] eqn:Hset. injection Hs as <- <- <-.
      destruct (barrier_tidy st ce bs k Hg) as [Htj Hsub].
      destruct (settle_forest _ _ _ _ _ _ Htj Hset) as [Hf Ho]. split; [done|].
      split; [intros q Hq%Ho%Hsub; by constructor|]. by intros key c Hin%elem_of_nil.
  - inversion Ht as [|st' id'' key' c' k' Hg| |]; subst. destruct r as [rp|]; [|done]. cbn in Hs. simplify_eq.
    split; [apply owners_one; by constructor|]. split.
    + intros q Hq%owned_by_one. inversion Hq; subst. by constructor.
    + intros key' c' Hin. cbn in Hin. set_solver.
Qed.

Lemma step_forest hit id r path t t' orphans e :
  tidy t -> task_step hit id r path t = Some (t', orphans, e) ->
  forest (t' :: orphans) /\ (forall q, owned_by (t' :: orphans) q -> owned t q) /\
  spends e (owned t) (owned_by (t' :: orphans)).
Proof.
  revert t t' orphans. induction path as [|i path IH]; intros t t' orphans Ht Hs; [by eapply leaf_forest|].
  destruct t as [| |st ce bs k|]; try done. cbn [Replay.task_step] in Hs.
  destruct (bs !! i) as [b|] eqn:Hb; [|done].
  destruct (task_step hit id r path b) as [[[b' orph] e']|] eqn:Hsb; [|done].
  destruct (settle st ce (<[i:=b']> bs) k) as [t1 more] eqn:Hset. injection Hs as <- <- ->.
  destruct (list_elem_of_split_length _ _ _ Hb) as (l1 & l2 & -> & ->).
  rewrite insert_app_r_alt, Nat.sub_diag in Hset by done. cbn [insert list_insert] in Hset.
  assert (Htb : tidy b).
  { inversion Ht as [| |st' ce' bs' k' _ Hbs _ _|]; subst. by apply Forall_app in Hbs as [_ [? _]%Forall_cons]. }
  destruct (IH b b' orph Htb Hsb) as (Hf' & Hsub & Hsp).
  destruct (branch_replaced _ _ _ _ _ _ _ _ Ht Hf' Hsub) as (Ht' & Horph & Hao & Hin & Hgone).
  destruct (settle_forest _ _ _ _ _ _ Ht' Hset) as [Hf1 Hs1].
  assert (Hout : forall q, owned_by (t1 :: orph ++ more) q ->
    owns st q \/ owned_by (l1 ++ b' :: l2) q \/ owned_by orph q).
  { intros q Hq. rewrite owned_by_cons, owned_by_app in Hq.
    destruct Hq as [Hq|[Hq|Hq]]; [|auto|]; destruct (Hs1 q); rewrite ?owned_by_cons; auto. }
  inversion Ht as [| |st' ce' bs' k' _ _ _ Ha|]; subst. split; [|split].
  - eapply owners_perm with (ts := (t1 :: more) ++ orph); [cbn; f_equiv; apply Permutation_app_comm|].
    apply owners_app. split; [done|]. split; [done|].
    intros q [Hq|Hq]%Hs1 Hq'; [apply (Ha q Hq); auto|by apply (Hao q)].
  - intros q [Hq|Hq]%Hout; apply owned_joining_iff; auto.
  - intros key c Hk. destruct (Hsp key c Hk) as (q & -> & Hq & Hnq). exists q. split; [done|].
    split; [apply owned_joining_iff; right; eapply owned_by_perm;
      [apply Permutation_middle|apply owned_by_cons; auto]|].
    intros Hq'%Hout. by apply (Hgone q).
Qed.

(** ** Runs *)

Definition logged_keys (log : list jsval) : list string :=
  rec_key <$> filter (fun r => is_start r = true) log.

Lemma logged_keys_app l1 l2 : logged_keys (l1 ++ l2) = logged_keys l1 ++ logged_keys l2.
Proof. unfold logged_keys. by rewrite filter_app, fmap_app. Qed.

Lemma logged_records e : logged_keys (records json_parse stringify e) = start_keys (marks e).
Proof.
  destruct e as [|id key c|id key c rec|id key c rp]; [done|done| |].
  - cbn. unfold replayed_records. by destruct (cached_value json_parse c rec).
  - done.
Qed.

(** Every key started so far is of a sequence nobody owns any more. *)
Record keys_ok (s : run) : Prop := {
  ko_forest : forest (rn_main s :: rn_orphans s);
  ko_nodup : NoDup (logged_keys (rn_log s));
  ko_spent : forall key, key ∈ logged_keys (rn_log s) -> exists q c,
    key = computeActivityKey q (ac_type c) (Some (ac_member c)) (hashText sha256 (Some (ac_text c))) /\
    string_all seq_char q = true /\ ~ owned_by (rn_main s :: rn_orphans s) q
}.

Lemma start_keys_marks ms key : key ∈ start_keys ms -> exists c, (false, (key, c)) ∈ ms.
Proof.
  unfold start_keys. rewrite list_elem_of_omap. intros ([[|] [key' c]] & Hin & [= ->]). by exists c.
Qed.

Lemma keys_spend ts ts' (log : list jsval) e :
  NoDup (logged_keys log) ->
  (forall key, key ∈ logged_keys log -> exists q c,
    key = computeActivityKey q (ac_type c) (Some (ac_member c)) (hashText sha256 (Some (ac_text c))) /\
    string_all seq_char q = true /\ ~ owned_by ts q) ->
  (forall q, owned_by ts' q -> owned_by ts q) -> spends e (owned_by ts) (owned_by ts') ->
  NoDup (logged_keys (log ++ records json_parse stringify e)) /\
  (forall key, key ∈ logged_keys (log ++ records json_parse stringify e) -> exists q c,
    key = computeActivityKey q (ac_type c) (Some (ac_member c)) (hashText sha256 (Some (ac_text c))) /\
    string_all seq_char q = true /\ ~ owned_by ts' q).
Proof.
  intros Hnd Hold Hsub Hsp. rewrite logged_keys_app, logged_records. split.
  - apply NoDup_app. split; [done|]. split.
    + intros key (q & c & -> & Hq & Hno)%Hold [c' Hin]%start_keys_marks.
      destruct (Hsp _ _ Hin) as (q' & Heq & Hown & _). apply Hno.
      assert (string_all seq_char q' = true) as Hq' by (destruct Hown as (t & _ & Ht); by eapply owned_seq).
      destruct (activity_key_inj _ _ _ _ _ _ _ _ Hq Hq' Heq) as [-> _]. done.
    + destruct e; [apply NoDup_nil_2|apply NoDup_singleton|apply NoDup_singleton|apply NoDup_nil_2].
  - intros key [(q & c & -> & Hq & Hno)%Hold|[c Hin]%start_keys_marks]%elem_of_app.
    + exists q, c. split; [done|]. split; [done|]. intros Hq'. by apply Hno, Hsub.
    + destruct (Hsp _ _ Hin) as (q & -> & (t & Hin' & Ht) & Hno). exists q, c.
      split; [done|]. split; [by eapply owned_seq|done].
Qed.

Lemma step_among hit id r path t rest t' more e :
  forest (t :: rest) -> task_step hit id r path t = Some (t', more, e) ->
  forest ((t' :: more) ++ rest) /\
  (forall q, owned_by ((t' :: more) ++ rest) q -> owned_by (t :: rest) q) /\
  spends e (owned_by (t :: rest)) (owned_by ((t' :: more) ++ rest)).
Proof.
  intros Hf Hs. destruct (proj1 (owners_cons _ _) Hf) as (Ht & _ & Ha).
  destruct (step_forest _ _ _ _ _ _ _ _ Ht Hs) as (Hf' & Hsub & Hsp).
  split; [by eapply owners_replace|]. split.
  - intros q [Hq|Hq]%owned_by_app; apply owned_by_cons; auto.
  - intros key c Hk. destruct (Hsp key c Hk) as (q & -> & Hq & Hnq). exists q. split; [done|].
    split; [apply owned_by_cons; by left|]. intros [?|Hq']%owned_by_app; [done|by apply (Ha q)].
Qed.

(** The tasks before and after a step, up to order. *)
Lemma run_step_among s ch s' :
  run_step sha256 json_parse stringify s ch = Some s' ->
  exists t rest t' more e, rn_main s :: rn_orphans s ≡ₚ t :: rest /\
    task_step (replay_hit s) (ch_id ch) (ch_reply ch) (ch_path ch) t = Some (t', more, e) /\
    (t' :: more) ++ rest ≡ₚ rn_main s' :: rn_orphans s' /\
    rn_log s' = rn_log s ++ records json_parse stringify e.
Proof.
  unfold run_step. destruct (ch_orphan ch) as [j|].
  - destruct (rn_orphans s !! j) as [t|] eqn:Ht; [|done].
    destruct (task_step _ _ _ _ t) as [[[t' more] e]|] eqn:Hs; [|done]. intros [= <-].
    destruct (list_elem_of_split_length _ _ _ Ht) as (l1 & l2 & Heq & ->).
    exists t, (rn_main s :: l1 ++ l2), t', more, e. split; [|split; [done|split]].
    + rewrite Heq, <-Permutation_middle. apply Permutation_swap.
    + assert (rn_orphans s = l1 ++ t :: l2) as Heq' by done.
      assert (forall s0, rn_main (observe json_parse stringify e s0) :: rn_orphans (observe json_parse stringify e s0)
              = rn_main s0 :: rn_orphans s0) as -> by (by destruct e). cbn [rn_main rn_orphans].
      rewrite Heq', insert_app_r_alt, Nat.sub_diag by done. cbn [insert list_insert].
      cbn. solve_Permutation.
    + destruct e; cbn; by rewrite ?app_nil_r.
  - destruct (task_step _ _ _ _ (rn_main s)) as [[[t' more] e]|] eqn:Hs; [|done]. intros [= <-].
    exists (rn_main s), (rn_orphans s), t', more, e. split; [done|]. split; [done|]. split.
    + destruct e; cbn; f_equiv; apply Permutation_app_comm.
    + destruct e; cbn; by rewrite ?app_nil_r.
Qed.

Lemma keys_ok_step s ch s' :
  keys_ok s -> run_step sha256 json_parse stringify s ch = Some s' -> keys_ok s'.
Proof.
  intros [Hf Hnd Hold] (t & rest & t' & more & e & Hp & Hs & Hp' & Hlog)%run_step_among.
  destruct (step_among _ _ _ _ _ _ _ _ _ (owners_perm _ _ Hp Hf) Hs) as (Hf' & Hsub & Hsp).
  destruct (keys_spend (t :: rest) ((t' :: more) ++ rest) (rn_log s) e Hnd) as [Hnd' Hold'].
  { intros key (q & c & -> & Hq & Hno)%Hold. exists q, c. split; [done|]. split; [done|].
    intros Hq'. apply Hno. eapply owned_by_perm; [symmetry; exact Hp|done]. }
  { done. }
  { done. }
  split.
  - by eapply owners_perm.
  - by rewrite Hlog.
  - rewrite Hlog. intros key (q & c & -> & Hq & Hno)%Hold'. exists q, c. split; [done|]. split; [done|].
    intros Hq'. apply Hno. eapply owned_by_perm; [symmetry; exact Hp'|done].
Qed.

Lemma keys_ok_new p replay : keys_ok (new_run p replay).
Proof.
  split; [apply owners_one; by constructor|apply NoDup_nil_2|].
  intros key Hin. by apply elem_of_nil in Hin.
Qed.

Lemma keys_ok_steps s cs s' :
  keys_ok s -> run_steps sha256 json_parse stringify s cs = Some s' -> keys_ok s'.
Proof.
  revert s. induction cs as [|c cs IH]; intros s Hs Hr; cbn in Hr; [by simplify_eq|].
  destruct (run_step _ _ _ s c) as [s1|] eqn:H1; [|done]. cbn in Hr. eapply IH; [|exact Hr].
  by eapply keys_ok_step.
Qed.
End keys.

(** C7: replay keys are unique: whatever a script does, however its branches
    interleave, whatever the fleet answers and whatever journal is being
    replayed, no two activities of a run are started under the same key. *)
Theorem replay_keys_distinct (sha256 : string -> string) (json_parse : string -> option jsval)
    (stringify : jsval -> string) (p : script) (replay : option (list (string * jsval)))
    (cs : list choice) (s : run) :
  run_steps sha256 json_parse stringify (new_run p replay) cs = Some s -> NoDup (logged_keys (rn_log s)).
Proof. intros Hr. eapply ko_nodup, keys_ok_steps; [|exact Hr]. apply keys_ok_new. Qed.
