(* ===== verification/ReplayResume.v ===== *)
(** * Resuming from a complete journal

    The journal of a run that completed, written to a file and read back,
    answers every call of the same script: the resumed run dispatches nothing,
    never diverges, and ends as the run did, in every interleaving. *)

From Stdlib Require Import Ascii.
From S2P Require Import Prelude JsMap JsVal Text Journal JournalProps Replay ReplayProps ReplayKeys.
Local Open Scope string_scope.
Local Open Scope list_scope.

(** ** Every started call is answered *)

Lemma script_ind' (P : script -> Prop) :
  (forall r, P (Finish r)) -> (forall c k, (forall o, P (k o)) -> P (DoCall c k)) ->
  (forall ce bs k, Forall P bs -> (forall o, P (k o)) -> P (Barrier ce bs k)) -> forall p, P p.
Proof.
  intros H1 H2 H3. fix IH 1. intros [r|c k|ce bs k]; [apply H1|apply H2; intros o; apply IH|].
  apply H3; [|intros o; apply IH]. induction bs as [|b bs IHbs]; constructor; [apply IH|apply IHbs].
Qed.

Definition paired (ms : list mark) : Prop := forall x, (false, x) ∈ ms <-> (true, x) ∈ ms.

Lemma paired_app l1 l2 : paired l1 -> paired l2 -> paired (l1 ++ l2).
Proof. intros H1 H2 x. by rewrite !elem_of_app, (H1 x), (H2 x). Qed.

Lemma paired_concat ls : Forall paired ls -> paired (concat ls).
Proof. induction 1; cbn; [intros x; by rewrite !elem_of_nil|by apply paired_app]. Qed.

Lemma eval_paired sha256 oracle p st m :
  eval sha256 oracle p st = Some m -> paired (m_calls m).
Proof.
  revert st m. induction p as [r|c k IH|ce bs k IHbs IHk] using script_ind'; intros st m Hm.
  - cbn in Hm. simplify_eq. intros x. cbn. by rewrite !elem_of_nil.
  - cbn in Hm. destruct (eval _ _ _ _) as [y|] eqn:Hy; [|done]. cbn in Hm. simplify_eq.
    specialize (IH _ _ _ Hy). intros x. specialize (IH x). cbn. rewrite !elem_of_cons. naive_solver.
  - rewrite eval_Barrier in Hm. destruct (teval _ _ _) as [y|] eqn:Hy; [|done]. cbn in Hm. simplify_eq.
    change (m_calls (m_tick 1 y)) with (m_calls y). cbn [teval] in Hy.
    destruct (mapM _ _) as [xs|] eqn:Hxs; [|done]. destruct (join_outcome _ _) as [o|]; [|done].
    destruct (eval _ _ _ _) as [z|] eqn:Hz; [|done]. cbn in Hy. simplify_eq. rewrite m_calls_join.
    apply paired_app; [|by eapply IHk]. apply paired_concat, Forall_fmap, Forall_lookup. intros i x Hi.
    apply mapM_Some in Hxs. destruct (Forall2_lookup_r _ _ _ _ _ Hxs Hi) as (t & Ht & Hx). cbn.
    unfold branches in Ht. apply list_lookup_imap_Some in Ht as (b & Hb & ->).
    rewrite Forall_lookup in IHbs. by eapply IHbs.
Qed.

(** ** What the journal says of a call *)

Section resume.
Context (sha256 : string -> string) (json_parse : string -> option jsval) (stringify : jsval -> string).

(** A successful reply whose journaled output is the value the call returned. *)
Definition kept_reply (c : acall) (rp : reply) : Prop :=
  rp_error rp = None /\
  match ac_type c, ac_schema c with
  | Agent, true => json_parse (stringify (rp_parsed rp)) = Some (rp_parsed rp)
  | _, _ => default (rp_text rp) (rp_clean rp) = rp_text rp
  end.

Lemma end_fields id key c rp : kept_reply c rp ->
  let e := end_record stringify id key c rp in
  prop "success" e = JBool true /\ prop "output" e = JStr (journaled_output stringify c rp) /\
  (ac_type c = Command -> prop "failSoft" e = JBool (ac_failSoft c)) /\ rec_key e = key /\ rec_id e = id /\
  is_end e = true.
Proof.
  intros [He _]. cbn. unfold end_record, meta_fields. rewrite He. unfold rec_key, rec_id, is_end.
  by destruct (ac_type c).
Qed.

Lemma cached_is_live c rp rec :
  kept_reply c rp -> prop "output" rec = JStr (journaled_output stringify c rp) ->
  (ac_type c = Command -> prop "failSoft" rec = JBool (ac_failSoft c)) ->
  cached_value json_parse c rec = live_value c rp.
Proof.
  intros [He Hk] Ho Hf. unfold cached_value, live_value, journaled_output in *. rewrite He, Ho.
  destruct (ac_type c).
  - destruct (ac_schema c); cbn; [by rewrite Hk|by rewrite Hk].
  - rewrite Hf by done. cbn. by rewrite Hk.
Qed.

Lemma log_record_of answer id m : id <> "" -> m.2.1 <> "" ->
  log_record (record_of stringify answer (id, m)).
Proof.
  intros Hid Hkey. destruct m as [[|] [key c]]; cbn in *; unfold end_record, start_record, meta_fields;
    (split; [|intros _; exists id, key; done]).
  - destruct (rp_error _), (ac_type c); apply (bool_decide_unpack _); vm_compute; exact I.
  - destruct (ac_type c); apply (bool_decide_unpack _); vm_compute; exact I.
Qed.

Lemma rec_id_of answer id m : rec_id (record_of stringify answer (id, m)) = id.
Proof. by destruct m as [[|] [key c]]. Qed.

(** A key is started by one call only. *)
Lemma start_keys_unique ms key c c' :
  NoDup (start_keys ms) -> (false, (key, c)) ∈ ms -> (false, (key, c')) ∈ ms -> c = c'.
Proof.
  intros Hnd Hc Hc'. destruct (proj1 (list_elem_of_lookup _ _) Hc) as [i Hi].
  destruct (list_elem_of_split_length _ _ _ Hi) as (l1 & l2 & -> & _).
  unfold start_keys in Hnd. rewrite omap_app in Hnd. cbn in Hnd.
  apply NoDup_app in Hnd as (_ & Hl1 & [Hl2 _]%NoDup_cons).
  apply elem_of_app in Hc' as [Hin|[Heq|Hin]%elem_of_cons].
  - exfalso. apply (Hl1 key); [|by apply elem_of_cons; left]. apply list_elem_of_omap. by exists (false, (key, c')).
  - congruence.
  - exfalso. apply Hl2. apply list_elem_of_omap. by exists (false, (key, c')).
Qed.

Lemma complete_hits answer m tr st key c :
  m_calls m ≡ₚ tr.*2 -> paired (m_calls m) -> NoDup (start_keys (m_calls m)) ->
  (forall key c, (false, (key, c)) ∈ m_calls m -> kept_reply c (answer key c)) ->
  loaded (record_of stringify answer <$> tr) st -> (false, (key, c)) ∈ m_calls m ->
  exists rec, jget key (completed st) = Some rec /\ truthy (prop "success" rec) = true /\
    cached_value json_parse c rec = live_value c (answer key c).
Proof.
  intros Hp Hpair Hnd Hkept [_ _ _ _ Hcomp Hhas] Hin.
  assert (Hend : (true, (key, c)) ∈ tr.*2) by (rewrite <-Hp; by apply Hpair).
  apply list_elem_of_fmap in Hend as ([id m0] & Hm0 & Htr). cbn in Hm0. subst m0.
  destruct (end_fields id key c _ (Hkept _ _ Hin)) as (_ & _ & _ & Hk & _ & He).
  destruct (Hhas (end_record stringify id key c (answer key c))) as [rec Hrec]; [|done|].
  { by apply (list_elem_of_fmap_2 (record_of stringify answer) _ (id, (true, (key, c)))). }
  rewrite Hk in Hrec. exists rec. split; [done|].
  destruct (Hcomp _ _ Hrec) as (e & (l1 & l2 & Hlog & He' & Hk' & _) & Hcopy).
  assert (He_in : e ∈ record_of stringify answer <$> tr) by (rewrite Hlog; set_solver).
  apply list_elem_of_fmap in He_in as ([id' [[|] [key' c']]] & -> & Htr'); cbn [record_of] in He', Hk', Hcopy.
  2:{ unfold is_end, start_record in He'. by cbn in He'. }
  assert (Hin' : (false, (key', c')) ∈ m_calls m).
  { apply Hpair. rewrite Hp. by apply (list_elem_of_fmap_2 snd _ (id', (true, (key', c')))). }
  destruct (end_fields id' key' c' _ (Hkept _ _ Hin')) as (Hs & Ho & Hf & Hkey & _).
  rewrite Hk' in Hkey. subst key'. assert (c' = c) as -> by (by eapply start_keys_unique).
  split; [by rewrite (Hcopy _ _ Hs)|]. eapply cached_is_live; [by apply Hkept|by rewrite (Hcopy _ _ Ho)|].
  intros Hc. by rewrite (Hcopy _ _ (Hf Hc)).
Qed.

(** ** The resumed run *)

(** No call is in flight. *)
Fixpoint idle (t : task) : bool :=
  match t with
  | Dispatched _ _ _ _ _ => false
  | Joining _ _ bs _ => forallb idle bs
  | _ => true
  end.

Lemma idle_waiting path t : idle t = true -> waiting path t = None.
Proof.
  revert t. induction path as [|i path IH]; intros t Hi; destruct t as [| |st ce bs k|]; try done.
  cbn. destruct (bs !! i) as [b|] eqn:Hb; [|done]. cbn. apply IH. cbn in Hi.
  rewrite forallb_forall in Hi. apply Hi, list_elem_of_In. by eapply list_elem_of_lookup_2.
Qed.

Lemma settle_idle st ce bs k : forallb idle bs = true -> idle (settle st ce bs k).1 = true.
Proof.
  intros Hl. unfold settle. destruct (if ce then None else first_error bs); [done|].
  by destruct (mapM ended bs).
Qed.

Lemma forallb_insert {A} (f : A -> bool) l i x :
  forallb f l = true -> f x = true -> forallb f (<[i := x]> l) = true.
Proof.
  intros Hl Hx. rewrite forallb_forall in *. intros y [j Hj]%list_elem_of_In%list_elem_of_lookup.
  apply list_lookup_insert_Some in Hj as [(_ & -> & _)|(_ & Hj)]; [done|].
  apply Hl, list_elem_of_In. by eapply list_elem_of_lookup_2.
Qed.

Lemma step_idle hit id r path t t' orphans e :
  idle t = true -> task_step sha256 json_parse hit id r path t = Some (t', orphans, e) ->
  (forall id key c, e <> Dispatch id key c) -> idle t' = true.
Proof.
  intros Hi Hs He. revert t t' orphans Hi Hs. induction path as [|i path IH]; intros t t' orphans Hi Hs.
  - destruct t as [st [o|c k|ce bs k]|st id' key c k|st ce bs k|o]; cbn in Hs; try done.
    + by simplify_eq.
    + destruct (hit _); simplify_eq; [done|]. by edestruct He.
    + pose proof (settle_idle (bump_par st) ce (branches st bs) k) as H. unfold branches in H.
      destruct (settle _ _ _ _) as [t1 more]. simplify_eq. apply H, forallb_forall.
      intros b (j & s & -> & _)%list_elem_of_In%elem_of_lookup_imap. done.
  - destruct t as [| |st ce bs k|]; try done. cbn [task_step] in Hs.
    destruct (bs !! i) as [b|] eqn:Hb; [|done].
    destruct (task_step _ _ hit id r path b) as [[[b' orph] e']|] eqn:Hsb; [|done].
    pose proof (settle_idle st ce (<[i:=b']> bs) k) as H.
    destruct (settle st ce (<[i:=b']> bs) k) as [t1 more]. injection Hs as <- <- ->. apply H.
    cbn in Hi. apply forallb_insert; [done|]. apply (IH b b' orph); [|done].
    rewrite forallb_forall in Hi. apply Hi, list_elem_of_In. by eapply list_elem_of_lookup_2.
Qed.

(** After some steps of the resumed run. *)
Record replaying (oracle : string -> acall -> outcome) (comp : list (string * jsval)) (m : meaning)
    (took : nat) (s : run) : Prop := {
  rp_orphans : rn_orphans s = [];
  rp_replay : rn_replay s = Some comp;
  rp_diverged : rn_diverged s = false;
  rp_dispatched : rn_dispatched s = [];
  rp_live : live (rn_main s) = true;
  rp_idle : idle (rn_main s) = true;
  rp_teval : exists x, teval sha256 oracle (rn_main s) = Some x /\
    (forall y, y ∈ m_calls x -> y ∈ m_calls m) /\ took + m_steps x <= m_steps m /\ m_end x = m_end m
}.

(** A journal that has every call of a script. *)
Definition has_calls (oracle : string -> acall -> outcome) (comp : list (string * jsval)) (m : meaning) : Prop :=
  forall key c, (false, (key, c)) ∈ m_calls m ->
  exists rec, jget key comp = Some rec /\ truthy (prop "success" rec) = true /\
    cached_value json_parse c rec = oracle key c.

Lemma replaying_new oracle comp m p :
  eval sha256 oracle p top_store = Some m -> replaying oracle comp m 0 (new_run p (Some comp)).
Proof. intros Hm. split; try done. exists m. done. Qed.

Lemma replaying_step oracle comp m n s ch s' :
  has_calls oracle comp m -> replaying oracle comp m n s ->
  run_step sha256 json_parse stringify s ch = Some s' -> replaying oracle comp m (S n) s'.
Proof.
  intros Hall [Ho Hrep Hdiv Hd Hl Hi (x & Hx & Hc & Hn & Hend)] Hs.
  destruct (main_step _ _ _ _ _ _ Ho Hs) as (t' & more & e & _ & Hst & Hm & Ho' & Hr' & Hd' & Hdv' & _).
  assert (Hhit : forall key, replay_hit s key = (rec ← jget key comp; if truthy (prop "success" rec) then Some rec else None)).
  { intros key. unfold replay_hit. by rewrite Hdiv, Hrep. }
  assert (Hagree : hits_agree json_parse oracle (replay_hit s) (m_calls x)).
  { intros key c rec Hk Hin. rewrite Hhit in Hk. destruct (Hall key c (Hc _ Hin)) as (rec' & Hj & Ht & Hv).
    rewrite Hj in Hk. cbn in Hk. rewrite Ht in Hk. by simplify_eq. }
  pose proof (step_effect _ _ _ _ _ _ _ _ _ _ Hst) as He.
  assert (Hreply : forall id key c rp, e <> Reply id key c rp).
  { intros id key c rp ->. destruct He as [He _]. by rewrite (idle_waiting _ _ Hi) in He. }
  assert (Hag : reply_agrees oracle e) by (destruct e; try done; by edestruct Hreply).
  destruct (step_meaning _ _ _ _ _ _ _ _ _ _ _ _ Hx Hagree Hst Hag) as (-> & x' & Hx' & Hc' & Hn' & Hend').
  assert (Hdisp : forall id key c, e <> Dispatch id key c).
  { intros id key c ->. rewrite Hhit in He. destruct (Hall key c) as (rec & Hj & Ht & _).
    - apply Hc. rewrite Hc'. cbn. by apply elem_of_cons; left.
    - rewrite Hj in He. cbn in He. by rewrite Ht in He. }
  split.
  - done.
  - congruence.
  - rewrite Hdv', Hdiv. destruct e; try done. by edestruct Hdisp.
  - rewrite Hd', Hd. destruct e; try done. by edestruct Hdisp.
  - rewrite Hm. by eapply step_live.
  - rewrite Hm. by eapply step_idle.
  - exists x'. rewrite Hm. split; [done|]. split; [|split; [lia|congruence]].
    intros y Hy. apply Hc. rewrite Hc'. apply elem_of_app. by right.
Qed.

Lemma replaying_go oracle comp m n s :
  replaying oracle comp m n s -> ended (rn_main s) = None ->
  exists ch s', run_step sha256 json_parse stringify s ch = Some s'.
Proof.
  intros [Ho Hrep _ _ Hl Hi _] He. destruct (step_enabled sha256 json_parse _ Hl He) as (path & Hp).
  exists {| ch_orphan := None; ch_path := path; ch_id := "id"; ch_reply := None |}. unfold run_step. cbn.
  destruct (Hp (replay_hit s) "id" None) as [[[t' more] e] ->]; [|eauto].
  intros [kc Hkc]. by rewrite (idle_waiting _ _ Hi) in Hkc.
Qed.

(** A run resumed from a journal that has every call. *)
Lemma replaying_run oracle comp m p cs s :
  eval sha256 oracle p top_store = Some m -> has_calls oracle comp m ->
  run_steps sha256 json_parse stringify (new_run p (Some comp)) cs = Some s ->
  rn_dispatched s = [] /\ rn_diverged s = false /\ length cs <= m_steps m /\
  (forall r, ended (rn_main s) = Some r -> r = m_end m) /\
  exists more s', run_steps sha256 json_parse stringify s more = Some s' /\ ended (rn_main s') = Some (m_end m).
Proof.
  intros Hm Hall Hr. rewrite <-play_run_steps in Hr.
  assert (Hstep : forall n s ch s', replaying oracle comp m n s ->
    run_step sha256 json_parse stringify s ch = Some s' -> replaying oracle comp m (S n) s')
    by (intros; by eapply replaying_step).
  assert (Hbound : forall n s, replaying oracle comp m n s -> n <= m_steps m)
    by (intros n s1 [_ _ _ _ _ _ (x & _ & _ & ? & _)]; lia).
  assert (Hends : forall n s r, replaying oracle comp m n s -> ended (rn_main s) = Some r -> r = m_end m).
  { intros n s1 r [_ _ _ _ _ _ (x & Hx & _ & _ & Hend)] He. destruct (rn_main s1); try done.
    cbn in He, Hx. by simplify_eq. }
  pose proof (course_play _ _ _ (fun _ c => c) _ Hstep 0 _ _ _ (replaying_new oracle comp m p Hm) Hr) as Hs.
  split; [apply Hs|]. split; [apply Hs|]. split; [by apply (Hbound _ s)|]. split; [intros r; by eapply Hends|].
  destruct (course_ends _ _ _ (fun _ c => c) _ _ Hbound Hstep (replaying_go oracle comp m) _ _ Hs) as (more & s' & Hp & [r He]).
  exists more, s'. rewrite <-play_run_steps. split; [done|]. rewrite He. f_equal. eapply Hends; [|exact He].
  exact (course_play _ _ _ (fun _ c => c) _ Hstep _ _ _ _ Hs Hp).
Qed.

Lemma play_as_steps next s cs s' :
  play sha256 json_parse stringify next s cs = Some s' ->
  exists cs', run_steps sha256 json_parse stringify s cs' = Some s'.
Proof.
  revert s. induction cs as [|c cs IH]; intros s Hp; cbn in Hp; [by exists []|].
  destruct (run_step _ _ _ s (next s c)) as [s1|] eqn:H1; [|done]. cbn in Hp.
  destruct (IH _ Hp) as (cs' & Hcs). exists (next s c :: cs'). cbn. by rewrite H1.
Qed.

Lemma activity_key_nonempty q t m h : computeActivityKey q t m h <> "".
Proof. by destruct q. Qed.

Lemma written_all (rs : list jsval) : written ((fun r => (r, true)) <$> rs) = rs.
Proof. induction rs as [|r rs IH]; cbn; [done|]. f_equal. exact IH. Qed.

(** The log of a completed run: a trace of every start and reply of its
    meaning, under keys that are unique. *)
Lemma completed_log answer p m sched s r :
  eval sha256 (oracle_of answer) p top_store = Some m ->
  play sha256 json_parse stringify (answering answer) (new_run p None) sched = Some s ->
  ended (rn_main s) = Some r ->
  r = m_end m /\ paired (m_calls m) /\ NoDup (start_keys (m_calls m)) /\
  (forall key c, (false, (key, c)) ∈ m_calls m -> key <> "") /\
  exists tr, rn_log s = record_of stringify answer <$> tr /\ m_calls m ≡ₚ tr.*2.
Proof.
  intros Hm Hp He. destruct (play_as_steps _ _ _ _ Hp) as (cs & Hcs).
  pose proof (keys_ok_steps _ _ _ _ _ _ (keys_ok_new sha256 p None) Hcs) as [_ Hnd Hspent].
  pose proof (course_play _ _ _ _ (fun n s => exists tr, on_course sha256 stringify answer m tr n s)
    (course_next sha256 json_parse stringify answer m) 0 _ _ _
    (ex_intro _ [] (on_course_new sha256 stringify answer p m Hm)) Hp) as [tr Hs].
  destruct (on_course_ended _ _ _ _ _ _ _ _ Hs He) as [-> Hc].
  assert (Hkeys : logged_keys (rn_log s) = start_keys tr.*2).
  { rewrite (oc_log _ _ _ _ _ _ _ Hs). clear. unfold logged_keys, start_keys.
    induction tr as [|[id [[|] [key c]]] tr IH]; [done| |]; cbn [fmap list_fmap]; rewrite filter_cons.
    - rewrite decide_False by (unfold record_of, end_record, is_start; by cbn). exact IH.
    - rewrite decide_True by done. cbn. f_equal. exact IH. }
  split; [done|]. split; [by eapply eval_paired|]. split; [|split; [|exists tr; split; [apply Hs|done]]].
  - eapply NoDup_Permutation_proper; [apply start_keys_proper, Hc|]. by rewrite <-Hkeys.
  - intros key c Hin. destruct (Hspent key) as (q & c' & -> & _); [|apply activity_key_nonempty].
    rewrite Hkeys. apply list_elem_of_omap. exists (false, (key, c)). by rewrite <-Hc.
Qed.

End resume.

(** ** Concrete runs *)

Definition demo_call (member text : string) : acall :=
  {| ac_type := Command; ac_member := member; ac_text := text; ac_schema := false; ac_failSoft := false |}.
Definition demo_reply (text : string) : reply :=
  {| rp_error := None; rp_cancelled := false; rp_text := text; rp_clean := None; rp_parsed := JUndef |}.
Definition demo_answer (key : string) (c : acall) : reply := demo_reply ("did " +:+ ac_text c).

(** Two branches of one call each, then one more call. *)
Definition demo_script : script :=
  Barrier true [DoCall (demo_call "m1" "a") Finish; DoCall (demo_call "m2" "b") Finish]
    (fun _ => DoCall (demo_call "m1" "c") Finish).

Definition at_ (id : string) (path : list nat) : choice :=
  {| ch_orphan := None; ch_path := path; ch_id := id; ch_reply := None |}.

(** The second branch first, then the first. *)
Definition demo_sched : list choice :=
  [at_ "b" []; at_ "u1" [1]; at_ "u2" [0]; at_ "b" [1]; at_ "b" [1]; at_ "b" [0]; at_ "b" [0];
   at_ "u3" []; at_ "b" []; at_ "b" []].

(** A record's line names its event and its id; records are found by their line. *)
Definition line_of (r : jsval) : string := (if is_end r then "E" else "S") +:+ rec_id r.
Definition parse_in (log : list jsval) (s : string) : option jsval :=
  head (filter (fun r => line_of r = s) log).

Definition demo_run (json_parse : string -> option jsval) : run :=
  default (new_run demo_script None)
    (play id json_parse line_of (answering demo_answer) (new_run demo_script None) demo_sched).
Definition demo_log : list jsval := Eval vm_compute in rn_log (demo_run (fun _ => None)).
Definition demo_meaning : meaning :=
  default (m_ended (Err "")) (eval id (oracle_of demo_answer) demo_script top_store).

Lemma replay_keys_distinct_witness :
  exists s, run_steps id (fun _ => None) line_of
      (new_run (Barrier true [DoCall (demo_call "m" "a") Finish; DoCall (demo_call "m" "a") Finish] Finish) None)
      [at_ "b" []; at_ "u1" [1]; at_ "u2" [0]] = Some s /\
    logged_keys (rn_log s) = ["0:1:0:command:m:a"; "0:0:0:command:m:a"] /\ NoDup (logged_keys (rn_log s)).
Proof.
  eexists. split; [vm_compute; reflexivity|]. split; [vm_compute; reflexivity|].
  apply (replay_keys_distinct id (fun _ => None) line_of
    (Barrier true [DoCall (demo_call "m" "a") Finish; DoCall (demo_call "m" "a") Finish] Finish) None
    [at_ "b" []; at_ "u1" [1]; at_ "u2" [0]]). vm_compute. reflexivity.
Defined.

Lemma schedules_agree_witness :
  rn_dispatched (demo_run (fun _ => None))
    = ["0:1:0:command:m2:b"; "0:0:0:command:m1:a"; "0:command:m1:c"] /\
  ended (rn_main (demo_run (fun _ => None))) = Some (m_end demo_meaning).
Proof.
  split; [vm_compute; reflexivity|].
  destruct (schedules_agree id (fun _ => None) line_of demo_answer demo_script demo_meaning demo_sched
    (demo_run (fun _ => None)) ltac:(vm_compute; reflexivity) ltac:(vm_compute; reflexivity)) as (_ & _ & H & _).
  destruct (H (Val (JStr "did c")) ltac:(vm_compute; reflexivity)) as [<- _]. vm_compute. reflexivity.
Defined.


(** ** A journal cut short *)

(** The crash: the second branch's call completed, the first branch's was in
    flight. *)
Definition cut_log : list jsval := take 3 demo_log.

Definition cut_journal : journal :=
  match load_all load_init cut_log with
  | Some (Ok st) => journal_of st
  | _ => journal_of load_init
  end.

(** the divergence flag is the run's, not the branch's: of two branches of
    a barrier of which one had completed its call when the run crashed, a
    resumed run in which the other branch moves first dispatches the completed
    call again, although the journal has its successful record under its key;
    if the completed branch moves first, its call is replayed. *)
Theorem sibling_redispatch :
  loadJournal (parse_in demo_log) (Contents (append_chain line_of "" ((fun rec => (rec, true)) <$> cut_log)))
    = Some (Ok cut_journal) /\
  (rec ← jget "0:1:0:command:m2:b" (completedByKey cut_journal); Some (prop "success" rec)) = Some (JBool true) /\
  (rn_dispatched <$> run_steps id (parse_in demo_log) line_of (new_run demo_script (Some (completedByKey cut_journal)))
     [at_ "b" []; at_ "u1" [0]; at_ "u2" [1]]) = Some ["0:0:0:command:m1:a"; "0:1:0:command:m2:b"] /\
  (rn_dispatched <$> run_steps id (parse_in demo_log) line_of (new_run demo_script (Some (completedByKey cut_journal)))
     [at_ "b" []; at_ "u1" [1]; at_ "u2" [0]]) = Some ["0:0:0:command:m1:a"].
Proof. repeat split; vm_compute; reflexivity. Qed.

(** what a call returns is not what is journaled: a command whose server
    sends clean output next to the display text returns the clean output when it
    is run and the display text when it is replayed, so a script that uses it
    goes on differently after a resume. *)
Theorem replay_returns_display_text :
  let script := DoCall (demo_call "m" "echo 1") Finish in
  let answer (key : string) (c : acall) :=
    {| rp_error := None; rp_cancelled := false; rp_text := "Exit code: 0" ++ "1"; rp_clean := Some "1"; rp_parsed := JUndef |}%string in
  exists s1 s2 j,
    play id (fun _ => None) line_of (answering answer) (new_run script None) [at_ "u" []; at_ "u" []; at_ "u" []] = Some s1 /\
    ended (rn_main s1) = Some (Val (JStr "1")) /\
    loadJournal (parse_in (rn_log s1)) (Contents (append_chain line_of "" ((fun rec => (rec, true)) <$> rn_log s1)))
      = Some (Ok j) /\
    run_steps id (parse_in (rn_log s1)) line_of (new_run script (Some (completedByKey j))) [at_ "v" []; at_ "v" []] = Some s2 /\
    ended (rn_main s2) = Some (Val (JStr "Exit code: 01")).
Proof.
  intros script answer. eexists _, _, _. split; [vm_compute; reflexivity|]. split; [vm_compute; reflexivity|].
  split; [vm_compute; reflexivity|]. split; vm_compute; reflexivity.
Qed.
