(* ===== verification/Extract.v ===== *)
(** * Structured output

    The JSON a reply carries: [extractFencedJsonBlocks], [findBalancedEnd],
    [extractBalancedJsonCandidates] and [extractStructuredOutput] of
    [apra-fleet-workflow/src/workflow/index.mjs].  A text is the list of its
    characters; [JSON.parse] and the compiled schema are arguments. *)

From Stdlib Require Import Ascii.
From S2P Require Import Prelude JsMap JsVal Text.
Local Open Scope string_scope.
Local Open Scope list_scope.

Notation chars := (list ascii).
Definition chars_of (s : string) : chars := String.list_ascii_of_string s.
Definition str_of (l : chars) : string := String.string_of_list_ascii l.

(** [text.slice(a, b)] *)
Definition slice (a b : nat) (text : chars) : chars := take (b - a) (drop a text).

(** ** Balanced spans *)

Definition quote_char : ascii := "034"%char.
Definition escape_char : ascii := "\"%char.

Definition closerFor (c : ascii) : option ascii :=
  if decide (c = "{"%char) then Some "}"%char
  else if decide (c = "["%char) then Some "]"%char else None.

Definition is_closer (c : ascii) : bool := bool_decide (c = "}"%char \/ c = "]"%char).

(** The loop of [findBalancedEnd], at index [i] with the text from there on. *)
Fixpoint balanced_scan (stack : chars) (inString escaped : bool) (i : nat) (text : chars) : option nat :=
  match text with
  | [] => None
  | ch :: text' =>
      if inString then
        if escaped then balanced_scan stack true false (S i) text'
        else if decide (ch = escape_char) then balanced_scan stack true true (S i) text'
        else if decide (ch = quote_char) then balanced_scan stack false false (S i) text'
        else balanced_scan stack true false (S i) text'
      else if decide (ch = quote_char) then balanced_scan stack true false (S i) text'
      else match closerFor ch with
           | Some cl => balanced_scan (cl :: stack) false false (S i) text'
           | None =>
               if is_closer ch then
                 match stack with
                 | [] => None
                 | expected :: stack' =>
                     if decide (expected = ch) then
                       match stack' with
                       | [] => Some i
                       | _ => balanced_scan stack' false false (S i) text'
                       end
                     else None
                 end
               else balanced_scan stack false false (S i) text'
           end
  end.

(** [-1] is [None]; [text[start]] is an opening bracket. *)
Definition findBalancedEnd (text : chars) (start : nat) : option nat :=
  match text !! start ≫= closerFor with
  | Some cl => balanced_scan [cl] false false (S start) (drop (S start) text)
  | None => None
  end.

(** The loop of [extractBalancedJsonCandidates] at index [i]; every turn moves
    [i] forward, so the text's length is enough fuel. *)
Fixpoint candidates_from (fuel : nat) (text : chars) (i : nat) : list chars :=
  match fuel with
  | 0 => []
  | S fuel' =>
      match text !! i with
      | None => []
      | Some ch =>
          match closerFor ch ≫= (fun _ => findBalancedEnd text i) with
          | Some e => slice i (S e) text :: candidates_from fuel' text (S e)
          | None => candidates_from fuel' text (S i)
          end
      end
  end.

Definition extractBalancedJsonCandidates (text : chars) : list chars :=
  candidates_from (length text) text 0.

(** ** Fenced blocks *)

Definition fence : chars := chars_of "```".

Fixpoint strip_chars (pre text : chars) : option chars :=
  match pre, text with
  | [], _ => Some text
  | c :: pre', d :: text' => if decide (c = d) then strip_chars pre' text' else None
  | _, [] => None
  end.

(** [(?:json)?] with the [i] flag. *)
Definition strip_json (text : chars) : chars :=
  match text with
  | a :: b :: c :: d :: text' =>
      if bool_decide (lower_char a = "j"%char /\ lower_char b = "s"%char /\ lower_char c = "o"%char
                      /\ lower_char d = "n"%char)
      then text' else text
  | _ => text
  end.

(** [\s*\n]: the text after the last line break of the leading white space. *)
Fixpoint after_blank_line (text : chars) : option chars :=
  match text with
  | [] => None
  | c :: text' =>
      if ws_char c then
        match after_blank_line text' with
        | Some rest => Some rest
        | None => if decide (c = "010"%char) then Some text' else None
        end
      else None
  end.

(** [([\s\S]*?)] and the closing fence: the content and what follows. *)
Fixpoint until_fence (text : chars) : option (chars * chars) :=
  match strip_chars fence text with
  | Some rest => Some ([], rest)
  | None =>
      match text with
      | [] => None
      | c :: text' => '(content, rest) ← until_fence text'; Some (c :: content, rest)
      end
  end.

(** A match of [FENCED_JSON_RE] at the head of the text. *)
Definition match_fence (text : chars) : option (chars * chars) :=
  body ← strip_chars fence text;
  body ← after_blank_line (strip_json body);
  until_fence body.

(** One pass of the global regex: the trimmed contents, and the text with the
    matches blanked out. *)
Fixpoint fences_from (fuel : nat) (text : chars) : list chars * chars :=
  match fuel with
  | 0 => ([], text)
  | S fuel' =>
      match match_fence text with
      | Some (content, rest) =>
          let '(blocks, unfenced) := fences_from fuel' rest in
          (chars_of (trim (str_of content)) :: blocks,
           replicate (length text - length rest) " "%char ++ unfenced)
      | None =>
          match text with
          | [] => ([], [])
          | c :: text' =>
              let '(blocks, unfenced) := fences_from fuel' text' in (blocks, c :: unfenced)
          end
      end
  end.

Definition extractFencedJsonBlocks (text : chars) : list chars := (fences_from (length text) text).1.
Definition unfencedText (text : chars) : chars := (fences_from (length text) text).2.

(** ** Selection *)

Section extract.
Context (json_parse : string -> option jsval) (compiledSchema : jsval -> bool).

Inductive attempt := ParseError (raw : chars) | Invalid (raw : chars) (parsed : jsval).

Definition tryCandidate (raw : chars) : attempt + jsval :=
  match json_parse (str_of raw) with
  | None => inl (ParseError raw)
  | Some parsed => if compiledSchema parsed then inr parsed else inl (Invalid raw parsed)
  end.

(** The first candidate that parses and validates, or the attempts. *)
Fixpoint try_all (raws : list chars) : list attempt + (chars * jsval) :=
  match raws with
  | [] => inl []
  | raw :: raws' =>
      match tryCandidate raw with
      | inr parsed => inr (raw, parsed)
      | inl a => match try_all raws' with
                 | inr r => inr r
                 | inl attempts => inl (a :: attempts)
                 end
      end
  end.

Definition extractStructuredOutput (text : chars) : list attempt + (chars * jsval) :=
  let fenced := extractFencedJsonBlocks text in
  match try_all fenced with
  | inr r => inr r
  | inl attempts =>
      let balanced := extractBalancedJsonCandidates (unfencedText text) in
      match try_all balanced with
      | inr r => inr r
      | inl attempts' =>
          match fenced, balanced with
          | [], [] => try_all [chars_of (trim (str_of text))]
          | _, _ => inl (attempts ++ attempts')
          end
      end
  end.
End extract.
