(* ===== verification/ExtractProps.v ===== *)
(** * Exactness of structured-output extraction

    The bracket matcher is exact for the grammar of balanced spans with string
    literals, the scan for candidates splits a text into spans and what is not
    in one, and a reply whose only bracketed or fenced part is a valid value
    gives that value. *)

From Stdlib Require Import Ascii.
From S2P Require Import Prelude JsMap JsVal Text Extract.
Local Open Scope string_scope.
Local Open Scope list_scope.

(** ** The grammar of spans *)

(** What follows the opening quote of a string literal, up to its closing one. *)
Inductive literal : chars -> Prop :=
| literal_end : literal [quote_char]
| literal_escape c s : literal s -> literal (escape_char :: c :: s)
| literal_char c s : c <> escape_char -> c <> quote_char -> literal s -> literal (c :: s).

Definition plain_char (c : ascii) : Prop :=
  c <> quote_char /\ closerFor c = None /\ is_closer c = false.

Inductive items : chars -> Prop :=
| items_nil : items []
| items_char c s : plain_char c -> items s -> items (c :: s)
| items_literal l s : literal l -> items s -> items (quote_char :: l ++ s)
| items_span o cl b s : closerFor o = Some cl -> items b -> items s -> items (o :: b ++ cl :: s).

Definition balanced (span : chars) : Prop :=
  exists o cl b, closerFor o = Some cl /\ items b /\ span = o :: b ++ [cl].

Lemma closer_opens o cl : closerFor o = Some cl ->
  o <> quote_char /\ is_closer cl = true /\ closerFor cl = None /\ cl <> quote_char.
Proof. unfold closerFor. intros H. repeat case_decide; simplify_eq; done. Qed.

(** ** The scan follows the grammar *)

Lemma scan_literal stack l i s :
  literal l -> balanced_scan stack true false i (l ++ s) = balanced_scan stack false false (i + length l) s.
Proof.
  intros Hl. revert i. induction Hl as [|c l Hl IH|c l He Hq Hl IH]; intros i; cbn [app length].
  - by rewrite Nat.add_1_r.
  - cbn. rewrite IH. f_equal. lia.
  - cbn. rewrite !decide_False by done. rewrite IH. f_equal. lia.
Qed.

Lemma scan_items stack b i s : stack <> [] ->
  items b -> balanced_scan stack false false i (b ++ s) = balanced_scan stack false false (i + length b) s.
Proof.
  intros Hs Hb. revert stack Hs i s.
  induction Hb as [|c b (Hq & Ho & Hc) Hb IH|l b Hl Hb IH|o cl b b' Ho Hb IH Hb' IH']; intros stack Hs i s.
  - cbn. by rewrite Nat.add_0_r.
  - cbn [app length balanced_scan]. rewrite decide_False by done. rewrite Ho, Hc, IH by done. f_equal. lia.
  - cbn [app length balanced_scan]. rewrite decide_True by done.
    rewrite <-app_assoc, scan_literal, IH by done. rewrite length_app. f_equal. lia.
  - destruct (closer_opens o cl Ho) as (Hq & Hcl & Hno & Hq'). cbn [app length balanced_scan].
    rewrite decide_False by done. rewrite Ho, <-app_assoc, IH by done. cbn [app balanced_scan].
    rewrite decide_False by done. rewrite Hno, Hcl. rewrite decide_True by done.
    destruct stack as [|e stack]; [done|]. rewrite IH', length_app by done. cbn [length]. f_equal. lia.
Qed.

Lemma chars_ind (P : chars -> Prop) :
  (forall s, (forall s', length s' < length s -> P s') -> P s) -> forall s, P s.
Proof.
  intros H s. assert (Hn : forall n s, length s < n -> P s); [|apply (Hn (S (length s))); lia].
  intros n. induction n as [|n IH]; intros s' Hs'; [lia|]. apply H. intros s'' Hlt. apply IH. lia.
Qed.

Lemma scan_literal_sound stack i s e :
  balanced_scan stack true false i s = Some e ->
  exists l r, s = l ++ r /\ literal l /\ balanced_scan stack false false (i + length l) r = Some e.
Proof.
  revert i. induction s as [s IH] using chars_ind. intros i Hs. destruct s as [|c s]; [done|].
  cbn in Hs. case_decide as He.
  - destruct s as [|c' s]; [done|]. cbn in Hs. edestruct (IH s) as (l & r & -> & Hl & Hr); [cbn; lia|exact Hs|].
    exists (c :: c' :: l), r. subst c. split; [done|]. split; [by constructor|]. rewrite <-Hr. f_equal. cbn. lia.
  - case_decide as Hq.
    + exists [c], s. subst c. split; [done|]. split; [constructor|]. rewrite <-Hs. f_equal. cbn. lia.
    + edestruct (IH s) as (l & r & -> & Hl & Hr); [cbn; lia|exact Hs|].
      exists (c :: l), r. split; [done|]. split; [by constructor|]. rewrite <-Hr. f_equal. cbn. lia.
Qed.

Lemma scan_sound cl stack i s e :
  balanced_scan (cl :: stack) false false i s = Some e ->
  exists b r, s = b ++ cl :: r /\ items b /\
    match stack with
    | [] => e = i + length b
    | _ => balanced_scan stack false false (S (i + length b)) r = Some e
    end.
Proof.
  revert cl stack i. induction s as [s IH] using chars_ind. intros cl stack i Hs.
  destruct s as [|c s]; [done|]. cbn in Hs. case_decide as Hq.
  { apply scan_literal_sound in Hs as (l & r & -> & Hl & Hr).
    apply IH in Hr as (b & r' & -> & Hb & Hr'); [|cbn; rewrite length_app; lia].
    exists (c :: l ++ b), r'. subst c. split; [cbn; by rewrite <-app_assoc|]. split; [by constructor|].
    cbn [length]. rewrite length_app. destruct stack; [lia|]. rewrite <-Hr'. f_equal. lia. }
  destruct (closerFor c) as [cl'|] eqn:Hc.
  { apply IH in Hs as (b & r & -> & Hb & Hr); [|cbn; lia].
    apply IH in Hr as (b' & r' & -> & Hb' & Hr'); [|cbn; rewrite length_app; cbn; lia].
    exists (c :: b ++ cl' :: b'), r'. split; [cbn; by rewrite <-app_assoc|]. split; [by constructor|].
    cbn [length]. rewrite length_app. cbn [length]. destruct stack; [lia|]. rewrite <-Hr'. f_equal. lia. }
  destruct (is_closer c) eqn:Hcl.
  - case_decide as Heq; [|done]. subst c. exists [], s. split; [done|]. split; [constructor|].
    cbn. rewrite Nat.add_0_r. destruct stack; [congruence|done].
  - apply IH in Hs as (b & r & -> & Hb & Hr); [|cbn; lia].
    exists (c :: b), r. split; [done|]. split; [constructor; [by split|done]|]. cbn [length].
    destruct stack; [lia|]. rewrite <-Hr. f_equal. lia.
Qed.

Lemma slice_from start e text o :
  text !! start = Some o -> slice start (S e) text = take (S e - start) (o :: drop (S start) text).
Proof. intros H. unfold slice. by rewrite (drop_S _ _ _ H). Qed.

(** The end of a span at the head of what is left of a text. *)
Lemma find_span text start span r :
  drop start text = span ++ r -> balanced span ->
  findBalancedEnd text start = Some (start + length span - 1) /\ slice start (start + length span) text = span.
Proof.
  intros Hd (o & cl & b & Ho & Hb & ->).
  assert (Hat : text !! start = Some o).
  { rewrite <-(Nat.add_0_r start), <-lookup_drop, Hd. done. }
  split.
  - unfold findBalancedEnd. rewrite Hat. cbn. rewrite Ho.
    assert (drop (S start) text = b ++ cl :: r) as ->.
    { rewrite (drop_S _ _ _ Hat) in Hd. injection Hd as ->. by rewrite <-app_assoc. }
    destruct (closer_opens o cl Ho) as (_ & Hcl & Hno & Hq). rewrite scan_items by done.
    cbn. rewrite decide_False by done. rewrite Hno, Hcl, decide_True by done. rewrite length_app. cbn. f_equal. lia.
  - unfold slice. rewrite Hd. replace (start + length (o :: b ++ [cl]) - start) with (length (o :: b ++ [cl])) by lia.
    by rewrite take_app_length.
Qed.

Lemma find_sound text start e :
  findBalancedEnd text start = Some e ->
  exists span r, drop start text = span ++ r /\ balanced span /\ S e = start + length span.
Proof.
  unfold findBalancedEnd. destruct (text !! start) as [o|] eqn:Hat; [|done]. cbn.
  destruct (closerFor o) as [cl|] eqn:Ho; [|done]. intros Hs.
  apply scan_sound in Hs as (b & r & Hd & Hb & He). exists (o :: b ++ [cl]), r.
  split; [rewrite (drop_S _ _ _ Hat), Hd; cbn; by rewrite <-app_assoc|]. split; [by exists o, cl, b|].
  cbn. rewrite length_app. cbn. lia.
Qed.

Lemma balanced_nonempty span : balanced span -> 2 <= length span.
Proof. intros (o & cl & b & _ & _ & ->). cbn. rewrite length_app. cbn. lia. Qed.

(** C15: the bracket matcher is exact: from an opening bracket it finds an index
    just when the text from the bracket up to that index is a balanced span -
    brackets nested and matched by kind, with brackets inside string literals,
    escapes included, not counting. *)
Theorem findBalancedEnd_exact text start e :
  findBalancedEnd text start = Some e <->
  start <= e /\ e < length text /\ balanced (slice start (S e) text).
Proof.
  split.
  - intros (span & r & Hd & Hb & He)%find_sound.
    destruct (find_span _ _ _ _ Hd Hb) as [_ Hs]. pose proof (balanced_nonempty _ Hb).
    apply (f_equal length) in Hd. rewrite length_drop, length_app in Hd. rewrite He, Hs. split; [lia|]. split; [lia|done].
  - intros (Hle & Hlt & Hb). pose proof (take_drop (S e - start) (drop start text)) as Hd.
    destruct (find_span text start (slice start (S e) text) (drop (S e - start) (drop start text))) as [Hf _]; [done|done|].
    rewrite Hf. f_equal. unfold slice. rewrite length_take, length_drop. lia.
Qed.

(** ** The candidates of a text *)

(** A text is read from the left: a balanced span is a candidate; a character
    no balanced span starts at is skipped. *)
Inductive parts : chars -> list chars -> Prop :=
| parts_nil : parts [] []
| parts_skip c s cs : (forall span r, balanced span -> c :: s <> span ++ r) -> parts s cs -> parts (c :: s) cs
| parts_span span s cs : balanced span -> parts s cs -> parts (span ++ s) (span :: cs).

Lemma span_unique span r span' r' :
  balanced span -> balanced span' -> span ++ r = span' ++ r' -> span = span' /\ r = r'.
Proof.
  intros Hb Hb' Heq.
  destruct (find_span (span ++ r) 0 span r eq_refl Hb) as [H1 S1].
  destruct (find_span (span ++ r) 0 span' r' Heq Hb') as [H2 S2].
  pose proof (balanced_nonempty _ Hb). pose proof (balanced_nonempty _ Hb').
  rewrite H1 in H2. injection H2 as Hlen. assert (length span = length span') as Hl by lia.
  by apply app_inj_1.
Qed.

Lemma parts_unique s cs cs' : parts s cs -> parts s cs' -> cs = cs'.
Proof.
  intros H. revert cs'. induction H as [|c s cs Hno H IH|span s cs Hb H IH]; intros cs' H'.
  - inversion H' as [| |span s cs Hb Hp Heq]; [done|]. apply balanced_nonempty in Hb.
    apply (f_equal length) in Heq. rewrite length_app in Heq. cbn in Heq. lia.
  - inversion H' as [|c' s' cs'' _ Hp|span s' cs'' Hb Hp Heq]; subst; [by apply IH|]. by edestruct Hno.
  - remember (span ++ s) as t eqn:Ht. destruct H' as [|c' s' cs'' Hno Hp|span' s' cs'' Hb' Hp].
    + apply balanced_nonempty in Hb. apply (f_equal length) in Ht. rewrite length_app in Ht. cbn in Ht. lia.
    + by edestruct Hno.
    + destruct (span_unique _ _ _ _ Hb' Hb Ht) as [-> ->]. f_equal. by apply IH.
Qed.

Lemma candidates_parts fuel text i :
  length text - i <= fuel -> parts (drop i text) (candidates_from fuel text i).
Proof.
  revert i. induction fuel as [|fuel IH]; intros i Hf; cbn.
  { rewrite drop_ge by lia. constructor. }
  destruct (text !! i) as [ch|] eqn:Hat; [|apply lookup_ge_None in Hat; rewrite drop_ge by lia; constructor].
  assert (Hskip : findBalancedEnd text i = None -> parts (drop i text) (candidates_from fuel text (S i))).
  { intros Hnone. rewrite (drop_S _ _ _ Hat). constructor; [|apply IH; lia].
    intros span r Hb Heq. rewrite <-(drop_S _ _ _ Hat) in Heq. by rewrite (proj1 (find_span _ _ _ _ Heq Hb)) in Hnone. }
  destruct (closerFor ch) as [cl|] eqn:Ho; cbn.
  - destruct (findBalancedEnd text i) as [e|] eqn:He; [|by apply Hskip].
    destruct (find_sound _ _ _ He) as (span & r & Hd & Hb & Hlen).
    rewrite Hlen, (proj2 (find_span _ _ _ _ Hd Hb)), Hd. constructor; [done|].
    assert (r = drop (i + length span) text) as ->.
    { by rewrite <-drop_drop, Hd, drop_app_length. }
    apply IH. pose proof (balanced_nonempty _ Hb). lia.
  - apply Hskip. unfold findBalancedEnd. by rewrite Hat; cbn; rewrite Ho.
Qed.

(** the candidates of a text are the balanced spans met reading it once
    from the left, and the scan always finishes: what it returns is the only
    way of reading the text so. *)
Theorem candidates_exact text cs : extractBalancedJsonCandidates text = cs <-> parts text cs.
Proof.
  assert (Hp : parts text (extractBalancedJsonCandidates text)) by (apply (candidates_parts (length text) text 0); lia).
  split; [by intros <-|]. intros H. by eapply parts_unique.
Qed.

(** ** Fences *)

Definition ws_only (w : chars) : Prop := Forall (fun c => ws_char c = true) w.

Lemma trim_end_ws w : ws_only w -> trim_end (str_of w) = "".
Proof. induction 1 as [|c w Hc _ IH]; [done|]. cbn. unfold str_of in IH. by rewrite IH, Hc. Qed.

Lemma trim_end_chars b c w :
  ws_char c = false -> ws_only w -> trim_end (str_of (b ++ c :: w)) = str_of (b ++ [c]).
Proof.
  intros Hc Hw. induction b as [|d b IH]; unfold str_of in *; cbn.
  - rewrite (trim_end_ws w Hw : trim_end (String.string_of_list_ascii w) = ""). by rewrite Hc.
  - rewrite IH. by destruct b.
Qed.

Lemma bracket_not_ws o cl : closerFor o = Some cl -> ws_char o = false /\ ws_char cl = false.
Proof. unfold closerFor. intros H. repeat case_decide; simplify_eq; done. Qed.

Lemma trim_span span w : balanced span -> ws_only w -> chars_of (trim (str_of (span ++ w))) = span.
Proof.
  intros (o & cl & b & Ho & _ & ->) Hw. destruct (bracket_not_ws _ _ Ho) as [Hwo Hwc].
  assert (trim (str_of ((o :: b ++ [cl]) ++ w)) = str_of ((o :: b) ++ [cl])) as ->.
  { unfold trim. cbn [app]. unfold str_of at 1. cbn [String.string_of_list_ascii trim_start]. rewrite Hwo.
    rewrite <-app_assoc. exact (trim_end_chars (o :: b) cl w Hwc Hw). }
  apply String.list_ascii_of_string_of_list_ascii.
Qed.

Definition backtick : ascii := "`"%char.

Lemma strip_fence_none c s : c <> backtick -> strip_chars fence (c :: s) = None.
Proof. intros H. unfold fence, chars_of. cbn. by rewrite decide_False by (intros Heq; by apply H). Qed.

Lemma until_fence_body body post :
  Forall (fun c => c <> backtick) body -> until_fence (body ++ fence ++ post) = Some (body, post).
Proof.
  induction 1 as [|c body Hc _ IH]; [done|]. cbn [app until_fence].
  rewrite strip_fence_none by done. by rewrite IH.
Qed.

(** A fenced block whose body starts with a character that is not white space. *)
Lemma match_fence_block c body post :
  ws_char c = false -> Forall (fun c => c <> backtick) (c :: body) ->
  match_fence (fence ++ chars_of "json" ++ "010"%char :: (c :: body) ++ fence ++ post) = Some (c :: body, post).
Proof.
  intros Hc Hb. rewrite <-(until_fence_body (c :: body) post Hb). unfold match_fence.
  set (rest := (c :: body) ++ fence ++ post).
  change (strip_chars fence (fence ++ chars_of "json" ++ "010"%char :: rest))
    with (Some (chars_of "json" ++ "010"%char :: rest)). cbn [mbind option_bind].
  change (strip_json (chars_of "json" ++ "010"%char :: rest)) with ("010"%char :: rest).
  assert (after_blank_line ("010"%char :: rest) = Some rest) as ->; [|done].
  subst rest. cbn [after_blank_line app]. by rewrite Hc.
Qed.

Lemma match_fence_prose c s : c <> backtick -> match_fence (c :: s) = None.
Proof. intros H. unfold match_fence. by rewrite strip_fence_none. Qed.

Lemma fences_prose fuel pre s :
  Forall (fun c => c <> backtick) pre -> length pre <= fuel ->
  fences_from fuel (pre ++ s) =
    ((fences_from (fuel - length pre) s).1, pre ++ (fences_from (fuel - length pre) s).2).
Proof.
  intros Hp. revert fuel. induction Hp as [|c pre Hc _ IH]; intros fuel Hf.
  - cbn. rewrite Nat.sub_0_r. by destruct (fences_from fuel s).
  - destruct fuel as [|fuel]; [cbn in Hf; lia|]. cbn [app fences_from length Nat.sub].
    rewrite match_fence_prose by done. rewrite IH by (cbn in Hf; lia). done.
Qed.

Lemma no_fences fuel text : (fences_from fuel text).1 = [] -> (fences_from fuel text).2 = text.
Proof.
  revert text. induction fuel as [|fuel IH]; intros text; cbn [fences_from]; [done|].
  destruct (match_fence text) as [[content rest]|]; [by destruct (fences_from fuel rest)|].
  destruct text as [|c text]; [done|]. specialize (IH text). destruct (fences_from fuel text). cbn in *.
  intros H. by rewrite IH.
Qed.

(** ** Replies *)

Section replies.
Context (json_parse : string -> option jsval) (compiledSchema : jsval -> bool).

Definition accepted (raw : chars) (v : jsval) : Prop :=
  json_parse (str_of raw) = Some v /\ compiledSchema v = true.

(** Every candidate of a reply, in the order they are tried. *)
Definition all_candidates (text : chars) : list chars :=
  match extractFencedJsonBlocks text ++ extractBalancedJsonCandidates (unfencedText text) with
  | [] => [chars_of (trim (str_of text))]
  | l => l
  end.

Lemma try_all_app l1 l2 :
  try_all json_parse compiledSchema (l1 ++ l2) =
  match try_all json_parse compiledSchema l1 with
  | inr r => inr r
  | inl a => match try_all json_parse compiledSchema l2 with inr r => inr r | inl a' => inl (a ++ a') end
  end.
Proof.
  induction l1 as [|raw l1 IH]; cbn; [by destruct (try_all _ _ l2)|].
  destruct (tryCandidate _ _ raw); [|done]. rewrite IH. destruct (try_all _ _ l1); [|done].
  by destruct (try_all _ _ l2).
Qed.

Lemma extract_all text :
  extractStructuredOutput json_parse compiledSchema text = try_all json_parse compiledSchema (all_candidates text).
Proof.
  unfold extractStructuredOutput, all_candidates.
  pose proof (try_all_app (extractFencedJsonBlocks text) (extractBalancedJsonCandidates (unfencedText text))) as H.
  destruct (extractFencedJsonBlocks text) as [|f fs].
  - cbn [try_all app]. destruct (extractBalancedJsonCandidates _); [done|]. by destruct (try_all _ _ _).
  - cbn [app] in *. rewrite H. destruct (try_all _ _ (f :: fs)); [|done].
    destruct (extractBalancedJsonCandidates _); by destruct (try_all _ _ _).
Qed.

Lemma try_all_inr raws raw v :
  try_all json_parse compiledSchema raws = inr (raw, v) <->
  accepted raw v /\ exists l1 l2, raws = l1 ++ raw :: l2 /\ forall raw' v', raw' ∈ l1 -> ~ accepted raw' v'.
Proof.
  assert (Htry : forall raw v, tryCandidate json_parse compiledSchema raw = inr v <-> accepted raw v).
  { intros raw' v'. unfold tryCandidate, accepted. destruct (json_parse _) as [w|]; [|by split; intros H; [|destruct H]].
    destruct (compiledSchema w) eqn:Hw; split.
    - by intros [= <-].
    - intros [[= <-] _]. done.
    - done.
    - intros [[= <-] Hv]. congruence. }
  assert (Hrej : forall raw a, tryCandidate json_parse compiledSchema raw = inl a -> forall v, ~ accepted raw v).
  { intros raw' a H v' Ha. apply Htry in Ha. congruence. }
  induction raws as [|r raws IH]; cbn.
  - split; [done|]. intros (_ & l1 & l2 & H & _). by destruct l1.
  - destruct (tryCandidate _ _ r) as [a|w] eqn:Hr.
    + assert (H : try_all json_parse compiledSchema raws = inr (raw, v) <->
        accepted raw v /\ exists l1 l2, r :: raws = l1 ++ raw :: l2 /\ forall raw' v', raw' ∈ l1 -> ~ accepted raw' v').
      { rewrite IH. split; intros (Ha & l1 & l2 & Heq & Hl1); (split; [done|]).
        - exists (r :: l1), l2. rewrite Heq. split; [done|]. intros raw' v' [->|Hin]%elem_of_cons; [by eapply Hrej|by apply Hl1].
        - destruct l1 as [|r' l1]; injection Heq as <- Heq; [by destruct (Hrej _ _ Hr v)|].
          exists l1, l2. split; [done|]. intros raw' v' Hin. apply Hl1. by apply elem_of_cons; right. }
      rewrite <-H. by destruct (try_all _ _ raws).
    + apply Htry in Hr. split.
      * intros [= <- <-]. split; [done|]. exists [], raws. split; [done|]. intros raw' v' Hin. by apply elem_of_nil in Hin.
      * intros (Ha & l1 & l2 & Heq & Hl1). destruct l1 as [|r' l1]; injection Heq as <- Heq.
        -- destruct Ha as [Ha _], Hr as [Hr _]. congruence.
        -- exfalso. apply (Hl1 r w); [by apply elem_of_cons; left|done].
Qed.

(** the extraction is exact: it gives a value just when some candidate of
    the reply - the fenced blocks, then the balanced spans outside them, or the
    whole reply when there is neither - parses and satisfies the schema, and
    then the value of the first such candidate. *)
Theorem extractStructuredOutput_exact text raw v :
  extractStructuredOutput json_parse compiledSchema text = inr (raw, v) <->
  accepted raw v /\ exists l1 l2, all_candidates text = l1 ++ raw :: l2 /\
    forall raw' v', raw' ∈ l1 -> ~ accepted raw' v'.
Proof. rewrite extract_all. apply try_all_inr. Qed.

Lemma parts_prose pre s cs :
  Forall (fun c => closerFor c = None) pre -> parts s cs -> parts (pre ++ s) cs.
Proof.
  intros Hp Hs. induction Hp as [|c pre Hc _ IH]; [done|]. constructor; [|done].
  intros span r (o & cl & b & Ho & _ & ->) [= -> _]. congruence.
Qed.

Lemma prose_candidates pre span post :
  balanced span -> Forall (fun c => closerFor c = None) pre -> Forall (fun c => closerFor c = None) post ->
  extractBalancedJsonCandidates (pre ++ span ++ post) = [span].
Proof.
  intros Hb Hpre Hpost. eapply parts_unique; [apply (candidates_parts (length (pre ++ span ++ post)) _ 0); lia|].
  rewrite drop_0. apply parts_prose; [done|]. constructor; [done|].
  rewrite <-(app_nil_r post). apply parts_prose; [done|constructor].
Qed.

Lemma fenced_first pre span w post :
  Forall (fun c => c <> backtick) pre -> Forall (fun c => c <> backtick) span -> ws_only w -> balanced span ->
  exists blocks, extractFencedJsonBlocks
    (pre ++ fence ++ chars_of "json" ++ "010"%char :: span ++ w ++ fence ++ post) = span :: blocks.
Proof.
  intros Hpre Hspan Hw Hb. unfold extractFencedJsonBlocks. rewrite fences_prose; [|done|rewrite length_app; lia].
  set (text := fence ++ _). cbn [fst].
  replace (length (pre ++ text) - length pre) with (length text) by (rewrite length_app; lia).
  assert (Hm : match_fence text = Some (span ++ w, post)).
  { destruct Hb as (o & cl & b & Ho & _ & ->). destruct (bracket_not_ws _ _ Ho) as [Hwo _].
    subst text. rewrite (app_assoc _ w). apply (match_fence_block o ((b ++ [cl]) ++ w) post Hwo).
    cbn in Hspan. apply Forall_cons in Hspan as [Hbo Hbs]. constructor; [done|]. apply Forall_app. split; [done|].
    eapply Forall_impl; [exact Hw|]. by intros c Hc ->. }
  assert (exists n, length text = S n) as [n ->] by (subst text; cbn; eauto).
  cbn [fences_from]. rewrite Hm. destruct (fences_from n post) as [blocks unfenced]. cbn [fst].
  rewrite (trim_span span w Hb Hw). by eexists.
Qed.

(** C16: a value in a reply is found: a balanced span that parses and satisfies
    the schema is what the extraction gives, both when the reply has no fenced
    block and no other opening bracket around it, and when it is the body of a
    first fenced [json] block, whatever follows the block. *)
Theorem embedded_value_extracted pre span w post v :
  balanced span -> accepted span v ->
  (extractFencedJsonBlocks (pre ++ span ++ post) = [] ->
   Forall (fun c => closerFor c = None) pre -> Forall (fun c => closerFor c = None) post ->
   extractStructuredOutput json_parse compiledSchema (pre ++ span ++ post) = inr (span, v)) /\
  (Forall (fun c => c <> backtick) pre -> Forall (fun c => c <> backtick) span -> ws_only w ->
   extractStructuredOutput json_parse compiledSchema
     (pre ++ fence ++ chars_of "json" ++ "010"%char :: span ++ w ++ fence ++ post) = inr (span, v)).
Proof.
  intros Hb Ha. split.
  - intros Hf Hpre Hpost. rewrite extract_all. apply try_all_inr. split; [done|]. exists [], [].
    split; [|intros raw' v' Hin; by apply elem_of_nil in Hin]. unfold all_candidates. rewrite Hf.
    unfold unfencedText. rewrite no_fences by done. by rewrite prose_candidates.
  - intros Hpre Hspan Hw. rewrite extract_all. apply try_all_inr. split; [done|].
    destruct (fenced_first pre span w post Hpre Hspan Hw Hb) as [blocks Hbl]. unfold all_candidates. rewrite Hbl.
    cbn [app]. eexists [], _. split; [reflexivity|]. intros raw' v' Hin. by apply elem_of_nil in Hin.
Qed.
End replies.

(** ** A concrete reply *)

Definition demo_object : chars := chars_of "{a:[1,2]}".
Definition demo_json (s : string) : option jsval :=
  if decide (s = "{a:[1,2]}") then Some (JBool true) else None.

Lemma embedded_value_extracted_witness :
  extractStructuredOutput demo_json truthy (chars_of "Sure: " ++ demo_object ++ chars_of " } done")
    = inr (demo_object, JBool true).
Proof.
  assert (Hb : balanced demo_object).
  { destruct (find_sound demo_object 0 8 eq_refl) as (span & r & Hd & Hb & Hl). rewrite drop_0 in Hd.
    assert (r = []) as ->; [|by rewrite app_nil_r in Hd; rewrite Hd].
    apply (f_equal length) in Hd. rewrite length_app in Hd. apply nil_length_inv. cbn in Hd, Hl. lia. }
  destruct (embedded_value_extracted demo_json truthy (chars_of "Sure: ") demo_object [] (chars_of " } done")
    (JBool true) Hb (conj eq_refl eq_refl)) as [H _].
  apply H; [reflexivity|repeat constructor..].
Defined.
