(* ===== verification/Agent.v ===== *)
(** * Dispatching a prompt

    [_agentDispatch] of [apra-fleet-workflow/src/workflow/index.mjs] without
    the journal: the dispatch, the wait for a busy member, the classification
    of the answer, the bounded repair of schema-invalid output and the budget;
    and [fleetToolFailureOf] of [apra-fleet-client/src/client/api.mjs].

    The fleet's n-th answer, the number of times the busy-wait deadline lets a
    dispatch be polled, [JSON.parse], the compiled schema and its messages, and
    the test for a reply that is only the display wrapper are arguments. *)

From Stdlib Require Import Ascii QArith.
From S2P Require Import Prelude JsMap JsVal Text Journal Extract.
Local Open Scope string_scope.
Local Open Scope list_scope.

(** ** Answers *)

Record structured := {
  sc_isError : bool;
  sc_reason : option string;
  sc_sessionId : option string;
  sc_response : option string
}.

(** [er_texts] are the texts of [content], [er_cost] what [_resolveCost]
    charges for the reported usage, when any was reported. *)
Record exec_result := {
  er_texts : list string;
  er_isError : bool;
  er_structured : option structured;
  er_cost : option Q
}.

(** [executePrompt] rejects - aborted by [requestStop] or not - or resolves. *)
Inductive answer := Rejected (aborted : bool) | Answered (r : exec_result).

Definition failed_with (reason : string) (a : answer) : bool :=
  match a with
  | Answered r => match er_structured r with
                  | Some sc => sc_isError sc && bool_decide (sc_reason sc = Some reason)
                  | None => false
                  end
  | Rejected _ => false
  end.

(** ** Tool failures *)

Definition skip_prefix (pre s : string) : string := default s (strip_prefix pre s).

(** [\b] after a word. *)
Definition word_char (c : ascii) : bool :=
  digit_char c || in_range "a" "z" c || in_range "A" "Z" c || bool_decide (c = "_"%char).
Definition word_ends (s : string) : bool :=
  match s with String c _ => negb (word_char c) | EmptyString => true end.
Definition one_of (words : list string) (s : string) : bool :=
  existsb (fun w => match strip_prefix w s with Some r => word_ends r | None => false end) words.

Definition quote_mark : string := String quote_char "".

Definition failed_to_execute (text : string) : bool :=
  let s := trim_start text in
  let s := match strip_prefix "[FAIL]" s with Some r => trim_start r | None => s end in
  starts_with ("Failed to execute command on " +:+ quote_mark) s
  || starts_with ("Failed to execute prompt on " +:+ quote_mark) s.
Definition ssh_notice (text : string) : bool :=
  match strip_prefix "(SSH)" (trim_start text) with
  | Some (String c _) => ws_char c
  | _ => false
  end.
Definition after_error (text : string) : string :=
  match strip_prefix "Error:" (trim_start text) with Some r => trim_start r | None => trim_start text end.
Definition socket_error (text : string) : bool :=
  let s := after_error text in
  let s := match strip_prefix "connect" s with
           | Some (String c r) => if ws_char c then trim_start r else s
           | _ => s
           end in
  one_of ["ECONNREFUSED"; "ECONNRESET"; "EHOSTUNREACH"; "ENETUNREACH"; "ETIMEDOUT"; "EPIPE"] s.
Definition handshake_error (text : string) : bool :=
  one_of ["Timed out while waiting for handshake"; "Connection lost before handshake";
          "All configured authentication methods failed"; "Not connected"] (after_error text).

Definition FLEET_TOOL_FAILURE_TEXT_RES (text : string) : bool :=
  failed_to_execute text || ssh_notice text || socket_error text || handshake_error text.

Definition joined_texts (r : exec_result) : string :=
  joinS (String newline "") (filter (fun t => nonempty t = true) (er_texts r)).

(** The failure's text; [None] is [null]. *)
Definition fleetToolFailureOf (r : exec_result) : option string :=
  let text := joined_texts r in
  match er_structured r with
  | Some sc =>
      if sc_isError sc then None
      else if er_isError r then Some text
      else if bool_decide (is_Some (sc_response sc)) then None
      else if FLEET_TOOL_FAILURE_TEXT_RES text then Some text else None
  | None =>
      if er_isError r then Some text
      else if FLEET_TOOL_FAILURE_TEXT_RES text then Some text else None
  end.

(** The stop-gap test for a missing member. *)
Definition member_missing (text : string) : bool :=
  starts_with ("Member " +:+ quote_mark) text && includes (quote_mark +:+ " not found.") text.

(** ** The repair prompt *)

Definition nl : string := String newline "".

Definition buildRepairPrompt (errorsText initialPrompt : string) : string :=
  "Your previous response could not be used." +:+ nl +:+ nl +:+
  "Validation errors:" +:+ nl +:+ errorsText +:+ nl +:+ nl +:+
  "For reference, the original request and the required JSON schema were:" +:+ nl +:+
  "--- BEGIN ORIGINAL REQUEST ---" +:+ nl +:+ initialPrompt +:+ nl +:+ "--- END ORIGINAL REQUEST ---" +:+ nl +:+ nl +:+
  "Do NOT redo any work you have already completed for this request -- report the " +:+
  "result you already determined. Respond again with corrected JSON only, strictly " +:+
  "conforming to the schema above. Do not include any commentary, explanation, or " +:+
  "text outside the JSON.".

(** ** A dispatch *)

(** The call's options that matter here; [ao_schema] is the schema's text. *)
Record agent_opts := {
  ao_prompt : string;
  ao_schema : option string;
  ao_schemaRetries : option nat;
  ao_resume : jsval;                (** [undefined] when absent *)
  ao_budget : option Q              (** [budget.total] *)
}.

Record payload := { pl_attempt : nat; pl_prompt : string; pl_resume : jsval }.

Inductive activity := AStart (attempt : nat) | AEnd (attempt : nat) (success : bool).

Inductive dispatch_error :=
| BudgetExceeded
| AgentDispatch (reason : string)
| MemberNotFound
| AgentOutput
| Cancelled
| FleetTransport
| LoopExhausted.

Inductive dispatch_outcome := Returned (v : jsval) | Threw (e : dispatch_error).

Record dstate := {
  ds_payloads : list payload;       (** sent so far, one per answer *)
  ds_events : list activity;
  ds_spent : Q;
  ds_prompt : string;               (** [currentPrompt] *)
  ds_session : option string        (** [failedAttemptSessionId] *)
}.

Definition emit_activity (e : activity) (s : dstate) : dstate :=
  {| ds_payloads := ds_payloads s; ds_events := ds_events s ++ [e]; ds_spent := ds_spent s;
     ds_prompt := ds_prompt s; ds_session := ds_session s |}.
Definition set_session (sid : option string) (s : dstate) : dstate :=
  {| ds_payloads := ds_payloads s; ds_events := ds_events s; ds_spent := ds_spent s;
     ds_prompt := ds_prompt s; ds_session := sid |}.
Definition set_prompt (prompt : string) (s : dstate) : dstate :=
  {| ds_payloads := ds_payloads s; ds_events := ds_events s; ds_spent := ds_spent s;
     ds_prompt := prompt; ds_session := ds_session s |}.
Definition charge (cost : option Q) (s : dstate) : dstate :=
  {| ds_payloads := ds_payloads s; ds_events := ds_events s;
     ds_spent := match cost with Some c => ds_spent s + c | None => ds_spent s end;
     ds_prompt := ds_prompt s; ds_session := ds_session s |}.

Section agent.
Context (world : nat -> answer) (polls : nat).
Context (json_parse : string -> option jsval) (compiledSchema : jsval -> bool).
Context (parse_message : chars -> string) (errorsText : jsval -> string) (blank_reply : string -> bool).

Definition summarizeExtractionAttempts (attempts : list attempt) : string :=
  match attempts with
  | [] => "No JSON object or array was found in the response."
  | _ => joinS nl (imap (fun idx a =>
           "Candidate " +:+ pretty (S idx) +:+
           match a with
           | ParseError raw => ": JSON parse error: " +:+ parse_message raw
           | Invalid _ parsed => ": schema validation failed: " +:+ errorsText parsed
           end) attempts)
  end.

Definition initialPrompt (o : agent_opts) : string :=
  match ao_schema o with
  | Some schema => ao_prompt o +:+ nl +:+ nl +:+
                   "Only provide your response strictly as per this JSON schema:" +:+ nl +:+ schema
  | None => ao_prompt o
  end.

Definition maxRepairs (o : agent_opts) : nat :=
  match ao_schema o with Some _ => default 2 (ao_schemaRetries o) | None => 0 end.

Definition send (p : payload) (s : dstate) : answer * dstate :=
  (world (length (ds_payloads s)),
   {| ds_payloads := ds_payloads s ++ [p]; ds_events := ds_events s; ds_spent := ds_spent s;
      ds_prompt := ds_prompt s; ds_session := ds_session s |}).

(** The loop that polls a busy member. *)
Fixpoint busy_wait (polls : nat) (p : payload) (a : answer) (s : dstate) : answer * dstate :=
  match polls with
  | 0 => (a, s)
  | S polls' =>
      if failed_with "busy" a then let '(a', s') := send p s in busy_wait polls' p a' s' else (a, s)
  end.

(** The session a repair resumes: the failed attempt's, by id, or none. *)
Definition repair_resume (session : option string) : jsval :=
  match session with Some id => JStr id | None => JBool false end.

(** The dispatches of one attempt. *)
Definition send_attempt (o : agent_opts) (attempt : nat) (s : dstate) : answer * dstate :=
  let isRepair := (0 <? attempt)%nat in
  let resume := if isRepair then repair_resume (ds_session s)
                else if nullish (ao_resume o) then JBool false else ao_resume o in
  let p := {| pl_attempt := attempt; pl_prompt := ds_prompt s; pl_resume := resume |} in
  let '(a, s) := send p s in
  let '(a, s) := busy_wait polls p a s in
  if isRepair && failed_with "session_not_found" a
  then send {| pl_attempt := attempt; pl_prompt := pl_prompt p; pl_resume := JBool false |} s
  else (a, s).

Definition session_of (r : exec_result) : option string :=
  sc ← er_structured r; id ← sc_sessionId sc; if nonempty id then Some id else None.

(** The text the value of a reply is read from. *)
Definition reply_text (r : exec_result) (text : string) : string :=
  default text (er_structured r ≫= sc_response).

Definition reply_blank (r : exec_result) (text : string) : bool :=
  match er_structured r ≫= sc_response with
  | Some response => negb (nonempty (trim response))
  | None => blank_reply text
  end.

Definition extraction_of (r : exec_result) : list attempt + (chars * jsval) :=
  extractStructuredOutput json_parse compiledSchema (chars_of (reply_text r (default "" (head (er_texts r))))).

Definition errors_of (r : exec_result) : string :=
  match extraction_of r with inl attempts => summarizeExtractionAttempts attempts | inr _ => "" end.

(** What an answer means: the call ends, or its output is repaired. *)
Inductive verdict := Done (o : dispatch_outcome) | RepairWith (errors : string).

Definition classify (o : agent_opts) (attempt : nat) (r : exec_result) : verdict :=
  match er_structured r with
  | Some {| sc_isError := true; sc_reason := reason |} =>
      Done (Threw (AgentDispatch (match reason with Some (String c w) => String c w | _ => "unknown" end)))
  | _ =>
      match fleetToolFailureOf r with
      | Some _ => Done (Threw (AgentDispatch "transport_failure"))
      | None =>
          match er_texts r with
          | [] => Done (Threw AgentOutput)
          | text :: _ =>
              if member_missing text then Done (Threw MemberNotFound)
              else if reply_blank r text then Done (Threw (AgentDispatch "empty_response"))
              else match ao_schema o with
                   | None => Done (Returned (JStr (reply_text r text)))
                   | Some _ =>
                       match extraction_of r with
                       | inr (_, v) => Done (Returned v)
                       | inl _ => if (attempt <? maxRepairs o)%nat then RepairWith (errors_of r)
                                  else Done (Threw AgentOutput)
                       end
                   end
          end
      end
  end.

(** The session id is recorded once the answer is known not to be a failure. *)
Definition records_session (r : exec_result) : bool :=
  match er_structured r with
  | Some sc => negb (sc_isError sc)
  | None => true
  end && bool_decide (fleetToolFailureOf r = None).

Definition returned (v : verdict) : bool := match v with Done (Returned _) => true | _ => false end.

Definition over_budget (o : agent_opts) (s : dstate) : bool :=
  match ao_budget o with Some total => Qle_bool (total - ds_spent s) 0 | None => false end.

(** One turn of the loop. *)
Definition run_attempt (o : agent_opts) (attempt : nat) (s : dstate) : verdict * dstate :=
  if over_budget o s then (Done (Threw BudgetExceeded), s)
  else
    let '(a, s) := send_attempt o attempt (emit_activity (AStart attempt) s) in
    match a with
    | Rejected aborted =>
        (Done (Threw (if aborted : bool then Cancelled else FleetTransport)), emit_activity (AEnd attempt false) s)
    | Answered r =>
        let s := charge (er_cost r) s in
        let s := if records_session r then set_session (session_of r) s else s in
        let v := classify o attempt r in
        let s := emit_activity (AEnd attempt (returned v)) s in
        (v, match v with RepairWith errors => set_prompt (buildRepairPrompt errors (initialPrompt o)) s | Done _ => s end)
    end.

(** [left] turns may follow this one. *)
Fixpoint dispatch_loop (o : agent_opts) (left attempt : nat) (s : dstate) : dispatch_outcome * dstate :=
  match run_attempt o attempt s with
  | (Done r, s') => (r, s')
  | (RepairWith _, s') =>
      match left with
      | 0 => (Threw LoopExhausted, s')
      | S left' => dispatch_loop o left' (S attempt) s'
      end
  end.

Definition agentDispatch (o : agent_opts) (spent : Q) : dispatch_outcome * dstate :=
  dispatch_loop o (maxRepairs o) 0
    {| ds_payloads := []; ds_events := []; ds_spent := spent; ds_prompt := initialPrompt o; ds_session := None |}.
End agent.
