(* ===== verification/AgentProps.v ===== *)
(** * What a dispatch guarantees

    The repair loop is bounded and always answers; every activity it starts
    ends once, and only the last can succeed; a repair resumes the session of
    the attempt that failed, or a fresh one, and re-asks the original prompt;
    a value returned under a schema satisfies it. *)

From Stdlib Require Import Ascii QArith.
From S2P Require Import Prelude JsMap JsVal Text Journal Extract ExtractProps Agent.
Local Open Scope string_scope.
Local Open Scope list_scope.

Section agent.
Context (world : nat -> answer) (polls : nat).
Context (json_parse : string -> option jsval) (compiledSchema : jsval -> bool).
Context (parse_message : chars -> string) (errorsText : jsval -> string) (blank_reply : string -> bool).

Notation send_attempt := (send_attempt world polls).
Notation errors_of := (errors_of json_parse compiledSchema parse_message errorsText).
Notation extraction_of := (extraction_of json_parse compiledSchema).
Notation classify := (classify json_parse compiledSchema parse_message errorsText blank_reply).
Notation run_attempt := (run_attempt world polls json_parse compiledSchema parse_message errorsText blank_reply).
Notation dispatch_loop := (dispatch_loop world polls json_parse compiledSchema parse_message errorsText blank_reply).
Notation agentDispatch := (agentDispatch world polls json_parse compiledSchema parse_message errorsText blank_reply).

(** ** The dispatches of an attempt *)

Definition first_resume (o : agent_opts) (attempt : nat) (session : option string) : jsval :=
  if (0 <? attempt)%nat then repair_resume session
  else if nullish (ao_resume o) then JBool false else ao_resume o.

(** [s'] is [s] after sending [ps]; [a] is the answer to the last of them. *)
Definition sent (ps : list payload) (a : answer) (s s' : dstate) : Prop :=
  ps <> [] /\ a = world (length (ds_payloads s') - 1) /\
  s' = {| ds_payloads := ds_payloads s ++ ps; ds_events := ds_events s; ds_spent := ds_spent s;
          ds_prompt := ds_prompt s; ds_session := ds_session s |}.

Lemma sent_one p s : sent [p] (send world p s).1 s (send world p s).2.
Proof. split; [done|]. split; [|done]. cbn. rewrite length_app. cbn. f_equal. lia. Qed.

Lemma sent_app ps qs a b s s1 s2 : sent ps a s s1 -> sent qs b s1 s2 -> sent (ps ++ qs) b s s2.
Proof.
  intros (Hp & _ & ->) (Hq & -> & ->). split; [by destruct ps|]. split; [done|]. cbn. by rewrite app_assoc.
Qed.

Lemma busy_wait_sent n p a s :
  (busy_wait world n p a s = (a, s)) \/
  exists k, k < n /\ sent (replicate (S k) p) (busy_wait world n p a s).1 s (busy_wait world n p a s).2.
Proof.
  revert a s. induction n as [|n IH]; intros a s; [by left|]. cbn [busy_wait].
  destruct (failed_with "busy" a); [|by left]. right. pose proof (sent_one p s) as H1.
  destruct (send world p s) as [a1 s1]. cbn [fst snd] in H1. destruct (IH a1 s1) as [->|(k & Hk & H2)].
  - exists 0. split; [lia|done].
  - exists (S k). split; [lia|]. change (replicate (S (S k)) p) with ([p] ++ replicate (S k) p). by eapply sent_app.
Qed.

Lemma send_attempt_sent o i s :
  exists ps, sent ps (send_attempt o i s).1 s (send_attempt o i s).2 /\ length ps <= polls + 2 /\
    forall p, p ∈ ps -> pl_attempt p = i /\ pl_prompt p = ds_prompt s /\
      (pl_resume p = first_resume o i (ds_session s) \/ (0 < i /\ pl_resume p = JBool false)).
Proof.
  unfold Agent.send_attempt. fold (first_resume o i (ds_session s)).
  set (p := {| pl_attempt := i; pl_prompt := ds_prompt s; pl_resume := first_resume o i (ds_session s) |}).
  pose proof (sent_one p s) as H1. destruct (send world p s) as [a1 s1]. cbn [fst snd] in H1.
  assert (H2 : exists k, k <= polls /\ sent (replicate (S k) p) (busy_wait world polls p a1 s1).1 s (busy_wait world polls p a1 s1).2).
  { destruct (busy_wait_sent polls p a1 s1) as [->|(k & Hk & H2)]; [exists 0; split; [lia|done]|].
    exists (S k). split; [lia|]. change (replicate (S (S k)) p) with ([p] ++ replicate (S k) p). by eapply sent_app. }
  destruct H2 as (k & Hk & H2). destruct (busy_wait world polls p a1 s1) as [a2 s2]. cbn [fst snd] in H2.
  destruct ((0 <? i)%nat && failed_with "session_not_found" a2) eqn:Hre.
  - eexists. split; [eapply sent_app; [exact H2|apply sent_one]|]. split.
    { rewrite length_app, length_replicate. cbn. lia. }
    intros q [(-> & _)%elem_of_replicate| ->%list_elem_of_singleton]%elem_of_app; cbn.
    + split; [done|]. split; [done|]. by left.
    + split; [done|]. split; [done|]. right. split; [|done].
      apply andb_true_iff in Hre as [Hi _]. by apply Nat.ltb_lt.
  - exists (replicate (S k) p). split; [done|]. split; [rewrite length_replicate; lia|].
    intros q (-> & _)%elem_of_replicate. cbn. split; [done|]. split; [done|]. by left.
Qed.

(** ** What an answer means *)

Lemma classify_repair o i r errors :
  classify o i r = RepairWith errors ->
  errors = errors_of r /\ (exists a, extraction_of r = inl a) /\ records_session r = true /\ i < maxRepairs o.
Proof.
  unfold Agent.classify, records_session.
  destruct (er_structured r) as [[[|] reason sid resp]|] eqn:Hsc; [done| |].
  all: destruct (fleetToolFailureOf r); [done|]; destruct (er_texts r) as [|text texts]; [done|].
  all: destruct (member_missing text); [done|]; destruct (reply_blank _ _ _); [done|].
  all: destruct (ao_schema o); [|done]; destruct (extraction_of r) as [a|[raw v]]; [|done].
  all: destruct (i <? maxRepairs o)%nat eqn:Hi; [|done]; intros [= <-].
  all: split; [done|]; split; [eauto|]; split; [done|by apply Nat.ltb_lt].
Qed.

Lemma classify_returned o i r v :
  classify o i r = Done (Returned v) -> ao_schema o <> None -> compiledSchema v = true.
Proof.
  unfold Agent.classify. intros Hc Hs.
  destruct (er_structured r) as [[[|] reason sid resp]|] eqn:Hsc; [done| |].
  all: destruct (fleetToolFailureOf r); [done|]; destruct (er_texts r) as [|text texts]; [done|].
  all: destruct (member_missing text); [done|]; destruct (reply_blank _ _ _); [done|].
  all: destruct (ao_schema o); [|done]; destruct (extraction_of r) as [a|[raw w]] eqn:Hx;
    [by destruct (i <? maxRepairs o)%nat|].
  all: injection Hc as ->; unfold Agent.extraction_of in Hx; rewrite extract_all in Hx;
    by apply try_all_inr in Hx as [[_ ?] _].
Qed.

(** ** Between attempts *)

(** The activities of the first [i] attempts, all repaired. *)
Definition failed_activities (i : nat) : list activity := concat ((fun j => [AStart j; AEnd j false]) <$> seq 0 i).

Lemma failed_activities_S i : failed_activities (S i) = failed_activities i ++ [AStart i; AEnd i false].
Proof. unfold failed_activities. by rewrite seq_S, fmap_app, concat_app. Qed.

(** A payload of a repair comes after a last dispatch of the attempt before,
    whose reply has no valid value: it re-asks the original prompt with the
    reasons, and resumes that reply's session or none. *)
Definition repairs_reply (o : agent_opts) (ps : list payload) (n : nat) (p : payload) : Prop :=
  match pl_attempt p with
  | 0 => pl_prompt p = initialPrompt o /\ pl_resume p = first_resume o 0 None
  | S i => exists m q r, m < n /\ ps !! m = Some q /\ pl_attempt q = i /\
      (forall j q', m < j -> ps !! j = Some q' -> i < pl_attempt q') /\
      world m = Answered r /\ (exists a, extraction_of r = inl a) /\
      pl_prompt p = buildRepairPrompt (errors_of r) (initialPrompt o) /\
      (pl_resume p = JBool false \/ exists id, session_of r = Some id /\ pl_resume p = JStr id)
  end.

Definition targets_ok (o : agent_opts) (ps : list payload) : Prop :=
  forall n p, ps !! n = Some p -> repairs_reply o ps n p.

Record ready (o : agent_opts) (i : nat) (s : dstate) : Prop := {
  rd_events : ds_events s = failed_activities i;
  rd_count : length (ds_payloads s) <= i * (polls + 2);
  rd_targets : targets_ok o (ds_payloads s);
  rd_past : forall p, p ∈ ds_payloads s -> pl_attempt p < i;
  rd_next : match i with
            | 0 => ds_payloads s = [] /\ ds_prompt s = initialPrompt o /\ ds_session s = None
            | S j => exists m q r, S m = length (ds_payloads s) /\ ds_payloads s !! m = Some q /\ pl_attempt q = j /\
                world m = Answered r /\ (exists a, extraction_of r = inl a) /\
                ds_prompt s = buildRepairPrompt (errors_of r) (initialPrompt o) /\ ds_session s = session_of r
            end
}.

(** The payloads of the next attempt. *)
Lemma ready_targets o i s ps :
  ready o i s ->
  (forall p, p ∈ ps -> pl_attempt p = i /\ pl_prompt p = ds_prompt s /\
     (pl_resume p = first_resume o i (ds_session s) \/ (0 < i /\ pl_resume p = JBool false))) ->
  targets_ok o (ds_payloads s ++ ps).
Proof.
  intros [_ _ Ht Hpast Hnext] Hps n p Hn. apply lookup_app_Some in Hn as [Hn|[Hge Hn]].
  - specialize (Ht n p Hn). unfold repairs_reply in *. destruct (pl_attempt p) as [|i'] eqn:Hi; [done|].
    destruct Ht as (m & q & r & Hm & Hq & Hqi & Hlast & Hrest). exists m, q, r.
    split; [done|]. split; [by apply lookup_app_l_Some|]. split; [done|]. split; [|done].
    intros j q' Hj [Hq'|[_ Hq']]%lookup_app_Some; [by eapply Hlast|].
    apply list_elem_of_lookup_2, Hps in Hq' as [-> _].
    apply list_elem_of_lookup_2, Hpast in Hn. lia.
  - apply list_elem_of_lookup_2, Hps in Hn as (Hi & Hpr & Hre). unfold repairs_reply. rewrite Hi.
    destruct i as [|i].
    + destruct Hnext as (_ & Hp0 & Hs0). rewrite Hpr, Hp0. split; [done|]. destruct Hre as [->|[? _]]; [|lia].
      by rewrite Hs0.
    + destruct Hnext as (m & q & r & Hm & Hq & Hqi & Hw & Hx & Hp & Hses). exists m, q, r. split; [lia|].
      split; [by apply lookup_app_l_Some|]. split; [done|]. split; [|].
      { intros j q' Hj [Hq'|[_ Hq']]%lookup_app_Some; [apply lookup_lt_Some in Hq'; lia|].
        apply list_elem_of_lookup_2, Hps in Hq' as [-> _]. lia. }
      split; [done|]. split; [done|]. rewrite Hpr, Hp. split; [done|].
      destruct Hre as [->|[_ ->]]; [|by left].
      rewrite Hses. cbn. destruct (session_of r) as [id|]; [right; by exists id|by left].
Qed.

Definition refused (res : dispatch_outcome) : bool :=
  match res with Threw BudgetExceeded => true | _ => false end.
Definition succeeded (res : dispatch_outcome) : bool :=
  match res with Returned _ => true | Threw _ => false end.

(** A finished call: its activities, its dispatches, its result. *)
Record finished (o : agent_opts) (i : nat) (res : dispatch_outcome) (s : dstate) : Prop := {
  fi_index : i <= maxRepairs o;
  fi_events : ds_events s = failed_activities i ++ (if refused res then [] else [AStart i; AEnd i (succeeded res)]);
  fi_count : length (ds_payloads s) <= S i * (polls + 2);
  fi_targets : targets_ok o (ds_payloads s);
  fi_valid : forall v, res = Returned v -> ao_schema o <> None -> compiledSchema v = true;
  fi_stops : res <> Threw LoopExhausted
}.

Lemma classify_stops o i r e :
  classify o i r = Done (Threw e) -> e <> BudgetExceeded /\ e <> LoopExhausted.
Proof.
  unfold Agent.classify. repeat case_match; intros Heq; simplify_eq; done.
Qed.

(** The dispatches of an attempt, before its answer is looked at. *)
Lemma attempt_sent o i s :
  ready o i s ->
  let '(a, s1) := send_attempt o i (emit_activity (AStart i) s) in
  exists ps, ps <> [] /\ ds_payloads s1 = ds_payloads s ++ ps /\ (forall p, p ∈ ps -> pl_attempt p = i) /\
    a = world (length (ds_payloads s1) - 1) /\ ds_events s1 = failed_activities i ++ [AStart i] /\
    targets_ok o (ds_payloads s1) /\ length (ds_payloads s1) <= S i * (polls + 2).
Proof.
  intros Hr. set (s0 := emit_activity (AStart i) s).
  destruct (send_attempt_sent o i s0) as (ps & (Hne & Ha & Hs') & Hlen & Hps).
  destruct (send_attempt o i s0) as [a s1]. cbn [fst snd] in *. exists ps. split; [done|].
  assert (Hpay : ds_payloads s1 = ds_payloads s ++ ps) by (by rewrite Hs').
  split; [done|]. split; [intros p Hp; apply Hps, Hp|]. split; [done|]. split.
  { rewrite Hs'. cbn. destruct Hr as [-> _ _ _ _]. done. }
  rewrite Hpay. split; [by apply ready_targets with i|]. rewrite length_app. destruct Hr. lia.
Qed.

Lemma run_attempt_step o i s :
  ready o i s -> i <= maxRepairs o ->
  match run_attempt o i s with
  | (Done res, s') => finished o i res s'
  | (RepairWith _, s') => ready o (S i) s' /\ S i <= maxRepairs o
  end.
Proof.
  intros Hr Hi. unfold Agent.run_attempt. destruct (over_budget o s).
  { destruct Hr. split; cbn; [done|by rewrite app_nil_r|lia|done|done|done]. }
  pose proof (attempt_sent o i s Hr) as Hsent.
  destruct (send_attempt o i _) as [a s1]. destruct Hsent as (ps & Hne & Hpay & Hps & Ha & Hev & Ht & Hcount).
  destruct a as [aborted|r].
  { split; cbn.
    - done.
    - rewrite Hev, <-app_assoc. by destruct aborted.
    - done.
    - done.
    - done.
    - by destruct aborted. }
  destruct (classify o i r) as [res|errors] eqn:Hc.
  - split.
    + done.
    + assert (refused res = false) as ->.
      { destruct res as [v|e]; [done|]. destruct (classify_stops _ _ _ _ Hc). by destruct e. }
      destruct (records_session r); cbn; rewrite Hev, <-app_assoc; by destruct res.
    + by destruct (records_session r).
    + by destruct (records_session r).
    + intros v -> Hs. by eapply classify_returned.
    + intros ->. by destruct (classify_stops _ _ _ _ Hc).
  - destruct (classify_repair _ _ _ _ Hc) as (-> & Hx & -> & Hlt). split; [|lia].
    split; cbn [ds_events ds_payloads set_prompt emit_activity set_session charge ds_prompt ds_session returned].
    + rewrite Hev, failed_activities_S, <-app_assoc. done.
    + done.
    + done.
    + rewrite Hpay. intros p [Hp%(rd_past _ _ _ Hr)|Hp%Hps]%elem_of_app; lia.
    + rewrite Hpay in *. destruct (exists_last Hne) as (ps' & q & ->).
      rewrite app_assoc. set (front := ds_payloads s ++ ps') in *. rewrite app_assoc in Ha.
      exists (length front), q, r. split; [rewrite length_app; cbn; lia|].
      split; [by rewrite lookup_app_r, Nat.sub_diag by lia|].
      split; [apply Hps, elem_of_app; right; by apply list_elem_of_singleton|].
      split; [|done]. rewrite Ha. fold front. rewrite length_app. cbn. f_equal. lia.
Qed.

Lemma dispatch_loop_finishes o left i s :
  ready o i s -> left + i = maxRepairs o ->
  exists k, finished o k (dispatch_loop o left i s).1 (dispatch_loop o left i s).2.
Proof.
  revert i s. induction left as [|left IH]; intros i s Hr Hl; cbn [Agent.dispatch_loop];
    pose proof (run_attempt_step o i s Hr ltac:(lia)) as Hstep;
    destruct (run_attempt o i s) as [[res|errors] s']; try (by exists i).
  - lia.
  - destruct Hstep as [Hr' _]. apply IH; [done|lia].
Qed.

Lemma agentDispatch_finishes o spent :
  exists k, finished o k (agentDispatch o spent).1 (agentDispatch o spent).2.
Proof.
  apply dispatch_loop_finishes; [|lia]. split; cbn; [done|lia| |set_solver|done].
  intros n p Hn. done.
Qed.

(** C13: a call's activities are balanced: whatever the fleet answers, the
    journaled activities are one start and one end per attempt, in order, all
    ended as failures except that the last ends as a success just when the call
    returns a value; a call refused for its budget starts no further one. *)
Theorem every_activity_ends_once o spent :
  let '(res, s) := agentDispatch o spent in
  exists k, k <= maxRepairs o /\
    ds_events s = failed_activities k ++ (if refused res then [] else [AStart k; AEnd k (succeeded res)]).
Proof.
  destruct (agentDispatch_finishes o spent) as (k & [Hk He _ _ _ _]).
  destruct (agentDispatch o spent) as [res s]. by exists k.
Qed.

(** C14: the repair of structured output is bounded and always answers: the loop
    never runs out of turns, a call sends at most [polls + 2] dispatches for
    each of at most [maxRepairs + 1] attempts, and what it returns under a
    schema satisfies the schema. *)
Theorem repair_loop_bounded o spent :
  let '(res, s) := agentDispatch o spent in
  length (ds_payloads s) <= S (maxRepairs o) * (polls + 2) /\ res <> Threw LoopExhausted /\
  forall v, res = Returned v -> ao_schema o <> None -> compiledSchema v = true.
Proof.
  destruct (agentDispatch_finishes o spent) as (k & [Hk _ Hc _ Hv Hs]).
  destruct (agentDispatch o spent) as [res s]. cbn in *. split; [nia|]. split; [done|exact Hv].
Qed.

(** C12: a repair re-asks the attempt that failed: every dispatch of a repair
    attempt follows a last dispatch of the attempt before it, whose reply has
    no value that satisfies the schema; its prompt is the original request with
    the reasons of that reply, not a growing chain of prompts; and it resumes
    the session that reply reported, by id, or a fresh one - never the member's
    last session by default. *)
Theorem repair_targets_failed_session o spent :
  targets_ok o (ds_payloads (agentDispatch o spent).2).
Proof. by destruct (agentDispatch_finishes o spent) as (k & []). Qed.
End agent.
